(* ===== verification/_CoqProject ===== *)
-Q . S2P
Prelude.v
Fmt.v
Utf8.v
Text.v
Error.v
Image.v
ImageCodec.v
ImageProps.v
App.v
CountApp.v
BlobKv.v
Kv.v
Proc.v
Atomic.v
AtomicProps.v
Cache.v
CacheChecksum.v
CacheProps.v
CacheTheorems.v
Disk.v
SharedCache.v
SharedAlone.v
SharedInv.v
SharedSteps.v
SharedProps.v
SharedTheorems.v
Store.v
StoreProps.v
FsStore.v
Sim.v
SimProps.v
World.v
Core.v
Compactor.v
Writer.v
Protocol.v
FsStoreProps.v
S3.v
S3Props.v
S3Scenario.v
Invariant.v
Steps.v
StepsCache.v
StepsStore.v
CoreProps.v
CompactorProps.v
WriterInv.v
InstallProps.v
WriterProps.v
Scenario.v
WriterTheorems.v
Batch.v
System.v
Refinement.v
Backends.v
Late.v
Progress.v
GroupCommit.v
GroupInv.v
GroupProps.v
GroupWriter.v
GroupTheorems.v
ReplicaProps.v
MaintenanceProps.v
FootprintProps.v
Availability.v
OptionsProps.v
Testing.v
ImageTests.v
SimTests.v
StoreTests.v
CacheTests.v
WalTests.v
Benches.v
BenchProps.v
GroupTests.v
Mains.v
