(* ===== verification/Prelude.v ===== *)
(** * WalTier: a verification development

    WalTier is a tiered write-ahead log: one small object, the image, holds a
    reference to the latest snapshot and the entries appended since; every
    append rewrites it with a compare-and-swap on its etag; a background
    thread folds entries into a new snapshot; snapshots left behind are queued
    and deleted later; a local directory caches the image and the snapshot.
    This development models the crate's code (src/src) in Rocq and proves what
    it promises. This file is its root and prelude: integers, byte strings,
    results and the tactics and lemmas that all other files share.

    ** Files and what they model

    Data and encodings.
    - [Fmt], [Utf8], [Text]: the formatting, the UTF-8 validation and the text
      processing of the standard library that the crate and its examples use.
    - [Error] (error.rs): [StoreError], [WalError], [WriteError] with their
      constructors and messages.
    - [Image] (image.rs): the image's byte format, LSN arithmetic, budgets,
      [encode_view] and [decode] with its cursor. [ImageCodec] has the lemmas,
      [ImageProps] the properties: decoding inverts encoding both ways, the
      format is canonical and prefix-free, budgets are checked exactly, LSNs
      never wrap.

    Local storage.
    - [Atomic] (cache.rs, the first part): the file operations used, over a
      finite map of files with an arbitrary list of I/O faults, and
      [write_atomic]. [AtomicProps]: publication is all-or-nothing.
    - [Cache] (cache.rs): checksum, framing, identities, loads, saves and
      retention. [CacheChecksum], [CacheProps], [CacheTheorems]: the streaming
      checksum equals the format's independent spelling and detects single-byte
      damage; a hit is always this log's own record; retention is exact.
    - [Disk]: the same file operations one system call at a time, over
      directory entries, inodes, open files and each process's counter of
      temporary names, with a record of what happened. [SharedCache] (cache.rs
      again): [write_atomic] and every cache operation as threads over it.
      [SharedAlone]: run alone, each of them is the operation of [Atomic] and
      [Cache], so those files' theorems are about this code.

    Object stores.
    - [Store] (store.rs): the [ObjectStore] trait as the class [ObjectStore],
      what a backend promises as the class [ObjectStoreLaws], its default
      methods and [MemoryStore]. A mutation whose outcome is [Unknown] may
      still be in flight ([late]) and arrive later ([land]). [StoreProps]: [MemoryStore] keeps the promises.
    - [FsStore] (store.rs): the directory-backed store over the files of
      [Atomic]; [FsStoreProps]: it keeps the promises too.
    - [Sim] (sim.rs): the SplitMix64 generator and the fault-injecting
      [SimStore]. [SimProps]: the generator has full period; [SimStore] keeps
      the promises over any store that does, so every theorem about the log
      holds under injected faults.

    - [S3] (s3.rs): [S3Store] over HTTP. The URL parser, [rusty_s3]'s signing
      and [ureq]'s agent with the network behind it are the class [S3Client];
      [S3Props] states what the service documents of conditional requests as
      the class [S3Service] and proves [ObjectStoreLaws] over it, so every
      theorem about the log holds on S3: an unanswered PUT or DELETE is
      executed at once, or is in flight and arrives later, after any reads, or
      never. [S3Scenario] is a concrete service that loses replies and delays
      requests.

    The log.
    - [App] (lib.rs): the [WalApp] trait as a class with its default methods;
      the documented contract of its callbacks is [WalAppLaws]: restoring a
      compacted prefix equals replaying it, up to an equivalence of states.
      [CountApp] (benches/cache.rs) and [BlobKv] (benches/wal.rs) are
      applications that keep it.
    - [Proc]: effectful code as trees of atomic actions on a shared world,
      their concurrent semantics ([exec]: one thread among others that obey a
      rely; [pstep]: a pool of threads, interleaved) and the rely-guarantee
      weakest precondition [wp] with its soundness for both.
    - [World] (wal.rs, lines 13-192): options, compaction states, statuses,
      and the world: one store, one file system, entropy, compaction threads
      with their channels; the atomic actions.
    - [Core] (wal.rs, lines 194-459 and 1045-1088): open, refresh, cache
      checkpoints, and the read-only [Replica].
    - [Compactor] (wal.rs, lines 974-1043): the compaction thread.
    - [Writer] (wal.rs, lines 461-972): [WalTier]: appends, reconciliation, the
      compaction state machine, the garbage queue, flush and close.

    The examples.
    - [Kv] (examples/kv.rs): the key-value application, with the finding that
      its snapshots do not keep separators in values; the last write of a key
      wins ([kv_last_write_wins]). [Batch]
      (examples/batch.rs): the allocator of dense identifiers.
    - [GroupCommit] (examples/group_commit.rs): submitters, the writer's loop
      and the producers, as threads over the log's world and what they share:
      the bounded channel, the stop flag and the receipts. [GroupInv] is the
      invariant of the shared state and the rely of each thread; [GroupProps]
      lifts the log's contracts unchanged ([wp_lift]) and proves the
      producers; [GroupWriter] proves the writer against the list of its
      groups.

    ** The protocol and its proofs

    - [Protocol]: the history of committed batches, which an observer records
      from the log object, and the names of snapshots.
    - [Invariant]: the invariant [inv] of the shared world (the log object is a
      window at the end of the history, every snapshot restores to its prefix
      of the history, the referenced snapshot exists, cache records are true,
      every mutation in flight is [harmless] whenever it arrives),
      what any step may do ([grows]), and the two sides of a handle's contract
      ([rely], [guar]).
    - [Steps], [StepsCache], [StepsStore]: each atomic action keeps them; the
      compare-and-swap is the commit.
    - [CoreProps], [CompactorProps], [WriterInv], [InstallProps],
      [WriterProps]: the contracts of the operations, by composition.

    ** Groups of theorems

    - [System], [Progress]: any number of writers and replicas with any
      sequence of operations, with their compaction threads, interleaved
      action by action from an empty store, under any faults of store and
      disk: no panic, the store determines the state of the whole history,
      acknowledgements are exact ([system_is_safe]); no deadlock, and every
      schedule is finite ([system_terminates]). [tame], [calm] and [brisk]
      classify code by what it may wait for and whether it starts threads. A handle that crashes is a
      thread that is not scheduled any more; one that restarts is a later
      thread of the pool.
    - [Availability]: on a store that answers its requests ([Responsive]), the
      only writer of a log, beside its compaction threads and any number of
      replicas, opens whatever a crash has left and has every append
      acknowledged, in order and without gaps, and every schedule ends there
      ([lone_writer_never_fails]); [lrely] and [lguar] refine the protocol's
      contracts to one owner of the log object.
    - [Refinement]: the abstract specification, an append-only log; what a
      reader computes from the store implements it, action by action.
    - [Backends]: the log's theorems on any store of the crate, and a run on
      S3 in which the reply to an append is lost.
    - [Late]: the system with the network as one more kind of thread, whose
      actions are the late arrivals of requests reported as [Unknown]: it is
      as safe as before, and an arrival adds nothing to the history but one
      delayed append, over the image it was made for
      ([late_mutations_are_safe]). Arrivals are steps of other threads that
      [rely] allows, so the theorems of [WriterTheorems] hold beside them.
    - [WriterTheorems]: the same per operation, for one handle among others:
      append, open, refresh, flush, garbage collection, compaction.
    - [FootprintProps], [ReplicaProps]: what each operation may change in the
      store, and how often; a replica changes nothing.
    - [MaintenanceProps]: where each operation may leave the compaction and when
      it may start work, and that no snapshot is forgotten ([op_moves]);
      failures stay until acknowledged. [OptionsProps]: validation and the
      bound of the garbage queue.
    - [SharedInv], [SharedSteps], [SharedProps], [SharedTheorems]: any number
      of threads of any processes in one cache directory, interleaved call by
      call under any I/O faults: every visible file always holds one
      operation's complete content, a hit is a record that a client of the
      same backend and log saved under the same key, nobody waits and nobody
      panics, and temporary files of others are left alone; there is one order
      of whole effects that every client's operations fit in
      ([shared_cache_never_mixes_records], [shared_cache_is_in_order],
      [overlapping_writers_publish_complete_frames]).
    - [BenchProps]: the benchmark of benches/cache.rs comes to its end under
      every schedule and cache policy, with the count that it asserts
      ([cache_bench_counts]), unless a compaction, the creation of its thread
      or a deletion fails; what the reported percentiles mean; the contract of
      the benchmarks' applications.
    - [GroupTheorems]: the group-commit program, any number of producers with
      any entries beside other clients of the log: bounded, truthful to every
      producer, which panics only for a cause that is named, accounted for, and it always ends with every request answered.
    - [Scenario]: initial worlds, and concrete runs that the instances of the
      theorems evaluate.

    ** Tests and programs

    [Testing] is a small monad for the crate's unit tests: they thread a state
    through calls and stop at the first assertion that fails. [ImageTests],
    [CacheTests], [SimTests], [StoreTests], [WalTests] and [GroupTests]
    translate the tests of their modules; each is evaluated, or proved where
    the test leaves the interleaving to the scheduler or its sizes do not
    matter. [Mains] has the [main]s of the examples as threads with the threads
    they start, and a run of each to its end. [Benches] has the benchmarks:
    their workloads with their constants and assertions, the cases and the
    arguments of their [main]s, the percentiles, and runs of the workloads
    with small parameters; a failed assertion or [unwrap] is the result.

    ** Choices of the model

    - A store request, a cache operation, drawing entropy and each operation
      on a channel or thread are single atomic actions of the log's threads;
      code between them is pure. A load, a save and a removal of the cache are
      one action each, a retention is its listing and its removals:
      [shared_cache_is_in_order] shows of the operations interleaved call by
      call that they take effect in this way.
    - Loops of the code that are bounded by a constant or an option are
      recursions on that bound: [MAX_RACES] = 8 reads of a moving log,
      [max_write_attempts] attempts of an append or a flush (fuel equal to the
      option, never exhausted before the code's own exit). The search for a
      temporary name has fuel one more than the number of files, which is
      enough ([AtomicProps]).
    - The writer's loop of group commit has fuel above the number of entries of
      all producers; a group takes at least one accepted request, so the fuel
      is never exhausted. Its clients start no compactions, as its writer does
      ([should_compact] is false), so its waits are only those for channels.
    - u64 arithmetic wraps as in a release build where the code does not check
      it; the proofs show that it never does.
    - Foreground callbacks of the application return, as the trait documents;
      [compact] may panic, which ends its thread.
    - [ObjectStoreLaws] states of a backend what the crate's documentation
      asks: linearizable requests, conditional puts, an honest outcome of a
      failed mutation, and validators that identify a version for ever. A
      request takes effect at one moment: within the call, or, for a mutation
      reported as [Unknown], possibly at a later one, when its precondition is
      checked.

    ** Not modelled

    - Timing: latencies are only their draws of the generator; mutexes of a
      store are the atomicity of its requests.
    - Late arrivals in the pools of [System], [Progress], [Refinement],
      [Availability], [GroupTheorems] and [BenchProps]: there, requests in
      flight never arrive. [Late] covers them for the safety of the log.
    - What [ureq] and the S3 service do inside a request: the class
      [S3Service] is their documentation, not a model of their code.
    - What the benchmarks measure with: the clock, the allocator that meters
      the heap (benches/resources.rs) and the formatting of what they and the
      examples' [main]s print. The barriers of benches/review.rs and
      resources.rs, which hold a compaction back, only exclude schedules: the
      workloads are modelled without them.
    - Of the tests: channels and sleeps that only fix an order of threads,
      which here is the order in which the threads take their actions. *)

From Stdlib Require Export ZArith Lia Strings.Byte Strings.String.
From stdpp Require Export base numbers list strings gmap.

#[global] Open Scope string_scope.
#[global] Open Scope list_scope.
#[global] Open Scope Z_scope.
#[global] Set Default Goal Selector "!".

(** ** Machine integers

    The crate runs on 64-bit targets: [usize], [u64] and [Lsn] are integers
    of [Z] in [0, 2^64), [u32] in [0, 2^32), [isize::MAX] is [2^63 - 1]. *)

Definition U8_MAX : Z := 255.
Definition U16_MAX : Z := 65535.
Definition U32_MAX : Z := 4294967295.
Definition U64_MAX : Z := 18446744073709551615.
Definition USIZE_MAX : Z := U64_MAX.
Definition ISIZE_MAX : Z := 9223372036854775807.

(** [u64::checked_add], [checked_sub], [saturating_add], [saturating_sub] and
    the wrapping [+] and [*] of a release build. *)
Definition checked_add (a b : Z) : option Z :=
  if a + b <=? U64_MAX then Some (a + b) else None.
Definition checked_sub (a b : Z) : option Z :=
  if b <=? a then Some (a - b) else None.
Definition saturating_add (a b : Z) : Z := Z.min U64_MAX (a + b).
Definition saturating_sub (a b : Z) : Z := Z.max 0 (a - b).
Definition wrap64 (a : Z) : Z := a mod 2 ^ 64.
Definition wrapping_add (a b : Z) : Z := wrap64 (a + b).
Definition wrapping_mul (a b : Z) : Z := wrap64 (a * b).

Definition is_u64 (z : Z) : Prop := 0 <= z <= U64_MAX.
Definition is_u32 (z : Z) : Prop := 0 <= z <= U32_MAX.

(** ** Results

    [Result<T, E>]; [let? x := r in k] is the [?] operator. *)
Inductive Result (A E : Type) : Type :=
  | Ok (a : A)
  | Err (e : E).
Arguments Ok {A E} a.
Arguments Err {A E} e.

Definition rbind {A B E} (r : Result A E) (k : A -> Result B E) : Result B E :=
  match r with Ok a => k a | Err e => Err e end.
Definition map_err {A E F} (f : E -> F) (r : Result A E) : Result A F :=
  match r with Ok a => Ok a | Err e => Err (f e) end.
Definition is_ok {A E} (r : Result A E) : bool :=
  match r with Ok _ => true | Err _ => false end.
Definition ok_or {A E} (o : option A) (e : E) : Result A E :=
  match o with Some a => Ok a | None => Err e end.

Declare Scope waltier_scope.
Delimit Scope waltier_scope with waltier.
#[global] Open Scope waltier_scope.
Notation "'let?' x ':=' r 'in' k" := (rbind r (fun x => k))
  (at level 10, x pattern, r at level 100, k at level 200)
  : waltier_scope.

(** ** Bytes and strings

    A byte is [Byte.byte]; [Vec<u8>] and [&[u8]] are [list byte]; a Rust
    [String] is a Rocq [string], whose characters are its UTF-8 bytes. *)
Abbreviation bytes := (list byte).

#[global] Instance byte_eq_decision : EqDecision byte := Byte.byte_eq_dec.

Definition zlen {A} (l : list A) : Z := Z.of_nat (length l).

(** [str::as_bytes], [str::len]. *)
Definition as_bytes (s : string) : bytes := list_byte_of_string s.
Definition str_len (s : string) : Z := zlen (as_bytes s).

Definition byte_val (b : byte) : Z := Z.of_N (Byte.to_N b).
Definition byte_of (z : Z) : byte :=
  match Byte.of_N (Z.to_N (z mod 256)) with Some b => b | None => x00 end.

(** [to_le_bytes] at width [n] bytes and [from_le_bytes]. *)
Fixpoint to_le_bytes (n : nat) (z : Z) : bytes :=
  match n with
  | O => []
  | S n => byte_of z :: to_le_bytes n (z / 256)
  end.
Fixpoint from_le_bytes (bs : bytes) : Z :=
  match bs with
  | [] => 0
  | b :: bs => byte_val b + 256 * from_le_bytes bs
  end.

(** [<[u8]>::strip_prefix], [str::strip_prefix] *)
Definition strip_prefix (p bs : bytes) : option bytes :=
  if bool_decide (take (length p) bs = p) then Some (drop (length p) bs) else None.

(** ** Tactics *)

(** Break the goal or a hypothesis at its first [match]. *)
Ltac destr_match :=
  match goal with
  | |- context [match ?x with _ => _ end] => destruct x eqn:?
  end.
Ltac destr_match_in H :=
  match type of H with
  | context [match ?x with _ => _ end] => destruct x eqn:?
  end.

(** Turn boolean comparisons of integers into propositions. *)
Ltac zbool :=
  repeat match goal with
  | H : (_ <=? _) = true |- _ => apply Z.leb_le in H
  | H : (_ <=? _) = false |- _ => apply Z.leb_gt in H
  | H : (_ <? _) = true |- _ => apply Z.ltb_lt in H
  | H : (_ <? _) = false |- _ => apply Z.ltb_ge in H
  | H : (_ >? _) = _ |- _ => rewrite Z.gtb_ltb in H
  | H : (_ =? _) = true |- _ => apply Z.eqb_eq in H
  | H : (_ =? _) = false |- _ => apply Z.eqb_neq in H
  end.

(** Invert a [let?] chain that returned [Ok]. *)
Ltac inv_ok H :=
  let a := fresh "a" in
  let E := fresh "E" in
  match type of H with
  | rbind ?r _ = Ok _ => destruct r as [a|] eqn:E; cbn [rbind] in H; [|discriminate H]
  end.

Ltac unfold_consts :=
  unfold USIZE_MAX, U8_MAX, U16_MAX, U32_MAX, U64_MAX, ISIZE_MAX in *.

(** Linear arithmetic with the lengths and the machine bounds unfolded. *)
Ltac zlia := unfold zlen, is_u64, is_u32 in *; unfold_consts; lia.

Create HintDb waltier.
Create Rewrite HintDb waltier.

(** ** Lemmas on integers *)

Lemma checked_add_Some a b c : checked_add a b = Some c <-> c = a + b /\ a + b <= U64_MAX.
Proof. unfold checked_add. destr_match; zbool; split; intros; destruct_and?; simplify_eq; (lia || (f_equal; lia) || done). Qed.

Lemma checked_add_None a b : checked_add a b = None <-> U64_MAX < a + b.
Proof. unfold checked_add. case_match; zbool; split; intros; simplify_eq; lia || done. Qed.

Lemma checked_sub_Some a b c : checked_sub a b = Some c <-> c = a - b /\ b <= a.
Proof. unfold checked_sub. destr_match; zbool; split; intros; destruct_and?; simplify_eq; (lia || (f_equal; lia) || done). Qed.

Lemma wrap64_small a : is_u64 a -> wrap64 a = a.
Proof. intros H. apply Z.mod_small. zlia. Qed.

Lemma wrap64_range a : is_u64 (wrap64 a).
Proof. unfold wrap64. pose proof (Z.mod_pos_bound a (2 ^ 64)). zlia. Qed.

(** ** Lemmas on lists *)

Lemma zlen_nil {A} : zlen (@nil A) = 0.
Proof. done. Qed.

Lemma zlen_cons {A} (x : A) l : zlen (x :: l) = 1 + zlen l.
Proof. unfold zlen. cbn [length]. lia. Qed.

Lemma zlen_app {A} (l k : list A) : zlen (l ++ k) = zlen l + zlen k.
Proof. unfold zlen. rewrite length_app. lia. Qed.

Lemma zlen_nonneg {A} (l : list A) : 0 <= zlen l.
Proof. unfold zlen. lia. Qed.

Lemma zlen_0_nil {A} (l : list A) : zlen l = 0 -> l = [].
Proof. destruct l; [done|]. unfold zlen. cbn [length]. lia. Qed.

Lemma take_zlen_app {A} (l k : list A) : take (Z.to_nat (zlen l)) (l ++ k) = l.
Proof. unfold zlen. rewrite Nat2Z.id. apply take_app_length. Qed.

Lemma drop_zlen_app {A} (l k : list A) : drop (Z.to_nat (zlen l)) (l ++ k) = k.
Proof. unfold zlen. rewrite Nat2Z.id. apply drop_app_length. Qed.

Lemma zlen_take {A} (l : list A) n : 0 <= n <= zlen l -> zlen (take (Z.to_nat n) l) = n.
Proof. unfold zlen. intros. rewrite length_take. lia. Qed.

Lemma zlen_drop {A} (l : list A) n : 0 <= n <= zlen l -> zlen (drop (Z.to_nat n) l) = zlen l - n.
Proof. unfold zlen. intros. rewrite length_drop. lia. Qed.

#[export] Hint Rewrite @zlen_nil @zlen_cons @zlen_app : waltier.

Lemma app_inj_len {A} (l1 l2 k1 k2 : list A) :
  zlen l1 = zlen l2 -> l1 ++ k1 = l2 ++ k2 -> l1 = l2 /\ k1 = k2.
Proof. unfold zlen. intros Hl He. apply app_inj_1 in He; [done|lia]. Qed.

(** ** Lemmas on bytes *)

Lemma byte_val_range b : 0 <= byte_val b < 256.
Proof. unfold byte_val. pose proof (Byte.to_N_bounded b). lia. Qed.

Lemma byte_of_val b : byte_of (byte_val b) = b.
Proof.
  unfold byte_of. rewrite Z.mod_small by apply byte_val_range.
  unfold byte_val. by rewrite N2Z.id, Byte.of_to_N.
Qed.

Lemma byte_val_of z : byte_val (byte_of z) = z mod 256.
Proof.
  pose proof (Z.mod_pos_bound z 256). unfold byte_of, byte_val.
  destruct (Byte.of_N _) eqn:E.
  - apply Byte.to_of_N in E. rewrite E. lia.
  - apply Byte.of_N_None_iff in E. lia.
Qed.

Lemma byte_val_inj b c : byte_val b = byte_val c -> b = c.
Proof. intros H. by rewrite <- (byte_of_val b), H, byte_of_val. Qed.

Lemma zlen_to_le_bytes n z : zlen (to_le_bytes n z) = Z.of_nat n.
Proof. revert z. induction n as [|n IH]; intros z; cbn [to_le_bytes]; autorewrite with waltier; [done|]. rewrite IH. lia. Qed.
#[export] Hint Rewrite zlen_to_le_bytes : waltier.

Lemma from_to_le_bytes n z : from_le_bytes (to_le_bytes n z) = z mod 256 ^ Z.of_nat n.
Proof.
  revert z. induction n as [|n IH]; intros z.
  { cbn. by rewrite Z.mod_1_r. }
  cbn [to_le_bytes from_le_bytes]. rewrite byte_val_of, IH.
  rewrite Nat2Z.inj_succ, Z.pow_succ_r by lia.
  rewrite Z.rem_mul_r by lia. lia.
Qed.

Lemma from_le_bytes_range bs : 0 <= from_le_bytes bs < 256 ^ zlen bs.
Proof.
  induction bs as [|b bs IH]; [done|]. cbn [from_le_bytes].
  pose proof (byte_val_range b). rewrite zlen_cons, Z.pow_add_r, Z.pow_1_r by zlia. lia.
Qed.

Lemma to_from_le_bytes bs : to_le_bytes (length bs) (from_le_bytes bs) = bs.
Proof.
  induction bs as [|b bs IH]; [done|]. cbn [length from_le_bytes to_le_bytes].
  pose proof (byte_val_range b) as Hb.
  replace ((byte_val b + 256 * from_le_bytes bs) / 256) with (from_le_bytes bs).
  2: { rewrite Z.mul_comm, Z.div_add, Z.div_small by lia. lia. }
  rewrite IH. f_equal. apply byte_val_inj.
  rewrite byte_val_of, Z.mul_comm, Z.mod_add, Z.mod_small by lia. done.
Qed.

Lemma le_bytes_of_len k bs : zlen bs = Z.of_nat k -> to_le_bytes k (from_le_bytes bs) = bs.
Proof. intros H. replace k with (length bs) by zlia. apply to_from_le_bytes. Qed.

Lemma strip_prefix_Some p bs r : strip_prefix p bs = Some r <-> bs = p ++ r.
Proof.
  unfold strip_prefix. case_bool_decide as E; split; intros H; simplify_eq.
  - by rewrite <- E at 1; rewrite take_drop.
  - by rewrite drop_app_length.
  - by rewrite take_app_length in E.
Qed.

(** ** Lemmas on strings *)

Lemma as_bytes_of_list bs : as_bytes (string_of_list_byte bs) = bs.
Proof. apply list_byte_of_string_of_list_byte. Qed.

Lemma of_list_as_bytes s : string_of_list_byte (as_bytes s) = s.
Proof. apply string_of_list_byte_of_string. Qed.

Lemma as_bytes_inj s t : as_bytes s = as_bytes t -> s = t.
Proof. intros H. by rewrite <- (of_list_as_bytes s), H, of_list_as_bytes. Qed.

Lemma as_bytes_app s t : as_bytes (s +:+ t) = as_bytes s ++ as_bytes t.
Proof.
  unfold as_bytes, list_byte_of_string. induction s as [|c s IH]; [done|].
  change (String c s +:+ t) with (String c (s +:+ t)). cbn. f_equal. apply IH.
Qed.

Lemma as_bytes_cons c s : as_bytes (String c s) = Ascii.byte_of_ascii c :: as_bytes s.
Proof. done. Qed.

Lemma str_len_app s t : str_len (s +:+ t) = str_len s + str_len t.
Proof. unfold str_len. by rewrite as_bytes_app, zlen_app. Qed.

Lemma string_app_nil_r (s : string) : s +:+ "" = s.
Proof. apply as_bytes_inj. rewrite as_bytes_app. apply app_nil_r. Qed.

Lemma string_app_assoc (s t u : string) : (s +:+ t) +:+ u = s +:+ (t +:+ u).
Proof. apply as_bytes_inj. by rewrite !as_bytes_app, app_assoc. Qed.

(** Two concatenations whose first halves have the same length agree half by half. *)
Lemma string_app_inj_len (s s' t t' : string) :
  str_len s = str_len s' -> s +:+ t = s' +:+ t' -> s = s' /\ t = t'.
Proof.
  intros Hl He%(f_equal as_bytes). rewrite !as_bytes_app in He.
  apply app_inj_len in He as [??]; [|done]. split; by apply as_bytes_inj.
Qed.

Lemma string_app_inj_l (s t t' : string) : s +:+ t = s +:+ t' -> t = t'.
Proof. intros H. by apply string_app_inj_len in H as [_ ?]. Qed.
