(* ===== verification/Fmt.v ===== *)
(** * Text formatting used by the crate

    [{}] of an unsigned integer, [{:020}], [{:02x}] and [{:016x}] of
    [core::fmt]: the decimal rendering is by digits from the least significant
    one, with enough fuel for a [u64] (20 digits). *)

From S2P Require Import Prelude.


(** A digit in base ten or sixteen, in lower case. *)
Definition digit (d : Z) : Ascii.ascii :=
  Ascii.ascii_of_N (Z.to_N (if d <? 10 then 48 + d else 87 + d)).

(** [n] digits of [z] in base [b], the most significant first, kept in front of [acc]. *)
Fixpoint fixed_digits (b : Z) (n : nat) (z : Z) (acc : string) : string :=
  match n with
  | O => acc
  | S n => fixed_digits b n (z / b) (String (digit (z mod b)) acc)
  end.

(** [{:020}] and [{:016x}]: every [u64] fits in 20 decimal and 16 hexadecimal digits. *)
Definition dec20 (z : Z) : string := fixed_digits 10 20 z "".
Definition hex16 (z : Z) : string := fixed_digits 16 16 z "".
(** [{:02x}] of a byte. *)
Definition hex2 (b : byte) : string := fixed_digits 16 2 (byte_val b) "".

(** [{}]: no leading zeros. *)
Fixpoint dec_digits (fuel : nat) (z : Z) (acc : string) : string :=
  match fuel with
  | O => acc
  | S fuel =>
      let acc := String (digit (z mod 10)) acc in
      if z / 10 =? 0 then acc else dec_digits fuel (z / 10) acc
  end.
Definition dec (z : Z) : string := dec_digits 20 z "".

Example dec_0 : dec 0 = "0". Proof. reflexivity. Qed.
Example dec_max : dec U64_MAX = "18446744073709551615". Proof. reflexivity. Qed.
Example dec20_7 : dec20 7 = "00000000000000000007". Proof. reflexivity. Qed.
Example hex16_cafe : hex16 51966 = "000000000000cafe". Proof. reflexivity. Qed.

(** ** Digits *)

Definition digit_val (c : Ascii.ascii) : Z :=
  let n := Z.of_N (Ascii.N_of_ascii c) in if n <? 58 then n - 48 else n - 87.

Lemma digit_code d : 0 <= d < 16 ->
  Z.of_N (Ascii.N_of_ascii (digit d)) = (if d <? 10 then 48 + d else 87 + d).
Proof.
  intros Hd. unfold digit. rewrite Ascii.N_ascii_embedding; destr_match; zbool; lia.
Qed.

Lemma digit_val_digit d : 0 <= d < 16 -> digit_val (digit d) = d.
Proof.
  intros Hd. unfold digit_val. rewrite digit_code by done.
  repeat destr_match; zbool; lia.
Qed.

Lemma digit_inj d e : 0 <= d < 16 -> 0 <= e < 16 -> digit d = digit e -> d = e.
Proof. intros ?? H. by rewrite <- (digit_val_digit d), H, digit_val_digit. Qed.

(** ** Fixed width *)

Lemma str_len_cons c s : str_len (String c s) = 1 + str_len s.
Proof. unfold str_len. by rewrite as_bytes_cons, zlen_cons. Qed.

Lemma str_len_fixed b n z acc : str_len (fixed_digits b n z acc) = Z.of_nat n + str_len acc.
Proof.
  revert z acc. induction n as [|n IH]; intros z acc; cbn [fixed_digits]; [lia|].
  rewrite IH, str_len_cons. lia.
Qed.

(** A fixed-width rendering determines the number, digit by digit. *)
Lemma fixed_digits_inj b n z z' acc acc' :
  2 <= b <= 16 -> 0 <= z < b ^ Z.of_nat n -> 0 <= z' < b ^ Z.of_nat n ->
  str_len acc = str_len acc' ->
  fixed_digits b n z acc = fixed_digits b n z' acc' -> z = z' /\ acc = acc'.
Proof.
  intros Hb. revert z z' acc acc'.
  induction n as [|n IH]; intros z z' acc acc' Hz Hz' Hl; cbn [fixed_digits].
  { rewrite Z.pow_0_r in *. intros ->. split; [lia|done]. }
  rewrite Nat2Z.inj_succ, Z.pow_succ_r in Hz, Hz' by lia.
  intros He. apply IH in He as [Hq [= Hd Ha]].
  - pose proof (Z.mod_pos_bound z b). pose proof (Z.mod_pos_bound z' b).
    apply digit_inj in Hd; [|lia..]. split; [|done].
    rewrite (Z.div_mod z b), (Z.div_mod z' b) by lia. lia.
  - split; [apply Z.div_pos; lia | apply Z.div_lt_upper_bound; lia].
  - split; [apply Z.div_pos; lia | apply Z.div_lt_upper_bound; lia].
  - rewrite !str_len_cons. lia.
Qed.

Lemma str_len_dec20 z : str_len (dec20 z) = 20.
Proof. unfold dec20. rewrite str_len_fixed. done. Qed.

Lemma dec20_inj a b : is_u64 a -> is_u64 b -> dec20 a = dec20 b -> a = b.
Proof. intros ?? H. by apply fixed_digits_inj in H as [? _]; [|zlia..]. Qed.

Lemma hex2_inj a b : hex2 a = hex2 b -> a = b.
Proof.
  intros H. pose proof (byte_val_range a). pose proof (byte_val_range b).
  apply byte_val_inj. by apply fixed_digits_inj in H as [? _]; [|lia..].
Qed.

Lemma str_len_hex2 b : str_len (hex2 b) = 2.
Proof. unfold hex2. rewrite str_len_fixed. done. Qed.

(** ** Decimal without leading zeros *)

Definition is_digit (c : Ascii.ascii) : bool :=
  let n := Z.of_N (Ascii.N_of_ascii c) in (48 <=? n) && (n <? 58).

Fixpoint string_forallb (p : Ascii.ascii -> bool) (s : string) : bool :=
  match s with EmptyString => true | String c s => p c && string_forallb p s end.

Lemma digit_is_digit d : 0 <= d < 10 -> is_digit (digit d) = true.
Proof.
  intros Hd. unfold is_digit. rewrite digit_code by lia.
  destr_match; zbool; [|lia]. apply andb_true_intro. split; [apply Z.leb_le|apply Z.ltb_lt]; lia.
Qed.

Lemma dec_digits_forallb f z acc :
  string_forallb is_digit acc = true -> string_forallb is_digit (dec_digits f z acc) = true.
Proof.
  revert z acc. induction f as [|f IH]; intros z acc Ha; cbn [dec_digits]; [done|].
  pose proof (Z.mod_pos_bound z 10).
  assert (string_forallb is_digit (String (digit (z mod 10)) acc) = true) as Hc.
  { cbn [string_forallb]. by rewrite digit_is_digit, Ha by lia. }
  destr_match; [done|]. by apply IH.
Qed.

(** The value of a run of decimal digits, read from the most significant one. *)
Fixpoint dec_val (v : Z) (s : string) : Z :=
  match s with EmptyString => v | String c s => dec_val (10 * v + digit_val c) s end.

Lemma dec_val_digits f z acc v : 0 <= z < 10 ^ Z.of_nat f ->
  exists w, dec_val v (dec_digits f z acc) = dec_val w acc /\ (v = 0 -> w = z).
Proof.
  revert z acc v. induction f as [|f IH]; intros z acc v Hz; cbn [dec_digits].
  { exists v. rewrite Z.pow_0_r in Hz. split; [done|lia]. }
  pose proof (Z.mod_pos_bound z 10).
  rewrite Nat2Z.inj_succ, Z.pow_succ_r in Hz by lia.
  destr_match; zbool.
  - exists (10 * v + z mod 10). cbn [dec_val]. rewrite digit_val_digit by lia.
    split; [done|]. intros ->. rewrite (Z.div_mod z 10) at 2 by lia. lia.
  - destruct (IH (z / 10) (String (digit (z mod 10)) acc) v) as (w & Hw & Hv).
    { split; [apply Z.div_pos; lia | apply Z.div_lt_upper_bound; lia]. }
    cbn [dec_val] in Hw. rewrite digit_val_digit in Hw by lia.
    exists (10 * w + z mod 10). split; [done|]. intros ->. rewrite Hv by done.
    rewrite (Z.div_mod z 10) at 3 by lia. lia.
Qed.

Lemma dec_val_dec z : is_u64 z -> dec_val 0 (dec z) = z.
Proof.
  intros Hz. unfold dec. destruct (dec_val_digits 20 z "" 0) as (w & -> & Hw); [zlia|].
  cbn. by apply Hw.
Qed.

Lemma dec_inj a b : is_u64 a -> is_u64 b -> dec a = dec b -> a = b.
Proof. intros ?? H. by rewrite <- (dec_val_dec a), H, dec_val_dec. Qed.

Lemma dec_forallb z : string_forallb is_digit (dec z) = true.
Proof. by apply dec_digits_forallb. Qed.

(** ** Reading a number *)

Definition plus_sign : Ascii.ascii := Ascii.ascii_of_nat 43.

(** [str::parse::<u64>] *)
Definition parse_u64 (s : string) : option Z :=
  let s := match s with String c s' => if Ascii.eqb c plus_sign then s' else s | EmptyString => s end in
  match s with
  | EmptyString => None
  | _ => if string_forallb is_digit s && (dec_val 0 s <=? U64_MAX) then Some (dec_val 0 s) else None
  end.

Example parse_u64_ex : (parse_u64 <$> ["0"; "+18446744073709551615"; "18446744073709551616"; ""; "+"; "-1"; "1 "])
  = [Some 0; Some U64_MAX; None; None; None; None; None].
Proof. reflexivity. Qed.

Lemma dec_head z : exists c s, dec z = String c s.
Proof.
  unfold dec. change 20%nat with (S 19). generalize 19%nat, z, "". intros n. induction n as [|n IH]; intros z' acc.
  - cbn [dec_digits]. destruct (z' / 10 =? 0); eauto.
  - cbn [dec_digits] in IH |- *. destruct (z' / 10 =? 0); eauto.
Qed.

(** The decimal rendering of a number reads back. *)
Lemma parse_u64_dec z : is_u64 z -> parse_u64 (dec z) = Some z.
Proof.
  intros Hz. pose proof (dec_val_dec z Hz) as Hv. pose proof (dec_forallb z) as Hall. destruct (dec_head z) as (c & s & E).
  unfold parse_u64. rewrite E in *. destruct (Ascii.eqb_spec c plus_sign) as [->|_]; [done|].
  rewrite Hall, Hv. by destruct (Z.leb_spec z U64_MAX); [|zlia].
Qed.


(** A run of digits ends at the first other character. *)
Lemma split_at_sep (s s' t t' : string) (a b : Ascii.ascii) :
  string_forallb is_digit s = true -> string_forallb is_digit s' = true ->
  is_digit a = false -> is_digit b = false ->
  s +:+ String a t = s' +:+ String b t' -> s = s' /\ a = b /\ t = t'.
Proof.
  revert s'. induction s as [|c s IH]; intros [|c' s'] Hs Hs' Ha Hb H; cbn [string_forallb] in *.
  - by injection H as -> ->.
  - injection H as -> _. by rewrite Ha in Hs'.
  - injection H as <- _. by rewrite Hb in Hs.
  - apply andb_prop in Hs as [_ Hs], Hs' as [_ Hs'].
    injection H as -> H. apply IH in H as (-> & -> & ->); done.
Qed.

(** A length-prefixed field is self-delimiting: digits, then a colon. *)
Lemma split_at_colon (s s' t t' : string) :
  string_forallb is_digit s = true -> string_forallb is_digit s' = true ->
  s +:+ ":" +:+ t = s' +:+ ":" +:+ t' -> s = s' /\ t = t'.
Proof. intros Hs Hs' H. by apply split_at_sep in H as (-> & _ & ->). Qed.
