(* ===== verification/Utf8.v ===== *)
(** * UTF-8 validation

    [String::from_utf8] of the standard library: the well-formed byte
    sequences of the Unicode standard (no overlong form, no surrogate, nothing
    past U+10FFFF). *)

From S2P Require Import Prelude.

Definition in_range (lo hi v : Z) : bool := (lo <=? v) && (v <=? hi).
Definition cont (b : byte) : bool := in_range 128 191 (byte_val b).

Fixpoint utf8_valid (bs : bytes) : bool :=
  match bs with
  | [] => true
  | b :: r =>
      let v := byte_val b in
      if v <? 128 then utf8_valid r else
      match r with
      | [] => false
      | c1 :: r1 =>
          let v1 := byte_val c1 in
          if in_range 194 223 v then cont c1 && utf8_valid r1 else
          match r1 with
          | [] => false
          | c2 :: r2 =>
              let lo3 := if v =? 224 then 160 else 128 in
              let hi3 := if v =? 237 then 159 else 191 in
              if in_range 224 239 v
              then in_range lo3 hi3 v1 && cont c2 && utf8_valid r2
              else
              match r2 with
              | [] => false
              | c3 :: r3 =>
                  let lo4 := if v =? 240 then 144 else 128 in
                  let hi4 := if v =? 244 then 143 else 191 in
                  in_range 240 244 v && in_range lo4 hi4 v1 && cont c2 && cont c3
                  && utf8_valid r3
              end
          end
      end
  end.

Definition from_utf8 (bs : bytes) : option string :=
  if utf8_valid bs then Some (string_of_list_byte bs) else None.

(** A Rust [String] always holds valid UTF-8. *)
Definition is_utf8 (s : string) : Prop := utf8_valid (as_bytes s) = true.

Lemma from_utf8_as_bytes s : is_utf8 s -> from_utf8 (as_bytes s) = Some s.
Proof. unfold is_utf8, from_utf8. intros ->. by rewrite of_list_as_bytes. Qed.

Lemma from_utf8_Some bs s : from_utf8 bs = Some s -> as_bytes s = bs /\ is_utf8 s.
Proof.
  unfold from_utf8, is_utf8. destruct (utf8_valid bs) eqn:E; [|done].
  intros [= <-]. by rewrite as_bytes_of_list.
Qed.

#[export] Hint Resolve from_utf8_as_bytes : waltier.

(** An all-ASCII string is valid, whatever follows it. *)
Definition is_ascii (s : string) : Prop := Forall (fun b => byte_val b < 128) (as_bytes s).

Lemma utf8_ascii_app a bs :
  Forall (fun b => byte_val b < 128) a -> utf8_valid (a ++ bs) = utf8_valid bs.
Proof.
  induction 1 as [|b a Hb _ IH]; [done|]. cbn [app utf8_valid].
  apply Z.ltb_lt in Hb. by rewrite Hb.
Qed.

(** Validity is preserved by concatenation: characters are self-delimiting. *)
Lemma utf8_app_aux n a b : (length a <= n)%nat ->
  utf8_valid a = true -> utf8_valid (a ++ b) = utf8_valid b.
Proof.
  revert a. induction n as [|n IH]; intros a Hn Ha.
  { by destruct a; [|cbn in Hn; lia]. }
  destruct a as [|x a]; [done|]. cbn [app utf8_valid length] in *.
  destruct (_ <? 128); [by apply IH; [lia|]|].
  destruct a as [|c1 a]; [done|]. cbn [app length] in *.
  destruct (in_range 194 223 _).
  { apply andb_prop in Ha as [-> Ha]. cbn [andb]. apply IH; [lia|done]. }
  destruct a as [|c2 a]; [done|]. cbn [app length] in *.
  destruct (in_range 224 239 _).
  { apply andb_prop in Ha as [-> Ha]. cbn [andb]. apply IH; [lia|done]. }
  destruct a as [|c3 a]; [done|]. cbn [app length] in *.
  apply andb_prop in Ha as [-> Ha]. cbn [andb]. apply IH; [lia|done].
Qed.

Lemma is_utf8_app s t : is_utf8 s -> is_utf8 t -> is_utf8 (s +:+ t).
Proof.
  unfold is_utf8. intros Hs Ht. rewrite as_bytes_app.
  rewrite (utf8_app_aux (length (as_bytes s))); done.
Qed.

Example utf8_euro : utf8_valid [xe2; x82; xac] = true. Proof. reflexivity. Qed.
Example utf8_overlong : utf8_valid [xc0; x80] = false. Proof. reflexivity. Qed.
Example utf8_surrogate : utf8_valid [xed; xa0; x80] = false. Proof. reflexivity. Qed.
