(* ===== verification/Text.v ===== *)
(** * Text processing used by the examples

    [String::from_utf8_lossy], [str::split_once] at an ASCII character and [str::lines] of the standard library, on the UTF-8
    bytes of the text. *)

From S2P Require Import Prelude Utf8.

(** ** Lossy decoding *)

(** [source.get(i).unwrap_or(0)] *)
Definition safe_get (bs : bytes) (i : nat) : Z := match bs !! i with Some b => byte_val b | None => 0 end.
Definition is_cont (v : Z) : bool := in_range 128 191 v.

(** One character at the head of [bs]: the bytes inspected and whether they are
    a character. The iterator stops at the first byte that cannot continue it. *)
Definition utf8_char (bs : bytes) : nat * bool :=
  let v := safe_get bs 0 in
  let v1 := safe_get bs 1 in
  if v <? 128 then (1%nat, true)
  else if in_range 194 223 v then (if is_cont v1 then (2%nat, true) else (1%nat, false))
  else if in_range 224 239 v then
    if in_range (if v =? 224 then 160 else 128) (if v =? 237 then 159 else 191) v1 then
      if is_cont (safe_get bs 2) then (3%nat, true) else (2%nat, false)
    else (1%nat, false)
  else if in_range 240 244 v then
    if in_range (if v =? 240 then 144 else 128) (if v =? 244 then 143 else 191) v1 then
      if is_cont (safe_get bs 2) then
        if is_cont (safe_get bs 3) then (4%nat, true) else (3%nat, false)
      else (2%nat, false)
    else (1%nat, false)
  else (1%nat, false).

(** U+FFFD *)
Definition REPLACEMENT : bytes := [xef; xbf; xbd].

Fixpoint lossy (fuel : nat) (bs : bytes) : bytes :=
  match fuel, bs with
  | S fuel, _ :: _ =>
      let (n, ok) := utf8_char bs in
      (if ok : bool then take n bs else REPLACEMENT) ++ lossy fuel (drop n bs)
  | _, _ => []
  end.
Definition from_utf8_lossy (bs : bytes) : bytes := lossy (length bs) bs.

Example lossy_ex : from_utf8_lossy [x61; xe2; x82; x62; xff; xc3; xa9]
  = [x61] ++ REPLACEMENT ++ [x62] ++ REPLACEMENT ++ [xc3; xa9].
Proof. reflexivity. Qed.

(** ** Splitting, lines *)

Fixpoint split_once (c : byte) (bs : bytes) : option (bytes * bytes) :=
  match bs with
  | [] => None
  | b :: bs =>
      if bool_decide (b = c) then Some ([], bs)
      else match split_once c bs with Some (l, r) => Some (b :: l, r) | None => None end
  end.

Definition NL : byte := x0a.
Definition CR : byte := x0d.

(** [strip_suffix('\r')] of a line that ended in ['\n']. *)
Fixpoint strip_cr (line : bytes) : bytes :=
  match line with
  | [] => []
  | [b] => if bool_decide (b = CR) then [] else [b]
  | b :: line => b :: strip_cr line
  end.

(** [str::lines]: the text after the last ['\n'] is a line only if it is not
    empty, and keeps its ['\r']. *)
Fixpoint lines_from (acc bs : bytes) : list bytes :=
  match bs with
  | [] => match acc with [] => [] | _ => [rev acc] end
  | b :: bs => if bool_decide (b = NL) then strip_cr (rev acc) :: lines_from [] bs else lines_from (b :: acc) bs
  end.
Definition lines (bs : bytes) : list bytes := lines_from [] bs.

Example lines_ex : lines (as_bytes "a" ++ [CR; NL; NL] ++ as_bytes "b" ++ [CR])
  = [as_bytes "a"; []; as_bytes "b" ++ [CR]].
Proof. reflexivity. Qed.

(** ** Lemmas *)

Lemma utf8_char_pos bs : (1 <= (utf8_char bs).1)%nat.
Proof. unfold utf8_char. repeat case_match; cbn; lia. Qed.

(** A decoded character is valid text and what follows it decides the rest;
    text that starts with none is not valid. *)
Lemma utf8_char_spec bs : bs <> [] ->
  let (n, ok) := utf8_char bs in
  if ok then utf8_valid (take n bs) = true /\ utf8_valid bs = utf8_valid (drop n bs)
  else utf8_valid bs = false.
Proof.
  intros Hne. destruct bs as [|b0 bs]; [done|]. unfold utf8_char.
  change (safe_get (b0 :: bs) 0) with (byte_val b0).
  change (safe_get (b0 :: bs) 1) with (safe_get bs 0). cbn [utf8_valid].
  destruct (byte_val b0 <? 128) eqn:E0; [cbn; by rewrite E0|].
  destruct bs as [|b1 bs].
  { cbn [safe_get lookup list_lookup]. destruct (in_range 194 223 _); [done|].
    destruct (in_range 224 239 _); [by repeat case_match|]. destruct (in_range 240 244 _); by repeat case_match. }
  change (safe_get (b1 :: bs) 0) with (byte_val b1).
  change (safe_get (b0 :: b1 :: bs) 2) with (safe_get bs 0).
  unfold cont, is_cont. destruct (in_range 194 223 (byte_val b0)) eqn:E2.
  { destruct (in_range 128 191 (byte_val b1)) eqn:E1; [|done]. cbn. unfold cont. by rewrite E0, E2, E1. }
  destruct bs as [|b2 bs].
  { cbn [safe_get lookup list_lookup]. by repeat case_match. }
  change (safe_get (b2 :: bs) 0) with (byte_val b2).
  change (safe_get (b0 :: b1 :: b2 :: bs) 3) with (safe_get bs 0).
  set (r3 := in_range (if byte_val b0 =? 224 then 160 else 128) (if byte_val b0 =? 237 then 159 else 191) (byte_val b1)).
  set (r4 := in_range (if byte_val b0 =? 240 then 144 else 128) (if byte_val b0 =? 244 then 143 else 191) (byte_val b1)).
  destruct (in_range 224 239 (byte_val b0)) eqn:E3.
  { destruct r3 eqn:R3; [|done]. destruct (in_range 128 191 (byte_val b2)) eqn:Ec2; [|done].
    cbn. unfold cont. fold r3. by rewrite E0, E2, E3, R3, Ec2. }
  destruct bs as [|b3 bs].
  { cbn [safe_get lookup list_lookup]. by repeat case_match. }
  change (safe_get (b3 :: bs) 0) with (byte_val b3).
  destruct (in_range 240 244 (byte_val b0)) eqn:E4; [|done].
  destruct r4 eqn:R4; [|done]. destruct (in_range 128 191 (byte_val b2)) eqn:Ec2; [|done].
  destruct (in_range 128 191 (byte_val b3)) eqn:Ec3; [|done].
  cbn. unfold cont. fold r4. by rewrite E0, E2, E3, E4, R4, Ec2, Ec3.
Qed.

Lemma lossy_fuel fuel bs : (length bs <= fuel)%nat ->
  utf8_valid (lossy fuel bs) = true /\ (utf8_valid bs = true -> lossy fuel bs = bs).
Proof.
  revert bs. induction fuel as [|fuel IH]; intros bs Hf.
  { destruct bs; [done|cbn in Hf; lia]. }
  destruct bs as [|b bs]; [done|]. cbn [lossy]. set (l := b :: bs) in *.
  pose proof (utf8_char_spec l ltac:(done)) as Hc. pose proof (utf8_char_pos l) as Hp.
  destruct (utf8_char l) as [n ok]. cbn [fst] in Hp.
  destruct (IH (drop n l)) as [Hv He].
  { rewrite length_drop. subst l. cbn [length] in *. lia. }
  destruct ok.
  - destruct Hc as [Ht Hd]. split.
    + by rewrite (utf8_app_aux (length (take n l))).
    + rewrite Hd. intros ->%He. apply take_drop.
  - split; [by rewrite (utf8_app_aux 3)|congruence].
Qed.

(** [from_utf8_lossy] yields a [str], and the text itself when it is one. *)
Lemma from_utf8_lossy_valid bs : utf8_valid (from_utf8_lossy bs) = true.
Proof. by apply lossy_fuel. Qed.
Lemma from_utf8_lossy_id bs : utf8_valid bs = true -> from_utf8_lossy bs = bs.
Proof. by apply lossy_fuel. Qed.

Lemma split_once_Some c bs l r : split_once c bs = Some (l, r) <-> bs = l ++ c :: r /\ (c ∉ l).
Proof.
  revert l r. induction bs as [|b bs IH]; intros l r; cbn [split_once].
  { split; [done|]. intros [H _]. by destruct l. }
  case_bool_decide as E.
  - subst b. split; [intros [= <- <-]; split; [done|apply not_elem_of_nil]|].
    intros [H Hc]. destruct l as [|x l]; [by injection H as ->|]. injection H as <- ->.
    by destruct Hc; left.
  - destruct (split_once c bs) as [[l' r']|] eqn:Es; split.
    + intros [= <- <-]. destruct (proj1 (IH l' r') eq_refl) as [-> Hc]. split; [done|].
      rewrite not_elem_of_cons. split; [congruence|done].
    + intros [H Hc]. destruct l as [|x l]; injection H as <- H; [done|].
      apply not_elem_of_cons in Hc as [_ Hc]. by pose proof (proj2 (IH l r) (conj H Hc)) as [= -> ->].
    + done.
    + intros [H Hc]. destruct l as [|x l]; injection H as <- H; [done|].
      apply not_elem_of_cons in Hc as [_ Hc]. by pose proof (proj2 (IH l r) (conj H Hc)).
Qed.

(** ** Cutting valid text at an ASCII character *)

Lemma in_range_low lo hi v : v < lo -> in_range lo hi v = false.
Proof. intros Hv. unfold in_range. apply andb_false_intro1, Z.leb_gt. done. Qed.

Lemma utf8_cut a c b : byte_val c < 128 ->
  utf8_valid (a ++ c :: b) = true -> utf8_valid a = true /\ utf8_valid b = true.
Proof.
  intros Hc. remember (length a) as n eqn:Hn. revert a Hn. induction (lt_wf n) as [n _ IH]. intros a -> Hv.
  assert (forall lo hi, 128 <= lo -> in_range lo hi (byte_val c) = false) as Hlo by (intros; apply in_range_low; lia).
  assert ((byte_val c <? 128) = true) as Hc' by by apply Z.ltb_lt.
  assert (forall k : bool, 128 <= (if k then 160 else 128)) as H160 by (intros []; lia).
  assert (forall k : bool, 128 <= (if k then 144 else 128)) as H144 by (intros []; lia).
  destruct a as [|x a]; cbn [app utf8_valid length] in *; [by rewrite Hc' in Hv|].
  destruct (byte_val x <? 128); [by eapply (IH (length a)); [lia|..]|].
  destruct a as [|c1 a]; cbn [app length] in *.
  { unfold cont in Hv. rewrite Hlo in Hv by lia. cbn [andb] in Hv.
    destruct (in_range 194 223 _); [done|]. rewrite !Hlo in Hv by auto. cbn [andb] in Hv.
    destruct b as [|b0 b]; [done|]. destruct (in_range 224 239 _); [done|].
    destruct b as [|b1 b]; [done|]. by rewrite andb_false_r in Hv. }
  destruct (in_range 194 223 _).
  { apply andb_prop in Hv as [-> Hv]. cbn [andb]. by eapply (IH (length a)); [lia|..]. }
  destruct a as [|c2 a]; cbn [app length] in *.
  { unfold cont in Hv. rewrite Hlo in Hv by lia. rewrite !andb_false_r in Hv. cbn [andb] in Hv.
    destruct (in_range 224 239 _); [done|]. by destruct b. }
  destruct (in_range 224 239 _).
  { apply andb_prop in Hv as [-> Hv]. cbn [andb]. by eapply (IH (length a)); [lia|..]. }
  destruct a as [|c3 a]; cbn [app length] in *.
  { unfold cont in Hv. by rewrite (Hlo 128 191), andb_false_r in Hv by lia. }
  apply andb_prop in Hv as [-> Hv]. cbn [andb]. by eapply (IH (length a)); [lia|..].
Qed.

Lemma utf8_split_once c bs l r : byte_val c < 128 -> utf8_valid bs = true ->
  split_once c bs = Some (l, r) -> utf8_valid l = true /\ utf8_valid r = true.
Proof. intros Hc Hv [-> _]%split_once_Some. by eapply utf8_cut. Qed.

Lemma utf8_strip_prefix p bs r : Forall (fun b => byte_val b < 128) p -> utf8_valid bs = true ->
  strip_prefix p bs = Some r -> utf8_valid r = true.
Proof. intros Hp Hv ->%strip_prefix_Some. by rewrite utf8_ascii_app in Hv. Qed.

Lemma strip_cr_or l : strip_cr l = l \/ l = strip_cr l ++ [CR].
Proof.
  induction l as [|b l IH]; [by left|]. destruct l as [|b' l].
  - cbn. case_bool_decide; [right; by subst|by left].
  - change (strip_cr (b :: b' :: l)) with (b :: strip_cr (b' :: l)).
    destruct IH as [E|E]; [left; by rewrite E|right]. by rewrite E at 1.
Qed.

Lemma utf8_strip_cr l : utf8_valid l = true -> utf8_valid (strip_cr l) = true.
Proof. intros Hv. destruct (strip_cr_or l) as [->|E]; [done|]. rewrite E in Hv. by eapply (utf8_cut _ CR []). Qed.

Lemma utf8_lines_from acc bs : utf8_valid (rev acc ++ bs) = true ->
  Forall (fun l => utf8_valid l = true) (lines_from acc bs).
Proof.
  revert acc. induction bs as [|b bs IH]; intros acc Hv; cbn [lines_from].
  - destruct acc as [|a acc]; [done|]. constructor; [|done]. by rewrite app_nil_r in Hv.
  - case_bool_decide as Hb.
    + subst b. destruct (utf8_cut (rev acc) NL bs eq_refl Hv) as [Hl Hr].
      constructor; [by apply utf8_strip_cr|by apply IH].
    + apply IH. cbn [rev]. by rewrite <- app_assoc.
Qed.

Lemma utf8_lines bs : utf8_valid bs = true -> Forall (fun l => utf8_valid l = true) (lines bs).
Proof. apply (utf8_lines_from []). Qed.
