(* ===== verification/Error.v ===== *)
(** * Errors (src/src/error.rs)

    The error types of the storage boundary and of the log, their
    constructors and their [Display] renderings. *)

From S2P Require Import Prelude Fmt.

Module StoreOperation.
Inductive t : Type := Get | Put | Delete.
#[global] Instance eq_dec : EqDecision t.
Proof. solve_decision. Defined.
(** [{:?}] *)
Definition debug (op : t) : string :=
    match op with Get => "Get" | Put => "Put" | Delete => "Delete" end.
End StoreOperation.

(** Whether a failed mutation could have reached the store. *)
Inductive MutationOutcome : Type := NotApplied | Unknown.

#[global] Instance MutationOutcome_eq_dec : EqDecision MutationOutcome.
Proof. solve_decision. Defined.

Record StoreError : Type := mkStoreError {
  se_message : string;
  se_operation : option StoreOperation.t;
  se_key : option string;
  se_status : option Z;
  se_mutation_outcome : MutationOutcome;
}.

(** [StoreError::new]: a fresh error never claims that a mutation did not land. *)
Definition StoreError_new (message : string) : StoreError :=
  {| se_message := message; se_operation := None; se_key := None;
     se_status := None; se_mutation_outcome := Unknown |}.

Definition not_applied (e : StoreError) : StoreError :=
  {| se_message := se_message e; se_operation := se_operation e; se_key := se_key e;
     se_status := se_status e; se_mutation_outcome := NotApplied |}.

Definition with_context (op : StoreOperation.t) (key : string) (status : option Z)
    (e : StoreError) : StoreError :=
  {| se_message := se_message e; se_operation := Some op; se_key := Some key;
     se_status := status; se_mutation_outcome := se_mutation_outcome e |}.

(** [#[error("{message}")]] *)
Definition StoreError_display (e : StoreError) : string := se_message e.

Inductive WalError : Type :=
  | LimitExceeded (resource : string) (limit actual : Z)
  | InvalidOptions (message : string)
  | LsnExhausted
  | ReconcileAborted
  | Contention (operation : string) (attempts : Z)
  | InvalidReplacement (actual : Z)
  | CompactionError (message : string)
  | StoreFailure (e : StoreError)
  | IoError (message : string)
  | Corrupt (message : string)
  | AppError (message : string).

Definition WalError_display (e : WalError) : string :=
  match e with
  | LimitExceeded resource limit actual =>
      resource +:+ " limit exceeded: " +:+ dec actual +:+ " > " +:+ dec limit
  | InvalidOptions m => "invalid options: " +:+ m
  | LsnExhausted => "LSN space exhausted"
  | ReconcileAborted => "application aborted batch reconciliation"
  | Contention operation attempts =>
      operation +:+ " contention budget exhausted after " +:+ dec attempts +:+ " attempts"
  | InvalidReplacement actual =>
      "write requires exactly one replacement entry, got " +:+ dec actual
  | CompactionError m => "compaction: " +:+ m
  | StoreFailure e => "storage: " +:+ StoreError_display e
  | IoError m => "io: " +:+ m
  | Corrupt m => "corrupt wal: " +:+ m
  | AppError m => "app: " +:+ m
  end.

(** A failed append keeps the final attempted batch. *)
Record WriteError : Type := mkWriteError {
  we_entries : list bytes;
  we_source : WalError;
  we_outcome : MutationOutcome;
}.
