(* ===== verification/ImageCodec.v ===== *)
(** * The image codec: lemmas

    A separation of the cursor into what was read and what is left, the size
    of an encoding, inversion of [encode_view], and the two directions of the
    round trip. The properties themselves are in [ImageProps.v]. *)

From S2P Require Import Prelude Utf8 Error Image.

(** ** Well-formed images: what fits the WTL1 layout *)

Definition wf_snapshot (s : SnapshotRef) : Prop :=
  is_u64 (sr_lsn s) /\ str_len (sr_key s) <= U32_MAX /\ is_utf8 (sr_key s).
Definition wf_entries (es : list bytes) : Prop :=
  zlen es <= U32_MAX /\ Forall (fun e => zlen e <= U32_MAX) es.
Definition wf_parts (snapshot : option SnapshotRef) (es : list bytes) : Prop :=
  from_option wf_snapshot True snapshot /\ wf_entries es
  /\ is_Some (check_lsn snapshot (zlen es)).
Definition wf_image (i : WalImage) : Prop := wf_parts (img_snapshot i) (img_entries i).

Lemma check_limit_ok r a l : check_limit r a l = Ok tt <-> a <= l.
Proof. unfold check_limit. case_match; zbool; split; intros; done || lia. Qed.

Lemma check_limit_le r a l : a <= l -> check_limit r a l = Ok tt.
Proof. apply check_limit_ok. Qed.

Lemma check_limit_cases r a l :
  (check_limit r a l = Ok tt /\ a <= l) \/ (check_limit r a l = Err (LimitExceeded r l a) /\ l < a).
Proof. unfold check_limit. case_match; zbool; auto. Qed.

Lemma check_lsn_Some s n v : check_lsn s n = Some v <->
  v = from_option (fun s => sr_lsn s + 1) 0 s + n
  /\ from_option (fun s => sr_lsn s + 1 <= U64_MAX) True s
  /\ from_option (fun s => sr_lsn s + 1) 0 s + n <= U64_MAX.
Proof.
  unfold check_lsn. destruct s as [s|]; cbn [from_option mbind option_bind].
  - destruct (checked_add (sr_lsn s) 1) as [c|] eqn:E; cbn [mbind option_bind].
    + apply checked_add_Some in E as [-> ?]. rewrite checked_add_Some. intuition lia.
    + apply checked_add_None in E. split; [done|lia].
  - rewrite checked_add_Some. intuition lia.
Qed.

(** ** The cursor *)

(** [reads r s]: [s] is what the cursor has left. *)
Definition reads (r : Reader) (s : bytes) : Prop :=
  exists pre, rd_data r = pre ++ s /\ rd_pos r = zlen pre.

Lemma reads_start d : reads {| rd_data := d; rd_pos := 0 |} d.
Proof. by exists []. Qed.

Lemma reads_remaining r s : reads r s -> remaining r = zlen s.
Proof. intros (pre & Hd & Hp). unfold remaining. rewrite Hd, Hp, zlen_app. lia. Qed.

Lemma rd_take_app r out s n : reads r (out ++ s) -> n = zlen out ->
  exists r', rd_take n r = Ok (out, r') /\ reads r' s.
Proof.
  intros Hr ->. pose proof (reads_remaining _ _ Hr) as Hrem. destruct Hr as (pre & Hd & Hp).
  unfold rd_take. rewrite Hrem, zlen_app.
  destruct (_ <? _) eqn:E; zbool; [pose proof (zlen_nonneg s); lia|].
  rewrite Hd, Hp, drop_zlen_app, take_zlen_app. eexists; split; [done|].
  exists (pre ++ out). cbn. by rewrite zlen_app, <- app_assoc.
Qed.

Lemma rd_take_inv n r s out r' : 0 <= n -> reads r s -> rd_take n r = Ok (out, r') ->
  exists s', s = out ++ s' /\ zlen out = n /\ reads r' s'.
Proof.
  intros Hn Hr. pose proof (reads_remaining _ _ Hr) as Hrem. destruct Hr as (pre & Hd & Hp).
  unfold rd_take. destruct (_ <? _) eqn:E; zbool; [done|]. intros [= <- <-].
  rewrite Hd, Hp, drop_zlen_app. exists (drop (Z.to_nat n) s). rewrite take_drop.
  split; [done|]. rewrite zlen_take by lia. split; [done|].
  exists (pre ++ take (Z.to_nat n) s). cbn.
  by rewrite zlen_app, zlen_take, <- app_assoc, take_drop by lia.
Qed.

(** Reading back a fixed-width integer. *)
Lemma rd_u32_app r n s : is_u32 n -> reads r (to_le_bytes 4 n ++ s) ->
  exists r', rd_u32 r = Ok (n, r') /\ reads r' s.
Proof.
  intros Hn Hr. apply (rd_take_app _ _ _ 4) in Hr as (r' & E & Hr'); [|by rewrite zlen_to_le_bytes].
  exists r'. split; [|done]. unfold rd_u32. rewrite E. cbn [rbind].
  rewrite from_to_le_bytes, Z.mod_small by zlia. done.
Qed.

Lemma rd_u64_app r n s : is_u64 n -> reads r (to_le_bytes 8 n ++ s) ->
  exists r', rd_u64 r = Ok (n, r') /\ reads r' s.
Proof.
  intros Hn Hr. apply (rd_take_app _ _ _ 8) in Hr as (r' & E & Hr'); [|by rewrite zlen_to_le_bytes].
  exists r'. split; [|done]. unfold rd_u64. rewrite E. cbn [rbind].
  rewrite from_to_le_bytes, Z.mod_small by zlia. done.
Qed.

Lemma rd_u8_inv r s n r' : reads r s -> rd_u8 r = Ok (n, r') ->
  exists b s', s = b :: s' /\ byte_val b = n /\ reads r' s'.
Proof.
  intros Hr H. unfold rd_u8 in H. inv_ok H. destruct a as [b r1]. injection H as <- <-.
  apply (rd_take_inv _ _ s) in E as (s' & -> & Hl & Hr'); [|lia|done].
  destruct b as [|b [|]]; [done| |unfold zlen in Hl; cbn in Hl; lia].
  exists b, s'. cbn [from_le_bytes app]. split_and!; [done|lia|done].
Qed.

Lemma rd_u32_inv r s n r' : reads r s -> rd_u32 r = Ok (n, r') ->
  exists s', s = to_le_bytes 4 n ++ s' /\ is_u32 n /\ reads r' s'.
Proof.
  intros Hr H. unfold rd_u32 in H. inv_ok H. destruct a as [b r1]. injection H as <- <-.
  apply (rd_take_inv _ _ s) in E as (s' & -> & Hl & Hr'); [|lia|done].
  exists s'. rewrite le_bytes_of_len by done. split_and!; [done| |done].
  pose proof (from_le_bytes_range b). rewrite Hl in *. zlia.
Qed.

Lemma rd_u64_inv r s n r' : reads r s -> rd_u64 r = Ok (n, r') ->
  exists s', s = to_le_bytes 8 n ++ s' /\ is_u64 n /\ reads r' s'.
Proof.
  intros Hr H. unfold rd_u64 in H. inv_ok H. destruct a as [b r1]. injection H as <- <-.
  apply (rd_take_inv _ _ s) in E as (s' & -> & Hl & Hr'); [|lia|done].
  exists s'. rewrite le_bytes_of_len by done. split_and!; [done| |done].
  pose proof (from_le_bytes_range b). rewrite Hl in *. zlia.
Qed.

(** ** The snapshot reference *)

Lemma rd_snapshot_app r sn s : from_option wf_snapshot True sn ->
  reads r (emit_snapshot sn ++ s) -> exists r', rd_snapshot r = Ok (sn, r') /\ reads r' s.
Proof.
  intros Hwf Hr. unfold rd_snapshot, rd_u8. destruct sn as [[key lsn]|]; cbn [emit_snapshot] in Hr.
  - destruct Hwf as (Hlsn & Hkl & Hutf). cbn [sr_key sr_lsn] in *.
    rewrite <- app_comm_cons, <- !app_assoc in Hr.
    apply (rd_take_app _ [x01] _ 1) in Hr as (r1 & -> & Hr); [|done]. cbn [rbind].
    change (from_le_bytes [x01]) with 1. cbn [Z.eqb].
    apply rd_u64_app in Hr as (r2 & -> & Hr); [|done]. cbn [rbind].
    apply rd_u32_app in Hr as (r3 & -> & Hr); [|unfold str_len in *; zlia]. cbn [rbind].
    apply (rd_take_app _ _ _ (str_len key)) in Hr as (r4 & -> & Hr); [|done]. cbn [rbind].
    rewrite from_utf8_as_bytes by done. cbn. eauto.
  - apply (rd_take_app _ [x00] _ 1) in Hr as (r1 & -> & Hr); [|done]. cbn. eauto.
Qed.

Lemma rd_snapshot_inv r s sn r' : reads r s -> rd_snapshot r = Ok (sn, r') ->
  exists s', s = emit_snapshot sn ++ s' /\ from_option wf_snapshot True sn /\ reads r' s'.
Proof.
  intros Hr H. unfold rd_snapshot in H. inv_ok H. destruct a as [flag r1].
  apply (rd_u8_inv _ s) in E as (b & s1 & -> & Hb & Hr1); [|done].
  destruct (flag =? 0) eqn:Ef; zbool.
  { injection H as <- <-. exists s1. cbn. split_and!; [|done..].
    f_equal. apply byte_val_inj. rewrite Hb, Ef. done. }
  destruct (flag =? 1) eqn:E1; zbool; [|done].
  inv_ok H. destruct a as [lsn r2]. apply (rd_u64_inv _ s1) in E as (s2 & -> & Hl & Hr2); [|done].
  inv_ok H. destruct a as [kl r3]. apply (rd_u32_inv _ s2) in E as (s3 & -> & Hkl & Hr3); [|done].
  inv_ok H. destruct a as [k r4].
  apply (rd_take_inv _ _ s3) in E as (s4 & -> & Hk & Hr4); [|zlia|done].
  destruct (from_utf8 k) as [key|] eqn:Eu; cbn [ok_or rbind] in H; [|done].
  injection H as <- <-. apply from_utf8_Some in Eu as [Hkb Hutf].
  assert (str_len key = kl) as Hlen by (unfold str_len; by rewrite Hkb).
  exists s4. cbn [emit_snapshot from_option sr_key sr_lsn].
  rewrite Hlen, Hkb, <- app_comm_cons, <- !app_assoc. split_and!; [| |done].
  - f_equal. apply byte_val_inj. by rewrite Hb, E1.
  - split_and!; cbn [sr_key sr_lsn]; [done|zlia|done].
Qed.

(** ** The entries *)

Lemma rd_entries_app es r s : Forall (fun e => zlen e <= U32_MAX) es ->
  reads r (concat (emit_entry <$> es) ++ s) ->
  exists r', rd_entries (length es) r = Ok (es, r') /\ reads r' s.
Proof.
  intros Hes. revert r. induction Hes as [|e es He _ IH]; intros r Hr; cbn [length rd_entries].
  { exists r. done. }
  cbn [fmap list_fmap concat] in Hr. unfold emit_entry at 1 in Hr. rewrite <- !app_assoc in Hr.
  apply rd_u32_app in Hr as (r1 & -> & Hr); [|zlia]. cbn [rbind].
  apply (rd_take_app _ _ _ (zlen e)) in Hr as (r2 & -> & Hr); [|done]. cbn [rbind].
  apply IH in Hr as (r3 & -> & Hr). cbn. eauto.
Qed.

Lemma rd_entries_inv n r s es r' : reads r s -> rd_entries n r = Ok (es, r') ->
  exists s', s = concat (emit_entry <$> es) ++ s' /\ length es = n
    /\ Forall (fun e => zlen e <= U32_MAX) es /\ reads r' s'.
Proof.
  revert r s es. induction n as [|n IH]; intros r s es Hr H; cbn [rd_entries] in H.
  { injection H as <- <-. by exists s. }
  inv_ok H. destruct a as [len r1]. apply (rd_u32_inv _ s) in E as (s1 & -> & Hl & Hr1); [|done].
  inv_ok H. destruct a as [e r2].
  apply (rd_take_inv _ _ s1) in E as (s2 & -> & He & Hr2); [|zlia|done].
  inv_ok H. destruct a as [es' r3]. injection H as <- <-.
  apply (IH _ s2) in E as (s3 & -> & Hlen & Hall & Hr3); [|done].
  exists s3. cbn [fmap list_fmap concat length]. unfold emit_entry at 2. rewrite He, <- !app_assoc.
  split_and!; [done|by rewrite Hlen| |done]. constructor; [zlia|done].
Qed.

(** ** Sizes *)

Definition snapshot_size (sn : option SnapshotRef) : Z :=
  from_option (fun s => 12 + str_len (sr_key s)) 0 sn.
Definition entries_size (es : list bytes) : Z := foldr (fun e n => 4 + zlen e + n) 0 es.
Definition image_size (sn : option SnapshotRef) (es : list bytes) : Z :=
  9 + snapshot_size sn + entries_size es.

Lemma entries_size_nonneg es : 0 <= entries_size es.
Proof. induction es as [|e es IH]; cbn; [lia|]. pose proof (zlen_nonneg e). unfold entries_size in IH. lia. Qed.

Lemma entries_size_app es es' : entries_size (es ++ es') = entries_size es + entries_size es'.
Proof. induction es as [|e es IH]; cbn; [done|]. unfold entries_size in *. lia. Qed.

Lemma snapshot_size_nonneg sn : 0 <= snapshot_size sn.
Proof. destruct sn; cbn; [|lia]. unfold str_len. pose proof (zlen_nonneg (as_bytes (sr_key s))). lia. Qed.

Lemma zlen_concat_entries es : zlen (concat (emit_entry <$> es)) = entries_size es.
Proof.
  induction es as [|e es IH]; [done|]. cbn [fmap list_fmap concat]. unfold emit_entry at 1.
  autorewrite with waltier. rewrite IH. cbn. unfold entries_size. lia.
Qed.

Lemma zlen_emit sn es : zlen (emit sn es) = image_size sn es.
Proof.
  unfold emit, image_size. autorewrite with waltier. rewrite zlen_concat_entries.
  change (zlen MAGIC) with 4. destruct sn as [s|]; cbn [emit_snapshot snapshot_size from_option];
    autorewrite with waltier; unfold str_len; lia.
Qed.

Lemma entries_size_count es : 4 * zlen es <= entries_size es.
Proof.
  induction es as [|e es IH]; [done|]. rewrite zlen_cons. cbn.
  pose proof (zlen_nonneg e). unfold entries_size in IH. lia.
Qed.

(** The checked sum never reports an overflow before the byte budget would:
    it is [Ok] exactly when every entry fits [u32] and the sum fits [usize]. *)
Lemma add_entries_size_ok n es m : add_entries_size n es = Ok m <->
  m = n + entries_size es /\ Forall (fun e => zlen e <= U32_MAX) es
  /\ (es = [] \/ n + entries_size es <= U64_MAX).
Proof.
  revert n. induction es as [|e es IH]; intros n; cbn [add_entries_size].
  { cbn. split; [intros [= <-]; split_and!; [lia|done|by left] | intros (-> & _ & _); f_equal; lia]. }
  pose proof (zlen_nonneg e) as Hnn. pose proof (entries_size_nonneg es) as Hes.
  assert (entries_size (e :: es) = 4 + zlen e + entries_size es) as Hc by done.
  destruct (check_limit_cases "entry bytes" (zlen e) U32_MAX) as [[-> Hle]|[-> Hgt]]; cbn [rbind].
  2: { split; [done|]. intros (_ & Hf & _). inversion Hf; lia. }
  destruct (checked_add n 4) as [a|] eqn:E1; cbn [mbind option_bind].
  2: { apply checked_add_None in E1. split; [done|]. intros (_ & _ & [|]); [done|lia]. }
  apply checked_add_Some in E1 as [-> ?].
  destruct (checked_add (n + 4) (zlen e)) as [a|] eqn:E2.
  2: { apply checked_add_None in E2. split; [done|]. intros (_ & _ & [|]); [done|lia]. }
  apply checked_add_Some in E2 as [-> ?]. rewrite IH, Hc. split.
  - intros (-> & Hf & Hor). split_and!; [lia|by constructor|].
    right. destruct Hor as [->|]; cbn; lia.
  - intros (-> & Hf & [|]); [done|]. inversion Hf; subst. split_and!; [lia|done|right; lia].
Qed.

(** ** Inverting [encode_view] *)

Definition view_snapshot (i : WalImage) (snapshot : option SnapshotRef) : option SnapshotRef :=
  match snapshot with Some s => Some s | None => img_snapshot i end.
Definition view_entries (i : WalImage) (skip : Z) (extra : list bytes) : list bytes :=
  drop (Z.to_nat skip) (img_entries i) ++ extra.
(** The image an accepted [encode_view] publishes. *)
Definition view (i : WalImage) (snapshot : option SnapshotRef) (skip : Z) (extra : list bytes)
  : WalImage :=
  {| img_snapshot := view_snapshot i snapshot; img_entries := view_entries i skip extra |}.

Lemma zlen_view_entries i skip extra : 0 <= skip <= zlen (img_entries i) ->
  zlen (view_entries i skip extra) = zlen (img_entries i) - skip + zlen extra.
Proof. intros. unfold view_entries. rewrite zlen_app, zlen_drop by lia. lia. Qed.

(** What the encoder accepts: the budgets and the widths of the layout. *)
Definition fits (sn : option SnapshotRef) (es : list bytes) (limits : ImageLimits) : Prop :=
  zlen es <= lim_entries limits /\ zlen es <= U32_MAX
  /\ is_Some (check_lsn sn (zlen es))
  /\ from_option (fun s => str_len (sr_key s) <= U32_MAX) True sn
  /\ Forall (fun e => zlen e <= U32_MAX) es
  /\ image_size sn es <= lim_bytes limits.

Lemma snapshot_size_step (sn : option SnapshotRef) v :
  match sn with
  | None => Ok 9
  | Some s =>
      let? _ := check_limit "snapshot key bytes" (str_len (sr_key s)) U32_MAX in
      match n ← checked_add 9 12; checked_add n (str_len (sr_key s)) with
      | None => Err LsnExhausted
      | Some size => Ok size
      end
  end = Ok v <->
  v = 9 + snapshot_size sn /\ from_option (fun s => str_len (sr_key s) <= U32_MAX) True sn.
Proof.
  destruct sn as [s|]; cbn [snapshot_size from_option]; [|by split; [intros [= <-] | intros [-> _]]].
  destruct (check_limit_cases "snapshot key bytes" (str_len (sr_key s)) U32_MAX) as [[-> H]|[-> H]];
    cbn [rbind]; [|split; [done|lia]].
  change (checked_add 9 12) with (Some 21). cbn [mbind option_bind].
  destruct (checked_add 21 _) eqn:E.
  - apply checked_add_Some in E as [-> ?]. split; [intros [= <-]; split; [lia|done]|].
    intros [-> _]. f_equal. lia.
  - apply checked_add_None in E. zlia.
Qed.

Lemma encode_view_ok i sn skip extra limits data :
  0 <= skip -> lim_bytes limits <= USIZE_MAX ->
  encode_view i sn skip extra limits = Ok data <->
  skip <= zlen (img_entries i)
  /\ fits (view_snapshot i sn) (view_entries i skip extra) limits
  /\ data = emit (view_snapshot i sn) (view_entries i skip extra).
Proof.
  intros Hskip Hlim. unfold encode_view. fold (view_snapshot i sn). fold (view_entries i skip extra).
  set (s := view_snapshot i sn). pose proof (snapshot_size_nonneg s) as Hss.
  destruct (checked_sub _ skip) as [kept|] eqn:Ek; cbn [mbind option_bind].
  2: { split; [done|]. intros (? & _). unfold checked_sub in Ek. case_match; zbool; [done|lia]. }
  apply checked_sub_Some in Ek as [-> Hle].
  set (es := view_entries i skip extra). pose proof (entries_size_nonneg es) as Hes.
  pose proof (entries_size_count es) as Hcnt.
  assert (zlen es = zlen (img_entries i) - skip + zlen extra) as Hzl
    by (apply zlen_view_entries; lia).
  pose proof (zlen_nonneg es).
  destruct (checked_add _ (zlen extra)) as [count|] eqn:Ec.
  2: { apply checked_add_None in Ec. split; [done|]. intros (_ & (? & ? & _) & _). zlia. }
  apply checked_add_Some in Ec as [-> Hc]. rewrite <- Hzl.
  destruct (check_limit_cases "live entries" (zlen es) (Z.min (lim_entries limits) U32_MAX))
    as [[-> H1]|[-> H1]]; cbn [rbind].
  2: { split; [done|]. intros (_ & (? & ? & _) & _). lia. }
  destruct (check_lsn s (zlen es)) as [v|] eqn:El.
  2: { split; [done|]. intros (_ & (_ & _ & Hl & _) & _). rewrite El in Hl. by destruct Hl. }
  destruct (match s with None => Ok 9 | Some _ => _ end) as [size|] eqn:Es; cbn [rbind].
  2: { split; [done|]. intros (_ & (_ & _ & _ & Hk & _) & _).
       assert (Err e = Ok (9 + snapshot_size s)) as X; [|done].
       rewrite <- Es. by apply snapshot_size_step. }
  apply snapshot_size_step in Es as [-> Hk].
  destruct (add_entries_size _ es) as [tot|] eqn:Ea; cbn [rbind].
  2: { split; [done|]. intros (_ & (_ & _ & _ & _ & Hf & Hsz) & _). unfold image_size in Hsz.
       assert (Err e = Ok (9 + snapshot_size s + entries_size es)) as X; [|done].
       rewrite <- Ea. apply add_entries_size_ok. split_and!; [done|done|right; zlia]. }
  apply add_entries_size_ok in Ea as (-> & Hf & _).
  destruct (check_limit_cases "WAL image bytes" (9 + snapshot_size s + entries_size es)
    (lim_bytes limits)) as [[-> H2]|[-> H2]]; cbn [rbind].
  2: { split; [done|]. intros (_ & (_ & _ & _ & _ & _ & Hsz) & _). unfold image_size in Hsz. lia. }
  unfold fits, image_size. split.
  - intros [= <-]. split_and!; try done || lia.
  - by intros (_ & _ & ->).
Qed.

(** ** Decoding an encoding, possibly followed by more bytes *)

Lemma decode_emit_app sn es x limits :
  wf_parts sn es -> zlen (emit sn es ++ x) <= lim_bytes limits ->
  decode (emit sn es ++ x) limits =
    (if lim_entries limits <? zlen es
     then Err (LimitExceeded "live entries" (lim_entries limits) (zlen es))
     else if zlen x =? 0 then Ok {| img_snapshot := sn; img_entries := es |}
     else Err (Corrupt "trailing bytes")).
Proof.
  intros (Hsn & (Hc & Hall) & [v El]) Hb. pose proof (zlen_nonneg es).
  unfold decode. rewrite check_limit_le by done. cbn [rbind].
  pose proof (reads_start (emit sn es ++ x)) as Hr. unfold emit at 2 in Hr.
  rewrite <- !app_assoc in Hr.
  apply (rd_take_app _ _ _ 4) in Hr as (r1 & -> & Hr); [|done]. cbn [rbind].
  rewrite bool_decide_eq_true_2 by done. cbn [negb].
  apply rd_snapshot_app in Hr as (r2 & -> & Hr); [|done]. cbn [rbind].
  apply rd_u32_app in Hr as (r3 & -> & Hr); [|zlia]. cbn [rbind]. rewrite El.
  rewrite (reads_remaining _ _ Hr), zlen_app, zlen_concat_entries.
  pose proof (entries_size_count es). pose proof (zlen_nonneg x).
  destruct (_ <? zlen es) eqn:E; zbool.
  { assert (zlen es <= (entries_size es + zlen x) / 4); [apply Z.div_le_lower_bound; lia|lia]. }
  unfold check_limit. destruct (lim_entries limits <? zlen es); cbn [rbind]; [done|].
  unfold zlen at 1. rewrite Nat2Z.id.
  apply rd_entries_app in Hr as (r4 & -> & Hr); [|done]. cbn [rbind].
  rewrite (reads_remaining _ _ Hr). by destruct (zlen x =? 0).
Qed.

(** ** What [decode] accepts: exactly the encodings of well-formed images *)

Lemma decode_ok_inv data limits i : decode data limits = Ok i ->
  data = emit (img_snapshot i) (img_entries i) /\ wf_image i
  /\ zlen data <= lim_bytes limits /\ zlen (img_entries i) <= lim_entries limits.
Proof.
  intros H. unfold decode in H.
  destruct (check_limit_cases "WAL image bytes" (zlen data) (lim_bytes limits))
    as [[E1 Hb]|[E1 _]]; rewrite E1 in H; cbn [rbind] in H; [|done].
  inv_ok H. destruct a as [m r1].
  apply (rd_take_inv _ _ data) in E as (s1 & -> & _ & Hr1); [|lia|apply reads_start].
  case_bool_decide; cbn [negb] in H; [subst m|done].
  inv_ok H. destruct a as [sn r2]. apply (rd_snapshot_inv _ s1) in E as (s2 & -> & Hsn & Hr2); [|done].
  inv_ok H. destruct a as [count r3]. apply (rd_u32_inv _ s2) in E as (s3 & -> & Hc & Hr3); [|done].
  destruct (check_lsn sn count) eqn:El; [|done].
  destruct (_ <? count); [done|].
  destruct (check_limit_cases "live entries" count (lim_entries limits)) as [[E2 He]|[E2 _]];
    rewrite E2 in H; cbn [rbind] in H; [|done].
  inv_ok H. destruct a as [es r4].
  apply (rd_entries_inv _ _ s3) in E as (s4 & -> & Hlen & Hall & Hr4); [|done].
  apply reads_remaining in Hr4. rewrite Hr4 in H.
  destruct (zlen s4 =? 0) eqn:E0; zbool; cbn [negb] in H; [|done]. injection H as <-.
  apply zlen_0_nil in E0 as ->. cbn [img_snapshot img_entries] in *.
  assert (zlen es = count) as Hzc by zlia.
  unfold emit, wf_image, wf_parts, wf_entries. cbn [img_snapshot img_entries].
  rewrite Hzc, El, app_nil_r. rewrite app_nil_r in Hb. split_and!; try done || zlia.
Qed.

Lemma decode_ok data limits i : decode data limits = Ok i <->
  data = emit (img_snapshot i) (img_entries i) /\ wf_image i
  /\ zlen data <= lim_bytes limits /\ zlen (img_entries i) <= lim_entries limits.
Proof.
  split; [apply decode_ok_inv|]. destruct i as [sn es]. intros (-> & Hw & Hb & He).
  cbn [img_snapshot img_entries] in *. rewrite <- (app_nil_r (emit sn es)) in Hb |- *.
  rewrite decode_emit_app by done. by apply Z.ltb_ge in He as ->.
Qed.

(** A decoded image has the byte string that was decoded as its only encoding. *)
Lemma decode_wf data limits i : decode data limits = Ok i -> wf_image i.
Proof. rewrite decode_ok. by intros (_ & ? & _). Qed.

#[export] Hint Resolve decode_wf : waltier.

(** The LSNs of a well-formed image are computed without wrapping. *)
Lemma first_lsn_wf i : wf_image i ->
  first_lsn i = from_option (fun s => sr_lsn s + 1) 0 (img_snapshot i) /\ 0 <= first_lsn i.
Proof.
  intros (Hs & _ & [v Hv]). apply check_lsn_Some in Hv as (_ & Hb & _).
  unfold first_lsn. destruct (img_snapshot i) as [s|]; cbn in *; [|done].
  destruct Hs as ([? ?] & _). unfold wrapping_add. rewrite wrap64_small by zlia. lia.
Qed.

Lemma next_lsn_wf i : wf_image i ->
  next_lsn i = first_lsn i + zlen (img_entries i) /\ next_lsn i <= U64_MAX.
Proof.
  intros Hwf. pose proof (first_lsn_wf i Hwf) as [Hf Hp].
  destruct Hwf as (_ & _ & [v Hv]). apply check_lsn_Some in Hv as (_ & _ & Hb).
  pose proof (zlen_nonneg (img_entries i)). rewrite <- Hf in Hb.
  unfold next_lsn, wrapping_add. rewrite wrap64_small by zlia. lia.
Qed.

Lemma length_number n es : length (number n es) = length es.
Proof. revert n. induction es as [|e es IH]; intros n; cbn; [done|]. by rewrite IH. Qed.

Lemma drop_number k n es : drop k (number n es) = number (n + Z.of_nat k) (drop k es).
Proof.
  revert n es. induction k as [|k IH]; intros n es.
  { by rewrite Z.add_0_r. }
  destruct es as [|e es]; [done|]. cbn [number drop]. rewrite IH. f_equal. lia.
Qed.

Lemma number_app n es es' : number n (es ++ es') = number n es ++ number (n + zlen es) es'.
Proof.
  revert n. induction es as [|e es IH]; intros n; cbn [number app].
  { f_equal. unfold zlen. cbn. lia. }
  rewrite IH, zlen_cons. do 3 f_equal. lia.
Qed.
