(* ===== verification/ImageProps.v ===== *)
(** * The image codec: properties of src/src/image.rs *)

From S2P Require Import Prelude Utf8 Error Image ImageCodec.

(** C25. What the writer publishes is what a reader reconstructs: if
    [encode_view] accepts a candidate (a fold, dropped prefix and appended
    batch), [decode] under the same limits returns exactly that candidate. *)
Theorem encode_view_decodes i sn skip extra limits data :
  from_option wf_snapshot True (view_snapshot i sn) ->
  0 <= skip -> lim_bytes limits <= USIZE_MAX ->
  encode_view i sn skip extra limits = Ok data ->
  decode data limits = Ok (view i sn skip extra).
Proof.
  intros Hs Hk Hl H. apply encode_view_ok in H as (? & (? & ? & ? & ? & ? & ?) & ->); [|done..].
  apply decode_ok. cbn [view img_snapshot img_entries]. rewrite zlen_emit. split_and!; done.
Qed.

Lemma encode_view_decodes_witness :
  encode_view full_image (Some (mkSnapshotRef "snap/k" 42)) 1 [as_bytes "dd"] limits_4k
    = Ok (emit (Some (mkSnapshotRef "snap/k" 42)) [[]; as_bytes "three"; as_bytes "dd"])
  /\ decode (emit (Some (mkSnapshotRef "snap/k" 42)) [[]; as_bytes "three"; as_bytes "dd"]) limits_4k
    = Ok (view full_image (Some (mkSnapshotRef "snap/k" 42)) 1 [as_bytes "dd"]).
Proof.
  split; [vm_compute; reflexivity|].
  apply encode_view_decodes; [|done|done|vm_compute; reflexivity].
  split_and!; [split|..]; by vm_compute.
Defined.

(** C26. The format is canonical: any bytes that [decode] accepts are the bytes
    [encode] produces for the decoded image, under the same limits. *)
Theorem decode_encode_canonical data limits i :
  lim_bytes limits <= USIZE_MAX ->
  decode data limits = Ok i -> encode i limits = Ok data.
Proof.
  intros Hl H. apply decode_ok in H as (-> & (Hs & (Hc & Hall) & Hlsn) & Hb & He).
  rewrite zlen_emit in Hb. unfold encode. pose proof (zlen_nonneg (img_entries i)).
  apply encode_view_ok; [done..|].
  unfold view_entries, view_snapshot. cbn [Z.to_nat drop]. rewrite app_nil_r.
  split_and!; [done| |done]. split_and!; try done.
  destruct (img_snapshot i); [|done]. by destruct Hs as (_ & ? & _).
Qed.

Lemma decode_encode_canonical_witness :
  encode full_image limits_4k = Ok (emit (img_snapshot full_image) (img_entries full_image)).
Proof. apply decode_encode_canonical; [done|vm_compute; reflexivity]. Defined.

(** C27. The encoder accepts a candidate exactly when its entry count, widths,
    LSN range and total size fit the budgets, and then returns the WTL1 layout
    of the candidate, whose length is the size it checked: no limit is
    enforced late and no candidate inside the budgets is refused. *)
Theorem encode_view_accepts_iff_fits i sn skip extra limits :
  0 <= skip <= zlen (img_entries i) -> lim_bytes limits <= USIZE_MAX ->
  (is_ok (encode_view i sn skip extra limits) = true <->
     fits (view_snapshot i sn) (view_entries i skip extra) limits)
  /\ forall data, encode_view i sn skip extra limits = Ok data ->
       zlen data = image_size (view_snapshot i sn) (view_entries i skip extra).
Proof.
  intros [H0 Hk] Hl. split.
  - split.
    + destruct (encode_view _ _ _ _ _) as [d|] eqn:E; [|done]. intros _.
      by apply encode_view_ok in E as (_ & ? & _).
    + intros Hf.
      assert (encode_view i sn skip extra limits =
        Ok (emit (view_snapshot i sn) (view_entries i skip extra))) as ->; [|done].
      by apply encode_view_ok.
  - intros data E. apply encode_view_ok in E as (_ & _ & ->); [|done..]. apply zlen_emit.
Qed.

Lemma encode_view_accepts_iff_fits_witness :
  is_ok (encode_view full_image None 0 [[]] limits_4k) = true
  /\ fits (img_snapshot full_image) (img_entries full_image ++ [[]]) limits_4k.
Proof.
  split; [reflexivity|].
  apply (encode_view_accepts_iff_fits full_image None 0 [[]] limits_4k); [|done|reflexivity].
  by split; vm_compute.
Defined.

(** C28. LSN arithmetic never wraps on an image a reader accepted: the first
    LSN is the snapshot's plus one, LSNs are contiguous, and the last possible
    entry is [u64::MAX - 1], so that a debug build never panics on it. *)
Theorem decoded_lsns_do_not_wrap data limits i :
  decode data limits = Ok i ->
  first_lsn i = from_option (fun s => sr_lsn s + 1) 0 (img_snapshot i)
  /\ next_lsn i = first_lsn i + zlen (img_entries i)
  /\ next_lsn i <= U64_MAX
  /\ tip i = (if next_lsn i =? 0 then None else Some (next_lsn i - 1))
  /\ Forall (fun '(lsn, _) => first_lsn i <= lsn < U64_MAX) (entries_from i (first_lsn i)).
Proof.
  intros H%decode_wf. pose proof (first_lsn_wf i H) as [Hf Hp].
  pose proof (next_lsn_wf i H) as [Hn Hb]. pose proof (zlen_nonneg (img_entries i)) as Hz.
  split_and!; try done.
  - unfold tip, checked_sub. repeat case_match; zbool; try done || lia.
  - unfold entries_from. unfold saturating_sub. rewrite Z.sub_diag. cbn [Z.max Z.to_nat drop].
    assert (forall n es, first_lsn i <= n -> n + zlen es <= U64_MAX ->
      Forall (fun '(lsn, _) => first_lsn i <= lsn < U64_MAX) (number n es)) as Hgen; [|apply Hgen; lia].
    intros n es. revert n. induction es as [|e es IH]; intros n Hl Hr; cbn [number]; [done|].
    rewrite zlen_cons in Hr. pose proof (zlen_nonneg es). constructor; [lia|apply IH; lia].
Qed.

Lemma decoded_lsns_do_not_wrap_witness : next_lsn full_image <= U64_MAX.
Proof.
  apply (decoded_lsns_do_not_wrap (emit (img_snapshot full_image) (img_entries full_image)) limits_4k).
  vm_compute. reflexivity.
Defined.

(** No truncation and no extension of a valid image is a valid image: a
    torn object is always reported, under whatever limits. *)
Theorem decode_prefix_free data rest limits limits' i :
  rest <> [] -> decode data limits = Ok i -> is_ok (decode (data ++ rest) limits') = false
  /\ forall data' rest', data = data' ++ rest' -> rest' <> [] -> is_ok (decode data' limits') = false.
Proof.
  intros Hne H.
  assert (forall d l j x l', decode d l = Ok j -> x <> [] -> is_ok (decode (d ++ x) l') = false)
    as Hext.
  { intros d l j x l' (-> & Hw & _)%decode_ok Hx.
    set (d := emit _ _). destruct (Z_le_gt_dec (zlen (d ++ x)) (lim_bytes l')) as [Hb|Hb].
    - unfold d. rewrite decode_emit_app by done. destruct (_ <? _); [done|].
      destruct (zlen x =? 0) eqn:E; zbool; [by apply zlen_0_nil in E|done].
    - unfold decode. destruct (check_limit_cases "WAL image bytes" (zlen (d ++ x)) (lim_bytes l'))
        as [[_ ?]|[-> _]]; [lia|done]. }
  split; [by eapply Hext|]. intros data' rest' -> Hne'.
  destruct (decode data' limits') eqn:E; [|done].
  apply (Hext _ _ _ rest' limits) in E; [|done]. by rewrite H in E.
Qed.

Lemma decode_prefix_free_witness :
  is_ok (decode (emit None [as_bytes "abc"] ++ [x00]) limits_4k) = false.
Proof.
  apply (decode_prefix_free _ [x00] limits_4k limits_4k (mkWalImage None [as_bytes "abc"]));
    [done|vm_compute; reflexivity].
Defined.

(** The configured limits decide only whether an object is accepted, never
    what it means: two readers with different limits that both accept it see
    the same image, and a reader whose byte and entry budgets it fits accepts it. *)
Theorem decode_limits_agree data l l' i :
  decode data l = Ok i ->
  (forall j, decode data l' = Ok j -> j = i)
  /\ (zlen data <= lim_bytes l' -> zlen (img_entries i) <= lim_entries l' -> decode data l' = Ok i)
  /\ (zlen data <= lim_bytes l' -> lim_entries l' < zlen (img_entries i) ->
        decode data l' = Err (LimitExceeded "live entries" (lim_entries l') (zlen (img_entries i))))
  /\ (lim_bytes l' < zlen data ->
        decode data l' = Err (LimitExceeded "WAL image bytes" (lim_bytes l') (zlen data))).
Proof.
  intros (Hd & Hw & _)%decode_ok.
  assert (zlen data <= lim_bytes l' -> decode data l' =
    if lim_entries l' <? zlen (img_entries i)
    then Err (LimitExceeded "live entries" (lim_entries l') (zlen (img_entries i))) else Ok i) as Hin.
  { intros Hb. rewrite <- (app_nil_r data) in Hb |- *. subst data.
    rewrite decode_emit_app by done. by destruct i. }
  split_and!.
  - intros j Hj. pose proof Hj as (_ & _ & Hb & _)%decode_ok. rewrite Hin in Hj by done.
    destruct (_ <? _); congruence.
  - intros Hb He. rewrite Hin by done. by apply Z.ltb_ge in He as ->.
  - intros Hb He. rewrite Hin by done. by apply Z.ltb_lt in He as ->.
  - intros ?. unfold decode. by destruct (check_limit_cases "WAL image bytes" (zlen data) (lim_bytes l'))
      as [[_ ?]|[-> _]]; [lia|].
Qed.

Lemma decode_limits_agree_witness :
  decode (emit None [[]; []]) (mkImageLimits 4096 1) = Err (LimitExceeded "live entries" 1 2).
Proof.
  apply (decode_limits_agree _ limits_4k (mkImageLimits 4096 1) (mkWalImage None [[]; []]));
    vm_compute; reflexivity || (intros; discriminate).
Defined.

(** [entries_from lsn] yields exactly the live entries with an LSN of at
    least [lsn], each with its own LSN, in order, for any [u64] argument. *)
Theorem entries_from_spec i lsn :
  wf_image i -> is_u64 lsn ->
  entries_from i lsn = filter (fun p => lsn <= p.1) (number (first_lsn i) (img_entries i)).
Proof.
  intros H Hl. pose proof (first_lsn_wf i H) as [_ Hp]. unfold entries_from, saturating_sub.
  generalize (img_entries i) (first_lsn i). intros es n.
  assert (forall k es n, k = Z.to_nat (Z.max 0 (lsn - n)) ->
    drop k (number n es) = filter (fun p => lsn <= p.1) (number n es)) as Hgen; [|by apply Hgen].
  clear. intros k es. revert k. induction es as [|e es IH]; intros k n ->; cbn [number].
  { by rewrite drop_nil. }
  destruct (decide (lsn <= n)) as [Hle|Hgt].
  - rewrite filter_cons_True by done. replace (Z.to_nat _) with O by lia. cbn [drop].
    f_equal. rewrite <- (IH O) by lia. done.
  - rewrite filter_cons_False by done.
    replace (Z.to_nat _) with (S (Z.to_nat (Z.max 0 (lsn - (n + 1))))) by lia. cbn [drop].
    by apply IH.
Qed.

Lemma entries_from_spec_witness :
  entries_from full_image 43 =
    filter (fun p => 43 <= p.1) (number (first_lsn full_image) (img_entries full_image)).
Proof.
  apply entries_from_spec; [|by split].
  apply (decode_wf (emit (img_snapshot full_image) (img_entries full_image)) limits_4k).
  vm_compute. reflexivity.
Defined.
