(* ===== verification/App.v ===== *)
(** * The application half of the log (src/src/lib.rs)

    Entries, statistics, the reconciliation decisions, the [WalApp] interface
    with its default methods, and the contract its documentation states
    ([WalAppLaws]). *)

From S2P Require Import Prelude Utf8 Error Image ImageCodec.

Abbreviation Lsn := Z (only parsing).

Record Entry : Type := mkEntry { e_lsn : Lsn; e_data : bytes }.

Record WalStats : Type := mkWalStats {
  s_tip : option Lsn;
  s_snapshot_lsn : option Lsn;
  s_live_entries : Z;
  s_live_entry_bytes : Z;
  s_image_bytes : Z;
}.

Inductive Reconcile : Type := Retry | Replace (entry : bytes) | Abort.
Inductive ReconcileBatch : Type := RetryBatch | ReplaceBatch (entries : list bytes) | AbortBatch.

(** The callbacks. Foreground callbacks return without panicking, as the trait
    documents; [compact] runs on its own thread and may panic ([None]). *)
Class WalApp : Type := {
  State : Type;
  init : State;
  apply : State -> Lsn -> bytes -> State;
  restore : bytes -> Result State WalError;
  compact : option bytes -> list Entry -> option (Result bytes WalError);
  should_compact : WalStats -> bool;
  reconcile : State -> bytes -> Reconcile;
  reconcile_batch : State -> list bytes -> ReconcileBatch;
}.

(** ** Default methods *)

Definition default_restore {St} (_ : bytes) : Result St WalError :=
  Err (AppError "restore is not implemented for this WalApp").
Definition default_compact (_ : option bytes) (_ : list Entry) : option (Result bytes WalError) :=
  Some (Err (AppError "compact is not implemented for this WalApp")).
Definition default_should_compact (_ : WalStats) : bool := false.
Definition default_reconcile {St} (_ : St) (_ : bytes) : Reconcile := Abort.

(** The loop of [reconcile_batch] from [index] on; [replacement] is the copy
    of [pending] made at the first rewrite. *)
Fixpoint reconcile_loop {St} (reconcile : St -> bytes -> Reconcile) (state : St)
    (pending : list bytes) (index : nat) (rest : list bytes) (replacement : option (list bytes))
  : ReconcileBatch :=
  match rest with
  | [] => match replacement with Some entries => ReplaceBatch entries | None => RetryBatch end
  | entry :: rest =>
      match reconcile state entry with
      | Retry => reconcile_loop reconcile state pending (S index) rest replacement
      | Replace bs =>
          let entries := <[index := bs]> (default pending replacement) in
          reconcile_loop reconcile state pending (S index) rest (Some entries)
      | Abort => AbortBatch
      end
  end.

Definition default_reconcile_batch {St} (reconcile : St -> bytes -> Reconcile) (state : St)
    (pending : list bytes) : ReconcileBatch :=
  reconcile_loop reconcile state pending 0 pending None.

(** ** The contract *)

(** Replaying a prefix of the history, from [init] and from a state. *)
Definition replay_from `{WalApp} (s : State) (n : Lsn) (es : list bytes) : State :=
  fold_left (fun s p => apply s p.1 p.2) (number n es) s.
Definition replay `{WalApp} (es : list bytes) : State := replay_from init 0 es.

Definition entries_at (n : Lsn) (es : list bytes) : list Entry :=
  (fun p => mkEntry p.1 p.2) <$> number n es.

(** "Restoring a compacted prefix must produce the same state as replaying that
    prefix from [init]; later [apply] calls must behave identically in either
    case." States are compared by an equivalence that [apply] respects;
    [entry_ok] are the entries the application writes. *)
Class WalAppLaws `{WalApp} : Type := {
  seqv : relation State;
  seqv_equiv : Equivalence seqv;
  apply_proper : forall s s' n e, seqv s s' -> seqv (apply s n e) (apply s' n e);
  entry_ok : bytes -> Prop;
  compact_init : forall es d,
    Forall entry_ok es -> es <> [] ->
    compact None (entries_at 0 es) = Some (Ok d) ->
    exists s, restore d = Ok s /\ seqv s (replay es);
  compact_base : forall hist es b s d,
    Forall entry_ok (hist ++ es) -> es <> [] ->
    restore b = Ok s -> seqv s (replay hist) ->
    compact (Some b) (entries_at (zlen hist) es) = Some (Ok d) ->
    exists s', restore d = Ok s' /\ seqv s' (replay (hist ++ es));
  reconcile_ok : forall s es es',
    Forall entry_ok es -> reconcile_batch s es = ReplaceBatch es' -> Forall entry_ok es';
}.
#[global] Existing Instance seqv_equiv.

(** ** Lemmas *)

#[global] Instance apply_Proper `{WalAppLaws} : Proper (seqv ==> eq ==> eq ==> seqv) apply.
Proof. intros s s' Hs n n' -> e e' ->. by apply apply_proper. Qed.

#[global] Instance replay_from_Proper `{WalAppLaws} : Proper (seqv ==> eq ==> eq ==> seqv) replay_from.
Proof.
  intros s s' Hs n n' -> es es' ->. unfold replay_from. revert s s' Hs.
  induction (number n' es') as [|[m e] l IH]; intros s s' Hs; cbn [fold_left]; [done|].
  apply IH. by rewrite Hs.
Qed.

Lemma replay_from_app `{WalApp} s n es es' :
  replay_from s n (es ++ es') = replay_from (replay_from s n es) (n + zlen es) es'.
Proof. unfold replay_from. by rewrite number_app, fold_left_app. Qed.

Lemma replay_app `{WalApp} es es' : replay (es ++ es') = replay_from (replay es) (zlen es) es'.
Proof. unfold replay. by rewrite replay_from_app. Qed.

(** ** The default adapter *)

(** What the callback makes of each entry when none aborts. *)
Definition rewritten {St} (reconcile : St -> bytes -> Reconcile) (state : St) (e : bytes) : bytes :=
  match reconcile state e with Replace bs => bs | _ => e end.
Definition aborts {St} (reconcile : St -> bytes -> Reconcile) (state : St) (e : bytes) : bool :=
  match reconcile state e with Abort => true | _ => false end.
Definition replaces {St} (reconcile : St -> bytes -> Reconcile) (state : St) (e : bytes) : bool :=
  match reconcile state e with Replace _ => true | _ => false end.

Lemma reconcile_loop_spec {St} (rec : St -> bytes -> Reconcile) s pending pre rest repl :
  pending = pre ++ rest ->
  (repl = None -> (rewritten rec s <$> pre) = pre) ->
  (forall l, repl = Some l -> l = (rewritten rec s <$> pre) ++ rest) ->
  reconcile_loop rec s pending (length pre) rest repl =
    if existsb (aborts rec s) rest then AbortBatch
    else if bool_decide (is_Some repl) || existsb (replaces rec s) rest
    then ReplaceBatch (rewritten rec s <$> pending)
    else RetryBatch.
Proof.
  revert pre repl. induction rest as [|e rest IH]; intros pre repl -> Hn Hs; cbn [reconcile_loop existsb].
  { rewrite app_nil_r. destruct repl as [l|]; cbn.
    - by rewrite (Hs l), app_nil_r.
    - done. }
  assert (pre ++ e :: rest = (pre ++ [e]) ++ rest) as Hassoc by by rewrite <- app_assoc.
  assert (S (length pre) = length (pre ++ [e])) as Hlen by (rewrite length_app; cbn; lia).
  assert ((rewritten rec s <$> pre ++ [e]) = (rewritten rec s <$> pre) ++ [rewritten rec s e]) as Hsn
    by by rewrite fmap_app.
  unfold aborts at 1, replaces at 1. unfold rewritten at 3 in Hsn.
  destruct (rec s e) as [|bs|] eqn:E; cbn [orb].
  - rewrite Hlen. apply (IH (pre ++ [e])); [done|..].
    + intros Hr. by rewrite Hsn, Hn.
    + intros l Hl. by rewrite (Hs l Hl), Hsn, <- app_assoc.
  - rewrite Hlen, (IH (pre ++ [e])); [|done|done|].
    + cbn. by rewrite orb_true_r.
    + intros l [= <-]. rewrite Hsn, <- app_assoc. destruct repl as [l|]; cbn [default from_option].
      * unfold id. rewrite (Hs l eq_refl), insert_app_r_alt by (rewrite length_fmap; lia).
        by rewrite length_fmap, Nat.sub_diag.
      * rewrite Hn, insert_app_r_alt, Nat.sub_diag by (done || lia). done.
  - done.
Qed.

Lemma reconcile_loop_retries {St} (rec : St -> bytes -> Reconcile) s pending rest n :
  (forall e, rec s e = Retry) -> reconcile_loop rec s pending n rest None = RetryBatch.
Proof. intros Hr. revert n. induction rest as [|e rest IH]; intros n; [done|]. cbn [reconcile_loop]. by rewrite Hr. Qed.

(** The default [reconcile_batch] adapter: it aborts exactly when some
    entry's callback aborts, leaving the batch alone; it retries exactly when
    no callback rewrites; otherwise every rewrite sticks at its own index, the
    other entries and the length are unchanged, whatever the order of the
    decisions. *)
Theorem default_reconcile_batch_spec {St} (rec : St -> bytes -> Reconcile) (s : St) (pending : list bytes) :
  default_reconcile_batch rec s pending =
    if existsb (aborts rec s) pending then AbortBatch
    else if existsb (replaces rec s) pending then ReplaceBatch (rewritten rec s <$> pending)
    else RetryBatch.
Proof. exact (reconcile_loop_spec rec s pending [] pending None eq_refl (fun _ => eq_refl) ltac:(done)). Qed.
