(* ===== verification/CountApp.v ===== *)
(** * A counting application (src/benches/cache.rs, lines 6-29)

    The counter the benchmarks run the log with: its state is the number of
    entries, its snapshot the little-endian counter. It satisfies the
    application contract and is the instance of the concrete runs. *)

From S2P Require Import Prelude Utf8 Error Image ImageCodec App.

Module Count.

Definition init : Z := 0.
Definition apply (state : Z) (_ : Z) (_ : bytes) : Z := wrapping_add state 1.
Definition restore (bs : bytes) : Result Z WalError :=
  if zlen bs =? 8 then Ok (from_le_bytes bs) else Err (AppError "bad count").
Definition compact (base : option bytes) (entries : list Entry) : option (Result bytes WalError) :=
  Some (let? n := match base with Some b => restore b | None => Ok 0 end in
        Ok (to_le_bytes 8 (wrapping_add n (zlen entries)))).

End Count.

#[global] Instance CountApp : WalApp := {|
  State := Z;
  init := Count.init;
  apply := Count.apply;
  restore := Count.restore;
  compact := Count.compact;
  should_compact := default_should_compact;
  reconcile := default_reconcile;
  reconcile_batch := default_reconcile_batch default_reconcile;
|}.

Lemma count_replay_from s n es : is_u64 s -> replay_from (H := CountApp) s n es = wrap64 (s + zlen es).
Proof.
  unfold replay_from. revert s n. induction es as [|e es IH]; intros s n Hs; cbn [number fold_left].
  { rewrite (@zlen_nil bytes), Z.add_0_r. by rewrite wrap64_small. }
  rewrite IH by apply wrap64_range. cbn. unfold Count.apply, wrapping_add, wrap64.
  rewrite Zplus_mod_idemp_l, zlen_cons. f_equal. lia.
Qed.

Lemma count_restore n : is_u64 n -> Count.restore (to_le_bytes 8 n) = Ok n.
Proof.
  intros Hn. unfold Count.restore. rewrite zlen_to_le_bytes. cbn [Z.of_nat].
  rewrite from_to_le_bytes, Z.mod_small by (cbn; zlia). done.
Qed.

Lemma zlen_entries_at n es : zlen (entries_at n es) = zlen es.
Proof. unfold entries_at, zlen. by rewrite length_fmap, length_number. Qed.

#[global] Program Instance CountApp_laws : WalAppLaws (H := CountApp) := {|
  seqv := eq;
  entry_ok _ := True;
|}.
Next Obligation. by intros ?? n e ->. Qed.
Next Obligation.
  intros es d _ _ H. cbn in H. injection H as <-. rewrite zlen_entries_at.
  exists (wrapping_add 0 (zlen es)). split; [by apply count_restore, wrap64_range|].
  unfold replay. by rewrite count_replay_from.
Qed.
Next Obligation.
  intros hist es b s d _ _ Hb Hs H. change (Count.restore b = Ok s) in Hb.
  change (Count.compact (Some b) (entries_at (zlen hist) es) = Some (Ok d)) in H.
  unfold Count.compact in H. rewrite Hb in H. cbn [rbind] in H. injection H as <-. subst s.
  rewrite zlen_entries_at. eexists. split; [by apply count_restore, wrap64_range|].
  unfold replay. rewrite !count_replay_from by done. unfold wrapping_add, wrap64.
  rewrite Zplus_mod_idemp_l, zlen_app. do 2 f_equal.
Qed.
Next Obligation. intros s es es' H _. by apply Forall_true. Qed.
