(* ===== verification/BlobKv.v ===== *)
(** * The blob store of the benchmarks (src/benches/wal.rs, lines 23-85)

    A map from [u32] keys to blobs. An entry is a key and its payload; the
    snapshot is a sequence of keys, lengths and values in the order in which
    [HashMap] iterates, which the standard library leaves unspecified: it is a
    parameter, any listing of the map. *)

From S2P Require Import Prelude Utf8 Error Image ImageCodec App.

Abbreviation BlobMap := (gmap Z bytes).

(** An iteration visits every pair of the map once. *)
Class HashOrder : Type := {
  iter : BlobMap -> list (Z * bytes);
  iter_permutation : forall m, iter m ≡ₚ map_to_list m;
}.

Module BlobKv.

(** [None] is the panic of a slice out of range. *)
Definition apply (state : BlobMap) (entry : bytes) : option BlobMap :=
  if zlen entry <? 4 then None
  else Some (<[from_le_bytes (take 4 entry) := drop 4 entry]> state).

(** The loop [while pos < snapshot.len()] on the bytes from [pos] on. *)
Fixpoint restore_loop (fuel : nat) (map : BlobMap) (rest : bytes) : option BlobMap :=
  match fuel with
  | O => Some map
  | S fuel =>
      if zlen rest =? 0 then Some map
      else if zlen rest <? 8 then None
      else
        let key := from_le_bytes (take 4 rest) in
        let len := from_le_bytes (take 4 (drop 4 rest)) in
        if zlen rest <? 8 + len then None
        else restore_loop fuel (<[key := take (Z.to_nat len) (drop 8 rest)]> map) (drop (Z.to_nat (8 + len)) rest)
  end.

Definition restore (snapshot : bytes) : option BlobMap := restore_loop (S (length snapshot)) ∅ snapshot.

Fixpoint apply_entries (map : BlobMap) (entries : list Entry) : option BlobMap :=
  match entries with
  | [] => Some map
  | e :: entries => map ← apply map (e_data e); apply_entries map entries
  end.

(** [value.len() as u32] keeps the low 32 bits, as [to_le_bytes 4] does. *)
Definition encode_pair (p : Z * bytes) : bytes := to_le_bytes 4 p.1 ++ to_le_bytes 4 (zlen p.2) ++ p.2.
Definition encode_blobs `{HashOrder} (map : BlobMap) : bytes := concat (encode_pair <$> iter map).

Definition compact `{HashOrder} (base : option bytes) (entries : list Entry) : option (Result bytes WalError) :=
  map ← match base with Some b => restore b | None => Some ∅ end;
  map ← apply_entries map entries;
  Some (Ok (encode_blobs map)).

Definition should_compact (compact_at : Z) (stats : WalStats) : bool := compact_at <=? s_live_entries stats.

(** [e.resize(4 + payload, 0xAB)] *)
Definition entry_for (key : Z) (payload : Z) : bytes := to_le_bytes 4 key ++ repeat xab (Z.to_nat payload).

End BlobKv.

(** A state is [None] from the first panic of a callback on; no callback runs
    after it. *)
Definition BlobKvApp `{HashOrder} (compact_at : Z) : WalApp := {|
  State := option BlobMap;
  init := Some ∅;
  apply s _ e := state ← s; BlobKv.apply state e;
  restore bs := Ok (BlobKv.restore bs);
  compact := BlobKv.compact;
  should_compact := BlobKv.should_compact compact_at;
  reconcile _ _ := Retry;
  reconcile_batch := default_reconcile_batch (fun _ _ => Retry);
|}.

(** ** Snapshots *)

(** Keys and lengths fit [u32]. *)
Definition blob_typed (m : BlobMap) : Prop := map_Forall (fun k v => 0 <= k <= U32_MAX /\ zlen v <= U32_MAX) m.

(** The entries that the benchmarks write. *)
Definition blob_entry (e : bytes) : Prop := 4 <= zlen e /\ zlen e - 4 <= U32_MAX.

Definition insert_all (l : list (Z * bytes)) (m : BlobMap) : BlobMap := foldl (fun m p => <[p.1 := p.2]> m) m l.

(** Any fuel beyond the length is enough: every iteration consumes bytes. *)
Lemma restore_loop_fuel n n' m rest : (length rest < n)%nat -> (length rest < n')%nat ->
  BlobKv.restore_loop n m rest = BlobKv.restore_loop n' m rest.
Proof.
  revert n' m rest. induction n as [|n IH]; intros [|n'] m rest Hn Hn'; [lia..|]. cbn [BlobKv.restore_loop].
  destruct (zlen rest =? 0) eqn:E0; [done|]. destruct (zlen rest <? 8) eqn:E8; [done|]. cbn zeta.
  destruct (zlen rest <? 8 + _); [done|]. zbool.
  assert (0 <= from_le_bytes (take 4 (drop 4 rest))) as Hlen by apply from_le_bytes_range.
  apply IH; rewrite length_drop; zlia.
Qed.

Lemma restore_loop_pair n m k v rest : 0 <= k <= U32_MAX -> zlen v <= U32_MAX ->
  BlobKv.restore_loop (S n) m (BlobKv.encode_pair (k, v) ++ rest) = BlobKv.restore_loop n (<[k := v]> m) rest.
Proof.
  intros Hk Hv. pose proof (zlen_nonneg v). pose proof (zlen_nonneg rest). unfold BlobKv.encode_pair. cbn [fst snd].
  set (a := to_le_bytes 4 k). set (l := to_le_bytes 4 (zlen v)). rewrite <- !app_assoc. cbn [BlobKv.restore_loop].
  assert (zlen a = 4) as Ha by apply zlen_to_le_bytes. assert (zlen l = 4) as Hl by apply zlen_to_le_bytes.
  assert (length a = 4%nat) as La by (unfold zlen in Ha; lia). assert (length l = 4%nat) as Ll by (unfold zlen in Hl; lia).
  assert (zlen (a ++ l ++ v ++ rest) = 8 + zlen v + zlen rest) as Hz by (rewrite !zlen_app; lia).
  rewrite Hz. destruct (Z.eqb_spec (8 + zlen v + zlen rest) 0); [lia|]. destruct (Z.ltb_spec (8 + zlen v + zlen rest) 8); [lia|].
  rewrite (take_app_length' a) by done. rewrite (drop_app_length' a) by done. rewrite (take_app_length' l) by done.
  unfold a, l. rewrite !from_to_le_bytes, !Z.mod_small by (cbn; zlia). fold a l.
  destruct (Z.ltb_spec (8 + zlen v + zlen rest) (8 + zlen v)); [lia|].
  assert (a ++ l ++ v ++ rest = (a ++ l) ++ v ++ rest) as -> by by rewrite app_assoc.
  rewrite (drop_app_length' (a ++ l) _ 8) by (rewrite length_app; lia). rewrite take_zlen_app.
  rewrite (app_assoc (a ++ l)). rewrite (drop_app_length' ((a ++ l) ++ v)) by (rewrite !length_app; unfold zlen; lia). done.
Qed.

Lemma restore_loop_list l m n : Forall (fun p => 0 <= p.1 <= U32_MAX /\ zlen p.2 <= U32_MAX) l -> (length l < n)%nat ->
  BlobKv.restore_loop n m (concat (BlobKv.encode_pair <$> l)) = Some (insert_all l m).
Proof.
  intros Hl. revert m n. induction Hl as [|[k v] l [Hk Hv] _ IH]; intros m [|n] Hn; cbn [length] in Hn; [lia|done|lia|].
  cbn [fmap list_fmap concat]. rewrite restore_loop_pair by done. rewrite IH by lia. done.
Qed.

(** Inserting a listing of a map rebuilds it, in whatever order. *)
Lemma insert_all_list_to_map l m : NoDup l.*1 -> insert_all l m = list_to_map l ∪ m.
Proof.
  revert m. induction l as [|[k v] l IH]; intros m Hd; cbn [insert_all foldl fst snd list_to_map foldr].
  { by rewrite map_empty_union. }
  apply NoDup_cons in Hd as [Hk Hd]. change (insert_all l (<[k := v]> m) = <[k := v]> (list_to_map l) ∪ m).
  rewrite IH by done. rewrite <- insert_union_r by by apply not_elem_of_list_to_map_1. by rewrite insert_union_l.
Qed.

Lemma length_encode l : (length l <= length (concat (BlobKv.encode_pair <$> l)))%nat.
Proof.
  induction l as [|p l IH]; [done|]. cbn [fmap list_fmap concat length]. rewrite length_app.
  assert (zlen (BlobKv.encode_pair p) = 8 + zlen p.2) as Hz.
  { unfold BlobKv.encode_pair. rewrite !zlen_app, !zlen_to_le_bytes. lia. }
  pose proof (zlen_nonneg p.2). unfold zlen in *. lia.
Qed.

(** What [compact] writes, [restore] reads back, in whatever order the map
    was iterated. *)
Lemma blob_restore_encode `{HashOrder} m : blob_typed m -> BlobKv.restore (BlobKv.encode_blobs m) = Some m.
Proof.
  intros Hm. unfold BlobKv.restore, BlobKv.encode_blobs. pose proof (iter_permutation m) as Hp.
  assert (Forall (fun p => 0 <= p.1 <= U32_MAX /\ zlen p.2 <= U32_MAX) (iter m)) as Hall.
  { rewrite Hp. eapply Forall_impl; [by apply map_Forall_to_list|]. by intros [k v]. }
  rewrite restore_loop_list by (done || (pose proof (length_encode (iter m)); lia)).
  f_equal. assert (NoDup (iter m).*1) as Hd by (rewrite Hp; apply NoDup_fst_map_to_list).
  rewrite insert_all_list_to_map, map_union_empty by done. rewrite (list_to_map_proper _ _ Hd Hp). apply list_to_map_to_list.
Qed.

(** ** The application contract *)

Section laws.
Context `{HashOrder}.
Variable compact_at : Z.
Abbreviation app := (BlobKvApp compact_at).

Lemma blob_replay_panicked n es : replay_from (H := app) None n es = None.
Proof. revert n. induction es as [|e es IH]; intros n; [done|]. apply IH. Qed.

Lemma blob_replay m n es : replay_from (H := app) (Some m) n es = BlobKv.apply_entries m (entries_at n es).
Proof.
  revert m n. induction es as [|e es IH]; intros m n; [done|].
  change (replay_from (H := app) (BlobKv.apply m e) (n + 1) es
    = (map ← BlobKv.apply m e; BlobKv.apply_entries map (entries_at (n + 1) es))).
  destruct (BlobKv.apply m e) as [m'|]; cbn [mbind option_bind]; [apply IH|apply blob_replay_panicked].
Qed.

(** Entries of the benchmarks never make [apply] panic, and keep the types. *)
Lemma blob_apply_typed m e : blob_typed m -> blob_entry e -> exists m', BlobKv.apply m e = Some m' /\ blob_typed m'.
Proof.
  intros Hm [H4 Hlen]. unfold BlobKv.apply. destruct (Z.ltb_spec (zlen e) 4); [lia|]. eexists. split; [done|].
  apply map_Forall_insert_2; [|done]. pose proof (from_le_bytes_range (take 4 e)) as Hr.
  assert (zlen (take 4 e) = 4) as Ht by (unfold zlen in *; rewrite length_take; lia). rewrite Ht in Hr.
  assert (zlen (drop 4 e) = zlen e - 4) as -> by (unfold zlen in *; rewrite length_drop; lia). split; [zlia|lia].
Qed.

Lemma blob_replay_typed m n es : blob_typed m -> Forall blob_entry es ->
  exists m', replay_from (H := app) (Some m) n es = Some m' /\ blob_typed m'.
Proof.
  intros Hm Hes. revert m n Hm. induction Hes as [|e es He _ IH]; intros m n Hm; [by exists m|].
  destruct (blob_apply_typed m e Hm He) as (m1 & Ha & Hm1).
  change (exists m', replay_from (H := app) (BlobKv.apply m e) (n + 1) es = Some m' /\ blob_typed m').
  rewrite Ha. by apply IH.
Qed.

Lemma blob_empty_typed : blob_typed ∅.
Proof. apply map_Forall_empty. Qed.

(** A compaction of a typed base gives a snapshot of the replayed map. *)
Lemma blob_compact m n es b d : match b with Some b => BlobKv.restore b | None => Some ∅ end = Some m -> blob_typed m ->
  Forall blob_entry es -> BlobKv.compact b (entries_at n es) = Some (Ok d) ->
  BlobKv.restore d = replay_from (H := app) (Some m) n es.
Proof.
  intros Hb Hm Hes Hc. destruct (blob_replay_typed m n es Hm Hes) as (m' & Hr & Hm').
  unfold BlobKv.compact in Hc. rewrite Hb in Hc. cbn [mbind option_bind] in Hc. rewrite <- blob_replay, Hr in Hc.
  cbn in Hc. injection Hc as <-. by rewrite blob_restore_encode, Hr.
Qed.

#[global] Program Instance BlobKvApp_laws : WalAppLaws (H := app) := {|
  seqv := eq;
  entry_ok := blob_entry;
|}.
Next Obligation. by intros ?? n e ->. Qed.
Next Obligation.
  intros es d Hes _ Hc. eexists. split; [done|]. by apply (blob_compact ∅ 0 es None); [|apply blob_empty_typed|..].
Qed.
Next Obligation.
  intros hist es b s d [Hh Hes]%Forall_app _ Hb Hs Hc. change ((Ok (BlobKv.restore b) : Result (option BlobMap) WalError) = Ok s) in Hb. injection Hb as Hb.
  change (s = replay (H := app) hist) in Hs. destruct (blob_replay_typed ∅ 0 hist blob_empty_typed Hh) as (m & Hm & Hty).
  assert (s = Some m) as -> by by rewrite Hs. eexists. split; [done|]. rewrite replay_app.
  rewrite (blob_compact m (zlen hist) es (Some b) d) by done. f_equal. exact Hs.
Qed.
Next Obligation.
  intros s es es' Hes Hr. change (default_reconcile_batch (fun _ _ => Retry) s es = ReplaceBatch es') in Hr.
  unfold default_reconcile_batch in Hr. by rewrite reconcile_loop_retries in Hr.
Qed.

End laws.

(** An entry of the workload is understood by the application. *)
Lemma entry_for_ok key payload : 0 <= payload <= U32_MAX -> blob_entry (BlobKv.entry_for key payload).
Proof.
  intros Hp. unfold blob_entry, BlobKv.entry_for. rewrite zlen_app, zlen_to_le_bytes. unfold zlen. rewrite repeat_length. lia.
Qed.

Lemma entry_for_applies m key payload : 0 <= key <= U32_MAX -> 0 <= payload ->
  BlobKv.apply m (BlobKv.entry_for key payload) = Some (<[key := repeat xab (Z.to_nat payload)]> m).
Proof.
  intros Hk Hp. unfold BlobKv.apply, BlobKv.entry_for. set (a := to_le_bytes 4 key).
  assert (length a = 4%nat) as La by (pose proof (zlen_to_le_bytes 4 key) as Hz; fold a in Hz; unfold zlen in Hz; lia).
  rewrite zlen_app. pose proof (zlen_nonneg (repeat xab (Z.to_nat payload))).
  assert (zlen a = 4) as -> by apply zlen_to_le_bytes. destruct (Z.ltb_spec (4 + zlen (repeat xab (Z.to_nat payload))) 4); [lia|].
  rewrite take_app_length', drop_app_length' by done. unfold a. by rewrite from_to_le_bytes, Z.mod_small by (cbn; zlia).
Qed.

(** The order of a map's own listing, for concrete runs. *)
#[global] Instance listing_order : HashOrder := {| iter := map_to_list; iter_permutation _ := Permutation_refl _ |}.
