(* ===== verification/Kv.v ===== *)
(** * The key-value example (src/examples/kv.rs)

    A last-write-wins map over the log. Its snapshot has one line per key,
    [key TAB value NEWLINE]: it reads back exactly the maps whose keys and
    values avoid the separators, which is the contract under which the example
    keeps the application laws. *)

From stdpp Require Import sorting.
From S2P Require Import Prelude Utf8 Text Error Image ImageCodec App.

Module Kv.

Abbreviation Map := (gmap string string).

Definition TAB : byte := x09.
Definition SP : byte := x20.

(** The iteration order of a [BTreeMap]: keys in byte order. *)
Definition key_le (p q : string * string) : Prop := String.le p.1 q.1.
#[global] Instance key_le_dec : RelDecision key_le.
Proof. intros p q. unfold key_le. apply _. Defined.
Definition in_order (map : Map) : list (string * string) := merge_sort key_le (map_to_list map).

Definition encode_line (p : string * string) : bytes :=
  as_bytes p.1 ++ [TAB] ++ as_bytes p.2 ++ [NL].
Definition encode_map (map : Map) : bytes := concat (encode_line <$> in_order map).

Fixpoint decode_lines (ls : list bytes) (map : Map) : Result Map WalError :=
  match ls with
  | [] => Ok map
  | line :: ls =>
      match split_once TAB line with
      | None => Err (AppError ("bad snapshot line: " +:+ string_of_list_byte line))
      | Some (k, v) => decode_lines ls (<[string_of_list_byte k := string_of_list_byte v]> map)
      end
  end.
Definition decode_map (bs : bytes) : Result Map WalError :=
  match from_utf8 bs with
  | None => Err (AppError "snapshot is not utf8")
  | Some _ => decode_lines (lines bs) ∅
  end.

Definition apply (state : Map) (_ : Lsn) (entry : bytes) : Map :=
  let text := from_utf8_lossy entry in
  match strip_prefix (as_bytes "set ") text with
  | Some rest =>
      match split_once SP rest with
      | Some (k, v) => <[string_of_list_byte k := string_of_list_byte v]> state
      | None => state
      end
  | None =>
      match strip_prefix (as_bytes "del ") text with
      | Some k => delete (string_of_list_byte k) state
      | None => state
      end
  end.

Definition apply_entries (map : Map) (entries : list Entry) : Map :=
  fold_left (fun map e => apply map (e_lsn e) (e_data e)) entries map.

Definition compact (base : option bytes) (entries : list Entry) : option (Result bytes WalError) :=
  Some (let? map := match base with Some b => decode_map b | None => Ok ∅ end in
        Ok (encode_map (apply_entries map entries))).

Definition should_compact (stats : WalStats) : bool := 4 <=? s_live_entries stats.
Definition reconcile (_ : Map) (_ : bytes) : Reconcile := Retry.

End Kv.

#[global] Instance KvApp : WalApp := {|
  State := Kv.Map;
  init := ∅;
  apply := Kv.apply;
  restore := Kv.decode_map;
  compact := Kv.compact;
  should_compact := Kv.should_compact;
  reconcile := Kv.reconcile;
  reconcile_batch := default_reconcile_batch Kv.reconcile;
|}.

(** The run of the example's [main], the state printed at its end. *)
Example kv_demo :
  map_to_list (replay (H := KvApp) (as_bytes <$> ["set alpha 1"; "set beta 2"; "set alpha 3"; "set gamma 4"; "set delta 5"]))
  ≡ₚ [("alpha", "3"); ("beta", "2"); ("gamma", "4"); ("delta", "5")].
Proof. apply (bool_decide_eq_true_1 (_ ≡ₚ _)). vm_compute. reflexivity. Qed.

(** ** Well-typed and well-formed maps *)

(** A Rust [String] is valid UTF-8. *)
Definition kv_typed (m : Kv.Map) : Prop := map_Forall (fun k v => is_utf8 k /\ is_utf8 v) m.

Definition clean_key (k : bytes) : Prop := (Kv.TAB ∉ k) /\ (NL ∉ k).
Definition clean_value (v : bytes) : Prop := (NL ∉ v) /\ last v <> Some CR.
Definition kv_clean (m : Kv.Map) : Prop :=
  map_Forall (fun k v => clean_key (as_bytes k) /\ clean_value (as_bytes v)) m.

(** The entries whose effect a snapshot can express. *)
Definition clean_entry (e : bytes) : Prop :=
  match strip_prefix (as_bytes "set ") (from_utf8_lossy e) with
  | Some rest => match split_once Kv.SP rest with Some (k, v) => clean_key k /\ clean_value v | None => True end
  | None => True
  end.

(** ** Lines *)

Lemma lines_from_line acc l rest : (NL ∉ l) ->
  lines_from acc (l ++ NL :: rest) = strip_cr (rev acc ++ l) :: lines rest.
Proof.
  revert acc. induction l as [|b l IH]; intros acc Hl; cbn [app lines_from].
  - rewrite bool_decide_eq_true_2 by done. by rewrite app_nil_r.
  - apply not_elem_of_cons in Hl as [Hb Hl]. rewrite bool_decide_eq_false_2 by congruence.
    rewrite IH by done. cbn [rev]. by rewrite <- app_assoc.
Qed.

Lemma lines_line l rest : (NL ∉ l) -> lines (l ++ NL :: rest) = strip_cr l :: lines rest.
Proof. apply (lines_from_line []). Qed.

Lemma strip_cr_not_in c l : (c ∉ l) -> c ∉ strip_cr l.
Proof.
  induction l as [|b l IH]; [done|]. intros [Hb Hl]%not_elem_of_cons. destruct l as [|b' l].
  - cbn. case_bool_decide; [apply not_elem_of_nil|by apply not_elem_of_cons].
  - change (strip_cr (b :: b' :: l)) with (b :: strip_cr (b' :: l)). apply not_elem_of_cons. auto.
Qed.

Lemma elem_of_rev {A} (x : A) l : x ∈ rev l <-> x ∈ l.
Proof. by rewrite !list_elem_of_In, <- in_rev. Qed.

(** No line holds a newline. *)
Lemma lines_from_no_nl acc bs : (NL ∉ acc) -> Forall (fun l => NL ∉ l) (lines_from acc bs).
Proof.
  revert acc. induction bs as [|b bs IH]; intros acc Ha; cbn [lines_from].
  - destruct acc as [|a acc]; [done|]. constructor; [|done]. by rewrite elem_of_rev.
  - case_bool_decide as Hb.
    + constructor; [by apply strip_cr_not_in; rewrite elem_of_rev|apply IH, not_elem_of_nil].
    + apply IH, not_elem_of_cons. split; [congruence|done].
Qed.

Lemma strip_cr_cons b l : l <> [] -> strip_cr (b :: l) = b :: strip_cr l.
Proof. by destruct l. Qed.

Lemma strip_cr_line k c v : c <> CR -> strip_cr (k ++ c :: v) = k ++ c :: strip_cr v.
Proof.
  intros Hc. induction k as [|b k IH]; cbn [app].
  - destruct v; [cbn; by rewrite bool_decide_eq_false_2|by rewrite strip_cr_cons].
  - rewrite strip_cr_cons by by destruct k. by rewrite IH.
Qed.

Lemma strip_cr_id v : strip_cr v = v <-> last v <> Some CR.
Proof.
  induction v as [|b v IH]; [done|]. destruct v as [|b' v].
  - cbn. case_bool_decide; split; congruence.
  - rewrite strip_cr_cons by done. rewrite last_cons_cons, <- IH. split; [by intros [=]|by intros ->].
Qed.

(** ** Decoding an encoded map *)

Lemma from_utf8_is bs : utf8_valid bs = true -> from_utf8 bs = Some (string_of_list_byte bs).
Proof. unfold from_utf8. by intros ->. Qed.

Lemma utf8_valid_app a b : utf8_valid a = true -> utf8_valid b = true -> utf8_valid (a ++ b) = true.
Proof. intros Ha Hb. by rewrite (utf8_app_aux (length a)). Qed.

Lemma in_order_perm m : Kv.in_order m ≡ₚ map_to_list m.
Proof. apply merge_sort_Permutation. Qed.

Lemma in_order_Forall (Q : string * string -> Prop) m :
  Forall Q (Kv.in_order m) <-> map_Forall (fun k v => Q (k, v)) m.
Proof.
  rewrite in_order_perm, map_Forall_to_list. unfold uncurry.
  by apply Forall_iff; intros [k v].
Qed.

Lemma in_order_map m : list_to_map (Kv.in_order m) = m.
Proof.
  rewrite <- (list_to_map_to_list m) at 2. apply list_to_map_proper; [|apply in_order_perm].
  rewrite in_order_perm. apply NoDup_fst_map_to_list.
Qed.

Definition strip_value (v : string) : string := string_of_list_byte (strip_cr (as_bytes v)).

(** Only the separators matter for how a map is split into lines. *)
Definition kv_splits (m : Kv.Map) : Prop :=
  map_Forall (fun k v => clean_key (as_bytes k) /\ (NL ∉ as_bytes v)) m.

Lemma utf8_encode l : Forall (fun p => is_utf8 p.1 /\ is_utf8 p.2) l ->
  utf8_valid (concat (Kv.encode_line <$> l)) = true.
Proof.
  induction 1 as [|[k v] l [Hk Hv] _ IH]; [done|]. cbn [fmap list_fmap concat fst snd] in *.
  unfold Kv.encode_line. cbn [fst snd].
  apply utf8_valid_app; [|done]. apply utf8_valid_app; [done|]. apply utf8_valid_app; [done|].
  by apply utf8_valid_app.
Qed.

Lemma decode_lines_encoded l m : Forall (fun p => clean_key (as_bytes p.1) /\ (NL ∉ as_bytes p.2)) l ->
  Kv.decode_lines (lines (concat (Kv.encode_line <$> l))) m
  = Ok (foldl (fun m p => <[p.1 := strip_value p.2]> m) m l).
Proof.
  intros Hl. revert m. induction Hl as [|[k v] l [[Ht Hn] Hv] _ IH]; intros m; [done|].
  cbn [fmap list_fmap concat fst snd foldl] in *. unfold Kv.encode_line at 1. cbn [fst snd].
  change ((as_bytes k ++ [Kv.TAB] ++ as_bytes v ++ [NL]) ++ concat (Kv.encode_line <$> l))
    with ((as_bytes k ++ (Kv.TAB :: as_bytes v) ++ [NL]) ++ concat (Kv.encode_line <$> l)).
  rewrite app_assoc, <- app_assoc. cbn [app]. rewrite lines_line.
  2: { rewrite elem_of_app, elem_of_cons. intros [?|[?|?]]; [done..|done]. }
  rewrite strip_cr_line by done. cbn [Kv.decode_lines].
  rewrite (proj2 (split_once_Some Kv.TAB _ (as_bytes k) (strip_cr (as_bytes v)))) by done.
  rewrite of_list_as_bytes. apply IH.
Qed.

Lemma foldl_insert_list (g : string -> string) l (m : Kv.Map) : NoDup l.*1 ->
  foldl (fun m p => <[p.1 := g p.2]> m) m l = list_to_map (prod_map id g <$> l) ∪ m.
Proof.
  revert m. induction l as [|[k v] l IH]; intros m Hnd; cbn [foldl fmap list_fmap fst snd].
  { cbn. by rewrite (left_id_L ∅ (∪)). }
  apply NoDup_cons in Hnd as [Hk Hnd]. rewrite IH by done. cbn [list_to_map foldr prod_map fst snd id].
  rewrite <- insert_union_l, insert_union_r; [done|].
  apply not_elem_of_list_to_map_1. rewrite <- list_fmap_compose.
  by change (fst ∘ prod_map id g) with (@fst string string).
Qed.

Lemma decode_encode m : kv_typed m -> kv_splits m ->
  Kv.decode_map (Kv.encode_map m) = Ok (strip_value <$> m).
Proof.
  intros Ht Hs. unfold Kv.decode_map, Kv.encode_map.
  rewrite from_utf8_is by by apply utf8_encode, in_order_Forall.
  rewrite decode_lines_encoded by by apply in_order_Forall.
  rewrite foldl_insert_list, (right_id_L ∅ (∪)), list_to_map_fmap, in_order_map; [done|].
  rewrite in_order_perm. apply NoDup_fst_map_to_list.
Qed.

(** ** What decoding yields *)

Lemma decode_lines_inv (Q : string -> string -> Prop) ls m m' :
  Forall (fun line => forall k v, split_once Kv.TAB line = Some (k, v) ->
     Q (string_of_list_byte k) (string_of_list_byte v)) ls ->
  map_Forall Q m -> Kv.decode_lines ls m = Ok m' -> map_Forall Q m'.
Proof.
  intros HQ. revert m. induction HQ as [|line ls Hl _ IH]; intros m Hm; cbn [Kv.decode_lines]; [by intros [= <-]|].
  destruct (split_once Kv.TAB line) as [[k v]|] eqn:E; [|done]. apply IH. apply map_Forall_insert_2; auto.
Qed.

Lemma decode_map_inv (Q : string -> string -> Prop) bs m :
  (forall line k v, utf8_valid line = true -> (NL ∉ line) -> split_once Kv.TAB line = Some (k, v) ->
     Q (string_of_list_byte k) (string_of_list_byte v)) ->
  Kv.decode_map bs = Ok m -> map_Forall Q m.
Proof.
  intros HQ. unfold Kv.decode_map, from_utf8. destruct (utf8_valid bs) eqn:Hv; [|done].
  apply decode_lines_inv; [|apply map_Forall_empty].
  eapply Forall_impl; [apply Forall_and; split; [exact (utf8_lines bs Hv)|exact (lines_from_no_nl [] bs (not_elem_of_nil _))]|].
  intros line [Hl Hn] k v. by apply HQ.
Qed.

Lemma is_utf8_of_list bs : utf8_valid bs = true -> is_utf8 (string_of_list_byte bs).
Proof. unfold is_utf8. by rewrite as_bytes_of_list. Qed.

Lemma decode_typed bs m : Kv.decode_map bs = Ok m -> kv_typed m.
Proof.
  apply decode_map_inv. intros line k v Hv _ Hs.
  destruct (utf8_split_once Kv.TAB _ _ _ eq_refl Hv Hs). split; by apply is_utf8_of_list.
Qed.

Lemma decode_splits bs m : Kv.decode_map bs = Ok m -> kv_splits m.
Proof.
  apply decode_map_inv. intros line k v _ Hn [-> Ht]%split_once_Some.
  rewrite !as_bytes_of_list. rewrite elem_of_app, elem_of_cons in Hn. unfold clean_key. tauto.
Qed.

Lemma apply_typed m n e : kv_typed m -> kv_typed (Kv.apply m n e).
Proof.
  intros Hm. unfold Kv.apply.
  pose proof (from_utf8_lossy_valid e) as Hv. destruct (strip_prefix _ _) as [rest|] eqn:Ep.
  - apply utf8_strip_prefix in Ep; [|by repeat constructor|done].
    destruct (split_once _ _) as [[k v]|] eqn:Es; [|done].
    destruct (utf8_split_once Kv.SP _ _ _ eq_refl Ep Es).
    apply map_Forall_insert_2; [|done]. split; by apply is_utf8_of_list.
  - destruct (strip_prefix (as_bytes "del ") _) as [k|]; [|done]. by apply map_Forall_delete.
Qed.

(** ** Properties *)

Lemma kv_clean_splits m : kv_clean m -> kv_splits m.
Proof. intros Hc. eapply map_Forall_impl; [exact Hc|]. by intros k v [Hk [Hv _]]. Qed.

Lemma strip_value_id v : strip_value v = v <-> last (as_bytes v) <> Some CR.
Proof.
  rewrite <- strip_cr_id. unfold strip_value. split.
  - intros E%(f_equal as_bytes). by rewrite as_bytes_of_list in E.
  - intros ->. apply of_list_as_bytes.
Qed.

Lemma kv_clean_iff m : kv_clean m <-> kv_splits m /\ strip_value <$> m = m.
Proof.
  split.
  - intros Hc. split; [by apply kv_clean_splits|]. apply map_eq. intros k. rewrite lookup_fmap.
    destruct (m !! k) as [v|] eqn:E; [|done]. cbn. f_equal. by apply strip_value_id, (Hc k v E).
  - intros [Hs Hm] k v E. destruct (Hs k v E) as [Hk Hn]. split; [done|]. split; [done|]. apply strip_value_id.
    pose proof (f_equal (fun m => m !! k) Hm) as Hl. cbn in Hl. rewrite lookup_fmap, E in Hl. by injection Hl.
Qed.

(** C36. A snapshot of the key-value example reads back the map it was made of
    exactly when the separators occur in no key and no value: no tab or
    newline in a key, no newline in a value and no carriage return at its end.
    For maps of valid strings it never fails or differs otherwise. *)
Theorem kv_snapshot_roundtrip m : kv_typed m ->
  (Kv.decode_map (Kv.encode_map m) = Ok m <-> kv_clean m).
Proof.
  intros Ht. rewrite kv_clean_iff. split.
  - intros Hd. pose proof (decode_splits _ _ Hd) as Hs. split; [done|].
    rewrite decode_encode in Hd by done. by injection Hd.
  - intros [Hs Hm]. by rewrite decode_encode, Hm.
Qed.

Definition kv_map0 : Kv.Map := {["alpha" := "1 2"; "beta" := ""; "cr" +:+ string_of_list_byte [CR] := "x"]}.

Lemma kv_snapshot_roundtrip_witness :
  Kv.decode_map (Kv.encode_map kv_map0) = Ok kv_map0
  /\ Kv.decode_map (Kv.encode_map {["k" := string_of_list_byte [CR]]}) <> Ok {["k" := string_of_list_byte [CR]]}.
Proof.
  split.
  - apply kv_snapshot_roundtrip.
    + apply (bool_decide_eq_true_1 (map_Forall (fun k v => utf8_valid (as_bytes k) = true /\ utf8_valid (as_bytes v) = true) kv_map0)).
      vm_compute. reflexivity.
    + apply (bool_decide_eq_true_1 (map_Forall (fun k v => ((Kv.TAB ∉ as_bytes k) /\ (NL ∉ as_bytes k))
        /\ (NL ∉ as_bytes v) /\ last (as_bytes v) <> Some CR) kv_map0)).
      vm_compute. reflexivity.
  - intros H. apply kv_snapshot_roundtrip in H.
    + destruct (H "k" (string_of_list_byte [CR])) as (_ & _ & Hl); [reflexivity|]. by apply Hl.
    + by apply map_Forall_singleton.
Defined.

(** ** What an entry says *)

(** The commands of the example, as a user writes them. *)
Inductive Command : Type := Put (k v : string) | Del (k : string) | Skip.

Definition put_text (k v : string) : bytes := as_bytes "set " ++ as_bytes k ++ as_bytes " " ++ as_bytes v.
Definition del_text (k : string) : bytes := as_bytes "del " ++ as_bytes k.

(** A put's key ends at its first space; a text of neither form says nothing. *)
Inductive says (e : bytes) : Command -> Prop :=
  | says_put k v : x20 ∉ as_bytes k -> from_utf8_lossy e = put_text k v -> says e (Put k v)
  | says_del k : from_utf8_lossy e = del_text k -> says e (Del k)
  | says_skip : (forall k v, from_utf8_lossy e <> put_text k v) -> (forall k, from_utf8_lossy e <> del_text k) -> says e Skip.

(** The last command about [k]. *)
Definition about (k : string) (c : Command) : bool :=
  match c with Put k' _ | Del k' => bool_decide (k' = k) | Skip => false end.
Definition last_about (k : string) (cs : list Command) : option Command := last (filter (fun c => about k c) cs).

Definition run_command (m : Kv.Map) (c : Command) : Kv.Map :=
  match c with Put k v => <[k := v]> m | Del k => delete k m | Skip => m end.

Lemma put_text_split k v : strip_prefix (as_bytes "set ") (put_text k v) = Some (as_bytes k ++ x20 :: as_bytes v).
Proof. by apply strip_prefix_Some. Qed.

Lemma put_not_del k v k' : put_text k v <> del_text k'.
Proof. unfold put_text, del_text. intros E%(f_equal (take 4)). by vm_compute in E. Qed.

(** An entry acts as the command it says. *)
Lemma apply_says e c m n : says e c -> Kv.apply m n e = run_command m c.
Proof.
  intros [k v Hk E|k E|Hp Hd]; unfold Kv.apply; cbn [run_command].
  - rewrite E, put_text_split. rewrite (proj2 (split_once_Some Kv.SP _ (as_bytes k) (as_bytes v))) by done.
    by rewrite !of_list_as_bytes.
  - rewrite E. destruct (strip_prefix (as_bytes "set ") (del_text k)) as [r|] eqn:Es.
    { apply strip_prefix_Some, (f_equal (take 4)) in Es. by vm_compute in Es. }
    unfold del_text. rewrite (proj2 (strip_prefix_Some (as_bytes "del ") _ (as_bytes k))) by done. by rewrite of_list_as_bytes.
  - destruct (strip_prefix (as_bytes "set ") _) as [r|] eqn:Es.
    + apply strip_prefix_Some in Es. destruct (split_once Kv.SP r) as [[k v]|] eqn:Er; [|done].
      apply split_once_Some in Er as [-> _]. destruct (Hp (string_of_list_byte k) (string_of_list_byte v)).
      unfold put_text. by rewrite Es, !as_bytes_of_list.
    + destruct (strip_prefix (as_bytes "del ") _) as [k|] eqn:Ed; [|done]. apply strip_prefix_Some in Ed.
      destruct (Hd (string_of_list_byte k)). unfold del_text. by rewrite as_bytes_of_list.
Qed.

Lemma split_once_hit c l r : is_Some (split_once c (l ++ c :: r)).
Proof.
  induction l as [|b l IH]; cbn [app split_once].
  - by rewrite bool_decide_eq_true_2.
  - case_bool_decide; [done|]. destruct IH as [[p q] ->]. done.
Qed.

(** Every entry says exactly one command. *)
Lemma says_total e : exists c, says e c.
Proof.
  destruct (strip_prefix (as_bytes "set ") (from_utf8_lossy e)) as [r|] eqn:Es.
  - apply strip_prefix_Some in Es. destruct (split_once x20 r) as [[k v]|] eqn:Er.
    + apply split_once_Some in Er as [-> Hk]. exists (Put (string_of_list_byte k) (string_of_list_byte v)).
      constructor; [by rewrite as_bytes_of_list|]. unfold put_text. by rewrite Es, !as_bytes_of_list.
    + exists Skip. constructor.
      * intros k v E. unfold put_text in E. rewrite Es in E. apply app_inv_head in E as ->.
        destruct (split_once_hit x20 (as_bytes k) (as_bytes v)) as [p Hp]. change (as_bytes " ") with [x20] in Er. cbn [app] in Er. congruence.
      * intros k E. rewrite Es in E. apply (f_equal (take 4)) in E. by vm_compute in E.
  - destruct (strip_prefix (as_bytes "del ") (from_utf8_lossy e)) as [k|] eqn:Ed.
    + apply strip_prefix_Some in Ed. exists (Del (string_of_list_byte k)). constructor.
      unfold del_text. by rewrite as_bytes_of_list.
    + exists Skip. constructor.
      * intros k v E. rewrite E in Es. by rewrite put_text_split in Es.
      * intros k E. rewrite E in Ed. unfold del_text in Ed. by rewrite (proj2 (strip_prefix_Some (as_bytes "del ") _ (as_bytes k))) in Ed.
Qed.

Lemma put_text_inj k v k' v' : x20 ∉ as_bytes k -> x20 ∉ as_bytes k' -> put_text k v = put_text k' v' -> k = k' /\ v = v'.
Proof.
  intros Hk Hk' E. unfold put_text in E. apply app_inv_head in E.
  assert (forall k v, x20 ∉ as_bytes k ->
    split_once x20 (as_bytes k ++ as_bytes " " ++ as_bytes v) = Some (as_bytes k, as_bytes v)) as Hsp.
  { intros k0 v0 H0. by apply split_once_Some. }
  pose proof (Hsp k v Hk) as Ha. rewrite E, (Hsp k' v' Hk') in Ha.
  injection Ha as Ha Hb. by split; apply as_bytes_inj.
Qed.

Lemma says_unique e c c' : says e c -> says e c' -> c = c'.
Proof.
  intros [k v Hk E|k E|Hp Hd] [k' v' Hk' E'|k' E'|Hp' Hd']; try done.
  - rewrite E in E'. by destruct (put_text_inj k v k' v' Hk Hk' E') as [-> ->].
  - rewrite E in E'. by apply put_not_del in E'.
  - by destruct (Hp' k v).
  - rewrite E in E'. symmetry in E'. by apply put_not_del in E'.
  - rewrite E in E'. apply app_inv_head, as_bytes_inj in E' as ->. done.
  - by destruct (Hd' k).
  - by destruct (Hp k' v').
  - by destruct (Hd k').
Qed.

Lemma run_command_lookup m c k : run_command m c !! k =
  if about k c then match c with Put _ v => Some v | _ => None end else m !! k.
Proof.
  destruct c as [k' v|k'|]; cbn [run_command about]; [| |done]; case_bool_decide as E; subst;
    by rewrite ?lookup_insert_eq, ?lookup_delete_eq, ?lookup_insert_ne, ?lookup_delete_ne.
Qed.

(** C37. The last write wins. An entry is a put of the key before its first
    space, a deletion, or says nothing, never two of these; and after any
    entries a key has the value of the last put about it, none if the last
    command about it deletes it, and its old value if there is no command about
    it. What a user writes for a valid key without spaces is read back as
    exactly that command. *)
Theorem kv_last_write_wins :
  (forall e, exists c, says e c /\ forall c', says e c' -> c' = c)
  /\ (forall k v, is_utf8 k -> is_utf8 v -> x20 ∉ as_bytes k -> says (put_text k v) (Put k v) /\ says (del_text k) (Del k))
  /\ (forall m n es cs k, Forall2 says es cs -> replay_from (H := KvApp) m n es !! k =
        match last_about k cs with Some (Put _ v) => Some v | Some _ => None | None => m !! k end).
Proof.
  split_and!.
  - intros e. destruct (says_total e) as [c Hc]. exists c. split; [done|]. intros c' Hc'. by eapply says_unique.
  - intros k v Hk Hv Hs. split; constructor; [done|..]; apply from_utf8_lossy_id; repeat apply utf8_valid_app; done.
  - intros m n es cs k Hes. revert m n. induction Hes as [|e c es cs He _ IH]; intros m n; [done|].
    change (replay_from (H := KvApp) m n (e :: es)) with (replay_from (H := KvApp) (Kv.apply m n e) (n + 1) es).
    rewrite IH, (apply_says e c m n He). unfold last_about. rewrite filter_cons. case_decide as Ha.
    + rewrite last_cons. destruct (last (filter _ cs)) as [c'|]; [done|]. rewrite run_command_lookup.
      destruct (about k c) eqn:E; [|done]. by destruct c.
    + destruct (last (filter _ cs)) as [c'|]; [done|]. rewrite run_command_lookup. by destruct (about k c).
Qed.

Lemma kv_last_write_wins_witness :
  let m := replay_from (H := KvApp) {["b" := "0"]} 7 (as_bytes <$> ["set a 1"; "set a 2 3"; "del b"]) in
  m !! "a" = Some "2 3" /\ m !! "b" = None /\ m !! "c" = None.
Proof.
  assert (Forall2 says (as_bytes <$> ["set a 1"; "set a 2 3"; "del b"]) [Put "a" "1"; Put "a" "2 3"; Del "b"]) as Hs.
  { repeat constructor; by apply (bool_decide_eq_true_1 (_ ∉ _)). }
  destruct kv_last_write_wins as (_ & _ & Hw).
  split_and!; rewrite (Hw _ _ _ _ _ Hs); reflexivity.
Defined.

(** ** The application contract *)

Lemma apply_clean m n e : clean_entry e -> kv_clean m -> kv_clean (Kv.apply m n e).
Proof.
  unfold clean_entry, Kv.apply. intros He Hm. destruct (strip_prefix (as_bytes "set ") _) as [rest|].
  - destruct (split_once _ _) as [[k v]|]; [|done].
    apply map_Forall_insert_2; [by rewrite !as_bytes_of_list|done].
  - destruct (strip_prefix _ _) as [k|]; [|done]. by apply map_Forall_delete.
Qed.

Lemma apply_entries_replay m n es : Kv.apply_entries m (entries_at n es) = replay_from (H := KvApp) m n es.
Proof.
  unfold Kv.apply_entries, replay_from, entries_at. revert m n.
  induction es as [|e es IH]; intros m n; [done|]. apply IH.
Qed.

Lemma replay_from_inv m n es : Forall clean_entry es -> kv_typed m -> kv_clean m ->
  kv_typed (replay_from (H := KvApp) m n es) /\ kv_clean (replay_from (H := KvApp) m n es).
Proof.
  intros Hes. revert m n. induction Hes as [|e es He _ IH]; intros m n Ht Hc; [done|].
  change (replay_from (H := KvApp) m n (e :: es)) with (replay_from (H := KvApp) (Kv.apply m n e) (n + 1) es).
  apply IH; [by apply apply_typed|by apply apply_clean].
Qed.

Lemma kv_restore_compacted m n es d : Forall clean_entry es -> kv_typed m -> kv_clean m ->
  d = Kv.encode_map (Kv.apply_entries m (entries_at n es)) ->
  Kv.decode_map d = Ok (replay_from (H := KvApp) m n es).
Proof.
  intros Hes Ht Hc ->. rewrite apply_entries_replay. destruct (replay_from_inv m n es Hes Ht Hc) as [Ht' Hc'].
  apply kv_clean_iff in Hc' as [Hs Hm]. by rewrite decode_encode, Hm.
Qed.

#[global] Program Instance KvApp_laws : WalAppLaws (H := KvApp) := {|
  seqv := eq;
  entry_ok := clean_entry;
|}.
Next Obligation. by intros ?? n e ->. Qed.
Next Obligation.
  intros es d Hes _ H. injection H as H. exists (replay es). split; [|done].
  by apply (kv_restore_compacted ∅ 0); [done|apply map_Forall_empty..|].
Qed.
Next Obligation.
  intros hist es b s d Hes _ Hb -> H. apply Forall_app in Hes as [Hh Hes].
  change (Kv.compact (Some b) (entries_at (zlen hist) es) = Some (Ok d)) in H.
  change (Kv.decode_map b = Ok (replay hist)) in Hb. unfold Kv.compact in H. rewrite Hb in H. injection H as <-.
  destruct (replay_from_inv ∅ 0 hist Hh (map_Forall_empty _) (map_Forall_empty _)) as [Ht Hc].
  exists (replay (hist ++ es)). split; [|done]. rewrite replay_app. by apply (kv_restore_compacted _ (zlen hist)).
Qed.
Next Obligation.
  intros s es es' _ H. change (default_reconcile_batch Kv.reconcile s es = ReplaceBatch es') in H.
  unfold default_reconcile_batch in H. by rewrite reconcile_loop_retries in H.
Qed.

(** A value that holds a newline: the live state has it, the snapshot of the
    same entries cannot be restored. *)
Example kv_newline_breaks_snapshot :
  let e := as_bytes "set k a" ++ [NL] ++ as_bytes "b" in
  replay (H := KvApp) [e] = {["k" := "a" +:+ string_of_list_byte [NL] +:+ "b"]}
  /\ exists d, Kv.compact None (entries_at 0 [e]) = Some (Ok d)
       /\ Kv.decode_map d = Err (AppError "bad snapshot line: b").
Proof. split; [by vm_compute|]. eexists. split; [reflexivity|]. by vm_compute. Qed.
