(* ===== verification/Proc.v ===== *)
(** * Effectful code and its interleaving

    A [proc W A] is code of the crate as a tree of atomic actions on the
    shared world [W]: an action is one store request, one cache operation or
    one operation on a compaction thread, and may block ([None]). Code that
    would panic is [Panic]. [run] executes one [proc] alone; [exec] executes
    it with arbitrary steps of an environment before each action; [pstep]
    interleaves a pool of [proc]s, to which actions may add threads.

    [wp] is the rely-guarantee weakest precondition of a [proc]; [wp_exec]
    and [pool_sound] connect it with the two concurrent semantics. *)

From S2P Require Import Prelude.

Inductive proc (W A : Type) : Type :=
  | Ret (a : A)
  | Act {R : Type} (f : W -> option (W * R)) (k : R -> proc W A)
  | Panic (message : string).
Arguments Ret {W A} a.
Arguments Act {W A R} f k.
Arguments Panic {W A} message.

Fixpoint bind {W A B} (p : proc W A) (k : A -> proc W B) : proc W B :=
  match p with
  | Ret a => k a
  | Act f k' => Act f (fun r => bind (k' r) k)
  | Panic m => Panic m
  end.

Notation "'let!' x ':=' p 'in' k" := (bind p (fun x => k))
  (at level 10, x pattern, p at level 100, k at level 200)
  : waltier_scope.

(** An action that never blocks, and one that may. *)
Definition act {W R} (f : W -> W * R) : proc W R := Act (fun w => Some (f w)) Ret.
Definition act_block {W R} (f : W -> option (W * R)) : proc W R := Act f Ret.

(** [catch_unwind]: what a thread does with a panic of its body. *)
Fixpoint on_panic {W A} (p : proc W A) (h : string -> proc W A) : proc W A :=
  match p with
  | Ret a => Ret a
  | Act f k => Act f (fun r => on_panic (k r) h)
  | Panic m => h m
  end.

Inductive outcome (A : Type) : Type := Returned (a : A) | Panicked (message : string).
Arguments Returned {A} a.
Arguments Panicked {A} message.

(** Execution of one [proc] alone; [None] when an action blocks. *)
Fixpoint run {W A} (p : proc W A) (w : W) : option (W * outcome A) :=
  match p with
  | Ret a => Some (w, Returned a)
  | Panic m => Some (w, Panicked m)
  | Act f k => match f w with Some (w, r) => run (k r) w | None => None end
  end.

Lemma bind_ret {W A B} (a : A) (k : A -> proc W B) : bind (Ret a) k = k a.
Proof. done. Qed.

Lemma run_bind {W A B} (p : proc W A) (k : A -> proc W B) w :
  run (bind p k) w =
    match run p w with
    | Some (w, Returned a) => run (k a) w
    | Some (w, Panicked m) => Some (w, Panicked m)
    | None => None
    end.
Proof.
  revert w. induction p as [a|R f k' IH|m]; intros w; cbn [bind run]; [done| |done].
  destruct (f w) as [[w' r]|]; [|done]. apply IH.
Qed.

(** ** Concurrent executions

    A configuration is an observer's record [G] of the past and a world. The
    observer sees each action of thread [i] as the pair of worlds before and
    after it; [sane] bounds the executions considered. *)
Section concurrent.
Context {W G : Type}.
Variable sane : W -> Prop.
Variable record : nat -> G -> W -> W -> G.

Definition cfg : Type := G * W.
Definition after (i : nat) (c : cfg) (w : W) : cfg := (record i c.1 c.2 w, w).

Section rely_guarantee.
Variable Inv : cfg -> Prop.
Variable rely : nat -> cfg -> cfg -> Prop.
Variable guar : nat -> cfg -> cfg -> Prop.
(** Where thread [i] may be waiting. *)
Variable waits : nat -> cfg -> Prop.

(** Thread [i] runs [p] while the environment takes steps allowed by [rely]. *)
Inductive exec (i : nat) {A} : proc W A -> cfg -> outcome A -> cfg -> Prop :=
  | exec_ret a c : exec i (Ret a) c (Returned a) c
  | exec_panic m c : exec i (Panic m) c (Panicked m) c
  | exec_act {R} (f : W -> option (W * R)) k c c1 w2 r out c' :
      rely i c c1 -> f c1.2 = Some (w2, r) -> sane w2 ->
      exec i (k r) (after i c1 w2) out c' ->
      exec i (Act f k) c out c'.

(** From [c], whatever the environment does, every action of [p] is allowed by
    [guar], it blocks only where [waits] allows, a return satisfies [Q] and a
    panic [E]. *)
Fixpoint wp (i : nat) {A} (p : proc W A) (Q : A -> cfg -> Prop) (E : string -> cfg -> Prop) (c : cfg)
  : Prop :=
  match p with
  | Ret a => Q a c
  | Panic m => E m c
  | Act f k => forall c1, rely i c c1 ->
      match f c1.2 with
      | None => waits i c1
      | Some (w2, r) => sane w2 ->
          guar i c1 (after i c1 w2) /\ wp i (k r) Q E (after i c1 w2)
      end
  end.

Definition no_panic : string -> cfg -> Prop := fun _ _ => False.

Lemma wp_exec i {A} (p : proc W A) Q E c out c' :
  wp i p Q E c -> exec i p c out c' ->
  match out with Returned a => Q a c' | Panicked m => E m c' end.
Proof.
  intros Hwp Hex. induction Hex as [a c|m c|R f k c c1 w2 r out c' Hr Hf Hs _ IH]; [done..|].
  apply IH. cbn [wp] in Hwp. specialize (Hwp c1 Hr). rewrite Hf in Hwp. by apply Hwp.
Qed.

Lemma wp_bind i {A B} (p : proc W A) (k : A -> proc W B) Q E c :
  wp i p (fun a c => wp i (k a) Q E c) E c -> wp i (bind p k) Q E c.
Proof.
  revert c. induction p as [a|R f k' IH|m]; intros c; cbn [bind wp]; [done| |done].
  intros H c1 Hr. specialize (H c1 Hr). destruct (f c1.2) as [[w2 r]|]; [|done].
  intros Hs. destruct (H Hs) as [Hg Hw]. split; [done|by apply IH].
Qed.

Lemma wp_mono i {A} (p : proc W A) Q Q' E c :
  (forall a c, Q a c -> Q' a c) -> wp i p Q E c -> wp i p Q' E c.
Proof.
  intros HQ. revert c. induction p as [a|R f k IH|m]; intros c; cbn [wp]; [apply HQ| |done].
  intros H c1 Hr. specialize (H c1 Hr). destruct (f c1.2) as [[w2 r]|]; [|done].
  intros Hs. destruct (H Hs) as [Hg Hw]. split; [done|by apply IH].
Qed.

Lemma wp_act i {R} (f : W -> W * R) (Q : R -> cfg -> Prop) E c :
  (forall c1 w2 r, rely i c c1 -> f c1.2 = (w2, r) -> sane w2 ->
     guar i c1 (after i c1 w2) /\ Q r (after i c1 w2)) ->
  wp i (act f) Q E c.
Proof. intros H c1 Hr. cbn. destruct (f c1.2) as [w2 r] eqn:Ef. intros Hs. by apply H. Qed.

Lemma wp_act_block i {R} (f : W -> option (W * R)) (Q : R -> cfg -> Prop) E c :
  (forall c1, rely i c c1 -> f c1.2 = None -> waits i c1) ->
  (forall c1 w2 r, rely i c c1 -> f c1.2 = Some (w2, r) -> sane w2 ->
     guar i c1 (after i c1 w2) /\ Q r (after i c1 w2)) ->
  wp i (act_block f) Q E c.
Proof. intros Hb H c1 Hr. cbn. destruct (f c1.2) as [[w2 r]|] eqn:Ef; [|by apply Hb]. intros Hs. by apply H. Qed.

Lemma wp_on_panic i {A} (p : proc W A) h Q E E' c :
  (forall m c, E m c -> wp i (h m) Q E' c) -> wp i p Q E c -> wp i (on_panic p h) Q E' c.
Proof.
  intros Hh. revert c. induction p as [a|R f k IH|m]; intros c; cbn [on_panic wp]; [done| |apply Hh].
  intros H c1 Hr. specialize (H c1 Hr). destruct (f c1.2) as [[w2 r]|]; [|done].
  intros Hs. destruct (H Hs) as [Hg Hw]. split; [done|by apply IH].
Qed.

(** ** Executions of one [proc] alone are executions *)

(** [run] with the observer's record, checking that every world is sane. *)
Fixpoint run_rec (sane_b : W -> bool) (i : nat) {A} (p : proc W A) (c : cfg) : option (cfg * outcome A) :=
  match p with
  | Ret a => Some (c, Returned a)
  | Panic m => Some (c, Panicked m)
  | Act f k =>
      match f c.2 with
      | Some (w, r) => if sane_b w then run_rec sane_b i (k r) (after i c w) else None
      | None => None
      end
  end.

Lemma run_rec_exec sane_b i {A} (p : proc W A) c c' out Q E :
  (forall w, sane_b w = true -> sane w) -> (forall c, Inv c -> rely i c c) ->
  (forall c1 c2, guar i c1 c2 -> Inv c2) ->
  wp i p Q E c -> Inv c -> run_rec sane_b i p c = Some (c', out) -> exec i p c out c'.
Proof.
  intros Hsane Hrefl Hinv. revert c.
  induction p as [a|R f k IH|m]; intros c Hwp Hc Hrun; cbn [run_rec wp] in *.
  - injection Hrun as <- <-. constructor.
  - specialize (Hwp c (Hrefl c Hc)). destruct (f c.2) as [[w2 r]|] eqn:Ef; [|done].
    destruct (sane_b w2) eqn:Es; [|done]. destruct (Hwp (Hsane w2 Es)) as [Hg Hw].
    eapply exec_act; [by apply Hrefl|done|by apply Hsane|]. apply IH; [done|by eapply Hinv|done].
  - injection Hrun as <- <-. constructor.
Qed.

(** ** Pools of threads *)

(** [spawned w] is a thread that an action has created and that has not
    started yet, with the world in which it has. *)
Context {X : Type}.
Variable spawned : W -> option (W * proc W X).

Abbreviation pool := (cfg * list (proc W X))%type.

Inductive pstep : pool -> pool -> Prop :=
  | pstep_act i {R} (f : W -> option (W * R)) k c ps w2 r :
      ps !! i = Some (Act f k) -> f c.2 = Some (w2, r) -> sane w2 ->
      pstep (c, ps) (after i c w2, <[i := k r]> ps)
  | pstep_start c ps w2 p :
      spawned c.2 = Some (w2, p) -> sane w2 ->
      pstep (c, ps) (after (length ps) c w2, ps ++ [p]).

Hypothesis rely_refl : forall i c, Inv c -> rely i c c.
Hypothesis rely_trans : forall i c1 c2 c3, rely i c1 c2 -> rely i c2 c3 -> rely i c1 c3.
Hypothesis guar_inv : forall i c c', guar i c c' -> Inv c'.
Hypothesis guar_rely : forall i j c c', i <> j -> guar j c c' -> rely i c c'.

Variable Q : nat -> X -> cfg -> Prop.
(** [n] threads exist from the start. *)
Variable n : nat.
Hypothesis spawned_ok : forall j c w2 p, (n <= j)%nat -> Inv c -> spawned c.2 = Some (w2, p) -> sane w2 ->
  guar j c (after j c w2) /\ wp j p (Q j) no_panic (after j c w2).

(** Every thread is at a point its own proof covers, up to steps of others. *)
Definition pool_ok (s : pool) : Prop :=
  Inv s.1 /\ (n <= length s.2)%nat /\ forall i p, s.2 !! i = Some p -> exists c, wp i p (Q i) no_panic c /\ rely i c s.1.

Lemma pstep_ok s s' : pstep s s' -> pool_ok s -> pool_ok s'.
Proof.
  intros Hstep (Hinv & Hn & Hall). destruct Hstep as [i R f k c ps w2 r Hi Hf Hs|c ps w2 p Hsp Hs];
    unfold pool_ok in *; cbn [fst snd] in *.
  - destruct (Hall i _ Hi) as (c0 & Hwp & Hr). cbn [wp] in Hwp. specialize (Hwp c Hr).
    rewrite Hf in Hwp. destruct (Hwp Hs) as [Hg Hw].
    split; [by eapply guar_inv|]. split; [by rewrite length_insert|]. intros j p Hj. destruct (decide (i = j)) as [->|Hne].
    + rewrite list_lookup_insert_eq in Hj by (by eapply lookup_lt_Some).
      injection Hj as <-. exists (after j c w2). split; [done|]. by eapply rely_refl, guar_inv.
    + rewrite list_lookup_insert_ne in Hj by done. destruct (Hall j p Hj) as (c1 & Hw1 & Hr1).
      exists c1. split; [done|]. eapply rely_trans; [done|]. by eapply guar_rely.
  - destruct (spawned_ok (length ps) c w2 p Hn Hinv Hsp Hs) as [Hg Hw].
    split; [by eapply guar_inv|]. split; [rewrite length_app; lia|]. intros j q Hj. apply lookup_app_Some in Hj as [Hj|[Hl Hj]].
    + destruct (Hall j q Hj) as (c1 & Hw1 & Hr1). exists c1. split; [done|].
      eapply rely_trans; [done|]. eapply guar_rely; [|done].
      apply lookup_lt_Some in Hj. lia.
    + destruct (j - length ps)%nat as [|m] eqn:Em; [|by destruct m]. cbn in Hj. injection Hj as <-.
      replace j with (length ps) by lia. exists (after (length ps) c w2). split; [done|].
      by eapply rely_refl, guar_inv.
Qed.

(** A blocked thread of a pool waits where its proof says. *)
Lemma pool_ok_waits s i R (f : W -> option (W * R)) k :
  pool_ok s -> s.2 !! i = Some (Act f k) -> f s.1.2 = None -> waits i s.1.
Proof.
  intros (_ & _ & Hall) Hi Hf. destruct (Hall i _ Hi) as (c0 & Hwp & Hr). specialize (Hwp _ Hr).
  by rewrite Hf in Hwp.
Qed.

Lemma pool_sound s s' : rtc pstep s s' -> pool_ok s -> pool_ok s'.
Proof. induction 1 as [|s1 s2 s3 Hstep _ IH]; [done|]. intros Hok. by eapply IH, pstep_ok. Qed.

End rely_guarantee.
End concurrent.

(** ** Threads get shorter

    Every action of a thread leaves it with one of its finitely deep
    continuations. *)
Section shrinking.
Context {W A : Type}.
Abbreviation proc := (proc W A).

Definition child (p' p : proc) : Prop := match p with Act f k => exists r, p' = k r | _ => False end.
Definition shrinks (ps' ps : list proc) : Prop :=
  exists i p p', ps !! i = Some p /\ child p' p /\ ps' = <[i := p']> ps.

Lemma child_wf p : Acc child p.
Proof.
  induction p as [a|R f k IH|m]; constructor; cbn; [done| |done]. by intros p' [r ->].
Qed.

Lemma shrinks_wf ps : Acc shrinks ps.
Proof.
  induction ps as [|p ps IHps]; [constructor; by intros ps' (i & p & p' & Hi & _)|].
  revert ps IHps. induction (child_wf p) as [p _ IHp]. intros ps Hps. pose proof Hps as Hps0.
  induction Hps as [ps _ IHps]. constructor. intros ps' ([|i] & q & q' & Hi & Hc & ->); cbn in Hi |- *.
  - injection Hi as <-. by apply IHp.
  - assert (shrinks (<[i:=q']> ps) ps) as Hs by by exists i, q, q'.
    apply IHps; [done|]. by apply Acc_inv with ps.
Qed.

End shrinking.

(** A pool whose actions create no threads has only finite schedules. *)
Lemma pool_terminates {W G X} sane record (spawned : W -> option (W * proc W X)) :
  (forall w, spawned w = None) -> forall ps (c : G * W), Acc (flip (pstep sane record spawned)) (c, ps).
Proof.
  intros Hsp ps. induction (shrinks_wf ps) as [ps _ IH]. intros c. constructor. intros s' Hstep.
  unfold flip in Hstep. inversion Hstep as [i R f k c0 ps0 w2 r Hi|c0 ps0 w2 p Hs]; subst; [|by rewrite Hsp in Hs].
  apply IH. exists i, (Act f k), (k r). split_and!; [done|by exists r|done].
Qed.
