(* ===== verification/Atomic.v ===== *)
(** * Files and atomic publication (src/src/cache.rs, lines 11-68)

    The part of [std::fs] the crate uses, over a finite map of file contents,
    and [write_atomic], which publishes through an exclusively created sibling
    temporary file. Every operation draws one fault from [fs_io]: [None] lets
    it succeed, [Some n] makes it fail (a write after its first [n] bytes); an
    exhausted list means no fault. Theorems quantify over the list. *)

From S2P Require Import Prelude Fmt.

Abbreviation path := (list string).

Inductive ErrorKind : Type := AlreadyExists | NotFound | OtherKind.
Record IoErr : Type := mkIoErr { io_kind : ErrorKind; io_text : string }.

Record Fs : Type := mkFs {
  fs_files : gmap path bytes;
  fs_io : list (option nat);
  fs_pid : Z;
  fs_next : Z;
}.

Definition set_files (fs : Fs) (m : gmap path bytes) : Fs :=
  {| fs_files := m; fs_io := fs_io fs; fs_pid := fs_pid fs; fs_next := fs_next fs |}.

(** The fault of the next operation. *)
Definition draw (fs : Fs) : option nat * Fs :=
  match fs_io fs with
  | [] => (None, fs)
  | o :: io => (o, {| fs_files := fs_files fs; fs_io := io; fs_pid := fs_pid fs; fs_next := fs_next fs |})
  end.

Definition io_other : IoErr := {| io_kind := OtherKind; io_text := "injected i/o failure" |}.
Definition io_exists : IoErr := {| io_kind := AlreadyExists; io_text := "File exists" |}.
Definition io_not_found : IoErr := {| io_kind := NotFound; io_text := "No such file or directory" |}.

(** [OpenOptions::new().write(true).create_new(true).open(p)] *)
Definition create_new (p : path) (fs : Fs) : Fs * Result unit IoErr :=
  let (f, fs) := draw fs in
  match f with
  | Some _ => (fs, Err io_other)
  | None =>
      match fs_files fs !! p with
      | Some _ => (fs, Err io_exists)
      | None => (set_files fs (<[p := []]> (fs_files fs)), Ok tt)
      end
  end.

(** [write_all] on the open file. *)
Definition write_all (p : path) (bs : bytes) (fs : Fs) : Fs * Result unit IoErr :=
  let (f, fs) := draw fs in
  let old := default [] (fs_files fs !! p) in
  match f with
  | Some n => (set_files fs (<[p := old ++ take n bs]> (fs_files fs)), Err io_other)
  | None => (set_files fs (<[p := old ++ bs]> (fs_files fs)), Ok tt)
  end.

Definition rename (a b : path) (fs : Fs) : Fs * Result unit IoErr :=
  let (f, fs) := draw fs in
  match f, fs_files fs !! a with
  | Some _, _ => (fs, Err io_other)
  | None, None => (fs, Err io_not_found)
  | None, Some c => (set_files fs (<[b := c]> (delete a (fs_files fs))), Ok tt)
  end.

Definition remove_file (p : path) (fs : Fs) : Fs * Result unit IoErr :=
  let (f, fs) := draw fs in
  match f, fs_files fs !! p with
  | Some _, _ => (fs, Err io_other)
  | None, None => (fs, Err io_not_found)
  | None, Some _ => (set_files fs (delete p (fs_files fs)), Ok tt)
  end.

Definition read_file (p : path) (fs : Fs) : Fs * Result bytes IoErr :=
  let (f, fs) := draw fs in
  match f, fs_files fs !! p with
  | Some _, _ => (fs, Err io_other)
  | None, None => (fs, Err io_not_found)
  | None, Some c => (fs, Ok c)
  end.

(** Directories are not tracked: creating one either works or fails. *)
Definition create_dir_all (_ : path) (fs : Fs) : Fs * Result unit IoErr :=
  let (f, fs) := draw fs in
  match f with Some _ => (fs, Err io_other) | None => (fs, Ok tt) end.

Definition is_child (dir p : path) : bool :=
  match last p with Some name => bool_decide (p = dir ++ [name]) | None => false end.

(** The files of a directory, in some order. *)
Definition read_dir (dir : path) (fs : Fs) : Fs * Result (list path) IoErr :=
  let (f, fs) := draw fs in
  match f with
  | Some _ => (fs, Err io_other)
  | None => (fs, Ok (filter (fun p => is_child dir p = true) (map_to_list (fs_files fs)).*1))
  end.

(** ** Hexadecimal names *)

Fixpoint hex (bs : bytes) : string :=
  match bs with [] => "" | b :: bs => hex2 b +:+ hex bs end.

(** ** Atomic publication *)

Definition parent (p : path) : path := removelast p.
Definition tmp_first (dir : path) (pid : Z) : path :=
  dir ++ [".waltier-" +:+ dec pid +:+ ".tmp"].
Definition tmp_seq (dir : path) (pid seq : Z) : path :=
  dir ++ [".waltier-" +:+ dec pid +:+ "-" +:+ dec seq +:+ ".tmp"].

(** The [loop] that opens the temporary file: [None] when [fuel] runs out. *)
Fixpoint create_tmp (fuel : nat) (dir tmp : path) (fs : Fs) : option (Fs * Result path IoErr) :=
  match fuel with
  | O => None
  | S fuel =>
      match create_new tmp fs with
      | (fs, Ok _) => Some (fs, Ok tmp)
      | (fs, Err e) =>
          match io_kind e with
          | AlreadyExists =>
              let seq := fs_next fs in
              let fs := {| fs_files := fs_files fs; fs_io := fs_io fs; fs_pid := fs_pid fs;
                           fs_next := wrapping_add seq 1 |} in
              create_tmp fuel dir (tmp_seq dir (fs_pid fs) seq) fs
          | _ => Some (fs, Err e)
          end
      end
  end.

(** [for part in parts { file.write_all(part)?; }] *)
Fixpoint write_parts (p : path) (parts : list bytes) (fs : Fs) : Fs * Result unit IoErr :=
  match parts with
  | [] => (fs, Ok tt)
  | part :: parts =>
      match write_all p part fs with
      | (fs, Ok _) => write_parts p parts fs
      | (fs, Err e) => (fs, Err e)
      end
  end.

Definition write_atomic_with (p : path) (write : path -> Fs -> Fs * Result unit IoErr) (fs : Fs)
  : Fs * Result unit IoErr :=
  let dir := parent p in
  match create_tmp (S (S (size (fs_files fs)))) dir (tmp_first dir (fs_pid fs)) fs with
  | None => (fs, Err io_other)
  | Some (fs, Err e) => (fs, Err e)
  | Some (fs, Ok tmp) =>
      let '(fs, result) :=
        match write tmp fs with
        | (fs, Ok _) => rename tmp p fs
        | (fs, Err e) => (fs, Err e)
        end in
      match result with
      | Ok _ => (fs, Ok tt)
      | Err e => ((remove_file tmp fs).1, Err e)
      end
  end.

Definition write_atomic (p : path) (parts : list bytes) (fs : Fs) : Fs * Result unit IoErr :=
  write_atomic_with p (fun tmp => write_parts tmp parts) fs.

Definition empty_fs : Fs := {| fs_files := ∅; fs_io := []; fs_pid := 42; fs_next := 0 |}.

Example write_atomic_plain :
  fs_files (write_atomic ["d"; "x"] [[x61]; [x62]] empty_fs).1 = {[ ["d"; "x"] := [x61; x62] ]}.
Proof. vm_compute. reflexivity. Qed.

(** A torn write removes its temporary file and keeps the published version. *)
Example write_atomic_torn :
  fs_files (write_atomic ["d"; "x"] [[x61; x62]]
    (mkFs {[ ["d"; "x"] := [x63] ]} [None; Some 1%nat] 42 0)).1 = {[ ["d"; "x"] := [x63] ]}.
Proof. vm_compute. reflexivity. Qed.
