(* ===== verification/AtomicProps.v ===== *)
(** * Atomic publication: lemmas and properties

    The search for a temporary name terminates; a publication installs the
    whole content or leaves every published file as it was; hex is injective. *)

From S2P Require Import Prelude Fmt Atomic.

(** ** Hexadecimal *)

Lemma str_len_hex bs : str_len (hex bs) = 2 * zlen bs.
Proof. induction bs as [|b bs IH]; [done|]. cbn [hex]. rewrite str_len_app, str_len_hex2, IH, zlen_cons. lia. Qed.

Lemma hex_inj bs cs : hex bs = hex cs -> bs = cs.
Proof.
  revert cs. induction bs as [|b bs IH]; intros [|c cs] H; [done|..].
  - apply (f_equal str_len) in H. rewrite !str_len_hex, zlen_cons in H. unfold zlen in H. cbn in H. lia.
  - apply (f_equal str_len) in H. rewrite !str_len_hex, zlen_cons in H. unfold zlen in H. cbn in H. lia.
  - cbn [hex] in H. apply string_app_inj_len in H as [H1 H2]; [|by rewrite !str_len_hex2].
    apply hex2_inj in H1 as ->. f_equal. by apply IH.
Qed.

(** ** Single operations *)

Lemma draw_files fs : fs_files (draw fs).2 = fs_files fs.
Proof. unfold draw. by destruct (fs_io fs). Qed.
Lemma draw_pid fs : fs_pid (draw fs).2 = fs_pid fs.
Proof. unfold draw. by destruct (fs_io fs). Qed.
Lemma draw_next fs : fs_next (draw fs).2 = fs_next fs.
Proof. unfold draw. by destruct (fs_io fs). Qed.

(** Unfold one file operation, keeping what [draw] preserves. *)
Ltac fs_step op fs :=
  unfold op; pose proof (draw_files fs); pose proof (draw_pid fs); pose proof (draw_next fs);
  destruct (draw fs) as [[?|] ?]; cbn [fst snd] in *.

Lemma create_new_spec p fs fs' r : create_new p fs = (fs', r) ->
  fs_pid fs' = fs_pid fs /\ fs_next fs' = fs_next fs /\
  match r with
  | Ok _ => fs_files fs !! p = None /\ fs_files fs' = <[p := []]> (fs_files fs)
  | Err e => fs_files fs' = fs_files fs /\ (io_kind e = AlreadyExists -> is_Some (fs_files fs !! p))
  end.
Proof.
  fs_step create_new fs; [intros [= <- <-]; naive_solver|].
  destruct (fs_files f !! p) eqn:E; intros [= <- <-]; cbn; split_and!; try congruence.
  intros _. by rewrite <- H, E.
Qed.

Lemma write_all_spec p bs fs fs' r c : fs_files fs !! p = Some c -> write_all p bs fs = (fs', r) ->
  match r with
  | Ok _ => fs_files fs' = <[p := c ++ bs]> (fs_files fs)
  | Err _ => exists n, fs_files fs' = <[p := c ++ take n bs]> (fs_files fs)
  end.
Proof.
  intros Hc. fs_step write_all fs; intros [= <- <-]; cbn.
  - exists n. rewrite H, Hc. done.
  - rewrite H, Hc. done.
Qed.

Lemma rename_spec a b fs fs' r : rename a b fs = (fs', r) ->
  match r with
  | Ok _ => exists c, fs_files fs !! a = Some c /\ fs_files fs' = <[b := c]> (delete a (fs_files fs))
  | Err _ => fs_files fs' = fs_files fs
  end.
Proof.
  fs_step rename fs; [intros [= <- <-]; congruence|].
  rewrite H. destruct (_ !! a) eqn:E; intros [= <- <-]; cbn; naive_solver.
Qed.

Lemma remove_file_files p fs :
  fs_files (remove_file p fs).1 = fs_files fs \/ fs_files (remove_file p fs).1 = delete p (fs_files fs).
Proof. fs_step remove_file fs; [by left|]. rewrite H. destruct (_ !! p); cbn; auto. Qed.

Lemma read_file_spec p fs fs' r : read_file p fs = (fs', r) ->
  fs_files fs' = fs_files fs /\
  match r with Ok c => fs_files fs !! p = Some c
             | Err e => io_kind e = NotFound -> fs_files fs !! p = None end.
Proof.
  fs_step read_file fs; [intros [= <- <-]; naive_solver|].
  rewrite H. destruct (_ !! p) eqn:E; intros [= <- <-]; naive_solver.
Qed.

(** ** The temporary name *)

Definition is_tmp (p : path) : Prop :=
  exists dir pid, p = tmp_first dir pid \/ exists seq, p = tmp_seq dir pid seq.

(** The [i]-th name the search tries, for a counter that starts at [next]. *)
Definition tmp_name (dir : path) (pid next : Z) (i : nat) : path :=
  match i with
  | O => tmp_first dir pid
  | S i => tmp_seq dir pid (wrap64 (next + Z.of_nat i))
  end.

Lemma tmp_name_inj dir pid next i j :
  Z.of_nat i < 2 ^ 64 -> Z.of_nat j < 2 ^ 64 ->
  tmp_name dir pid next i = tmp_name dir pid next j -> i = j.
Proof.
  intros Hi Hj. assert (forall k, tmp_first dir pid <> tmp_seq dir pid k) as Hne.
  { intros k H%app_inv_head%(f_equal (List.hd "")). cbn [List.hd] in H.
    do 2 apply string_app_inj_l in H. discriminate H. }
  destruct i as [|i], j as [|j]; cbn [tmp_name]; intros H.
  - reflexivity.
  - exfalso. exact (Hne _ H).
  - exfalso. exact (Hne _ (eq_sym H)).
  - apply app_inv_head, (f_equal (List.hd "")) in H. cbn [List.hd] in H.
    do 3 apply string_app_inj_l in H.
    apply (f_equal as_bytes) in H. rewrite !as_bytes_app in H.
    apply app_inv_tail in H. apply as_bytes_inj, dec_inj in H; [|apply wrap64_range..].
    unfold wrap64 in H. f_equal.
    assert ((Z.of_nat i - Z.of_nat j) mod 2 ^ 64 = 0) as Hm.
    { replace (Z.of_nat i - Z.of_nat j) with ((next + Z.of_nat i) - (next + Z.of_nat j)) by lia.
      by rewrite Zminus_mod, H, Z.sub_diag. }
    apply Z.mod_divide in Hm as [q Hq]; [|done]. assert (q = 0) by lia. lia.
Qed.

(** Running out of fuel means that every name tried was taken. *)
Lemma create_tmp_None fuel dir next i fs :
  fs_next fs = wrap64 (next + Z.of_nat i) ->
  create_tmp fuel dir (tmp_name dir (fs_pid fs) next i) fs = None ->
  forall j, (j < fuel)%nat -> is_Some (fs_files fs !! tmp_name dir (fs_pid fs) next (i + j)).
Proof.
  revert i fs. induction fuel as [|fuel IH]; intros i fs Hn H j Hj; [lia|]. cbn [create_tmp] in H.
  destruct (create_new _ fs) as [fs1 [|e]] eqn:E; [done|].
  apply create_new_spec in E as (Hp & Hn1 & Hf & Hex).
  destruct (io_kind e); [|done..]. specialize (Hex eq_refl).
  destruct j as [|j]; [by rewrite Nat.add_0_r|].
  rewrite Hn1, Hn in H.
  apply (IH (S i)) with (j := j) in H; cbn [fs_pid fs_next fs_files] in *; [| |lia].
  - by rewrite Hp, Hf, Nat.add_succ_l, <- Nat.add_succ_r in H.
  - unfold wrapping_add, wrap64. rewrite Zplus_mod_idemp_l. f_equal. lia.
Qed.

Lemma create_tmp_total dir fs : is_u64 (fs_next fs) -> Z.of_nat (size (fs_files fs)) + 2 < 2 ^ 64 ->
  is_Some (create_tmp (S (S (size (fs_files fs)))) dir (tmp_first dir (fs_pid fs)) fs).
Proof.
  intros Hu Hs. set (n := size (fs_files fs)) in *.
  destruct (create_tmp _ _ _ _) eqn:E; [done|exfalso].
  set (names := (fun i => tmp_name dir (fs_pid fs) (fs_next fs) i) <$> seq 0 (S (S n))).
  assert (NoDup names) as Hnd.
  { unfold names. apply NoDup_fmap_2_strong; [|apply NoDup_seq].
    intros i j [_ Hi]%elem_of_seq [_ Hj]%elem_of_seq. apply tmp_name_inj; lia. }
  assert (list_to_set names ⊆ dom (fs_files fs)) as Hsub.
  { intros p. rewrite elem_of_list_to_set. intros (i & -> & [_ Hi]%elem_of_seq)%list_elem_of_fmap.
    apply elem_of_dom.
    apply (create_tmp_None (S (S n)) dir (fs_next fs) 0 fs) with (j := i); [|done|lia].
    rewrite Z.add_0_r. by rewrite wrap64_small. }
  apply subseteq_size in Hsub. rewrite size_list_to_set in Hsub by done.
  rewrite size_dom in Hsub. unfold names in Hsub. rewrite length_fmap, length_seq in Hsub. lia.
Qed.

Lemma create_tmp_spec fuel dir tmp fs fs' r :
  is_tmp tmp -> create_tmp fuel dir tmp fs = Some (fs', r) ->
  fs_pid fs' = fs_pid fs /\
  match r with
  | Ok t => is_tmp t /\ fs_files fs !! t = None /\ fs_files fs' = <[t := []]> (fs_files fs)
  | Err _ => fs_files fs' = fs_files fs
  end.
Proof.
  revert tmp fs. induction fuel as [|fuel IH]; intros tmp fs Ht H; [done|]. cbn [create_tmp] in H.
  destruct (create_new tmp fs) as [fs1 r1] eqn:E.
  apply create_new_spec in E as (Hp & _ & E). destruct r1 as [|e].
  { injection H as <- <-. naive_solver. }
  destruct E as [Hf _]. destruct (io_kind e).
  2,3: injection H as <- <-; by rewrite Hf.
  apply IH in H as [Hp' H]; [|by exists dir, (fs_pid fs1); right; eexists].
  cbn [fs_files fs_pid] in *. rewrite Hf in H. by rewrite Hp' , Hp.
Qed.

Lemma write_parts_spec p parts fs fs' r c : fs_files fs !! p = Some c ->
  write_parts p parts fs = (fs', r) ->
  (exists c', fs_files fs' = <[p := c']> (fs_files fs)
     /\ (r = Ok tt -> c' = c ++ concat parts)).
Proof.
  revert fs c. induction parts as [|part parts IH]; intros fs c Hc H; cbn [write_parts] in H.
  { injection H as <- <-. exists c. rewrite insert_id by done. by rewrite app_nil_r. }
  destruct (write_all p part fs) as [fs1 r1] eqn:E. apply (write_all_spec _ _ _ _ _ c) in E; [|done].
  destruct r1.
  - apply (IH _ (c ++ part)) in H as (c' & Hf & Hr); [|by rewrite E, lookup_insert_eq].
    exists c'. rewrite Hf, E, insert_insert_eq. split; [done|]. intros ?%Hr. by rewrite <- app_assoc in *.
  - injection H as <- <-. destruct E as [n E]. eexists. split; [done|discriminate].
Qed.

(** ** Publication *)

(** All or nothing: success installs exactly the concatenated parts at [p] and
    touches nothing else; failure leaves every path that is not a fresh
    temporary name as it was. *)
Lemma write_atomic_spec p parts fs fs' r : write_atomic p parts fs = (fs', r) ->
  match r with
  | Ok _ => fs_files fs' = <[p := concat parts]> (fs_files fs)
  | Err _ => exists t, is_tmp t /\ (fs_files fs !! t = None \/ fs_files fs' = fs_files fs)
      /\ forall q, q <> t -> fs_files fs' !! q = fs_files fs !! q
  end.
Proof.
  unfold write_atomic, write_atomic_with. set (dir := parent p).
  assert (is_tmp (tmp_first dir (fs_pid fs))) as Ht0 by (exists dir, (fs_pid fs); by left).
  destruct (create_tmp _ _ _ _) as [[fs1 [t|e]]|] eqn:E.
  2,3: intros [= <- <-]; exists (tmp_first dir (fs_pid fs)).
  2: apply create_tmp_spec in E as [_ ->]; [|done].
  2,3: split_and!; auto.
  apply create_tmp_spec in E as (_ & Ht & Hn & Hf); [|done].
  destruct (write_parts t parts fs1) as [fs2 r2] eqn:E2.
  apply (write_parts_spec _ _ _ _ _ []) in E2 as (c & Hf2 & Hc); [|by rewrite Hf, lookup_insert_eq].
  rewrite Hf, insert_insert_eq in Hf2.
  assert (forall fs3, fs_files fs3 = fs_files fs2 ->
    exists t0, is_tmp t0 /\ (fs_files fs !! t0 = None \/ fs_files (remove_file t fs3).1 = fs_files fs)
      /\ forall q, q <> t0 -> fs_files (remove_file t fs3).1 !! q = fs_files fs !! q) as Hfail.
  { intros fs3 H3. exists t. split_and!; [done|by left|]. intros q Hq.
    destruct (remove_file_files t fs3) as [-> | ->]; rewrite H3, Hf2.
    - by rewrite lookup_insert_ne.
    - by rewrite delete_insert_eq, lookup_delete_ne. }
  destruct r2 as [[]|e2].
  - specialize (Hc eq_refl) as ->. destruct (rename t p fs2) as [fs3 r3] eqn:E3.
    apply rename_spec in E3. destruct r3; intros [= <- <-]; [|by apply Hfail].
    destruct E3 as (c & Hl & ->). rewrite Hf2 in Hl |- *. rewrite lookup_insert_eq in Hl.
    injection Hl as <-. rewrite delete_insert_eq, delete_id by done. done.
  - intros [= <- <-]. by apply Hfail.
Qed.

(** Without injected faults the publication succeeds. *)
Lemma write_atomic_no_faults p parts fs :
  fs_io fs = [] -> is_u64 (fs_next fs) -> Z.of_nat (size (fs_files fs)) + 2 < 2 ^ 64 ->
  (write_atomic p parts fs).2 = Ok tt /\ fs_io (write_atomic p parts fs).1 = []
  /\ is_u64 (fs_next (write_atomic p parts fs).1).
Proof.
  intros Hio Hu Hs. unfold write_atomic, write_atomic_with.
  assert (forall fs, fs_io fs = [] -> draw fs = (None, fs)) as Hdraw.
  { clear. intros fs H. unfold draw. by rewrite H. }
  destruct (create_tmp_total (parent p) fs Hu Hs) as [[fs1 r] E]. rewrite E.
  assert (fs_io fs1 = [] /\ is_u64 (fs_next fs1) /\ exists t, r = Ok t /\ is_Some (fs_files fs1 !! t))
    as (Hio1 & Hu1 & t & -> & Ht).
  { revert E. clear - Hio Hu Hdraw. generalize (tmp_first (parent p) (fs_pid fs)). intros tmp.
    generalize (S (S (size (fs_files fs)))). intros fuel. revert tmp fs Hio Hu.
    induction fuel as [|fuel IH]; intros tmp fs Hio Hu; cbn [create_tmp]; [done|].
    unfold create_new. rewrite Hdraw by done. destruct (fs_files fs !! tmp) eqn:El.
    - cbn [io_exists io_kind]. apply IH; [done|]. apply wrap64_range.
    - intros [= <- <-]. cbn. split_and!; [done..|]. exists tmp. by rewrite lookup_insert_eq. }
  assert (forall parts fs, fs_io fs = [] -> is_u64 (fs_next fs) -> is_Some (fs_files fs !! t) ->
    exists fs', write_parts t parts fs = (fs', Ok tt) /\ fs_io fs' = [] /\ is_u64 (fs_next fs')
      /\ is_Some (fs_files fs' !! t)) as Hwp.
  { clear - Hdraw. induction parts as [|q parts IH]; intros fs Hio Hu Ht; cbn [write_parts]; [by exists fs|].
    unfold write_all. rewrite Hdraw by done. apply IH; [done..|]. cbn. by rewrite lookup_insert_eq. }
  destruct (Hwp parts fs1 Hio1 Hu1 Ht) as (fs2 & -> & Hio2 & Hu2 & [c Hc]).
  unfold rename. rewrite Hdraw, Hc by done. done.
Qed.

(** Publication through the temporary file terminates and is all or
    nothing: the search for a free temporary name always ends; on success the
    target holds exactly the given parts and no other file changed; on failure,
    at whatever point and however many bytes had been written, every file that
    existed keeps its content and at most one fresh temporary file is left. *)
Theorem write_atomic_all_or_nothing p parts fs :
  is_u64 (fs_next fs) -> Z.of_nat (size (fs_files fs)) + 2 < 2 ^ 64 ->
  is_Some (create_tmp (S (S (size (fs_files fs)))) (parent p) (tmp_first (parent p) (fs_pid fs)) fs)
  /\ (fs_io fs = [] -> (write_atomic p parts fs).2 = Ok tt)
  /\ ((write_atomic p parts fs).2 = Ok tt ->
        fs_files (write_atomic p parts fs).1 = <[p := concat parts]> (fs_files fs))
  /\ (is_ok (write_atomic p parts fs).2 = false ->
        exists t, is_tmp t /\ forall q, q <> t \/ is_Some (fs_files fs !! q) ->
          fs_files (write_atomic p parts fs).1 !! q = fs_files fs !! q).
Proof.
  intros Hu Hs. split_and!.
  - by apply create_tmp_total.
  - intros Hio. by apply write_atomic_no_faults.
  - intros Hr. destruct (write_atomic p parts fs) as [fs' r] eqn:E.
    apply write_atomic_spec in E. cbn in *. by subst r.
  - intros Hr. destruct (write_atomic p parts fs) as [fs' r] eqn:E.
    apply write_atomic_spec in E. cbn in *. destruct r; [done|].
    destruct E as (t & Ht & Hn & Hq). exists t. split; [done|]. intros q [|Hex]; [by apply Hq|].
    destruct (decide (q = t)) as [->|]; [|by apply Hq].
    destruct Hn as [Hn|Hn]; [rewrite Hn in Hex; by destruct Hex|by rewrite Hn].
Qed.

Definition torn_fs : Fs := mkFs {[ ["d"; "x"] := [x63] ]} [None; Some 1%nat; Some 0%nat] 42 0.

Lemma write_atomic_all_or_nothing_witness :
  exists t, is_tmp t /\ forall q, q <> t \/ is_Some (fs_files torn_fs !! q) ->
    fs_files (write_atomic ["d"; "x"] [[x61; x62]] torn_fs).1 !! q = fs_files torn_fs !! q.
Proof.
  apply (write_atomic_all_or_nothing ["d"; "x"] [[x61; x62]] torn_fs).
  - by split; vm_compute.
  - by vm_compute.
  - by vm_compute.
Defined.
