(* ===== verification/Cache.v ===== *)
(** * The local cache tier (src/src/cache.rs)

    The WTC2 checksum and its streaming form, the framed cache files, and the
    [Cache] operations. A [Cache] is a directory and an identity; its
    operations read and change the file system of [Atomic.v]. *)

From S2P Require Import Prelude Fmt Utf8 Atomic.

Definition CACHE_MAGIC : bytes := as_bytes "WTC2".
Definition HEADER : Z := 4 + 8 + 8.

(** ** The checksum *)

Definition PRIME : Z := 1099511628211.          (* 0x0000_0100_0000_01B3 *)
Definition OFFSET : Z := 14695981039346656037.  (* 0xcbf2_9ce4_8422_2325 *)

(** The closure [word]: absorb eight bytes. *)
Definition word (h : Z) (bs : bytes) : Z :=
  let h := wrapping_mul (Z.lxor h (from_le_bytes bs)) PRIME in
  Z.lxor h (Z.shiftr h 29).
(** The loop over the bytes left at the end. *)
Definition tail_byte (h : Z) (b : byte) : Z := wrapping_mul (Z.lxor h (byte_val b)) PRIME.

(** [as_chunks::<8>] and the loop over its chunks: the state after the whole
    words and the remainder. *)
Fixpoint chunks (h : Z) (bs : bytes) : Z * bytes :=
  match bs with
  | b0 :: b1 :: b2 :: b3 :: b4 :: b5 :: b6 :: b7 :: rest =>
      chunks (word h [b0; b1; b2; b3; b4; b5; b6; b7]) rest
  | rem => (h, rem)
  end.

(** One part: top up the carried bytes [tail] (that is [tail[..used]]), absorb
    the whole words, carry the remainder. *)
Definition absorb_part (st : Z * bytes) (part : bytes) : Z * bytes :=
  let '(h, tail) := st in
  let used := zlen tail in
  let '(h, tail, remaining) :=
    if 0 <? used then
      let k := Z.to_nat (Z.min (8 - used) (zlen part)) in
      let tail := tail ++ take k part in
      let remaining := drop k part in
      if zlen tail =? 8 then (word h tail, [], remaining) else (h, tail, remaining)
    else (h, tail, part) in
  let '(h, remainder) := chunks h remaining in
  (h, tail ++ remainder).

Definition checksum_parts (total : Z) (parts : list bytes) : Z :=
  let '(h, tail) := fold_left absorb_part parts (Z.lxor OFFSET total, []) in
  fold_left tail_byte tail h.

Definition checksum (data : bytes) : Z := checksum_parts (zlen data) [data].

(** ** Checked reads *)

(** [file.metadata()?.len()] *)
Definition file_len (p : path) (fs : Fs) : Fs * Result Z IoErr :=
  match read_file p fs with
  | (fs, Ok c) => (fs, Ok (zlen c))
  | (fs, Err e) => (fs, Err e)
  end.

(** [file.take(n).read_to_end(&mut data)] *)
Definition read_at_most (p : path) (n : Z) (fs : Fs) : Fs * Result bytes IoErr :=
  match read_file p fs with
  | (fs, Ok c) => (fs, Ok (take (Z.to_nat n) c))
  | (fs, Err e) => (fs, Err e)
  end.

(** The framing test on the bytes read. *)
Definition unframe (data : bytes) : option bytes :=
  if (zlen data <? HEADER) || negb (bool_decide (take 4 data = CACHE_MAGIC)) then None else
  let sum := from_le_bytes (take 8 (drop 4 data)) in
  let len := from_le_bytes (take 8 (drop 12 data)) in
  let payload := drop (Z.to_nat HEADER) data in
  if negb (zlen payload =? len) || negb (checksum payload =? sum) then None
  else Some payload.

Definition read_checked (p : path) (max_payload : Z) (fs : Fs) : Fs * option bytes :=
  match checked_add max_payload HEADER with
  | None => (fs, None)
  | Some limit =>
      match read_file p fs with   (* [File::open] *)
      | (fs, Err _) => (fs, None)
      | (fs, Ok _) =>
          match file_len p fs with
          | (fs, Err _) => (fs, None)
          | (fs, Ok len) =>
              if limit <? len then (fs, None) else
              match read_at_most p (wrapping_add limit 1) fs with
              | (fs, Err _) => (fs, None)
              | (fs, Ok data) => if limit <? zlen data then (fs, None) else (fs, unframe data)
              end
          end
      end
  end.

(** ** The cache *)

Record Cache : Type := mkCache { c_dir : path; c_identity : option bytes }.

Definition disabled : Cache := {| c_dir := []; c_identity := None |}.

Definition identity_of (ns wal_key : string) : string :=
  dec (str_len ns) +:+ ":" +:+ ns +:+ dec (str_len wal_key) +:+ ":" +:+ wal_key.

Definition cache_new (dir : path) (namespace : option string) (wal_key : string) (fs : Fs)
  : Fs * Cache :=
  match namespace with
  | None => (fs, disabled)
  | Some ns =>
      match create_dir_all dir fs with
      | (fs, Err _) => (fs, disabled)
      | (fs, Ok _) => (fs, {| c_dir := dir; c_identity := Some (as_bytes (identity_of ns wal_key)) |})
      end
  end.

Definition enabled (c : Cache) : bool := match c_identity c with Some _ => true | None => false end.

Definition wal_path (c : Cache) : path := c_dir c ++ ["wal.cache"].
Definition snap_path (c : Cache) (key : string) : path :=
  c_dir c ++ ["snap-" +:+ hex16 (checksum (as_bytes key))].

(** The record inside a payload: identity, key length, key, data. *)
Definition parse_record (identity key payload : bytes) : option bytes :=
  rest ← strip_prefix identity payload;
  if zlen rest <? 8 then None else
  let key_len := from_le_bytes (take 8 rest) in
  if negb (key_len =? zlen key) then None else
  strip_prefix key (drop 8 rest).

Definition load (c : Cache) (p : path) (key : bytes) (max_data : Z) (fs : Fs) : Fs * option bytes :=
  match c_identity c with
  | None => (fs, None)
  | Some identity =>
      match a ← checked_add (zlen identity) 8; b ← checked_add a (zlen key); checked_add b max_data with
      | None => (fs, None)
      | Some max_payload =>
          let '(fs, data) := read_checked p max_payload fs in
          (fs, data ≫= parse_record identity key)
      end
  end.

(** The image record inside the data: etag length, etag, image. *)
Definition parse_wal (max_bytes : Z) (data : bytes) : option (string * bytes) :=
  if zlen data <? 2 then None else
  let n := from_le_bytes (take 2 data) in
  if zlen data <? 2 + n then None else
  etag ← from_utf8 (take (Z.to_nat n) (drop 2 data));
  let image := drop (Z.to_nat (2 + n)) data in
  if max_bytes <? zlen image then None else Some (etag, image).

Definition load_wal (c : Cache) (max_bytes : Z) (fs : Fs) : Fs * option (string * bytes) :=
  match c_identity c with
  | None => (fs, None)
  | Some _ =>
      match checked_add max_bytes (2 + U16_MAX) with
      | None => (fs, None)
      | Some max_data =>
          let '(fs, data) := load c (wal_path c) (as_bytes "wal") max_data fs in
          (fs, data ≫= parse_wal max_bytes)
      end
  end.

Definition load_snapshot (c : Cache) (key : string) (max_bytes : Z) (fs : Fs) : Fs * option bytes :=
  match c_identity c with
  | None => (fs, None)
  | Some _ => load c (snap_path c key) (as_bytes key) max_bytes fs
  end.

(** [try_fold] with [checked_add] over the lengths. *)
Fixpoint sum_checked (total : Z) (ls : list Z) : option Z :=
  match ls with [] => Some total | l :: ls => t ← checked_add total l; sum_checked t ls end.

Definition record_payload (identity key : bytes) (fields : list bytes) (body : bytes) : bytes :=
  identity ++ to_le_bytes 8 (zlen key) ++ key ++ concat fields ++ body.

(** [prefix] after the header was filled in: framing and metadata, without the body. *)
Definition frame_prefix (identity key : bytes) (fields : list bytes) (body : bytes) (payload_len : Z)
  : bytes :=
  let meta := identity ++ to_le_bytes 8 (zlen key) ++ key ++ concat fields in
  let sum := checksum_parts payload_len [meta; body] in
  CACHE_MAGIC ++ to_le_bytes 8 sum ++ to_le_bytes 8 payload_len ++ meta.

Definition save (c : Cache) (p : path) (key : bytes) (fields : list bytes) (body : bytes) (fs : Fs) : Fs :=
  match c_identity c with
  | None => fs
  | Some identity =>
      match sum_checked 0 ([HEADER; zlen identity; 8; zlen key] ++ (zlen <$> fields)) with
      | None => fs
      | Some prefix_len =>
          match checked_add (prefix_len - HEADER) (zlen body) with
          | None => fs
          | Some payload_len =>
              (write_atomic p [frame_prefix identity key fields body payload_len; body] fs).1
          end
      end
  end.

Definition save_wal (c : Cache) (etag : string) (image : bytes) (fs : Fs) : Fs :=
  match c_identity c with
  | None => fs
  | Some _ =>
      if U16_MAX <? str_len etag then fs
      else save c (wal_path c) (as_bytes "wal") [to_le_bytes 2 (str_len etag); as_bytes etag] image fs
  end.

Definition save_snapshot (c : Cache) (key : string) (data : bytes) (fs : Fs) : Fs :=
  match c_identity c with
  | None => fs
  | Some _ => save c (snap_path c key) (as_bytes key) [] data fs
  end.

Definition remove_snapshot (c : Cache) (key : string) (fs : Fs) : Fs :=
  match c_identity c with
  | None => fs
  | Some _ => (remove_file (snap_path c key) fs).1
  end.

(** [name.starts_with("snap-")] on the file name of a path. *)
Definition is_snap_file (p : path) : bool :=
  match last p with Some name => String.prefix "snap-" name | None => false end.

Definition retain_snapshot (c : Cache) (keep : option string) (fs : Fs) : Fs :=
  match c_identity c with
  | None => fs
  | Some _ =>
      let keep := snap_path c <$> keep in
      match read_dir (c_dir c) fs with
      | (fs, Err _) => fs
      | (fs, Ok entries) =>
          fold_left (fun fs p =>
            if is_snap_file p && negb (bool_decide (Some p = keep)) then (remove_file p fs).1 else fs)
            entries fs
      end
  end.

(** ** Concrete runs *)

Definition test_cache : Cache := (cache_new ["c"] (Some "test") "wal" empty_fs).2.

Example wal_roundtrip_run :
  let fs := save_wal test_cache "etag-1" (as_bytes "image bytes") empty_fs in
  (load_wal test_cache 4096 fs).2 = Some ("etag-1", as_bytes "image bytes").
Proof. vm_compute. reflexivity. Qed.
Example snap_roundtrip_run :
  let fs := save_snapshot test_cache "snap/k" (as_bytes "snapshot") empty_fs in
  (load_snapshot test_cache "snap/k" 4096 fs).2 = Some (as_bytes "snapshot").
Proof. vm_compute. reflexivity. Qed.
Example checksum_run :
  checksum (as_bytes "abcdefghij") = checksum_parts 10 [as_bytes "abc"; []; as_bytes "defghij"].
Proof. vm_compute. reflexivity. Qed.
