(* ===== verification/CacheChecksum.v ===== *)
(** * The WTC2 checksum: lemmas and properties

    The streaming computation agrees with the one over the concatenated bytes,
    stays within [u64], and separates any two inputs of one length that differ
    in a single byte. *)

From S2P Require Import Prelude Fmt Atomic Cache.

(** The checksum over contiguous bytes: whole words, then the bytes left. *)
Definition checksum_spec (total : Z) (data : bytes) : Z :=
  let '(h, rem) := chunks (Z.lxor OFFSET total) data in fold_left tail_byte rem h.

(** ** Whole words *)

Lemma bytes_split8 (bs : bytes) :
  zlen bs < 8 \/ exists b0 b1 b2 b3 b4 b5 b6 b7 rest,
    bs = b0 :: b1 :: b2 :: b3 :: b4 :: b5 :: b6 :: b7 :: rest.
Proof.
  do 8 (destruct bs as [|? bs]; [left; unfold zlen; cbn; lia|]). right. by repeat eexists.
Qed.

Lemma chunks_short h bs : zlen bs < 8 -> chunks h bs = (h, bs).
Proof.
  intros H. do 8 (destruct bs as [|? bs]; [done|]). unfold zlen in H. cbn [length] in H. lia.
Qed.

Lemma chunks_word h w rest : zlen w = 8 -> chunks h (w ++ rest) = chunks (word h w) rest.
Proof.
  intros H. destruct (bytes_split8 w) as [|(?&?&?&?&?&?&?&?&r&->)]; [lia|].
  rewrite !zlen_cons in H. assert (r = []) as -> by (apply zlen_0_nil; lia). done.
Qed.

(** Induction on a byte string eight bytes at a time. *)
Lemma words_ind (P : bytes -> Prop) :
  (forall bs, zlen bs < 8 -> P bs) ->
  (forall w rest, zlen w = 8 -> P rest -> P (w ++ rest)) -> forall bs, P bs.
Proof.
  intros Hs Hw bs. remember (length bs) as n eqn:Hn. assert (length bs <= n)%nat as Hle by lia. clear Hn.
  revert bs Hle. induction n as [|n IH]; intros bs Hle.
  { apply Hs. zlia. }
  destruct (bytes_split8 bs) as [?|(b0&b1&b2&b3&b4&b5&b6&b7&rest&->)]; [by apply Hs|].
  change (P ([b0; b1; b2; b3; b4; b5; b6; b7] ++ rest)). apply Hw; [done|]. apply IH. cbn in Hle. lia.
Qed.

Lemma chunks_rem_short h bs : zlen (chunks h bs).2 < 8.
Proof.
  revert h. induction bs as [bs Hs|w rest Hw IH] using words_ind; intros h.
  - by rewrite chunks_short.
  - by rewrite chunks_word.
Qed.

Lemma chunks_app h a b :
  chunks h (a ++ b) = let '(h', rem) := chunks h a in chunks h' (rem ++ b).
Proof.
  revert h. induction a as [a Hs|w rest Hw IH] using words_ind; intros h.
  - by rewrite (chunks_short h a).
  - rewrite <- app_assoc, (chunks_word h w (rest ++ b)), (chunks_word h w rest) by done. apply IH.
Qed.

(** ** The streaming step *)

Lemma absorb_part_chunks h tail part :
  zlen tail < 8 -> absorb_part (h, tail) part = chunks h (tail ++ part).
Proof.
  intros Ht. unfold absorb_part. pose proof (zlen_nonneg part). pose proof (zlen_nonneg tail).
  destruct (0 <? zlen tail) eqn:Eu; zbool.
  2: { assert (tail = []) as -> by (apply zlen_0_nil; lia). cbn [app].
       by destruct (chunks h part). }
  set (k := Z.min (8 - zlen tail) (zlen part)).
  assert (zlen (tail ++ take (Z.to_nat k) part) = zlen tail + k) as Hl
    by (rewrite zlen_app, zlen_take by lia; done).
  rewrite Hl. destruct (_ =? 8) eqn:E8; zbool.
  - replace (tail ++ part) with ((tail ++ take (Z.to_nat k) part) ++ drop (Z.to_nat k) part)
      by (by rewrite <- app_assoc, take_drop).
    rewrite chunks_word by lia.
    by destruct (chunks _ _).
  - assert (Z.to_nat k = length part) as -> by zlia. rewrite drop_all, firstn_all.
    cbn [chunks]. rewrite app_nil_r.
    rewrite chunks_short; [done|]. rewrite zlen_app. lia.
Qed.

Lemma absorb_parts_chunks parts h tail :
  zlen tail < 8 -> fold_left absorb_part parts (h, tail) = chunks h (tail ++ concat parts).
Proof.
  revert h tail. induction parts as [|part parts IH]; intros h tail Ht; cbn [fold_left concat].
  { by rewrite app_nil_r, chunks_short. }
  rewrite absorb_part_chunks, app_assoc, (chunks_app h (tail ++ part)) by done.
  pose proof (chunks_rem_short h (tail ++ part)). destruct (chunks h (tail ++ part)). by apply IH.
Qed.

Lemma checksum_parts_spec total parts : checksum_parts total parts = checksum_spec total (concat parts).
Proof. unfold checksum_parts. by rewrite absorb_parts_chunks. Qed.

Lemma checksum_eq data : checksum data = checksum_spec (zlen data) data.
Proof. unfold checksum. rewrite checksum_parts_spec. cbn. by rewrite app_nil_r. Qed.

(** ** Range *)

Lemma lxor_u64 a b : is_u64 a -> is_u64 b -> is_u64 (Z.lxor a b).
Proof.
  intros Ha Hb. assert (0 <= Z.lxor a b) as H0 by (apply Z.lxor_nonneg; zlia). split; [done|].
  assert (Z.lxor a b < 2 ^ 64); [|zlia].
  destruct (decide (Z.lxor a b = 0)) as [->|]; [done|].
  apply Z.log2_lt_pow2; [lia|]. eapply Z.le_lt_trans; [apply Z.log2_lxor; zlia|].
  apply Z.max_lub_lt.
  - destruct (decide (a = 0)) as [->|]; [done|]. apply Z.log2_lt_pow2; zlia.
  - destruct (decide (b = 0)) as [->|]; [done|]. apply Z.log2_lt_pow2; zlia.
Qed.

Lemma shiftr_u64 a n : 0 <= n -> is_u64 a -> is_u64 (Z.shiftr a n).
Proof.
  intros Hn Ha. rewrite Z.shiftr_div_pow2 by done.
  assert (1 <= 2 ^ n) by (change 1 with (2 ^ 0); apply Z.pow_le_mono_r; lia). split.
  - apply Z.div_pos; zlia.
  - pose proof (Z.div_le_upper_bound a (2 ^ n) U64_MAX). zlia.
Qed.

Lemma word_u64 h bs : is_u64 (word h bs).
Proof. unfold word. apply lxor_u64; [apply wrap64_range|]. apply shiftr_u64; [lia|apply wrap64_range]. Qed.

Lemma tail_byte_u64 h b : is_u64 (tail_byte h b).
Proof. apply wrap64_range. Qed.

Lemma fold_tail_u64 bs h : is_u64 h -> is_u64 (fold_left tail_byte bs h).
Proof. revert h. induction bs as [|b bs IH]; intros h Hh; [done|]. apply IH, tail_byte_u64. Qed.

Lemma chunks_u64 bs h : is_u64 h -> is_u64 (chunks h bs).1.
Proof.
  revert h. induction bs as [bs Hs|w rest Hw IH] using words_ind; intros h Hh.
  - by rewrite chunks_short.
  - rewrite chunks_word by done. apply IH, word_u64.
Qed.

Lemma checksum_spec_u64 total data : is_u64 total -> is_u64 (checksum_spec total data).
Proof.
  intros Ht. unfold checksum_spec.
  assert (is_u64 (Z.lxor OFFSET total)) as Ho by (apply lxor_u64; [done|done]).
  pose proof (chunks_u64 data _ Ho). destruct (chunks _ _). by apply fold_tail_u64.
Qed.

Lemma checksum_u64 data : is_u64 (zlen data) -> is_u64 (checksum data).
Proof. intros. rewrite checksum_eq. by apply checksum_spec_u64. Qed.

(** ** Every step is injective in its state and in its input *)

(** The inverse of the odd multiplier modulo 2^64. *)
Definition PRIME_INV : Z := 14886173955864302971.

Lemma mul_prime_inj a b : is_u64 a -> is_u64 b -> wrapping_mul a PRIME = wrapping_mul b PRIME -> a = b.
Proof.
  intros Ha Hb H. unfold wrapping_mul, wrap64 in H.
  assert (forall x, is_u64 x -> (x * PRIME) mod 2 ^ 64 * PRIME_INV mod 2 ^ 64 = x) as Hinv.
  { intros x Hx. rewrite Zmult_mod_idemp_l, <- Z.mul_assoc, <- Zmult_mod_idemp_r.
    change (PRIME * PRIME_INV mod 2 ^ 64) with 1. rewrite Z.mul_1_r. apply Z.mod_small. zlia. }
  by rewrite <- (Hinv a Ha), H, Hinv.
Qed.

Lemma xorshift_inj a b n : 0 < n -> 0 <= a -> 0 <= b ->
  Z.lxor a (Z.shiftr a n) = Z.lxor b (Z.shiftr b n) -> a = b.
Proof.
  intros Hn Ha Hb H. set (d := Z.lxor a b).
  assert (Z.shiftr d n = d) as Hd.
  { unfold d. rewrite Z.shiftr_lxor. apply Z.bits_inj'. intros m Hm.
    apply (f_equal (fun x => Z.testbit x m)) in H. rewrite !Z.lxor_spec in *.
    destruct (Z.testbit a m), (Z.testbit b m), (Z.testbit (Z.shiftr a n) m),
      (Z.testbit (Z.shiftr b n) m); done. }
  assert (0 <= d) by (apply Z.lxor_nonneg; lia).
  rewrite Z.shiftr_div_pow2 in Hd by lia.
  assert (d = 0) as Hz.
  { destruct (decide (d = 0)); [done|]. assert (2 <= 2 ^ n).
    { change 2 with (2 ^ 1) at 1. apply Z.pow_le_mono_r; lia. }
    pose proof (Z.div_lt d (2 ^ n)). lia. }
  by apply Z.lxor_eq in Hz.
Qed.

Lemma lxor_inj_l a b c : Z.lxor a b = Z.lxor a c -> b = c.
Proof.
  intros H. apply (f_equal (Z.lxor a)) in H.
  by rewrite <- !Z.lxor_assoc, Z.lxor_nilpotent, !Z.lxor_0_l in H.
Qed.

Lemma from_le_u64 w : zlen w = 8 -> is_u64 (from_le_bytes w).
Proof. intros H. pose proof (from_le_bytes_range w). rewrite H in *. zlia. Qed.

Lemma word_inj_h h h' w : is_u64 h -> is_u64 h' -> zlen w = 8 -> word h w = word h' w -> h = h'.
Proof.
  intros Hh Hh' Hw H. pose proof (from_le_u64 w Hw). unfold word in H.
  apply xorshift_inj in H; [|lia|apply wrap64_range..].
  apply mul_prime_inj in H; [|by apply lxor_u64..].
  rewrite !(Z.lxor_comm _ (from_le_bytes w)) in H. by apply lxor_inj_l in H.
Qed.

Lemma word_inj_w h w w' : is_u64 h -> zlen w = 8 -> zlen w' = 8 -> word h w = word h w' -> w = w'.
Proof.
  intros Hh Hw Hw' H. pose proof (from_le_u64 w Hw). pose proof (from_le_u64 w' Hw'). unfold word in H.
  apply xorshift_inj in H; [|lia|apply wrap64_range..].
  apply mul_prime_inj in H; [|by apply lxor_u64..]. apply lxor_inj_l in H.
  rewrite <- (to_from_le_bytes w), H. replace (length w) with (length w') by zlia. apply to_from_le_bytes.
Qed.

Lemma byte_val_u64 b : is_u64 (byte_val b).
Proof. pose proof (byte_val_range b). zlia. Qed.

Lemma tail_byte_inj_h h h' b : is_u64 h -> is_u64 h' -> tail_byte h b = tail_byte h' b -> h = h'.
Proof.
  intros Hh Hh' H. pose proof (byte_val_u64 b).
  apply mul_prime_inj in H; [|by apply lxor_u64..].
  rewrite !(Z.lxor_comm _ (byte_val b)) in H. by apply lxor_inj_l in H.
Qed.

Lemma tail_byte_inj_b h b b' : is_u64 h -> tail_byte h b = tail_byte h b' -> b = b'.
Proof.
  intros Hh H. pose proof (byte_val_u64 b). pose proof (byte_val_u64 b').
  apply mul_prime_inj in H; [|by apply lxor_u64..]. by apply lxor_inj_l, byte_val_inj in H.
Qed.

Lemma fold_tail_inj bs h h' : is_u64 h -> is_u64 h' ->
  fold_left tail_byte bs h = fold_left tail_byte bs h' -> h = h'.
Proof.
  revert h h'. induction bs as [|b bs IH]; intros h h' Hh Hh' H; [done|]. cbn [fold_left] in H.
  apply IH in H; [|apply tail_byte_u64..]. by apply tail_byte_inj_h in H.
Qed.

(** The rest of the computation after a given state. *)
Definition finish (h : Z) (bs : bytes) : Z := let '(h, rem) := chunks h bs in fold_left tail_byte rem h.

Lemma finish_inj bs h h' : is_u64 h -> is_u64 h' -> finish h bs = finish h' bs -> h = h'.
Proof.
  unfold finish. revert h h'. induction bs as [bs Hs|w rest Hw IH] using words_ind; intros h h' Hh Hh' H.
  - rewrite !chunks_short in H by done. by apply fold_tail_inj in H.
  - rewrite !chunks_word in H by done. apply IH in H; [|apply word_u64..]. by apply word_inj_h in H.
Qed.

Lemma finish_byte_neq h a b b' c : is_u64 h -> b <> b' -> finish h (a ++ b :: c) <> finish h (a ++ b' :: c).
Proof.
  intros Hh Hne H. unfold finish in H. rewrite !(chunks_app _ a) in H.
  pose proof (chunks_rem_short h a) as Hr. pose proof (chunks_u64 a h Hh) as Hu.
  destruct (chunks h a) as [h1 r]. cbn [fst snd] in *. clear a h Hh.
  destruct (decide (zlen (r ++ b :: c) < 8)) as [Hs|Hl].
  { rewrite !chunks_short, !fold_left_app in H; [|rewrite zlen_app, zlen_cons in *; lia..].
    cbn [fold_left] in H. apply fold_tail_inj in H; [|apply tail_byte_u64..].
    apply tail_byte_inj_b in H; [done|]. by apply fold_tail_u64. }
  rewrite zlen_app, zlen_cons in Hl. pose proof (zlen_nonneg r).
  set (k := Z.to_nat (7 - zlen r)).
  assert (forall x, r ++ x :: c = (r ++ x :: take k c) ++ drop k c) as Hsplit.
  { intros x. rewrite <- app_assoc. cbn [app]. by rewrite take_drop. }
  assert (forall x, zlen (r ++ x :: take k c) = 8) as H8.
  { intros x. rewrite zlen_app, zlen_cons. unfold k. rewrite zlen_take by lia. lia. }
  rewrite (Hsplit b), (Hsplit b'), !chunks_word in H by done.
  apply (finish_inj (drop k c)) in H; [|apply word_u64..].
  apply word_inj_w in H; [|done..]. apply app_inv_head in H. by injection H.
Qed.

(** ** The independent spelling of the format

    The crate's tests spell the checksum a second time, over the whole bytes,
    to anchor the file format. *)

(** [slice::as_chunks::<8>] *)
Fixpoint as_chunks (bs : bytes) : list bytes * bytes :=
  match bs with
  | b0 :: b1 :: b2 :: b3 :: b4 :: b5 :: b6 :: b7 :: rest =>
      let '(ws, rem) := as_chunks rest in ([b0; b1; b2; b3; b4; b5; b6; b7] :: ws, rem)
  | rem => ([], rem)
  end.

Definition legacy (data : bytes) : Z :=
  let hash := Z.lxor 0xcbf29ce484222325 (zlen data) in
  let '(ws, remainder) := as_chunks data in
  let hash := fold_left (fun hash chunk =>
    let hash := wrapping_mul (Z.lxor hash (from_le_bytes chunk)) 0x00000100000001B3 in
    Z.lxor hash (Z.shiftr hash 29)) ws hash in
  fold_left (fun hash b => wrapping_mul (Z.lxor hash (byte_val b)) 0x00000100000001B3) remainder hash.

Lemma as_chunks_short bs : zlen bs < 8 -> as_chunks bs = ([], bs).
Proof.
  intros H. do 8 (destruct bs as [|? bs]; [done|]). unfold zlen in H. cbn [length] in H. lia.
Qed.

Lemma as_chunks_word w rest : zlen w = 8 -> as_chunks (w ++ rest) = (w :: (as_chunks rest).1, (as_chunks rest).2).
Proof.
  intros H. destruct (bytes_split8 w) as [|(?&?&?&?&?&?&?&?&r&->)]; [lia|].
  rewrite !zlen_cons in H. assert (r = []) as -> by (apply zlen_0_nil; lia). cbn. by destruct (as_chunks rest).
Qed.

Lemma chunks_as_chunks bs h : chunks h bs = (fold_left word (as_chunks bs).1 h, (as_chunks bs).2).
Proof.
  revert h. induction bs as [bs Hs|w rest Hw IH] using words_ind; intros h.
  - by rewrite chunks_short, as_chunks_short.
  - by rewrite chunks_word, as_chunks_word, IH.
Qed.

Lemma legacy_spec data : legacy data = checksum_spec (zlen data) data.
Proof. unfold legacy, checksum_spec. rewrite chunks_as_chunks. by destruct (as_chunks data). Qed.

(** C29. The streaming checksum is the WTC2 checksum: over any parts, cut at
    any alignment, empty ones included, it gives what the independent spelling
    [legacy] of the format gives on the concatenated bytes; so does the
    checksum of one piece, and the result is a [u64]. *)
Theorem checksum_parts_streams parts :
  is_u64 (zlen (concat parts)) ->
  checksum_parts (zlen (concat parts)) parts = legacy (concat parts)
  /\ checksum (concat parts) = legacy (concat parts)
  /\ is_u64 (legacy (concat parts)).
Proof.
  intros Hl. rewrite checksum_parts_spec, checksum_eq, legacy_spec. split_and!; [done..|].
  by apply checksum_spec_u64.
Qed.

Lemma checksum_parts_streams_witness :
  checksum_parts 10 [as_bytes "abc"; []; as_bytes "defghij"] = legacy (as_bytes "abcdefghij").
Proof. apply (checksum_parts_streams [as_bytes "abc"; []; as_bytes "defghij"]). by split; vm_compute. Defined.

(** A damaged byte is always detected: two byte strings that differ in
    exactly one position have different checksums, wherever the position falls
    in the words and the tail (so any single flipped bit is caught). *)
Theorem checksum_detects_any_single_byte a b b' c :
  is_u64 (zlen (a ++ b :: c)) -> b <> b' ->
  checksum (a ++ b :: c) <> checksum (a ++ b' :: c).
Proof.
  intros Hl Hne. rewrite !checksum_eq. unfold checksum_spec.
  replace (zlen (a ++ b' :: c)) with (zlen (a ++ b :: c)) by (rewrite !zlen_app, !zlen_cons; done).
  apply finish_byte_neq; [|done]. apply lxor_u64; [by split; vm_compute|done].
Qed.

Lemma checksum_detects_any_single_byte_witness :
  checksum (as_bytes "abcdefg" ++ x68 :: as_bytes "ij") <> checksum (as_bytes "abcdefg" ++ x69 :: as_bytes "ij").
Proof. apply checksum_detects_any_single_byte; [by split; vm_compute|discriminate]. Defined.
