(* ===== verification/CacheProps.v ===== *)
(** * The cache tier: lemmas and properties

    What a cache file means ([record_file]), that a load returns bytes only
    from such a file, that a file means one thing for one identity and key
    only, what a save leaves on disk, and the budgets. *)

From S2P Require Import Prelude Fmt Utf8 Atomic AtomicProps Cache CacheChecksum.

(** ** Frames *)

Definition frame (payload : bytes) : bytes :=
  CACHE_MAGIC ++ to_le_bytes 8 (checksum payload) ++ to_le_bytes 8 (zlen payload) ++ payload.

Lemma zlen_frame payload : zlen (frame payload) = HEADER + zlen payload.
Proof. unfold frame. autorewrite with waltier. change (zlen CACHE_MAGIC) with 4. unfold HEADER. lia. Qed.

Lemma drop_app_zlen {A} n (l k : list A) : zlen l = Z.of_nat n -> drop n (l ++ k) = k.
Proof. intros H. replace n with (length l) by zlia. apply drop_app_length. Qed.

Lemma take_app_zlen {A} n (l k : list A) : zlen l = Z.of_nat n -> take n (l ++ k) = l.
Proof. intros H. replace n with (length l) by zlia. apply take_app_length. Qed.

Lemma le8_u64 z : is_u64 z -> from_le_bytes (to_le_bytes 8 z) = z.
Proof. intros. rewrite from_to_le_bytes, Z.mod_small; zlia. Qed.

Lemma unframe_frame payload : is_u64 (zlen payload) -> unframe (frame payload) = Some payload.
Proof.
  intros Hp. unfold unframe. rewrite zlen_frame. pose proof (zlen_nonneg payload).
  destruct (_ <? HEADER) eqn:E; zbool; [lia|]. cbn [orb]. unfold frame.
  rewrite (take_app_zlen 4), bool_decide_eq_true_2 by done. cbn [negb].
  rewrite (drop_app_zlen 4), (take_app_zlen 8) by (done || by rewrite zlen_to_le_bytes).
  rewrite (app_assoc CACHE_MAGIC), (drop_app_zlen 12), (take_app_zlen 8)
    by (rewrite ?zlen_app, zlen_to_le_bytes; done).
  rewrite (app_assoc (CACHE_MAGIC ++ _)), (drop_app_zlen (Z.to_nat HEADER))
    by (rewrite !zlen_app, !zlen_to_le_bytes; done).
  rewrite !le8_u64 by (done || by apply checksum_u64). by rewrite !Z.eqb_refl.
Qed.

Lemma unframe_inv data payload : unframe data = Some payload -> data = frame payload.
Proof.
  unfold unframe. destruct (_ || _) eqn:E; [done|]. apply orb_false_elim in E as [El Em].
  zbool. apply negb_false_iff, bool_decide_eq_true in Em.
  destruct (_ || _) eqn:E2; [done|]. intros [= <-]. apply orb_false_elim in E2 as [Es Ec].
  apply negb_false_iff, Z.eqb_eq in Es, Ec. unfold HEADER in *. change (Z.to_nat (4 + 8 + 8)) with 20%nat in *.
  unfold frame. rewrite Ec, Es, <- Em.
  assert (forall n, zlen data >= Z.of_nat (n + 8) -> zlen (take 8 (drop n data)) = Z.of_nat 8) as Hlen.
  { intros n Hn. unfold zlen in *. rewrite length_take, length_drop. lia. }
  rewrite !le_bytes_of_len by (apply Hlen; cbn; lia).
  rewrite <- (take_drop 4 data) at 1. f_equal.
  rewrite <- (take_drop 8 (drop 4 data)) at 1. rewrite drop_drop. f_equal.
  rewrite <- (take_drop 8 (drop (4 + 8) data)) at 1. by rewrite drop_drop.
Qed.

(** ** Records *)

(** The payload of the record of [data] under [key], and the file holding it. *)
Definition payload_of (identity key data : bytes) : bytes :=
  identity ++ to_le_bytes 8 (zlen key) ++ key ++ data.
Definition record_file (identity key data : bytes) : bytes := frame (payload_of identity key data).

Lemma zlen_payload_of id k d : zlen (payload_of id k d) = zlen id + 8 + zlen k + zlen d.
Proof. unfold payload_of. autorewrite with waltier. lia. Qed.

Lemma parse_record_Some id k payload d : is_u64 (zlen k) ->
  parse_record id k payload = Some d <-> payload = payload_of id k d.
Proof.
  intros Hk. unfold parse_record. split.
  - destruct (strip_prefix id payload) as [rest|] eqn:E; cbn [mbind option_bind]; [|done].
    apply strip_prefix_Some in E as ->. destruct (_ <? 8) eqn:E8; zbool; [done|].
    destruct (from_le_bytes _ =? _) eqn:Ek; zbool; cbn [negb]; [|done].
    intros Hd%strip_prefix_Some. unfold payload_of. f_equal.
    rewrite <- (take_drop 8 rest), Hd. f_equal. rewrite <- Ek.
    symmetry. apply le_bytes_of_len. unfold zlen in *. rewrite length_take. lia.
  - intros ->. unfold payload_of. rewrite (proj2 (strip_prefix_Some id _ _) eq_refl).
    cbn [mbind option_bind]. autorewrite with waltier.
    pose proof (zlen_nonneg k). pose proof (zlen_nonneg d).
    destruct (_ <? 8) eqn:E8; zbool; [lia|].
    rewrite (take_app_zlen 8), le8_u64, Z.eqb_refl by (done || by rewrite zlen_to_le_bytes).
    cbn [negb]. rewrite (drop_app_zlen 8) by by rewrite zlen_to_le_bytes.
    by apply strip_prefix_Some.
Qed.

(** ** Identities delimit themselves *)

Lemma identity_prefix_free ns wk ns' wk' x x' :
  is_u64 (str_len ns) -> is_u64 (str_len wk) -> is_u64 (str_len ns') -> is_u64 (str_len wk') ->
  as_bytes (identity_of ns wk) ++ x = as_bytes (identity_of ns' wk') ++ x' ->
  ns = ns' /\ wk = wk' /\ x = x'.
Proof.
  intros H1 H2 H3 H4 H.
  rewrite <- (as_bytes_of_list x), <- (as_bytes_of_list x'), <- !as_bytes_app in H.
  apply as_bytes_inj in H. unfold identity_of in H. rewrite !string_app_assoc in H.
  apply split_at_colon in H as [Hd H]; [|apply dec_forallb..].
  apply dec_inj in Hd; [|done..].
  apply string_app_inj_len in H as [-> H]; [|done].
  apply split_at_colon in H as [Hd' H]; [|apply dec_forallb..].
  apply dec_inj in Hd'; [|done..].
  apply string_app_inj_len in H as [-> H]; [|done].
  split_and!; [done..|]. by rewrite <- (as_bytes_of_list x), H, as_bytes_of_list.
Qed.

Lemma payload_of_inj_data id k d d' : payload_of id k d = payload_of id k d' -> d = d'.
Proof. unfold payload_of. by intros H%app_inv_head%app_inv_head%app_inv_head. Qed.

Lemma key_data_inj k d k' d' : is_u64 (zlen k) -> is_u64 (zlen k') ->
  to_le_bytes 8 (zlen k) ++ k ++ d = to_le_bytes 8 (zlen k') ++ k' ++ d' -> k = k' /\ d = d'.
Proof.
  intros Hk Hk' H. apply app_inj_len in H as [Hl H]; [|by rewrite !zlen_to_le_bytes].
  apply (f_equal from_le_bytes) in Hl. rewrite !le8_u64 in Hl by done.
  by apply app_inj_len in H.
Qed.

(** The sizes a 64-bit process can hold. *)
Definition sane_len (bs : bytes) : Prop := zlen bs <= ISIZE_MAX.
Definition sane_str (s : string) : Prop := str_len s <= ISIZE_MAX.

Lemma sane_str_u64 s : sane_str s -> is_u64 (str_len s).
Proof. unfold sane_str, str_len. intros. pose proof (zlen_nonneg (as_bytes s)). zlia. Qed.

(** A file is the record of at most one backend, log, key and content. *)
Lemma record_file_inj ns wk ns' wk' k k' d d' :
  sane_str ns -> sane_str wk -> sane_str ns' -> sane_str wk' -> sane_str k -> sane_str k' ->
  record_file (as_bytes (identity_of ns wk)) (as_bytes k) d
    = record_file (as_bytes (identity_of ns' wk')) (as_bytes k') d' ->
  ns = ns' /\ wk = wk' /\ k = k' /\ d = d'.
Proof.
  intros ?????? H. unfold record_file, frame in H.
  assert (forall s, sane_str s -> is_u64 (zlen (as_bytes s))) as Hu by apply sane_str_u64.
  apply app_inv_head in H. apply app_inj_len in H as [_ H]; [|by rewrite !zlen_to_le_bytes].
  apply app_inj_len in H as [_ H]; [|by rewrite !zlen_to_le_bytes].
  unfold payload_of in H.
  apply identity_prefix_free in H as (-> & -> & H); [|by apply sane_str_u64..].
  apply key_data_inj in H as [Hk ->]; [|by apply Hu..]. by apply as_bytes_inj in Hk.
Qed.

(** ** Loads *)

(** Reading one byte more than the limit tells a file that fits from one that does not. *)
Lemma unframe_read limit c payload : limit <= U64_MAX -> zlen c <= limit ->
  unframe (take (Z.to_nat (wrapping_add limit 1)) c) = Some payload -> c = frame payload.
Proof.
  intros Hl Hc Hp%unframe_inv. pose proof (zlen_nonneg c). destruct (decide (limit = U64_MAX)) as [->|Hne].
  - change (Z.to_nat (wrapping_add U64_MAX 1)) with 0%nat in Hp.
    apply (f_equal zlen) in Hp. rewrite zlen_frame in Hp. pose proof (zlen_nonneg payload).
    change (zlen (take 0 c)) with 0 in Hp. unfold HEADER in Hp. lia.
  - unfold wrapping_add in Hp. rewrite wrap64_small in Hp by zlia. rewrite <- Hp. symmetry. apply take_ge. zlia.
Qed.

Lemma load_limit (id key : bytes) max mp :
  (a ← checked_add (zlen id) 8; b ← checked_add a (zlen key); checked_add b max) = Some mp ->
  mp = zlen id + 8 + zlen key + max.
Proof.
  destruct (checked_add _ 8) as [a|] eqn:E1; cbn [mbind option_bind]; [|done].
  apply checked_add_Some in E1 as [-> _].
  destruct (checked_add _ (zlen key)) as [b|] eqn:E2; cbn [mbind option_bind]; [|done].
  apply checked_add_Some in E2 as [-> _]. by intros [-> _]%checked_add_Some.
Qed.

Lemma read_checked_spec p max fs fs' o : read_checked p max fs = (fs', o) ->
  fs_files fs' = fs_files fs /\ fs_pid fs' = fs_pid fs /\ fs_next fs' = fs_next fs /\
  forall payload, o = Some payload -> fs_files fs !! p = Some (frame payload) /\ zlen payload <= max.
Proof.
  assert (forall fs, fs_files (read_file p fs).1 = fs_files fs /\ fs_pid (read_file p fs).1 = fs_pid fs
    /\ fs_next (read_file p fs).1 = fs_next fs) as Hrd.
  { intros g. fs_step read_file g; [done|]. by destruct (_ !! p). }
  unfold read_checked. destruct (checked_add max HEADER) as [limit|] eqn:El.
  2: { intros [= <- <-]. by split_and!. }
  apply checked_add_Some in El as [-> Hl].
  pose proof (Hrd fs) as (A1 & A2 & A3). destruct (read_file p fs) as [fs1 r1] eqn:E1. cbn [fst] in *.
  destruct r1 as [c1|]; [|intros [= <- <-]; by split_and!].
  unfold file_len. pose proof (Hrd fs1) as (B1 & B2 & B3).
  destruct (read_file p fs1) as [fs2 r2] eqn:E2. cbn [fst] in *.
  destruct r2 as [c2|]; [|intros [= <- <-]; split_and!; congruence].
  destruct (max + HEADER <? zlen c2) eqn:E3; zbool; [intros [= <- <-]; split_and!; congruence|].
  unfold read_at_most. pose proof (Hrd fs2) as (C1 & C2 & C3).
  destruct (read_file p fs2) as [fs3 r3] eqn:E4. cbn [fst] in *.
  destruct r3 as [c3|]; [|intros [= <- <-]; split_and!; congruence].
  assert (c3 = c2 /\ fs_files fs !! p = Some c3) as [-> Hc].
  { apply read_file_spec in E2 as [_ E2], E4 as [_ E4]. rewrite B1 in E4. split; congruence. }
  destruct (max + HEADER <? zlen (take _ c2)) eqn:E5; [intros [= <- <-]; split_and!; congruence|].
  intros [= <- <-]. split_and!; [congruence..|]. intros payload Hp%unframe_read; [|lia..]. subst c2.
  split; [done|]. rewrite zlen_frame in E3. lia.
Qed.

Lemma load_spec c p key max fs fs' o : is_u64 (zlen key) -> load c p key max fs = (fs', o) ->
  fs_files fs' = fs_files fs /\
  forall d, o = Some d -> exists id, c_identity c = Some id
    /\ fs_files fs !! p = Some (record_file id key d) /\ zlen d <= max.
Proof.
  intros Hk. unfold load. destruct (c_identity c) as [id|]; [|by intros [= <- <-]].
  destruct (_ ≫= _) as [mp|] eqn:E; [|by intros [= <- <-]].
  destruct (read_checked p mp fs) as [fs1 data] eqn:Er. intros [= <- <-].
  apply read_checked_spec in Er as (Hf & _ & _ & Hr). split; [done|].
  intros d Hd. destruct data as [payload|]; cbn in Hd; [|done].
  apply parse_record_Some in Hd as ->; [|done]. destruct (Hr _ eq_refl) as [Hfile Hlen].
  exists id. split_and!; [done..|]. rewrite zlen_payload_of in Hlen. apply load_limit in E. lia.
Qed.

Lemma load_snapshot_spec c key max fs fs' o : sane_str key -> load_snapshot c key max fs = (fs', o) ->
  fs_files fs' = fs_files fs /\
  forall d, o = Some d -> exists id, c_identity c = Some id
    /\ fs_files fs !! snap_path c key = Some (record_file id (as_bytes key) d) /\ zlen d <= max.
Proof.
  intros Hk. unfold load_snapshot. destruct (c_identity c) eqn:E; [|by intros [= <- <-]].
  intros H. apply load_spec in H; [|by apply sane_str_u64]. by rewrite E in H.
Qed.

(** The data of the image record: etag length, etag, image. *)
Definition wal_data (etag : string) (image : bytes) : bytes :=
  to_le_bytes 2 (str_len etag) ++ as_bytes etag ++ image.

Lemma parse_wal_Some max data etag image : parse_wal max data = Some (etag, image) ->
  data = wal_data etag image /\ zlen image <= max /\ is_utf8 etag /\ str_len etag <= U16_MAX.
Proof.
  unfold parse_wal. destruct (_ <? 2) eqn:E2; zbool; [done|].
  set (n := from_le_bytes (take 2 data)). destruct (_ <? 2 + n) eqn:En; zbool; [done|].
  assert (zlen (take 2 data) = 2) as Hz2 by (unfold zlen in *; rewrite length_take; lia).
  pose proof (from_le_bytes_range (take 2 data)) as Hn. rewrite Hz2 in Hn. fold n in Hn.
  destruct (from_utf8 _) as [e|] eqn:Eu; cbn [mbind option_bind]; [|done].
  apply from_utf8_Some in Eu as [Hb Hu].
  destruct (max <? _) eqn:Em; zbool; [done|]. intros [= <- <-].
  split_and!; [|done|done|].
  - unfold wal_data. assert (str_len e = n) as ->.
    { unfold str_len. rewrite Hb, zlen_take; [done|]. split; [lia|].
      unfold zlen in *. rewrite length_drop. lia. }
    rewrite Hb. rewrite <- (take_drop 2 data) at 1. f_equal.
    { symmetry. by apply le_bytes_of_len. }
    rewrite <- (take_drop (Z.to_nat n) (drop 2 data)) at 1. f_equal.
    rewrite drop_drop. f_equal. lia.
  - unfold str_len. rewrite Hb, zlen_take; [zlia|]. unfold zlen in *. rewrite length_drop. lia.
Qed.

Lemma parse_wal_data max etag image : is_utf8 etag -> str_len etag <= U16_MAX -> zlen image <= max ->
  parse_wal max (wal_data etag image) = Some (etag, image).
Proof.
  intros Hu He Hm. pose proof (zlen_nonneg (as_bytes etag)). pose proof (zlen_nonneg image).
  unfold parse_wal, wal_data, str_len in *. unfold_consts.
  rewrite (take_app_zlen 2), from_to_le_bytes, Z.mod_small by (zlia || by rewrite zlen_to_le_bytes).
  autorewrite with waltier.
  destruct (_ <? 2) eqn:E1; zbool; [lia|]. destruct (_ <? 2 + _) eqn:E2; zbool; [lia|].
  rewrite (drop_app_zlen 2), take_zlen_app, from_utf8_as_bytes by (done || by rewrite zlen_to_le_bytes).
  cbn [mbind option_bind]. rewrite app_assoc, drop_app_zlen by (autorewrite with waltier; lia).
  destruct (max <? zlen image) eqn:E3; zbool; [lia|done].
Qed.

Lemma load_wal_spec c max fs fs' o : load_wal c max fs = (fs', o) ->
  fs_files fs' = fs_files fs /\
  forall etag image, o = Some (etag, image) -> exists id, c_identity c = Some id
    /\ fs_files fs !! wal_path c = Some (record_file id (as_bytes "wal") (wal_data etag image))
    /\ zlen image <= max /\ is_utf8 etag /\ str_len etag <= U16_MAX.
Proof.
  unfold load_wal. destruct (c_identity c) as [id|] eqn:Ei; [|by intros [= <- <-]].
  destruct (checked_add max _) as [md|]; [|by intros [= <- <-]].
  destruct (load c (wal_path c) (as_bytes "wal") md fs) as [fs1 data] eqn:El. intros [= <- <-].
  apply load_spec in El as [Hf Hd]; [|by split; vm_compute]. split; [done|].
  intros etag image. destruct data as [data|]; cbn [mbind option_bind]; [|done].
  destruct (Hd _ eq_refl) as (id' & Hid & Hfile & _). rewrite Ei in Hid.
  intros (-> & Hi & Hu & He)%parse_wal_Some. by exists id'.
Qed.

(** ** Saves *)

Lemma sum_checked_ok t ls v : sum_checked t ls = Some v -> v = foldr Z.add 0 ls + t.
Proof.
  revert t. induction ls as [|l ls IH]; intros t; cbn [sum_checked foldr]; [intros [= <-]; lia|].
  destruct (checked_add t l) as [u|] eqn:E; cbn [mbind option_bind]; [|done].
  apply checked_add_Some in E as [-> _]. intros ->%IH. lia.
Qed.

Lemma zlen_concat (fs : list bytes) : zlen (concat fs) = foldr Z.add 0 (zlen <$> fs).
Proof. induction fs as [|f fs IH]; [done|]. cbn. rewrite zlen_app, IH. done. Qed.

Lemma frame_prefix_record id key fields body :
  frame_prefix id key fields body (zlen (payload_of id key (concat fields ++ body))) ++ body
  = record_file id key (concat fields ++ body).
Proof.
  unfold frame_prefix, record_file, frame. set (payload := payload_of _ _ _).
  assert (concat [id ++ to_le_bytes 8 (zlen key) ++ key ++ concat fields; body] = payload) as Hc.
  { cbn [concat]. unfold payload, payload_of. by rewrite app_nil_r, <- !app_assoc. }
  rewrite checksum_parts_spec, Hc, <- checksum_eq, <- !app_assoc. do 3 f_equal.
Qed.

Lemma frame_prefix_concat id key fields body pl n :
  sum_checked 0 ([HEADER; zlen id; 8; zlen key] ++ (zlen <$> fields)) = Some pl ->
  checked_add (pl - HEADER) (zlen body) = Some n ->
  concat [frame_prefix id key fields body n; body] = record_file id key (concat fields ++ body).
Proof.
  intros Hs [-> _]%checked_add_Some. apply sum_checked_ok in Hs. rewrite foldr_app in Hs. cbn [foldr] in Hs.
  assert (pl - HEADER + zlen body = zlen (payload_of id key (concat fields ++ body))) as ->.
  { rewrite zlen_payload_of, zlen_app, zlen_concat. revert Hs.
    generalize (foldr Z.add 0 (zlen <$> fields)). unfold HEADER. intros. cbn in Hs. lia. }
  cbn [concat]. by rewrite app_nil_r, frame_prefix_record.
Qed.

(** A save publishes the record at its path, or changes nothing but one
    fresh temporary file. *)
Lemma save_spec c p key fields body fs :
  (exists id, c_identity c = Some id
     /\ fs_files (save c p key fields body fs)
        = <[p := record_file id key (concat fields ++ body)]> (fs_files fs))
  \/ (exists t, is_tmp t /\
       forall q, q <> t -> fs_files (save c p key fields body fs) !! q = fs_files fs !! q).
Proof.
  assert (is_tmp (tmp_first [] 0)) as Ht by (exists [], 0; by left).
  unfold save. destruct (c_identity c) as [id|]; [|right; by eexists].
  destruct (sum_checked _ _) as [pl|] eqn:Es; [|right; by eexists].
  destruct (checked_add _ _) as [n|] eqn:En; [|right; by eexists].
  pose proof (frame_prefix_concat _ _ _ _ _ _ Es En) as Hf.
  destruct (write_atomic p _ fs) as [fs' r] eqn:E. cbn [fst].
  apply write_atomic_spec in E. destruct r as [|e].
  - left. exists id. by rewrite E, Hf.
  - right. destruct E as (t & Htt & _ & Hq). by exists t.
Qed.

(** ** Cache paths are not temporary names *)

Lemma is_tmp_last t : is_tmp t -> exists s, last t = Some (".waltier-" +:+ s).
Proof.
  intros (dir & pid & [->|[seq ->]]); [unfold tmp_first|unfold tmp_seq]; rewrite last_snoc; eauto.
Qed.

Lemma snap_path_not_tmp c k t : is_tmp t -> snap_path c k <> t.
Proof.
  intros [s Ht]%is_tmp_last <-. unfold snap_path in Ht. rewrite last_snoc in Ht.
  injection Ht as Ht. discriminate Ht.
Qed.

Lemma wal_path_not_tmp c t : is_tmp t -> wal_path c <> t.
Proof.
  intros [s Ht]%is_tmp_last <-. unfold wal_path in Ht. rewrite last_snoc in Ht.
  injection Ht as Ht. discriminate Ht.
Qed.

Lemma snap_path_not_wal c k c' : snap_path c k <> wal_path c'.
Proof.
  intros H. apply (f_equal last) in H. unfold snap_path, wal_path in H.
  rewrite !last_snoc in H. injection H as H. discriminate H.
Qed.

(** What any save of any cache leaves at a cache path: the new record, or the old file. *)
Lemma save_at c p key fields body fs q : (forall t, is_tmp t -> q <> t) ->
  fs_files (save c p key fields body fs) !! q = fs_files fs !! q
  \/ (q = p /\ exists id, c_identity c = Some id /\
      fs_files (save c p key fields body fs) !! q = Some (record_file id key (concat fields ++ body))).
Proof.
  intros Hq. destruct (save_spec c p key fields body fs) as [(id & Hid & ->)|(t & Ht & H)].
  - destruct (decide (q = p)) as [->|Hne]; [|left; by rewrite lookup_insert_ne].
    right. split; [done|]. exists id. by rewrite lookup_insert_eq.
  - left. apply H. by apply Hq.
Qed.

Lemma save_snapshot_at c k d fs q : (forall t, is_tmp t -> q <> t) ->
  fs_files (save_snapshot c k d fs) !! q = fs_files fs !! q
  \/ (q = snap_path c k /\ exists id, c_identity c = Some id /\
      fs_files (save_snapshot c k d fs) !! q = Some (record_file id (as_bytes k) d)).
Proof.
  intros Hq. unfold save_snapshot. destruct (c_identity c) eqn:E; [|by left].
  destruct (save_at c (snap_path c k) (as_bytes k) [] d fs q Hq) as [?|(-> & id & Hid & H)]; [by left|].
  right. split; [done|]. exists id. rewrite <- Hid, E. done.
Qed.

Lemma save_wal_at c e d fs q : (forall t, is_tmp t -> q <> t) ->
  fs_files (save_wal c e d fs) !! q = fs_files fs !! q
  \/ (q = wal_path c /\ str_len e <= U16_MAX /\ exists id, c_identity c = Some id /\
      fs_files (save_wal c e d fs) !! q = Some (record_file id (as_bytes "wal") (wal_data e d))).
Proof.
  intros Hq. unfold save_wal. destruct (c_identity c) eqn:E; [|by left].
  destruct (_ <? _) eqn:El; zbool; [by left|].
  destruct (save_at c (wal_path c) (as_bytes "wal") [to_le_bytes 2 (str_len e); as_bytes e] d fs q Hq)
    as [?|(-> & id & Hid & H)]; [by left|].
  right. split_and!; [done..|]. exists id. rewrite <- Hid, E. split; [done|]. rewrite H.
  do 2 f_equal. cbn [concat]. unfold wal_data. by rewrite app_nil_r, <- app_assoc.
Qed.

(** ** Complete loads *)

Lemma read_checked_complete p payload max fs :
  fs_io fs = [] -> fs_files fs !! p = Some (frame payload) -> zlen payload <= max -> max + HEADER < U64_MAX ->
  read_checked p max fs = (fs, Some payload).
Proof.
  intros Hio Hf Hl Hm. pose proof (zlen_nonneg payload).
  assert (read_file p fs = (fs, Ok (frame payload))) as Hrd.
  { unfold read_file, draw. by rewrite Hio, Hf. }
  unfold read_checked, file_len, read_at_most.
  destruct (checked_add max HEADER) as [l|] eqn:E.
  2: { apply checked_add_None in E. lia. }
  apply checked_add_Some in E as [-> _]. rewrite !Hrd.
  assert (take (Z.to_nat (wrapping_add (max + HEADER) 1)) (frame payload) = frame payload) as ->.
  { apply take_ge. unfold wrapping_add. rewrite wrap64_small by (unfold HEADER in *; zlia).
    pose proof (zlen_frame payload). unfold zlen, HEADER in *. lia. }
  rewrite zlen_frame. destruct (_ <? _) eqn:E; zbool; [lia|].
  by rewrite unframe_frame by (unfold HEADER in *; zlia).
Qed.

Lemma load_complete c id p key d max fs :
  c_identity c = Some id -> fs_io fs = [] -> fs_files fs !! p = Some (record_file id key d) ->
  zlen d <= max -> zlen id + 8 + zlen key + max + HEADER < U64_MAX ->
  load c p key max fs = (fs, Some d).
Proof.
  intros Hid Hio Hf Hd Hm. unfold load. rewrite Hid.
  pose proof (zlen_nonneg id). pose proof (zlen_nonneg key). pose proof (zlen_nonneg d). unfold HEADER in *.
  assert ((a ← checked_add (zlen id) 8; b ← checked_add a (zlen key); checked_add b max)
    = Some (zlen id + 8 + zlen key + max)) as ->.
  { rewrite (proj2 (checked_add_Some (zlen id) 8 _)) by (split; [reflexivity|lia]). cbn [mbind option_bind].
    rewrite (proj2 (checked_add_Some _ (zlen key) _)) by (split; [reflexivity|lia]). cbn [mbind option_bind].
    apply checked_add_Some. split; [done|lia]. }
  rewrite (read_checked_complete p (payload_of id key d)); [|done..|rewrite zlen_payload_of; lia|unfold HEADER; lia].
  cbn [mbind option_bind]. f_equal. apply parse_record_Some; [zlia|done].
Qed.

Lemma sum_checked_fits t ls : 0 <= t -> Forall (fun l => 0 <= l) ls -> foldr Z.add 0 ls + t <= U64_MAX ->
  sum_checked t ls = Some (foldr Z.add 0 ls + t).
Proof.
  intros Ht Hls. revert t Ht. induction Hls as [|l ls Hl Hls IH]; intros t Ht Hm; cbn [sum_checked foldr] in *.
  { done. }
  assert (0 <= foldr Z.add 0 ls) by (clear - Hls; induction Hls; cbn; lia).
  rewrite (proj2 (checked_add_Some t l _)) by (split; [reflexivity|lia]). cbn [mbind option_bind].
  rewrite IH by lia. f_equal. lia.
Qed.

Lemma save_complete c id p key fields body fs :
  c_identity c = Some id -> fs_io fs = [] -> is_u64 (fs_next fs) ->
  Z.of_nat (size (fs_files fs)) + 2 < 2 ^ 64 ->
  zlen id + 8 + zlen key + zlen (concat fields) + zlen body + HEADER < U64_MAX ->
  fs_files (save c p key fields body fs) = <[p := record_file id key (concat fields ++ body)]> (fs_files fs)
  /\ fs_io (save c p key fields body fs) = [] /\ is_u64 (fs_next (save c p key fields body fs)).
Proof.
  intros Hid Hio Hu Hs Hm. unfold save. rewrite Hid.
  pose proof (zlen_nonneg id). pose proof (zlen_nonneg key). pose proof (zlen_nonneg body).
  pose proof (zlen_nonneg (concat fields)). rewrite zlen_concat in *.
  assert (foldr Z.add 0 ([HEADER; zlen id; 8; zlen key] ++ (zlen <$> fields))
    = HEADER + zlen id + 8 + zlen key + foldr Z.add 0 (zlen <$> fields)) as Hsum.
  { rewrite foldr_app. cbn [foldr]. lia. }
  rewrite sum_checked_fits; [|lia| |rewrite Hsum; lia].
  2: { apply Forall_app. split; [repeat constructor; unfold HEADER; lia|].
       apply Forall_fmap, Forall_true. intros. apply zlen_nonneg. }
  rewrite Hsum.
  rewrite (proj2 (checked_add_Some _ (zlen body) _)) by (split; [reflexivity|unfold HEADER in *; lia]).
  assert (HEADER + zlen id + 8 + zlen key + foldr Z.add 0 (zlen <$> fields) + 0 - HEADER + zlen body
    = zlen (payload_of id key (concat fields ++ body))) as ->.
  { rewrite zlen_payload_of, zlen_app, zlen_concat. lia. }
  destruct (write_atomic_no_faults p [frame_prefix id key fields body
    (zlen (payload_of id key (concat fields ++ body))); body] fs Hio Hu Hs) as (Hok & Hio' & Hu').
  destruct (write_atomic p _ fs) as [fs' r] eqn:E. cbn [fst snd] in *. subst r.
  apply write_atomic_spec in E. split; [|done]. rewrite E. cbn [concat].
  by rewrite app_nil_r, frame_prefix_record.
Qed.

Lemma save_snapshot_complete c id key d fs :
  c_identity c = Some id -> fs_io fs = [] -> is_u64 (fs_next fs) ->
  Z.of_nat (size (fs_files fs)) + 2 < 2 ^ 64 ->
  zlen id + 8 + str_len key + zlen d + HEADER < U64_MAX ->
  fs_files (save_snapshot c key d fs) = <[snap_path c key := record_file id (as_bytes key) d]> (fs_files fs)
  /\ fs_io (save_snapshot c key d fs) = [] /\ is_u64 (fs_next (save_snapshot c key d fs)).
Proof.
  intros Hid Hio Hu Hs Hm. unfold save_snapshot. rewrite Hid.
  apply (save_complete c id (snap_path c key) (as_bytes key) [] d fs Hid Hio Hu Hs).
  cbn [concat]. rewrite (@zlen_nil byte). unfold str_len in Hm. lia.
Qed.

Lemma save_wal_complete c id etag d fs :
  c_identity c = Some id -> fs_io fs = [] -> is_u64 (fs_next fs) ->
  Z.of_nat (size (fs_files fs)) + 2 < 2 ^ 64 -> str_len etag <= U16_MAX ->
  zlen id + 8 + 5 + str_len etag + zlen d + HEADER < U64_MAX ->
  fs_files (save_wal c etag d fs)
    = <[wal_path c := record_file id (as_bytes "wal") (wal_data etag d)]> (fs_files fs)
  /\ fs_io (save_wal c etag d fs) = [] /\ is_u64 (fs_next (save_wal c etag d fs)).
Proof.
  intros Hid Hio Hu Hs Het Hm. unfold save_wal. rewrite Hid.
  destruct (_ <? _) eqn:E; zbool; [lia|].
  assert (wal_data etag d = concat [to_le_bytes 2 (str_len etag); as_bytes etag] ++ d) as ->.
  { unfold wal_data. cbn [concat]. by rewrite app_nil_r, <- app_assoc. }
  apply save_complete; [done..|]. cbn [concat]. autorewrite with waltier.
  change (zlen (as_bytes "wal")) with 3. unfold str_len in Hm. lia.
Qed.

Lemma load_wal_complete c id etag d max fs :
  c_identity c = Some id -> fs_io fs = [] ->
  fs_files fs !! wal_path c = Some (record_file id (as_bytes "wal") (wal_data etag d)) ->
  is_utf8 etag -> str_len etag <= U16_MAX -> zlen d <= max ->
  zlen id + 11 + max + 2 + U16_MAX + HEADER < U64_MAX ->
  load_wal c max fs = (fs, Some (etag, d)).
Proof.
  intros Hid Hio Hf Hutf Het Hd Hm. unfold load_wal. rewrite Hid.
  pose proof (zlen_nonneg d). pose proof (zlen_nonneg id). pose proof (zlen_nonneg (as_bytes etag)).
  unfold str_len, HEADER in *. unfold_consts.
  rewrite (proj2 (checked_add_Some max _ _)) by (split; [reflexivity|zlia]).
  assert (zlen (wal_data etag d) = 2 + zlen (as_bytes etag) + zlen d) as Hzd.
  { unfold wal_data. autorewrite with waltier. lia. }
  rewrite (load_complete c id _ (as_bytes "wal") (wal_data etag d) _ _ Hid Hio Hf)
    by (change (zlen (as_bytes "wal")) with 3; unfold HEADER; zlia).
  cbn [mbind option_bind]. f_equal. by apply parse_wal_data.
Qed.

(** The image record determines the validator and the image. *)
Lemma wal_data_inj e d e' d' : str_len e <= U16_MAX -> str_len e' <= U16_MAX ->
  wal_data e d = wal_data e' d' -> e = e' /\ d = d'.
Proof.
  intros He He' H. unfold wal_data in H. apply app_inj_len in H as [Hl H]; [|by rewrite !zlen_to_le_bytes].
  apply (f_equal from_le_bytes) in Hl. rewrite !from_to_le_bytes in Hl.
  pose proof (zlen_nonneg (as_bytes e)). pose proof (zlen_nonneg (as_bytes e')).
  unfold str_len in *. rewrite !Z.mod_small in Hl by (unfold_consts; cbn; lia).
  apply app_inj_len in H as [H ->]; [|done]. by apply as_bytes_inj in H.
Qed.

(** Removals only remove. *)
Lemma remove_file_sub p fs : fs_files (remove_file p fs).1 ⊆ fs_files fs.
Proof. destruct (remove_file_files p fs) as [->| ->]; [done|]. apply delete_subseteq. Qed.

Lemma remove_snapshot_sub c k fs : fs_files (remove_snapshot c k fs) ⊆ fs_files fs.
Proof. unfold remove_snapshot. destruct (c_identity c); [|done]. apply remove_file_sub. Qed.

Lemma retain_snapshot_sub c keep fs : fs_files (retain_snapshot c keep fs) ⊆ fs_files fs.
Proof.
  unfold retain_snapshot. destruct (c_identity c) as [id|]; [|done].
  destruct (read_dir (c_dir c) fs) as [fs1 [l|e]] eqn:E.
  2: { unfold read_dir in E. pose proof (draw_files fs) as Hd. destruct (draw fs) as [o f].
       cbn in Hd. destruct o; injection E as <-; by rewrite Hd. }
  assert (fs_files fs1 = fs_files fs) as <-.
  { unfold read_dir in E. pose proof (draw_files fs) as Hd. destruct (draw fs) as [o f].
    cbn in Hd. destruct o; injection E as <-; done. }
  clear E fs. revert fs1. induction l as [|q l IH]; intros fs1; cbn [fold_left]; [done|].
  etransitivity; [apply IH|]. destruct (_ && _); [apply remove_file_sub|done].
Qed.
