(* ===== verification/CacheTheorems.v ===== *)
(** * The cache tier: properties of src/src/cache.rs *)

From S2P Require Import Prelude Fmt Utf8 Atomic AtomicProps Cache CacheChecksum CacheProps.

(** The cache a handle of the log [wal_key] on the backend [ns] uses in [dir]. *)
Definition cache_at (dir : path) (ns wal_key : string) : Cache :=
  {| c_dir := dir; c_identity := Some (as_bytes (identity_of ns wal_key)) |}.

(** A file system without pending faults and of an ordinary size. *)
Definition calm_fs (fs : Fs) : Prop :=
  fs_io fs = [] /\ is_u64 (fs_next fs) /\ Z.of_nat (size (fs_files fs)) + 2 < 2 ^ 64.

(** C30. Round trip: after a save that met no I/O error, a load under the same
    identity and key returns exactly the saved bytes whenever the byte budget
    covers them, for the image (with its etag) and for snapshots, over any
    previous content of the directory. *)
Theorem cache_roundtrip dir ns wk key etag d max fs :
  calm_fs fs -> is_utf8 etag -> str_len etag <= U16_MAX ->
  zlen d <= max ->
  str_len (identity_of ns wk) + str_len key + max + 2 * (U16_MAX + 64) < U64_MAX ->
  let c := cache_at dir ns wk in
  (load_snapshot c key max (save_snapshot c key d fs)).2 = Some d
  /\ (load_wal c max (save_wal c etag d fs)).2 = Some (etag, d).
Proof.
  intros (Hio & Hu & Hs) Hutf Het Hd Hm c. unfold str_len in Hm.
  pose proof (zlen_nonneg d). pose proof (zlen_nonneg (as_bytes key)).
  pose proof (zlen_nonneg (as_bytes (identity_of ns wk))).
  pose proof (zlen_nonneg (as_bytes etag)) as Hen. unfold_consts. unfold str_len in Het. split.
  - destruct (save_snapshot_complete c _ key d fs eq_refl Hio Hu Hs) as (Hf & Hio' & _).
    { unfold str_len, HEADER. zlia. }
    unfold load_snapshot. cbn [c_identity c cache_at].
    by rewrite (load_complete c _ _ _ d max _ eq_refl Hio') by
      (rewrite ?Hf, ?lookup_insert_eq; done || (unfold HEADER; zlia)).
  - destruct (save_wal_complete c _ etag d fs eq_refl Hio Hu Hs) as (Hf & Hio' & _).
    { done. } { unfold str_len, HEADER. zlia. }
    by rewrite (load_wal_complete c _ etag d max _ eq_refl Hio') by
      (rewrite ?Hf, ?lookup_insert_eq; done || (unfold HEADER; unfold_consts; zlia)).
Qed.

Lemma cache_roundtrip_witness :
  (load_snapshot (cache_at ["c"] "mem" "wal") "snap/k" 4096
     (save_snapshot (cache_at ["c"] "mem" "wal") "snap/k" (as_bytes "body") empty_fs)).2
  = Some (as_bytes "body").
Proof.
  apply (cache_roundtrip ["c"] "mem" "wal" "snap/k" "etag" (as_bytes "body") 4096 empty_fs).
  - split_and!; [done|by split; vm_compute|by vm_compute].
  - by vm_compute.
  - by vm_compute.
  - by vm_compute.
  - by vm_compute.
Defined.

(** Isolation: whatever caches share a directory, and whatever I/O errors
    occur, a snapshot hit returns either the bytes just saved under exactly the
    same backend, log and object key, or the record of that identity and key
    that was there before; never another resource's bytes. It also respects
    the byte budget. *)
Theorem snapshot_cache_isolation dir ns wk k max dir' ns' wk' k' d' fs d :
  sane_str ns -> sane_str wk -> sane_str ns' -> sane_str wk' -> sane_str k -> sane_str k' ->
  (load_snapshot (cache_at dir ns wk) k max (save_snapshot (cache_at dir' ns' wk') k' d' fs)).2 = Some d ->
  zlen d <= max /\
  ((ns = ns' /\ wk = wk' /\ k = k' /\ d = d')
   \/ fs_files fs !! snap_path (cache_at dir ns wk) k
      = Some (record_file (as_bytes (identity_of ns wk)) (as_bytes k) d)).
Proof.
  intros ?? ?? ?? H. destruct (load_snapshot _ _ _ _) as [fs' o] eqn:E. cbn [snd] in H. subst o.
  apply load_snapshot_spec in E as [_ E]; [|done].
  destruct (E _ eq_refl) as (id & Hid & Hf & Hl). injection Hid as <-. split; [done|].
  destruct (save_snapshot_at (cache_at dir' ns' wk') k' d' fs (snap_path (cache_at dir ns wk) k))
    as [Heq|(Hp & id & Hid & Heq)].
  { intros t Ht. by apply snap_path_not_tmp. }
  - right. by rewrite <- Heq.
  - left. injection Hid as <-. rewrite Hf in Heq. apply (inj Some) in Heq.
    by apply record_file_inj in Heq.
Qed.

Lemma snapshot_cache_isolation_witness :
  zlen (as_bytes "body") <= 4096 /\
  (("mem" = "mem" /\ "wal" = "wal" /\ "snap/k" = "snap/k" /\ as_bytes "body" = as_bytes "body")
   \/ fs_files empty_fs !! snap_path (cache_at ["c"] "mem" "wal") "snap/k"
      = Some (record_file (as_bytes (identity_of "mem" "wal")) (as_bytes "snap/k") (as_bytes "body"))).
Proof.
  apply (snapshot_cache_isolation ["c"] "mem" "wal" "snap/k" 4096 ["c"] "mem" "wal" "snap/k"
    (as_bytes "body") empty_fs (as_bytes "body")); by vm_compute.
Defined.

(** The ways a file is damaged: one byte replaced, a tail missing, or bytes appended. *)
Inductive damaged (f : bytes) : bytes -> Prop :=
  | damaged_byte a b b' c : f = a ++ b :: c -> b <> b' -> damaged f (a ++ b' :: c)
  | damaged_truncated a c : f = a ++ c -> c <> [] -> damaged f a
  | damaged_extended c : c <> [] -> damaged f (f ++ c).

Lemma frame_length_field p p' x : is_u64 (zlen p) -> is_u64 (zlen p') ->
  frame p ++ x = frame p' -> zlen p = zlen p' /\ x = [].
Proof.
  intros Hp Hp' H. unfold frame in H. rewrite <- !app_assoc in H.
  apply app_inv_head in H. apply app_inj_len in H as [_ H]; [|by rewrite !zlen_to_le_bytes].
  apply app_inj_len in H as [Hl H]; [|by rewrite !zlen_to_le_bytes].
  apply (f_equal from_le_bytes) in Hl. rewrite !le8_u64 in Hl by done. split; [done|].
  apply (f_equal zlen) in H. rewrite zlen_app in H. apply zlen_0_nil. lia.
Qed.

Lemma damaged_not_frame p g p' : is_u64 (zlen p) -> is_u64 (zlen p') -> damaged (frame p) g -> g <> frame p'.
Proof.
  intros Hp Hp' Hd Hg. destruct Hd as [a b b' c Hf Hne|a c Hf Hne|c Hne].
  - assert (zlen p = zlen p') as Hl.
    { apply (f_equal zlen) in Hf, Hg. rewrite zlen_frame, zlen_app, zlen_cons in *. lia. }
    set (hd q := CACHE_MAGIC ++ to_le_bytes 8 (checksum q) ++ to_le_bytes 8 (zlen q)).
    assert (forall q, frame q = hd q ++ q) as Hhd by (intros; unfold hd, frame; by rewrite <- !app_assoc).
    assert (forall q, zlen (hd q) = 20) as Hhl by (intros; unfold hd; autorewrite with waltier; done).
    rewrite Hhd in Hf, Hg. destruct (decide (zlen a < 20)) as [Hlt|Hge].
    + assert (forall q x, zlen q = zlen p -> hd q ++ q = a ++ x :: c -> q = drop (Z.to_nat (19 - zlen a)) c) as Hs.
      { intros q x Hq Heq. pose proof (zlen_nonneg a). rewrite cons_middle, app_assoc in Heq.
        assert (zlen c = 19 - zlen a + zlen q) as Hc.
        { apply (f_equal zlen) in Heq. rewrite !zlen_app, Hhl, zlen_cons, zlen_nil in Heq. lia. }
        pose proof (zlen_nonneg q).
        rewrite <- (take_drop (Z.to_nat (19 - zlen a)) c), app_assoc in Heq.
        apply app_inj_len in Heq as [_ Heq]; [done|].
        rewrite !zlen_app, Hhl, zlen_cons, zlen_nil, zlen_take by lia. lia. }
      assert (p' = p) as ->.
      { rewrite (Hs p b) by done. by apply (Hs p' b'). }
      rewrite Hf in Hg. apply app_inv_head in Hg. by injection Hg.
    + pose proof (zlen_nonneg a).
      rewrite <- (take_drop 20 a), <- app_assoc in Hf, Hg.
      assert (zlen (take 20 a) = 20) as Ht by (unfold zlen in *; rewrite length_take; lia).
      apply app_inj_len in Hf as [Hh1 Hf]; [|by rewrite Ht, Hhl].
      apply app_inj_len in Hg as [Hh2 Hg]; [|by rewrite Ht, Hhl].
      assert (checksum p = checksum p') as Hcs.
      { rewrite Hh2 in Hh1. unfold hd in Hh1. apply app_inv_head in Hh1.
        apply app_inj_len in Hh1 as [Hh1 _]; [|by rewrite !zlen_to_le_bytes].
        apply (f_equal from_le_bytes) in Hh1. by rewrite !le8_u64 in Hh1 by by apply checksum_u64. }
      rewrite Hf, <- Hg in Hcs. unfold checksum in Hcs. fold (checksum (drop 20 a ++ b :: c)) in Hcs.
      revert Hcs. fold (checksum (drop 20 a ++ b' :: c)). rewrite !checksum_eq.
      replace (zlen (drop 20 a ++ b' :: c)) with (zlen (drop 20 a ++ b :: c))
        by (rewrite !zlen_app, !zlen_cons; done).
      apply finish_byte_neq; [|done]. apply lxor_u64; [by split; vm_compute|]. by rewrite <- Hf.
  - rewrite Hg in Hf. symmetry in Hf. by apply frame_length_field in Hf as [_ ?].
  - by apply frame_length_field in Hg as [_ ?].
Qed.

(** The file left by a damage is no frame of a payload it can hold. *)
Lemma damaged_unread p max fs id k d g :
  is_u64 (zlen (payload_of id k d)) -> is_u64 (zlen g) -> damaged (record_file id k d) g -> fs_files fs !! p = Some g ->
  forall payload, fs_files fs !! p = Some (frame payload) -> zlen payload <= max -> False.
Proof.
  intros Hu Hg Hd -> payload [= ->] _. unfold record_file in *. eapply damaged_not_frame; [exact Hu| |exact Hd|reflexivity].
  rewrite zlen_frame in Hg. pose proof (zlen_nonneg payload). unfold HEADER in Hg. zlia.
Qed.

(** C34. Damage reads as a miss: if a cache file is a published record with any
    one byte altered (payload, checksum, length or magic), truncated anywhere,
    or extended, then reading it yields no payload, whatever its path, and
    neither an open that loads the log's image from it nor a load of a
    snapshot ever gets a hit, for any identity, key and budget. *)
Theorem damaged_file_is_a_miss c fs id k d g :
  is_u64 (zlen (payload_of id k d)) -> is_u64 (zlen g) -> damaged (record_file id k d) g ->
  (forall p max, fs_files fs !! p = Some g -> (read_checked p max fs).2 = None)
  /\ (forall max, fs_files fs !! wal_path c = Some g -> (load_wal c max fs).2 = None)
  /\ (forall key max, sane_str key -> fs_files fs !! snap_path c key = Some g -> (load_snapshot c key max fs).2 = None).
Proof.
  intros Hu Hg Hd. split_and!.
  - intros p max Hf. destruct (read_checked p max fs) as [fs' [payload|]] eqn:E; [|done].
    apply read_checked_spec in E as (_ & _ & _ & E). destruct (E _ eq_refl) as [Hf' Hl]. destruct (damaged_unread p max fs id k d g Hu Hg Hd Hf payload Hf' Hl).
  - intros max Hf. destruct (load_wal c max fs) as [fs' [[etag im]|]] eqn:E; [|done].
    apply load_wal_spec in E as [_ E]. destruct (E _ _ eq_refl) as (id' & _ & Hf' & _).
    by eapply damaged_unread in Hf'.
  - intros key max Hk Hf. destruct (load_snapshot c key max fs) as [fs' [d'|]] eqn:E; [|done].
    apply load_snapshot_spec in E as [_ E]; [|done]. destruct (E _ eq_refl) as (id' & _ & Hf' & _).
    by eapply damaged_unread in Hf'.
Qed.

(** An image record, and the same with one bit of its last byte flipped. *)
Definition sound_wal : bytes := record_file (as_bytes "i") (as_bytes "wal") (wal_data "e" (as_bytes "bo")).
Definition flipped_wal : bytes := removelast sound_wal ++ [x6e].
Definition wal_cache : Cache := mkCache ["c"] (Some (as_bytes "i")).
Definition holding (file : bytes) : Fs := mkFs {[ wal_path wal_cache := file ]} [] 1 0.

Lemma damaged_file_is_a_miss_witness :
  (load_wal wal_cache 4096 (holding sound_wal)).2 = Some ("e", as_bytes "bo")
  /\ (load_wal wal_cache 4096 (holding flipped_wal)).2 = None.
Proof.
  split; [by vm_compute|].
  apply (damaged_file_is_a_miss _ _ (as_bytes "i") (as_bytes "wal") (wal_data "e" (as_bytes "bo")) flipped_wal).
  - by split; vm_compute.
  - by split; vm_compute.
  - apply (damaged_byte _ _ x6f); [by vm_compute|done].
  - cbn [holding fs_files]. apply lookup_singleton_eq.
Defined.

(** ** Retention *)

Definition stale (c : Cache) (keep : option string) (p : path) : bool :=
  is_snap_file p && negb (bool_decide (Some p = (snap_path c <$> keep))).

Lemma remove_file_healthy p fs : fs_io fs = [] ->
  fs_io (remove_file p fs).1 = [] /\ fs_files (remove_file p fs).1 = delete p (fs_files fs).
Proof.
  intros Hio. unfold remove_file, draw. rewrite Hio. destruct (fs_files fs !! p) eqn:E; cbn; [done|].
  split; [done|]. by rewrite delete_id.
Qed.

Lemma remove_stale_lookup (f : path -> bool) l fs q : fs_io fs = [] ->
  fs_files (fold_left (fun fs p => if f p then (remove_file p fs).1 else fs) l fs) !! q =
    if bool_decide (q ∈ l) && f q then None else fs_files fs !! q.
Proof.
  revert fs. induction l as [|p l IH]; intros fs Hio; cbn [fold_left]; [done|].
  rewrite IH by (destruct (f p); [by apply remove_file_healthy|done]).
  destruct (decide (q ∈ l)) as [Hin|Hin].
  - rewrite !bool_decide_eq_true_2 by set_solver. destruct (f q) eqn:Eq; cbn; [done|].
    destruct (f p) eqn:Ep; [|done]. destruct (remove_file_healthy p fs Hio) as [_ ->].
    rewrite lookup_delete_ne; [done|congruence].
  - rewrite bool_decide_eq_false_2 by done. cbn [andb]. destruct (decide (p = q)) as [->|Hne].
    + rewrite bool_decide_eq_true_2 by set_solver. cbn [andb]. destruct (f q); [|done].
      destruct (remove_file_healthy q fs Hio) as [_ ->]. by rewrite lookup_delete_eq.
    + rewrite bool_decide_eq_false_2 by set_solver. cbn [andb]. destruct (f p); [|done].
      destruct (remove_file_healthy p fs Hio) as [_ ->]. by rewrite lookup_delete_ne.
Qed.

(** C32. Retention is exact. On a healthy disk, [retain_snapshot] of an enabled
    cache removes every snapshot file of the directory but the one kept, and
    nothing else: not the log file, not files elsewhere. *)
Theorem retain_snapshot_exact c keep fs q : is_Some (c_identity c) -> fs_io fs = [] ->
  fs_files (retain_snapshot c keep fs) !! q =
    if is_child (c_dir c) q && stale c keep q then None else fs_files fs !! q.
Proof.
  intros [id Hid] Hio. unfold retain_snapshot. rewrite Hid. unfold read_dir, draw. rewrite Hio.
  rewrite (remove_stale_lookup (stale c keep)) by done.
  destruct (is_child (c_dir c) q) eqn:Ec; cbn [andb].
  - destruct (fs_files fs !! q) as [d|] eqn:Eq; [|by destruct (_ && _), (stale c keep q)].
    rewrite bool_decide_eq_true_2; [done|]. apply list_elem_of_filter. split; [done|].
    apply list_elem_of_fmap. exists (q, d). split; [done|]. by apply elem_of_map_to_list.
  - rewrite bool_decide_eq_false_2; [done|]. intros [Hc _]%list_elem_of_filter. congruence.
Qed.

Lemma retain_snapshot_exact_witness :
  let fs := save_wal test_cache "e" [x01] (save_snapshot test_cache "b" [x02] (save_snapshot test_cache "a" [x03] empty_fs)) in
  size (fs_files fs) = 3%nat
  /\ (forall q, fs_files (retain_snapshot test_cache (Some "b") fs) !! q =
       if is_child (c_dir test_cache) q && stale test_cache (Some "b") q then None else fs_files fs !! q)
  /\ size (fs_files (retain_snapshot test_cache (Some "b") fs)) = 2%nat.
Proof.
  intros fs. split; [vm_compute; reflexivity|]. split; [|vm_compute; reflexivity].
  intros q. apply retain_snapshot_exact; [by eexists|vm_compute; reflexivity].
Defined.
