(* ===== verification/Disk.v ===== *)
(** * A disk shared by processes

    The files of [Atomic], one level lower: directory entries name inodes, an
    open file is an inode that stays readable and writable whatever happens to
    its name, and every system call is one action. [d_calls] counts how often
    each process has called [fetch_add] on its static [NEXT] (src/src/cache.rs,
    line 40). [d_trace] records the calls that changed the directory or drew a
    number, the latest first; no operation reads it. *)

From S2P Require Import Prelude Fmt Atomic.

(** A process is known by its identifier: no two that run at once share it. *)
Abbreviation process := Z.
Abbreviation inode := nat.

Inductive Event : Type :=
  | Drew (q : process) (seq : Z)
  | Created (p : path)
  | Renamed (a b : path) (content : bytes)
  | Removed (p : path).

Record Disk : Type := mkDisk {
  d_names : gmap path inode;
  d_inodes : gmap inode bytes;
  d_fresh : inode;
  d_io : list (option nat);
  d_calls : gmap process Z;
  d_trace : list Event;
}.

Definition calls (w : Disk) (q : process) : Z := default 0 (d_calls w !! q).
(** The files by name, without their inodes. *)
Definition d_files (w : Disk) : gmap path bytes := omap (fun n => d_inodes w !! n) (d_names w).
Definition content (w : Disk) (p : path) : option bytes := d_names w !! p ≫= fun n => d_inodes w !! n.

Definition set_names (w : Disk) (m : gmap path inode) (e : Event) : Disk :=
  {| d_names := m; d_inodes := d_inodes w; d_fresh := d_fresh w; d_io := d_io w;
     d_calls := d_calls w; d_trace := e :: d_trace w |}.
Definition set_inode (w : Disk) (n : inode) (bs : bytes) : Disk :=
  {| d_names := d_names w; d_inodes := <[n := bs]> (d_inodes w); d_fresh := d_fresh w; d_io := d_io w;
     d_calls := d_calls w; d_trace := d_trace w |}.

(** The fault of the next call. *)
Definition d_draw (w : Disk) : option nat * Disk :=
  match d_io w with
  | [] => (None, w)
  | o :: io => (o, {| d_names := d_names w; d_inodes := d_inodes w; d_fresh := d_fresh w; d_io := io;
                      d_calls := d_calls w; d_trace := d_trace w |})
  end.

Definition add_file (p : path) (w : Disk) : Disk :=
  let n := d_fresh w in
  {| d_names := <[p := n]> (d_names w); d_inodes := <[n := []]> (d_inodes w); d_fresh := S n;
     d_io := d_io w; d_calls := d_calls w; d_trace := Created p :: d_trace w |}.

(** [OpenOptions::new().write(true).create_new(true).open(p)] *)
Definition d_create_new (p : path) (w : Disk) : Disk * Result inode IoErr :=
  let (f, w) := d_draw w in
  match f, d_names w !! p with
  | Some _, _ => (w, Err io_other)
  | None, Some _ => (w, Err io_exists)
  | None, None => (add_file p w, Ok (d_fresh w))
  end.

(** [write_all] on the open file [n]. *)
Definition d_write_all (n : inode) (bs : bytes) (w : Disk) : Disk * Result unit IoErr :=
  let (f, w) := d_draw w in
  let old := default [] (d_inodes w !! n) in
  match f with
  | Some k => (set_inode w n (old ++ take k bs), Err io_other)
  | None => (set_inode w n (old ++ bs), Ok tt)
  end.

Definition d_rename (a b : path) (w : Disk) : Disk * Result unit IoErr :=
  let (f, w) := d_draw w in
  match f, d_names w !! a with
  | Some _, _ => (w, Err io_other)
  | None, None => (w, Err io_not_found)
  | None, Some n =>
      (set_names w (<[b := n]> (delete a (d_names w))) (Renamed a b (default [] (d_inodes w !! n))), Ok tt)
  end.

Definition d_remove_file (p : path) (w : Disk) : Disk * Result unit IoErr :=
  let (f, w) := d_draw w in
  match f, d_names w !! p with
  | Some _, _ => (w, Err io_other)
  | None, None => (w, Err io_not_found)
  | None, Some _ => (set_names w (delete p (d_names w)) (Removed p), Ok tt)
  end.

(** [File::open] *)
Definition d_open (p : path) (w : Disk) : Disk * Result inode IoErr :=
  let (f, w) := d_draw w in
  match f, d_names w !! p with
  | Some _, _ => (w, Err io_other)
  | None, None => (w, Err io_not_found)
  | None, Some n => (w, Ok n)
  end.

(** [file.metadata()?.len()] *)
Definition d_len (n : inode) (w : Disk) : Disk * Result Z IoErr :=
  let (f, w) := d_draw w in
  match f with Some _ => (w, Err io_other) | None => (w, Ok (zlen (default [] (d_inodes w !! n)))) end.

(** [file.take(limit).read_to_end(&mut data)] *)
Definition d_read_at_most (n : inode) (limit : Z) (w : Disk) : Disk * Result bytes IoErr :=
  let (f, w) := d_draw w in
  match f with
  | Some _ => (w, Err io_other)
  | None => (w, Ok (take (Z.to_nat limit) (default [] (d_inodes w !! n))))
  end.

Definition d_read_dir (dir : path) (w : Disk) : Disk * Result (list path) IoErr :=
  let (f, w) := d_draw w in
  match f with
  | Some _ => (w, Err io_other)
  | None => (w, Ok (filter (fun p => is_child dir p = true) (map_to_list (d_files w)).*1))
  end.

(** [NEXT.fetch_add(1, Ordering::Relaxed)] *)
Definition d_fetch_add (q : process) (w : Disk) : Disk * Z :=
  let seq := wrap64 (calls w q) in
  ({| d_names := d_names w; d_inodes := d_inodes w; d_fresh := d_fresh w; d_io := d_io w;
      d_calls := <[q := calls w q + 1]> (d_calls w); d_trace := Drew q seq :: d_trace w |}, seq).

(** An inode has at most one name, and names lead to inodes. *)
Record disk_wf (w : Disk) : Prop := {
  wf_one_name : forall p q n, d_names w !! p = Some n -> d_names w !! q = Some n -> p = q;
  wf_inode : forall p n, d_names w !! p = Some n -> (n < d_fresh w)%nat /\ is_Some (d_inodes w !! n);
}.

(** [fs::write] outside the program under consideration: create or overwrite. *)
Definition put_file (w : Disk) (f : path * bytes) : Disk :=
  match d_names w !! f.1 with
  | Some n => set_inode w n f.2
  | None => set_inode (add_file f.1 w) (d_fresh w) f.2
  end.

Definition blank_disk (io : list (option nat)) : Disk :=
  {| d_names := ∅; d_inodes := ∅; d_fresh := 0; d_io := io; d_calls := ∅; d_trace := [] |}.

(** A disk with the given files. *)
Definition disk_of (files : list (path * bytes)) (io : list (option nat)) : Disk :=
  foldl put_file (blank_disk io) files.

Definition empty_disk : Disk := disk_of [] [].

(** ** What a process sees of it: the files of [Atomic] *)

Definition fs_of (q : process) (w : Disk) : Fs := {|
  fs_files := d_files w;
  fs_io := d_io w;
  fs_pid := q;
  fs_next := wrap64 (calls w q);
|}.

Lemma d_files_lookup w p : d_files w !! p = content w p.
Proof. unfold d_files. by rewrite lookup_omap. Qed.

Lemma content_name w p n : d_names w !! p = Some n -> content w p = d_inodes w !! n.
Proof. unfold content. by intros ->. Qed.
Lemma content_none w p : disk_wf w -> content w p = None <-> d_names w !! p = None.
Proof.
  intros Hwf. unfold content. destruct (d_names w !! p) as [n|] eqn:E; [|done].
  destruct (wf_inode _ Hwf _ _ E) as [_ [b Hb]]. cbn. rewrite Hb. done.
Qed.

(** ** Well-formedness *)

Lemma wf_add_file w p : disk_wf w -> d_names w !! p = None -> disk_wf (add_file p w).
Proof.
  intros Hwf Hp. split; cbn; intros t1 t2.
  - intros n [[<- <-]|[Hn1 H1]]%lookup_insert_Some [[<- Hn]|[Hn2 H2]]%lookup_insert_Some; [done|..].
    + apply (wf_inode _ Hwf) in H2 as [? _]. lia.
    + apply (wf_inode _ Hwf) in H1 as [? _]. lia.
    + by apply (wf_one_name _ Hwf _ _ n).
  - intros [[_ <-]|[_ H1]]%lookup_insert_Some; [split; [lia|]; by rewrite lookup_insert_eq|].
    apply (wf_inode _ Hwf) in H1 as [? ?]. split; [lia|]. by rewrite lookup_insert_ne by lia.
Qed.

Lemma wf_set_inode w n bs : disk_wf w -> disk_wf (set_inode w n bs).
Proof.
  intros Hwf. split; [apply (wf_one_name _ Hwf)|]. cbn. intros t k Hk.
  apply (wf_inode _ Hwf) in Hk as [? ?]. split; [done|]. rewrite lookup_insert_is_Some.
  destruct (decide (n = k)); naive_solver.
Qed.

Lemma wf_rename w a b n e : disk_wf w -> d_names w !! a = Some n ->
  disk_wf (set_names w (<[b := n]> (delete a (d_names w))) e).
Proof.
  intros Hwf Ha. split; cbn; intros t1 t2.
  - intros m [[<- <-]|[Hn1 [Ha1 H1]%lookup_delete_Some]]%lookup_insert_Some
      [[<- Hm]|[Hn2 [Ha2 H2]%lookup_delete_Some]]%lookup_insert_Some; [done|..].
    + by destruct Ha2; apply (wf_one_name _ Hwf _ _ n).
    + destruct Ha1. apply (wf_one_name _ Hwf _ _ n); congruence.
    + by apply (wf_one_name _ Hwf _ _ m).
  - intros [[_ <-]|[_ [_ H1]%lookup_delete_Some]]%lookup_insert_Some; by eapply (wf_inode _ Hwf).
Qed.

Lemma wf_remove w p e : disk_wf w -> disk_wf (set_names w (delete p (d_names w)) e).
Proof.
  intros Hwf. split; cbn; [intros t1 t2 m [_ H1]%lookup_delete_Some [_ H2]%lookup_delete_Some|
    intros t1 m [_ H1]%lookup_delete_Some]; [by apply (wf_one_name _ Hwf _ _ m)|by apply (wf_inode _ Hwf t1)].
Qed.

Lemma wf_blank io : disk_wf (blank_disk io).
Proof. split; [intros p q n|intros p n]; cbn; by rewrite lookup_empty. Qed.

Lemma wf_put_file w f : disk_wf w -> disk_wf (put_file w f).
Proof.
  intros Hwf. unfold put_file. destruct (d_names w !! f.1) as [n|] eqn:E; apply wf_set_inode; [done|by apply wf_add_file].
Qed.

Lemma disk_of_wf files io : disk_wf (disk_of files io).
Proof.
  unfold disk_of. generalize (wf_blank io). generalize (blank_disk io).
  induction files as [|f files IH]; intros w Hwf; [done|]. apply IH. by apply wf_put_file.
Qed.

Lemma disk_of_calls files io q : calls (disk_of files io) q = 0.
Proof.
  unfold disk_of. assert (calls (blank_disk io) q = 0) as H by done. revert H. generalize (blank_disk io).
  induction files as [|f files IH]; intros w H; [done|]. apply IH.
  unfold put_file. by destruct (d_names w !! f.1).
Qed.

(** ** Contents *)

Lemma content_add_file w t p : disk_wf w -> p <> t -> content (add_file t w) p = content w p.
Proof.
  intros Hwf Hp. unfold content. cbn. rewrite lookup_insert_ne by done.
  destruct (d_names w !! p) as [n|] eqn:E; [|done]. cbn.
  apply (wf_inode _ Hwf) in E as [? _]. by rewrite lookup_insert_ne by lia.
Qed.
Lemma content_set_inode w n bs p : d_names w !! p <> Some n -> content (set_inode w n bs) p = content w p.
Proof.
  intros Hp. unfold content. cbn. destruct (d_names w !! p) as [m|]; [|done]. cbn.
  by rewrite lookup_insert_ne by congruence.
Qed.
Lemma content_rename w a b n e p : p <> a ->
  content (set_names w (<[b := n]> (delete a (d_names w))) e) p = if decide (b = p) then d_inodes w !! n else content w p.
Proof.
  intros Ha. unfold content. cbn. case_decide as Hb; [subst; by rewrite lookup_insert_eq|].
  by rewrite lookup_insert_ne, lookup_delete_ne by done.
Qed.
Lemma content_remove w t e p :
  content (set_names w (delete t (d_names w)) e) p = if decide (t = p) then None else content w p.
Proof.
  unfold content. cbn. case_decide as Ht; [subst; by rewrite lookup_delete_eq|]. by rewrite lookup_delete_ne.
Qed.
