(* ===== verification/SharedCache.v ===== *)
(** * The cache directory shared by threads and processes (src/src/cache.rs)

    The publication and the cache operations of [Atomic] and [Cache] call by
    call, as [proc]s over the disk of [Disk]: what another thread or process
    does between two system calls is visible. [q] is the process a thread
    belongs to; threads of one process share its [NEXT].

    [fuel] bounds the search for a temporary name; it is enough if it is above
    the number of files at the start ([SharedProps]). *)

From S2P Require Import Prelude Fmt Utf8 Atomic Cache Proc Disk.

Section shared.
Variable fuel : nat.
Variable q : process.
Abbreviation proc := (proc Disk).

(** The [loop] that opens the temporary file: its name and the open file. *)
Fixpoint create_tmp_p (fuel : nat) (dir tmp : path) : proc (Result (path * inode) IoErr) :=
  match fuel with
  | O => Panic "no temporary name is free"
  | S fuel =>
      let! r := act (d_create_new tmp) in
      match r with
      | Ok file => Ret (Ok (tmp, file))
      | Err e =>
          match io_kind e with
          | AlreadyExists =>
              let! seq := act (d_fetch_add q) in
              create_tmp_p fuel dir (tmp_seq dir q seq)
          | _ => Ret (Err e)
          end
      end
  end.

Fixpoint write_parts_p (file : inode) (parts : list bytes) : proc (Result unit IoErr) :=
  match parts with
  | [] => Ret (Ok tt)
  | part :: parts =>
      let! r := act (d_write_all file part) in
      match r with Ok _ => write_parts_p file parts | Err e => Ret (Err e) end
  end.

(** [write_atomic_with]; [write] is the closure. *)
Definition write_atomic_with_p (p : path) (write : inode -> proc (Result unit IoErr))
  : proc (Result unit IoErr) :=
  let dir := parent p in
  let! opened := create_tmp_p fuel dir (tmp_first dir q) in
  match opened with
  | Err e => Ret (Err e)
  | Ok (tmp, file) =>
      let! written := write file in
      let! result := match written with Ok _ => act (d_rename tmp p) | Err e => Ret (Err e) end in
      match result with
      | Ok _ => Ret (Ok tt)
      | Err e => let! _ := act (d_remove_file tmp) in Ret (Err e)
      end
  end.

Definition write_atomic_p (p : path) (parts : list bytes) : proc (Result unit IoErr) :=
  write_atomic_with_p p (fun file => write_parts_p file parts).

(** A thread that publishes files, one after the other. *)
Fixpoint publish_all (jobs : list (path * list bytes)) : proc (list (Result unit IoErr)) :=
  match jobs with
  | [] => Ret []
  | (p, parts) :: jobs =>
      let! r := write_atomic_p p parts in
      let! rs := publish_all jobs in
      Ret (r :: rs)
  end.

(** ** Cache operations *)

Definition read_checked_p (p : path) (max_payload : Z) : proc (option bytes) :=
  match checked_add max_payload HEADER with
  | None => Ret None
  | Some limit =>
      let! opened := act (d_open p) in
      match opened with
      | Err _ => Ret None
      | Ok file =>
          let! len := act (d_len file) in
          match len with
          | Err _ => Ret None
          | Ok len =>
              if limit <? len then Ret None else
              let! data := act (d_read_at_most file (wrapping_add limit 1)) in
              match data with
              | Err _ => Ret None
              | Ok data => Ret (if limit <? zlen data then None else unframe data)
              end
          end
      end
  end.

Definition load_p (c : Cache) (p : path) (key : bytes) (max_data : Z) : proc (option bytes) :=
  match c_identity c with
  | None => Ret None
  | Some identity =>
      match a ← checked_add (zlen identity) 8; b ← checked_add a (zlen key); checked_add b max_data with
      | None => Ret None
      | Some max_payload =>
          let! data := read_checked_p p max_payload in
          Ret (data ≫= parse_record identity key)
      end
  end.

Definition load_snapshot_p (c : Cache) (key : string) (max_bytes : Z) : proc (option bytes) :=
  match c_identity c with
  | None => Ret None
  | Some _ => load_p c (snap_path c key) (as_bytes key) max_bytes
  end.

Definition load_wal_p (c : Cache) (max_bytes : Z) : proc (option (string * bytes)) :=
  match c_identity c with
  | None => Ret None
  | Some _ =>
      match checked_add max_bytes (2 + U16_MAX) with
      | None => Ret None
      | Some max_data =>
          let! data := load_p c (wal_path c) (as_bytes "wal") max_data in
          Ret (data ≫= parse_wal max_bytes)
      end
  end.

Definition save_p (c : Cache) (p : path) (key : bytes) (fields : list bytes) (body : bytes) : proc unit :=
  match c_identity c with
  | None => Ret tt
  | Some identity =>
      match sum_checked 0 ([HEADER; zlen identity; 8; zlen key] ++ (zlen <$> fields)) with
      | None => Ret tt
      | Some prefix_len =>
          match checked_add (prefix_len - HEADER) (zlen body) with
          | None => Ret tt
          | Some payload_len =>
              let! _ := write_atomic_p p [frame_prefix identity key fields body payload_len; body] in
              Ret tt
          end
      end
  end.

Definition save_wal_p (c : Cache) (etag : string) (image : bytes) : proc unit :=
  match c_identity c with
  | None => Ret tt
  | Some _ =>
      if U16_MAX <? str_len etag then Ret tt
      else save_p c (wal_path c) (as_bytes "wal") [to_le_bytes 2 (str_len etag); as_bytes etag] image
  end.

Definition save_snapshot_p (c : Cache) (key : string) (data : bytes) : proc unit :=
  match c_identity c with
  | None => Ret tt
  | Some _ => save_p c (snap_path c key) (as_bytes key) [] data
  end.

Definition remove_snapshot_p (c : Cache) (key : string) : proc unit :=
  match c_identity c with
  | None => Ret tt
  | Some _ => let! _ := act (d_remove_file (snap_path c key)) in Ret tt
  end.

(** The body of [retain_snapshot]'s loop over the directory's entries. *)
Fixpoint sweep_p (keep : option path) (entries : list path) : proc unit :=
  match entries with
  | [] => Ret tt
  | p :: entries =>
      if is_snap_file p && negb (bool_decide (Some p = keep)) then
        let! _ := act (d_remove_file p) in sweep_p keep entries
      else sweep_p keep entries
  end.

Definition retain_snapshot_p (c : Cache) (keep : option string) : proc unit :=
  match c_identity c with
  | None => Ret tt
  | Some _ =>
      let! entries := act (d_read_dir (c_dir c)) in
      match entries with
      | Err _ => Ret tt
      | Ok entries => sweep_p (snap_path c <$> keep) entries
      end
  end.

(** ** Threads that use a cache *)

Inductive CacheOp : Type :=
  | SaveWal (etag : string) (image : bytes) | SaveSnapshot (key : string) (data : bytes)
  | LoadWal (max_bytes : Z) | LoadSnapshot (key : string) (max_bytes : Z)
  | RemoveSnapshot (key : string) | RetainSnapshot (keep : option string).

(** A hit of a load: the key and the data of the record. *)
Inductive Hit : Type := HitWal (etag : string) (image : bytes) | HitSnapshot (key : string) (data : bytes).

Definition run_cache_op (c : Cache) (o : CacheOp) : proc (list Hit) :=
  match o with
  | SaveWal etag image => let! _ := save_wal_p c etag image in Ret []
  | SaveSnapshot key data => let! _ := save_snapshot_p c key data in Ret []
  | LoadWal max =>
      let! r := load_wal_p c max in
      Ret (match r with Some (etag, image) => [HitWal etag image] | None => [] end)
  | LoadSnapshot key max =>
      let! r := load_snapshot_p c key max in
      Ret (match r with Some data => [HitSnapshot key data] | None => [] end)
  | RemoveSnapshot key => let! _ := remove_snapshot_p c key in Ret []
  | RetainSnapshot keep => let! _ := retain_snapshot_p c keep in Ret []
  end.

Fixpoint cache_thread (c : Cache) (os : list CacheOp) : proc (list Hit) :=
  match os with
  | [] => Ret []
  | o :: os => let! hits := run_cache_op c o in let! more := cache_thread c os in Ret (hits ++ more)
  end.

End shared.
