(* ===== verification/SharedAlone.v ===== *)
(** * The shared cache of one undisturbed thread

    Run without interference, the call-by-call operations of [SharedCache] are
    the atomic ones of [Atomic] and [Cache], under every sequence of faults. *)

From S2P Require Import Prelude Fmt Utf8 Atomic AtomicProps Cache Proc Disk SharedCache.

Section alone.
Variable q : process.
Abbreviation fs_of := (fs_of q).
Implicit Types (w : Disk).

(** ** One call *)

Lemma d_draw_fs w : draw (fs_of w) = ((d_draw w).1, fs_of (d_draw w).2).
Proof. unfold draw, d_draw. cbn. by destruct (d_io w). Qed.

(** A call changed the disk as [Atomic] says. *)
Definition sim {A} (w' : Disk) (r : A) (x : Fs * A) : Prop := x = (fs_of w', r) /\ disk_wf w'.

Lemma d_draw_wf w : disk_wf w -> disk_wf (d_draw w).2.
Proof. intros [H1 H2]. unfold d_draw. destruct (d_io w); by constructor. Qed.

Lemma fs_of_set_files w m w' :
  d_files w' = m -> d_io w' = d_io w -> d_calls w' = d_calls w -> set_files (fs_of w) m = fs_of w'.
Proof. intros <- Hio Hc. unfold set_files, Disk.fs_of, calls. cbn. by rewrite Hio, Hc. Qed.

Lemma d_files_fresh w p n bs : disk_wf w -> n = d_fresh w ->
  omap (fun k => <[n := bs]> (d_inodes w) !! k) (<[p := n]> (d_names w)) = <[p := bs]> (d_files w).
Proof.
  intros Hwf ->. apply map_eq. intros t. rewrite lookup_omap. unfold d_files. destruct (decide (p = t)) as [->|Hne].
  - rewrite !lookup_insert_eq. cbn. by rewrite lookup_insert_eq.
  - rewrite !lookup_insert_ne, lookup_omap by done. destruct (d_names w !! t) as [k|] eqn:E; [|done]. cbn.
    apply (wf_inode _ Hwf) in E as [Hk _]. rewrite lookup_insert_ne by lia. done.
Qed.

Lemma d_files_write w p n bs : disk_wf w -> d_names w !! p = Some n ->
  d_files (set_inode w n bs) = <[p := bs]> (d_files w).
Proof.
  intros Hwf Hp. apply map_eq. intros t. unfold d_files at 1. cbn. rewrite lookup_omap. unfold d_files. destruct (decide (p = t)) as [->|Hne].
  - rewrite lookup_insert_eq, Hp. cbn. by rewrite lookup_insert_eq.
  - rewrite lookup_insert_ne, lookup_omap by done. destruct (d_names w !! t) as [k|] eqn:E; [|done]. cbn.
    rewrite lookup_insert_ne; [done|]. intros ->. by apply Hne, (wf_one_name _ Hwf _ _ _ Hp E).
Qed.

Lemma d_files_rename w a b n bs e : d_inodes w !! n = Some bs ->
  d_files (set_names w (<[b := n]> (delete a (d_names w))) e) = <[b := bs]> (delete a (d_files w)).
Proof.
  intros Hn. unfold d_files. cbn. by rewrite (omap_insert_Some _ _ _ _ bs), omap_delete by done.
Qed.

Lemma d_create_new_sim p w w' r : disk_wf w -> d_create_new p w = (w', r) ->
  (exists x, create_new p (fs_of w) = (fs_of w', x) /\ disk_wf w' /\
    match x, r with Ok _, Ok n => d_names w' !! p = Some n | Err e, Err e' => e = e' | _, _ => False end).
Proof.
  intros Hwf%d_draw_wf. unfold d_create_new, create_new. rewrite d_draw_fs. cbn [fst snd].
  destruct (d_draw w) as [[k|] w1]; cbn [fst snd] in *; [intros [= <- <-]; by eexists|].
  cbn [fs_files]. change (fs_files (fs_of w1)) with (d_files w1). rewrite d_files_lookup. unfold content.
  destruct (d_names w1 !! p) as [n|] eqn:En.
  - destruct (wf_inode _ Hwf _ _ En) as [_ [b Hb]]. cbn. rewrite Hb. intros [= <- <-]. by eexists.
  - cbn. intros [= <- <-]. exists (Ok tt). split_and!.
    + f_equal. apply fs_of_set_files; [|done..]. by apply d_files_fresh.
    + by apply wf_add_file.
    + cbn. by rewrite lookup_insert_eq.
Qed.

Lemma d_write_all_sim p n bs w w' r : disk_wf w -> d_names w !! p = Some n -> d_write_all n bs w = (w', r) ->
  sim w' r (write_all p bs (fs_of w)) /\ d_names w' = d_names w.
Proof.
  intros Hwf Hp. assert (d_names (d_draw w).2 = d_names w) as Hnm by (unfold d_draw; by destruct (d_io w)).
  apply d_draw_wf in Hwf. unfold d_write_all, write_all, sim. rewrite d_draw_fs.
  destruct (d_draw w) as [f w1]; cbn [fst snd] in *. rewrite <- Hnm in Hp.
  change (fs_files (fs_of w1)) with (d_files w1). rewrite d_files_lookup, (content_name _ _ _ Hp).
  set (old := default [] _).
  assert (forall x, set_files (fs_of w1) (<[p := x]> (d_files w1)) = fs_of (set_inode w1 n x)
    /\ disk_wf (set_inode w1 n x)) as Hx.
  { intros x. split; [apply fs_of_set_files; [by apply d_files_write|done..]|].
    by apply wf_set_inode. }
  destruct f as [k|]; intros [= <- <-]; (split; [|done]); edestruct Hx as [-> ?]; by split.
Qed.

Lemma d_rename_sim a b w w' r : disk_wf w -> d_rename a b w = (w', r) -> sim w' r (rename a b (fs_of w)).
Proof.
  intros Hwf%d_draw_wf. unfold d_rename, rename, sim. rewrite d_draw_fs.
  destruct (d_draw w) as [[k|] w1]; cbn [fst snd] in *; [by intros [= <- <-]|].
  change (fs_files (fs_of w1)) with (d_files w1). rewrite d_files_lookup. unfold content.
  destruct (d_names w1 !! a) as [n|] eqn:En; cbn; [|by intros [= <- <-]].
  destruct (wf_inode _ Hwf _ _ En) as [Hn [x Hx]]. rewrite Hx. intros [= <- <-]. split.
  - f_equal. apply fs_of_set_files; [by apply d_files_rename|done..].
  - by apply wf_rename.
Qed.

Lemma d_remove_file_sim p w w' r : disk_wf w -> d_remove_file p w = (w', r) -> sim w' r (remove_file p (fs_of w)).
Proof.
  intros Hwf%d_draw_wf. unfold d_remove_file, remove_file, sim. rewrite d_draw_fs.
  destruct (d_draw w) as [[k|] w1]; cbn [fst snd] in *; [by intros [= <- <-]|].
  change (fs_files (fs_of w1)) with (d_files w1). rewrite d_files_lookup. unfold content.
  destruct (d_names w1 !! p) as [n|] eqn:En; cbn; [|by intros [= <- <-]].
  destruct (wf_inode _ Hwf _ _ En) as [Hn [x Hx]]. rewrite Hx. intros [= <- <-]. split.
  - f_equal. apply fs_of_set_files; [|done..]. unfold d_files. cbn. by rewrite omap_delete.
  - by apply wf_remove.
Qed.

(** ** Publication *)

(** Run alone, [p] does what [f] does to the files. *)
Definition implements {A} (p : proc Disk A) (f : Fs -> Fs * A) w : Prop :=
  exists w', disk_wf w' /\ run p w = Some (w', Returned (f (fs_of w)).2) /\ fs_of w' = (f (fs_of w)).1.

Lemma create_tmp_mono n m dir tmp fs x : (n <= m)%nat ->
  create_tmp n dir tmp fs = Some x -> create_tmp m dir tmp fs = Some x.
Proof.
  revert m tmp fs. induction n as [|n IH]; intros m tmp fs Hm; [done|]. destruct m as [|m]; [lia|].
  cbn [create_tmp]. destruct (create_new tmp fs) as [fs1 [|e]]; [done|].
  destruct (io_kind e); [|done..]. apply IH. lia.
Qed.

Lemma create_tmp_alone n dir tmp w fs' x : disk_wf w -> create_tmp n dir tmp (fs_of w) = Some (fs', x) ->
  exists w', disk_wf w' /\ fs_of w' = fs' /\
    match x with
    | Err e => run (create_tmp_p q n dir tmp) w = Some (w', Returned (Err e))
    | Ok t => exists file, run (create_tmp_p q n dir tmp) w = Some (w', Returned (Ok (t, file)))
        /\ d_names w' !! t = Some file
    end.
Proof.
  revert tmp w. induction n as [|n IH]; intros tmp w Hwf H; [done|]. cbn [create_tmp create_tmp_p run bind act] in *.
  destruct (d_create_new tmp w) as [w1 r] eqn:E. apply d_create_new_sim in E as (y & Hy & Hwf1 & Hr); [|done].
  rewrite Hy in H. destruct y as [[]|e], r as [file|e']; [|done..|].
  - injection H as <- <-. exists w1. cbn. eauto 6.
  - subst e'. destruct (io_kind e) eqn:Ek.
    2,3: injection H as <- <-; by exists w1.
    set (w2 := (d_fetch_add q w1).1).
    assert (fs_of w2 = {| fs_files := fs_files (fs_of w1); fs_io := fs_io (fs_of w1); fs_pid := fs_pid (fs_of w1);
      fs_next := wrapping_add (fs_next (fs_of w1)) 1 |}) as Hw2.
    { unfold w2, d_fetch_add, Disk.fs_of, calls. cbn. rewrite lookup_insert_eq. cbn. f_equal.
      unfold wrapping_add, wrap64. by rewrite Zplus_mod_idemp_l. }
    rewrite <- Hw2 in H. cbn [run]. fold w2.
    apply IH in H; [exact H|]. destruct Hwf1. by split.
Qed.

Lemma write_parts_alone t file parts w : disk_wf w -> d_names w !! t = Some file ->
  implements (write_parts_p file parts) (write_parts t parts) w.
Proof.
  revert w. induction parts as [|part parts IH]; intros w Hwf Ht; [by exists w|].
  unfold implements. cbn [write_parts write_parts_p run bind act].
  destruct (d_write_all file part w) as [w1 r] eqn:E. apply (d_write_all_sim t) in E as [[-> Hwf1] Hn]; [|done..].
  cbn [bind run]. destruct r as [|e]; [|by exists w1]. apply IH; [done|]. by rewrite Hn.
Qed.

Lemma write_parts_names file parts w w' r : run (write_parts_p file parts) w = Some (w', Returned r) -> d_names w' = d_names w.
Proof.
  revert w. induction parts as [|part parts IH]; intros w; cbn [write_parts_p run bind act]; [by intros [= <- _]|].
  destruct (d_write_all file part w) as [w1 s] eqn:E.
  assert (d_names w1 = d_names w) as <-.
  { unfold d_write_all, d_draw in E. destruct (d_io w) as [|[k|] io]; by injection E as <- <-. }
  cbn [bind run]. destruct s; [apply IH|]. by intros [= <- _].
Qed.

Lemma run_act {A B} (f : Disk -> Disk * A) (k : A -> proc Disk B) w :
  run (bind (act f) k) w = let (w', r) := f w in run (k r) w'.
Proof. cbn. by destruct (f w). Qed.

Variable fuel : nat.
Definition roomy w : Prop := (2 + size (d_files w) <= fuel)%nat /\ Z.of_nat fuel < 2 ^ 64.

(** What follows the creation of the temporary file. *)
Lemma finish_alone p t file parts w : disk_wf w -> d_names w !! t = Some file ->
  implements
    (let! written := write_parts_p file parts in
     let! result := match written with Ok _ => act (d_rename t p) | Err e => Ret (Err e) end in
     match result with
     | Ok _ => Ret (Ok tt)
     | Err e => let! _ := act (d_remove_file t) in Ret (Err e)
     end)
    (fun fs =>
      let '(fs, result) :=
        match write_parts t parts fs with
        | (fs, Ok _) => rename t p fs
        | (fs, Err e) => (fs, Err e)
        end in
      match result with
      | Ok _ => (fs, Ok tt)
      | Err e => ((remove_file t fs).1, Err e)
      end) w.
Proof.
  intros Hwf Ht. destruct (write_parts_alone t file parts w Hwf Ht) as (w1 & Hwf1 & Hr1 & Hf1).
  unfold implements. rewrite run_bind, Hr1.
  destruct (write_parts t parts (fs_of w)) as [fs1 r1]. cbn [fst snd] in *. subst fs1.
  assert (forall e w2, disk_wf w2 -> exists w', disk_wf w' /\
    run (let! _ := act (d_remove_file t) in Ret (@Err unit IoErr e)) w2 = Some (w', Returned (Err e))
    /\ fs_of w' = (remove_file t (fs_of w2)).1) as Hrm.
  { intros e w2 Hwf2. rewrite run_act. destruct (d_remove_file t w2) as [w3 r3] eqn:E3.
    apply d_remove_file_sim in E3 as [-> Hwf3]; [|done]. by exists w3. }
  destruct r1 as [[]|e]; cbn [bind]; [|by apply Hrm].
  rewrite run_act. destruct (d_rename t p w1) as [w2 r2] eqn:E2. apply d_rename_sim in E2 as [-> Hwf2]; [|done].
  destruct r2 as [[]|e]; [by exists w2|by apply Hrm].
Qed.

Lemma write_atomic_alone p parts w : disk_wf w -> roomy w ->
  implements (write_atomic_p fuel q p parts) (write_atomic p parts) w.
Proof.
  intros Hwf [Hs Hf].
  destruct (create_tmp_total (parent p) (fs_of w)) as [[fs1 x] Hc]; [apply wrap64_range|cbn; lia|].
  pose proof (create_tmp_mono _ fuel _ _ _ _ Hs Hc) as Hc2.
  apply create_tmp_alone in Hc2 as (w1 & Hwf1 & Hf1 & Hrun); [|done].
  unfold implements, write_atomic_p, write_atomic_with_p, write_atomic, write_atomic_with.
  change (fs_pid (fs_of w)) with q in *.
  rewrite Hc, run_bind. subst fs1. destruct x as [t|e]; [|rewrite Hrun; by exists w1].
  destruct Hrun as (file & -> & Ht). cbn beta iota.
  exact (finish_alone p t file parts w1 Hwf1 Ht).
Qed.

(** ** Cache operations *)

Lemma d_read_sim p w : disk_wf w ->
  exists w1, d_draw w = ((d_draw w).1, w1) /\ disk_wf w1 /\ d_names w1 = d_names w /\ d_inodes w1 = d_inodes w
    /\ read_file p (fs_of w) = (fs_of w1,
         match (d_draw w).1, content w p with
         | Some _, _ => Err io_other | None, None => Err io_not_found | None, Some b => Ok b end).
Proof.
  intros Hwf%d_draw_wf. exists (d_draw w).2. unfold read_file. rewrite d_draw_fs. split; [by destruct (d_draw w)|].
  assert (d_names (d_draw w).2 = d_names w /\ d_inodes (d_draw w).2 = d_inodes w) as [Hn Hi]
    by (unfold d_draw; by destruct (d_io w)).
  split_and!; [done..|]. change (fs_files (fs_of ?x)) with (d_files x). rewrite d_files_lookup.
  unfold content. rewrite Hn, Hi. by destruct (d_draw w) as [[]], (_ ≫= _).
Qed.

Lemma read_checked_alone p max w : disk_wf w -> implements (read_checked_p p max) (read_checked p max) w.
Proof.
  intros Hwf. unfold implements, read_checked_p, read_checked, file_len, read_at_most.
  destruct (checked_add max HEADER) as [limit|]; [|by exists w].
  destruct (d_read_sim p w Hwf) as (w1 & Hd1 & Hwf1 & Hn1 & Hi1 & ->).
  rewrite run_act. unfold d_open. rewrite Hd1. destruct (d_draw w).1; [by exists w1|].
  unfold content. rewrite Hn1. destruct (d_names w !! p) as [n|] eqn:En; cbn; [|by exists w1].
  destruct (wf_inode _ Hwf _ _ En) as [_ [b Hb]]. rewrite Hb.
  destruct (d_read_sim p w1 Hwf1) as (w2 & Hd2 & Hwf2 & Hn2 & Hi2 & ->).
  unfold d_len. rewrite Hd2. unfold content. rewrite Hn1, Hi1, En. cbn. rewrite Hb.
  destruct (d_draw w1).1; [by exists w2|]. rewrite Hi2, Hi1, Hb. cbn [default from_option id].
  destruct (limit <? zlen b); [by exists w2|].
  destruct (d_read_sim p w2 Hwf2) as (w3 & Hd3 & Hwf3 & Hn3 & Hi3 & ->).
  cbn [run bind act]. unfold d_read_at_most. rewrite Hd3. unfold content. rewrite Hn2, Hn1, Hi2, Hi1, En. cbn. rewrite Hb.
  destruct (d_draw w2).1; [by exists w3|]. rewrite Hi3, Hi2, Hi1, Hb. cbn [default from_option id].
  exists w3. by destruct (limit <? _).
Qed.

(** The same for code without a result. *)
Definition implements_ {A} (p : proc Disk A) (f : Fs -> Fs) w : Prop :=
  exists w' r, disk_wf w' /\ run p w = Some (w', Returned r) /\ fs_of w' = f (fs_of w).

Lemma load_alone c p key max w : disk_wf w -> implements (load_p c p key max) (load c p key max) w.
Proof.
  intros Hwf. unfold implements, load_p, load. destruct (c_identity c) as [id|]; [|by exists w].
  destruct (_ ≫= _) as [mp|]; [|by exists w]. rewrite run_bind.
  destruct (read_checked_alone p mp w Hwf) as (w1 & Hwf1 & -> & Hf).
  destruct (read_checked p mp _) as [fs1 o]. cbn in *. by exists w1.
Qed.

Lemma save_alone c p key fields body w : disk_wf w -> roomy w ->
  implements_ (save_p fuel q c p key fields body) (save c p key fields body) w.
Proof.
  intros Hwf Hr. unfold implements_, save_p, save. destruct (c_identity c) as [id|]; [|by exists w, tt].
  destruct (sum_checked _ _) as [pl|]; [|by exists w, tt].
  destruct (checked_add _ _) as [n|]; [|by exists w, tt].
  destruct (write_atomic_alone p [frame_prefix id key fields body n; body] w Hwf Hr) as (w' & Hwf' & Hrun & Hf).
  exists w', tt. split; [done|]. by rewrite run_bind, Hrun.
Qed.

Lemma sweep_alone keep entries w : disk_wf w ->
  implements_ (sweep_p keep entries)
    (fun fs => fold_left (fun fs p =>
       if is_snap_file p && negb (bool_decide (Some p = keep)) then (remove_file p fs).1 else fs) entries fs) w.
Proof.
  revert w. induction entries as [|p entries IH]; intros w Hwf; [by exists w, tt|].
  unfold implements_. cbn [sweep_p fold_left]. destruct (_ && _); [|by apply IH].
  rewrite run_act. destruct (d_remove_file p w) as [w1 r] eqn:E.
  apply d_remove_file_sim in E as [-> Hwf1]; [|done]. by apply IH.
Qed.

Lemma retain_alone c keep w : disk_wf w -> implements_ (retain_snapshot_p c keep) (retain_snapshot c keep) w.
Proof.
  intros Hwf. unfold implements_, retain_snapshot_p, retain_snapshot. destruct (c_identity c); [|by exists w, tt].
  apply d_draw_wf in Hwf. rewrite run_act. unfold d_read_dir, read_dir. rewrite d_draw_fs.
  destruct (d_draw w) as [[k|] w1]; cbn [fst snd] in *; [by exists w1, tt|]. by apply sweep_alone.
Qed.

Definition cache_op (c : Cache) (o : CacheOp) (fs : Fs) : Fs * list Hit :=
  match o with
  | SaveWal etag image => (save_wal c etag image fs, [])
  | SaveSnapshot key data => (save_snapshot c key data fs, [])
  | LoadWal max =>
      let '(fs, r) := load_wal c max fs in
      (fs, match r with Some (etag, image) => [HitWal etag image] | None => [] end)
  | LoadSnapshot key max =>
      let '(fs, r) := load_snapshot c key max fs in
      (fs, match r with Some data => [HitSnapshot key data] | None => [] end)
  | RemoveSnapshot key => (remove_snapshot c key fs, [])
  | RetainSnapshot keep => (retain_snapshot c keep fs, [])
  end.

Lemma implements_hits {A} (p : proc Disk A) f w : implements_ p f w ->
  implements (let! _ := p in Ret (@nil Hit)) (fun fs => (f fs, [])) w.
Proof. intros (w' & r & Hwf & Hrun & Hf). exists w'. split; [done|]. by rewrite run_bind, Hrun. Qed.

Lemma save_wal_alone c etag image w : disk_wf w -> roomy w ->
  implements_ (save_wal_p fuel q c etag image) (save_wal c etag image) w.
Proof.
  intros Hwf Hr. unfold implements_, save_wal_p, save_wal. destruct (c_identity c); [|by exists w, tt].
  destruct (_ <? _); [by exists w, tt|]. by apply save_alone.
Qed.

Lemma load_wal_alone c max w : disk_wf w -> implements (load_wal_p c max) (load_wal c max) w.
Proof.
  intros Hwf. unfold implements, load_wal_p, load_wal. destruct (c_identity c); [|by exists w].
  destruct (checked_add _ _) as [md|]; [|by exists w].
  destruct (load_alone c (wal_path c) (as_bytes "wal") md w Hwf) as (w1 & Hwf1 & Hrun & Hf).
  rewrite run_bind, Hrun. destruct (load c _ _ _ _) as [fs1 o]. cbn in *. by exists w1.
Qed.

Lemma remove_alone c key w : disk_wf w -> implements_ (remove_snapshot_p c key) (remove_snapshot c key) w.
Proof.
  intros Hwf. unfold implements_, remove_snapshot_p, remove_snapshot. destruct (c_identity c); [|by exists w, tt].
  rewrite run_act. destruct (d_remove_file _ w) as [w1 r] eqn:E.
  apply d_remove_file_sim in E as [-> Hwf1]; [|done]. by exists w1, tt.
Qed.

Lemma op_alone c o w : disk_wf w -> roomy w -> implements (run_cache_op fuel q c o) (cache_op c o) w.
Proof.
  intros Hwf Hr. destruct o as [etag image|key data|max|key max|key|keep]; cbn [run_cache_op].
  - by apply implements_hits, save_wal_alone.
  - apply implements_hits. unfold implements_, save_snapshot_p, save_snapshot.
    destruct (c_identity c); [|by exists w, tt]. by apply save_alone.
  - destruct (load_wal_alone c max w Hwf) as (w1 & Hwf1 & Hrun & Hf). exists w1. unfold cache_op.
    rewrite run_bind, Hrun. by destruct (load_wal c max _).
  - unfold implements, cache_op, load_snapshot_p, load_snapshot. destruct (c_identity c) as [id|] eqn:Ei; [|by exists w].
    destruct (load_alone c (snap_path c key) (as_bytes key) max w Hwf) as (w1 & Hwf1 & Hrun & Hf).
    exists w1. rewrite run_bind, Hrun. by destruct (load c _ _ _ _).
  - by apply implements_hits, remove_alone.
  - by apply implements_hits, retain_alone.
Qed.

End alone.

(** Call by call, alone, is atomic. Run without interference from any
    well-formed disk and under any sequence of faults, the system calls of a
    cache operation, over inodes, entries and the process's counter, always
    return, with the result and the files that the operation of [Cache] gives
    in one step, so the theorems about those hold of the calls. *)
Theorem cache_calls_implement_operations q fuel c o w :
  disk_wf w -> (2 + size (d_files w) <= fuel)%nat -> Z.of_nat fuel < 2 ^ 64 ->
  exists w', disk_wf w'
    /\ run (run_cache_op fuel q c o) w = Some (w', Returned (cache_op c o (fs_of q w)).2)
    /\ fs_of q w' = (cache_op c o (fs_of q w)).1.
Proof. intros Hwf Hs Hf. by apply (op_alone q fuel c o w Hwf). Qed.

(** A stale temporary file has the preferred name, and the first write tears. *)
Definition stale_disk : Disk :=
  disk_of [(["c"; ".waltier-7.tmp"], as_bytes "another writer")] [None; None; Some 3%nat].

Lemma cache_calls_implement_operations_witness :
  exists w', disk_wf w'
    /\ run (run_cache_op 5 0 test_cache (SaveWal "e" [x01])) stale_disk
       = Some (w', Returned (cache_op test_cache (SaveWal "e" [x01]) (fs_of 0 stale_disk)).2)
    /\ fs_of 0 w' = (cache_op test_cache (SaveWal "e" [x01]) (fs_of 0 stale_disk)).1.
Proof.
  apply (cache_calls_implement_operations 0 5 test_cache (SaveWal "e" [x01]) stale_disk).
  - apply disk_of_wf.
  - by vm_compute; lia.
  - by vm_compute.
Defined.
