(* ===== verification/SharedInv.v ===== *)
(** * The invariant of a shared cache directory

    The observer attributes every recorded call to its thread. From that, the
    owner of every temporary file and the visible effects (publications and
    removals) of every thread follow. [dinv] is the invariant, [drel i] what
    other threads may do from the point of view of thread [i]. *)

From S2P Require Import Prelude Fmt Atomic AtomicProps Cache CacheProps Proc Disk SharedCache.

(** ** Temporary names *)

Definition tmp_file (p : path) : bool :=
  match last p with Some name => String.prefix ".waltier-" name | None => false end.

Lemma prefix_of_app s u : String.prefix s (s +:+ u) = true.
Proof.
  induction s as [|c s IH]; [by destruct u|].
  change (String c s +:+ u) with (String c (s +:+ u)). cbn [String.prefix].
  by destruct (Ascii.ascii_dec c c).
Qed.
Lemma tmp_seq_file dir pid k : tmp_file (tmp_seq dir pid k) = true.
Proof. unfold tmp_file, tmp_seq. rewrite last_snoc. apply prefix_of_app. Qed.
Lemma tmp_first_file dir pid : tmp_file (tmp_first dir pid) = true.
Proof. unfold tmp_file, tmp_first. rewrite last_snoc. apply prefix_of_app. Qed.

Lemma tmp_seq_inj dir dir' pid pid' k k' : is_u64 pid -> is_u64 pid' -> is_u64 k -> is_u64 k' ->
  tmp_seq dir pid k = tmp_seq dir' pid' k' -> pid = pid' /\ k = k'.
Proof.
  intros Hp Hp' Hk Hk' [_ H%string_app_inj_l]%app_inj_tail.
  apply split_at_sep in H as (H1 & _ & H); [|apply dec_forallb..|done|done].
  apply split_at_sep in H as (H2 & _); [|apply dec_forallb..|done|done].
  by apply dec_inj in H1 as ->, H2 as ->.
Qed.

Lemma tmp_first_seq dir dir' pid pid' k : tmp_first dir pid <> tmp_seq dir' pid' k.
Proof.
  intros [_ H%string_app_inj_l]%app_inj_tail.
  by apply split_at_sep in H as (_ & ? & _); [|apply dec_forallb..|done|done].
Qed.

(** ** What the observer records *)

Abbreviation Trace := (list (nat * Event)).

Definition new_events (w w' : Disk) : list Event :=
  rev (take (length (d_trace w') - length (d_trace w)) (d_trace w')).
Definition observe (i : nat) (g : Trace) (w w' : Disk) : Trace := g ++ (pair i <$> new_events w w').

Lemma observe_none i g w w' : d_trace w' = d_trace w -> observe i g w w' = g.
Proof. intros H. unfold observe, new_events. by rewrite H, Nat.sub_diag, app_nil_r. Qed.
Lemma observe_one i g w w' e : d_trace w' = e :: d_trace w -> observe i g w w' = g ++ [(i, e)].
Proof.
  intros H. unfold observe, new_events. rewrite H. cbn [length].
  by replace (S _ - _)%nat with 1%nat by lia.
Qed.

(** Who created the temporary files that still have their names. *)
Definition own_step (m : gmap path nat) (e : nat * Event) : gmap path nat :=
  match e.2 with
  | Created p => <[p := e.1]> m
  | Renamed a _ _ => delete a m
  | Removed p => delete p m
  | Drew _ _ => m
  end.
Definition owners (g : Trace) : gmap path nat := fold_left own_step g ∅.

(** An effect: a thread gave a visible name a content, or removed it. *)
Abbreviation Effect := (nat * path * option bytes)%type.
Definition effect (e : nat * Event) : option Effect :=
  match e.2 with
  | Renamed _ b c => Some (e.1, b, Some c)
  | Removed p => if tmp_file p then None else Some (e.1, p, None)
  | _ => None
  end.
Definition effects (g : Trace) : list Effect := omap effect g.
Definition effects_of (i : nat) (g : Trace) : list Effect := filter (fun x => x.1.1 = i) (effects g).

(** The content of [p] after some effects. *)
Definition latest (d0 : Disk) (fx : list Effect) (p : path) : option bytes :=
  fold_left (fun o x => if bool_decide (x.1.2 = p) then x.2 else o) fx (content d0 p).

#[global] Arguments owners : simpl never.
#[global] Arguments effects : simpl never.

Lemma owners_snoc g e : owners (g ++ [e]) = own_step (owners g) e.
Proof. apply fold_left_app. Qed.
Lemma effects_app g g' : effects (g ++ g') = effects g ++ effects g'.
Proof. apply omap_app. Qed.
Lemma effects_of_app i g g' : effects_of i (g ++ g') = effects_of i g ++ effects_of i g'.
Proof. unfold effects_of. by rewrite effects_app, filter_app. Qed.
Lemma latest_app d0 fx fy p : latest d0 (fx ++ fy) p = fold_left (fun o x => if bool_decide (x.1.2 = p) then x.2 else o) fy (latest d0 fx p).
Proof. apply fold_left_app. Qed.

Lemma effects_snoc g e : effects (g ++ [e]) = effects g ++ match effect e with Some x => [x] | None => [] end.
Proof. rewrite effects_app. unfold effects at 2. cbn [omap list_omap]. by destruct (effect e). Qed.
Lemma effects_of_own i g e :
  effects_of i (g ++ [(i, e)]) = effects_of i g ++ match effect (i, e) with Some x => [x] | None => [] end.
Proof.
  unfold effects_of. rewrite effects_snoc, filter_app. f_equal. unfold effect. cbn.
  destruct e as [| |? ? ?|p]; [done..| |destruct (tmp_file p); [done|]]; by rewrite filter_cons_True.
Qed.

Lemma effects_of_others i g g' : Forall (fun e => e.1 <> i) g' -> effects_of i (g ++ g') = effects_of i g.
Proof.
  intros H. rewrite effects_of_app. enough (effects_of i g' = []) as -> by by rewrite app_nil_r.
  unfold effects_of, effects. induction H as [|e g' He _ IH]; [done|]. cbn [omap list_omap].
  destruct (effect e) as [x|] eqn:Ee; [|done]. rewrite filter_cons_False; [done|].
  unfold effect in Ee. destruct (e.2); [done..| |destruct (tmp_file p); [done|]]; by injection Ee as <-.
Qed.

(** The last effect on a path decides what it holds. *)
Lemma latest_cases d0 fx p : latest d0 fx p = content d0 p \/ exists i, (i, p, latest d0 fx p) ∈ fx.
Proof.
  induction fx as [|[[i t] x] fx IH] using rev_ind; [by left|]. rewrite latest_app. cbn.
  case_bool_decide as Ht; [subst t; right; exists i|destruct IH as [IH|[j IH]]; [by left|right; exists j]]; set_solver.
Qed.

Section shared_inv.
Variable d0 : Disk.
(** Which effects the programs of the threads allow. *)
Variable allowed : nat -> path -> option bytes -> Prop.
Abbreviation cfg := (Trace * Disk)%type.
Implicit Types (c : cfg) (w : Disk) (g : Trace) (t p : path).

(** No process draws 2^64 numbers. *)
Definition sane_disk w : Prop := forall q, calls w q <= U64_MAX.

Record dinv c : Prop := {
  inv_wf : disk_wf c.2;
  inv_calls : forall q, 0 <= calls c.2 q;
  (* the files an owner has not published exist, and are new *)
  inv_owned : forall t i, owners c.1 !! t = Some i ->
    tmp_file t = true /\ is_Some (d_names c.2 !! t) /\ d_names d0 !! t = None;
  (* there are no other new temporary files *)
  inv_tmp : forall t, tmp_file t = true -> is_Some (d_names c.2 !! t) ->
    is_Some (d_names d0 !! t) \/ is_Some (owners c.1 !! t);
  (* nobody touches the temporary files that were there *)
  inv_stale : forall t n, tmp_file t = true -> d_names d0 !! t = Some n ->
    d_names c.2 !! t = Some n /\ d_inodes c.2 !! n = d_inodes d0 !! n;
  (* every other name holds what its last effect says *)
  inv_visible : forall p, tmp_file p = false -> content c.2 p = latest d0 (effects c.1) p;
  inv_allowed : forall i p x, (i, p, x) ∈ effects c.1 -> tmp_file p = false /\ allowed i p x;
  (* numbers are drawn once, and name the files of who drew them *)
  inv_drawn : forall i q k, (i, Drew q k) ∈ c.1 -> 0 <= k < calls c.2 q;
  inv_once : forall i j q k, (i, Drew q k) ∈ c.1 -> (j, Drew q k) ∈ c.1 -> i = j;
  inv_seq : forall dir q k i, is_u64 q -> is_u64 k -> owners c.1 !! tmp_seq dir q k = Some i -> (i, Drew q k) ∈ c.1;
}.

(** An inode that nobody is writing, and nobody will. *)
Definition sealed c (n : inode) : Prop :=
  (n < d_fresh c.2)%nat /\ forall t, is_Some (owners c.1 !! t) -> d_names c.2 !! t <> Some n.

Record drel (i : nat) c c' : Prop := {
  rel_inv : dinv c';
  rel_trace : exists evs, c'.1 = c.1 ++ evs /\ Forall (fun e => e.1 <> i) evs;
  rel_own : forall t, owners c.1 !! t = Some i <-> owners c'.1 !! t = Some i;
  rel_file : forall t n, owners c.1 !! t = Some i -> d_names c.2 !! t = Some n ->
    d_names c'.2 !! t = Some n /\ d_inodes c'.2 !! n = d_inodes c.2 !! n;
  rel_sealed : forall n, sealed c n -> sealed c' n /\ d_inodes c'.2 !! n = d_inodes c.2 !! n;
  rel_io : d_io c.2 = [] -> d_io c'.2 = [];
}.

Definition dguar (i : nat) c c' : Prop := dinv c' /\ forall j, j <> i -> drel j c c'.

Lemma drel_refl i c : dinv c -> drel i c c.
Proof. intros H. constructor; [done| |done..]. exists []. by rewrite app_nil_r. Qed.

Lemma drel_trans i c1 c2 c3 : drel i c1 c2 -> drel i c2 c3 -> drel i c1 c3.
Proof.
  intros [_ (e1 & H1 & F1) O1 N1 S1 I1] [Hinv (e2 & H2 & F2) O2 N2 S2 I2]. constructor; [done|..|auto].
  - exists (e1 ++ e2). rewrite H2, H1, <- app_assoc. split; [done|]. by apply Forall_app.
  - intros t. by rewrite O1.
  - intros t n Ho Hn. destruct (N1 t n Ho Hn) as [A1 B1]. apply O1 in Ho.
    destruct (N2 t n Ho A1) as [A2 B2]. split; [done|]. by rewrite B2.
  - intros n Hs. destruct (S1 n Hs) as [A1 B1]. destruct (S2 n A1) as [A2 B2]. split; [done|]. by rewrite B2.
Qed.

Lemma dguar_trans i c1 c2 c3 : dguar i c1 c2 -> dguar i c2 c3 -> dguar i c1 c3.
Proof. intros [_ H1] [Hi H2]. split; [done|]. intros j Hj. eapply drel_trans; [by apply H1|by apply H2]. Qed.

Lemma dguar_inv i c c' : dguar i c c' -> dinv c'.
Proof. by intros [? _]. Qed.
Lemma dguar_rel i j c c' : i <> j -> dguar j c c' -> drel i c c'.
Proof. intros Hij [_ H]. by apply H. Qed.

End shared_inv.
