(* ===== verification/SharedSteps.v ===== *)
(** * Every system call keeps the invariant of the shared directory *)

From S2P Require Import Prelude Fmt Atomic AtomicProps Cache CacheProps Proc Disk SharedCache SharedInv.

Section shared_steps.
Variable d0 : Disk.
Variable allowed : nat -> path -> option bytes -> Prop.
Abbreviation cfg := (Trace * Disk)%type.
Abbreviation dinv := (dinv d0 allowed).
Abbreviation dguar := (dguar d0 allowed).
Abbreviation drel := (drel d0 allowed).
Implicit Types (c : cfg) (w : Disk) (g : Trace) (t p : path).

Lemma guar_intro i c evs w2 : dinv (c.1 ++ (pair i <$> evs), w2) ->
  (forall t j, j <> i -> owners c.1 !! t = Some j <-> owners (c.1 ++ (pair i <$> evs)) !! t = Some j) ->
  (forall t n j, j <> i -> owners c.1 !! t = Some j -> d_names c.2 !! t = Some n ->
     d_names w2 !! t = Some n /\ d_inodes w2 !! n = d_inodes c.2 !! n) ->
  (forall n, sealed c n -> sealed (c.1 ++ (pair i <$> evs), w2) n /\ d_inodes w2 !! n = d_inodes c.2 !! n) ->
  (d_io c.2 = [] -> d_io w2 = []) ->
  dguar i c (c.1 ++ (pair i <$> evs), w2).
Proof.
  intros Hinv Ho Hn Hs Hio. split; [done|]. intros j Hj. constructor; cbn; [done| |auto|by eauto|done|done].
  exists (pair i <$> evs). split; [done|]. by apply Forall_fmap, Forall_true.
Qed.

(** ** Faults *)

Lemma dinv_same g w w' : d_names w' = d_names w -> d_inodes w' = d_inodes w -> d_fresh w' = d_fresh w ->
  d_calls w' = d_calls w -> dinv (g, w) -> dinv (g, w').
Proof.
  intros Hn Hi Hf Hc [[W1 W2] H2 H3 H4 H5 H6 H7 H8 H9 H10]. unfold calls, content in *. cbn in *.
  constructor; unfold calls, content; cbn; rewrite ?Hn, ?Hi, ?Hc; try done.
  constructor; rewrite ?Hn, ?Hi, ?Hf; done.
Qed.

Lemma draw_guar i c : dinv c -> dguar i c (c.1, (d_draw c.2).2).
Proof.
  intros Hinv. replace c.1 with (c.1 ++ (pair i <$> [])) by (by rewrite app_nil_r).
  unfold d_draw. apply guar_intro; cbn [fmap list_fmap]; rewrite ?app_nil_r; destruct (d_io c.2) eqn:Eio; cbn; auto; try done.
  - by destruct c.
  - destruct c. by apply (dinv_same _ d).
Qed.

Lemma draw_trace w : d_trace (d_draw w).2 = d_trace w.
Proof. unfold d_draw. by destruct (d_io w). Qed.
Lemma draw_names w : d_names (d_draw w).2 = d_names w.
Proof. unfold d_draw. by destruct (d_io w). Qed.
Lemma draw_inodes w : d_inodes (d_draw w).2 = d_inodes w.
Proof. unfold d_draw. by destruct (d_io w). Qed.
Lemma draw_calls w : d_calls (d_draw w).2 = d_calls w.
Proof. unfold d_draw. by destruct (d_io w). Qed.
Lemma draw_healthy w : d_io w = [] -> d_draw w = (None, w).
Proof. unfold d_draw. by intros ->. Qed.

(** ** What an event adds to the record *)

Lemma not_drawn g i e j q k : (forall q k, e <> Drew q k) -> (j, Drew q k) ∈ g ++ [(i, e)] <-> (j, Drew q k) ∈ g.
Proof.
  intros He. rewrite elem_of_app, list_elem_of_singleton. split; [|by left].
  intros [?|[= _ Heq]]; [done|]. symmetry in Heq. by apply He in Heq.
Qed.

Lemma visible_not_owned c p i : dinv c -> tmp_file p = false -> owners c.1 !! p <> Some i.
Proof. intros Hinv Hp Ho. apply (inv_owned _ _ _ Hinv) in Ho as [? _]. congruence. Qed.

(** ** Drawing a number *)

Lemma draw_seq_guar i q c : dinv c -> sane_disk (d_fetch_add q c.2).1 ->
  dguar i c (c.1 ++ [(i, Drew q (calls c.2 q))], (d_fetch_add q c.2).1)
  /\ (d_fetch_add q c.2).2 = calls c.2 q /\ is_u64 (calls c.2 q).
Proof.
  intros Hinv Hs. specialize (Hs q). pose proof (inv_calls _ _ _ Hinv q) as Hc0.
  unfold d_fetch_add, calls in Hs. cbn in Hs. rewrite lookup_insert_eq in Hs. cbn in Hs. fold (calls c.2 q) in Hs.
  assert (is_u64 (calls c.2 q)) as Hu by zlia.
  split; [|by split; [apply wrap64_small|]].
  assert (forall q', calls (d_fetch_add q c.2).1 q' = calls c.2 q' + if decide (q = q') then 1 else 0) as Hcalls.
  { intros q'. unfold d_fetch_add, calls. cbn. case_decide as Hq; [subst; by rewrite lookup_insert_eq|].
    rewrite lookup_insert_ne by done. lia. }
  assert (owners (c.1 ++ [(i, Drew q (calls c.2 q))]) = owners c.1) as Ho by by rewrite owners_snoc.
  assert (effects (c.1 ++ [(i, Drew q (calls c.2 q))]) = effects c.1) as He by (rewrite effects_snoc; apply app_nil_r).
  apply (guar_intro i c [Drew q (calls c.2 q)]); cbn [fmap list_fmap]; rewrite ?Ho; [|done|done| |done].
  2: { intros n [Hn Hk]. split; [|done]. split; cbn [fst]; rewrite ?Ho; done. }
  destruct Hinv as [H1 H2 H3 H4 H5 H6 H7 H8 H9 H10].
  constructor; cbn [fst snd] in *; rewrite ?Ho, ?He; try done.
  - by destruct H1.
  - intros q'. rewrite Hcalls. specialize (H2 q'). case_decide; lia.
  - intros j q' k [Hin|Heq%list_elem_of_singleton]%elem_of_app; rewrite Hcalls.
    + apply H8 in Hin. case_decide; lia.
    + injection Heq as -> -> ->. rewrite decide_True by done. lia.
  - intros j j' q' k [Hin|Heq%list_elem_of_singleton]%elem_of_app [Hin'|Heq'%list_elem_of_singleton]%elem_of_app.
    + by apply (H9 j j' q' k).
    + injection Heq' as -> -> ->. apply H8 in Hin. lia.
    + injection Heq as -> -> ->. apply H8 in Hin'. lia.
    + congruence.
  - intros dir q' k j Hq Hk Hj. apply elem_of_app. left. by apply (H10 dir).
Qed.

(** ** Temporary files *)

(** Why thread [i] may create [t]: it drew the number in it, if there is one. *)
Definition may_create (i : nat) g t : Prop :=
  tmp_file t = true /\
  forall dir q k, is_u64 q -> is_u64 k -> t = tmp_seq dir q k -> (i, Drew q k) ∈ g.

Lemma may_create_first i g dir q : may_create i g (tmp_first dir q).
Proof. split; [apply tmp_first_file|]. intros dir' q' k _ _ H. by apply tmp_first_seq in H. Qed.

Lemma may_create_seq i g dir q k : is_u64 q -> is_u64 k -> (i, Drew q k) ∈ g -> may_create i g (tmp_seq dir q k).
Proof.
  intros Hq Hk Hd. split; [apply tmp_seq_file|]. intros dir' q' k' Hq' Hk' H.
  by apply tmp_seq_inj in H as [-> ->].
Qed.

Lemma create_guar i c t : dinv c -> d_names c.2 !! t = None -> may_create i c.1 t ->
  dguar i c (c.1 ++ [(i, Created t)], add_file t c.2).
Proof.
  intros Hinv Hn [Ht Hd]. pose proof Hinv as [H1 H2 H3 H4 H5 H6 H7 H8 H9 H10].
  assert (owners (c.1 ++ [(i, Created t)]) = <[t := i]> (owners c.1)) as Ho by by rewrite owners_snoc.
  assert (effects (c.1 ++ [(i, Created t)]) = effects c.1) as He by (rewrite effects_snoc; apply app_nil_r).
  assert (owners c.1 !! t = None) as Hot.
  { destruct (owners c.1 !! t) as [j|] eqn:E; [|done]. apply H3 in E as (_ & [n Hn'] & _). congruence. }
  apply (guar_intro i c [Created t]); cbn [fmap list_fmap]; rewrite ?Ho; [|..|done].
  - constructor; cbn [fst snd]; rewrite ?Ho, ?He; try done.
    + by apply wf_add_file.
    + intros t' j [[<- <-]|[Hne Hj]]%lookup_insert_Some.
      * split_and!; [done|cbn; rewrite lookup_insert_eq; by eauto|].
        destruct (d_names d0 !! t) as [n|] eqn:E; [|done]. apply (H5 t n) in E as [E _]; [|done]. congruence.
      * apply H3 in Hj as (A & B & C). split_and!; [done| |done]. cbn. by rewrite lookup_insert_ne.
    + intros t' Ht'. cbn. rewrite !lookup_insert_is_Some'. intros [->|Hs]; [by right; left|].
      destruct (H4 t' Ht' Hs); auto.
    + intros t' n Ht' Hn'. destruct (H5 t' n Ht' Hn') as [A B]. cbn.
      rewrite lookup_insert_ne by congruence. split; [done|].
      apply (wf_inode _ H1) in A as [? _]. by rewrite lookup_insert_ne by lia.
    + intros p Hp. rewrite content_add_file; [by apply H6|done|congruence].
    + intros j q k. rewrite not_drawn by done. apply H8.
    + intros j j' q k. rewrite !not_drawn by done. apply H9.
    + intros dir q k j Hq Hk [[Heq <-]|[Hne Hj]]%lookup_insert_Some; apply elem_of_app; left; [by eapply Hd|by eapply H10].
  - intros t' j Hj. rewrite lookup_insert_Some. naive_solver.
  - intros t' n j Hj Hjo Hn'. cbn. rewrite lookup_insert_ne by congruence. split; [done|].
    apply (wf_inode _ H1) in Hn' as [? _]. by rewrite lookup_insert_ne by lia.
  - intros n [Hf Hk]. cbn. rewrite lookup_insert_ne by lia. split; [|done]. split; cbn; [lia|].
    rewrite Ho. intros t' [j [[<- _]|[Hne Hj]]%lookup_insert_Some]; [rewrite lookup_insert_eq; naive_solver lia|].
    rewrite lookup_insert_ne by done. apply Hk. by eauto.
Qed.

Lemma write_guar i c t n bs : dinv c -> owners c.1 !! t = Some i -> d_names c.2 !! t = Some n ->
  dguar i c (c.1, set_inode c.2 n bs).
Proof.
  intros Hinv Ho Hn. pose proof Hinv as [H1 H2 H3 H4 H5 H6 H7 H8 H9 H10].
  assert (forall t', d_names c.2 !! t' = Some n -> t' = t) as Hone by (intros t' Ht'; by apply (wf_one_name _ H1 _ _ n)).
  replace c.1 with (c.1 ++ (pair i <$> [])) by (by rewrite app_nil_r).
  apply guar_intro; cbn [fmap list_fmap]; rewrite ?app_nil_r; [|done|..|done].
  - constructor; cbn [fst snd]; try done.
    + by apply wf_set_inode.
    + intros t' m Ht' Hm. destruct (H5 t' m Ht' Hm) as [A B]. split; [done|]. cbn.
      rewrite lookup_insert_ne; [done|]. intros ->. apply Hone in A as ->.
      apply H3 in Ho as (_ & _ & ?). congruence.
    + intros p Hp. rewrite content_set_inode; [by apply H6|]. intros ->%Hone. apply H3 in Ho as [? _]. congruence.
  - intros t' m j Hj Hjo Hm. cbn. split; [done|]. rewrite lookup_insert_ne; [done|]. intros ->.
    apply Hone in Hm as ->. congruence.
  - intros m [Hf Hk]. split; [by split|]. cbn. rewrite lookup_insert_ne; [done|]. intros ->. by apply (Hk t).
Qed.

Lemma rename_guar i c t p n bs : dinv c -> owners c.1 !! t = Some i -> d_names c.2 !! t = Some n ->
  d_inodes c.2 !! n = Some bs -> tmp_file p = false -> allowed i p (Some bs) ->
  dguar i c (c.1 ++ [(i, Renamed t p bs)], set_names c.2 (<[p := n]> (delete t (d_names c.2))) (Renamed t p bs)).
Proof.
  intros Hinv Ht Hn Hbs Hp Hall. pose proof Hinv as [H1 H2 H3 H4 H5 H6 H7 H8 H9 H10].
  set (e := Renamed t p bs). set (w2 := set_names _ _ _).
  assert (owners (c.1 ++ [(i, e)]) = delete t (owners c.1)) as Ho by by rewrite owners_snoc.
  assert (effects (c.1 ++ [(i, e)]) = effects c.1 ++ [(i, p, Some bs)]) as He by by rewrite effects_snoc.
  destruct (H3 t i Ht) as (Htf & _ & Ht0).
  assert (forall t', t' <> t -> tmp_file t' = true -> d_names w2 !! t' = d_names c.2 !! t') as Hnm.
  { intros t' Hne Ht'. cbn. by rewrite lookup_insert_ne, lookup_delete_ne by congruence. }
  apply (guar_intro i c [e]); cbn [fmap list_fmap]; rewrite ?Ho; [|..|done].
  - constructor; cbn [fst snd]; rewrite ?Ho, ?He; try done.
    + by apply wf_rename.
    + intros t' j [Hne Hj]%lookup_delete_Some. destruct (H3 _ _ Hj) as (A & B & C). by rewrite Hnm.
    + intros t' Ht' Hs. destruct (decide (t' = t)) as [->|Hne].
      { cbn in Hs. rewrite lookup_insert_ne, lookup_delete_eq in Hs by congruence. by destruct Hs. }
      rewrite Hnm in Hs by done. rewrite lookup_delete_ne by done. by apply H4.
    + intros t' m Ht' Hm. rewrite Hnm by congruence. by apply H5.
    + intros p' Hp'. unfold w2. rewrite content_rename, latest_app by congruence. cbn.
      case_decide; [by rewrite bool_decide_eq_true_2|]. rewrite bool_decide_eq_false_2 by done. by apply H6.
    + intros j p' x [Hin|Heq%list_elem_of_singleton]%elem_of_app; [by apply H7|]. by injection Heq as -> -> ->.
    + intros j q k. rewrite not_drawn by done. apply H8.
    + intros j j' q k. rewrite !not_drawn by done. apply H9.
    + intros dir q k j Hq Hk [Hne Hj]%lookup_delete_Some. apply elem_of_app. left. by eapply H10.
  - intros t' j Hj. rewrite lookup_delete_Some. naive_solver.
  - intros t' m j Hj Hjo Hm. rewrite Hnm; [done|congruence|]. by apply H3 in Hjo as [? _].
  - intros m [Hf Hk]. split; [|done]. split; cbn [fst snd]; [done|]. rewrite Ho.
    intros t' [j [Hne Hj]%lookup_delete_Some]. destruct (H3 _ _ Hj) as [A _]. rewrite Hnm by done. apply Hk. by eauto.
Qed.

(** Removing a name that is visible or one's own. *)
Lemma remove_guar i c t : dinv c -> is_Some (d_names c.2 !! t) ->
  (owners c.1 !! t = Some i \/ tmp_file t = false /\ allowed i t None) ->
  dguar i c (c.1 ++ [(i, Removed t)], set_names c.2 (delete t (d_names c.2)) (Removed t)).
Proof.
  intros Hinv Hs Hwhy. pose proof Hinv as [H1 H2 H3 H4 H5 H6 H7 H8 H9 H10].
  set (w2 := set_names _ _ _).
  assert (owners (c.1 ++ [(i, Removed t)]) = delete t (owners c.1)) as Ho by by rewrite owners_snoc.
  assert (effects (c.1 ++ [(i, Removed t)]) = effects c.1 ++ if tmp_file t then [] else [(i, t, None)]) as He.
  { rewrite effects_snoc. unfold effect. cbn. by destruct (tmp_file t). }
  assert (forall t', t' <> t -> d_names w2 !! t' = d_names c.2 !! t') as Hnm
    by (intros t' Hne; cbn; by rewrite lookup_delete_ne).
  assert (tmp_file t = true -> d_names d0 !! t = None) as Ht0.
  { intros Ht. destruct Hwhy as [Hw|[Hw _]]; [by apply H3 in Hw as (_ & _ & ?)|congruence]. }
  apply (guar_intro i c [Removed t]); cbn [fmap list_fmap]; rewrite ?Ho; [|..|done].
  - constructor; cbn [fst snd]; rewrite ?Ho, ?He; try done.
    + by apply wf_remove.
    + intros t' j [Hne Hj]%lookup_delete_Some. destruct (H3 _ _ Hj) as (A & B & C). by rewrite Hnm.
    + intros t' Ht' Hs'. destruct (decide (t' = t)) as [->|Hne].
      { cbn in Hs'. rewrite lookup_delete_eq in Hs'. by destruct Hs'. }
      rewrite Hnm in Hs' by done. rewrite lookup_delete_ne by done. by apply H4.
    + intros t' m Ht' Hm. rewrite Hnm by (intros ->; rewrite Ht0 in Hm; done). by apply H5.
    + intros p Hp. unfold w2. rewrite content_remove, latest_app. case_decide as Htp.
      * subst t. rewrite Hp. cbn. by rewrite bool_decide_eq_true_2.
      * rewrite H6 by done. destruct (tmp_file t); cbn; [done|]. by rewrite bool_decide_eq_false_2.
    + intros j p' x [Hin|Hin]%elem_of_app; [by apply H7|]. destruct (tmp_file t) eqn:Et; [by apply elem_of_nil in Hin|].
      apply list_elem_of_singleton in Hin. injection Hin as -> -> ->. split; [done|].
      destruct Hwhy as [Hw|[_ Hw]]; [|done]. by apply visible_not_owned in Hw.
    + intros j q k. rewrite not_drawn by done. apply H8.
    + intros j j' q k. rewrite !not_drawn by done. apply H9.
    + intros dir q k j Hq Hk [Hne Hj]%lookup_delete_Some. apply elem_of_app. left. by eapply H10.
  - intros t' j Hj. rewrite lookup_delete_Some. destruct Hwhy as [Hw|[Hw _]]; [naive_solver|].
    split; [|naive_solver]. intros Hjo. split; [|done]. intros ->. by apply visible_not_owned in Hjo.
  - intros t' m j Hj Hjo Hm. rewrite Hnm; [done|]. intros ->. destruct Hwhy as [Hw|[Hw _]]; [congruence|].
    by apply visible_not_owned in Hjo.
  - intros m [Hf Hk]. split; [|done]. split; cbn [fst snd]; [done|]. rewrite Ho.
    intros t' [j [Hne Hj]%lookup_delete_Some]. rewrite Hnm by done. apply Hk. by eauto.
Qed.

End shared_steps.
