(* ===== verification/SharedProps.v ===== *)
(** * The contracts of publication and of the cache operations in a shared directory *)

From S2P Require Import Prelude Fmt Utf8 Atomic AtomicProps Cache CacheChecksum CacheProps CacheTheorems Proc Disk SharedCache SharedInv SharedSteps.

Section shared_props.
Variable d0 : Disk.
Variable allowed : nat -> path -> option bytes -> Prop.
(** Enough to try every name that was taken at the start. *)
Variable fuel : nat.
Hypothesis fuel_enough : (2 + size (d_names d0) <= fuel)%nat.
Abbreviation cfg := (Trace * Disk)%type.
Abbreviation dinv := (dinv d0 allowed).
Abbreviation dguar := (dguar d0 allowed).
Abbreviation drel := (drel d0 allowed).
Abbreviation dwp := (wp sane_disk observe drel dguar (fun _ _ => False)).
Implicit Types (c : cfg) (w : Disk) (g : Trace) (t p : path).

(** ** What a stretch of a thread's run has done

    It had the effects [fx]; if no I/O failed, it owns no more files than it
    did, but for those in [T]. *)
Record ran (i : nat) c (T : list path) (fx : list Effect) c' : Prop := {
  ran_inv : dinv c';
  ran_trace : c.1 `prefix_of` c'.1;
  ran_fx : effects_of i c'.1 = effects_of i c.1 ++ fx;
  ran_io : d_io c.2 = [] -> d_io c'.2 = [];
  ran_own : d_io c.2 = [] -> forall t, owners c'.1 !! t = Some i -> owners c.1 !! t = Some i \/ t ∈ T;
}.

Lemma ran_rel i c c' : drel i c c' -> ran i c [] [] c'.
Proof.
  intros [H1 (evs & H2 & H3) H4 H5 H6 H7]. constructor; [done|by exists evs| |done|].
  - by rewrite H2, effects_of_others, app_nil_r.
  - intros _ t Ht. left. by apply H4.
Qed.

Lemma ran_trans i c1 c2 c3 T U fx fy : ran i c1 T fx c2 -> ran i c2 U fy c3 -> ran i c1 (T ++ U) (fx ++ fy) c3.
Proof.
  intros [H1 H2 H3 H4 H5] [G1 G2 G3 G4 G5]. constructor; [done|by etrans| |auto|].
  - by rewrite G3, H3, app_assoc.
  - intros Hio t Ht. apply G5 in Ht as [Ht|Ht]; [|set_solver|auto]. apply H5 in Ht; set_solver.
Qed.

Lemma ran_rel_r i c c1 c2 T fx : ran i c T fx c1 -> drel i c1 c2 -> ran i c T fx c2.
Proof. intros H1 H2%ran_rel. rewrite <- (app_nil_r T), <- (app_nil_r fx). by eapply ran_trans. Qed.

Lemma ran_guar i c c' T fx : dguar i c c' -> effects_of i c'.1 = effects_of i c.1 ++ fx ->
  (forall t, owners c'.1 !! t = Some i -> owners c.1 !! t = Some i \/ t ∈ T) -> ran i c T fx c'.
Proof.
  intros [Hi Hr] Hfx Ho. destruct (Hr (S i)) as [_ (evs & He & _) _ _ _ Hio]; [lia|].
  constructor; [done|by exists evs|done|done|auto].
Qed.

(** The thread is writing the inode [n] under the temporary name [t]. *)
Definition holds (i : nat) c t (n : inode) (bs : bytes) : Prop :=
  owners c.1 !! t = Some i /\ d_names c.2 !! t = Some n /\ d_inodes c.2 !! n = Some bs.

Lemma holds_rel i c c' t n bs : drel i c c' -> holds i c t n bs -> holds i c' t n bs.
Proof.
  intros Hr (Ho & Hn & Hb). destruct (rel_file _ _ _ _ _ Hr t n Ho Hn) as [A B].
  split_and!; [by apply (rel_own _ _ _ _ _ Hr)|done|by rewrite B].
Qed.

(** ** Calls *)

Lemma draw_rel i c : dinv c -> drel i c (c.1, (d_draw c.2).2).
Proof. intros H. apply (dguar_rel _ _ i (S i)); [lia|]. by apply draw_guar. Qed.

Lemma after_quiet i c w : d_trace w = d_trace c.2 -> after observe i c w = (c.1, w).
Proof. intros H. unfold after. by rewrite observe_none. Qed.
Lemma after_event i c w e : d_trace w = e :: d_trace c.2 -> after observe i c w = (c.1 ++ [(i, e)], w).
Proof. intros H. unfold after. by rewrite (observe_one _ _ _ _ e). Qed.

(** A call that only reads. *)
Lemma wp_d_read i {R} (f : Disk -> Disk * R) (Q : R -> cfg -> Prop) E c :
  (forall w, (f w).1 = (d_draw w).2) ->
  (forall c', drel i c c' -> forall w, d_names c'.2 = d_names w -> d_inodes c'.2 = d_inodes w -> Q (f w).2 c') ->
  dwp i (act f) Q E c.
Proof.
  intros Hf HQ. apply wp_act. intros c1 w2 r Hr Hc _. pose proof (Hf c1.2) as Hw. rewrite Hc in Hw. cbn in Hw. subst w2.
  pose proof (rel_inv _ _ _ _ _ Hr) as Hinv. rewrite after_quiet by apply draw_trace.
  split; [by apply draw_guar|].
  replace r with (f c1.2).2 by (by rewrite Hc). apply HQ; [|apply draw_names|apply draw_inodes].
  eapply drel_trans; [done|]. by apply draw_rel.
Qed.

Lemma wp_fetch_add i q (Q : Z -> cfg -> Prop) E c : is_u64 q ->
  (forall c' k, ran i c [] [] c' -> is_u64 k -> (i, Drew q k) ∈ c'.1 ->
     (forall j, (j, Drew q k) ∉ c.1) -> (forall dir, owners c'.1 !! tmp_seq dir q k <> Some i) -> Q k c') ->
  dwp i (act (d_fetch_add q)) Q E c.
Proof.
  intros Hq HQ. apply wp_act. intros c1 w2 r Hr Hc Hs. pose proof (rel_inv _ _ _ _ _ Hr) as Hinv.
  pose proof (draw_seq_guar d0 allowed i q c1 Hinv) as Hg. rewrite Hc in Hg. cbn [fst snd] in Hg.
  destruct (Hg Hs) as (Hgu & -> & Hu).
  rewrite (after_event _ _ _ (Drew q (calls c1.2 q))) by (injection Hc as <- Hk; cbn; by rewrite Hk).
  split; [done|]. apply HQ; cbn [fst]; [|done|set_solver|..].
  - apply (ran_trans _ _ c1 _ [] [] [] []); [by apply ran_rel|]. apply ran_guar; [done|..]; cbn [fst].
    + rewrite effects_of_app. done.
    + rewrite owners_snoc. auto.
  - intros j Hin. destruct (rel_trace _ _ _ _ _ Hr) as (evs & He & _).
    enough (calls c1.2 q < calls c1.2 q) by lia. eapply (inv_drawn _ _ _ Hinv j). rewrite He. set_solver.
  - intros dir. rewrite owners_snoc. cbn. intros Ho. apply (inv_seq _ _ _ Hinv) in Ho; [|done..].
    apply (inv_drawn _ _ _ Hinv) in Ho. lia.
Qed.

Lemma wp_d_create i t (Q : Result inode IoErr -> cfg -> Prop) E c : may_create i c.1 t ->
  (forall c' n, ran i c [t] [] c' -> holds i c' t n [] -> Q (Ok n) c') ->
  (forall c' e, drel i c c' ->
     match io_kind e with AlreadyExists => is_Some (d_names c'.2 !! t) | _ => d_io c.2 <> [] end -> Q (Err e) c') ->
  dwp i (act (d_create_new t)) Q E c.
Proof.
  intros Hmay HOk HErr. apply wp_act. intros c1 w2 r Hr Hc _. pose proof (rel_inv _ _ _ _ _ Hr) as Hinv.
  pose proof (draw_guar _ _ i _ Hinv) as Hg. pose proof (draw_trace c1.2) as Htr.
  unfold d_create_new in Hc. destruct (d_draw c1.2) as [f w1] eqn:Ed. cbn [snd] in Hg, Htr.
  assert (drel i c (c1.1, w1)) as Hr1.
  { eapply drel_trans; [done|]. pose proof (draw_rel i c1 Hinv) as H. by rewrite Ed in H. }
  destruct f as [k|]; [|destruct (d_names w1 !! t) as [n|] eqn:En]; injection Hc as <- <-.
  - rewrite after_quiet by done. split; [done|]. apply HErr; [done|]. cbn. intros Hio.
    apply (rel_io _ _ _ _ _ Hr) in Hio. by rewrite draw_healthy in Ed.
  - rewrite after_quiet by done. split; [done|]. apply HErr; [done|]. cbn. by eexists.
  - destruct Hmay as [Htf Hd]. destruct (rel_trace _ _ _ _ _ Hr) as (evs & He & _).
    assert (dguar i (c1.1, w1) (c1.1 ++ [(i, Created t)], add_file t w1)) as Hg2.
    { apply (create_guar _ _ i (c1.1, w1)); [by destruct Hg|done|]. split; [done|]. intros. rewrite He. cbn.
      apply elem_of_app. left. by eapply Hd. }
    rewrite (after_event _ _ _ (Created t)) by (cbn; by rewrite Htr).
    split; [by eapply dguar_trans|]. apply HOk.
    + apply (ran_trans _ _ (c1.1, w1) _ [] [t] [] []); [by apply ran_rel|]. apply ran_guar; [done|..]; cbn [fst].
      * rewrite effects_of_app. done.
      * rewrite owners_snoc. cbn. intros t' [[<- _]|[_ ?]]%lookup_insert_Some; [right; set_solver|by left].
    + split_and!; cbn; [by rewrite owners_snoc; cbn; rewrite lookup_insert_eq|by rewrite lookup_insert_eq..].
Qed.

Lemma wp_write i t n old bs (Q : Result unit IoErr -> cfg -> Prop) E c : holds i c t n old ->
  (forall c' r x, ran i c [] [] c' -> holds i c' t n x ->
     match r with Ok _ => x = old ++ bs | Err _ => d_io c.2 <> [] end -> Q r c') ->
  dwp i (act (d_write_all n bs)) Q E c.
Proof.
  intros Hh HQ. apply wp_act. intros c1 w2 r Hr Hc _. pose proof (rel_inv _ _ _ _ _ Hr) as Hinv.
  apply (holds_rel _ _ _ _ _ _ Hr) in Hh as (Ho & Hn & Hb).
  pose proof (draw_guar _ _ i _ Hinv) as Hg. pose proof (draw_trace c1.2) as Htr.
  pose proof (draw_names c1.2) as Hnm. pose proof (draw_inodes c1.2) as Hin.
  unfold d_write_all in Hc. destruct (d_draw c1.2) as [f w1] eqn:Ed. cbn [snd] in *.
  rewrite Hin, Hb in Hc. cbn [default from_option id] in Hc.
  assert (forall x, dguar i c1 (c1.1, set_inode w1 n x) /\ ran i c [] [] (c1.1, set_inode w1 n x)
    /\ holds i (c1.1, set_inode w1 n x) t n x) as Hx.
  { intros x. assert (dguar i c1 (c1.1, set_inode w1 n x)) as Hgx.
    { eapply dguar_trans; [done|]. apply (write_guar _ _ i (c1.1, w1) t); [by destruct Hg|done|]. cbn. by rewrite Hnm. }
    split_and!; [done| |split_and!; cbn; [done|by rewrite Hnm|by rewrite lookup_insert_eq]].
    apply (ran_trans _ _ c1 _ [] [] [] []); [by apply ran_rel|]. apply ran_guar; [done|by rewrite app_nil_r|auto]. }
  destruct f as [k|]; injection Hc as <- <-; (rewrite after_quiet by done);
    edestruct Hx as (A & B & C); (split; [exact A|]); eapply HQ; [exact B|exact C| |exact B|exact C|done].
  cbn. intros Hio. apply (rel_io _ _ _ _ _ Hr) in Hio. by rewrite draw_healthy in Ed.
Qed.

Lemma wp_rename i t p n bs (Q : Result unit IoErr -> cfg -> Prop) E c0 c :
  ran i c0 [t] [] c -> holds i c t n bs -> tmp_file p = false -> allowed i p (Some bs) ->
  (forall c', ran i c0 [] [(i, p, Some bs)] c' -> Q (Ok tt) c') ->
  (forall c' e, ran i c0 [t] [] c' -> holds i c' t n bs -> d_io c.2 <> [] -> Q (Err e) c') ->
  dwp i (act (d_rename t p)) Q E c.
Proof.
  intros Hran Hh Hp Hall HOk HErr. apply wp_act. intros c1 w2 r Hr Hc _. pose proof (rel_inv _ _ _ _ _ Hr) as Hinv.
  apply (holds_rel _ _ _ _ _ _ Hr) in Hh as (Ho & Hn & Hb).
  apply (ran_rel_r _ _ _ c1) in Hran; [|done].
  pose proof (draw_guar _ _ i _ Hinv) as Hg. pose proof (draw_trace c1.2) as Htr.
  pose proof (draw_names c1.2) as Hnm. pose proof (draw_inodes c1.2) as Hin.
  apply (ran_rel_r _ _ _ (c1.1, (d_draw c1.2).2)) in Hran; [|by apply draw_rel].
  unfold d_rename in Hc. destruct (d_draw c1.2) as [f w1] eqn:Ed. cbn [snd] in *.
  destruct f as [k|]; [|rewrite Hnm, Hn, Hin, Hb in Hc]; injection Hc as <- <-.
  - rewrite after_quiet by done. split; [done|]. apply HErr; [done|split_and!; cbn; congruence|].
    intros Hio. apply (rel_io _ _ _ _ _ Hr) in Hio. by rewrite draw_healthy in Ed.
  - cbn [default from_option id]. rewrite (after_event _ _ _ (Renamed t p bs)) by (cbn; by rewrite Htr).
    assert (dguar i (c1.1, w1) (c1.1 ++ [(i, Renamed t p bs)],
      set_names w1 (<[p := n]> (delete t (d_names c1.2))) (Renamed t p bs))) as Hg2.
    { rewrite <- Hnm. apply (rename_guar _ _ i (c1.1, w1)); cbn; [by destruct Hg|done|congruence..|done|done]. }
    split; [by eapply dguar_trans|]. apply HOk.
    pose proof (ran_guar i _ _ [] [(i, p, Some bs)] Hg2) as H2.
    destruct Hran as [A1 A2 A3 A4 A5]. destruct H2 as [B1 B2 B3 B4 B5]; cbn [fst] in *.
    { by rewrite effects_of_own. }
    { rewrite owners_snoc. cbn. intros t' [_ ?]%lookup_delete_Some. auto. }
    constructor; [done|by etrans| |auto|]; cbn [fst].
    + by rewrite B3, A3, app_nil_r.
    + intros Hio t' Ht'. left. rewrite owners_snoc in Ht'. cbn in Ht'. apply lookup_delete_Some in Ht' as [Hne Ht'].
      apply A5 in Ht'; [|done]. set_solver.
Qed.

(** Removing a name: it may still be there when [fault] says that I/O failed. *)
Lemma wp_remove i t (Q : Result unit IoErr -> cfg -> Prop) E c :
  (owners c.1 !! t = Some i \/ tmp_file t = false /\ allowed i t None) ->
  (forall c' r, ran i c [] [] c' \/ tmp_file t = false /\ ran i c [] [(i, t, None)] c' -> Q r c') ->
  dwp i (act (d_remove_file t)) Q E c.
Proof.
  intros Hwhy HQ. apply wp_act. intros c1 w2 r Hr Hc _. pose proof (rel_inv _ _ _ _ _ Hr) as Hinv.
  pose proof (draw_guar _ _ i _ Hinv) as Hg. pose proof (draw_trace c1.2) as Htr.
  unfold d_remove_file in Hc. pose proof (draw_rel i c1 Hinv) as Hrd. destruct (d_draw c1.2) as [f w1] eqn:Ed. cbn [snd] in *.
  assert (drel i c (c1.1, w1)) as Hr1 by by eapply drel_trans.
  destruct f as [k|]; [|destruct (d_names w1 !! t) as [n|] eqn:En]; injection Hc as <- <-.
  1,3: rewrite after_quiet by done; split; [done|]; apply HQ; left; by apply ran_rel.
  rewrite (after_event _ _ _ (Removed t)) by (cbn; by rewrite Htr).
  assert (owners c1.1 !! t = Some i \/ tmp_file t = false /\ allowed i t None) as Hwhy1.
  { destruct Hwhy as [Hw|Hw]; [left; by apply (rel_own _ _ _ _ _ Hr)|by right]. }
  assert (dguar i (c1.1, w1) (c1.1 ++ [(i, Removed t)], set_names w1 (delete t (d_names w1)) (Removed t))) as Hg2.
  { apply (remove_guar _ _ i (c1.1, w1)); cbn; [by destruct Hg|by eexists|done]. }
  split; [by eapply dguar_trans|]. apply HQ.
  assert (ran i c [] (if tmp_file t then [] else [(i, t, None)])
    (c1.1 ++ [(i, Removed t)], set_names w1 (delete t (d_names w1)) (Removed t))) as Hran.
  { apply (ran_trans _ _ (c1.1, w1) _ [] [] []); [by apply ran_rel|]. apply ran_guar; [done|..]; cbn [fst].
    - rewrite effects_of_own. unfold effect. cbn. by destruct (tmp_file t).
    - rewrite owners_snoc. cbn. intros t' [_ ?]%lookup_delete_Some. auto. }
  destruct (tmp_file t); auto.
Qed.

(** ** Publication *)

Lemma trace_in i j q k c c' : drel i c c' -> (j, Drew q k) ∈ c.1 -> (j, Drew q k) ∈ c'.1.
Proof. intros Hr Hin. destruct (rel_trace _ _ _ _ _ Hr) as (evs & -> & _). set_solver. Qed.

(** Numbers whose names in [dir] thread [i] found taken, all since the start. *)
Definition tried_ok (i : nat) (q : process) (dir : path) c (tried : list Z) : Prop :=
  NoDup tried /\ Forall (fun k => is_u64 k /\ is_Some (d_names d0 !! tmp_seq dir q k)
    /\ (i, Drew q k) ∈ c.1) tried.

Lemma tried_bound i q dir c tried : is_u64 q -> tried_ok i q dir c tried -> (length tried <= size (d_names d0))%nat.
Proof.
  intros Hq [Hnd Hall]. rewrite <- (length_fmap (tmp_seq dir q)).
  rewrite <- size_dom, <- (size_list_to_set (C := gset path)).
  - apply subseteq_size. intros p. rewrite elem_of_list_to_set, elem_of_dom.
    intros (k & -> & Hk)%list_elem_of_fmap. rewrite Forall_forall in Hall. by apply Hall.
  - apply NoDup_fmap_2_strong; [|done]. rewrite Forall_forall in Hall. intros k k' Hk%Hall Hk'%Hall Heq.
    by apply tmp_seq_inj in Heq as [_ ->]; [|naive_solver..].
Qed.

(** The next name to try, and that fuel is left for the rest. *)
Definition attempt (i : nat) (q : process) (dir tmp : path) c (tried : list Z) (n : nat) : Prop :=
  (tmp = tmp_first dir q /\ tried = [] /\ (2 + size (d_names d0) <= n)%nat)
  \/ exists k, tmp = tmp_seq dir q k /\ is_u64 k /\ (i, Drew q k) ∈ c.1
     /\ owners c.1 !! tmp <> Some i /\ (k ∉ tried) /\ (1 + size (d_names d0) <= n + length tried)%nat.

(** A taken name was taken at the start. *)
Lemma taken_at_start i q dir k c : is_u64 q -> dinv c -> is_u64 k -> (i, Drew q k) ∈ c.1 ->
  owners c.1 !! tmp_seq dir q k <> Some i -> is_Some (d_names c.2 !! tmp_seq dir q k) ->
  is_Some (d_names d0 !! tmp_seq dir q k).
Proof.
  intros Hq Hinv Hk Hd Ho Hs. destruct (inv_tmp _ _ _ Hinv _ (tmp_seq_file _ _ _) Hs) as [|[j Hj]]; [done|].
  pose proof (inv_seq _ _ _ Hinv _ _ _ _ Hq Hk Hj) as Hdj.
  pose proof (inv_once _ _ _ Hinv _ _ _ _ Hd Hdj). congruence.
Qed.

Lemma wp_create_tmp n i q dir tmp tried (Q : Result (path * inode) IoErr -> cfg -> Prop) E c0 c :
  is_u64 q -> ran i c0 [] [] c -> attempt i q dir tmp c tried n -> tried_ok i q dir c tried ->
  (forall c' t file, ran i c0 [t] [] c' -> holds i c' t file [] -> Q (Ok (t, file)) c') ->
  (forall c' e, ran i c0 [] [] c' -> d_io c0.2 <> [] -> Q (Err e) c') ->
  dwp i (create_tmp_p q n dir tmp) Q E c.
Proof.
  intros Hq Hran Hat Htr HOk HErr. revert tmp tried c Hran Hat Htr.
  induction n as [|n IH]; intros tmp tried c Hran Hat Htr.
  { apply tried_bound in Htr; [|done]. destruct Hat as [(_ & _ & ?)|(k & _ & _ & _ & _ & _ & ?)]; lia. }
  cbn [create_tmp_p]. apply wp_bind, wp_d_create.
  { destruct Hat as [(-> & _)|(k & -> & Hk & Hd & _)]; [by apply may_create_first|by apply may_create_seq]. }
  { intros c' file H1 H2. cbn. apply HOk; [|done]. by apply (ran_trans _ _ c _ [] [tmp] [] []). }
  intros c' e Hrel He. pose proof (ran_rel_r _ _ _ _ _ _ Hran Hrel) as Hran'.
  assert (d_io c.2 <> [] -> d_io c0.2 <> []) as Hio by (intros Hn Hz; by apply Hn, (ran_io _ _ _ _ _ Hran)).
  destruct (io_kind e); [|cbn; apply HErr; auto..].
  assert (exists tried', tried_ok i q dir c' tried' /\ (1 + size (d_names d0) <= n + length tried')%nat)
    as (tried' & Htr' & Hn).
  { destruct Htr as [Hnd Hall]. assert (tried_ok i q dir c' tried) as Htr.
    { split; [done|]. eapply Forall_impl; [done|]. cbn. intros k (A & B & C). split_and!; [done..|]. by eapply trace_in. }
    destruct Hat as [(-> & -> & Hn)|(k & -> & Hk & Hd & Ho & Hni & Hn)]; [exists []; split; [done|cbn; lia]|].
    exists (k :: tried). split; [|cbn; lia]. destruct Htr as [_ Hall']. split; [by constructor|].
    constructor; [|done]. pose proof (trace_in _ _ _ _ _ _ Hrel Hd) as Hd'. split_and!; [done| |done].
    eapply taken_at_start; [done|by eapply rel_inv|done|done| |done]. intros H.
    by apply Ho, (rel_own _ _ _ _ _ Hrel). }
  apply wp_bind, wp_fetch_add; [done|]. intros c2 k Hran2 Hk Hd Hnew Hno.
  assert (ran i c0 [] [] c2) as Hran3 by by apply (ran_trans _ _ c' _ [] [] [] []).
  destruct Htr' as [Hnd Hall]. apply (IH _ tried'); [done| |].
  - right. exists k. split_and!; [done..|apply Hno| |done].
    intros Hin. rewrite Forall_forall in Hall. apply Hall in Hin as (_ & _ & Hin). by apply Hnew in Hin.
  - split; [done|]. eapply Forall_impl; [done|]. cbn. intros k' (A & B & C). split_and!; [done..|].
    destruct (ran_trace _ _ _ _ _ Hran2) as [evs ->]. set_solver.
Qed.

Lemma wp_write_parts i t n parts (Q : Result unit IoErr -> cfg -> Prop) E c0 c acc :
  ran i c0 [t] [] c -> holds i c t n acc ->
  (forall c' r x, ran i c0 [t] [] c' -> holds i c' t n x ->
     match r with Ok _ => x = acc ++ concat parts | Err _ => d_io c0.2 <> [] end -> Q r c') ->
  dwp i (write_parts_p n parts) Q E c.
Proof.
  intros Hran Hh HQ. revert acc c Hran Hh HQ. induction parts as [|part parts IH]; intros acc c Hran Hh HQ.
  { cbn. apply (HQ _ _ acc); [done|done|]. by rewrite app_nil_r. }
  cbn [write_parts_p]. apply wp_bind. eapply wp_write; [done|]. intros c' r x Hran' Hh' Hr. cbn [wp].
  assert (ran i c0 [t] [] c') as Hr0 by by apply (ran_trans _ _ c _ [t] [] [] []).
  destruct r as [|e].
  - subst x. apply (IH (acc ++ part) c'); [done..|]. intros c2 r2 x H1 H2 H3. apply (HQ _ _ x); [done..|].
    destruct r2; [|done]. cbn. by rewrite app_assoc.
  - apply (HQ _ _ x); [done..|]. intros Hz. by apply Hr, (ran_io _ _ _ _ _ Hran).
Qed.

(** The contract of [write_atomic]: exactly one effect, or an I/O failure and none. *)
Lemma wp_write_atomic i q p parts (Q : Result unit IoErr -> cfg -> Prop) E c : is_u64 q -> dinv c ->
  tmp_file p = false -> allowed i p (Some (concat parts)) ->
  (forall c', ran i c [] [(i, p, Some (concat parts))] c' -> Q (Ok tt) c') ->
  (forall c' e, ran i c [] [] c' -> d_io c.2 <> [] -> Q (Err e) c') ->
  dwp i (write_atomic_p fuel q p parts) Q E c.
Proof.
  intros Hq Hinv Hp Hall HOk HErr. unfold write_atomic_p, write_atomic_with_p.
  apply wp_bind. apply (wp_create_tmp fuel i q (parent p) _ [] _ _ c); [done|..].
  { by apply ran_rel, drel_refl. }
  { by left. }
  { split; [constructor|done]. }
  2: { intros c' e Hran Hio. by apply HErr. }
  intros c1 t file Hran Hh. cbn beta iota. apply wp_bind. eapply wp_write_parts; [done|done|].
  intros c2 r x Hran2 Hh2 Hr. apply wp_bind.
  assert (forall e c3, ran i c [t] [] c3 -> holds i c3 t file x -> d_io c.2 <> [] ->
    dwp i (let! _ := act (d_remove_file t) in Ret (Err e)) Q E c3) as Hrm.
  { intros e c3 H1 (Ho & _) Hio. apply wp_bind, wp_remove; [by left|]. intros c4 r4 Hcase. cbn. apply HErr; [|done].
    assert (ran i c3 [] [] c4) as H4.
    { destruct Hcase as [|[Hf _]]; [done|].
      apply (inv_owned _ _ _ (ran_inv _ _ _ _ _ H1)) in Ho as [? _]. congruence. }
    pose proof (ran_trans _ _ _ _ _ _ _ _ H1 H4) as [A1 A2 A3 A4 A5]. by constructor. }
  destruct r as [[]|e]; [|cbn; by apply Hrm]. cbn in Hr. subst x.
  eapply wp_rename; [done..|intros c3 H3; by apply HOk|].
  intros c3 e H3 Hh3 Hio. cbn. apply Hrm; [done..|]. intros Hz. by apply Hio, (ran_io _ _ _ _ _ Hran2).
Qed.

(** ** Loads

    A load that hits returns what its path held at some moment of the call. *)

Definition held_during c c' p (b : bytes) : Prop :=
  exists fx, effects c.1 `prefix_of` fx /\ fx `prefix_of` effects c'.1 /\ latest d0 fx p = Some b.

Lemma effects_prefix g g' : g `prefix_of` g' -> effects g `prefix_of` effects g'.
Proof. intros [x ->]. rewrite effects_app. by eexists. Qed.

Lemma drel_prefix i c c' : drel i c c' -> c.1 `prefix_of` c'.1.
Proof. intros Hr. destruct (rel_trace _ _ _ _ _ Hr) as (evs & -> & _). by eexists. Qed.

Lemma held_during_mono c0 c c' c1 p b : c0.1 `prefix_of` c.1 -> c'.1 `prefix_of` c1.1 ->
  held_during c c' p b -> held_during c0 c1 p b.
Proof.
  intros H1%effects_prefix H2%effects_prefix (fx & A & B & C). exists fx. split_and!; [by etrans|by etrans|done].
Qed.

(** The open file is sealed: whatever others do, it keeps the content it had. *)
Lemma open_sealed c p n : dinv c -> tmp_file p = false -> d_names c.2 !! p = Some n ->
  sealed c n /\ exists b, d_inodes c.2 !! n = Some b /\ latest d0 (effects c.1) p = Some b.
Proof.
  intros Hinv Hp Hn. destruct (wf_inode _ (inv_wf _ _ _ Hinv) _ _ Hn) as [Hf [b Hb]]. split.
  - split; [done|]. intros t [j Hj] Ht. apply (inv_owned _ _ _ Hinv) in Hj as [Htf _].
    rewrite (wf_one_name _ (inv_wf _ _ _ Hinv) _ _ _ Ht Hn) in Htf. congruence.
  - exists b. split; [done|]. rewrite <- (inv_visible _ _ _ Hinv p Hp). by rewrite (content_name _ _ _ Hn).
Qed.

Lemma wp_read_checked i p max (Q : option bytes -> cfg -> Prop) E c : dinv c -> tmp_file p = false ->
  (forall c' o, drel i c c' -> (forall payload, o = Some payload -> zlen payload <= max /\ held_during c c' p (frame payload)) ->
     Q o c') ->
  dwp i (read_checked_p p max) Q E c.
Proof.
  intros Hinv Hp HQ. unfold read_checked_p.
  destruct (checked_add max HEADER) as [limit|] eqn:El; [|apply HQ; [by apply drel_refl|done]].
  apply checked_add_Some in El as [-> El].
  apply wp_bind, wp_d_read. { intros w. unfold d_open. destruct (d_draw w) as [[] ?]; [done|]. by destruct (_ !! _). }
  intros c1 H1 w Hn Hi. unfold d_open. pose proof (draw_names w) as Hdn. destruct (d_draw w) as [[k|] w1]; cbn [snd] in *.
  { cbn. by apply HQ. }
  rewrite Hdn, <- Hn. destruct (d_names c1.2 !! p) as [n|] eqn:En; [|cbn; by apply HQ]. cbn [snd].
  destruct (open_sealed c1 p n (rel_inv _ _ _ _ _ H1) Hp En) as (Hs & b & Hb & Hl).
  apply wp_bind, wp_d_read. { intros x. unfold d_len. by destruct (d_draw x) as [[]]. }
  intros c2 H2 w2 Hn2 Hi2. destruct (rel_sealed _ _ _ _ _ H2 n Hs) as [Hs2 Hb2].
  assert (drel i c c2) as H02 by by eapply drel_trans.
  unfold d_len. pose proof (draw_inodes w2) as Hdi. destruct (d_draw w2) as [[k|] w2']; cbn [snd] in *; [cbn; by apply HQ|].
  rewrite Hdi, <- Hi2, Hb2, Hb. cbn [default from_option id]. destruct (_ <? zlen b) eqn:E1; zbool; [cbn; by apply HQ|].
  apply wp_bind, wp_d_read. { intros x. unfold d_read_at_most. by destruct (d_draw x) as [[]]. }
  intros c3 H3 w3 Hn3 Hi3. destruct (rel_sealed _ _ _ _ _ H3 n Hs2) as [_ Hb3].
  assert (drel i c c3) as H03 by by eapply drel_trans.
  unfold d_read_at_most. pose proof (draw_inodes w3) as Hdi3. destruct (d_draw w3) as [[k|] w3']; cbn [snd] in *; [cbn; by apply HQ|].
  rewrite Hdi3, <- Hi3, Hb3, Hb2, Hb. cbn [default from_option id wp]. apply HQ; [done|]. intros payload Hpay.
  destruct (_ <? zlen _); [done|]. apply unframe_read in Hpay as ->; [|lia..]. rewrite zlen_frame in E1. split; [lia|].
  exists (effects c1.1). split_and!; [by apply effects_prefix, (drel_prefix i)| |done].
  apply effects_prefix. etrans; [by apply (drel_prefix i)|by apply (drel_prefix i)].
Qed.

Lemma wp_load i ca p key max (Q : option bytes -> cfg -> Prop) E c : dinv c -> tmp_file p = false -> is_u64 (zlen key) ->
  (forall c' o, drel i c c' -> (forall d, o = Some d -> zlen d <= max /\
     exists id, c_identity ca = Some id /\ held_during c c' p (record_file id key d)) -> Q o c') ->
  dwp i (load_p ca p key max) Q E c.
Proof.
  intros Hinv Hp Hk HQ. unfold load_p. destruct (c_identity ca) as [id|]; [|apply HQ; [by apply drel_refl|done]].
  destruct (_ ≫= _) as [mp|] eqn:Em; [|apply HQ; [by apply drel_refl|done]]. apply load_limit in Em.
  apply wp_bind, wp_read_checked; [done..|]. intros c' o Hr Ho. cbn [wp]. apply HQ; [done|]. intros d Hd.
  destruct o as [payload|]; [|done]. cbn in Hd. apply parse_record_Some in Hd; [|done].
  destruct (Ho _ eq_refl) as [Hz Hh]. rewrite Hd, zlen_payload_of in Hz. split; [lia|].
  exists id. split; [done|]. unfold record_file. by rewrite <- Hd.
Qed.

(** ** Cache operations *)

(** The file of a hit, and which operation may return it. *)
Definition hit_path (ca : Cache) (h : Hit) : path :=
  match h with HitWal _ _ => wal_path ca | HitSnapshot key _ => snap_path ca key end.
Definition hit_record (id : bytes) (h : Hit) : bytes :=
  match h with
  | HitWal etag image => record_file id (as_bytes "wal") (wal_data etag image)
  | HitSnapshot key d => record_file id (as_bytes key) d
  end.
Definition hit_of (o : CacheOp) (h : Hit) : Prop :=
  match o, h with
  | LoadWal max, HitWal etag image => zlen image <= max /\ str_len etag <= U16_MAX
  | LoadSnapshot key max, HitSnapshot key' d => key' = key /\ zlen d <= max
  | _, _ => False
  end.

(** What an operation may do to which file. *)
Definition op_effect (ca : Cache) (o : CacheOp) p (x : option bytes) : Prop :=
  exists id, c_identity ca = Some id /\
  match o with
  | SaveWal etag image => str_len etag <= U16_MAX /\ p = wal_path ca /\ x = Some (hit_record id (HitWal etag image))
  | SaveSnapshot key d => p = snap_path ca key /\ x = Some (hit_record id (HitSnapshot key d))
  | RemoveSnapshot key => p = snap_path ca key /\ x = None
  | RetainSnapshot keep => is_snap_file p = true /\ Some p <> (snap_path ca <$> keep) /\ x = None
  | _ => False
  end.

Lemma wal_path_visible ca : tmp_file (wal_path ca) = false.
Proof. unfold tmp_file, wal_path. by rewrite last_snoc. Qed.
Lemma snap_file_visible p : is_snap_file p = true -> tmp_file p = false.
Proof.
  unfold is_snap_file, tmp_file. destruct (last p) as [s|]; [|done]. destruct s as [|a s]; [done|].
  cbn [String.prefix]. destruct (Ascii.ascii_dec _ a) as [<-|]; [|done]. done.
Qed.
Lemma snap_path_file ca key : is_snap_file (snap_path ca key) = true.
Proof. unfold is_snap_file, snap_path. rewrite last_snoc. apply prefix_of_app. Qed.
Lemma snap_path_visible ca key : tmp_file (snap_path ca key) = false.
Proof. apply snap_file_visible, snap_path_file. Qed.


(** A save publishes its record or has no effect. *)
Lemma wp_save i q ca p key fields body (Q : unit -> cfg -> Prop) E c : is_u64 q -> dinv c -> tmp_file p = false ->
  (forall id, c_identity ca = Some id -> allowed i p (Some (record_file id key (concat fields ++ body)))) ->
  (forall c' fx, ran i c [] fx c' ->
     fx = [] \/ (exists id, c_identity ca = Some id /\ fx = [(i, p, Some (record_file id key (concat fields ++ body)))]) ->
     Q tt c') ->
  dwp i (save_p fuel q ca p key fields body) Q E c.
Proof.
  intros Hq Hinv Hp Hall HQ.
  assert (Q tt c) as Hnone by (eapply HQ; [by apply ran_rel, drel_refl|by left]).
  unfold save_p. destruct (c_identity ca) as [id|] eqn:Ei; [|done].
  destruct (sum_checked _ _) as [pl|] eqn:Es; [|done]. destruct (checked_add _ _) as [n|] eqn:En; [|done].
  pose proof (frame_prefix_concat _ _ _ _ _ _ Es En) as Hf.
  apply wp_bind, wp_write_atomic; [done..|rewrite Hf; by apply Hall| |].
  - intros c' Hr. cbn. eapply HQ; [done|]. right. exists id. by rewrite Hf.
  - intros c' e Hr _. cbn. eapply HQ; [done|by left].
Qed.

(** An effect of a sweep: a snapshot file but the kept one is removed. *)
Definition swept (i : nat) (keep : option path) (e : Effect) : Prop :=
  e.1.1 = i /\ is_snap_file e.1.2 = true /\ Some e.1.2 <> keep /\ e.2 = None.

Lemma wp_sweep i keep entries (Q : unit -> cfg -> Prop) E c0 fx c : ran i c0 [] fx c ->
  Forall (swept i keep) fx ->
  (forall p, is_snap_file p = true -> Some p <> keep -> allowed i p None) ->
  (forall c' fy, ran i c0 [] fy c' -> Forall (swept i keep) fy -> Q tt c') ->
  dwp i (sweep_p keep entries) Q E c.
Proof.
  intros Hran Hfx Hall HQ. revert fx c Hran Hfx. induction entries as [|p entries IH]; intros fx c Hran Hfx; [by eapply HQ|].
  cbn [sweep_p]. destruct (_ && _) eqn:Ec; [|by eapply IH].
  apply andb_true_iff in Ec as [Hs Hk%negb_true_iff]. apply bool_decide_eq_false in Hk.
  apply wp_bind, wp_remove.
  { right. split; [by apply snap_file_visible|by apply Hall]. }
  intros c' r [Hr|[_ Hr]]; (eapply IH; [exact (ran_trans _ _ _ _ [] [] _ _ Hran Hr)|]); apply Forall_app; split;
    [done|constructor|done|by repeat constructor].
Qed.

(** A hit of operation [o] is a record that its file held during the call. *)
Definition hit_ok (ca : Cache) (o : CacheOp) c c' (h : Hit) : Prop :=
  hit_of o h /\ exists id, c_identity ca = Some id /\ held_during c c' (hit_path ca h) (hit_record id h).

(** What an operation has done: nothing, or its effect, once; a retention may
    remove several files. *)
Definition op_did (i : nat) (ca : Cache) (o : CacheOp) (fx : list Effect) : Prop :=
  Forall (fun e => e.1.1 = i /\ op_effect ca o e.1.2 e.2) fx
  /\ match o with RetainSnapshot _ => True | _ => (length fx <= 1)%nat end.

(** The strings of an operation fit in memory, as Rust strings do. *)
Definition op_sane (o : CacheOp) : Prop := match o with LoadSnapshot key _ => sane_str key | SaveSnapshot key _ => sane_str key | _ => True end.

Lemma wp_load_wal_p i ca max (Q : option (string * bytes) -> cfg -> Prop) E c : dinv c ->
  (forall c' r, drel i c c' -> (forall etag image, r = Some (etag, image) -> hit_ok ca (LoadWal max) c c' (HitWal etag image)) ->
     Q r c') ->
  dwp i (load_wal_p ca max) Q E c.
Proof.
  intros Hinv HQ. unfold load_wal_p. destruct (c_identity ca) as [id|] eqn:Ei; [|apply HQ; [by apply drel_refl|done]].
  destruct (checked_add _ _) as [md|]; [|apply HQ; [by apply drel_refl|done]].
  apply wp_bind, wp_load; [done|apply wal_path_visible|by split; vm_compute|].
  intros c' o Hr Ho. cbn. apply HQ; [done|]. intros etag image Hw.
  destruct o as [data|]; [|done]. cbn in Hw. apply parse_wal_Some in Hw as (-> & Hz & _ & He).
  split; [by split|]. by destruct (Ho _ eq_refl) as [_ Hh].
Qed.

Lemma op_did_nil i ca o : op_did i ca o [].
Proof. split; [constructor|]. destruct o; cbn; try done; lia. Qed.
Lemma op_did_one i ca o p x : op_effect ca o p x -> op_did i ca o [(i, p, x)].
Proof. intros H. split; [by repeat constructor|]. destruct o; cbn; try done; lia. Qed.

(** The two saves: [o] is allowed the effect that [save_p] may have. *)
Lemma wp_save_op i q ca o p key fields body (Q : list Hit -> cfg -> Prop) E c : is_u64 q -> dinv c -> tmp_file p = false ->
  (forall p x, op_effect ca o p x -> allowed i p x) ->
  (forall id, c_identity ca = Some id -> op_effect ca o p (Some (record_file id key (concat fields ++ body)))) ->
  (forall c' fx, ran i c [] fx c' -> op_did i ca o fx -> Q [] c') ->
  dwp i (let! _ := save_p fuel q ca p key fields body in Ret []) Q E c.
Proof.
  intros Hq Hinv Hp Hall Heff HQ. apply wp_bind, wp_save; [done..|intros id Hid; by apply Hall, Heff|].
  intros c' fx Hr Hfx. cbn. apply (HQ _ fx Hr). destruct Hfx as [->|(id & Hid & ->)]; [apply op_did_nil|].
  by apply op_did_one, Heff.
Qed.

Lemma wp_op i q ca o (Q : list Hit -> cfg -> Prop) E c : is_u64 q -> dinv c -> op_sane o ->
  (forall p x, op_effect ca o p x -> allowed i p x) ->
  (forall c' fx hits, ran i c [] fx c' -> op_did i ca o fx -> Forall (hit_ok ca o c c') hits -> Q hits c') ->
  dwp i (run_cache_op fuel q ca o) Q E c.
Proof.
  intros Hq Hinv Hsane Hall HQ.
  assert (forall c' fx, ran i c [] fx c' -> op_did i ca o fx -> Q [] c') as HQ0 by (intros; by eapply HQ).
  assert (forall c' hits, drel i c c' -> Forall (hit_ok ca o c c') hits -> Q hits c') as HQr.
  { intros c' hits Hr. eapply HQ; [by apply ran_rel|apply op_did_nil]. }
  assert (Q [] c) as Hnone by (apply HQr; [by apply drel_refl|constructor]).
  destruct o as [etag image|key d|max|key max|key|keep]; cbn [run_cache_op].
  - unfold save_wal_p. destruct (c_identity ca) as [id|] eqn:Ei; [|done].
    destruct (_ <? _) eqn:Ee; zbool; [done|].
    eapply wp_save_op; [done|done|apply wal_path_visible|exact Hall| |exact HQ0].
    intros id' Hid. exists id'. split_and!; [congruence|done..|].
    unfold hit_record, wal_data. cbn [concat]. by rewrite app_nil_r, <- app_assoc.
  - unfold save_snapshot_p. destruct (c_identity ca) as [id|] eqn:Ei; [|done].
    eapply wp_save_op; [done|done|apply snap_path_visible|exact Hall| |exact HQ0].
    intros id' Hid. exists id'. split_and!; [congruence|done..].
  - apply wp_bind, wp_load_wal_p; [done|]. intros c' r Hr Hh. cbn. apply HQr; [done|].
    destruct r as [[etag image]|]; [|constructor]. constructor; [by apply Hh|constructor].
  - apply wp_bind. unfold load_snapshot_p. destruct (c_identity ca) as [id|] eqn:Ei; [|done].
    apply wp_load; [done|apply snap_path_visible|by apply sane_str_u64|]. intros c' r Hr Hh. cbn.
    apply HQr; [done|]. destruct r as [d|]; [|constructor]. constructor; [|constructor].
    destruct (Hh _ eq_refl) as [Hz Hd]. by split.
  - apply wp_bind. unfold remove_snapshot_p. destruct (c_identity ca) as [id|] eqn:Ei; [|done].
    assert (op_effect ca (RemoveSnapshot key) (snap_path ca key) None) as He by by exists id.
    apply wp_bind, wp_remove; [right; split; [apply snap_path_visible|by apply Hall]|].
    intros c' r [Hr|[_ Hr]]; (eapply HQ0; [exact Hr|]); [apply op_did_nil|by apply op_did_one].
  - apply wp_bind. unfold retain_snapshot_p. destruct (c_identity ca) as [id|] eqn:Ei; [|done].
    apply wp_bind, wp_d_read. { intros w. unfold d_read_dir. by destruct (d_draw w) as [[]]. }
    intros c' Hr w _ _. destruct (d_read_dir _ w).2 as [entries|]; [|by apply HQr].
    eapply wp_sweep; [by apply ran_rel|constructor|intros p Hs Hk; apply Hall; by exists id|].
    intros c1 fy Hr1 Hfy. eapply HQ0; [exact Hr1|]. split; [|done]. eapply Forall_impl; [exact Hfy|].
    intros e (He & Hs & Hk & Hx). split; [done|]. by exists id.
Qed.

(** The thread's own effects among some. *)
Definition own (i : nat) (fx : list Effect) : list Effect := filter (fun e => e.1.1 = i) fx.

(** The operations [os] of thread [i] in the one order in which the effects of
    all threads happen: from the effects [fx] to the effects at the end, each
    operation spans a stretch of it, after those before it; its own effects lie
    there, and what it hit is what the file holds at some point of it. *)
Inductive in_order (i : nat) (ca : Cache) : list Effect -> list CacheOp -> list Hit -> list Effect -> Prop :=
  | in_order_nil fx : in_order i ca fx [] [] fx
  | in_order_op fx o gap hits os more fz :
      op_did i ca o (own i gap) ->
      Forall (fun h => hit_of o h /\ exists id seen, c_identity ca = Some id /\ seen `prefix_of` gap /\
        latest d0 (fx ++ seen) (hit_path ca h) = Some (hit_record id h)) hits ->
      in_order i ca (fx ++ gap) os more fz ->
      in_order i ca fx (o :: os) (hits ++ more) fz.

Lemma in_order_prefix i ca fx os hits fz : in_order i ca fx os hits fz -> fx `prefix_of` fz.
Proof. induction 1 as [|fx o gap hits os more fz _ _ _ IH]; [done|]. etrans; [|exact IH]. by eexists. Qed.

(** A hit is what its file held at some point. *)
Lemma in_order_hits i ca fx os hits fz h : in_order i ca fx os hits fz -> h ∈ hits ->
  exists o id fm, o ∈ os /\ hit_of o h /\ c_identity ca = Some id /\ fm `prefix_of` fz
    /\ latest d0 fm (hit_path ca h) = Some (hit_record id h).
Proof.
  induction 1 as [|fx o gap hits os more fz _ Hh Ho IH]; [by intros ?%elem_of_nil|]. intros [Hin|Hin]%elem_of_app.
  - rewrite Forall_forall in Hh. destruct (Hh h Hin) as (Hof & id & seen & Hid & Hs & Hl).
    exists o, id, (fx ++ seen). split_and!; [by left|done|done| |done].
    etrans; [|by eapply in_order_prefix]. by apply prefix_app.
  - destruct (IH Hin) as (o' & id & fm & Ho' & H). exists o', id, fm. split; [by right|done].
Qed.

Lemma in_order_first i ca o os c c1 fx hits more fz : ran i c [] fx c1 -> op_did i ca o fx ->
  Forall (hit_ok ca o c c1) hits -> in_order i ca (effects c1.1) os more fz ->
  in_order i ca (effects c.1) (o :: os) (hits ++ more) fz.
Proof.
  intros Hr Hd Hh. destruct (effects_prefix _ _ (ran_trace _ _ _ _ _ Hr)) as [gap Hgap]. rewrite Hgap.
  apply in_order_op.
  - enough (own i gap = fx) as -> by done. pose proof (ran_fx _ _ _ _ _ Hr) as H. unfold effects_of in H.
    rewrite Hgap, filter_app in H. by apply app_inv_head in H.
  - eapply Forall_impl; [exact Hh|]. intros h (Hof & id & Hid & fm & [seen ->] & Hp & Hl). split; [done|].
    exists id, seen. split_and!; [done| |done]. rewrite Hgap in Hp. by apply prefix_app_inv in Hp.
Qed.

(** A thread's operations, one after the other. *)
Lemma wp_cache_thread i q ca os (Q : list Hit -> cfg -> Prop) E c : is_u64 q -> dinv c -> Forall op_sane os ->
  (forall o p x, o ∈ os -> op_effect ca o p x -> allowed i p x) ->
  (forall c' fx hits, ran i c [] fx c' -> in_order i ca (effects c.1) os hits (effects c'.1) -> Q hits c') ->
  dwp i (cache_thread fuel q ca os) Q E c.
Proof.
  intros Hq Hinv Hsane Hall HQ. revert c Q Hinv HQ. induction Hsane as [|o os Ho Hos IH]; intros c Q Hinv HQ.
  { cbn. eapply HQ; [by apply ran_rel, drel_refl|constructor]. }
  cbn [cache_thread]. apply wp_bind, wp_op; [done..|intros; eapply Hall; [|done]; set_solver|].
  intros c1 fx1 hits Hr1 Hd1 Hh1. apply wp_bind.
  apply IH; [intros; eapply Hall; [|done]; set_solver|by apply (ran_inv _ _ _ _ _ Hr1)|].
  intros c2 fx2 hits2 Hr2 Hh2. cbn. eapply HQ; [exact (ran_trans _ _ _ _ [] [] _ _ Hr1 Hr2)|].
  by eapply in_order_first.
Qed.

(** A thread that publishes: [rs] are the results. *)
Definition published (i : nat) (jobs : list (path * list bytes)) (rs : list (Result unit IoErr)) : list Effect :=
  omap (fun '((p, parts), r) => match r with Ok _ => Some (i, p, Some (concat parts)) | Err _ => None end) (zip jobs rs).

Lemma wp_publish_all i q jobs (Q : list (Result unit IoErr) -> cfg -> Prop) E c : is_u64 q -> dinv c ->
  Forall (fun '(p, parts) => tmp_file p = false /\ allowed i p (Some (concat parts))) jobs ->
  (forall c' rs, ran i c [] (published i jobs rs) c' -> length rs = length jobs ->
     (d_io c.2 = [] -> Forall (fun r => r = Ok tt) rs) -> Q rs c') ->
  dwp i (publish_all fuel q jobs) Q E c.
Proof.
  intros Hq Hinv Hall HQ. revert c Q Hinv HQ. induction Hall as [|[p parts] jobs [Hp Ha] _ IH]; intros c Q Hinv HQ.
  { cbn. apply HQ; [by apply ran_rel, drel_refl|done|by constructor]. }
  cbn [publish_all]. apply wp_bind, wp_write_atomic; [done..| |].
  - intros c1 Hr1. apply wp_bind, IH; [by apply (ran_inv _ _ _ _ _ Hr1)|]. intros c2 rs Hr2 Hl Hok. cbn.
    apply HQ; [exact (ran_trans _ _ _ _ [] [] _ _ Hr1 Hr2)|cbn; lia|].
    intros Hio. constructor; [done|]. by apply Hok, (ran_io _ _ _ _ _ Hr1).
  - intros c1 e Hr1 Hio1. apply wp_bind, IH; [by apply (ran_inv _ _ _ _ _ Hr1)|]. intros c2 rs Hr2 Hl Hok. cbn.
    apply HQ; [exact (ran_trans _ _ _ _ [] [] [] _ Hr1 Hr2)|cbn; lia|]. done.
Qed.

End shared_props.
