(* ===== verification/SharedTheorems.v ===== *)
(** * Any number of threads and processes in one directory

    The threads run interleaved call by call, under any faults. What holds of
    [write_atomic] and of the cache operations then, whoever else uses the
    directory. *)

From S2P Require Import Prelude Fmt Utf8 Atomic AtomicProps Cache CacheChecksum CacheProps CacheTheorems Proc Disk SharedCache SharedInv SharedSteps SharedProps.

(** A disk on which processes may start: any files, any numbers drawn. *)
Record machine_ok (d0 : Disk) : Prop := {
  start_wf : disk_wf d0;
  start_calls : forall q, 0 <= calls d0 q;
}.

Section pools.
Context {X : Type}.
Abbreviation pool := ((Trace * Disk) * list (proc Disk X))%type.

(** One call of one thread. *)
Definition disk_step : pool -> pool -> Prop := pstep sane_disk observe (fun _ => None).

Lemma step_threads s s' : disk_step s s' -> length s'.2 = length s.2 /\
  exists i evs, (i < length s.2)%nat /\ s'.1.1 = s.1.1 ++ (pair i <$> evs).
Proof.
  intros Hs. destruct Hs as [i R f k c ps w2 r Hi Hf Hsane|c ps w2 p Hsp]; [|done]. cbn.
  split; [apply length_insert|]. exists i. eexists. split; [by eapply lookup_lt_Some|]. unfold observe. done.
Qed.

Lemma owner_created g t i : owners g !! t = Some i -> (i, Created t) ∈ g.
Proof.
  induction g as [|e g IH] using rev_ind; [done|]. rewrite owners_snoc. intros H. apply elem_of_app.
  destruct e as [j e]. unfold own_step in H. cbn in H. destruct e as [| p|a b x|p].
  - left. by apply IH.
  - apply lookup_insert_Some in H as [[<- <-]|[_ H]]; [right; set_solver|left; by apply IH].
  - apply lookup_delete_Some in H as [_ H]. left. by apply IH.
  - apply lookup_delete_Some in H as [_ H]. left. by apply IH.
Qed.

(** Only the threads of the pool do anything. *)
Lemma run_threads s s' : rtc disk_step s s' -> Forall (fun e => e.1 < length s.2)%nat s.1.1 ->
  length s'.2 = length s.2 /\ Forall (fun e => e.1 < length s.2)%nat s'.1.1.
Proof.
  intros Hrun. induction Hrun as [s|s1 s2 s3 Hstep _ IH]; [done|]. intros H.
  apply step_threads in Hstep as (Hl & i & evs & Hi & He). rewrite <- Hl in *. apply IH. rewrite He.
  apply Forall_app. split; [done|]. apply Forall_fmap, Forall_true. intros e. done.
Qed.

Section reached.
Variable d0 : Disk.
Hypothesis Hmachine : machine_ok d0.
Variable allowed : nat -> path -> option bytes -> Prop.
Abbreviation dinv := (dinv d0 allowed).
Abbreviation dguar := (dguar d0 allowed).
Abbreviation drel := (drel d0 allowed).
Abbreviation never := (fun (_ : nat) (_ : Proc.cfg) => False).
Variable threads : list (proc Disk X).
Variable Q : nat -> X -> Trace * Disk -> Prop.
Hypothesis threads_ok : forall i p, threads !! i = Some p ->
  dinv ([], d0) -> wp sane_disk observe drel dguar never i p (Q i) no_panic ([], d0).
Hypothesis Q_stable : forall i x c c', drel i c c' -> Q i x c -> Q i x c'.

Lemma start_inv : dinv ([], d0).
Proof.
  destruct Hmachine as [H1 H2]. constructor; cbn; try done; try (intros; by eauto); intros *; by rewrite elem_of_nil.
Qed.

Abbreviation ok := (pool_ok sane_disk observe dinv drel dguar never Q 0).

Lemma disk_reached_ok c ps : rtc disk_step (([], d0), threads) (c, ps) -> ok (c, ps).
Proof.
  intros Hrun. eapply (pool_sound sane_disk observe dinv drel dguar never (fun _ => None)); [..|exact Hrun|].
  - intros. by apply drel_refl.
  - intros. by eapply drel_trans.
  - intros. by eapply dguar_inv.
  - intros. by eapply dguar_rel.
  - done.
  - split; [apply start_inv|]. split; [cbn; lia|]. intros i p Hp. exists ([], d0).
    split; [by apply threads_ok, start_inv|]. apply drel_refl, start_inv.
Qed.

Lemma reached_inv c ps : rtc disk_step (([], d0), threads) (c, ps) -> dinv c.
Proof. intros Hrun. apply (disk_reached_ok _ _ Hrun). Qed.

Lemma disk_reached_done c ps i x : rtc disk_step (([], d0), threads) (c, ps) -> ps !! i = Some (Ret x) -> Q i x c.
Proof.
  intros Hrun Hi. destruct (disk_reached_ok _ _ Hrun) as (_ & _ & Hall). destruct (Hall i _ Hi) as (c1 & Hd & Hr).
  by eapply Q_stable.
Qed.

Lemma reached_no_panic c ps i m : rtc disk_step (([], d0), threads) (c, ps) -> ps !! i <> Some (Panic m).
Proof.
  intros Hrun Hi. destruct (disk_reached_ok _ _ Hrun) as (_ & _ & Hall). by destruct (Hall i _ Hi) as (c1 & Hd & _).
Qed.

(** The temporary files of the start are untouched, and there are no others
    once every thread has returned and owns none. *)
Lemma reached_stale c ps t : rtc disk_step (([], d0), threads) (c, ps) ->
  tmp_file t = true -> is_Some (content d0 t) -> content c.2 t = content d0 t.
Proof.
  intros Hrun%reached_inv Ht [b Hb]. unfold content in Hb |- *. destruct (d_names d0 !! t) as [n|] eqn:En; [|done].
  destruct (inv_stale _ _ _ Hrun t n Ht En) as [-> H]. cbn. by rewrite H.
Qed.

Lemma reached_clean c ps t : rtc disk_step (([], d0), threads) (c, ps) ->
  (forall i p, ps !! i = Some p -> exists x, p = Ret x) ->
  (forall i x, Q i x c -> owners c.1 !! t <> Some i) ->
  tmp_file t = true -> content c.2 t = content d0 t.
Proof.
  intros Hrun Hret HQ Ht. destruct (content d0 t) as [b|] eqn:E0; [rewrite <- E0; by eapply reached_stale; eauto|].
  apply content_none in E0; [|apply Hmachine]. pose proof (reached_inv _ _ Hrun) as Hinv.
  apply content_none; [apply Hinv|]. destruct (d_names c.2 !! t) as [n|] eqn:En; [exfalso|done].
  destruct (inv_tmp _ _ _ Hinv t Ht) as [[m Hm]|[i Hi]]; [by eauto|congruence|].
  apply run_threads in Hrun as Hth; [|by constructor]. destruct Hth as [Hl Hf]. cbn in Hl, Hf. rewrite Forall_forall in Hf.
  pose proof (Hf _ (owner_created _ _ _ Hi)) as Hlt. cbn in Hlt. rewrite <- Hl in Hlt.
  apply lookup_lt_is_Some in Hlt as [p Hp]. destruct (Hret _ _ Hp) as [x ->].
  eapply HQ; [by eapply disk_reached_done|done].
Qed.

(** Nobody waits: a thread that has not returned can make its next call. *)
Definition can_call (p : proc Disk X) (w : Disk) : Prop :=
  match p with Act f _ => is_Some (f w) | _ => False end.

Lemma reached_live c ps i p : rtc disk_step (([], d0), threads) (c, ps) -> ps !! i = Some p ->
  (exists x, p = Ret x) \/ can_call p c.2.
Proof.
  intros Hrun Hp. destruct p as [x|R f k|m]; [left; by exists x|right|by eapply reached_no_panic in Hp].
  cbn. destruct (f c.2) as [r|] eqn:Ef; [by eexists|exfalso].
  exact (pool_ok_waits sane_disk observe dinv drel dguar never Q 0 (c, ps) i R f k (disk_reached_ok _ _ Hrun) Hp Ef).
Qed.

End reached.
End pools.

(** A visible file is as it was or as one effect left it. *)
Lemma visible_cases d0 allowed c p : dinv d0 allowed c -> tmp_file p = false ->
  content c.2 p = content d0 p \/ exists i, allowed i p (content c.2 p).
Proof.
  intros Hinv Hp. rewrite (inv_visible _ _ _ Hinv p Hp).
  destruct (latest_cases d0 (effects c.1) p) as [H|[i H]]; [by left|right]. exists i. by apply (inv_allowed _ _ _ Hinv).
Qed.

(** ** Writers that publish files *)

Section publishers.
Variable d0 : Disk.
Hypothesis Hmachine : machine_ok d0.
Variable fuel : nat.
Hypothesis fuel_enough : (2 + size (d_names d0) <= fuel)%nat.
(** Each writer's process, and what it publishes where. *)
Variable writers : list (process * list (path * list bytes)).
(** Process identifiers fit in a [u32]; targets are not temporary names. *)
Hypothesis writers_u64 : forall i q jobs, writers !! i = Some (q, jobs) -> is_u64 q.
Hypothesis targets_visible : forall i q jobs p parts, writers !! i = Some (q, jobs) -> (p, parts) ∈ jobs -> tmp_file p = false.

Definition writer_threads : list (proc Disk (list (Result unit IoErr))) :=
  (fun '(q, jobs) => publish_all fuel q jobs) <$> writers.

Definition requested (i : nat) (p : path) (x : option bytes) : Prop :=
  exists q jobs parts, writers !! i = Some (q, jobs) /\ (p, parts) ∈ jobs /\ x = Some (concat parts).

(** What a writer that returned [rs] has done. *)
Definition writer_done (i : nat) (rs : list (Result unit IoErr)) (c : Trace * Disk) : Prop :=
  forall q jobs, writers !! i = Some (q, jobs) ->
  effects_of i c.1 = published i jobs rs /\ length rs = length jobs /\
  (d_io d0 = [] -> Forall (fun r => r = Ok tt) rs /\ forall t, owners c.1 !! t <> Some i).

Abbreviation drel := (drel d0 requested).
Abbreviation dguar := (dguar d0 requested).
Abbreviation never := (fun (_ : nat) (_ : Proc.cfg) => False).

Lemma writer_done_stable i rs c c' : drel i c c' -> writer_done i rs c -> writer_done i rs c'.
Proof.
  intros Hr Hd q jobs Hw. destruct (Hd q jobs Hw) as (Hfx & Hl & Hh).
  destruct (rel_trace _ _ _ _ _ Hr) as (evs & He & Hf). split; [by rewrite He, effects_of_others|]. split; [done|].
  intros Hio. destruct (Hh Hio) as [H1 H2]. split; [done|]. intros t Ht. by apply (H2 t), (rel_own _ _ _ _ _ Hr).
Qed.

Lemma writers_ok i p : writer_threads !! i = Some p -> dinv d0 requested ([], d0) ->
  wp sane_disk observe drel dguar never i p (writer_done i) no_panic ([], d0).
Proof.
  intros Hp Hinv. apply list_lookup_fmap_Some in Hp as ([q jobs] & -> & Hw).
  apply wp_publish_all; [done|by eapply writers_u64|done| |].
  - apply Forall_forall. intros [p parts] Hin. split; [by eapply targets_visible|]. by exists q, jobs, parts.
  - intros c rs Hr Hl Hok q' jobs' Hw'. rewrite Hw in Hw'. injection Hw' as <- <-.
    split; [apply (ran_fx _ _ _ _ _ _ _ Hr)|]. split; [done|]. intros Hio. split; [by apply Hok|].
    intros t Ht. by destruct (ran_own _ _ _ _ _ _ _ Hr Hio t Ht) as [?|?%elem_of_nil].
Qed.

Abbreviation reached c ps := (rtc disk_step (([], d0), writer_threads) (c, ps)).

Lemma writers_inv c ps : reached c ps -> dinv d0 requested c.
Proof. apply (reached_inv d0 Hmachine requested writer_threads writer_done writers_ok). Qed.

Lemma writers_done c ps i rs : reached c ps -> ps !! i = Some (Ret rs) -> writer_done i rs c.
Proof. apply (disk_reached_done d0 Hmachine requested writer_threads writer_done writers_ok writer_done_stable). Qed.

End publishers.

(** C18. Overlapping publication. Whatever threads of whatever processes publish
    through [write_atomic] into shared directories, interleaved call by call
    under any I/O faults: at every moment each file is as it was at the start
    or is the complete content of one requested publication; temporary files
    of others are never touched; no search for a temporary name fails; a
    writer that has returned had exactly the effects it reported, in order;
    and without I/O faults every publication succeeds and no temporary file
    is left. *)
Theorem overlapping_writers_publish_complete_frames d0 fuel writers c ps :
  machine_ok d0 -> (2 + size (d_names d0) <= fuel)%nat ->
  (forall i q jobs, writers !! i = Some (q, jobs) -> is_u64 q) ->
  (forall i q jobs p parts, writers !! i = Some (q, jobs) -> (p, parts) ∈ jobs -> tmp_file p = false) ->
  rtc disk_step (([], d0), writer_threads fuel writers) (c, ps) ->
  (forall p, tmp_file p = false -> content c.2 p = content d0 p \/ exists i, requested writers i p (content c.2 p))
  /\ (forall t, tmp_file t = true -> is_Some (content d0 t) -> content c.2 t = content d0 t)
  /\ (forall i m, ps !! i <> Some (Panic m))
  /\ (forall i q jobs rs, writers !! i = Some (q, jobs) -> ps !! i = Some (Ret rs) ->
        effects_of i c.1 = published i jobs rs /\ length rs = length jobs)
  /\ (d_io d0 = [] -> (forall i p, ps !! i = Some p -> exists rs, p = Ret rs) ->
        (forall i rs, ps !! i = Some (Ret rs) -> Forall (fun r => r = Ok tt) rs)
        /\ forall t, tmp_file t = true -> content c.2 t = content d0 t).
Proof.
  intros Hm Hf Hu Hv Hrun. pose proof (writers_ok d0 fuel Hf writers Hu Hv) as Hok.
  pose proof (writers_inv d0 Hm fuel Hf writers Hu Hv _ _ Hrun) as Hinv.
  pose proof (fun i rs => writers_done d0 Hm fuel Hf writers Hu Hv _ _ i rs Hrun) as Hdone.
  pose proof (writer_done_stable d0 writers) as Hst.
  assert (forall i rs, ps !! i = Some (Ret rs) -> exists q jobs, writers !! i = Some (q, jobs)) as Hwr.
  { intros i rs Hi. apply run_threads in Hrun as [Hl _]; [|by constructor]. cbn in Hl.
    assert (is_Some (writers !! i)) as [[q jobs] ?]; [|by eauto].
    apply lookup_lt_is_Some. unfold writer_threads in Hl. rewrite length_fmap in Hl. rewrite <- Hl. by eapply lookup_lt_Some. }
  split_and!.
  - intros p Hp. by apply visible_cases.
  - intros t Ht Hs. by eapply (reached_stale _ Hm _ _ _ Hok).
  - intros i m. by eapply (reached_no_panic _ Hm _ _ _ Hok).
  - intros i q jobs rs Hw Hi. by destruct (Hdone i rs Hi q jobs Hw) as (H1 & H2 & _).
  - intros Hio Hret. split.
    + intros i rs Hi. destruct (Hwr _ _ Hi) as (q & jobs & Hw). by destruct (Hdone i rs Hi q jobs Hw) as (_ & _ & H); apply H.
    + intros t Ht. eapply (reached_clean _ Hm _ _ _ Hok Hst); [done|done| |done].
      intros i rs Hd Ho. destruct (decide (is_Some (writers !! i))) as [[[q jobs] Hw]|Hn].
      * destruct (Hd q jobs Hw) as (_ & _ & H). by apply (H Hio) in Ho.
      * apply owner_created in Ho. apply run_threads in Hrun as [_ Hall]; [|by constructor].
        rewrite Forall_forall in Hall. apply Hall in Ho. cbn in Ho. unfold writer_threads in Ho. rewrite length_fmap in Ho.
        apply Hn. by apply lookup_lt_is_Some.
Qed.

(** What a file held during a run was there at the start or is an effect. *)
Lemma held_saved d0 allowed c p b : dinv d0 allowed c -> held_during d0 ([], d0) c p b ->
  content d0 p = Some b \/ exists j, allowed j p (Some b).
Proof.
  intros Hinv (fx & _ & [fy Hfx] & Hl). destruct (latest_cases d0 fx p) as [H|[j H]]; rewrite Hl in H; [by left|right].
  exists j. apply (inv_allowed _ _ _ Hinv). rewrite Hfx. set_solver.
Qed.

(** ** Clients of a cache directory *)

(** A client: its process, its cache and its operations. *)
Abbreviation CacheClient := (process * Cache * list CacheOp)%type.

Definition cache_threads (fuel : nat) (clients : list CacheClient)
  : list (proc Disk (list Hit)) :=
  (fun '(q, ca, os) => cache_thread fuel q ca os) <$> clients.

Definition client_effect (clients : list CacheClient) (i : nat) (p : path) (x : option bytes) : Prop :=
  exists q ca os o, clients !! i = Some (q, ca, os) /\ o ∈ os /\ op_effect ca o p x.

Section clients.
Variable d0 : Disk.
Hypothesis Hmachine : machine_ok d0.
Variable fuel : nat.
Hypothesis fuel_enough : (2 + size (d_names d0) <= fuel)%nat.
Variable clients : list CacheClient.
Hypothesis clients_sane : Forall (fun cl => is_u64 cl.1.1 /\ Forall op_sane cl.2) clients.
Abbreviation allowed := (client_effect clients).
Abbreviation drel := (drel d0 allowed).
Abbreviation dguar := (dguar d0 allowed).
Abbreviation never := (fun (_ : nat) (_ : Proc.cfg) => False).

(** What a client that returned [hits] was told, and has left. *)
Definition client_done (i : nat) (hits : list Hit) (c : Trace * Disk) : Prop :=
  forall q ca os, clients !! i = Some (q, ca, os) ->
  (exists fz, in_order d0 i ca [] os hits fz /\ fz `prefix_of` effects c.1 /\ own i fz = own i (effects c.1)) /\
  (d_io d0 = [] -> forall t, owners c.1 !! t <> Some i).

Lemma client_done_stable i hits c c' : drel i c c' -> client_done i hits c -> client_done i hits c'.
Proof.
  intros Hr Hd q ca os Hcl. destruct (Hd q ca os Hcl) as (Hh & Hc). split.
  - destruct Hh as (fz & Ho & Hp & Hown). exists fz. split; [done|].
    destruct (rel_trace _ _ _ _ _ Hr) as (evs & He & Hevs). split.
    + etrans; [done|]. rewrite He, effects_app. by eexists.
    + rewrite Hown, He. symmetry. by apply effects_of_others.
  - intros Hio t Ht. by apply (Hc Hio t), (rel_own _ _ _ _ _ Hr).
Qed.

Lemma clients_ok i p : cache_threads fuel clients !! i = Some p -> dinv d0 allowed ([], d0) ->
  wp sane_disk observe drel dguar never i p (client_done i) no_panic ([], d0).
Proof.
  intros Hp Hinv. apply list_lookup_fmap_Some in Hp as ([[q ca] os] & -> & Hcl).
  pose proof (Forall_lookup_1 _ _ _ _ clients_sane Hcl) as [Hq Hos]. apply wp_cache_thread; [done..| |].
  - intros o p x Ho He. by exists q, ca, os, o.
  - intros c fx hits Hr Hh q' ca' os' Hcl'. rewrite Hcl in Hcl'. injection Hcl' as <- <- <-.
    split; [by exists (effects c.1)|]. intros Hio t Ht. by destruct (ran_own _ _ _ _ _ _ _ Hr Hio t Ht) as [?|?%elem_of_nil].
Qed.

Abbreviation reached c ps := (rtc disk_step (([], d0), cache_threads fuel clients) (c, ps)).

Lemma clients_inv c ps : reached c ps -> dinv d0 allowed c.
Proof. apply (reached_inv d0 Hmachine allowed _ client_done clients_ok). Qed.

Lemma clients_done c ps i hits : reached c ps -> ps !! i = Some (Ret hits) -> client_done i hits c.
Proof. apply (disk_reached_done d0 Hmachine allowed _ client_done clients_ok client_done_stable). Qed.

End clients.

(** The operation that saves what [h] returned. *)
Definition save_of (h : Hit) : CacheOp :=
  match h with HitWal etag image => SaveWal etag image | HitSnapshot key d => SaveSnapshot key d end.

(** A client with an enabled cache of the log [wk] of backend [ns] in [dir]. *)
Definition client_of (q : process) (dir : path) (ns wk : string) (os : list CacheOp) : CacheClient :=
  (q, cache_at dir ns wk, os).
Definition clients_of (l : list (process * path * (string * string) * list CacheOp)) : list CacheClient :=
  (fun '(q, dir, (ns, wk), os) => client_of q dir ns wk os) <$> l.

Lemma hit_saved dir dir' ns wk ns' wk' o0 o h : sane_str ns -> sane_str wk -> sane_str ns' -> sane_str wk' ->
  op_sane o0 -> op_sane o -> hit_of o0 h ->
  op_effect (cache_at dir' ns' wk') o (hit_path (cache_at dir ns wk) h)
    (Some (hit_record (as_bytes (identity_of ns wk)) h)) ->
  ns = ns' /\ wk = wk' /\ o = save_of h.
Proof.
  intros ? ? ? ? Hs0 Hs Hof (id & [= <-] & He). assert (sane_str "wal") as Hw by by vm_compute.
  destruct h as [etag image|key d]; cbn [hit_path hit_record] in He.
  - destruct o as [etag' image'|key' d'|?|? ?|key'|keep]; [| |done..|by destruct He|by destruct He as (_ & _ & ?)].
    + destruct He as (He & _ & Heq%(inj Some)). apply record_file_inj in Heq as (-> & -> & _ & Hd); [|done..].
      destruct o0; try done. destruct Hof as [_ Hl]. by apply wal_data_inj in Hd as [-> ->].
    + destruct He as [Hp _]. by apply eq_sym, snap_path_not_wal in Hp.
  - destruct o as [etag' image'|key' d'|?|? ?|key'|keep]; [| |done..|by destruct He|by destruct He as (_ & _ & ?)].
    + destruct He as (_ & Hp & _). by apply snap_path_not_wal in Hp.
    + destruct He as [_ Heq%(inj Some)]. destruct o0; try done. destruct Hof as [-> _].
      by apply record_file_inj in Heq as (-> & -> & -> & ->).
Qed.

Section enabled_clients.
Variable d0 : Disk.
Hypothesis Hmachine : machine_ok d0.
Variable fuel : nat.
Hypothesis fuel_enough : (2 + size (d_names d0) <= fuel)%nat.
Variable l : list (process * path * (string * string) * list CacheOp).
Hypothesis l_sane :
  Forall (fun '(q, _, (ns, wk), os) => is_u64 q /\ sane_str ns /\ sane_str wk /\ Forall op_sane os) l.
Abbreviation reached c ps := (rtc disk_step (([], d0), cache_threads fuel (clients_of l)) (c, ps)).

Lemma clients_of_sane : Forall (fun cl => is_u64 cl.1.1 /\ Forall op_sane cl.2) (clients_of l).
Proof.
  apply Forall_fmap. eapply Forall_impl; [exact l_sane|]. by intros [[[q dir] [ns wk]] os] (? & _ & _ & ?).
Qed.

Lemma clients_of_lookup i q dir ns wk os : l !! i = Some (q, dir, (ns, wk), os) ->
  clients_of l !! i = Some (q, cache_at dir ns wk, os) /\ sane_str ns /\ sane_str wk /\ Forall op_sane os.
Proof.
  intros Hl. split; [unfold clients_of; by rewrite list_lookup_fmap, Hl|].
  pose proof (Forall_lookup_1 _ _ _ _ l_sane Hl) as (_ & H). done.
Qed.

(** What a client was told was in its file at the start, or a client of the
    same log saved it. *)
Lemma client_hits_saved c ps i q dir ns wk os hits h : reached c ps ->
  l !! i = Some (q, dir, (ns, wk), os) -> ps !! i = Some (Ret hits) -> h ∈ hits ->
  (exists o, o ∈ os /\ hit_of o h) /\
  (content d0 (hit_path (cache_at dir ns wk) h) = Some (hit_record (as_bytes (identity_of ns wk)) h)
   \/ exists j q' dir' os', l !! j = Some (q', dir', (ns, wk), os') /\ save_of h ∈ os').
Proof.
  intros Hrun Hl Hi Hh. destruct (clients_of_lookup _ _ _ _ _ _ Hl) as (Hci & Hns & Hwk & Hos).
  pose proof (clients_inv d0 Hmachine fuel fuel_enough (clients_of l) clients_of_sane _ _ Hrun) as Hinv.
  destruct (clients_done d0 Hmachine fuel fuel_enough (clients_of l) clients_of_sane _ _ _ _ Hrun Hi _ _ _ Hci) as [(fz & Hord & Hpre & _) _].
  destruct (in_order_hits _ _ _ _ _ _ _ h Hord Hh) as (o & id & fm & Ho & Hof & [= <-] & Hfm & Hl').
  assert (held_during d0 ([], d0) c (hit_path (cache_at dir ns wk) h) (hit_record (as_bytes (identity_of ns wk)) h)) as Hheld.
  { exists fm. split_and!; [apply prefix_nil|by etrans|done]. }
  split; [by exists o|].
  destruct (held_saved _ _ _ _ _ Hinv Hheld) as [H|(j & q' & ca' & os' & o' & Hj & Ho' & He)]; [by left|right].
  apply list_lookup_fmap_Some in Hj as ([[[q2 dir2] [ns2 wk2]] os2] & Heq & Hj). injection Heq as -> -> ->.
  destruct (clients_of_lookup _ _ _ _ _ _ Hj) as (_ & Hns2 & Hwk2 & Hos2). rewrite Forall_forall in Hos, Hos2.
  apply (hit_saved dir dir2 ns wk ns2 wk2 o) in He as (-> & -> & ->); [|auto..]. by eauto 10.
Qed.

(** Once every client has returned, and no I/O failed, none has left a
    temporary file. *)
Lemma clients_leave_none c ps t : reached c ps -> d_io d0 = [] ->
  (forall i p, ps !! i = Some p -> exists hits, p = Ret hits) ->
  tmp_file t = true -> content c.2 t = content d0 t.
Proof.
  intros Hrun Hio Hret Ht.
  eapply (reached_clean _ Hmachine _ _ _ (clients_ok d0 fuel fuel_enough (clients_of l) clients_of_sane)
    (client_done_stable d0 (clients_of l))); [done|done| |done].
  intros i hits Hd Ho. destruct (clients_of l !! i) as [[[q ca] os]|] eqn:Ei.
  - destruct (Hd q ca os Ei) as (_ & H). by apply (H Hio) in Ho.
  - apply owner_created in Ho. apply run_threads in Hrun as [_ Hall]; [|by constructor].
    rewrite Forall_forall in Hall. apply Hall in Ho. cbn in Ho. unfold cache_threads in Ho. rewrite length_fmap in Ho.
    apply lookup_lt_is_Some in Ho as [? Ho]. congruence.
Qed.

End enabled_clients.

(** C16. A shared cache directory never mixes up records. Any number of threads
    of any processes use caches of any backends and logs in one directory,
    interleaved call by call under any I/O faults. Whatever a load of a thread
    that has returned hit is a record that was in that file at the start under
    exactly this backend, log and key, or one that some client of the same
    backend and log saved with the same key, complete and within the byte
    budget. Every visible file always holds its initial content or one
    operation's whole effect; nothing panics; other temporary files are never
    touched, and none of the threads' own are left once all of them have
    returned, if no I/O failed. *)
Theorem shared_cache_never_mixes_records d0 fuel l c ps :
  machine_ok d0 -> (2 + size (d_names d0) <= fuel)%nat ->
  Forall (fun '(q, _, (ns, wk), os) => is_u64 q /\ sane_str ns /\ sane_str wk /\ Forall op_sane os) l ->
  rtc disk_step (([], d0), cache_threads fuel (clients_of l)) (c, ps) ->
  (forall i q dir ns wk os hits h, l !! i = Some (q, dir, (ns, wk), os) -> ps !! i = Some (Ret hits) -> h ∈ hits ->
     (exists o, o ∈ os /\ hit_of o h) /\
     (content d0 (hit_path (cache_at dir ns wk) h) = Some (hit_record (as_bytes (identity_of ns wk)) h)
      \/ exists j q' dir' os', l !! j = Some (q', dir', (ns, wk), os') /\ save_of h ∈ os'))
  /\ (forall p, tmp_file p = false ->
        content c.2 p = content d0 p \/ exists i, client_effect (clients_of l) i p (content c.2 p))
  /\ (forall i m, ps !! i <> Some (Panic m))
  /\ (forall t, tmp_file t = true ->
        (is_Some (content d0 t) \/ d_io d0 = [] /\ forall i p, ps !! i = Some p -> exists hits, p = Ret hits) ->
        content c.2 t = content d0 t).
Proof.
  intros Hm Hf Hs Hrun. pose proof (clients_of_sane l Hs) as Hs'.
  pose proof (clients_ok d0 fuel Hf (clients_of l) Hs') as Hok. split_and!.
  - intros i q dir ns wk os hits h. exact (client_hits_saved d0 Hm fuel Hf l Hs c ps i q dir ns wk os hits h Hrun).
  - intros p Hp. apply visible_cases with (d0 := d0); [|done].
    exact (clients_inv d0 Hm fuel Hf (clients_of l) Hs' _ _ Hrun).
  - intros i m. by eapply (reached_no_panic _ Hm _ _ _ Hok).
  - intros t Ht [Hst0|[Hio Hret]]; [by eapply (reached_stale _ Hm _ _ _ Hok)|].
    by eapply (clients_leave_none d0 Hm fuel Hf l Hs).
Qed.

(** C17. The operations on a shared directory are atomic and in order. The
    record of a run has one order of effects, each the whole effect of one
    operation of one client (a file published, a file removed) and every
    visible file is always as these effects left it. A client that has
    returned fits into that order: its operations follow each other in program
    order, each spans a stretch of it that has all of its own effects (one at
    most, unless it is a retention) and nothing else of its client's, and what
    a load hit is what its file held at some point of its stretch. So a client
    that has read a record, or saved one, never reads an older one. *)
Theorem shared_cache_is_in_order d0 fuel clients c ps :
  machine_ok d0 -> (2 + size (d_names d0) <= fuel)%nat ->
  Forall (fun cl => is_u64 cl.1.1 /\ Forall op_sane cl.2) clients ->
  rtc disk_step (([], d0), cache_threads fuel clients) (c, ps) ->
  (forall p, tmp_file p = false -> content c.2 p = latest d0 (effects c.1) p)
  /\ (forall i p x, (i, p, x) ∈ effects c.1 -> client_effect clients i p x)
  /\ (forall i q ca os hits, clients !! i = Some (q, ca, os) -> ps !! i = Some (Ret hits) ->
        exists fz, in_order d0 i ca [] os hits fz /\ fz `prefix_of` effects c.1 /\ own i fz = own i (effects c.1)).
Proof.
  intros Hm Hf Hs Hrun. pose proof (clients_inv d0 Hm fuel Hf clients Hs _ _ Hrun) as Hinv. split_and!.
  - intros p Hp. by apply (inv_visible _ _ _ Hinv).
  - intros i p x Hin. by apply (inv_allowed _ _ _ Hinv).
  - intros i q ca os hits Hcl Hi. by destruct (clients_done d0 Hm fuel Hf clients Hs _ _ _ _ Hrun Hi _ _ _ Hcl) as [H _].
Qed.

(** No deadlock and no endless run. Whatever the threads of a shared cache
    directory do, and whatever faults they meet, every schedule of their calls
    is finite, and a thread that has not returned can always make its next
    call: nobody waits for anybody. *)
Theorem shared_cache_terminates d0 fuel clients c ps :
  machine_ok d0 -> (2 + size (d_names d0) <= fuel)%nat ->
  Forall (fun cl => is_u64 cl.1.1 /\ Forall op_sane cl.2) clients ->
  rtc disk_step (([], d0), cache_threads fuel clients) (c, ps) ->
  Acc (flip disk_step) (c, ps)
  /\ forall i p, ps !! i = Some p -> (exists hits, p = Ret hits) \/ can_call p c.2.
Proof.
  intros Hm Hf Hs Hrun. split; [by apply pool_terminates|]. intros i p Hp.
  eapply (reached_live _ Hm (client_effect clients) _ _ (clients_ok d0 fuel Hf clients Hs)); [exact Hrun|done].
Qed.

(** ** Concrete interleavings *)

Definition sane_diskb (w : Disk) : bool := forallb (fun '(_, n) => n <=? U64_MAX) (map_to_list (d_calls w)).

Lemma sane_diskb_spec w : sane_diskb w = true -> sane_disk w.
Proof.
  intros H q. unfold calls. destruct (d_calls w !! q) as [n|] eqn:E; [|by vm_compute].
  apply elem_of_map_to_list, list_elem_of_In in E. unfold sane_diskb in H. rewrite forallb_forall in H.
  apply H in E. cbn in *. by zbool.
Qed.

(** Thread [i] makes its next call. *)
Definition disk_tick {X} (s : (Trace * Disk) * list (proc Disk X)) (i : nat) : (Trace * Disk) * list (proc Disk X) :=
  match s.2 !! i with
  | Some (Act f k) =>
      match f s.1.2 with
      | Some (w, r) => if sane_diskb w then (after observe i s.1 w, <[i := k r]> s.2) else s
      | None => s
      end
  | _ => s
  end.

Lemma disk_ticks {X} l (s : (Trace * Disk) * list (proc Disk X)) :
  rtc disk_step s ((foldl disk_tick s l).1, (foldl disk_tick s l).2).
Proof.
  revert s. induction l as [|i l IH]; intros [c ps]; cbn [foldl]; [reflexivity|].
  etransitivity; [|apply IH]. unfold disk_tick. cbn [fst snd].
  destruct (ps !! i) as [[a|R f k|m]|] eqn:Ei; try reflexivity.
  destruct (f c.2) as [[w r]|] eqn:Ef; [|reflexivity]. destruct (sane_diskb w) eqn:Es; [|reflexivity].
  apply rtc_once. eapply pstep_act; [done|done|by apply sane_diskb_spec].
Qed.

Definition returned {X} (p : proc Disk X) : option X := match p with Ret x => Some x | _ => None end.
Lemma returned_Ret {X} (ps : list (proc Disk X)) i x : (ps !! i) ≫= returned = Some x -> ps !! i = Some (Ret x).
Proof. destruct (ps !! i) as [[a|R f k|m]|]; cbn; congruence. Qed.

Lemma all_returned {X} (ps : list (proc Disk X)) :
  forallb (fun p => match returned p with Some _ => true | None => false end) ps = true ->
  forall i p, ps !! i = Some p -> exists x, p = Ret x.
Proof.
  rewrite forallb_forall. intros H i p Hi%list_elem_of_lookup_2%list_elem_of_In%H.
  destruct p as [x| |]; cbn in Hi; [by exists x|done..].
Qed.

Lemma disk_of_ok files io : machine_ok (disk_of files io).
Proof. split; [apply disk_of_wf|]. intros q. by rewrite disk_of_calls. Qed.

(** Two threads of process 7 and one of process 9 publish the same file; the
    first is interrupted between its parts, and somebody else's temporary file
    has process 9's preferred name. *)
Definition object_path : path := ["d"; "object"].
Definition stale_path : path := ["d"; ".waltier-9.tmp"].
Definition busy_disk : Disk := disk_of [(stale_path, as_bytes "stale")] [].
Definition writers1 : list (process * list (path * list bytes)) :=
  [(7, [(object_path, [as_bytes "first-"; as_bytes "complete"])]);
   (7, [(object_path, [as_bytes "second-complete"])]);
   (9, [(object_path, [as_bytes "third"; as_bytes "-complete"])])].
Definition pool1 : (Trace * Disk) * list (proc Disk (list (Result unit IoErr))) :=
  (([], busy_disk), writer_threads 3 writers1).
(** Midway: the second has published, the first has written half, the third
    has found the preferred name taken. *)
Definition early1 : list nat := [0; 0; 1; 1; 1; 1; 1; 2; 2; 2]%nat.
Definition mid1 := foldl disk_tick pool1 early1.
Definition end1 := foldl disk_tick pool1 (early1 ++ [0; 2; 0; 2; 2; 2]%nat).

Lemma end1_steps : rtc disk_step pool1 (end1.1, end1.2).
Proof. apply disk_ticks. Qed.

Lemma writers1_u64 i q jobs : writers1 !! i = Some (q, jobs) -> is_u64 q.
Proof. destruct i as [|[|[|i]]]; cbn; intros [= <- <-]; split; by vm_compute. Qed.
Lemma writers1_visible i q jobs p parts : writers1 !! i = Some (q, jobs) -> (p, parts) ∈ jobs -> tmp_file p = false.
Proof.
  destruct i as [|[|[|i]]]; cbn; intros [= <- <-] [= -> _]%list_elem_of_singleton; by vm_compute.
Qed.

Lemma overlapping_writers_publish_complete_frames_witness :
  content mid1.1.2 object_path = Some (as_bytes "second-complete")
  /\ content end1.1.2 object_path = Some (as_bytes "third-complete")
  /\ size (d_files end1.1.2) = 2%nat
  /\ content end1.1.2 stale_path = content busy_disk stale_path
  /\ (effects_of 0 end1.1.1 = [(0%nat, object_path, Some (as_bytes "first-complete"))] /\ length [@Ok unit IoErr tt] = 1%nat)
  /\ Forall (fun r => r = Ok tt) [@Ok unit IoErr tt].
Proof.
  split; [vm_compute; reflexivity|]. split; [vm_compute; reflexivity|]. split; [vm_compute; reflexivity|].
  destruct (overlapping_writers_publish_complete_frames busy_disk 3 writers1 end1.1 end1.2
    (disk_of_ok _ _) ltac:(vm_compute; lia) writers1_u64 writers1_visible end1_steps) as (_ & Hst & _ & Heff & Hend).
  assert (end1.2 !! 0%nat = Some (Ret [Ok tt])) as H0 by (apply returned_Ret; vm_compute; reflexivity).
  assert (is_Some (content busy_disk stale_path)) as Hs by (eexists; vm_compute; reflexivity).
  assert (tmp_file stale_path = true) as Ht by (vm_compute; reflexivity).
  split; [exact (Hst stale_path Ht Hs)|].
  split; [exact (Heff 0%nat 7 _ [Ok tt] eq_refl H0)|].
  apply Hend with 0%nat; [vm_compute; reflexivity| |exact H0].
  apply all_returned. vm_compute. reflexivity.
Defined.

(** Two clients of one log in different processes, and one of another backend,
    share a directory; the second reads what the first saved. *)
Definition clients2 : list (process * path * (string * string) * list CacheOp) :=
  [(7, ["c"], ("mem", "wal"), [SaveSnapshot "snap/k" (as_bytes "body"); LoadWal 64]);
   (9, ["c"], ("mem", "wal"), [LoadSnapshot "snap/k" 64; LoadSnapshot "snap/k" 64; RetainSnapshot None]);
   (9, ["c"], ("other", "wal"), [LoadSnapshot "snap/k" 64; SaveWal "e" (as_bytes "image")])].
Definition pool2 : (Trace * Disk) * list (proc Disk (list Hit)) :=
  (([], empty_disk), cache_threads 2 (clients_of clients2)).
(** The second client's first load runs before the rename, its second after it,
    and the third client's load finds the record of the other backend. *)
Definition end2 := foldl disk_tick pool2
  ([0; 0; 1; 0; 0; 1; 2; 1; 2; 1; 2; 1] ++ [0; 1; 2; 1] ++ repeat 2 10)%nat.

Lemma clients2_sane : Forall (fun '(q, _, (ns, wk), os) => is_u64 q /\ sane_str ns /\ sane_str wk /\ Forall op_sane os) clients2.
Proof. repeat constructor; by vm_compute. Qed.

Lemma end2_steps : rtc disk_step pool2 (end2.1, end2.2).
Proof. apply disk_ticks. Qed.

Lemma shared_cache_never_mixes_records_witness :
  (fun p => returned p) <$> end2.2 = [Some []; Some [HitSnapshot "snap/k" (as_bytes "body")]; Some []]
  /\ ((exists o, o ∈ [LoadSnapshot "snap/k" 64; LoadSnapshot "snap/k" 64; RetainSnapshot None]
        /\ hit_of o (HitSnapshot "snap/k" (as_bytes "body")))
      /\ (content empty_disk (snap_path (cache_at ["c"] "mem" "wal") "snap/k")
            = Some (hit_record (as_bytes (identity_of "mem" "wal")) (HitSnapshot "snap/k" (as_bytes "body")))
          \/ exists j q dir os, clients2 !! j = Some (q, dir, ("mem", "wal"), os)
               /\ SaveSnapshot "snap/k" (as_bytes "body") ∈ os)).
Proof.
  split; [vm_compute; reflexivity|].
  destruct (shared_cache_never_mixes_records empty_disk 2 clients2 end2.1 end2.2
    (disk_of_ok _ _) ltac:(vm_compute; lia) clients2_sane end2_steps) as (Hhits & _).
  assert (end2.2 !! 1%nat = Some (Ret [HitSnapshot "snap/k" (as_bytes "body")])) as H1
    by (apply returned_Ret; vm_compute; reflexivity).
  exact (Hhits 1%nat _ _ _ _ _ _ (HitSnapshot "snap/k" (as_bytes "body")) eq_refl H1 ltac:(left)).
Defined.

Lemma clients2_sane' : Forall (fun cl => is_u64 cl.1.1 /\ Forall op_sane cl.2) (clients_of clients2).
Proof. repeat constructor; by vm_compute. Qed.

Lemma shared_cache_is_in_order_witness :
  (fun e => (e.1.1, e.1.2)) <$> effects end2.1.1
    = [(0%nat, snap_path (cache_at ["c"] "mem" "wal") "snap/k"); (1%nat, snap_path (cache_at ["c"] "mem" "wal") "snap/k");
       (2%nat, wal_path (cache_at ["c"] "other" "wal"))]
  /\ exists fz, in_order empty_disk 1 (cache_at ["c"] "mem" "wal") []
       [LoadSnapshot "snap/k" 64; LoadSnapshot "snap/k" 64; RetainSnapshot None]
       [HitSnapshot "snap/k" (as_bytes "body")] fz
     /\ fz `prefix_of` effects end2.1.1 /\ own 1 fz = own 1 (effects end2.1.1).
Proof.
  split; [vm_compute; reflexivity|].
  destruct (shared_cache_is_in_order empty_disk 2 (clients_of clients2) end2.1 end2.2
    (disk_of_ok _ _) ltac:(vm_compute; lia) clients2_sane' end2_steps) as (_ & _ & H).
  assert (end2.2 !! 1%nat = Some (Ret [HitSnapshot "snap/k" (as_bytes "body")])) as H1
    by (apply returned_Ret; vm_compute; reflexivity).
  exact (H 1%nat 9 _ _ _ eq_refl H1).
Defined.

Lemma shared_cache_terminates_witness :
  Acc (flip disk_step) (end2.1, end2.2)
  /\ forall i p, end2.2 !! i = Some p -> (exists hits, p = Ret hits) \/ can_call p end2.1.2.
Proof.
  exact (shared_cache_terminates empty_disk 2 (clients_of clients2) end2.1 end2.2
    (disk_of_ok _ _) ltac:(vm_compute; lia) clients2_sane' end2_steps).
Defined.
