(* ===== verification/Store.v ===== *)
(** * Object stores (src/src/store.rs)

    The [ObjectStore] interface as a type class over a store state, its
    default methods, the laws the log relies on ([ObjectStoreLaws]), and
    [MemoryStore]. An operation takes the state and returns the new one. *)

From stdpp Require Import sorting.
From S2P Require Import Prelude Fmt Atomic Error.

Record Stored : Type := mkStored { st_data : bytes; st_etag : string }.

Inductive CondGet : Type := Changed (s : Stored) | NotModified | Missing.
Inductive CondPut : Type := PutOk (etag : string) | PreconditionFailed.

(** The CAS predicate: [expected = None] means create-only. *)
Definition cas_matches (current expected : option string) : bool :=
  match current, expected with
  | None, None => true
  | Some c, Some e => bool_decide (c = e)
  | _, _ => false
  end.

(** [getrandom::fill] is a foreign crate: the caller passes what it produced,
    sixteen bytes or an error. *)
Definition unique_id (filled : option bytes) : Result string string :=
  match filled with Some bs => Ok (hex bs) | None => Err "getrandom failed" end.

Class ObjectStore (S : Type) : Type := {
  cache_namespace : S -> option string;
  max_object_bytes : S -> option Z;
  get : string -> S -> S * Result (option Stored) StoreError;
  get_if_changed : string -> option string -> S -> S * Result CondGet StoreError;
  put_if_match : string -> option string -> bytes -> S -> S * Result CondPut StoreError;
  put : string -> bytes -> S -> S * Result string StoreError;
  delete_object : string -> S -> S * Result unit StoreError;
}.

(** ** Default methods of the trait *)

Definition default_cache_namespace {S} (_ : S) : option string := None.
Definition default_max_object_bytes {S} (_ : S) : option Z := None.
Definition default_get_if_changed {S}
    (get : string -> S -> S * Result (option Stored) StoreError)
    (key : string) (etag : option string) (s : S) : S * Result CondGet StoreError :=
  match get key s with
  | (s, Err e) => (s, Err e)
  | (s, Ok None) => (s, Ok Missing)
  | (s, Ok (Some o)) =>
      match etag with
      | Some e => if bool_decide (st_etag o = e) then (s, Ok NotModified) else (s, Ok (Changed o))
      | None => (s, Ok (Changed o))
      end
  end.

(** ** What a store promises

    [contents] is the authoritative map of objects. [known s k e d] says that
    [e] was handed out as the validator of the version [d] of object [k]:
    equal validators of one key imply identical bytes, for ever. [store_wf] is
    kept by every operation; [store_sane] bounds the resources used (a counter
    that has not wrapped), and the laws speak of the steps that end in a sane
    state. *)
Definition cas_applied (m m' : gmap string Stored) (key : string) (cond : option string)
    (data : bytes) (etag : string) : Prop :=
  cas_matches (st_etag <$> m !! key) cond = true /\ m' = <[key := mkStored data etag]> m.

(** What every operation keeps; the identity of the backend is stable. *)
Definition keeps {S} `{ObjectStore S} (wf sane : S -> Prop)
    (known : S -> string -> string -> bytes -> Prop) (s s' : S) : Prop :=
  sane s /\ wf s' /\ cache_namespace s' = cache_namespace s
  /\ forall k e d, known s k e d -> known s' k e d.

(** A mutation that a request asked for; a PUT has the condition of a
    compare-and-swap or none. *)
Inductive Mutation : Type :=
  | MPut (key : string) (cond : option (option string)) (data : bytes)
  | MDelete (key : string).

(** It takes effect: a PUT under some new etag, if its condition holds then. *)
Definition lands (m : Mutation) (objs objs' : gmap string Stored) : Prop :=
  match m with
  | MPut k cond d => exists etag, (forall c, cond = Some c -> cas_matches (st_etag <$> objs !! k) c = true)
      /\ objs' = <[k := mkStored d etag]> objs
  | MDelete k => objs' = delete k objs
  end.

(** After a request for [m] that was answered with [r]: only one that failed
    with an unknown outcome and has not taken effect may still be in flight. *)
Definition lingers {R} (m : Mutation) (objs objs' : gmap string Stored) (l l' : list Mutation)
    (r : Result R StoreError) : Prop :=
  l' ⊆ l \/ exists e, r = Err e /\ se_mutation_outcome e = Unknown /\ objs' = objs /\ l' ⊆ m :: l.

Lemma lingers_err {R R'} m objs objs' l l' (r : Result R StoreError) (r' : Result R' StoreError) :
  lingers m objs objs' l l' r -> (forall e, r = Err e -> r' = Err e) -> lingers m objs objs' l l' r'.
Proof. intros [Hl|(e & -> & Hrest)] Hr; [by left|right]. exists e. auto. Qed.

(** [late] are the mutations in flight: their requests have ended in an error
    and they may still take effect, in any order and at any time between two
    requests of anybody, or never; [land n] is the moment at which the [n]-th
    of them arrives, whatever it does then. *)
Class ObjectStoreLaws (S : Type) `{ObjectStore S} : Type := {
  contents : S -> gmap string Stored;
  known : S -> string -> string -> bytes -> Prop;
  store_wf : S -> Prop;
  store_sane : S -> Prop;

  known_contents : forall s k o, store_wf s ->
    contents s !! k = Some o -> known s k (st_etag o) (st_data o);
  known_data : forall s k e d o,
    known s k e d -> contents s !! k = Some o -> st_etag o = e -> st_data o = d;

  get_law : forall k s s' r, get k s = (s', r) -> store_wf s -> store_sane s' ->
    keeps store_wf store_sane known s s' /\ contents s' = contents s
    /\ (forall o, r = Ok o -> o = contents s !! k);
  get_if_changed_law : forall k c s s' r,
    get_if_changed k c s = (s', r) -> store_wf s -> store_sane s' ->
    keeps store_wf store_sane known s s' /\ contents s' = contents s
    /\ match r with
       | Ok (Changed o) => contents s !! k = Some o
       | Ok NotModified => exists e o, c = Some e /\ contents s !! k = Some o /\ st_etag o = e
       | Ok Missing => contents s !! k = None
       | Err _ => True
       end;
  put_if_match_law : forall k c d s s' r,
    put_if_match k c d s = (s', r) -> store_wf s -> store_sane s' ->
    keeps store_wf store_sane known s s'
    /\ match r with
       | Ok (PutOk etag) => cas_applied (contents s) (contents s') k c d etag
       | Ok PreconditionFailed => contents s' = contents s
       | Err e => contents s' = contents s
           \/ (se_mutation_outcome e = Unknown
               /\ exists etag, cas_applied (contents s) (contents s') k c d etag)
       end;
  put_law : forall k d s s' r, put k d s = (s', r) -> store_wf s -> store_sane s' ->
    keeps store_wf store_sane known s s'
    /\ match r with
       | Ok etag => contents s' = <[k := mkStored d etag]> (contents s)
       | Err e => contents s' = contents s
           \/ (se_mutation_outcome e = Unknown
               /\ exists etag, contents s' = <[k := mkStored d etag]> (contents s))
       end;
  delete_law : forall k s s' r, delete_object k s = (s', r) -> store_wf s -> store_sane s' ->
    keeps store_wf store_sane known s s'
    /\ match r with
       | Ok _ => contents s' = delete k (contents s)
       | Err e => contents s' = contents s
           \/ (se_mutation_outcome e = Unknown /\ contents s' = delete k (contents s))
       end;

  late : S -> list Mutation;
  land : nat -> S -> S;
  get_late : forall k s s' r, get k s = (s', r) -> store_wf s -> store_sane s' -> late s' ⊆ late s;
  get_if_changed_late : forall k c s s' r, get_if_changed k c s = (s', r) -> store_wf s -> store_sane s' -> late s' ⊆ late s;
  put_if_match_late : forall k c d s s' r, put_if_match k c d s = (s', r) -> store_wf s -> store_sane s' ->
    lingers (MPut k (Some c) d) (contents s) (contents s') (late s) (late s') r;
  put_late : forall k d s s' r, put k d s = (s', r) -> store_wf s -> store_sane s' ->
    lingers (MPut k None d) (contents s) (contents s') (late s) (late s') r;
  delete_late : forall k s s' r, delete_object k s = (s', r) -> store_wf s -> store_sane s' ->
    lingers (MDelete k) (contents s) (contents s') (late s) (late s') r;
  land_law : forall n s, store_wf s -> store_sane (land n s) ->
    keeps store_wf store_sane known s (land n s) /\ late (land n s) ⊆ late s
    /\ (contents (land n s) = contents s
        \/ exists m, late s !! n = Some m /\ lands m (contents s) (contents (land n s)));
}.

(** ** MemoryStore *)

(** [next_etag] counts the [fetch_add]s; the [AtomicU64] it stands for is the
    counter modulo 2^64, which is what the etag prints. *)
Record MemoryStore : Type := mkMemoryStore {
  ms_objects : gmap string Stored;
  ms_next_etag : Z;
  ms_namespace : option string;
}.

Definition MemoryStore_default (filled : option bytes) : MemoryStore :=
  {| ms_objects := ∅;
     ms_next_etag := 0;
     ms_namespace :=
       match unique_id filled with Ok id => Some ("memory:" +:+ id) | Err _ => None end |}.
Definition MemoryStore_new (filled : option bytes) : MemoryStore := MemoryStore_default filled.

Definition quote : string := String (Ascii.ascii_of_nat 34) "".
Definition etag_text (n : Z) : string := quote +:+ dec (wrap64 n) +:+ quote.

Definition fresh_etag (s : MemoryStore) : MemoryStore * string :=
  ({| ms_objects := ms_objects s; ms_next_etag := ms_next_etag s + 1; ms_namespace := ms_namespace s |},
   etag_text (ms_next_etag s)).

Definition ms_insert (key : string) (o : Stored) (s : MemoryStore) : MemoryStore :=
  {| ms_objects := <[key := o]> (ms_objects s); ms_next_etag := ms_next_etag s;
     ms_namespace := ms_namespace s |}.

(** Byte order, as [String]'s [Ord]. *)
Definition string_le (a b : string) : Prop := String.leb a b = true.
#[global] Instance string_le_dec : RelDecision string_le.
Proof. intros a b. unfold string_le. apply _. Defined.

Definition ms_keys (s : MemoryStore) : list string :=
  merge_sort string_le (map_to_list (ms_objects s)).*1.

Definition ms_get (key : string) (s : MemoryStore) : MemoryStore * Result (option Stored) StoreError :=
  (s, Ok (ms_objects s !! key)).

Definition ms_put_if_match (key : string) (etag : option string) (data : bytes) (s : MemoryStore)
  : MemoryStore * Result CondPut StoreError :=
  if negb (cas_matches (st_etag <$> ms_objects s !! key) etag) then (s, Ok PreconditionFailed)
  else
    let (s, new_etag) := fresh_etag s in
    (ms_insert key (mkStored data new_etag) s, Ok (PutOk new_etag)).

Definition ms_put (key : string) (data : bytes) (s : MemoryStore) : MemoryStore * Result string StoreError :=
  let (s, etag) := fresh_etag s in
  (ms_insert key (mkStored data etag) s, Ok etag).

Definition ms_delete (key : string) (s : MemoryStore) : MemoryStore * Result unit StoreError :=
  ({| ms_objects := delete key (ms_objects s); ms_next_etag := ms_next_etag s;
      ms_namespace := ms_namespace s |}, Ok tt).

#[global] Instance MemoryStore_ObjectStore : ObjectStore MemoryStore := {|
  cache_namespace := ms_namespace;
  max_object_bytes := default_max_object_bytes;
  get := ms_get;
  get_if_changed := default_get_if_changed ms_get;
  put_if_match := ms_put_if_match;
  put := ms_put;
  delete_object := ms_delete;
|}.

(** The test [exercise] of store.rs on this store. *)
Example exercise :
  let s := MemoryStore_new None in
  let (s, r1) := put_if_match "k" None [x01] s in
  let (s, r2) := put_if_match "k" None [x02] s in
  let (s, r3) := put_if_match "k" (Some (etag_text 0)) [x02] s in
  let (s, r4) := get_if_changed "k" (Some (etag_text 1)) s in
  let (s, _) := delete_object "k" s in
  (r1, r2, r3, r4, (get "k" s).2)
  = (Ok (PutOk (etag_text 0)), Ok PreconditionFailed, Ok (PutOk (etag_text 1)), Ok NotModified, Ok None).
Proof. vm_compute. reflexivity. Qed.
