(* ===== verification/StoreProps.v ===== *)
(** * MemoryStore keeps the promises of an object store *)

From S2P Require Import Prelude Fmt Atomic Error Store.

(** An etag that the counter has handed out. *)
Definition issued (s : MemoryStore) (e : string) : Prop :=
  exists n, 0 <= n < ms_next_etag s /\ e = etag_text n.

(** The counter has not wrapped and every stored etag came from it. *)
Definition ms_sane (s : MemoryStore) : Prop := ms_next_etag s <= 2 ^ 64.
Definition ms_wf (s : MemoryStore) : Prop :=
  0 <= ms_next_etag s /\ map_Forall (fun _ o => issued s (st_etag o)) (ms_objects s).

Lemma etag_text_inj m n : 0 <= m < 2 ^ 64 -> 0 <= n < 2 ^ 64 -> etag_text m = etag_text n -> m = n.
Proof.
  intros Hm Hn H. unfold etag_text in H. apply string_app_inj_l in H.
  apply (f_equal as_bytes) in H. rewrite !as_bytes_app in H. apply app_inv_tail in H.
  apply as_bytes_inj, dec_inj in H; [|apply wrap64_range..].
  by rewrite !wrap64_small in H by zlia.
Qed.

(** [e] is a validator of [d] for [k]: it was issued, and as long as [k] holds
    a version under [e], that version is [d]. *)
Definition ms_known (s : MemoryStore) (k e : string) (d : bytes) : Prop :=
  issued s e /\ forall o, ms_objects s !! k = Some o -> st_etag o = e -> st_data o = d.

Lemma issued_mono s s' e : ms_next_etag s <= ms_next_etag s' -> issued s e -> issued s' e.
Proof. intros Hle (n & Hn & ->). exists n. split; [lia|done]. Qed.

Lemma issued_fresh s e : ms_next_etag s < 2 ^ 64 -> 0 <= ms_next_etag s -> issued s e ->
  e <> etag_text (ms_next_etag s).
Proof. intros Hs H0 (n & Hn & ->) H. apply etag_text_inj in H; lia. Qed.

(** Storing a new version under the next etag. *)
Definition ms_store (k : string) (d : bytes) (s : MemoryStore) : MemoryStore :=
  ms_insert k (mkStored d (etag_text (ms_next_etag s))) (fresh_etag s).1.

Lemma ms_store_known k d s k' e' d' : ms_next_etag s < 2 ^ 64 -> 0 <= ms_next_etag s ->
  ms_known s k' e' d' -> ms_known (ms_store k d s) k' e' d'.
Proof.
  intros Hs H0 [Hi Hk]. split; [eapply issued_mono; [|done]; cbn; lia|].
  intros o Ho He. cbn in Ho. destruct (decide (k = k')) as [->|Hne].
  - rewrite lookup_insert_eq in Ho. injection Ho as <-. cbn in He. subst e'.
    by apply issued_fresh in Hi.
  - rewrite lookup_insert_ne in Ho by done. by apply Hk.
Qed.

Lemma ms_store_wf k d s : ms_wf s -> ms_wf (ms_store k d s).
Proof.
  intros [H0 Hw]. split; [cbn; lia|]. cbn. apply map_Forall_insert_2.
  - exists (ms_next_etag s). cbn. split; [lia|done].
  - intros k' o Ho. eapply issued_mono; [|by eapply Hw]. cbn. lia.
Qed.

Lemma ms_delete_known k s k' e' d' : ms_known s k' e' d' -> ms_known (ms_delete k s).1 k' e' d'.
Proof.
  intros [Hi Hk]. split; [done|]. cbn. intros o Ho He.
  apply lookup_delete_Some in Ho as [_ Ho]. by apply Hk.
Qed.

Lemma ms_delete_wf k s : ms_wf s -> ms_wf (ms_delete k s).1.
Proof. intros [H0 Hw]. split; [done|]. cbn. by apply map_Forall_delete. Qed.

Lemma ms_known_contents s k o : ms_wf s -> ms_objects s !! k = Some o -> ms_known s k (st_etag o) (st_data o).
Proof. intros [_ Hw] Ho. split; [by eapply Hw|]. intros o' Ho' _. congruence. Qed.

Lemma ms_store_keeps k d s : ms_wf s -> ms_sane (ms_store k d s) ->
  keeps ms_wf ms_sane ms_known s (ms_store k d s).
Proof.
  unfold ms_sane. cbn. intros Hw Hs. pose proof Hw as [H0 _]. split_and!.
  - lia.
  - by apply ms_store_wf.
  - done.
  - intros. apply ms_store_known; [lia|done..].
Qed.

Lemma ms_refl_keeps s : ms_wf s -> ms_sane s -> keeps ms_wf ms_sane ms_known s s.
Proof. done. Qed.

Lemma ms_delete_keeps k s : ms_wf s -> ms_sane s -> keeps ms_wf ms_sane ms_known s (ms_delete k s).1.
Proof. intros. split_and!; [done|by apply ms_delete_wf|done|]. intros. by apply ms_delete_known. Qed.

#[global] Program Instance MemoryStore_laws : ObjectStoreLaws MemoryStore := {|
  contents := ms_objects;
  known := ms_known;
  store_wf := ms_wf;
  store_sane := ms_sane;
  late _ := [];
  land _ s := s;
|}.
Next Obligation. intros. by apply ms_known_contents. Qed.
Next Obligation. intros s k e d o [_ Hk]. apply Hk. Qed.
Next Obligation. intros k s s' r [= <- <-] ??. split; [done|]. split; [done|]. by intros o [= <-]. Qed.
Next Obligation.
  cbn. unfold default_get_if_changed, ms_get. intros k c s s' r H ??.
  destruct (ms_objects s !! k) as [o|] eqn:E, c as [e|]; try case_bool_decide;
    injection H as <- <-; (split; [done|]); (split; [done|]); try done. by eexists _, _.
Qed.
Next Obligation.
  cbn. unfold ms_put_if_match. intros k c d s s' r H ??.
  destruct (cas_matches _ _) eqn:E; cbn in H; injection H as <- <-; [|done].
  split; [by apply ms_store_keeps|]. done.
Qed.
Next Obligation. cbn. intros k d s s' r [= <- <-] ??. split; [by apply ms_store_keeps|done]. Qed.
Next Obligation. cbn. intros k s s' r [= <- <-] ??. split; [by apply ms_delete_keeps|done]. Qed.
Next Obligation. by intros. Qed.
Next Obligation. by intros. Qed.
Next Obligation. by intros; left. Qed.
Next Obligation. by intros; left. Qed.
Next Obligation. by intros; left. Qed.
Next Obligation. intros n s Hw Hs. split; [by apply ms_refl_keeps|auto]. Qed.

Lemma MemoryStore_new_wf filled : ms_wf (MemoryStore_new filled).
Proof. split; [done|]. apply map_Forall_empty. Qed.
