(* ===== verification/FsStore.v ===== *)
(** * The directory-backed store (src/src/store.rs, lines 193-349)

    [FsStore] keeps one file per object under its root: a magic, a random
    validator, the length and the data, replaced atomically. The files are
    those of [Atomic]; the mutex and the root's file lock make each request
    atomic and the root exclusive. *)

From S2P Require Import Prelude Fmt Utf8 Error Atomic Store.

Record FsStore : Type := mkFsStore {
  fss_root : path;
  fss_namespace : string;
  fss_fs : Fs;
  fss_ids : list (option bytes);   (* what [getrandom] will produce *)
}.

Definition with_files (fs : Fs) (s : FsStore) : FsStore :=
  mkFsStore (fss_root s) (fss_namespace s) fs (fss_ids s).

(** ** Paths *)

(** [bs.chunks(64)] *)
Fixpoint chunks64 (fuel : nat) (bs : bytes) : list bytes :=
  match fuel, bs with
  | Datatypes.S fuel, _ :: _ => take 64 bs :: chunks64 fuel (drop 64 bs)
  | _, _ => []
  end.

Definition object_path (root : path) (key : string) : path :=
  root ++ ["objects"] ++ (hex <$> chunks64 (length (as_bytes key)) (as_bytes key)) ++ ["object"].

(** ** Object files *)

Definition FS_MAGIC : bytes := as_bytes "WFS2".

(** The rest of [read_object] once the file has been read. *)
Definition parse_object (key : string) (bs : bytes) : Result Stored StoreError :=
  if (zlen bs <? 44)
     || negb (bool_decide (take 4 bs = FS_MAGIC))
     || negb (from_le_bytes (take 8 (drop 36 bs)) =? zlen bs - 44)
  then Err (StoreError_new ("invalid FsStore object: " +:+ key))
  else
    match from_utf8 (take 32 (drop 4 bs)) with
    | None => Err (StoreError_new ("invalid FsStore validator: " +:+ key))
    | Some etag => Ok (mkStored (drop 44 bs) etag)
    end.

Definition read_object (key : string) (s : FsStore) : FsStore * Result (option Stored) StoreError :=
  match read_file (object_path (fss_root s) key) (fss_fs s) with
  | (fs, Ok bs) =>
      (with_files fs s, match parse_object key bs with Ok o => Ok (Some o) | Err e => Err e end)
  | (fs, Err e) =>
      (with_files fs s,
       match io_kind e with
       | NotFound => Ok None
       | _ => Err (StoreError_new ("read " +:+ key +:+ ": " +:+ io_text e))
       end)
  end.

(** [unique_id()] with the store's supply of randomness. *)
Definition fresh_id (s : FsStore) : FsStore * Result string string :=
  match fss_ids s with
  | [] => (s, unique_id None)
  | o :: ids => (mkFsStore (fss_root s) (fss_namespace s) (fss_fs s) ids, unique_id o)
  end.

Definition object_parts (etag : string) (data : bytes) : list bytes :=
  [FS_MAGIC; as_bytes etag; to_le_bytes 8 (zlen data); data].

Definition write_object (key : string) (data : bytes) (s : FsStore) : FsStore * Result string StoreError :=
  match fresh_id s with
  | (s, Err e) => (s, Err (StoreError_new ("create validator: " +:+ e)))
  | (s, Ok etag) =>
      let p := object_path (fss_root s) key in
      match create_dir_all (parent p) (fss_fs s) with
      | (fs, Err e) => (with_files fs s, Err (StoreError_new ("prepare " +:+ key +:+ ": " +:+ io_text e)))
      | (fs, Ok _) =>
          match write_atomic p (object_parts etag data) fs with
          | (fs, Err e) => (with_files fs s, Err (StoreError_new ("write " +:+ key +:+ ": " +:+ io_text e)))
          | (fs, Ok _) => (with_files fs s, Ok etag)
          end
      end
  end.

(** ** The requests *)

Definition fss_put_if_match (key : string) (etag : option string) (data : bytes) (s : FsStore)
  : FsStore * Result CondPut StoreError :=
  match read_object key s with
  | (s, Err e) => (s, Err e)
  | (s, Ok current) =>
      if negb (cas_matches (st_etag <$> current) etag) then (s, Ok PreconditionFailed)
      else
        match write_object key data s with
        | (s, Err e) => (s, Err e)
        | (s, Ok etag) => (s, Ok (PutOk etag))
        end
  end.

Definition fss_delete (key : string) (s : FsStore) : FsStore * Result unit StoreError :=
  match remove_file (object_path (fss_root s) key) (fss_fs s) with
  | (fs, Ok _) => (with_files fs s, Ok tt)
  | (fs, Err e) =>
      (with_files fs s,
       match io_kind e with
       | NotFound => Ok tt
       | _ => Err (StoreError_new ("delete " +:+ key +:+ ": " +:+ io_text e))
       end)
  end.

#[global] Instance FsStore_ObjectStore : ObjectStore FsStore := {|
  cache_namespace s := Some (fss_namespace s);
  max_object_bytes := default_max_object_bytes;
  get := read_object;
  get_if_changed := default_get_if_changed read_object;
  put_if_match := fss_put_if_match;
  put := write_object;
  delete_object := fss_delete;
|}.

(** ** Opening a root *)

Definition MARKER : string := ".waltier-store".
Definition FS_PREFIX : string := "waltier-fs-v2:".

Definition legacy_root : IoErr :=
  mkIoErr OtherKind "unrecognized/legacy FsStore directory; use a fresh root".
Definition bad_identity : IoErr := mkIoErr OtherKind "invalid FsStore identity".
Definition lock_held : IoErr := mkIoErr OtherKind "lock is held".

(** The name under which a path appears in the listing of [root]. *)
Definition entry_name (root p : path) : option string :=
  if bool_decide (take (length root) p = root) then head (drop (length root) p) else None.

(** [read_dir(&root)?.any(..)]: whether something else than the marker is there. *)
Definition has_other_entries (root : path) (fs : Fs) : bool :=
  existsb (fun p => match entry_name root p with Some n => negb (bool_decide (n = MARKER)) | None => false end)
    (map_to_list (fs_files fs)).*1.

Definition is_hexdigit (b : byte) : bool :=
  let v := byte_val b in
  ((48 <=? v) && (v <=? 57)) || ((65 <=? v) && (v <=? 70)) || ((97 <=? v) && (v <=? 102)).

(** [strip_prefix("waltier-fs-v2:")] followed by 32 hexadecimal digits. *)
Definition valid_identity (ns : bytes) : bool :=
  let pre := as_bytes FS_PREFIX in
  bool_decide (take (length pre) ns = pre)
  && (let id := drop (length pre) ns in (zlen id =? 32) && forallb is_hexdigit id).

(** The root as the operating system spells it. *)
Definition path_text (p : path) : bytes := as_bytes (String.concat "" ((fun n => "/" +:+ n) <$> p)).

(** [File::open] with [create] and no truncation. *)
Definition open_or_create (p : path) (fs : Fs) : Fs * Result bytes IoErr :=
  let (f, fs) := draw fs in
  match f with
  | Some _ => (fs, Err io_other)
  | None =>
      match fs_files fs !! p with
      | Some c => (fs, Ok c)
      | None => (set_files fs (<[p := []]> (fs_files fs)), Ok [])
      end
  end.

(** [root] is canonical; [held] says whether another handle holds its lock. *)
Definition FsStore_new (root : path) (held : bool) (fs : Fs) (ids : list (option bytes))
  : Fs * Result FsStore IoErr :=
  match create_dir_all root fs with
  | (fs, Err e) => (fs, Err e)
  | (fs, Ok _) =>
      let marker := root ++ [MARKER] in
      match open_or_create marker fs with
      | (fs, Err e) => (fs, Err e)
      | (fs, Ok _) =>
          if held then (fs, Err lock_held) else
          match read_file marker fs with
          | (fs, Err e) => (fs, Err e)
          | (fs, Ok content) =>
              match from_utf8 content with
              | None => (fs, Err io_other)
              | Some ns =>
                  if bool_decide (content = []) then
                    match read_dir root fs with
                    | (fs, Err e) => (fs, Err e)
                    | (fs, Ok _) =>
                        if has_other_entries root fs then (fs, Err legacy_root) else
                        match unique_id (default None (head ids)) with
                        | Err _ => (fs, Err io_other)
                        | Ok id =>
                            let ns := FS_PREFIX +:+ id in
                            match write_all marker (as_bytes ns) fs with
                            | (fs, Err e) => (fs, Err e)
                            | (fs, Ok _) =>
                                (fs, Ok (mkFsStore root (ns +:+ ":" +:+ hex (path_text root)) fs (tail ids)))
                            end
                        end
                    end
                  else if valid_identity content then
                    (fs, Ok (mkFsStore root (ns +:+ ":" +:+ hex (path_text root)) fs ids))
                  else (fs, Err bad_identity)
              end
          end
      end
  end.

(** A store in a fresh directory passes the test [exercise] of store.rs, and a
    second handle finds what the first wrote. *)
Example fs_exercise :
  let ids := [Some (repeat x00 16); Some (repeat x01 16); Some (repeat x02 16)] in
  match FsStore_new ["d"] false empty_fs ids with
  | (_, Ok s) =>
      let (s, r1) := put_if_match "k" None [x01] s in
      let (s, r2) := put_if_match "k" None [x02] s in
      let (s, r3) := put_if_match "k" (Some (hex (repeat x01 16))) [x02] s in
      let again := FsStore_new ["d"] false (fss_fs s) [] in
      let found := match again.2 with Ok s => (get "k" s).2 | Err _ => Ok None end in
      (r1, r2, r3, found, (FsStore_new ["d"] true (fss_fs s) []).2)
      = (Ok (PutOk (hex (repeat x01 16))), Ok PreconditionFailed, Ok (PutOk (hex (repeat x02 16))),
         Ok (Some (mkStored [x02] (hex (repeat x02 16)))), Err lock_held)
  | _ => False
  end.
Proof. vm_compute. reflexivity. Qed.
