(* ===== verification/Sim.v ===== *)
(** * Simulation support (src/src/sim.rs)

    The SplitMix64 generator and [SimStore], a store wrapper that injects
    seeded faults and counts operations. An [f64] the code compares with the
    generator's output is a rational: [float] is the exact dyadic quotient the
    code computes, and probabilities are finite numbers. *)

From Stdlib Require Import QArith.
From S2P Require Import Prelude Fmt Atomic Error Store.
#[local] Open Scope Z_scope.

(** ** The generator *)

Record Rng : Type := mkRng { rng_state : Z }.

Definition Rng_new (seed : Z) : Rng := {| rng_state := seed |}.

Definition GAMMA : Z := 11400714819323198485.  (* 0x9E37_79B9_7F4A_7C15 *)
Definition MIX1 : Z := 13787848793156543929.   (* 0xBF58_476D_1CE4_E5B9 *)
Definition MIX2 : Z := 10723151780598845931.   (* 0x94D0_49BB_1331_11EB *)

Definition mix (z : Z) : Z :=
  let z := wrapping_mul (Z.lxor z (Z.shiftr z 30)) MIX1 in
  let z := wrapping_mul (Z.lxor z (Z.shiftr z 27)) MIX2 in
  Z.lxor z (Z.shiftr z 31).

Definition next_u64 (r : Rng) : Rng * Z :=
  let s := wrapping_add (rng_state r) GAMMA in
  ({| rng_state := s |}, mix s).

Definition below (n : Z) (r : Rng) : Rng * Z :=
  let (r, x) := next_u64 r in (r, x mod n).

Definition float (r : Rng) : Rng * Q :=
  let (r, x) := next_u64 r in (r, Z.shiftr x 11 # 9007199254740992).

Definition Qlt_bool (a b : Q) : bool := negb (Qle_bool b a).

(** [p > 0.0 && self.float() < p]: nothing is drawn when [p] is not positive. *)
Definition chance (p : Q) (r : Rng) : Rng * bool :=
  if Qlt_bool 0 p then let (r, f) := float r in (r, Qlt_bool f p) else (r, false).

(** ** Configuration and counters *)

Record Faults : Type := mkFaults { fail_clean : Q; fail_ambiguous : Q }.
Definition no_faults : Faults := {| fail_clean := 0; fail_ambiguous := 0 |}.

(** [rtt] in nanoseconds. *)
Record Latency : Type := mkLatency { l_rtt : Z; l_bytes_per_sec : Z; l_jitter : Q }.
Definition Latency_default : Latency := {| l_rtt := 0; l_bytes_per_sec := 0; l_jitter := 0 |}.
Definition s3_like (rtt_ms mbps : Z) : Latency :=
  {| l_rtt := rtt_ms * 1000000; l_bytes_per_sec := wrapping_mul mbps 1000000; l_jitter := 1 # 5 |}.

Record SimStats : Type := mkSimStats {
  n_gets : Z; n_not_modified : Z; n_puts : Z; n_cas_failures : Z; n_deletes : Z;
  n_bytes_uploaded : Z; n_bytes_downloaded : Z; n_faults_injected : Z;
}.
Definition zero_stats : SimStats := mkSimStats 0 0 0 0 0 0 0 0.

Record SimStore (S : Type) : Type := mkSimStore {
  inner : S;
  rng : Rng;
  faults : Faults;
  targeted : option string;
  latency : Latency;
  counters : SimStats;
}.
Arguments mkSimStore {S}. Arguments inner {S}. Arguments rng {S}. Arguments faults {S}.
Arguments targeted {S}. Arguments latency {S}. Arguments counters {S}.

Section sim.
Context {S : Type} `{ObjectStore S}.
Implicit Types s : SimStore S.

Definition SimStore_new (i : S) : SimStore S :=
  {| inner := i; rng := Rng_new 0; faults := no_faults; targeted := None;
     latency := Latency_default; counters := zero_stats |}.

Definition with_inner (i : S) s : SimStore S :=
  mkSimStore i (rng s) (faults s) (targeted s) (latency s) (counters s).
Definition with_rng (r : Rng) s : SimStore S :=
  mkSimStore (inner s) r (faults s) (targeted s) (latency s) (counters s).
Definition with_targeted (t : option string) s : SimStore S :=
  mkSimStore (inner s) (rng s) (faults s) t (latency s) (counters s).

Definition with_faults (seed : Z) (f : Faults) s : SimStore S :=
  mkSimStore (inner s) (Rng_new seed) f (targeted s) (latency s) (counters s).
Definition with_latency (l : Latency) s : SimStore S :=
  mkSimStore (inner s) (rng s) (faults s) (targeted s) l (counters s).
Definition set_faults (f : Faults) s : SimStore S :=
  mkSimStore (inner s) (rng s) f (targeted s) (latency s) (counters s).
Definition fail_next_mutation_ambiguously (key_part : string) s : SimStore S :=
  with_targeted (Some key_part) s.

Definition count (bump : SimStats -> SimStats) s : SimStore S :=
  mkSimStore (inner s) (rng s) (faults s) (targeted s) (latency s) (bump (counters s)).

(** Sleeping has no other effect than the draw of the jitter. *)
Definition pause (transfer_bytes : Z) s : SimStore S :=
  let l := latency s in
  if (l_rtt l =? 0) && ((l_bytes_per_sec l =? 0) || (transfer_bytes =? 0)) then s
  else if Qlt_bool 0 (l_jitter l) then with_rng (float (rng s)).1 s
  else s.

Definition count_fault (c : SimStats) : SimStats :=
  mkSimStats (n_gets c) (n_not_modified c) (n_puts c) (n_cas_failures c) (n_deletes c)
    (n_bytes_uploaded c) (n_bytes_downloaded c) (wrapping_add (n_faults_injected c) 1).

Definition roll_clean_fault (what key : string) s : SimStore S * Result unit StoreError :=
  let (r, hit) := chance (fail_clean (faults s)) (rng s) in
  let s := with_rng r s in
  if hit then
    (pause 0 (count count_fault s),
     Err (not_applied (StoreError_new ("simulated clean failure: " +:+ what +:+ " " +:+ key))))
  else (s, Ok tt).

(** [str::contains] *)
Fixpoint contains (key part : string) : bool :=
  String.prefix part key
  || match key with EmptyString => false | String _ key => contains key part end.

Definition roll_ambiguous_fault (key : string) s : SimStore S * bool :=
  let hit := match targeted s with Some part => contains key part | None => false end in
  if hit then (count count_fault (with_targeted None s), true)
  else
    let (r, hit) := chance (fail_ambiguous (faults s)) (rng s) in
    let s := with_rng r s in
    if hit then (count count_fault s, true) else (s, false).

Definition ambiguous (what key : string) : StoreError :=
  StoreError_new ("simulated ambiguous failure: " +:+ what +:+ " " +:+ key +:+ " (op executed)").

(** ** The wrapped operations *)

Definition count_get (bytes : Z) (c : SimStats) : SimStats :=
  mkSimStats (wrapping_add (n_gets c) 1) (n_not_modified c) (n_puts c) (n_cas_failures c) (n_deletes c)
    (n_bytes_uploaded c) (wrapping_add (n_bytes_downloaded c) bytes) (n_faults_injected c).
Definition count_not_modified (c : SimStats) : SimStats :=
  mkSimStats (n_gets c) (wrapping_add (n_not_modified c) 1) (n_puts c) (n_cas_failures c) (n_deletes c)
    (n_bytes_uploaded c) (n_bytes_downloaded c) (n_faults_injected c).
Definition count_put (bytes : Z) (c : SimStats) : SimStats :=
  mkSimStats (n_gets c) (n_not_modified c) (wrapping_add (n_puts c) 1) (n_cas_failures c) (n_deletes c)
    (wrapping_add (n_bytes_uploaded c) bytes) (n_bytes_downloaded c) (n_faults_injected c).
Definition count_cas_failure (c : SimStats) : SimStats :=
  mkSimStats (n_gets c) (n_not_modified c) (n_puts c) (wrapping_add (n_cas_failures c) 1) (n_deletes c)
    (n_bytes_uploaded c) (n_bytes_downloaded c) (n_faults_injected c).
Definition count_delete (c : SimStats) : SimStats :=
  mkSimStats (n_gets c) (n_not_modified c) (n_puts c) (n_cas_failures c) (wrapping_add (n_deletes c) 1)
    (n_bytes_uploaded c) (n_bytes_downloaded c) (n_faults_injected c).

Definition sim_get (key : string) s : SimStore S * Result (option Stored) StoreError :=
  match roll_clean_fault "get" key s with
  | (s, Err e) => (s, Err e)
  | (s, Ok _) =>
      let (i, r) := get key (inner s) in
      let s := with_inner i s in
      match r with
      | Err e => (s, Err e)
      | Ok found =>
          let bytes := match found with Some o => zlen (st_data o) | None => 0 end in
          (pause bytes (count (count_get bytes) s), Ok found)
      end
  end.

Definition sim_get_if_changed (key : string) (etag : option string) s
  : SimStore S * Result CondGet StoreError :=
  match roll_clean_fault "get" key s with
  | (s, Err e) => (s, Err e)
  | (s, Ok _) =>
      let (i, r) := get_if_changed key etag (inner s) in
      let s := with_inner i s in
      match r with
      | Err e => (s, Err e)
      | Ok got =>
          let bytes := match got with Changed o => zlen (st_data o) | NotModified | Missing => 0 end in
          let bump := match got with NotModified => count_not_modified
                                   | Changed _ | Missing => count_get bytes end in
          (pause bytes (count bump s), Ok got)
      end
  end.

Definition sim_put_if_match (key : string) (etag : option string) (data : bytes) s
  : SimStore S * Result CondPut StoreError :=
  match roll_clean_fault "put" key s with
  | (s, Err e) => (s, Err e)
  | (s, Ok _) =>
      let (i, r) := put_if_match key etag data (inner s) in
      let s := with_inner i s in
      match r with
      | Err e => (s, Err e)
      | Ok outcome =>
          let s := pause (zlen data) s in
          match outcome with
          | PutOk _ =>
              let (s, hit) := roll_ambiguous_fault key (count (count_put (zlen data)) s) in
              if hit then (s, Err (ambiguous "put" key)) else (s, Ok outcome)
          | PreconditionFailed => (count count_cas_failure s, Ok outcome)
          end
      end
  end.

Definition sim_put (key : string) (data : bytes) s : SimStore S * Result string StoreError :=
  match roll_clean_fault "put" key s with
  | (s, Err e) => (s, Err e)
  | (s, Ok _) =>
      let (i, r) := put key data (inner s) in
      let s := with_inner i s in
      match r with
      | Err e => (s, Err e)
      | Ok etag =>
          let (s, hit) := roll_ambiguous_fault key (pause (zlen data) (count (count_put (zlen data)) s)) in
          if hit then (s, Err (ambiguous "put" key)) else (s, Ok etag)
      end
  end.

Definition sim_delete (key : string) s : SimStore S * Result unit StoreError :=
  match roll_clean_fault "delete" key s with
  | (s, Err e) => (s, Err e)
  | (s, Ok _) =>
      let (i, r) := delete_object key (inner s) in
      let s := with_inner i s in
      match r with
      | Err e => (s, Err e)
      | Ok _ =>
          let (s, hit) := roll_ambiguous_fault key (pause 0 (count count_delete s)) in
          if hit then (s, Err (ambiguous "delete" key)) else (s, Ok tt)
      end
  end.

#[global] Instance SimStore_ObjectStore : ObjectStore (SimStore S) := {|
  cache_namespace s := cache_namespace (inner s);
  max_object_bytes s := max_object_bytes (inner s);
  get := sim_get;
  get_if_changed := sim_get_if_changed;
  put_if_match := sim_put_if_match;
  put := sim_put;
  delete_object := sim_delete;
|}.

End sim.

(** The first output for seed 0, as published for SplitMix64. *)
Example rng_seed_0 : (next_u64 (Rng_new 0)).2 = 16294208416658607535.
Proof. vm_compute. reflexivity. Qed.
