(* ===== verification/SimProps.v ===== *)
(** * The simulator: lemmas and properties of src/src/sim.rs *)

From Stdlib Require Import QArith.
From S2P Require Import Prelude Fmt Atomic Error Store StoreProps CacheChecksum Sim.
#[local] Open Scope Z_scope.

(** ** The generator *)

Lemma mix_u64 z : is_u64 (mix z).
Proof. unfold mix. apply lxor_u64; [apply wrap64_range|]. apply shiftr_u64; [lia|apply wrap64_range]. Qed.

(** Inverses of the odd multipliers modulo 2^64. *)
Lemma mul_odd_inj m inv a b : (m * inv) mod 2 ^ 64 = 1 -> is_u64 a -> is_u64 b ->
  wrapping_mul a m = wrapping_mul b m -> a = b.
Proof.
  intros Hi Ha Hb H. unfold wrapping_mul, wrap64 in H.
  assert (forall x, is_u64 x -> (x * m) mod 2 ^ 64 * inv mod 2 ^ 64 = x) as Hinv.
  { intros x Hx. rewrite Zmult_mod_idemp_l, <- Z.mul_assoc, <- Zmult_mod_idemp_r, Hi.
    rewrite Z.mul_1_r. apply Z.mod_small. zlia. }
  by rewrite <- (Hinv a Ha), H, Hinv.
Qed.

Lemma mix_inj a b : is_u64 a -> is_u64 b -> mix a = mix b -> a = b.
Proof.
  intros Ha Hb H. unfold mix in H.
  apply xorshift_inj in H; [|lia|apply wrap64_range..].
  apply (mul_odd_inj MIX2 3573116690164977347) in H; [|by vm_compute|
    (apply lxor_u64; [apply wrap64_range|apply shiftr_u64; [lia|apply wrap64_range]])..].
  apply xorshift_inj in H; [|lia|apply wrap64_range..].
  apply (mul_odd_inj MIX1 10871156337175269513) in H; [|by vm_compute|
    (apply lxor_u64; [done|by apply shiftr_u64])..].
  apply xorshift_inj in H; [done|lia|zlia..].
Qed.

(** The state after [n] draws. *)
Fixpoint draws (n : nat) (r : Rng) : Rng :=
  match n with O => r | S n => (next_u64 (draws n r)).1 end.

Lemma draws_state n r : is_u64 (rng_state r) ->
  rng_state (draws n r) = wrap64 (rng_state r + Z.of_nat n * GAMMA).
Proof.
  intros Hr. induction n as [|n IH]; cbn [draws].
  { cbn. by rewrite Z.add_0_r, wrap64_small. }
  unfold next_u64. cbn [fst rng_state]. unfold wrapping_add. rewrite IH. unfold wrap64.
  rewrite Zplus_mod_idemp_l. f_equal. lia.
Qed.

(** The generator has full period: from any seed, the outputs of any two
    of the first 2^64 draws differ (each step of the mixer is a bijection of
    the 64-bit words and the increment is odd), every output is a [u64], and
    [below n] is in range. *)
Theorem splitmix_full_period r i j n :
  is_u64 (rng_state r) -> Z.of_nat i < 2 ^ 64 -> Z.of_nat j < 2 ^ 64 -> 0 < n ->
  ((next_u64 (draws i r)).2 = (next_u64 (draws j r)).2 -> i = j)
  /\ is_u64 (next_u64 (draws i r)).2
  /\ 0 <= (below n (draws i r)).2 < n.
Proof.
  intros Hr Hi Hj Hn. split_and!.
  - unfold next_u64. cbn [snd]. intros H. apply mix_inj in H; [|apply wrap64_range..].
    unfold wrapping_add in H. rewrite !draws_state in H by done. unfold wrap64 in H.
    rewrite !Zplus_mod_idemp_l in H.
    assert ((Z.of_nat i - Z.of_nat j) * GAMMA mod 2 ^ 64 = 0) as Hm.
    { replace ((Z.of_nat i - Z.of_nat j) * GAMMA) with
        ((rng_state r + Z.of_nat i * GAMMA + GAMMA) - (rng_state r + Z.of_nat j * GAMMA + GAMMA)) by lia.
      by rewrite Zminus_mod, H, Z.sub_diag. }
    apply Z.mod_divide in Hm; [|done]. rewrite Z.mul_comm in Hm.
    apply Z.gauss in Hm; [|by vm_compute]. destruct Hm as [q Hq]. nia.
  - apply mix_u64.
  - unfold below. destruct (next_u64 _). cbn. by apply Z.mod_pos_bound.
  - unfold below. destruct (next_u64 _). cbn. by apply Z.mod_pos_bound.
Qed.

Lemma splitmix_full_period_witness : is_u64 (next_u64 (draws 3 (Rng_new 7))).2.
Proof. by apply (splitmix_full_period (Rng_new 7) 3 4 10); [split; vm_compute|..]. Defined.

(** ** The wrapper keeps the promises of the store it wraps *)

Section sim_laws.
Context {S : Type} `{!ObjectStore S, !ObjectStoreLaws S}.
Implicit Types s : SimStore S.

Lemma pause_inner n s : inner (pause n s) = inner s.
Proof. unfold pause. by repeat case_match. Qed.

Lemma roll_clean_inner what key s : inner (roll_clean_fault what key s).1 = inner s.
Proof.
  unfold roll_clean_fault. destruct (chance _ _) as [r []]; cbn; by rewrite ?pause_inner.
Qed.

Lemma roll_clean_error what key s e :
  (roll_clean_fault what key s).2 = Err e -> se_mutation_outcome e = NotApplied.
Proof. unfold roll_clean_fault. destruct (chance _ _) as [r []]; cbn; [by intros [= <-]|done]. Qed.

Lemma roll_ambiguous_inner key s : inner (roll_ambiguous_fault key s).1 = inner s.
Proof.
  unfold roll_ambiguous_fault. destruct (match targeted s with Some part => contains key part | None => false end); [done|].
  by destruct (chance _ _) as [r []].
Qed.

Lemma keeps_refl (i i' : S) : i' = i -> store_wf i -> store_sane i' -> keeps store_wf store_sane known i i'.
Proof. by intros ->. Qed.

Lemma keeps_inner s s' : keeps store_wf store_sane known (inner s) (inner s') ->
  keeps (fun s => store_wf (inner s)) (fun s => store_sane (inner s)) (fun s => known (inner s)) s s'.
Proof. done. Qed.

Lemma keeps_stay s s' : inner s' = inner s -> store_wf (inner s) -> store_sane (inner s') ->
  keeps (fun s => store_wf (inner s)) (fun s => store_sane (inner s)) (fun s => known (inner s)) s s'.
Proof. intros. by apply keeps_inner, keeps_refl. Qed.

(** Run one wrapped operation up to its inner call. *)
Ltac sim_clean what k s :=
  let Hc := fresh "Hc" in let He := fresh "He" in
  pose proof (roll_clean_inner what k s) as Hc; pose proof (roll_clean_error what k s) as He;
  destruct (roll_clean_fault what k s) as [?s1 [[]|?e]]; cbn [fst snd] in *.

(** The state a wrapped operation ends in holds the inner state [i]. *)
Lemma keeps_via s s' i : inner s' = i -> keeps store_wf store_sane known (inner s) i ->
  keeps (fun s => store_wf (inner s)) (fun s => store_sane (inner s)) (fun s => known (inner s)) s s'.
Proof. by intros <-. Qed.

Ltac sim_inner := cbn; rewrite ?pause_inner; done.

#[global] Program Instance SimStore_laws : ObjectStoreLaws (SimStore S) := {|
  contents s := contents (inner s);
  known s := known (inner s);
  store_wf s := store_wf (inner s);
  store_sane s := store_sane (inner s);
  late s := late (inner s);
  land n s := with_inner (land n (inner s)) s;
|}.
Next Obligation. intros. by apply known_contents. Qed.
Next Obligation. intros s k e d o. apply known_data. Qed.
Next Obligation.
  intros k s s' r Hr Hw Hs. cbn in Hr. unfold sim_get in Hr.
  sim_clean "get" k s; [|injection Hr as <- <-; split_and!; [by apply keeps_stay|by rewrite Hc|done]].
  destruct (get k (inner s1)) as [i r1] eqn:E. rewrite Hc in E.
  assert (inner s' = i) as Hi by (destruct r1; injection Hr as <- _; sim_inner).
  rewrite Hi in Hs |- *. destruct (get_law _ _ _ _ E Hw Hs) as (Hk & Hcont & Hres).
  split_and!; [by eapply keeps_via|done|]. destruct r1; injection Hr as _ <-; [|done].
  intros o [= <-]. by apply Hres.
Qed.
Next Obligation.
  intros k c s s' r Hr Hw Hs. cbn in Hr. unfold sim_get_if_changed in Hr.
  sim_clean "get" k s; [|injection Hr as <- <-; split_and!; [by apply keeps_stay|by rewrite Hc|done]].
  destruct (get_if_changed k c (inner s1)) as [i r1] eqn:E. rewrite Hc in E.
  assert (inner s' = i) as Hi by (destruct r1; injection Hr as <- _; sim_inner).
  rewrite Hi in Hs |- *. destruct (get_if_changed_law _ _ _ _ _ E Hw Hs) as (Hk & Hcont & Hres).
  split_and!; [by eapply keeps_via|done|]. by destruct r1; injection Hr as _ <-.
Qed.
Next Obligation.
  intros k c d s s' r Hr Hw Hs. cbn in Hr. unfold sim_put_if_match in Hr.
  sim_clean "put" k s; [|injection Hr as <- <-; split; [by apply keeps_stay|left; by rewrite Hc]].
  destruct (put_if_match k c d (inner s1)) as [i r1] eqn:E. rewrite Hc in E.
  pose proof (roll_ambiguous_inner k (count (count_put (zlen d)) (pause (zlen d) (with_inner i s1)))) as Ha.
  destruct (roll_ambiguous_fault _ _) as [s2 hit]. cbn [fst] in Ha.
  cbn in Ha. rewrite pause_inner in Ha. cbn in Ha.
  assert (inner s' = i) as Hi.
  { destruct r1 as [[]|]; [destruct hit| |]; injection Hr as <- _; sim_inner. }
  rewrite Hi in Hs |- *. destruct (put_if_match_law _ _ _ _ _ _ E Hw Hs) as (Hk & Hres).
  split; [by eapply keeps_via|]. destruct r1 as [[etag|]|]; [destruct hit| |]; injection Hr as _ <-; try done.
  right. split; [done|by eexists].
Qed.
Next Obligation.
  intros k d s s' r Hr Hw Hs. cbn in Hr. unfold sim_put in Hr.
  sim_clean "put" k s; [|injection Hr as <- <-; split; [by apply keeps_stay|left; by rewrite Hc]].
  destruct (put k d (inner s1)) as [i r1] eqn:E. rewrite Hc in E.
  pose proof (roll_ambiguous_inner k (pause (zlen d) (count (count_put (zlen d)) (with_inner i s1)))) as Ha.
  destruct (roll_ambiguous_fault _ _) as [s2 hit]. cbn [fst] in Ha. rewrite pause_inner in Ha. cbn in Ha.
  assert (inner s' = i) as Hi by (destruct r1; [destruct hit|]; injection Hr as <- _; sim_inner).
  rewrite Hi in Hs |- *. destruct (put_law _ _ _ _ _ E Hw Hs) as (Hk & Hres).
  split; [by eapply keeps_via|]. destruct r1; [destruct hit|]; injection Hr as _ <-; try done.
  right. split; [done|by eexists].
Qed.
Next Obligation.
  intros k s s' r Hr Hw Hs. cbn in Hr. unfold sim_delete in Hr.
  sim_clean "delete" k s; [|injection Hr as <- <-; split; [by apply keeps_stay|left; by rewrite Hc]].
  destruct (delete_object k (inner s1)) as [i r1] eqn:E. rewrite Hc in E.
  pose proof (roll_ambiguous_inner k (pause 0 (count count_delete (with_inner i s1)))) as Ha.
  destruct (roll_ambiguous_fault _ _) as [s2 hit]. cbn [fst] in Ha. rewrite pause_inner in Ha. cbn in Ha.
  assert (inner s' = i) as Hi by (destruct r1; [destruct hit|]; injection Hr as <- _; sim_inner).
  rewrite Hi in Hs |- *. destruct (delete_law _ _ _ _ E Hw Hs) as (Hk & Hres).
  split; [by eapply keeps_via|]. destruct r1; [destruct hit|]; injection Hr as _ <-; try done.
  by right.
Qed.

Next Obligation.
  intros k s s' r Hr Hw Hs. cbn in Hr. unfold sim_get in Hr.
  sim_clean "get" k s; [|injection Hr as <- <-; by rewrite Hc].
  destruct (get k (inner s1)) as [i r1] eqn:E. rewrite Hc in E.
  assert (inner s' = i) as Hi by (destruct r1; injection Hr as <- _; sim_inner).
  rewrite Hi in Hs |- *. by eapply get_late.
Qed.
Next Obligation.
  intros k c s s' r Hr Hw Hs. cbn in Hr. unfold sim_get_if_changed in Hr.
  sim_clean "get" k s; [|injection Hr as <- <-; by rewrite Hc].
  destruct (get_if_changed k c (inner s1)) as [i r1] eqn:E. rewrite Hc in E.
  assert (inner s' = i) as Hi by (destruct r1; injection Hr as <- _; sim_inner).
  rewrite Hi in Hs |- *. by eapply get_if_changed_late.
Qed.
Next Obligation.
  intros k c d s s' r Hr Hw Hs. cbn in Hr. unfold sim_put_if_match in Hr.
  sim_clean "put" k s; [|injection Hr as <- <-; left; by rewrite Hc].
  destruct (put_if_match k c d (inner s1)) as [i r1] eqn:E. rewrite Hc in E.
  pose proof (roll_ambiguous_inner k (count (count_put (zlen d)) (pause (zlen d) (with_inner i s1)))) as Ha.
  destruct (roll_ambiguous_fault _ _) as [s2 hit]. cbn [fst] in Ha.
  cbn in Ha. rewrite pause_inner in Ha. cbn in Ha.
  assert (inner s' = i) as Hi.
  { destruct r1 as [[]|]; [destruct hit| |]; injection Hr as <- _; sim_inner. }
  rewrite Hi in Hs |- *. pose proof (put_if_match_late _ _ _ _ _ _ E Hw Hs) as Hl.
  eapply lingers_err; [exact Hl|]. intros e ->. by injection Hr as _ <-.
Qed.
Next Obligation.
  intros k d s s' r Hr Hw Hs. cbn in Hr. unfold sim_put in Hr.
  sim_clean "put" k s; [|injection Hr as <- <-; left; by rewrite Hc].
  destruct (put k d (inner s1)) as [i r1] eqn:E. rewrite Hc in E.
  pose proof (roll_ambiguous_inner k (pause (zlen d) (count (count_put (zlen d)) (with_inner i s1)))) as Ha.
  destruct (roll_ambiguous_fault _ _) as [s2 hit]. cbn [fst] in Ha. rewrite pause_inner in Ha. cbn in Ha.
  assert (inner s' = i) as Hi by (destruct r1; [destruct hit|]; injection Hr as <- _; sim_inner).
  rewrite Hi in Hs |- *. pose proof (put_late _ _ _ _ _ E Hw Hs) as Hl.
  eapply lingers_err; [exact Hl|]. intros e ->. by injection Hr as _ <-.
Qed.
Next Obligation.
  intros k s s' r Hr Hw Hs. cbn in Hr. unfold sim_delete in Hr.
  sim_clean "delete" k s; [|injection Hr as <- <-; left; by rewrite Hc].
  destruct (delete_object k (inner s1)) as [i r1] eqn:E. rewrite Hc in E.
  pose proof (roll_ambiguous_inner k (pause 0 (count count_delete (with_inner i s1)))) as Ha.
  destruct (roll_ambiguous_fault _ _) as [s2 hit]. cbn [fst] in Ha. rewrite pause_inner in Ha. cbn in Ha.
  assert (inner s' = i) as Hi by (destruct r1; [destruct hit|]; injection Hr as <- _; sim_inner).
  rewrite Hi in Hs |- *. pose proof (delete_late _ _ _ _ E Hw Hs) as Hl.
  eapply lingers_err; [exact Hl|]. intros e ->. by injection Hr as _ <-.
Qed.
Next Obligation.
  intros n s Hw Hs. cbn in Hs |- *. exact (land_law n (inner s) Hw Hs).
Qed.

(** C40. Fault injection is honest: an operation reported as cleanly failed
    left the objects alone; one that reported an ambiguous failure executed
    completely; any answer other than an injected fault is the wrapped store's
    own answer; and a fault-free simulator is transparent. *)
Theorem sim_put_faults_are_honest k c d s :
  let '(s', r) := sim_put_if_match k c d s in
  let '(i, r0) := put_if_match k c d (inner s) in
  match r with
  | Ok o => inner s' = i /\ r0 = Ok o
  | Err e => (inner s' = inner s /\ se_mutation_outcome e = NotApplied
              /\ n_faults_injected (counters s') = wrapping_add (n_faults_injected (counters s)) 1)
      \/ (inner s' = i /\ r0 = Err e)
      \/ (inner s' = i /\ (exists etag, r0 = Ok (PutOk etag)) /\ se_mutation_outcome e = Unknown)
  end
  /\ (faults s = no_faults -> targeted s = None -> inner s' = i /\ r = r0).
Proof.
  unfold sim_put_if_match. unfold roll_clean_fault.
  destruct (chance (fail_clean (faults s)) (rng s)) as [g hit] eqn:Ec.
  destruct (put_if_match k c d (inner s)) as [i r0] eqn:E.
  assert (faults s = no_faults -> hit = false /\ g = rng s) as Hno.
  { intros Hf. rewrite Hf in Ec. cbn in Ec. by injection Ec. }
  destruct hit.
  - cbn. split; [left|intros Hf; by apply Hno in Hf as [? _]]. split_and!; [by rewrite pause_inner|done|].
    unfold pause. by repeat case_match.
  - cbn. rewrite E. destruct r0 as [[etag|]|err].
    + set (s1 := count _ _). pose proof (roll_ambiguous_inner k s1) as Ha.
      assert (inner s1 = i) as Hi by (unfold s1; cbn; by rewrite pause_inner).
      destruct (roll_ambiguous_fault k s1) as [s2 hit2] eqn:Er. cbn [fst] in Ha.
      destruct hit2; (split; [|intros Hf Ht]).
      * right. right. split_and!; [by rewrite Ha|by eexists|done].
      * unfold roll_ambiguous_fault in Er.
        assert (targeted s1 = None) as Hts by (unfold s1, pause; cbn; by repeat case_match).
        assert (faults s1 = no_faults) as Hfs by (unfold s1, pause; cbn; by repeat case_match).
        rewrite Hts, Hfs in Er. done.
      * by rewrite Ha.
      * by rewrite Ha.
    + cbn. rewrite pause_inner. done.
    + cbn. split; [by right; left|done].
Qed.

End sim_laws.
