(* ===== verification/World.v ===== *)
(** * Options, compaction state and the shared world (src/src/wal.rs, lines 13-192)

    The configuration and the data of the writer, and the world its code acts
    on: one object store, one file system for caches, the entropy of
    [getrandom], and the compaction threads with their channels. The actions
    at the end are the atomic steps of all code in [Core], [Compactor] and
    [Writer]. *)

From S2P Require Import Prelude Fmt Atomic Error Image Cache Store App Proc.

Definition MAX_RACES : nat := 8.

Inductive CachePolicy : Type := Disabled | EveryCommit | OnFlush.

#[global] Instance CachePolicy_eq_dec : EqDecision CachePolicy.
Proof. solve_decision. Defined.

Record Options : Type := mkOptions {
  cache_dir : path;
  cache_policy : CachePolicy;
  max_pending_deletes : Z;
  prefix : string;
  max_write_attempts : Z;
  max_image_bytes : Z;
  max_live_entries : Z;
  max_snapshot_bytes : Z;
}.

Definition Options_default : Options :=
  {| cache_dir := [];
     cache_policy := Disabled;
     max_pending_deletes := 128;
     prefix := "";
     max_write_attempts := 8;
     max_image_bytes := Z.shiftl 64 20;
     max_live_entries := 1000000;
     max_snapshot_bytes := Z.shiftl 256 20 |}.

Definition Options_new (dir : path) : Options :=
  let d := Options_default in
  {| cache_dir := dir; cache_policy := EveryCommit;
     max_pending_deletes := max_pending_deletes d; prefix := prefix d;
     max_write_attempts := max_write_attempts d; max_image_bytes := max_image_bytes d;
     max_live_entries := max_live_entries d; max_snapshot_bytes := max_snapshot_bytes d |}.

Definition limits (o : Options) : ImageLimits :=
  {| lim_bytes := max_image_bytes o; lim_entries := max_live_entries o |}.

Definition invalid_options : WalError := InvalidOptions
  "positive retry/count/snapshot budgets and an image budget of at least 9 bytes are required; counts must fit u32 and byte budgets must fit isize".

Definition validate (object_limit : option Z) (o : Options) : Result Options WalError :=
  let o :=
    match object_limit with
    | Some limit =>
        {| cache_dir := cache_dir o; cache_policy := cache_policy o;
           max_pending_deletes := max_pending_deletes o; prefix := prefix o;
           max_write_attempts := max_write_attempts o;
           max_image_bytes := Z.min (max_image_bytes o) limit;
           max_live_entries := max_live_entries o;
           max_snapshot_bytes := Z.min (max_snapshot_bytes o) limit |}
    | None => o
    end in
  if (max_write_attempts o =? 0)
     || (max_image_bytes o <? 9)
     || (max_live_entries o =? 0)
     || (U32_MAX <? max_live_entries o)
     || (max_snapshot_bytes o =? 0)
     || (ISIZE_MAX <? max_image_bytes o)
     || (ISIZE_MAX <? max_snapshot_bytes o)
  then Err invalid_options
  else Ok o.

Definition wal_key (o : Options) : string := prefix o +:+ "wal".

(** ** Folds and compaction *)

Record Fold : Type := mkFold { f_key : string; f_lsn : Lsn }.

Definition applies_to (f : Fold) (image : WalImage) : bool :=
  (first_lsn image <=? f_lsn f) && (f_lsn f <? next_lsn image).

Inductive CompactOutcome : Type := Done (f : Fold) | CompactFailed (message : string).

Module CompactionStatus.
Inductive t : Type := Idle | Running | Ready | Installed | Superseded.
End CompactionStatus.

Record GarbageStatus : Type := mkGarbageStatus {
  gs_pending : Z;
  gs_overflowed : Z;
  gs_last_error : option string;
}.

Record MaintenanceStatus : Type := mkMaintenanceStatus {
  ms_compaction : CompactionStatus.t;
  ms_garbage : GarbageStatus;
}.

(** A [CompactionTask] is a channel and a join handle: the number of the thread. *)
Abbreviation CompactionTask := nat (only parsing).

Inductive Compaction : Type :=
  | Idle
  | Running (task : CompactionTask)
  | Ready (f : Fold)
  | Installed
  | Superseded
  | Failed (message : string).

Record InstallError : Type := mkInstallError {
  ie_source : WalError;
  ie_outcome : MutationOutcome;
}.

(** [From<WalError> for InstallError] *)
Definition install_error (e : WalError) : InstallError :=
  {| ie_source := e; ie_outcome := NotApplied |}.

Record Refreshed : Type := mkRefreshed {
  r_changed : bool;
  r_superseded : option SnapshotRef;
}.

(** ** Compaction threads *)

(** What [spawn_compaction] moves into the thread. *)
Record CompactArgs : Type := mkCompactArgs {
  ca_cache : Cache;
  ca_base_key : option string;
  ca_entries : list Entry;
  ca_snap_prefix : string;
  ca_max_snapshot_bytes : Z;
}.

(** [j_msg] is the channel, which carries at most one message; [j_ended] says
    whether the thread has ended, dropping its sender, and if by a panic. *)
Record Job : Type := mkJob {
  j_args : CompactArgs;
  j_started : bool;
  j_msg : option CompactOutcome;
  j_ended : option bool;
}.

Inductive TryRecv : Type := TryOk (o : CompactOutcome) | TryEmpty | TryDisconnected.

(** ** The world *)

Record World (S : Type) : Type := mkWorld {
  w_store : S;
  w_fs : Fs;
  w_ids : list (option bytes);
  w_spawn : list (option string);
  w_jobs : list Job;
}.
Arguments mkWorld {S}. Arguments w_store {S}. Arguments w_fs {S}. Arguments w_ids {S}.
Arguments w_spawn {S}. Arguments w_jobs {S}.

Section actions.
Context {S : Type} `{ObjectStore S}.
Abbreviation World := (World S).

Definition with_store (s : S) (w : World) : World :=
  mkWorld s (w_fs w) (w_ids w) (w_spawn w) (w_jobs w).
Definition with_fs (fs : Fs) (w : World) : World :=
  mkWorld (w_store w) fs (w_ids w) (w_spawn w) (w_jobs w).
Definition with_jobs (js : list Job) (w : World) : World :=
  mkWorld (w_store w) (w_fs w) (w_ids w) (w_spawn w) js.

(** One request to the store. *)
Definition request {R} (f : S -> S * R) : proc World R :=
  act (fun w => let (s, r) := f (w_store w) in (with_store s w, r)).
(** One operation of the cache. *)
Definition on_fs {R} (f : Fs -> Fs * R) : proc World R :=
  act (fun w => let (fs, r) := f (w_fs w) in (with_fs fs w, r)).
Definition on_fs_ (f : Fs -> Fs) : proc World unit :=
  act (fun w => (with_fs (f (w_fs w)) w, tt)).

(** [getrandom::fill]; an exhausted supply is a failure. *)
Definition next_random : proc World (option bytes) :=
  act (fun w =>
    match w_ids w with
    | [] => (w, None)
    | o :: ids => (mkWorld (w_store w) (w_fs w) ids (w_spawn w) (w_jobs w), o)
    end).

(** [thread::Builder::spawn] with a fresh channel: the number of the thread,
    or the error of the operating system. *)
Definition spawn (args : CompactArgs) : proc World (Result CompactionTask string) :=
  act (fun w =>
    match w_spawn w with
    | Some e :: rest => (mkWorld (w_store w) (w_fs w) (w_ids w) rest (w_jobs w), Err e)
    | _ =>
        (mkWorld (w_store w) (w_fs w) (w_ids w) (tail (w_spawn w))
           (w_jobs w ++ [mkJob args false None None]), Ok (length (w_jobs w)))
    end).

Definition set_msg (o : option CompactOutcome) (j : Job) : Job :=
  mkJob (j_args j) (j_started j) o (j_ended j).
Definition set_ended (panicked : bool) (j : Job) : Job :=
  mkJob (j_args j) (j_started j) (j_msg j) (Some panicked).
Definition set_started (j : Job) : Job :=
  mkJob (j_args j) true (j_msg j) (j_ended j).

Definition send (t : CompactionTask) (o : CompactOutcome) : proc World unit :=
  act (fun w => (with_jobs (alter (set_msg (Some o)) t (w_jobs w)) w, tt)).
Definition exit (t : CompactionTask) (panicked : bool) : proc World unit :=
  act (fun w => (with_jobs (alter (set_ended panicked) t (w_jobs w)) w, tt)).

Definition try_recv (t : CompactionTask) : proc World TryRecv :=
  act (fun w =>
    match w_jobs w !! t with
    | Some (mkJob _ _ (Some o) _) => (with_jobs (alter (set_msg None) t (w_jobs w)) w, TryOk o)
    | Some (mkJob _ _ None None) => (w, TryEmpty)
    | _ => (w, TryDisconnected)
    end).

(** [Receiver::recv] blocks while the channel is empty and its sender lives. *)
Definition recv (t : CompactionTask) : proc World (option CompactOutcome) :=
  act_block (fun w =>
    match w_jobs w !! t with
    | Some (mkJob _ _ (Some o) _) => Some (with_jobs (alter (set_msg None) t (w_jobs w)) w, Some o)
    | Some (mkJob _ _ None None) => None
    | _ => Some (w, None)
    end).

(** [JoinHandle::join]: whether the thread panicked. *)
Definition join (t : CompactionTask) : proc World bool :=
  act_block (fun w =>
    match w_jobs w !! t with
    | Some j => match j_ended j with Some panicked => Some (w, panicked) | None => None end
    | None => Some (w, true)
    end).

End actions.
