(* ===== verification/Core.v ===== *)
(** * The synced image and state (src/src/wal.rs, lines 194-459 and 1045-1088)

    Opening and refreshing a handle: [Core] and its operations, shared by the
    writer and by the read-only [Replica]. The store and the application are
    the section's instances, so [Core] keeps neither. *)

From S2P Require Import Prelude Fmt Atomic Error Image Cache Store App Proc World.

Record Core `{WalApp} : Type := mkCore {
  opts : Options;
  cache : Cache;
  state : State;
  image : WalImage;
  etag : option string;
  image_len : Z;
  cache_dirty : bool;
}.
Arguments mkCore {_}.

Section core.
Context {S : Type} `{ObjectStore S} `{WalApp}.
Abbreviation proc := (proc (World S)).

(** [previous] is updated before a first error-free return. *)
Definition record_missing_snapshot (previous : option (string * string)) (etag key : string)
  : Result (option (string * string)) WalError :=
  if match previous with
     | Some (old_etag, old_key) => bool_decide (old_etag = etag) && bool_decide (old_key = key)
     | None => false
     end
  then Err (Corrupt ("WAL references missing snapshot " +:+ key))
  else Ok (Some (etag, key)).

Definition fetch_snapshot (c : Cache) (key : string) (max_bytes : Z)
  : proc (Result (option bytes) WalError) :=
  let! cached := on_fs (load_snapshot c key max_bytes) in
  match cached with
  | Some bs =>
      Ret (let? _ := check_limit "snapshot bytes" (zlen bs) max_bytes in Ok (Some bs))
  | None =>
      let! got := request (get key) in
      match got with
      | Err e => Ret (Err (StoreFailure e))
      | Ok (Some s) =>
          match check_limit "snapshot bytes" (zlen (st_data s)) max_bytes with
          | Err e => Ret (Err e)
          | Ok _ =>
              let! _ := on_fs_ (save_snapshot c key (st_data s)) in
              Ret (Ok (Some (st_data s)))
          end
      | Ok None => Ret (Ok None)
      end
  end.

(** The error of a GET without validator that is answered "not modified". *)
Definition unconditional_not_modified (wal_key : string) : WalError :=
  StoreFailure
    (not_applied
      (with_context StoreOperation.Get wal_key None
        (StoreError_new "unconditional GET returned NotModified"))).

(** The loop [for (lsn, entry) in entries { apply }]. *)
Fixpoint apply_all (s : State) (es : list (Lsn * bytes)) : State :=
  match es with [] => s | (lsn, entry) :: es => apply_all (apply s lsn entry) es end.

Definition record_image_put (new_etag : string) (data : bytes) (self : Core) : proc Core :=
  let! _ :=
    if bool_decide (cache_policy (opts self) = EveryCommit)
    then on_fs_ (save_wal (cache self) new_etag data) else Ret tt in
  Ret {| opts := opts self; cache := cache self; state := state self; image := image self;
         etag := Some new_etag; image_len := zlen data;
         cache_dirty := bool_decide (cache_policy (opts self) = OnFlush) && enabled (cache self) |}.

Definition checkpoint_cache (self : Core) : proc Core :=
  if negb (cache_dirty self) then Ret self else
  match etag self, encode (image self) (limits (opts self)) with
  | Some e, Ok data =>
      let! _ := on_fs_ (save_wal (cache self) e data) in
      Ret {| opts := opts self; cache := cache self; state := state self; image := image self;
             etag := etag self; image_len := image_len self; cache_dirty := false |}
  | _, _ => Ret self
  end.

(** ** Open *)

(** [Cache::retain_snapshot]. Another thread may save between the listing and a
    removal, so each is an action of its own. *)
Fixpoint sweep_cache (keep : option path) (entries : list path) : proc unit :=
  match entries with
  | [] => Ret tt
  | p :: entries =>
      if is_snap_file p && negb (bool_decide (Some p = keep)) then
        let! _ := on_fs (remove_file p) in sweep_cache keep entries
      else sweep_cache keep entries
  end.

Definition retain_cache (c : Cache) (keep : option string) : proc unit :=
  match c_identity c with
  | None => Ret tt
  | Some _ =>
      let! entries := on_fs (read_dir (c_dir c)) in
      match entries with
      | Err _ => Ret tt
      | Ok entries => sweep_cache (snap_path c <$> keep) entries
      end
  end.

(** The end of [open]: replay the live entries onto the state of the snapshot. *)
Definition open_finish (opts : Options) (c : Cache) (stored : Stored) (image : WalImage) (state : State)
  : proc (Result Core WalError) :=
  let state := apply_all state (entries_from image (first_lsn image)) in
  let core :=
    {| opts := opts; cache := c; state := state; image := image;
       etag := None; image_len := 0; cache_dirty := false |} in
  let! _ := retain_cache c (sr_key <$> img_snapshot image) in
  let! core := record_image_put (st_etag stored) (st_data stored) core in
  Ret (Ok core).

(** The rest of an iteration of the loop of [open] once the image object has
    been read or created; [retry] is [continue]. *)
Definition open_stored (opts : Options) (c : Cache) (missing : option (string * string))
    (retry : option (string * string) -> proc (Result Core WalError)) (stored : Stored)
  : proc (Result Core WalError) :=
  match decode (st_data stored) (limits opts) with
  | Err e => Ret (Err e)
  | Ok image =>
      match img_snapshot image with
      | None => open_finish opts c stored image init
      | Some sr =>
          let! fetched := fetch_snapshot c (sr_key sr) (max_snapshot_bytes opts) in
          match fetched with
          | Err e => Ret (Err e)
          | Ok (Some bs) => match restore bs with Err e => Ret (Err e) | Ok state => open_finish opts c stored image state end
          | Ok None =>
              match record_missing_snapshot missing (st_etag stored) (sr_key sr) with
              | Err e => Ret (Err e)
              | Ok missing => retry missing
              end
          end
      end
  end.

Fixpoint open_loop (races : nat) (opts : Options) (c : Cache) (cached : option (string * bytes))
    (create_if_missing : bool) (missing : option (string * string)) : proc (Result Core WalError) :=
  match races with
  | O => Ret (Err (Contention "open" (Z.of_nat MAX_RACES)))
  | Datatypes.S races =>
      let retry missing := open_loop races opts c cached create_if_missing missing in
      let! got := request (get_if_changed (wal_key opts) (fst <$> cached)) in
      match got with
      | Err e => Ret (Err (StoreFailure e))
      | Ok NotModified =>
          match cached with
          | None => Ret (Err (unconditional_not_modified (wal_key opts)))
          | Some (etag, data) => open_stored opts c missing retry (mkStored data etag)
          end
      | Ok (Changed s) => open_stored opts c missing retry s
      | Ok Missing =>
          if create_if_missing then
            match encode empty (limits opts) with
            | Err e => Ret (Err e)
            | Ok data =>
                let! put := request (put_if_match (wal_key opts) None data) in
                match put with
                | Err e => Ret (Err (StoreFailure e))
                | Ok (PutOk etag) => open_stored opts c missing retry (mkStored data etag)
                | Ok PreconditionFailed => retry missing
                end
            end
          else
            let! _ := retain_cache c None in
            Ret (Ok {| opts := opts; cache := c; state := init; image := empty;
                       etag := None; image_len := 0; cache_dirty := false |})
      end
  end.

Definition Core_open (opts : Options) (create_if_missing : bool) : proc (Result Core WalError) :=
  let! limit := request (fun s => (s, max_object_bytes s)) in
  match validate limit opts with
  | Err e => Ret (Err e)
  | Ok opts =>
      let! c :=
        match cache_policy opts with
        | Disabled => Ret disabled
        | _ =>
            let! ns := request (fun s => (s, cache_namespace s)) in
            on_fs (cache_new (cache_dir opts) ns (wal_key opts))
        end in
      let! loaded := on_fs (load_wal c (max_image_bytes opts)) in
      let cached :=
        match loaded with
        | Some (e, image) => if is_ok (decode image (limits opts)) then Some (e, image) else None
        | None => None
        end in
      open_loop MAX_RACES opts c cached create_if_missing None
  end.

(** ** Refresh *)

Definition unchanged : Refreshed := {| r_changed := false; r_superseded := None |}.

(** [self.image.snapshot.clone().filter(..)]: the reference left behind. *)
Definition superseded_by (remote old : WalImage) : option SnapshotRef :=
  match img_snapshot old with
  | Some o =>
      match img_snapshot remote with
      | Some n => if bool_decide (sr_key n = sr_key o) then None else Some o
      | None => Some o
      end
  | None => None
  end.

(** The end of a refresh: the state has reached [remote]. *)
Definition adopt (stored : Stored) (remote : WalImage) (new_state : State) (self : Core)
  : proc (Core * Result Refreshed WalError) :=
  let superseded := superseded_by remote (image self) in
  let! _ :=
    match superseded with
    | Some old => on_fs_ (remove_snapshot (cache self) (sr_key old))
    | None => Ret tt
    end in
  let self :=
    {| opts := opts self; cache := cache self; state := new_state; image := remote;
       etag := etag self; image_len := image_len self; cache_dirty := cache_dirty self |} in
  let! self := record_image_put (st_etag stored) (st_data stored) self in
  Ret (self, Ok {| r_changed := true; r_superseded := superseded |}).

(** An iteration of the loop of [refresh] that has read a new image; [retry] is
    [continue]. *)
Definition refresh_changed (missing : option (string * string))
    (retry : option (string * string) -> proc (Core * Result Refreshed WalError)) (stored : Stored) (self : Core)
  : proc (Core * Result Refreshed WalError) :=
  match decode (st_data stored) (limits (opts self)) with
  | Err e => Ret (self, Err e)
  | Ok remote =>
      let my_next := next_lsn (image self) in
      if first_lsn remote <=? my_next then
        adopt stored remote (apply_all (state self) (entries_from remote my_next)) self
      else
        match img_snapshot remote with
        | None => Ret (self, Err (Corrupt "entries start past lsn 0 with no snapshot"))
        | Some sr =>
            let! fetched := fetch_snapshot (cache self) (sr_key sr) (max_snapshot_bytes (opts self)) in
            match fetched with
            | Err e => Ret (self, Err e)
            | Ok None =>
                match record_missing_snapshot missing (st_etag stored) (sr_key sr) with
                | Err e => Ret (self, Err e)
                | Ok missing => retry missing
                end
            | Ok (Some bs) =>
                match restore bs with
                | Err e => Ret (self, Err e)
                | Ok s =>
                    adopt stored remote
                      (apply_all s (entries_from remote (wrapping_add (sr_lsn sr) 1))) self
                end
            end
        end
  end.

Fixpoint refresh_loop (races : nat) (missing : option (string * string)) (self : Core)
  : proc (Core * Result Refreshed WalError) :=
  match races with
  | O => Ret (self, Err (Contention "refresh" (Z.of_nat MAX_RACES)))
  | Datatypes.S races =>
      let! got := request (get_if_changed (wal_key (opts self)) (etag self)) in
      match got with
      | Err e => Ret (self, Err (StoreFailure e))
      | Ok NotModified =>
          match etag self with
          | Some _ => Ret (self, Ok unchanged)
          | None => Ret (self, Err (unconditional_not_modified (wal_key (opts self))))
          end
      | Ok Missing =>
          match etag self with
          | Some _ => Ret (self, Err (Corrupt "wal object disappeared"))
          | None => Ret (self, Ok unchanged)
          end
      | Ok (Changed stored) => refresh_changed missing (fun missing => refresh_loop races missing self) stored self
      end
  end.

Definition Core_refresh (self : Core) : proc (Core * Result Refreshed WalError) :=
  refresh_loop MAX_RACES None self.

Definition Core_stats (self : Core) : WalStats :=
  {| s_tip := tip (image self);
     s_snapshot_lsn := sr_lsn <$> img_snapshot (image self);
     s_live_entries := zlen (img_entries (image self));
     s_live_entry_bytes := entry_bytes (image self);
     s_image_bytes := image_len self |}.

(** ** The read-only follower: a [Core] and nothing else *)

Record Replica : Type := mkReplica { rep_core : Core }.

Definition Replica_open (opts : Options) : proc (Result Replica WalError) :=
  let! r := Core_open opts false in
  Ret (match r with Ok core => Ok (mkReplica core) | Err e => Err e end).

Definition Replica_refresh (self : Replica) : proc (Replica * Result bool WalError) :=
  let! (core, r) := Core_refresh (rep_core self) in
  Ret (mkReplica core, match r with Ok u => Ok (r_changed u) | Err e => Err e end).

Definition Replica_checkpoint_cache (self : Replica) : proc Replica :=
  let! core := checkpoint_cache (rep_core self) in Ret (mkReplica core).

Definition Replica_state (self : Replica) : State := state (rep_core self).
Definition Replica_stats (self : Replica) : WalStats := Core_stats (rep_core self).
Definition Replica_tip (self : Replica) : option Lsn := tip (image (rep_core self)).

End core.
