(* ===== verification/Compactor.v ===== *)
(** * The compaction thread (src/src/wal.rs, lines 974-1043)

    Folding the captured entries into a snapshot and publishing it under a
    fresh key, as the body of a thread that reports on its channel. *)

From S2P Require Import Prelude Fmt Atomic Error Image Cache Store App Proc World Core.

Section compactor.
Context {S : Type} `{ObjectStore S} `{WalApp}.
Abbreviation proc := (proc (World S)).

(** [Option::get_or_insert] *)
Definition get_or {A} (o : option A) (a : A) : option A :=
  match o with Some x => Some x | None => Some a end.

Definition upload_failed (key : string) (e : StoreError) : StoreError :=
  {| se_message := "snapshot upload " +:+ key +:+ " failed (possible orphan retained): "
                   +:+ StoreError_display e;
     se_operation := get_or (se_operation e) StoreOperation.Put;
     se_key := get_or (se_key e) key;
     se_status := se_status e;
     se_mutation_outcome := se_mutation_outcome e |}.

Fixpoint publish_loop (races : nat) (snapshot : bytes) (next_key : proc (Result string string))
  : proc (Result string StoreError) :=
  match races with
  | O => Ret (Err (StoreError_new "snapshot key collision budget exhausted"))
  | Datatypes.S races =>
      let! key := next_key in
      match key with
      | Err e => Ret (Err (StoreError_new ("snapshot ID: " +:+ e)))
      | Ok key =>
          let! put := request (put_if_match key None snapshot) in
          match put with
          | Ok (PutOk _) => Ret (Ok key)
          | Ok PreconditionFailed => publish_loop races snapshot next_key
          | Err e => Ret (Err (upload_failed key e))
          end
      end
  end.

Definition publish_snapshot (snapshot : bytes) (next_key : proc (Result string string))
  : proc (Result string StoreError) :=
  publish_loop MAX_RACES snapshot next_key.

(** The key generator of [run_compaction]. *)
Definition next_snapshot_key (snap_prefix : string) : proc (Result string string) :=
  let! filled := next_random in
  Ret (match unique_id filled with Ok id => Ok (snap_prefix +:+ id) | Err e => Err e end).

Definition run_compaction (args : CompactArgs) : proc CompactOutcome :=
  let c := ca_cache args in
  let max := ca_max_snapshot_bytes args in
  match last (ca_entries args) with
  | None => Panic "compaction requires live entries"
  | Some last_entry =>
      let! base :=
        match ca_base_key args with
        | None => Ret (Ok None)
        | Some key =>
            let! fetched := fetch_snapshot c key max in
            Ret (match fetched with
                 | Ok (Some bs) => Ok (Some bs)
                 | Ok None => Err ("base snapshot " +:+ key
                     +:+ " is gone; refresh and explicitly restart compaction")
                 | Err e => Err (WalError_display e)
                 end)
        end in
      match base with
      | Err m => Ret (CompactFailed m)
      | Ok base =>
          match compact base (ca_entries args) with
          | None => Panic "compact"
          | Some (Err e) => Ret (CompactFailed (WalError_display e))
          | Some (Ok snapshot) =>
              match check_limit "snapshot bytes" (zlen snapshot) max with
              | Err e => Ret (CompactFailed (WalError_display e))
              | Ok _ =>
                  let! published := publish_snapshot snapshot (next_snapshot_key (ca_snap_prefix args)) in
                  match published with
                  | Ok key =>
                      let! _ := on_fs_ (save_snapshot c key snapshot) in
                      Ret (Done (mkFold key (e_lsn last_entry)))
                  | Err e => Ret (CompactFailed (StoreError_display e))
                  end
              end
          end
      end
  end.

(** The closure given to [spawn]: report, then end; a panic ends the thread
    without a message. *)
Definition compaction_thread (t : CompactionTask) (args : CompactArgs) : proc unit :=
  on_panic
    (let! o := run_compaction args in
     let! _ := send t o in
     exit t false)
    (fun _ => exit t true).

(** The first thread that has been created and has not started. *)
Fixpoint first_unstarted (t : nat) (js : list Job) : option (nat * Job) :=
  match js with
  | [] => None
  | j :: js => if j_started j then first_unstarted (Datatypes.S t) js else Some (t, j)
  end.

Definition spawned (w : World S) : option (World S * proc unit) :=
  match first_unstarted 0 (w_jobs w) with
  | None => None
  | Some (t, j) => Some (with_jobs (alter set_started t (w_jobs w)) w, compaction_thread t (j_args j))
  end.

End compactor.
