(* ===== verification/Writer.v ===== *)
(** * The writer (src/src/wal.rs, lines 461-972)

    [WalTier]: appends with a compare-and-swap on the image's etag, the
    compaction state machine and the queue of obsolete snapshots. Methods on
    [&mut self] take the handle and return the new one. *)

From S2P Require Import Prelude Fmt Atomic Error Image Cache Store App Proc World Core Compactor.

Record WalTier `{WalApp} : Type := mkWalTier {
  core : Core;
  compaction : Compaction;
  garbage : list string;
  garbage_overflowed : Z;
  garbage_error : option string;
}.
Arguments mkWalTier {_}.

Section writer.
Context {S : Type} `{ObjectStore S} `{WalApp}.
Abbreviation proc := (proc (World S)).

Definition with_core (c : Core) (self : WalTier) : WalTier :=
  mkWalTier c (compaction self) (garbage self) (garbage_overflowed self) (garbage_error self).
Definition with_compaction (c : Compaction) (self : WalTier) : WalTier :=
  mkWalTier (core self) c (garbage self) (garbage_overflowed self) (garbage_error self).
Definition with_garbage (g : list string) (self : WalTier) : WalTier :=
  mkWalTier (core self) (compaction self) g (garbage_overflowed self) (garbage_error self).
Definition with_error (e : option string) (self : WalTier) : WalTier :=
  mkWalTier (core self) (compaction self) (garbage self) (garbage_overflowed self) e.
Definition with_image (i : WalImage) (c : Core) : Core :=
  mkCore (opts c) (cache c) (state c) i (etag c) (image_len c) (cache_dirty c).

Definition WalTier_open (opts : Options) : proc (Result WalTier WalError) :=
  let! r := Core_open opts true in
  Ret (match r with
       | Ok core => Ok (mkWalTier core Idle [] 0 None)
       | Err e => Err e
       end).

(** ** The queue of obsolete snapshots *)

Definition queue_obsolete (key : string) (self : WalTier) : WalTier :=
  if bool_decide (key ∈ garbage self) then self
  else if zlen (garbage self) =? max_pending_deletes (opts (core self)) then
    mkWalTier (core self) (compaction self) (garbage self)
      (saturating_add (garbage_overflowed self) 1) (garbage_error self)
  else with_garbage (garbage self ++ [key]) self.

Definition queue_superseded (superseded : option SnapshotRef) (self : WalTier) : WalTier :=
  match superseded with Some sr => queue_obsolete (sr_key sr) self | None => self end.

Definition garbage_status (self : WalTier) : GarbageStatus :=
  {| gs_pending := zlen (garbage self);
     gs_overflowed := garbage_overflowed self;
     gs_last_error := garbage_error self |}.

(** The loop over [self.garbage.front()]. *)
Fixpoint collect_loop (queue : list string) (self : WalTier)
  : proc (WalTier * Result GarbageStatus StoreError) :=
  match queue with
  | [] =>
      let self := with_error None (with_garbage [] self) in
      Ret (self, Ok (garbage_status self))
  | key :: rest =>
      let! deleted := request (delete_object key) in
      match deleted with
      | Err e =>
          Ret (with_error (Some (StoreError_display e)) (with_garbage (key :: rest) self), Err e)
      | Ok _ => collect_loop rest (with_garbage rest self)
      end
  end.

Definition collect_garbage (self : WalTier) : proc (WalTier * Result GarbageStatus StoreError) :=
  collect_loop (garbage self) self.

(** ** The compaction state machine *)

Definition compaction_running (self : WalTier) : bool :=
  match compaction self with Running _ => true | _ => false end.
Definition has_pending_fold (self : WalTier) : bool :=
  match compaction self with Ready _ => true | _ => false end.
Definition is_failed (self : WalTier) : bool :=
  match compaction self with Failed _ => true | _ => false end.
Definition last_compaction_error (self : WalTier) : option string :=
  match compaction self with Failed message => Some message | _ => None end.

Definition current_compaction_status (self : WalTier) : Result CompactionStatus.t WalError :=
  match compaction self with
  | Idle => Ok CompactionStatus.Idle
  | Running _ => Ok CompactionStatus.Running
  | Ready _ => Ok CompactionStatus.Ready
  | Installed => Ok CompactionStatus.Installed
  | Superseded => Ok CompactionStatus.Superseded
  | Failed error => Err (CompactionError error)
  end.

(** Whether the image references the fold's own snapshot. *)
Definition fold_installed (f : Fold) (i : WalImage) : bool :=
  match img_snapshot i with Some s => bool_decide (sr_key s = f_key f) | None => false end.

Definition discard_superseded_fold (self : WalTier) : proc WalTier :=
  match compaction self with
  | Ready f =>
      if applies_to f (image (core self)) then Ret self
      else if fold_installed f (image (core self)) then Ret (with_compaction Installed self)
      else
        let self := with_compaction Superseded self in
        let! _ := on_fs_ (remove_snapshot (cache (core self)) (f_key f)) in
        Ret (queue_obsolete (f_key f) self)
  | _ => Ret self
  end.

Definition disconnected : CompactOutcome :=
  CompactFailed "compaction thread panicked or disconnected".

Definition finish_compaction (outcome : CompactOutcome) (self : WalTier) : proc WalTier :=
  match compaction self with
  | Running task =>
      let! panicked := join task in
      let compaction :=
        if panicked : bool then Failed "compaction thread panicked"
        else match outcome with Done f => Ready f | CompactFailed m => Failed m end in
      discard_superseded_fold (with_compaction compaction self)
  | _ => Panic "a compaction is running"
  end.

Definition integrate_compaction (self : WalTier) : proc WalTier :=
  match compaction self with
  | Running task =>
      let! received := try_recv task in
      match received with
      | TryEmpty => Ret self
      | TryOk outcome => finish_compaction outcome self
      | TryDisconnected => finish_compaction disconnected self
      end
  | _ => Ret self
  end.

Definition sync_compaction (self : WalTier) : proc WalTier :=
  let! self := integrate_compaction self in discard_superseded_fold self.

Definition wait_for_compaction (self : WalTier) : proc (WalTier * Result CompactionStatus.t WalError) :=
  let! self :=
    match compaction self with
    | Running task =>
        let! received := recv task in
        finish_compaction (default disconnected received) self
    | _ => Ret self
    end in
  let! self := discard_superseded_fold self in
  Ret (self, current_compaction_status self).

Definition compaction_status (self : WalTier) : proc (WalTier * Result CompactionStatus.t WalError) :=
  let! self := sync_compaction self in
  Ret (self, current_compaction_status self).

Definition take_compaction_error (self : WalTier) : proc (WalTier * option string) :=
  let! self := integrate_compaction self in
  match compaction self with
  | Failed message => Ret (with_compaction Idle self, Some message)
  | _ => Ret (self, None)
  end.

(** [entries.iter().enumerate().map(..)] *)
Fixpoint number_entries (first i : Z) (es : list bytes) : list Entry :=
  match es with
  | [] => []
  | e :: es => mkEntry (wrapping_add first i) e :: number_entries first (i + 1) es
  end.

Definition snap_prefix (o : Options) (fold_lsn : Lsn) : string :=
  prefix o +:+ "snap/" +:+ dec20 fold_lsn +:+ "-".

Definition spawn_compaction (self : WalTier) : proc (WalTier * bool) :=
  let i := image (core self) in
  match tip i with
  | None => Panic "caller checked entries are nonempty"
  | Some fold_lsn =>
      let! handle := spawn
        {| ca_cache := cache (core self);
           ca_base_key := sr_key <$> img_snapshot i;
           ca_entries := number_entries (first_lsn i) 0 (img_entries i);
           ca_snap_prefix := snap_prefix (opts (core self)) fold_lsn;
           ca_max_snapshot_bytes := max_snapshot_bytes (opts (core self)) |} in
      match handle with
      | Ok task => Ret (with_compaction (Running task) self, true)
      | Err error => Ret (with_compaction (Failed ("start compactor: " +:+ error)) self, false)
      end
  end.

Definition compact_now (self : WalTier) : proc (WalTier * bool) :=
  let! self := sync_compaction self in
  if compaction_running self || has_pending_fold self
     || bool_decide (img_entries (image (core self)) = [])
  then Ret (self, false)
  else spawn_compaction self.

Definition maybe_trigger_compaction (self : WalTier) : proc WalTier :=
  if negb (compaction_running self) && negb (has_pending_fold self) && negb (is_failed self)
     && negb (bool_decide (img_entries (image (core self)) = []))
     && should_compact (Core_stats (core self))
  then let! (self, _) := compact_now self in Ret self
  else Ret self.

(** ** The compare-and-swap *)

Definition install_pending_fold (self : WalTier) : proc WalTier :=
  match compaction self with
  | Ready f =>
      let self := with_compaction Installed self in
      let i := image (core self) in
      let pops := wrap64 (f_lsn f - first_lsn i) + 1 in
      let i' := {| img_snapshot := Some (mkSnapshotRef (f_key f) (f_lsn f));
                   img_entries := drop (Z.to_nat pops) (img_entries i) |} in
      let self := with_core (with_image i' (core self)) self in
      match img_snapshot i with
      | Some old =>
          if negb (bool_decide (sr_key old = f_key f)) then
            let! _ := on_fs_ (remove_snapshot (cache (core self)) (sr_key old)) in
            Ret (queue_obsolete (sr_key old) self)
          else Ret self
      | None => Ret self
      end
  | _ => Ret self
  end.

(** The candidate of the next PUT; [None] is the failed [debug_assert!]. *)
Definition candidate (self : WalTier) (extra : list bytes) : option (Result bytes WalError) :=
  let i := image (core self) in
  match compaction self with
  | Ready f =>
      if applies_to f i then
        let skip := wrap64 (f_lsn f + 1 - first_lsn i) in
        Some (encode_view i (Some (mkSnapshotRef (f_key f) (f_lsn f))) skip extra
                (limits (opts (core self))))
      else None
  | _ => Some (encode_view i None 0 extra (limits (opts (core self))))
  end.

(** After a lost compare-and-swap. *)
Definition lost_install (self : WalTier) : proc (WalTier * Result bool InstallError) :=
  let! (c, refreshed) := Core_refresh (core self) in
  let self := with_core c self in
  match refreshed with
  | Err e => Ret (self, Err (install_error e))
  | Ok refreshed =>
      let! self := discard_superseded_fold self in
      Ret (queue_superseded (r_superseded refreshed) self, Ok false)
  end.

Definition try_install (extra : list bytes) (self : WalTier) : proc (WalTier * Result bool InstallError) :=
  match candidate self extra with
  | None => Panic "f.applies_to(&self.core.image)"
  | Some (Err e) => Ret (self, Err (install_error e))
  | Some (Ok data) =>
      match etag (core self) with
      | None => Panic "writer always holds the wal etag"
      | Some e =>
          let! put := request (put_if_match (wal_key (opts (core self))) (Some e) data) in
          match put with
          | Err source => Ret (self, Err (mkInstallError (StoreFailure source) (se_mutation_outcome source)))
          | Ok (PutOk new_etag) =>
              let! c := record_image_put new_etag data (core self) in
              let! self := install_pending_fold (with_core c self) in
              Ret (self, Ok true)
          | Ok PreconditionFailed => lost_install self
          end
      end
  end.

(** ** Appends *)

(** After a winning PUT: apply each entry and push it onto the image. *)
Fixpoint push_applied (first i : Z) (es : list bytes) (c : Core) : Core :=
  match es with
  | [] => c
  | e :: es =>
      let im := image c in
      push_applied first (i + 1) es
        (mkCore (opts c) (cache c) (apply (state c) (wrapping_add first i) e)
           {| img_snapshot := img_snapshot im; img_entries := img_entries im ++ [e] |}
           (etag c) (image_len c) (cache_dirty c))
  end.

Definition append_result : Type := Result (Lsn * Lsn) WriteError.

(** Attempts [attempt ..= max_write_attempts], [fuel] of them. *)
Fixpoint append_loop (fuel : nat) (attempt : Z) (single : bool) (entries : list bytes) (self : WalTier)
  : proc (WalTier * append_result) :=
  match fuel with
  | O => Panic "options require a positive attempt budget"
  | Datatypes.S fuel =>
      let first := next_lsn (image (core self)) in
      match entries with
      | [] => Ret (self, Ok (first, first))
      | _ :: _ =>
          let! (self, installed) := try_install entries self in
          match installed with
          | Ok true =>
              let count := zlen entries in
              let self := with_core (push_applied first 0 entries (core self)) self in
              let! self := maybe_trigger_compaction self in
              Ret (self, Ok (first, wrapping_add first count))
          | Err error => Ret (self, Err (mkWriteError entries (ie_source error) (ie_outcome error)))
          | Ok false =>
              if attempt =? max_write_attempts (opts (core self)) then
                Ret (self, Err (mkWriteError entries (Contention "write" attempt) NotApplied))
              else
                match reconcile_batch (state (core self)) entries with
                | RetryBatch => append_loop fuel (attempt + 1) single entries self
                | ReplaceBatch replacement =>
                    if single && negb (zlen replacement =? 1) then
                      Ret (self, Err (mkWriteError replacement
                        (InvalidReplacement (zlen replacement)) NotApplied))
                    else append_loop fuel (attempt + 1) single replacement self
                | AbortBatch => Ret (self, Err (mkWriteError entries ReconcileAborted NotApplied))
                end
          end
      end
  end.

Definition append (entries : list bytes) (single : bool) (self : WalTier)
  : proc (WalTier * append_result) :=
  let! self := sync_compaction self in
  append_loop (Z.to_nat (max_write_attempts (opts (core self)))) 1 single entries self.

Definition write (entry : bytes) (self : WalTier) : proc (WalTier * Result Lsn WriteError) :=
  let! (self, r) := append [entry] true self in
  Ret (self, match r with Ok (start, _) => Ok start | Err e => Err e end).

Definition write_batch (entries : list bytes) (self : WalTier) : proc (WalTier * append_result) :=
  append entries false self.

(** ** Maintenance *)

Fixpoint flush_loop (fuel : nat) (attempt : Z) (self : WalTier) : proc (WalTier * Result unit WalError) :=
  match fuel with
  | O => Ret (self, Ok tt)
  | Datatypes.S fuel =>
      if negb (has_pending_fold self) then Ret (self, Ok tt) else
      let! (self, r) := try_install [] self in
      match r with
      | Err error => Ret (self, Err (ie_source error))
      | Ok _ =>
          if has_pending_fold self && (attempt =? max_write_attempts (opts (core self))) then
            Ret (self, Err (Contention "flush" attempt))
          else flush_loop fuel (attempt + 1) self
      end
  end.

Definition WalTier_checkpoint_cache (self : WalTier) : proc WalTier :=
  let! c := checkpoint_cache (core self) in Ret (with_core c self).

Definition flush (self : WalTier) : proc (WalTier * Result MaintenanceStatus WalError) :=
  let! (self, waited) := wait_for_compaction self in
  match waited with
  | Err e => Ret (self, Err e)
  | Ok _ =>
      let! (self, r) := flush_loop (Z.to_nat (max_write_attempts (opts (core self)))) 1 self in
      match r with
      | Err e => Ret (self, Err e)
      | Ok _ =>
          let! self := WalTier_checkpoint_cache self in
          let! (self, collected) := collect_garbage self in
          Ret (self,
            match collected with
            | Err e => Err (StoreFailure e)
            | Ok garbage =>
                match current_compaction_status self with
                | Err e => Err e
                | Ok status => Ok (mkMaintenanceStatus status garbage)
                end
            end)
      end
  end.

Definition close (self : WalTier) : proc (Result MaintenanceStatus WalError) :=
  let! (_, r) := flush self in Ret r.

Definition WalTier_refresh (self : WalTier) : proc (WalTier * Result bool WalError) :=
  let! self := sync_compaction self in
  let! (c, r) := Core_refresh (core self) in
  let self := with_core c self in
  match r with
  | Err e => Ret (self, Err e)
  | Ok refreshed =>
      let! self := discard_superseded_fold self in
      Ret (queue_superseded (r_superseded refreshed) self, Ok (r_changed refreshed))
  end.

Definition WalTier_state (self : WalTier) : State := state (core self).
Definition WalTier_stats (self : WalTier) : WalStats := Core_stats (core self).
Definition WalTier_tip (self : WalTier) : option Lsn := tip (image (core self)).

End writer.
