(* ===== verification/Protocol.v ===== *)
(** * The protocol between handles of one log

    The history that the handles of a log build together, the invariant of
    the shared world, and what a step of any handle may do to it ([grows]).
    The rely of a handle is that the others only take such steps and do not
    commit in its name; its guarantee is the same about itself.

    The history is observed, not stored: [record] looks at the log object
    before and after each action and notes which thread appended what. *)

From S2P Require Import Prelude Fmt Utf8 Error Image ImageCodec App Proc Atomic AtomicProps Cache CacheChecksum CacheProps CacheTheorems Store World Core Compactor Writer.

(** A committed batch and the thread that committed it. *)
Abbreviation Commit := (nat * list bytes)%type.
Abbreviation History := (list Commit).
Definition entries (g : History) : list bytes := concat (snd <$> g).
(** The batches of one thread. *)
Definition mine (i : nat) (g : History) : list (list bytes) := snd <$> filter (fun c => c.1 = i) g.

Lemma entries_app g g' : entries (g ++ g') = entries g ++ entries g'.
Proof. unfold entries. by rewrite fmap_app, concat_app. Qed.

Lemma entries_prefix g g' : g `prefix_of` g' -> entries g `prefix_of` entries g'.
Proof. intros [x ->]. rewrite entries_app. by eexists. Qed.

Lemma mine_app i g g' : mine i (g ++ g') = mine i g ++ mine i g'.
Proof. unfold mine. by rewrite filter_app, fmap_app. Qed.

Lemma mine_one i j es : mine i [(j, es)] = if decide (j = i) then [es] else [].
Proof. unfold mine. rewrite filter_cons. cbn. by destruct (decide (j = i)). Qed.

(** ** Snapshot keys *)

Section keys.
Variable P : string.

Definition wkey : string := P +:+ "wal".

(** The keys under which a snapshot of the first [L + 1] entries is published. *)
Definition snap_key_at (k : string) (L : Lsn) : Prop :=
  is_u64 L /\ exists id, length id = 16%nat /\ k = P +:+ "snap/" +:+ dec20 L +:+ "-" +:+ hex id.

Lemma snap_key_fun k L L' : snap_key_at k L -> snap_key_at k L' -> L = L'.
Proof.
  intros (HL & id & _ & ->) (HL' & id' & _ & H).
  do 2 apply string_app_inj_l in H.
  apply string_app_inj_len in H as [Hd _]; [by apply dec20_inj|by rewrite !str_len_dec20].
Qed.

Lemma snap_key_not_wal k L : snap_key_at k L -> k <> wkey.
Proof.
  intros (_ & id & _ & ->) H. apply string_app_inj_l in H.
  apply (f_equal as_bytes) in H. rewrite as_bytes_app in H. discriminate H.
Qed.

Lemma snap_key_len k L : snap_key_at k L -> str_len k = str_len P + 58.
Proof.
  intros (_ & id & Hid & ->). rewrite !str_len_app, str_len_dec20, str_len_hex.
  unfold zlen. rewrite Hid. change (str_len "snap/") with 5. change (str_len "-") with 1. lia.
Qed.

Lemma is_utf8_ascii s : Forall (fun b => byte_val b < 128) (as_bytes s) -> is_utf8 s.
Proof.
  intros Hs. unfold is_utf8. rewrite <- (app_nil_r (as_bytes s)). by rewrite utf8_ascii_app.
Qed.

Lemma fixed_digits_ascii b n z acc : 2 <= b <= 16 ->
  Forall (fun b => byte_val b < 128) (as_bytes acc) ->
  Forall (fun b => byte_val b < 128) (as_bytes (fixed_digits b n z acc)).
Proof.
  intros Hb. revert z acc. induction n as [|n IH]; intros z acc Ha; cbn [fixed_digits]; [done|].
  apply IH. rewrite as_bytes_cons. constructor; [|done].
  pose proof (Z.mod_pos_bound z b). generalize (digit_code (z mod b)).
  generalize (digit (z mod b)). intros c Hc. rewrite <- Ascii.ascii_of_byte_of_ascii in Hc at 1.
  assert (forall x, Z.of_N (Ascii.N_of_ascii (Ascii.ascii_of_byte x)) = byte_val x) as Hx by by intros [].
  rewrite Hx in Hc. destruct (_ <? 10) eqn:E; zbool; lia.
Qed.

Lemma hex_ascii bs : Forall (fun b => byte_val b < 128) (as_bytes (hex bs)).
Proof.
  induction bs as [|b bs IH]; [constructor|]. cbn [hex]. rewrite as_bytes_app. apply Forall_app.
  split; [|done]. by apply fixed_digits_ascii.
Qed.

Lemma snap_key_utf8 k L : is_utf8 P -> snap_key_at k L -> is_utf8 k.
Proof.
  intros HP (_ & id & _ & ->). apply is_utf8_app; [done|]. apply is_utf8_ascii.
  rewrite !as_bytes_app. repeat (apply Forall_app; split).
  - by repeat constructor.
  - by apply fixed_digits_ascii.
  - by repeat constructor.
  - apply hex_ascii.
Qed.

End keys.
