(* ===== verification/FsStoreProps.v ===== *)
(** * FsStore keeps the promises of an object store

    Object paths are injective, an object file parses to what was stored, and
    every request keeps the laws of [ObjectStoreLaws], whatever I/O fails. *)

From S2P Require Import Prelude Fmt Utf8 Error Atomic AtomicProps Cache CacheProps Store Protocol FsStore.

(** ** Paths *)

(** The inverse of [hex] on its image. *)
Definition undigit (b : byte) : Z := if byte_val b <? 58 then byte_val b - 48 else byte_val b - 87.
Fixpoint unhex (bs : bytes) : bytes :=
  match bs with h :: l :: bs => byte_of (16 * undigit h + undigit l) :: unhex bs | _ => [] end.

Lemma unhex_hex bs : unhex (as_bytes (hex bs)) = bs.
Proof.
  induction bs as [|b bs IH]; [done|]. cbn [hex]. rewrite as_bytes_app.
  transitivity (b :: unhex (as_bytes (hex bs))); [|by rewrite IH].
  generalize (as_bytes (hex bs)). intros x. by destruct b.
Qed.

Lemma chunks64_concat n bs : (length bs <= n)%nat -> concat (chunks64 n bs) = bs.
Proof.
  revert bs. induction n as [|n IH]; intros [|b bs] Hn; cbn [chunks64]; try done; [cbn in Hn; lia|].
  cbn [concat]. rewrite IH by (rewrite length_drop; cbn in *; lia). apply take_drop.
Qed.

(** The key of an object path, if it is one. *)
Definition key_of (root p : path) : option string :=
  let mid := removelast (drop (Datatypes.S (length root)) p) in
  let key := string_of_list_byte (concat ((fun n => unhex (as_bytes n)) <$> mid)) in
  if bool_decide (object_path root key = p) then Some key else None.

Lemma key_of_path root k : key_of root (object_path root k) = Some k.
Proof.
  unfold key_of. replace (string_of_list_byte _) with k; [by rewrite bool_decide_eq_true_2|].
  unfold object_path.
  replace (drop (Datatypes.S (length root)) _)
    with ((hex <$> chunks64 (length (as_bytes k)) (as_bytes k)) ++ ["object"]).
  2: { rewrite drop_app, drop_ge by lia.
       by replace (Datatypes.S (length root) - length root)%nat with 1%nat by lia. }
  rewrite removelast_last, <- list_fmap_compose.
  rewrite (list_fmap_ext _ id) by (intros; apply unhex_hex). rewrite list_fmap_id.
  by rewrite chunks64_concat, of_list_as_bytes.
Qed.

Lemma key_of_Some root p k : key_of root p = Some k <-> p = object_path root k.
Proof.
  split; [|intros ->; apply key_of_path]. unfold key_of. case_bool_decide as H; [|done]. by intros [= <-].
Qed.

Lemma object_path_inj root k k' : object_path root k = object_path root k' -> k = k'.
Proof. intros H. apply (f_equal (key_of root)) in H. rewrite !key_of_path in H. by injection H. Qed.

Lemma object_path_not_tmp root k t : is_tmp t -> object_path root k <> t.
Proof.
  intros [s Hs]%is_tmp_last <-. unfold object_path in Hs. rewrite !app_assoc, last_snoc in Hs. discriminate Hs.
Qed.

(** ** Object files *)

Lemma parse_object_parts key etag data : is_utf8 etag -> str_len etag = 32 -> is_u64 (zlen data) ->
  parse_object key (concat (object_parts etag data)) = Ok (mkStored data etag).
Proof.
  intros Hu He Hd. unfold object_parts. cbn [concat]. rewrite app_nil_r. unfold parse_object.
  assert (zlen (as_bytes etag) = 32) as He' by exact He.
  assert (length (as_bytes etag) = 32%nat) as Hel by (unfold zlen in He'; lia).
  change FS_MAGIC with (as_bytes "WFS2"). set (m := as_bytes "WFS2"). assert (zlen m = 4) as Hm by done.
  rewrite !zlen_app, zlen_to_le_bytes, He', Hm. pose proof (zlen_nonneg data).
  destruct (_ <? 44) eqn:E; zbool; [lia|]. cbn [orb].
  rewrite (take_app_zlen 4), bool_decide_eq_true_2 by done. cbn [negb orb].
  rewrite (app_assoc m), (drop_app_zlen 36), (take_app_zlen 8)
    by (rewrite ?zlen_app, ?zlen_to_le_bytes, ?He'; done).
  rewrite le8_u64 by done. destruct (Z.eqb_spec (zlen data) (4 + (32 + (Z.of_nat 8 + zlen data)) - 44)); [|lia].
  cbn [negb]. rewrite <- (app_assoc m), (drop_app_zlen 4), (take_app_zlen 32) by done.
  rewrite from_utf8_as_bytes by done.
  rewrite !app_assoc, (drop_app_zlen 44); [done|]. rewrite !zlen_app, zlen_to_le_bytes, He', Hm. done.
Qed.

(** ** The objects of the store *)

Definition object_at (s : FsStore) (k : string) : option Stored :=
  fs_files (fss_fs s) !! object_path (fss_root s) k ≫= fun b =>
    match parse_object k b with Ok o => Some o | Err _ => None end.

Lemma object_at_file s k b o : fs_files (fss_fs s) !! object_path (fss_root s) k = Some b ->
  parse_object k b = Ok o -> object_at s k = Some o.
Proof. intros Hb Hp. unfold object_at. rewrite Hb. cbn. by rewrite Hp. Qed.

Definition fss_contents (s : FsStore) : gmap string Stored :=
  list_to_map (omap (fun pb : path * bytes =>
    key_of (fss_root s) pb.1 ≫= fun k =>
      match parse_object k pb.2 with Ok o => Some (k, o) | Err _ => None end)
    (map_to_list (fs_files (fss_fs s)))).

Lemma fss_contents_lookup s k : fss_contents s !! k = object_at s k.
Proof.
  apply option_eq. intros o. unfold fss_contents, object_at.
  assert (forall x, (k, x) ∈ omap (fun pb : path * bytes =>
      key_of (fss_root s) pb.1 ≫= fun k =>
        match parse_object k pb.2 with Ok o => Some (k, o) | Err _ => None end)
      (map_to_list (fs_files (fss_fs s))) <->
    exists b, fs_files (fss_fs s) !! object_path (fss_root s) k = Some b /\ parse_object k b = Ok x) as Hin.
  { intros x. rewrite list_elem_of_omap. split.
    - intros ([p b] & Hpb%elem_of_map_to_list & Hk). cbn [fst snd] in Hk.
      destruct (key_of (fss_root s) p) as [k'|] eqn:Ek; [|done]. cbn in Hk. apply key_of_Some in Ek as ->.
      destruct (parse_object k' b) eqn:Ep; [|done]. injection Hk as -> ->. by exists b.
    - intros (b & Hb & Hp). exists (object_path (fss_root s) k, b). split; [by apply elem_of_map_to_list|].
      cbn [fst snd]. rewrite key_of_path. cbn. by rewrite Hp. }
  split.
  - intros Ho%elem_of_list_to_map_2. apply Hin in Ho as (b & -> & Hp). cbn. by rewrite Hp.
  - destruct (fs_files (fss_fs s) !! _) as [b|] eqn:Eb; cbn; [|done]. destruct (parse_object k b) as [x|] eqn:Ep; [|done].
    intros [= ->]. apply elem_of_list_to_map_1'; [|apply Hin; by exists b].
    intros y Hy. apply Hin in Hy as (b' & Hb' & Hp'). congruence.
Qed.

(** ** Validators *)

(** The validators that the supply of randomness will still produce. *)
Definition future (s : FsStore) : list string :=
  omap (fun o : option bytes => hex <$> o) (fss_ids s).

Definition fss_sane (s : FsStore) : Prop := map_Forall (fun _ b => zlen b <= ISIZE_MAX) (fs_files (fss_fs s)).

(** The coming validators are fresh: sixteen random bytes do not repeat. *)
Record fss_wf (s : FsStore) : Prop := {
  fw_ids16 : Forall (fun o => forall id, o = Some id -> length id = 16%nat) (fss_ids s);
  fw_nodup : NoDup (future s);
  fw_sizes : fss_sane s;
  fw_fresh : forall k o, object_at s k = Some o -> st_etag o ∉ future s;
}.

Definition fss_known (s : FsStore) (k e : string) (d : bytes) : Prop :=
  (e ∉ future s) /\ forall o, object_at s k = Some o -> st_etag o = e -> st_data o = d.

(** A step that leaves the objects alone, and may use up randomness. *)
Record fss_idle (s s' : FsStore) : Prop := {
  fi_root : fss_root s' = fss_root s;
  fi_ns : fss_namespace s' = fss_namespace s;
  fi_ids : exists used, fss_ids s = used ++ fss_ids s';
  fi_objects : forall k, object_at s' k = object_at s k;
}.

Lemma fss_idle_refl s : fss_idle s s.
Proof. split; [done..| |done]. by exists []. Qed.

Lemma fss_idle_trans s1 s2 s3 : fss_idle s1 s2 -> fss_idle s2 s3 -> fss_idle s1 s3.
Proof.
  intros [R1 N1 [u1 I1] O1] [R2 N2 [u2 I2] O2]. split; [congruence|congruence| |by intros; rewrite O2].
  exists (u1 ++ u2). by rewrite I1, I2, app_assoc.
Qed.

Lemma future_suffix s s' : (exists used, fss_ids s = used ++ fss_ids s') -> exists u, future s = u ++ future s'.
Proof. intros [u Hu]. unfold future. rewrite Hu, omap_app. by eexists. Qed.

Lemma fss_idle_wf s s' : fss_idle s s' -> fss_wf s -> fss_sane s' -> fss_wf s'.
Proof.
  intros Hi [H16 Hnd _ Hf] Hs. pose proof (future_suffix _ _ (fi_ids _ _ Hi)) as [u Hu]. destruct (fi_ids _ _ Hi) as [v Hv].
  split.
  - rewrite Hv in H16. by apply Forall_app in H16 as [_ ?].
  - rewrite Hu in Hnd. by apply NoDup_app in Hnd as (_ & _ & ?).
  - done.
  - intros k o Ho. rewrite (fi_objects _ _ Hi) in Ho. specialize (Hf k o Ho). rewrite Hu in Hf. set_solver.
Qed.

Lemma fss_idle_known s s' k e d : fss_idle s s' -> fss_known s k e d -> fss_known s' k e d.
Proof.
  intros Hi [He Hk]. pose proof (future_suffix _ _ (fi_ids _ _ Hi)) as [u Hu]. split; [rewrite Hu in He; set_solver|].
  intros o. rewrite (fi_objects _ _ Hi). apply Hk.
Qed.

Lemma fss_idle_contents s s' : fss_idle s s' -> fss_contents s' = fss_contents s.
Proof. intros Hi. apply map_eq. intros k. rewrite !fss_contents_lookup. apply Hi. Qed.

Lemma fss_idle_keeps s s' : fss_idle s s' -> fss_wf s -> fss_sane s' -> keeps fss_wf fss_sane fss_known s s'.
Proof.
  intros Hi Hw Hs. split_and!; [apply Hw|by eapply fss_idle_wf| |].
  - cbn. by rewrite (fi_ns _ _ Hi).
  - intros k e d. by apply fss_idle_known.
Qed.

(** ** Reading *)

Lemma with_files_idle fs s : (forall k, fs_files fs !! object_path (fss_root s) k = fs_files (fss_fs s) !! object_path (fss_root s) k) ->
  fss_idle s (with_files fs s).
Proof. intros Hf. split; [done..|by exists []|]. intros k. unfold object_at. cbn [with_files fss_fs fss_root]. by rewrite Hf. Qed.

Lemma read_object_spec k s s' r : read_object k s = (s', r) ->
  fss_idle s s' /\ (fss_sane s -> fss_sane s') /\ forall o, r = Ok o -> o = object_at s k.
Proof.
  unfold read_object. destruct (read_file _ _) as [fs [bs|e]] eqn:E; apply read_file_spec in E as [Hf E];
    intros [= <- <-]; (split; [apply with_files_idle; intros; by rewrite Hf|]);
    (split; [unfold fss_sane; cbn [with_files fss_fs]; by rewrite Hf|]); intros o Ho; unfold object_at.
  - rewrite E. cbn. destruct (parse_object k bs); [by injection Ho|done].
  - destruct (io_kind e); try done. rewrite E by done. by injection Ho.
Qed.

(** ** Writing *)

Lemma fresh_id_spec s s' r : fss_wf s -> fresh_id s = (s', r) ->
  fss_idle s s' /\ fss_fs s' = fss_fs s
  /\ forall e, r = Ok e -> (e ∉ future s') /\ (e ∈ future s) /\ is_utf8 e /\ str_len e = 32.
Proof.
  intros [H16 Hnd _ _]. unfold fresh_id, future in *. destruct (fss_ids s) as [|[id|] ids] eqn:Ei; intros [= <- <-].
  - split; [apply fss_idle_refl|]. split; [done|]. done.
  - split; [split; [done..|exists [Some id]; by rewrite Ei|done]|]. split; [done|]. intros e [= <-]. cbn in Hnd |- *.
    apply NoDup_cons in Hnd as [Hn _]. split_and!; [done|by left|apply is_utf8_ascii, hex_ascii|].
    apply Forall_cons in H16 as [Hid _]. rewrite str_len_hex. unfold zlen. by rewrite (Hid id eq_refl).
  - split; [split; [done..|exists [None]; by rewrite Ei|done]|]. done.
Qed.

(** What a successful write leaves: the new version, everything else as it was. *)
Definition fss_stored (k e : string) (d : bytes) (s s' : FsStore) : Prop :=
  fss_root s' = fss_root s /\ fss_namespace s' = fss_namespace s
  /\ (exists used, fss_ids s = used ++ fss_ids s')
  /\ (e ∈ future s) /\ (e ∉ future s')
  /\ object_at s' k = Some (mkStored d e) /\ forall k', k' <> k -> object_at s' k' = object_at s k'.

Lemma write_object_spec k d s s' r : fss_wf s -> fss_sane s' -> write_object k d s = (s', r) ->
  match r with
  | Ok e => fss_stored k e d s s'
  | Err _ => fss_idle s s'
  end.
Proof.
  intros Hwf Hsane. unfold write_object. destruct (fresh_id s) as [s1 [e|err]] eqn:Ef;
    apply fresh_id_spec in Ef as (Hi & Hfs & He); [|done| |done]; [|by intros [= <- <-]].
  destruct (He e eq_refl) as (Hn & Hin & Hu & Hl).
  assert (forall fs, fs_files fs = fs_files (fss_fs s1) -> fss_idle s (with_files fs s1)) as Hsame.
  { intros fs Hf. eapply fss_idle_trans; [exact Hi|]. apply with_files_idle. intros. by rewrite Hf. }
  destruct (create_dir_all _ _) as [fs1 r1] eqn:Ec.
  assert (fs_files fs1 = fs_files (fss_fs s1)) as Hf1.
  { unfold create_dir_all in Ec. pose proof (draw_files (fss_fs s1)) as Hd. destruct (draw (fss_fs s1)) as [o f].
    cbn in Hd. destruct o; injection Ec as <- _; done. }
  destruct r1 as [u|e1]; [|intros [= <- <-]; by apply Hsame].
  destruct (write_atomic _ _ fs1) as [fs2 r2] eqn:Ew. apply write_atomic_spec in Ew.
  destruct r2 as [u2|e2]; intros [= <- <-].
  - rewrite Hf1 in Ew. unfold fss_stored. cbn [with_files fss_root fss_namespace fss_ids].
    split_and!; [apply Hi|apply Hi|apply Hi|done|done| |].
    + assert (fs_files (fss_fs (with_files fs2 s1)) !! object_path (fss_root s1) k
        = Some (concat (object_parts e d))) as Hfile.
      { cbn [with_files fss_fs]. rewrite Ew. apply lookup_insert_eq. }
      pose proof (Hsane _ _ Hfile) as Hlen. cbn beta in Hlen.
      eapply object_at_file; [exact Hfile|]. apply parse_object_parts; [done..|].
      unfold object_parts in Hlen. cbn [concat] in Hlen. rewrite !zlen_app in Hlen.
      pose proof (zlen_nonneg d). pose proof (zlen_nonneg (as_bytes e)). pose proof (zlen_nonneg FS_MAGIC).
      pose proof (zlen_nonneg (to_le_bytes 8 (zlen d))). pose proof (zlen_nonneg (@nil byte)). zlia.
    + intros k' Hk'. rewrite <- (fi_objects _ _ Hi). unfold object_at. cbn [with_files fss_fs fss_root].
      rewrite Ew, lookup_insert_ne; [done|]. intros H%object_path_inj. congruence.
  - destruct Ew as (t & Ht & _ & Hq). eapply fss_idle_trans; [exact Hi|]. apply with_files_idle. intros k'.
    rewrite Hq, Hf1; [done|]. by apply object_path_not_tmp.
Qed.

Lemma fss_stored_keeps k e d s s' : fss_stored k e d s s' -> fss_wf s -> fss_sane s' ->
  keeps fss_wf fss_sane fss_known s s' /\ fss_contents s' = <[k := mkStored d e]> (fss_contents s).
Proof.
  intros (Hroot & Hns & Hids & Hin & Hn & Hk & Hother) [H16 Hnd Hsz Hf] Hs.
  pose proof (future_suffix _ _ Hids) as [u Hu]. destruct Hids as [v Hv]. split; [split_and!; [done| | |]|].
  - split.
    + rewrite Hv in H16. by apply Forall_app in H16 as [_ ?].
    + rewrite Hu in Hnd. by apply NoDup_app in Hnd as (_ & _ & ?).
    + done.
    + intros k' o Ho. destruct (decide (k' = k)) as [->|Hne].
      * rewrite Hk in Ho. by injection Ho as <-.
      * rewrite Hother in Ho by done. specialize (Hf k' o Ho). rewrite Hu in Hf. set_solver.
  - cbn. by rewrite Hns.
  - intros k' e' d' [He' Hd']. split; [rewrite Hu in He'; set_solver|]. intros o Ho Heq.
    destruct (decide (k' = k)) as [->|Hne].
    + rewrite Hk in Ho. injection Ho as <-. cbn in Heq. congruence.
    + rewrite Hother in Ho by done. by apply Hd'.
  - apply map_eq. intros k'. rewrite fss_contents_lookup. destruct (decide (k' = k)) as [->|Hne].
    + by rewrite lookup_insert_eq.
    + by rewrite lookup_insert_ne, fss_contents_lookup, Hother.
Qed.

(** ** Deleting *)

Lemma remove_file_result p fs fs' r : remove_file p fs = (fs', r) ->
  match r with
  | Ok _ => fs_files fs' = delete p (fs_files fs)
  | Err e => fs_files fs' = fs_files fs /\ (io_kind e = NotFound -> fs_files fs !! p = None)
  end.
Proof.
  fs_step remove_file fs; [intros [= <- <-]; done|].
  rewrite H. destruct (_ !! p) eqn:E; intros [= <- <-]; cbn; [done|by split].
Qed.

Definition fss_deleted (k : string) (s s' : FsStore) : Prop :=
  fss_root s' = fss_root s /\ fss_namespace s' = fss_namespace s /\ fss_ids s' = fss_ids s
  /\ object_at s' k = None /\ forall k', k' <> k -> object_at s' k' = object_at s k'.

Lemma with_files_deleted k fs s : fs_files fs = delete (object_path (fss_root s) k) (fs_files (fss_fs s)) ->
  fss_deleted k s (with_files fs s).
Proof.
  intros Hf. split_and!; [done..| |].
  - unfold object_at. cbn [with_files fss_fs fss_root]. by rewrite Hf, lookup_delete_eq.
  - intros k' Hk'. unfold object_at. cbn [with_files fss_fs fss_root]. rewrite Hf, lookup_delete_ne; [done|].
    intros H%object_path_inj. congruence.
Qed.

Lemma fss_deleted_keeps k s s' : fss_deleted k s s' -> fss_wf s -> fss_sane s' ->
  keeps fss_wf fss_sane fss_known s s' /\ fss_contents s' = delete k (fss_contents s).
Proof.
  intros (Hroot & Hns & Hids & Hk & Hother) [H16 Hnd Hsz Hf] Hs.
  assert (future s' = future s) as Hfut by (unfold future; by rewrite Hids). split; [split_and!; [done| | |]|].
  - split; [by rewrite Hids|by rewrite Hfut|done|]. intros k' o Ho. rewrite Hfut.
    destruct (decide (k' = k)) as [->|Hne]; [congruence|]. rewrite Hother in Ho by done. by eapply Hf.
  - cbn. by rewrite Hns.
  - intros k' e' d' [He' Hd']. split; [by rewrite Hfut|]. intros o Ho.
    destruct (decide (k' = k)) as [->|Hne]; [congruence|]. rewrite Hother in Ho by done. by apply Hd'.
  - apply map_eq. intros k'. rewrite fss_contents_lookup. destruct (decide (k' = k)) as [->|Hne].
    + by rewrite lookup_delete_eq.
    + by rewrite lookup_delete_ne, fss_contents_lookup, Hother.
Qed.

#[global] Program Instance FsStore_laws : ObjectStoreLaws FsStore := {|
  contents := fss_contents;
  known := fss_known;
  store_wf := fss_wf;
  store_sane := fss_sane;
  late _ := [];
  land _ s := s;
|}.
Next Obligation.
  intros s k o Hw. rewrite fss_contents_lookup. intros Ho. split; [by eapply fw_fresh|].
  intros o' Ho' _. congruence.
Qed.
Next Obligation. intros s k e d o [_ Hk]. rewrite fss_contents_lookup. apply Hk. Qed.
Next Obligation.
  intros k s s' r Hr Hw Hs. apply read_object_spec in Hr as (Hi & _ & Ho).
  split; [by apply fss_idle_keeps|]. split; [by apply fss_idle_contents|]. intros o. rewrite fss_contents_lookup. apply Ho.
Qed.
Next Obligation.
  cbn. unfold default_get_if_changed. intros k c s s' r H Hw Hs. destruct (read_object k s) as [s1 r1] eqn:Er.
  apply read_object_spec in Er as (Hi & _ & Ho).
  assert (s' = s1) as ->. { destruct r1 as [[o|]|e]; [destruct c as [e|]; [case_bool_decide|]|..]; by injection H. }
  split; [by apply fss_idle_keeps|]. split; [by apply fss_idle_contents|]. rewrite fss_contents_lookup.
  destruct r1 as [[o|]|e]; [|injection H as <-; by rewrite (Ho None eq_refl)|by injection H as <-].
  rewrite <- (Ho (Some o) eq_refl). destruct c as [e|]; [case_bool_decide|]; injection H as <-; [|done..].
  by exists e, o.
Qed.
Next Obligation.
  cbn. unfold fss_put_if_match. intros k c d s s' r H Hw Hs. destruct (read_object k s) as [s1 r1] eqn:Er.
  apply read_object_spec in Er as (Hi & Hs1 & Ho). pose proof (fss_idle_wf _ _ Hi Hw (Hs1 (fw_sizes _ Hw))) as Hw1.
  assert (forall s2, fss_idle s1 s2 -> fss_sane s2 -> keeps fss_wf fss_sane fss_known s s2 /\ fss_contents s2 = fss_contents s) as Hidle.
  { intros s2 H12 Hs2. pose proof (fss_idle_trans _ _ _ Hi H12) as H02.
    split; [by apply fss_idle_keeps|by apply fss_idle_contents]. }
  destruct r1 as [cur|err]; [|injection H as <- <-; destruct (Hidle s1 (fss_idle_refl s1) Hs); auto].
  destruct (cas_matches _ c) eqn:Ec; cbn [negb] in H.
  2: { injection H as <- <-. by apply Hidle; [apply fss_idle_refl|]. }
  destruct (write_object k d s1) as [s2 r2] eqn:Ew. assert (s' = s2) as -> by by destruct r2; injection H.
  pose proof (write_object_spec _ _ _ _ _ Hw1 Hs Ew) as Hwr. destruct r2 as [e|err]; injection H as <-.
  - destruct (fss_stored_keeps _ _ _ _ _ Hwr Hw1 Hs) as [(? & ? & Hns & Hk) Hc]. split.
    + split_and!; [apply Hw|done|rewrite Hns; cbn; by rewrite (fi_ns _ _ Hi)|].
      intros k' e' d' Hkn. by apply Hk, (fss_idle_known s).
    + rewrite (fss_idle_contents _ _ Hi) in Hc. split; [|done]. by rewrite fss_contents_lookup, <- (Ho cur eq_refl).
  - destruct (Hidle s2 Hwr Hs). auto.
Qed.
Next Obligation.
  cbn. intros k d s s' r Hr Hw Hs. pose proof (write_object_spec _ _ _ _ _ Hw Hs Hr) as Hwr. destruct r as [e|err].
  - by apply fss_stored_keeps.
  - split; [by apply fss_idle_keeps|]. left. by apply fss_idle_contents.
Qed.
Next Obligation.
  cbn. unfold fss_delete. intros k s s' r H Hw Hs.
  destruct (remove_file _ (fss_fs s)) as [fs [u|e]] eqn:Er; apply remove_file_result in Er.
  - injection H as <- <-. assert (fss_deleted k s (with_files fs s)) as Hd by by apply with_files_deleted.
    by apply fss_deleted_keeps.
  - destruct Er as [Hf Hnf]. assert (s' = with_files fs s) as -> by by injection H.
    assert (fss_idle s (with_files fs s)) as Hi by (apply with_files_idle; intros; by rewrite Hf).
    split; [by apply fss_idle_keeps|]. assert (fss_contents (with_files fs s) = fss_contents s) as Hc by by apply fss_idle_contents.
    destruct (io_kind e); injection H as <-; [by left| |by left]. rewrite Hc. symmetry. apply delete_id.
    rewrite fss_contents_lookup. unfold object_at. by rewrite Hnf.
Qed.
Next Obligation. by intros. Qed.
Next Obligation. by intros. Qed.
Next Obligation. by intros; left. Qed.
Next Obligation. by intros; left. Qed.
Next Obligation. by intros; left. Qed.
Next Obligation. intros n s Hw Hs. split; [by split_and!|]. split; [done|by left]. Qed.

(** ** Properties *)

(** C38. A conditional put on the directory store is atomic and fenced. For any
    I/O faults: success means that the precondition held, that a read now
    finds exactly the new version under a validator that no stored version
    had, and that no other object changed; a refused or failed put changes no
    object at all, however far it got. *)
Theorem fs_put_if_match_atomic k c d s s' r :
  fss_wf s -> fss_sane s' -> fss_put_if_match k c d s = (s', r) ->
  match r with
  | Ok (PutOk e) =>
      cas_matches (st_etag <$> object_at s k) c = true
      /\ object_at s' k = Some (mkStored d e)
      /\ (forall k', k' <> k -> object_at s' k' = object_at s k')
      /\ (forall k' o, object_at s k' = Some o -> st_etag o <> e)
  | Ok PreconditionFailed => cas_matches (st_etag <$> object_at s k) c = false /\ forall k', object_at s' k' = object_at s k'
  | Err _ => forall k', object_at s' k' = object_at s k'
  end.
Proof.
  intros Hw Hs. unfold fss_put_if_match. destruct (read_object k s) as [s1 r1] eqn:Er.
  apply read_object_spec in Er as (Hi & Hs1 & Ho). pose proof (fss_idle_wf _ _ Hi Hw (Hs1 (fw_sizes _ Hw))) as Hw1.
  destruct r1 as [cur|err]; [|intros [= <- <-]; apply Hi]. rewrite (Ho cur eq_refl).
  destruct (cas_matches _ c) eqn:Ec; cbn [negb]; [|intros [= <- <-]; split; [done|apply Hi]].
  destruct (write_object k d s1) as [s2 r2] eqn:Ew. intros H. assert (s' = s2) as -> by by destruct r2; injection H.
  pose proof (write_object_spec _ _ _ _ _ Hw1 Hs Ew) as Hwr. destruct r2 as [e|err]; injection H as <-.
  - destruct Hwr as (_ & _ & _ & Hin & _ & Hk & Hother). split_and!; [done|done| |].
    + intros k' Hk'. rewrite Hother by done. apply Hi.
    + intros k' o Hko <-. rewrite <- (fi_objects _ _ Hi) in Hko. by apply (fw_fresh _ Hw1) in Hko.
  - intros k'. rewrite (fi_objects _ _ Hwr). apply Hi.
Qed.

Definition fs0 : FsStore :=
  mkFsStore ["d"] "ns" empty_fs [Some (repeat x01 16); Some (repeat x02 16); Some (repeat x03 16)].

Lemma fs0_wf : fss_wf fs0.
Proof.
  split; [repeat constructor; by intros id [= <-]| |by apply map_Forall_empty|].
  - apply (bool_decide_eq_true_1 (NoDup (future fs0))). vm_compute. reflexivity.
  - intros k o. unfold object_at. cbn [fs0 fss_fs empty_fs fs_files]. by rewrite lookup_empty.
Qed.

Lemma fs_put_if_match_atomic_witness :
  let r := fss_put_if_match "k" None [x01; x02] fs0 in
  r.2 = Ok (PutOk (hex (repeat x01 16)))
  /\ object_at r.1 "k" = Some (mkStored [x01; x02] (hex (repeat x01 16)))
  /\ (fss_put_if_match "k" None [x03] r.1).2 = Ok PreconditionFailed.
Proof.
  intros r. assert (r.2 = Ok (PutOk (hex (repeat x01 16)))) as Hr by (vm_compute; reflexivity).
  split; [exact Hr|]. split; [|vm_compute; reflexivity].
  assert (fss_sane r.1) as Hs.
  { apply (bool_decide_eq_true_1 (map_Forall (fun _ b => zlen b <= ISIZE_MAX) (fs_files (fss_fs r.1)))).
    vm_compute. reflexivity. }
  assert (fss_put_if_match "k" None [x01; x02] fs0 = (r.1, Ok (PutOk (hex (repeat x01 16))))) as He.
  { rewrite <- Hr. unfold r. by destruct (fss_put_if_match _ _ _ _). }
  destruct (fs_put_if_match_atomic "k" None [x01; x02] fs0 _ _ fs0_wf Hs He) as (_ & Hk & _). exact Hk.
Defined.

(** ** Identity of a root *)

Lemma hex_digits bs : forallb is_hexdigit (as_bytes (hex bs)) = true.
Proof.
  induction bs as [|b bs IH]; [done|]. cbn [hex]. rewrite as_bytes_app, forallb_app, IH, andb_true_r. by destruct b.
Qed.

Lemma valid_fresh id : length id = 16%nat -> valid_identity (as_bytes (FS_PREFIX +:+ hex id)) = true.
Proof.
  intros Hid. unfold valid_identity. rewrite as_bytes_app, take_app_length, drop_app_length.
  rewrite bool_decide_eq_true_2, hex_digits by done. cbn [andb]. rewrite andb_true_r.
  apply Z.eqb_eq. change (str_len (hex id) = 32). rewrite str_len_hex. unfold zlen. by rewrite Hid.
Qed.

Lemma valid_identity_len id : valid_identity id = true -> zlen id = 46.
Proof.
  unfold valid_identity. intros H. apply andb_prop in H as [Hp H]. apply andb_prop in H as [H _].
  apply bool_decide_eq_true in Hp. apply Z.eqb_eq in H. change (length (as_bytes FS_PREFIX)) with 14%nat in *.
  rewrite <- (take_drop 14 id), zlen_app, H, Hp. done.
Qed.

Definition marker (root : path) : path := root ++ [MARKER].
Definition identity_text (id : bytes) (root : path) : bytes := id ++ as_bytes ":" ++ as_bytes (hex (path_text root)).

Lemma identity_text_inj id root id' root' : valid_identity id = true -> valid_identity id' = true ->
  identity_text id root = identity_text id' root' -> id = id' /\ path_text root = path_text root'.
Proof.
  intros Hv%valid_identity_len Hv'%valid_identity_len H. apply app_inj_len in H as [-> H]; [|congruence].
  split; [done|]. apply app_inv_head, as_bytes_inj, hex_inj in H. done.
Qed.

Lemma open_or_create_spec p fs fs' r : open_or_create p fs = (fs', r) ->
  match r with
  | Ok c => fs_files fs' !! p = Some c /\ forall q, q <> p -> fs_files fs' !! q = fs_files fs !! q
  | Err _ => True
  end.
Proof.
  fs_step open_or_create fs; [by intros [= <- <-]|]. rewrite H. destruct (fs_files fs !! p) eqn:E; intros [= <- <-].
  - split; [by rewrite H|]. intros. by rewrite H.
  - cbn. split; [by rewrite lookup_insert_eq|]. intros q Hq. by rewrite lookup_insert_ne by done.
Qed.

(** What an open root means: the marker holds a valid identity, from which and
    from the root the namespace is made; nothing but the marker was written. *)
Definition opened_root (root : path) (fs fs' : Fs) (s : FsStore) : Prop :=
  fss_root s = root /\ fss_fs s = fs' /\ (forall p, p <> marker root -> fs_files fs' !! p = fs_files fs !! p)
  /\ exists id, fs_files fs' !! marker root = Some id /\ from_utf8 id <> None /\ valid_identity id = true
     /\ as_bytes (fss_namespace s) = identity_text id root.

Lemma FsStore_new_spec root held fs ids fs' s :
  Forall (fun o => forall id, o = Some id -> length id = 16%nat) ids ->
  FsStore_new root held fs ids = (fs', Ok s) -> held = false /\ opened_root root fs fs' s.
Proof.
  intros H16. unfold FsStore_new. destruct (create_dir_all root fs) as [fs1 [u1|e1]] eqn:E1; [|done].
  assert (fs_files fs1 = fs_files fs) as Hf1.
  { unfold create_dir_all in E1. pose proof (draw_files fs) as Hd. destruct (draw fs) as [o f].
    cbn in Hd. destruct o; by injection E1 as <-. }
  destruct (open_or_create _ fs1) as [fs2 [c2|e2]] eqn:E2; apply open_or_create_spec in E2; [|done].
  destruct E2 as [Hm2 Hq2]. destruct held; [done|].
  destruct (read_file _ fs2) as [fs3 [c|e3]] eqn:E3; apply read_file_spec in E3 as [Hf3 Hc]; [|done].
  destruct (from_utf8 c) as [ns|] eqn:Eu; [|done]. apply from_utf8_Some in Eu as Hns. destruct Hns as [Hns _].
  case_bool_decide as Hempty.
  - destruct (read_dir root fs3) as [fs4 [l|e4]] eqn:E4; [|done].
    assert (fs_files fs4 = fs_files fs3) as Hf4.
    { unfold read_dir in E4. pose proof (draw_files fs3) as Hd. destruct (draw fs3) as [o f].
      cbn in Hd. destruct o; by injection E4 as <-. }
    destruct (has_other_entries _ _); [done|]. destruct ids as [|[id|] ids]; [done| |done]. change (unique_id (default None (head (Some id :: ids)))) with (Ok (E:=string) (hex id)). cbv beta iota.
    destruct (write_all (root ++ [MARKER]) (as_bytes (FS_PREFIX +:+ hex id)) fs4) as [fs5 [u5|e5]] eqn:E5; [|done].
    intros [= <- <-]. split; [done|].
    apply (write_all_spec _ _ _ _ _ c) in E5; [|by rewrite Hf4, Hf3]. rewrite Hempty in E5. cbn [app] in E5.
    apply Forall_cons in H16 as [Hid _]. specialize (Hid id eq_refl). split_and!; [done|done| |].
    + intros p Hp. rewrite E5, lookup_insert_ne, Hf4, Hf3, Hq2, Hf1 by done. done.
    + exists (as_bytes (FS_PREFIX +:+ hex id)). split_and!.
      * by rewrite E5, lookup_insert_eq.
      * rewrite from_utf8_as_bytes; [done|]. apply is_utf8_ascii. rewrite as_bytes_app. apply Forall_app.
        split; [by repeat constructor|apply hex_ascii].
      * by apply valid_fresh.
      * cbn [fss_namespace]. unfold identity_text. by rewrite !as_bytes_app.
  - destruct (valid_identity c) eqn:Ev; [|done]. intros [= <- <-]. split; [done|]. split_and!; [done|done| |].
    + intros p Hp. by rewrite Hf3, Hq2, Hf1.
    + exists c. split_and!; [by rewrite Hf3|by rewrite Eu|done|].
      cbn [fss_namespace]. unfold identity_text. by rewrite !as_bytes_app, Hns.
Qed.

(** Opening a root that has an identity, on a healthy disk. *)
Lemma FsStore_new_again root id fs ids : fs_io fs = [] -> fs_files fs !! marker root = Some id ->
  from_utf8 id <> None -> valid_identity id = true ->
  exists s, FsStore_new root false fs ids = (fs, Ok s) /\ as_bytes (fss_namespace s) = identity_text id root
    /\ fss_ids s = ids.
Proof.
  intros Hio Hm Hu Hv. destruct (from_utf8 id) as [ns|] eqn:Eu; [|done].
  apply from_utf8_Some in Eu as Hns. destruct Hns as [Hns _]. pose proof (valid_identity_len _ Hv) as Hlen.
  exists (mkFsStore root (ns +:+ ":" +:+ hex (path_text root)) fs ids). split_and!; [|cbn [fss_namespace]; unfold identity_text; by rewrite !as_bytes_app, Hns|done].
  unfold FsStore_new, create_dir_all, open_or_create, read_file, draw. rewrite Hio. cbv zeta beta iota.
  unfold marker in Hm. rewrite !Hio, Hm, !Hio, Hm, Eu. case_bool_decide as He; [by rewrite He in Hlen|]. by rewrite Hv.
Qed.

(** C39. The identity of a directory store. Opening a root succeeds only if its
    lock is free, writes nothing but the marker, and yields a namespace made of
    the marker's 128-bit identity and of the root; opening the root again
    yields the same namespace without using randomness; and stores under
    differently spelled roots never share one, even if the directory was
    copied with its marker. *)
Theorem fs_identity root held fs ids fs' s :
  Forall (fun o => forall id, o = Some id -> length id = 16%nat) ids ->
  FsStore_new root held fs ids = (fs', Ok s) ->
  held = false
  /\ (forall p, p <> marker root -> fs_files fs' !! p = fs_files fs !! p)
  /\ (forall fs2 ids2, fs_files fs2 = fs_files fs' -> fs_io fs2 = [] ->
        exists s2, FsStore_new root false fs2 ids2 = (fs2, Ok s2)
          /\ fss_namespace s2 = fss_namespace s /\ fss_ids s2 = ids2)
  /\ (forall root2 held2 fs2 ids2 fs2' s2,
        Forall (fun o => forall id, o = Some id -> length id = 16%nat) ids2 ->
        FsStore_new root2 held2 fs2 ids2 = (fs2', Ok s2) -> path_text root2 <> path_text root ->
        fss_namespace s2 <> fss_namespace s).
Proof.
  intros H16 Hnew. apply FsStore_new_spec in Hnew as (Hheld & _ & _ & Hother & id & Hm & Hu & Hv & Hns); [|done].
  split_and!; [done|done| |].
  - intros fs2 ids2 Hf Hio. destruct (FsStore_new_again root id fs2 ids2) as (s2 & Hs2 & Hns2 & Hids); [done|by rewrite Hf|done..|].
    exists s2. split_and!; [done| |done]. apply as_bytes_inj. congruence.
  - intros root2 held2 fs2 ids2 fs2' s2 H162 Hnew2 Hne Heq.
    apply FsStore_new_spec in Hnew2 as (_ & _ & _ & _ & id2 & _ & _ & Hv2 & Hns2); [|done].
    apply Hne. rewrite Heq, Hns in Hns2. by apply identity_text_inj in Hns2 as [_ ->].
Qed.

Lemma fs_identity_witness :
  let ids := [Some (repeat x01 16)] in
  let r := FsStore_new ["a"] false empty_fs ids in
  exists s, r.2 = Ok s /\ exists s2, FsStore_new ["a"] false r.1 [] = (r.1, Ok s2) /\ fss_namespace s2 = fss_namespace s.
Proof.
  intros ids r.
  assert (exists s, FsStore_new ["a"] false empty_fs ids = (r.1, Ok s)) as [s Hs].
  { eexists. vm_compute. reflexivity. }
  exists s. split; [unfold r; by rewrite Hs|].
  destruct (fs_identity ["a"] false empty_fs ids r.1 s) as (_ & _ & Hre & _); [|exact Hs|].
  - repeat constructor. by intros id [= <-].
  - destruct (Hre r.1 [] eq_refl) as (s2 & H2 & Hns & _); [vm_compute; reflexivity|]. exists s2. split; [exact H2|exact Hns].
Defined.
