(* ===== verification/S3.v ===== *)
(** * S3 (src/src/s3.rs)

    [S3Store] over blocking HTTP. What it calls of other crates is the class
    [S3Client]: the URL parser, the buckets, credentials and signed URLs of
    [rusty_s3] and the agent of [ureq] with the network behind it, whose state
    is [N]. A duration or an instant is a number of nanoseconds. *)

From S2P Require Import Prelude Fmt Atomic Error Store.

Definition SECOND : Z := 1000000000.
Definition SIGN_TTL : Z := 300 * SECOND.

Record S3Config : Type := mkS3Config {
  cf_endpoint : string;
  cf_region : string;
  cf_bucket : string;
  cf_access_key : string;
  cf_secret_key : string;
  cf_path_style : bool;
}.

Record S3Options : Type := mkS3Options {
  so_connect_timeout : Z;
  so_request_timeout : Z;
  so_max_object_bytes : Z;
}.

Definition S3Options_default : S3Options :=
  {| so_connect_timeout := 10 * SECOND; so_request_timeout := 60 * SECOND; so_max_object_bytes := Z.shiftl 1 30 |}.

(** ** The body of an upload *)

Record Upload : Type := mkUpload { remaining : bytes; deadline : Z }.

(** [Upload::read] at the instant [now] into a buffer of [len] bytes: the bytes
    it copied to the front of the buffer. *)
Definition Upload_read (now len : Z) (u : Upload) : Upload * Result bytes string :=
  if deadline u <=? now then (u, Err "upload deadline exceeded") else
  let count := Z.to_nat (Z.min (Z.min len (zlen (remaining u))) 8192) in
  (mkUpload (drop count (remaining u)) (deadline u), Ok (take count (remaining u))).

(** What a transport gets from a sequence of reads, if none fails. *)
Fixpoint drain (reads : list (Z * Z)) (u : Upload) : option bytes :=
  match reads with
  | [] => Some []
  | (now, len) :: reads =>
      match Upload_read now len u with
      | (u, Ok chunk) => match drain reads u with Some d => Some (chunk ++ d) | None => None end
      | (_, Err _) => None
      end
  end.

(** ** HTTP *)

Inductive Method : Type := GET | PUT | DELETE.
Inductive UrlStyle : Type := PathStyle | VirtualHost.

Record HttpRequest (Url : Type) : Type := mkHttpRequest {
  hr_method : Method;
  hr_url : Url;
  hr_headers : list (string * string);
  hr_body : option Upload;
}.
Arguments mkHttpRequest {Url}. Arguments hr_method {Url}. Arguments hr_url {Url}.
Arguments hr_headers {Url}. Arguments hr_body {Url}.

(** A response: [status], [header] and what its reader yields, with the error
    that ends it if it does not end normally. *)
Record Response : Type := mkResponse { status : Z; header : string -> option string; reader : bytes * option string }.

(** [Result<Response, ureq::Error>] *)
Inductive Answer : Type := Answered (r : Response) | StatusError (code : Z) (r : Response) | TransportError (message : string).

Class S3Client (N : Type) : Type := {
  Endpoint : Type;
  parse_endpoint : string -> Result Endpoint string;
  endpoint_str : Endpoint -> string;
  Bucket : Type;
  Bucket_new : Endpoint -> UrlStyle -> string -> string -> Result Bucket string;
  Credentials : Type;
  Credentials_new : string -> string -> Credentials;
  Url : Type;
  (** [bucket.{get,put,delete}_object(Some(creds), key).sign(ttl)], at the present time *)
  sign : Method -> Bucket -> Credentials -> string -> Z -> N -> Url;
  Agent : Type;
  (** the builder's connect and request timeouts and its number of redirects *)
  build_agent : Z -> Z -> Z -> Agent;
  (** [Instant::now()] *)
  instant_now : N -> Z;
  send_request : Agent -> HttpRequest Url -> N -> N * Answer;
}.

(** [reader.take(limit).read_to_end(&mut buf)] *)
Definition take_read (limit : Z) (r : bytes * option string) : Result bytes string :=
  if limit <=? zlen r.1 then Ok (take (Z.to_nat limit) r.1)
  else match r.2 with Some e => Err e | None => Ok r.1 end.

(** ** Errors and etags *)

Definition store_error (op : StoreOperation.t) (key : string) (st : option Z) (message : string) : StoreError :=
  let error := with_context op key st
    (StoreError_new (StoreOperation.debug op +:+ " " +:+ key +:+ ": " +:+ message)) in
  if bool_decide (op = StoreOperation.Get) then not_applied error else error.

Definition unexpected_status (st : Z) : string := "unexpected HTTP status " +:+ dec st.

Definition etag_of (op : StoreOperation.t) (key : string) (resp : Response) : Result string StoreError :=
  match header resp "etag" with
  | Some e => if bool_decide (e = "") then Err (store_error op key (Some (status resp)) "response is missing an ETag header")
              else Ok e
  | None => Err (store_error op key (Some (status resp)) "response is missing an ETag header")
  end.

Definition show_bool (b : bool) : string := if b then "true" else "false".

(** ** The store *)

Section s3.
Context {N : Type} `{S3Client N}.

Record S3Store : Type := mkS3Store {
  s3_bucket : Bucket;
  s3_creds : Credentials;
  s3_agent : Agent;
  s3_namespace : string;
  s3_opts : S3Options;
  s3_net : N;
}.
Implicit Types self : S3Store.

Definition with_net (n : N) self : S3Store :=
  mkS3Store (s3_bucket self) (s3_creds self) (s3_agent self) (s3_namespace self) (s3_opts self) n.

Definition options_invalid (opts : S3Options) : bool :=
  (so_connect_timeout opts =? 0) || (so_request_timeout opts =? 0) || (SIGN_TTL <=? so_request_timeout opts)
  || (so_max_object_bytes opts =? 0) || (ISIZE_MAX <? so_max_object_bytes opts).

Definition namespace_of (endpoint : string) (cfg : S3Config) : string :=
  "s3:" +:+ dec (str_len endpoint) +:+ ":" +:+ endpoint +:+ ":" +:+ dec (str_len (cf_bucket cfg)) +:+ ":" +:+ cf_bucket cfg
  +:+ ":" +:+ dec (str_len (cf_access_key cfg)) +:+ ":" +:+ cf_access_key cfg +:+ ":" +:+ cf_region cfg
  +:+ ":" +:+ show_bool (cf_path_style cfg).

Definition S3Store_new_with_options (cfg : S3Config) (opts : S3Options) (net : N) : Result S3Store StoreError :=
  if options_invalid opts then
    Err (not_applied (StoreError_new "S3 timeouts/body budget must be positive; request timeout must be below 300 seconds and body budget must fit isize"))
  else
  match parse_endpoint (cf_endpoint cfg) with
  | Err e => Err (not_applied (StoreError_new ("bad endpoint: " +:+ e)))
  | Ok endpoint =>
      let style := if cf_path_style cfg then PathStyle else VirtualHost in
      let namespace := namespace_of (endpoint_str endpoint) cfg in
      match Bucket_new endpoint style (cf_bucket cfg) (cf_region cfg) with
      | Err e => Err (not_applied (StoreError_new ("bad bucket config: " +:+ e)))
      | Ok bucket =>
          let creds := Credentials_new (cf_access_key cfg) (cf_secret_key cfg) in
          let agent := build_agent (Z.min (so_connect_timeout opts) (so_request_timeout opts)) (so_request_timeout opts) 0 in
          Ok (mkS3Store bucket creds agent namespace opts net)
      end
  end.
Definition S3Store_new (cfg : S3Config) (net : N) : Result S3Store StoreError :=
  S3Store_new_with_options cfg S3Options_default net.

Definition read_body (key : string) (resp : Response) self : Result bytes StoreError :=
  let max := so_max_object_bytes (s3_opts self) in
  let declared := match header resp "Content-Length" with Some n => parse_u64 n | None => None end in
  if match declared with Some n => max <? n | None => false end then
    Err (store_error StoreOperation.Get key (Some (status resp)) "body exceeds byte limit")
  else
  match take_read (max + 1) (reader resp) with
  | Err e => Err (store_error StoreOperation.Get key (Some (status resp)) e)
  | Ok buf =>
      if max <? zlen buf then Err (store_error StoreOperation.Get key (Some (status resp)) "body exceeds byte limit")
      else Ok buf
  end.

Definition put_request (key : string) (etag : option (option string)) (data : bytes) self : HttpRequest Url :=
  let url := sign PUT (s3_bucket self) (s3_creds self) key SIGN_TTL (s3_net self) in
  let headers := [("Content-Length", dec (zlen data))] in
  let headers := headers ++ match etag with
    | Some (Some e) => [("If-Match", e)] | Some None => [("If-None-Match", "*")] | None => [] end in
  let upload := mkUpload data (instant_now (s3_net self) + so_request_timeout (s3_opts self)) in
  mkHttpRequest PUT url headers (Some upload).

Definition send_put (key : string) (etag : option (option string)) (data : bytes) self
  : S3Store * Result Response StoreError :=
  if so_max_object_bytes (s3_opts self) <? zlen data then
    (self, Err (not_applied (store_error StoreOperation.Put key None "body exceeds byte limit")))
  else
  let (net, answer) := send_request (s3_agent self) (put_request key etag data self) (s3_net self) in
  (with_net net self,
   match answer with
   | Answered resp | StatusError _ resp => Ok resp
   | TransportError e => Err (store_error StoreOperation.Put key None e)
   end).

Definition get_request (key : string) (etag : option string) self : HttpRequest Url :=
  mkHttpRequest GET (sign GET (s3_bucket self) (s3_creds self) key SIGN_TTL (s3_net self))
    (match etag with Some e => [("If-None-Match", e)] | None => [] end) None.

Definition s3_get_if_changed (key : string) (etag : option string) self : S3Store * Result CondGet StoreError :=
  let (net, answer) := send_request (s3_agent self) (get_request key etag self) (s3_net self) in
  (with_net net self,
   match answer with
   | TransportError e => Err (store_error StoreOperation.Get key None e)
   | Answered resp | StatusError _ resp =>
       if status resp =? 304 then
         match etag with
         | Some _ => Ok NotModified
         | None => Err (store_error StoreOperation.Get key (Some 304) "unexpected 304 to unconditional GET")
         end
       else if status resp =? 404 then Ok Missing
       else if status resp =? 200 then
         match etag_of StoreOperation.Get key resp with
         | Err e => Err e
         | Ok etag =>
             match read_body key resp self with
             | Err e => Err e
             | Ok data => Ok (Changed (mkStored data etag))
             end
         end
       else Err (store_error StoreOperation.Get key (Some (status resp)) (unexpected_status (status resp)))
   end).

(** [None] is the panic of [unreachable!]. *)
Definition s3_get_checked (key : string) self : S3Store * option (Result (option Stored) StoreError) :=
  let (self, r) := s3_get_if_changed key None self in
  (self, match r with
         | Err e => Some (Err e)
         | Ok (Changed s) => Some (Ok (Some s))
         | Ok Missing => Some (Ok None)
         | Ok NotModified => None
         end).

Definition s3_get (key : string) self : S3Store * Result (option Stored) StoreError :=
  let (self, r) := s3_get_checked key self in
  (self, match r with Some r => r | None => Err (StoreError_new "unconditional 304 is rejected below") end).

Definition s3_put_if_match (key : string) (etag : option string) (data : bytes) self : S3Store * Result CondPut StoreError :=
  let (self, sent) := send_put key (Some etag) data self in
  (self,
   match sent with
   | Err e => Err e
   | Ok resp =>
       if status resp =? 200 then
         match etag_of StoreOperation.Put key resp with Ok e => Ok (PutOk e) | Err e => Err e end
       else if (status resp =? 409) || (status resp =? 412) then Ok PreconditionFailed
       else Err (store_error StoreOperation.Put key (Some (status resp)) (unexpected_status (status resp)))
   end).

Definition s3_put (key : string) (data : bytes) self : S3Store * Result string StoreError :=
  let (self, sent) := send_put key None data self in
  (self,
   match sent with
   | Err e => Err e
   | Ok resp =>
       if status resp =? 200 then etag_of StoreOperation.Put key resp
       else Err (store_error StoreOperation.Put key (Some (status resp)) (unexpected_status (status resp)))
   end).

Definition delete_request (key : string) self : HttpRequest Url :=
  mkHttpRequest DELETE (sign DELETE (s3_bucket self) (s3_creds self) key SIGN_TTL (s3_net self)) [] None.

Definition s3_delete (key : string) self : S3Store * Result unit StoreError :=
  let (net, answer) := send_request (s3_agent self) (delete_request key self) (s3_net self) in
  let refused (resp : Response) :=
    Err (store_error StoreOperation.Delete key (Some (status resp)) (unexpected_status (status resp))) in
  (with_net net self,
   match answer with
   | Answered resp => if (200 <=? status resp) && (status resp <? 300) then Ok tt else refused resp
   | StatusError code resp => if code =? 404 then Ok tt else refused resp
   | TransportError e => Err (store_error StoreOperation.Delete key None e)
   end).

#[global] Instance S3Store_ObjectStore : ObjectStore S3Store := {|
  cache_namespace self := Some (s3_namespace self);
  max_object_bytes self := Some (so_max_object_bytes (s3_opts self));
  get := s3_get;
  get_if_changed := s3_get_if_changed;
  put_if_match := s3_put_if_match;
  put := s3_put;
  delete_object := s3_delete;
|}.

End s3.

Arguments S3Store N {_}.
