(* ===== verification/S3Props.v ===== *)
(** * S3Store keeps the promises of an object store

    [S3Service] states what Amazon S3 documents of conditional requests and
    what [ureq] documents of its results; over it, [S3Store] is an object store
    the log can use ([S3_laws]). *)

From S2P Require Import Prelude Fmt Utf8 Atomic Error Store StoreProps S3.

(** ** Uploads *)

Lemma Upload_read_spec now len u u' r : Upload_read now len u = (u', r) ->
  match r with
  | Err _ => deadline u <= now /\ u' = u
  | Ok chunk => now < deadline u /\ remaining u = chunk ++ remaining u' /\ deadline u' = deadline u
      /\ zlen chunk = Z.max 0 (Z.min (Z.min len (zlen (remaining u))) 8192)
  end.
Proof.
  unfold Upload_read. destruct (Z.leb_spec (deadline u) now) as [Hle|Hlt]; intros [= <- <-]; [done|].
  cbn. split_and!; [done|by rewrite take_drop|done|]. unfold zlen. rewrite length_take. lia.
Qed.

(** C31. Uploads are faithful and bounded. Whatever sizes of buffers a transport
    offers and at whatever times it asks, the chunks it gets are, in order,
    the next bytes of the data, of at most 8192 bytes each; a chunk is empty
    only if the buffer is or the data is exhausted; and no read at or after the
    deadline succeeds. So a transport that has read as many bytes as
    [Content-Length] announces has read the data. *)
Theorem upload_is_faithful reads data dl : Forall (fun r => 0 <= r.2) reads ->
  match drain reads (mkUpload data dl) with
  | Some d => d `prefix_of` data /\ (zlen d = zlen data -> d = data)
      /\ Forall (fun r => r.1 < dl) reads
      /\ zlen d = Z.min (zlen data) (foldr (fun r n => Z.min r.2 8192 + n) 0 reads)
  | None => Exists (fun r => dl <= r.1) reads
  end.
Proof.
  revert data. induction reads as [|[now len] reads IH]; intros data Hr; cbn [drain foldr].
  { split_and!; [apply prefix_nil| |constructor|].
    - rewrite (@zlen_nil byte). intros He. destruct data; [done|]. rewrite zlen_cons in He. pose proof (zlen_nonneg data). lia.
    - rewrite (@zlen_nil byte). pose proof (zlen_nonneg data). lia. }
  apply Forall_cons in Hr as [Hlen Hr]. cbn in Hlen.
  destruct (Upload_read now len (mkUpload data dl)) as [[rest dl'] [chunk|e]] eqn:E; apply Upload_read_spec in E; cbn in E.
  - destruct E as (Hnow & -> & -> & Hz). specialize (IH rest Hr).
    destruct (drain reads (mkUpload rest dl)) as [d|]; [|by apply Exists_cons_tl].
    destruct IH as (Hp & He & Hf & Hd). pose proof (zlen_nonneg rest). pose proof (zlen_nonneg d).
    rewrite !zlen_app in *. split_and!.
    + by apply prefix_app.
    + intros Hc. by rewrite He by lia.
    + by constructor.
    + assert (0 <= foldr (fun r n => Z.min r.2 8192 + n) 0 reads); [|cbn [snd]; lia].
      clear - Hr. induction Hr as [|r reads Hr _ IH]; cbn [foldr]; lia.
  - by apply Exists_cons_hd, E.
Qed.

Lemma drain_prefix reads u d : drain reads u = Some d -> d `prefix_of` remaining u.
Proof.
  revert u d. induction reads as [|[now len] reads IH]; intros u d; cbn [drain]; [intros [= <-]; apply prefix_nil|].
  destruct (Upload_read now len u) as [u' [chunk|e]] eqn:E; [|done]. apply Upload_read_spec in E as (_ & -> & _).
  destruct (drain reads u') as [d'|] eqn:E'; [|done]. intros [= <-]. by apply prefix_app, IH.
Qed.

(** ** Responses *)

Definition answer_response (a : Answer) : option Response :=
  match a with Answered r | StatusError _ r => Some r | TransportError _ => None end.
Definition answer_status (a : Answer) : option Z := status <$> answer_response a.

Definition header_of {U} (name : string) (r : HttpRequest U) : option string :=
  snd <$> find (fun h => bool_decide (h.1 = name)) (hr_headers r).

(** The precondition that a PUT request carries. *)
Definition put_condition {U} (r : HttpRequest U) : option (option string) :=
  match header_of "If-Match" r with
  | Some e => Some (Some e)
  | None => if bool_decide (header_of "If-None-Match" r = Some "*") then Some None else None
  end.

(** The transport can have read the announced number of bytes from the body. *)
Definition delivers {U} (r : HttpRequest U) (d : bytes) : Prop :=
  exists u reads, hr_body r = Some u /\ drain reads u = Some d /\ header_of "Content-Length" r = Some (dec (zlen d)).

(** The etag header of a response names the version [e], if there is one. *)
Definition names_etag (r : Response) (e : string) : Prop :=
  forall e', header r "etag" = Some e' -> e' <> "" -> e' = e.

(** The answer to a PUT with the condition [cond] says what became of it: 200
    that it was executed, 409 and 412 that its condition failed. After any
    other answer, or none, it may still be executed. *)
Definition put_settled (cond : option (option string)) (a : Answer) : Prop :=
  match answer_response a with
  | Some resp => status resp = 200 \/ cond <> None /\ (status resp = 409 \/ status resp = 412)
  | None => False
  end.
Definition delete_settled (a : Answer) : Prop :=
  match a with
  | Answered resp => 200 <= status resp < 300
  | StatusError code _ => code = 404
  | TransportError _ => False
  end.

(** ** The service

    [svc_objects b n] are the objects of bucket [b]; [svc_sane] bounds the
    executions considered. A request counts when it was signed for the
    bucket, and redirects are off. A mutation whose request was not settled is
    executed at once, later or never (README.md, line 144: after a timeout and
    even after a fresh GET a delayed compare-and-swap could still be applied):
    [svc_late b n] are those in flight, and [svc_land b i n] is the network
    after the [i]-th of them has arrived, at whatever time between two
    requests, against the objects and conditions of that time. *)
Class S3Service (N : Type) `{S3Client N} : Type := {
  svc_objects : Bucket -> N -> gmap string Stored;
  svc_known : Bucket -> N -> string -> string -> bytes -> Prop;
  svc_wf : Bucket -> N -> Prop;
  svc_sane : Bucket -> N -> Prop;
  svc_late : Bucket -> N -> list Mutation;
  svc_land : Bucket -> nat -> N -> N;

  svc_known_objects : forall b n k o, svc_wf b n -> svc_objects b n !! k = Some o -> svc_known b n k (st_etag o) (st_data o);
  svc_known_data : forall b n k e d o, svc_known b n k e d -> svc_objects b n !! k = Some o -> st_etag o = e -> st_data o = d;

  svc_kept : forall b cr k ttl c t r n0 n n' a,
    send_request (build_agent c t 0) r n = (n', a) -> hr_url r = sign (hr_method r) b cr k ttl n0 -> svc_wf b n -> svc_sane b n' ->
    svc_sane b n /\ svc_wf b n' /\ forall k' e d, svc_known b n k' e d -> svc_known b n' k' e d;

  (** A mutation arrives: if its condition holds then, it takes effect. *)
  svc_land_law : forall b i n, svc_wf b n -> svc_sane b (svc_land b i n) ->
    svc_sane b n /\ svc_wf b (svc_land b i n) /\ (forall k' e d, svc_known b n k' e d -> svc_known b (svc_land b i n) k' e d)
    /\ svc_late b (svc_land b i n) ⊆ svc_late b n
    /\ (svc_objects b (svc_land b i n) = svc_objects b n
        \/ exists m, svc_late b n !! i = Some m /\ lands m (svc_objects b n) (svc_objects b (svc_land b i n)));

  (** A GET changes nothing by itself; 200 carries the current version, 304 means that
      the version named in the request is current, 404 that there is none. *)
  svc_get : forall b cr k ttl c t r n0 n n' a,
    send_request (build_agent c t 0) r n = (n', a) -> hr_method r = GET -> hr_url r = sign GET b cr k ttl n0 ->
    svc_wf b n -> svc_sane b n' ->
    svc_objects b n' = svc_objects b n /\ svc_late b n' ⊆ svc_late b n
    /\ forall resp, answer_response a = Some resp ->
         (status resp = 200 -> exists o, svc_objects b n !! k = Some o /\ names_etag resp (st_etag o)
            /\ ((reader resp).2 = None -> (reader resp).1 = st_data o))
         /\ (status resp = 304 -> forall e, header_of "If-None-Match" r = Some e ->
               exists o, svc_objects b n !! k = Some o /\ st_etag o = e)
         /\ (status resp = 404 -> svc_objects b n !! k = None);

  (** A PUT stores the complete body under a new etag if its precondition
      holds, at once or, if no answer settles it, perhaps later; 200 reports
      that it did, 409 and 412 that a precondition failed. *)
  svc_put : forall b cr k ttl c t r n0 n n' a,
    send_request (build_agent c t 0) r n = (n', a) -> hr_method r = PUT -> hr_url r = sign PUT b cr k ttl n0 ->
    svc_wf b n -> svc_sane b n' ->
    let executed e := exists d, delivers r d /\ svc_objects b n' = <[k := mkStored d e]> (svc_objects b n)
      /\ forall cond, put_condition r = Some cond -> cas_matches (st_etag <$> svc_objects b n !! k) cond = true in
    match answer_response a with
    | Some resp =>
        (status resp = 200 -> exists e, executed e /\ names_etag resp e)
        /\ (status resp = 409 \/ status resp = 412 -> put_condition r <> None -> svc_objects b n' = svc_objects b n)
    | None => True
    end
    /\ (svc_objects b n' = svc_objects b n \/ exists e, executed e)
    /\ (svc_late b n' ⊆ svc_late b n
        \/ ~ put_settled (put_condition r) a /\ svc_objects b n' = svc_objects b n
           /\ exists d, delivers r d /\ svc_late b n' ⊆ MPut k (put_condition r) d :: svc_late b n);

  (** A DELETE removes the object: a 2xx status reports that, 404 that there
      was none. Statuses from 400 are [ureq]'s errors. *)
  svc_delete : forall b cr k ttl c t r n0 n n' a,
    send_request (build_agent c t 0) r n = (n', a) -> hr_method r = DELETE -> hr_url r = sign DELETE b cr k ttl n0 ->
    svc_wf b n -> svc_sane b n' ->
    match a with
    | Answered resp => 200 <= status resp < 300 -> svc_objects b n' = delete k (svc_objects b n)
    | StatusError code resp => code = 404 -> svc_objects b n' = svc_objects b n /\ svc_objects b n !! k = None
    | TransportError _ => True
    end
    /\ (svc_objects b n' = svc_objects b n \/ svc_objects b n' = delete k (svc_objects b n))
    /\ (svc_late b n' ⊆ svc_late b n
        \/ ~ delete_settled a /\ svc_objects b n' = svc_objects b n /\ svc_late b n' ⊆ MDelete k :: svc_late b n);
}.

Section props.
Context {N : Type} `{S3Service N}.
Abbreviation S3Store := (S3Store N).
Implicit Types self : S3Store.

Definition s3_objects self : gmap string Stored := svc_objects (s3_bucket self) (s3_net self).
Definition s3_known self : string -> string -> bytes -> Prop := svc_known (s3_bucket self) (s3_net self).
(** The handle came from [S3Store_new_with_options]. *)
Definition s3_wf self : Prop :=
  (exists c t, s3_agent self = build_agent c t 0) /\ svc_wf (s3_bucket self) (s3_net self)
  /\ 0 < so_max_object_bytes (s3_opts self) <= ISIZE_MAX.
Definition s3_sane self : Prop := svc_sane (s3_bucket self) (s3_net self).
Definition s3_late self : list Mutation := svc_late (s3_bucket self) (s3_net self).
Definition s3_land (i : nat) self : S3Store := with_net (svc_land (s3_bucket self) i (s3_net self)) self.

(** Everything but the network is fixed. *)
Lemma s3_keeps r k ttl self n' a : s3_wf self -> s3_sane (with_net n' self) ->
  send_request (s3_agent self) r (s3_net self) = (n', a) ->
  hr_url r = sign (hr_method r) (s3_bucket self) (s3_creds self) k ttl (s3_net self) ->
  keeps s3_wf s3_sane s3_known self (with_net n' self).
Proof.
  intros ((c & t & Hag) & Hwf & Hmax) Hs Hsend Hurl. rewrite Hag in Hsend.
  destruct (svc_kept _ _ _ _ _ _ _ _ _ _ _ Hsend Hurl Hwf Hs) as (Hs0 & Hwf' & Hk).
  split; [done|]. split; [|split; [done|exact Hk]]. split; [by exists c, t|done].
Qed.

Lemma etag_of_Ok op key resp e : etag_of op key resp = Ok e -> header resp "etag" = Some e /\ e <> "".
Proof. unfold etag_of. destruct (header resp "etag") as [e'|]; [|done]. case_bool_decide; [done|]. by intros [= ->]. Qed.

Lemma etag_of_Err op key resp err : etag_of op key resp = Err err -> err = store_error op key (Some (status resp)) "response is missing an ETag header".
Proof. unfold etag_of. destruct (header resp "etag") as [e'|]; [case_bool_decide|]; by intros [= <-]. Qed.

(** A body that is returned is the complete body, and within the budget. *)
Lemma read_body_Ok key resp self d : 0 < so_max_object_bytes (s3_opts self) -> read_body key resp self = Ok d ->
  reader resp = (d, None) /\ zlen d <= so_max_object_bytes (s3_opts self).
Proof.
  intros Hmax. unfold read_body, take_read. destruct (match _ with Some n => _ | None => false end); [done|].
  destruct (Z.leb_spec (so_max_object_bytes (s3_opts self) + 1) (zlen (reader resp).1)) as [Hle|Hlt].
  - destruct (Z.ltb_spec (so_max_object_bytes (s3_opts self)) (zlen (take (Z.to_nat (so_max_object_bytes (s3_opts self) + 1)) (reader resp).1)));
      [done|]. unfold zlen in *. rewrite length_take in *. lia.
  - destruct (reader resp) as [b [e|]]; cbn in *; [done|].
    destruct (Z.ltb_spec (so_max_object_bytes (s3_opts self)) (zlen b)); [done|]. intros [= <-]. by split; [|lia].
Qed.

Lemma s3_get_if_changed_law key c self self' r :
  s3_get_if_changed key c self = (self', r) -> s3_wf self -> s3_sane self' ->
  keeps s3_wf s3_sane s3_known self self' /\ s3_objects self' = s3_objects self /\ s3_late self' ⊆ s3_late self
  /\ match r with
     | Ok (Changed o) => s3_objects self !! key = Some o /\ zlen (st_data o) <= so_max_object_bytes (s3_opts self)
     | Ok NotModified => exists e o, c = Some e /\ s3_objects self !! key = Some o /\ st_etag o = e
     | Ok Missing => s3_objects self !! key = None
     | Err e => se_mutation_outcome e = NotApplied
     end.
Proof.
  unfold s3_get_if_changed. destruct (send_request _ _ _) as [n' a] eqn:Es. intros [= <- <-] Hwf Hs.
  pose proof (s3_keeps _ key SIGN_TTL self n' a Hwf Hs Es eq_refl) as Hk. split; [done|].
  destruct Hwf as ((ct & t & Hag) & Hwf & Hmax & _). pose proof Es as Es'. rewrite Hag in Es'.
  destruct (svc_get _ _ _ _ _ _ _ _ _ _ _ Es' eq_refl eq_refl Hwf Hs) as (Hsame & Hlate & Hresp). split; [exact Hsame|]. split; [exact Hlate|].
  assert (forall resp, answer_response a = Some resp ->
    match (if status resp =? 304 then
         match c with
         | Some _ => Ok NotModified
         | None => Err (store_error StoreOperation.Get key (Some 304) "unexpected 304 to unconditional GET")
         end
       else if status resp =? 404 then Ok Missing
       else if status resp =? 200 then
         match etag_of StoreOperation.Get key resp with
         | Err e => Err e
         | Ok etag =>
             match read_body key resp self with
             | Err e => Err e
             | Ok data => Ok (Changed (mkStored data etag))
             end
         end
       else Err (store_error StoreOperation.Get key (Some (status resp)) (unexpected_status (status resp)))) with
     | Ok (Changed o) => s3_objects self !! key = Some o /\ zlen (st_data o) <= so_max_object_bytes (s3_opts self)
     | Ok NotModified => exists e o, c = Some e /\ s3_objects self !! key = Some o /\ st_etag o = e
     | Ok Missing => s3_objects self !! key = None
     | Err e => se_mutation_outcome e = NotApplied
     end) as Hall; [|destruct a as [resp|code resp|m]; cbn in *; [by apply Hall..|done]].
  intros resp Hr. destruct (Hresp resp Hr) as (H200 & H304 & H404).
  destruct (Z.eqb_spec (status resp) 304) as [E|_].
  { destruct c as [e|]; [|done]. destruct (H304 E e eq_refl) as (o & Ho & He). by exists e, o. }
  destruct (Z.eqb_spec (status resp) 404) as [E|_]; [by apply H404|].
  destruct (Z.eqb_spec (status resp) 200) as [E|_]; [|done].
  destruct (etag_of _ _ _) as [e|err] eqn:Et; [|by apply etag_of_Err in Et as ->].
  destruct (read_body _ _ _) as [d|err] eqn:Eb.
  - destruct (H200 E) as (o & Ho & Hn & Hd). apply read_body_Ok in Eb as [Hrd Hz]; [|done].
    apply etag_of_Ok in Et as [Het Hne]. rewrite Hrd in Hd. specialize (Hd eq_refl). cbn in Hd. subst d.
    rewrite (Hn e Het Hne). destruct o. done.
  - unfold read_body in Eb. repeat (case_match; try done); by injection Eb as <-.
Qed.

(** A response decides nothing more about a PUT than its status. *)
Definition stored (key : string) (cond : option (option string)) (d : bytes) self self' (e : string) : Prop :=
  s3_objects self' = <[key := mkStored d e]> (s3_objects self)
  /\ forall c, cond = Some c -> cas_matches (st_etag <$> s3_objects self !! key) c = true.

Lemma put_condition_request key cond d self : put_condition (put_request key cond d self) = cond.
Proof. by destruct cond as [[e|]|]. Qed.

Lemma delivered_all key cond d self d' : is_u64 (zlen d) -> delivers (put_request key cond d self) d' -> d' = d.
Proof.
  intros Hd (u & reads & [= <-] & Hdr & Hlen). apply drain_prefix in Hdr. cbn in Hdr.
  pose proof (prefix_length _ _ Hdr) as Hle. injection Hlen as Hlen. apply dec_inj in Hlen; [|done|zlia].
  destruct Hdr as [x ->]. rewrite zlen_app in Hlen. destruct x; [by rewrite app_nil_r|].
  rewrite zlen_cons in Hlen. pose proof (zlen_nonneg x). lia.
Qed.

Lemma keeps_same self : s3_wf self -> s3_sane self -> keeps s3_wf s3_sane s3_known self self.
Proof. by intros; split_and!. Qed.

Lemma send_put_law key cond d self self' r :
  send_put key cond d self = (self', r) -> s3_wf self -> s3_sane self' ->
  keeps s3_wf s3_sane s3_known self self'
  /\ match r with
     | Ok resp => (status resp = 200 -> exists e, stored key cond d self self' e /\ names_etag resp e)
         /\ (status resp = 409 \/ status resp = 412 -> cond <> None -> s3_objects self' = s3_objects self)
         /\ (s3_objects self' = s3_objects self \/ exists e, stored key cond d self self' e)
     | Err err => s3_objects self' = s3_objects self
         \/ se_mutation_outcome err = Unknown /\ exists e, stored key cond d self self' e
     end
  /\ (s3_late self' ⊆ s3_late self
      \/ s3_objects self' = s3_objects self /\ s3_late self' ⊆ MPut key cond d :: s3_late self
         /\ match r with
            | Ok resp => status resp <> 200 /\ (cond <> None -> status resp <> 409 /\ status resp <> 412)
            | Err err => se_mutation_outcome err = Unknown
            end).
Proof.
  unfold send_put. destruct (Z.ltb_spec (so_max_object_bytes (s3_opts self)) (zlen d)) as [|Hsz].
  { intros [= <- <-] Hwf Hs. split; [by apply keeps_same|]. split; by left. }
  destruct (send_request _ _ _) as [n' a] eqn:Es. intros [= <- <-] Hwf Hs.
  split; [exact (s3_keeps _ key SIGN_TTL self n' a Hwf Hs Es eq_refl)|].
  destruct Hwf as ((ct & t & Hag) & Hwf & Hmax). rewrite Hag in Es.
  destruct (svc_put _ _ _ _ _ _ _ _ _ _ _ Es eq_refl eq_refl Hwf Hs) as (Hresp & Hall & Hlate).
  rewrite put_condition_request in *. pose proof (zlen_nonneg d).
  assert (forall e, (exists d', delivers (put_request key cond d self) d'
      /\ svc_objects (s3_bucket self) n' = <[key := mkStored d' e]> (svc_objects (s3_bucket self) (s3_net self))
      /\ forall c, cond = Some c -> cas_matches (st_etag <$> svc_objects (s3_bucket self) (s3_net self) !! key) c = true) ->
    stored key cond d self (with_net n' self) e) as Hst.
  { intros e (d' & Hd & Ho & Hc). apply delivered_all in Hd as ->; [|zlia]. by split. }
  assert (forall resp, answer_response a = Some resp ->
    (status resp = 200 -> exists e, stored key cond d self (with_net n' self) e /\ names_etag resp e)
    /\ (status resp = 409 \/ status resp = 412 -> cond <> None -> s3_objects (with_net n' self) = s3_objects self)
    /\ (s3_objects (with_net n' self) = s3_objects self \/ exists e, stored key cond d self (with_net n' self) e)) as Hr.
  { intros resp Hr. rewrite Hr in Hresp. destruct Hresp as [H200 H409]. split_and!; [|exact H409|].
    - intros E. destruct (H200 E) as (e & He & Hn). exists e. auto.
    - destruct Hall as [?|[e He]]; [by left|right; exists e; auto]. }
  split.
  - destruct a as [resp|code resp|m]; cbn; [by apply Hr..|].
    destruct Hall as [?|[e He]]; [by left|right; split; [done|exists e; auto]].
  - destruct Hlate as [?|(Hset & Hsame & d' & Hd & Hl)]; [by left|right]. split; [exact Hsame|].
    apply delivered_all in Hd as ->; [|zlia]. split; [exact Hl|].
    unfold put_settled in Hset. destruct a as [resp|code resp|m]; cbn in *; [tauto..|done].
Qed.

Lemma s3_put_if_match_law key c d self self' r :
  s3_put_if_match key c d self = (self', r) -> s3_wf self -> s3_sane self' ->
  keeps s3_wf s3_sane s3_known self self'
  /\ match r with
     | Ok (PutOk etag) => cas_applied (s3_objects self) (s3_objects self') key c d etag
     | Ok PreconditionFailed => s3_objects self' = s3_objects self
     | Err e => s3_objects self' = s3_objects self
         \/ (se_mutation_outcome e = Unknown
             /\ exists etag, cas_applied (s3_objects self) (s3_objects self') key c d etag)
     end.
Proof.
  unfold s3_put_if_match. destruct (send_put _ _ _ _) as [s1 sent] eqn:Es. intros [= <- <-] Hwf Hs.
  destruct (send_put_law _ _ _ _ _ _ Es Hwf Hs) as (Hk & Hsent & _). split; [done|].
  assert (forall e, stored key (Some c) d self s1 e -> cas_applied (s3_objects self) (s3_objects s1) key c d e) as Hcas.
  { intros e [Ho Hc]. split; [by apply Hc|done]. }
  destruct sent as [resp|err].
  2: { destruct Hsent as [?|[Ho [e He]]]; [by left|right; split; [done|exists e; auto]]. }
  destruct Hsent as (H200 & H409 & Hany).
  assert (forall err, se_mutation_outcome err = Unknown -> s3_objects s1 = s3_objects self
    \/ se_mutation_outcome err = Unknown /\ exists etag, cas_applied (s3_objects self) (s3_objects s1) key c d etag) as Herr.
  { intros err Hu. destruct Hany as [?|[e He]]; [by left|right; split; [done|exists e; auto]]. }
  destruct (Z.eqb_spec (status resp) 200) as [E|_].
  { destruct (etag_of _ _ _) as [e|err] eqn:Et; [|apply etag_of_Err in Et as ->; by apply Herr].
    apply etag_of_Ok in Et as [Het Hne]. destruct (H200 E) as (e' & He & Hn). rewrite (Hn e Het Hne). auto. }
  destruct (_ || _) eqn:E4; [|by apply Herr]. apply H409; [|done].
  apply orb_true_iff in E4 as [E|E]; zbool; [by left|by right].
Qed.

Lemma s3_put_law key d self self' r :
  s3_put key d self = (self', r) -> s3_wf self -> s3_sane self' ->
  keeps s3_wf s3_sane s3_known self self'
  /\ match r with
     | Ok etag => s3_objects self' = <[key := mkStored d etag]> (s3_objects self)
     | Err e => s3_objects self' = s3_objects self
         \/ (se_mutation_outcome e = Unknown
             /\ exists etag, s3_objects self' = <[key := mkStored d etag]> (s3_objects self))
     end.
Proof.
  unfold s3_put. destruct (send_put _ _ _ _) as [s1 sent] eqn:Es. intros [= <- <-] Hwf Hs.
  destruct (send_put_law _ _ _ _ _ _ Es Hwf Hs) as (Hk & Hsent & _). split; [done|].
  destruct sent as [resp|err].
  2: { destruct Hsent as [?|[Ho [e [He _]]]]; [by left|right; split; [done|by exists e]]. }
  destruct Hsent as (H200 & _ & Hany).
  assert (forall err, se_mutation_outcome err = Unknown -> s3_objects s1 = s3_objects self
    \/ se_mutation_outcome err = Unknown /\ exists etag, s3_objects s1 = <[key := mkStored d etag]> (s3_objects self)) as Herr.
  { intros err Hu. destruct Hany as [?|[e [He _]]]; [by left|right; split; [done|by exists e]]. }
  destruct (Z.eqb_spec (status resp) 200) as [E|_]; [|by apply Herr].
  destruct (etag_of _ _ _) as [e|err] eqn:Et; [|apply etag_of_Err in Et as ->; by apply Herr].
  apply etag_of_Ok in Et as [Het Hne]. destruct (H200 E) as (e' & [He _] & Hn). by rewrite (Hn e Het Hne).
Qed.

Lemma s3_delete_law key self self' r :
  s3_delete key self = (self', r) -> s3_wf self -> s3_sane self' ->
  keeps s3_wf s3_sane s3_known self self'
  /\ match r with
     | Ok _ => s3_objects self' = delete key (s3_objects self)
     | Err e => s3_objects self' = s3_objects self
         \/ (se_mutation_outcome e = Unknown /\ s3_objects self' = delete key (s3_objects self))
     end.
Proof.
  unfold s3_delete. destruct (send_request _ _ _) as [n' a] eqn:Es. intros [= <- <-] Hwf Hs.
  split; [exact (s3_keeps _ key SIGN_TTL self n' a Hwf Hs Es eq_refl)|].
  destruct Hwf as ((ct & t & Hag) & Hwf & Hmax). rewrite Hag in Es.
  destruct (svc_delete _ _ _ _ _ _ _ _ _ _ _ Es eq_refl eq_refl Hwf Hs) as (Hdone & Hany & _).
  assert (forall err, se_mutation_outcome err = Unknown -> s3_objects (with_net n' self) = s3_objects self
    \/ se_mutation_outcome err = Unknown /\ s3_objects (with_net n' self) = delete key (s3_objects self)) as Herr.
  { intros err Hu. destruct Hany; [by left|by right]. }
  destruct a as [resp|code resp|m]; [| |by apply Herr].
  - destruct (_ && _) eqn:E; [|by apply Herr]. apply andb_true_iff in E as [E1 E2]. zbool. by apply Hdone.
  - destruct (Z.eqb_spec code 404) as [E|_]; [|by apply Herr]. destruct (Hdone E) as [Ho Hno].
    rewrite delete_id by exact Hno. exact Ho.
Qed.

(** An unconditional GET never answers [NotModified]: the panic is dead code. *)
Lemma s3_get_checked_total key self : exists r, (s3_get_checked key self).2 = Some r.
Proof.
  unfold s3_get_checked, s3_get_if_changed. destruct (send_request _ _ _) as [n' a].
  repeat (case_match; simplify_eq/=; try by eexists).
Qed.

Lemma s3_get_law key self self' r :
  s3_get key self = (self', r) -> s3_wf self -> s3_sane self' ->
  keeps s3_wf s3_sane s3_known self self' /\ s3_objects self' = s3_objects self
  /\ forall o, r = Ok o -> o = s3_objects self !! key.
Proof.
  unfold s3_get, s3_get_checked. destruct (s3_get_if_changed key None self) as [s1 r1] eqn:Eg. intros [= <- <-] Hwf Hs.
  destruct (s3_get_if_changed_law _ _ _ _ _ Eg Hwf Hs) as (Hk & Ho & _ & Hr). split_and!; [done|done|].
  intros o. destruct r1 as [[x| |]|e]; cbn; intros [= <-].
  - symmetry. apply Hr.
  - by symmetry.
Qed.

(** ** What stays in flight *)

Lemma s3_put_if_match_late key c d self self' r :
  s3_put_if_match key c d self = (self', r) -> s3_wf self -> s3_sane self' ->
  lingers (MPut key (Some c) d) (s3_objects self) (s3_objects self') (s3_late self) (s3_late self') r.
Proof.
  unfold s3_put_if_match. destruct (send_put _ _ _ _) as [s1 sent] eqn:Es. intros [= <- <-] Hwf Hs.
  destruct (send_put_law _ _ _ _ _ _ Es Hwf Hs) as (_ & _ & [Hl|(Hsame & Hl & Hr)]); [by left|right].
  destruct sent as [resp|err]; [|by exists err]. destruct Hr as [H200 H4]. destruct (H4 ltac:(done)) as [H409 H412].
  rewrite (proj2 (Z.eqb_neq _ _) H200), (proj2 (Z.eqb_neq _ _) H409), (proj2 (Z.eqb_neq _ _) H412). cbn [orb].
  eexists. split; [done|]. done.
Qed.

Lemma s3_put_late key d self self' r :
  s3_put key d self = (self', r) -> s3_wf self -> s3_sane self' ->
  lingers (MPut key None d) (s3_objects self) (s3_objects self') (s3_late self) (s3_late self') r.
Proof.
  unfold s3_put. destruct (send_put _ _ _ _) as [s1 sent] eqn:Es. intros [= <- <-] Hwf Hs.
  destruct (send_put_law _ _ _ _ _ _ Es Hwf Hs) as (_ & _ & [Hl|(Hsame & Hl & Hr)]); [by left|right].
  destruct sent as [resp|err]; [|by exists err]. destruct Hr as [H200 _].
  rewrite (proj2 (Z.eqb_neq _ _) H200). by eexists.
Qed.

Lemma s3_delete_late key self self' r :
  s3_delete key self = (self', r) -> s3_wf self -> s3_sane self' ->
  lingers (MDelete key) (s3_objects self) (s3_objects self') (s3_late self) (s3_late self') r.
Proof.
  unfold s3_delete. destruct (send_request _ _ _) as [n' a] eqn:Es. intros [= <- <-] Hwf Hs.
  destruct Hwf as ((ct & t & Hag) & Hwf & Hmax). rewrite Hag in Es.
  destruct (svc_delete _ _ _ _ _ _ _ _ _ _ _ Es eq_refl eq_refl Hwf Hs) as (_ & _ & [Hl|(Hset & Hsame & Hl)]); [by left|right].
  destruct a as [resp|code resp|m]; cbn in Hset; [| |by eexists].
  - destruct (_ && _) eqn:E; [|by eexists]. apply andb_true_iff in E as [E1 E2]. zbool. lia.
  - destruct (Z.eqb_spec code 404); [done|by eexists].
Qed.

Lemma s3_land_law i self : s3_wf self -> s3_sane (s3_land i self) ->
  keeps s3_wf s3_sane s3_known self (s3_land i self) /\ s3_late (s3_land i self) ⊆ s3_late self
  /\ (s3_objects (s3_land i self) = s3_objects self
      \/ exists m, s3_late self !! i = Some m /\ lands m (s3_objects self) (s3_objects (s3_land i self))).
Proof.
  intros (Hag & Hwf & Hmax) Hs. destruct (svc_land_law _ i _ Hwf Hs) as (Hs0 & Hwf' & Hk & Hrest).
  split; [|exact Hrest]. by split_and!.
Qed.

#[global] Program Instance S3_laws : ObjectStoreLaws S3Store := {|
  contents := s3_objects;
  known := s3_known;
  store_wf := s3_wf;
  store_sane := s3_sane;
  late := s3_late;
  land := s3_land;
|}.
Next Obligation. intros self k o (_ & Hwf & _). by apply svc_known_objects. Qed.
Next Obligation. intros self k e d o. apply svc_known_data. Qed.
Next Obligation. intros k s s' r. apply s3_get_law. Qed.
Next Obligation.
  intros k c s s' r Hg Hwf Hs. destruct (s3_get_if_changed_law _ _ _ _ _ Hg Hwf Hs) as (Hk & Ho & _ & Hr).
  split_and!; [done|done|]. destruct r as [[o| |]|e]; [apply Hr|done..].
Qed.
Next Obligation. intros k c d s s' r. apply s3_put_if_match_law. Qed.
Next Obligation. intros k d s s' r. apply s3_put_law. Qed.
Next Obligation. intros k s s' r. apply s3_delete_law. Qed.
Next Obligation.
  intros k s s' r Hr Hwf Hs. cbn in Hr. unfold s3_get, s3_get_checked in Hr.
  destruct (s3_get_if_changed k None s) as [s1 r1] eqn:Eg. assert (s1 = s') as -> by by injection Hr.
  by destruct (s3_get_if_changed_law _ _ _ _ _ Eg Hwf Hs) as (_ & _ & Hl & _).
Qed.
Next Obligation.
  intros k c s s' r Hr Hwf Hs. by destruct (s3_get_if_changed_law _ _ _ _ _ Hr Hwf Hs) as (_ & _ & Hl & _).
Qed.
Next Obligation. intros k c d s s' r. apply s3_put_if_match_late. Qed.
Next Obligation. intros k d s s' r. apply s3_put_late. Qed.
Next Obligation. intros k s s' r. apply s3_delete_late. Qed.
Next Obligation. intros i s. apply s3_land_law. Qed.

(** ** Outcomes and what is in flight, taken together *)

Lemma settled_put key c d (m m' : gmap string Stored) l l' (r : Result CondPut StoreError) :
  match r with
  | Ok (PutOk etag) => cas_applied m m' key c d etag
  | Ok PreconditionFailed => m' = m
  | Err e => m' = m \/ (se_mutation_outcome e = Unknown /\ exists etag, cas_applied m m' key c d etag)
  end ->
  lingers (MPut key (Some c) d) m m' l l' r ->
  match r with
  | Ok (PutOk etag) => cas_applied m m' key c d etag /\ l' ⊆ l
  | Ok PreconditionFailed => m' = m /\ l' ⊆ l
  | Err e => match se_mutation_outcome e with
             | NotApplied => m' = m /\ l' ⊆ l
             | Unknown => m' = m /\ l' ⊆ MPut key (Some c) d :: l
                 \/ (exists etag, cas_applied m m' key c d etag) /\ l' ⊆ l
             end
  end.
Proof.
  intros Hr Hl. destruct r as [[etag|]|e].
  - split; [exact Hr|]. by destruct Hl as [Hl|(? & ? & _)].
  - split; [exact Hr|]. by destruct Hl as [Hl|(? & ? & _)].
  - destruct (se_mutation_outcome e) eqn:Eo.
    + split; [by destruct Hr as [Hr|[? _]]|]. destruct Hl as [Hl|(e' & [= <-] & ? & _)]; [done|congruence].
    + destruct Hl as [Hl|(e' & _ & _ & Hsame & Hl)]; [|by left].
      destruct Hr as [Hr|[_ Hr]]; [left; split; [done|set_solver]|by right].
Qed.

Lemma settled_delete key (m m' : gmap string Stored) l l' (r : Result unit StoreError) :
  match r with
  | Ok _ => m' = delete key m
  | Err e => m' = m \/ (se_mutation_outcome e = Unknown /\ m' = delete key m)
  end ->
  lingers (MDelete key) m m' l l' r -> (forall e, r = Err e -> se_mutation_outcome e = Unknown) ->
  match r with
  | Ok _ => m' = delete key m /\ l' ⊆ l
  | Err e => se_mutation_outcome e = Unknown
      /\ (m' = m /\ l' ⊆ MDelete key :: l \/ m' = delete key m /\ l' ⊆ l)
  end.
Proof.
  intros Hr Hl Hu. destruct r as [u|e].
  - split; [exact Hr|]. by destruct Hl as [Hl|(? & ? & _)].
  - split; [by apply Hu|]. destruct Hl as [Hl|(e' & _ & _ & Hsame & Hl)]; [|by left].
    destruct Hr as [Hr|[_ Hr]]; [left; split; [done|set_solver]|by right].
Qed.

Lemma s3_delete_unknown key self self' e : s3_delete key self = (self', Err e) -> se_mutation_outcome e = Unknown.
Proof.
  unfold s3_delete. destruct (send_request _ _ _) as [n' a].
  destruct a as [resp|code resp|m]; [destruct (_ && _)|destruct (_ =? _)|]; by intros [= _ <-].
Qed.

(** ** Construction *)

Lemma S3Store_new_Ok cfg opts (net : N) self : S3Store_new_with_options cfg opts net = Ok self ->
  s3_opts self = opts /\ s3_net self = net
  /\ (exists endpoint, parse_endpoint (cf_endpoint cfg) = Ok endpoint
       /\ s3_namespace self = namespace_of (endpoint_str endpoint) cfg)
  /\ (exists c t, s3_agent self = build_agent c t 0)
  /\ so_connect_timeout opts <> 0 /\ so_request_timeout opts <> 0 /\ so_request_timeout opts < SIGN_TTL
  /\ so_max_object_bytes opts <> 0 /\ so_max_object_bytes opts <= ISIZE_MAX.
Proof.
  unfold S3Store_new_with_options. destruct (options_invalid opts) eqn:Ev; [done|]. unfold options_invalid in Ev.
  apply orb_false_iff in Ev as [Ev E5]. apply orb_false_iff in Ev as [Ev E4]. apply orb_false_iff in Ev as [Ev E3].
  apply orb_false_iff in Ev as [E1 E2]. zbool.
  destruct (parse_endpoint _) as [ep|] eqn:Ep; [|done]. destruct (Bucket_new _ _ _ _) as [b|]; [|done]. intros [= <-].
  split_and!; [done|done|by exists ep|by eexists _, _|lia..].
Qed.

(** C15. [S3Store] implements the object store the log needs. Over a service
    with documented S3 semantics, in which a mutation without a settling answer
    is executed at once, later or never, and a transport that can do anything
    else, a store made by [new_with_options] serves a map of objects: a
    conditional PUT that returns [Ok] stored exactly the given bytes under the
    returned etag when the precondition held; a refused precondition and an
    error that says [NotApplied] mean that nothing was stored and nothing of
    the request is left in flight; after [Unknown] the PUT has been executed,
    or has not and may be in flight, for exactly these bytes under exactly this
    precondition; the same of a DELETE; reads return current objects whole;
    what arrives late is one of the mutations in flight and is fenced by its
    precondition at that time; and the handle stays usable. *)
Theorem s3_store_implements_contract cfg opts (net : N) self0 :
  S3Store_new_with_options cfg opts net = Ok self0 -> 0 <= so_max_object_bytes opts -> svc_wf (s3_bucket self0) net ->
  s3_wf self0 /\ s3_objects self0 = svc_objects (s3_bucket self0) net
  /\ forall self, s3_wf self ->
     (forall key c data self' r, put_if_match key c data self = (self', r) -> s3_sane self' -> s3_wf self'
       /\ match r with
          | Ok (PutOk etag) => cas_applied (s3_objects self) (s3_objects self') key c data etag /\ s3_late self' ⊆ s3_late self
          | Ok PreconditionFailed => s3_objects self' = s3_objects self /\ s3_late self' ⊆ s3_late self
          | Err e => match se_mutation_outcome e with
                     | NotApplied => s3_objects self' = s3_objects self /\ s3_late self' ⊆ s3_late self
                     | Unknown => s3_objects self' = s3_objects self /\ s3_late self' ⊆ MPut key (Some c) data :: s3_late self
                         \/ (exists etag, cas_applied (s3_objects self) (s3_objects self') key c data etag) /\ s3_late self' ⊆ s3_late self
                     end
          end)
     /\ (forall key c self' r, get_if_changed key c self = (self', r) -> s3_sane self' ->
          s3_wf self' /\ s3_objects self' = s3_objects self /\ s3_late self' ⊆ s3_late self
          /\ match r with
             | Ok (Changed o) => s3_objects self !! key = Some o /\ zlen (st_data o) <= so_max_object_bytes (s3_opts self)
             | Ok NotModified => exists e o, c = Some e /\ s3_objects self !! key = Some o /\ st_etag o = e
             | Ok Missing => s3_objects self !! key = None
             | Err e => se_mutation_outcome e = NotApplied
             end)
     /\ (forall key self' r, delete_object key self = (self', r) -> s3_sane self' -> s3_wf self'
          /\ match r with
             | Ok _ => s3_objects self' = delete key (s3_objects self) /\ s3_late self' ⊆ s3_late self
             | Err e => se_mutation_outcome e = Unknown
                 /\ (s3_objects self' = s3_objects self /\ s3_late self' ⊆ MDelete key :: s3_late self
                     \/ s3_objects self' = delete key (s3_objects self) /\ s3_late self' ⊆ s3_late self)
             end)
     /\ (forall i, s3_sane (s3_land i self) -> s3_wf (s3_land i self) /\ s3_late (s3_land i self) ⊆ s3_late self
          /\ (s3_objects (s3_land i self) = s3_objects self
              \/ exists m, s3_late self !! i = Some m /\ lands m (s3_objects self) (s3_objects (s3_land i self)))).
Proof.
  intros Hnew Hmax Hwf. destruct (S3Store_new_Ok _ _ _ _ Hnew) as (Ho & Hn & _ & Ha & _ & _ & _ & Hne0 & Hle).
  split; [|split; [by unfold s3_objects; rewrite Hn|]].
  { split; [done|]. rewrite Hn, Ho. split; [done|lia]. }
  intros self Hself. split_and!.
  - intros key c data self' r Hop Hs. destruct (s3_put_if_match_law _ _ _ _ _ _ Hop Hself Hs) as ((_ & Hw & _) & Hr).
    split; [done|]. by apply settled_put; [|eapply s3_put_if_match_late].
  - intros key c self' r Hop Hs. destruct (s3_get_if_changed_law _ _ _ _ _ Hop Hself Hs) as ((_ & Hw & _) & Hsame & Hr). done.
  - intros key self' r Hop Hs. destruct (s3_delete_law _ _ _ _ Hop Hself Hs) as ((_ & Hw & _) & Hr).
    split; [done|]. apply settled_delete; [exact Hr|by eapply s3_delete_late|]. intros e ->. exact (s3_delete_unknown _ _ _ _ Hop).
  - intros i Hs. destruct (s3_land_law i self Hself Hs) as ((_ & Hw & _) & Hr). done.
Qed.

(** The end of a namespace. *)
Lemma show_bool_tail r b r' b' : r +:+ ":" +:+ show_bool b = r' +:+ ":" +:+ show_bool b' -> r = r' /\ b = b'.
Proof.
  intros H1. apply (f_equal as_bytes) in H1. rewrite !as_bytes_app in H1. rewrite !app_assoc in H1.
  apply (f_equal (@rev byte)) in H1. rewrite !rev_app_distr in H1.
  assert (b = b') as ->; [by destruct b, b'; cbn in H1|]. split; [|done].
  apply app_inv_head in H1. apply app_inv_head in H1. apply (f_equal (@rev byte)) in H1.
  rewrite !rev_involutive in H1. by apply as_bytes_inj.
Qed.

Definition short (s : string) : Prop := is_u64 (str_len s).

(** The namespace of an [S3Store] separates backends. Two stores whose
    namespaces agree were configured with the same endpoint, bucket, access
    key, region and addressing style, whatever characters these contain, so
    a cache shared by handles of different backends cannot confuse them. *)
Theorem s3_namespace_separates cfg opts (net : N) self cfg' opts' (net' : N) self' endpoint endpoint' :
  S3Store_new_with_options cfg opts net = Ok self -> S3Store_new_with_options cfg' opts' net' = Ok self' ->
  parse_endpoint (cf_endpoint cfg) = Ok endpoint -> parse_endpoint (cf_endpoint cfg') = Ok endpoint' ->
  Forall short [endpoint_str endpoint; cf_bucket cfg; cf_access_key cfg; endpoint_str endpoint'; cf_bucket cfg'; cf_access_key cfg'] ->
  cache_namespace self = cache_namespace self' ->
  endpoint_str endpoint = endpoint_str endpoint' /\ cf_bucket cfg = cf_bucket cfg' /\ cf_access_key cfg = cf_access_key cfg'
  /\ cf_region cfg = cf_region cfg' /\ cf_path_style cfg = cf_path_style cfg'.
Proof.
  intros Hnew Hnew' Hep Hep' Hshort. destruct (S3Store_new_Ok _ _ _ _ Hnew) as (_ & _ & (ep & He & Hns) & _).
  destruct (S3Store_new_Ok _ _ _ _ Hnew') as (_ & _ & (ep' & He' & Hns') & _). cbn. rewrite Hns, Hns'.
  rewrite Hep in He. rewrite Hep' in He'. injection He as <-. injection He' as <-. intros [= Heq].
  repeat (apply Forall_cons in Hshort as [? Hshort]). clear - Heq H1 H2 H3 H4 H5 H6.
  unfold namespace_of in Heq.
  apply split_at_colon in Heq as [Hd Heq]; [|apply dec_forallb..]. apply dec_inj in Hd; [|done..].
  apply string_app_inj_len in Heq as [-> Heq]; [|done]. apply string_app_inj_l in Heq.
  apply split_at_colon in Heq as [Hd' Heq]; [|apply dec_forallb..]. apply dec_inj in Hd'; [|done..].
  apply string_app_inj_len in Heq as [-> Heq]; [|done]. apply string_app_inj_l in Heq.
  apply split_at_colon in Heq as [Hd'' Heq]; [|apply dec_forallb..]. apply dec_inj in Hd''; [|done..].
  apply string_app_inj_len in Heq as [-> Heq]; [|done]. apply string_app_inj_l in Heq.
  by apply show_bool_tail in Heq as [-> ->].
Qed.

End props.
