(* ===== verification/S3Scenario.v ===== *)
(** * A concrete S3 service

    A [MemoryStore] behind HTTP whose replies to mutations may be lost and
    whose requests may arrive late: an instance of [S3Client] and [S3Service],
    and runs of [S3Store] over it. *)

From S2P Require Import Prelude Fmt Utf8 Atomic Error Store StoreProps S3 S3Props.

(** What happens to a PUT or DELETE: it is answered, or executed and its reply
    lost, or it is still under way when the client gives up. *)
Inductive Fate : Type := Replied | Lost | Delayed.

(** The objects, the fates of the mutations to come, and those in flight. *)
Record Net : Type := mkNet { net_objects : MemoryStore; net_fates : list Fate; net_late : list Mutation }.

Definition plain (st : Z) (etag : option string) (body : bytes) : Response :=
  mkResponse st (fun name => if bool_decide (name = "etag") then etag else None) (body, None).

(** The body, in reads of 8192 bytes at time 0. *)
Definition whole_body (r : HttpRequest (Method * string)) : option bytes :=
  match hr_body r with
  | Some u => match drain (repeat (0, 8192) (Datatypes.S (length (remaining u)))) u with
              | Some d => if bool_decide (header_of "Content-Length" r = Some (dec (zlen d))) then Some d else None
              | None => None
              end
  | None => None
  end.

Definition serve_put (key : string) (r : HttpRequest (Method * string)) (m : MemoryStore) : MemoryStore * Answer :=
  match whole_body r with
  | None => (m, StatusError 400 (plain 400 None []))
  | Some d =>
      match (match put_condition r with
             | Some c => ms_put_if_match key c d m
             | None => let (m, e) := ms_put key d m in (m, match e with Ok e => Ok (PutOk e) | Err e => Err e end)
             end) with
      | (m, Ok (PutOk e)) => (m, Answered (plain 200 (Some e) []))
      | (m, Ok PreconditionFailed) => (m, StatusError 412 (plain 412 None []))
      | (m, Err _) => (m, StatusError 500 (plain 500 None []))
      end
  end.

(** A mutation arrives and is executed if its condition holds. *)
Definition arrive (m : Mutation) (o : MemoryStore) : MemoryStore :=
  match m with
  | MPut k (Some c) d => (ms_put_if_match k c d o).1
  | MPut k None d => (ms_put k d o).1
  | MDelete k => (ms_delete k o).1
  end.
Definition net_land (i : nat) (n : Net) : Net :=
  match net_late n !! i with
  | Some m => mkNet (arrive m (net_objects n)) (net_fates n) (delete i (net_late n))
  | None => n
  end.

Definition wanted (key : string) (r : HttpRequest (Method * string)) : list Mutation :=
  match hr_method r with
  | PUT => match whole_body r with Some d => [MPut key (put_condition r) d] | None => [] end
  | DELETE => [MDelete key]
  | GET => []
  end.

(** [done] is the execution of the request and its answer. *)
Definition mutate (key : string) (r : HttpRequest (Method * string)) (n : Net) (done : MemoryStore * Answer) : Net * Answer :=
  match net_fates n with
  | Lost :: l => (mkNet done.1 l (net_late n), TransportError "connection reset")
  | Delayed :: l => (mkNet (net_objects n) l (wanted key r ++ net_late n), TransportError "timed out")
  | Replied :: l => (mkNet done.1 l (net_late n), done.2)
  | [] => (mkNet done.1 [] (net_late n), done.2)
  end.

Definition serve (r : HttpRequest (Method * string)) (n : Net) : Net * Answer :=
  let (m, key) := hr_url r in
  match m, hr_method r with
  | GET, GET =>
      (n, match ms_objects (net_objects n) !! key with
          | None => StatusError 404 (plain 404 None [])
          | Some o => if bool_decide (header_of "If-None-Match" r = Some (st_etag o)) then Answered (plain 304 None [])
                      else Answered (plain 200 (Some (st_etag o)) (st_data o))
          end)
  | PUT, PUT => mutate key r n (serve_put key r (net_objects n))
  | DELETE, DELETE => mutate key r n ((ms_delete key (net_objects n)).1, Answered (plain 204 None []))
  | _, _ => (n, StatusError 403 (plain 403 None []))
  end.

#[global] Instance Net_client : S3Client Net := {|
  Endpoint := string;
  parse_endpoint s := if bool_decide (s = "") then Err "relative URL without a base" else Ok s;
  endpoint_str s := s;
  Bucket := string;
  Bucket_new _ _ b _ := Ok b;
  Credentials := string;
  Credentials_new k _ := k;
  Url := Method * string;
  sign m _ _ k _ _ := (m, k);
  Agent := unit;
  build_agent _ _ _ := tt;
  instant_now _ := 0;
  send_request _ := serve;
|}.

Lemma whole_body_delivers r d : whole_body r = Some d -> delivers r d.
Proof.
  unfold whole_body, delivers. destruct (hr_body r) as [u|] eqn:Eb; [|done].
  destruct (drain _ u) as [d'|] eqn:Ed; [|done]. case_bool_decide; [|done]. intros [= <-]. by eexists u, _.
Qed.

(** What the service does to its objects for one PUT. *)
Lemma serve_put_spec key r m m' a : serve_put key r m = (m', a) -> ms_wf m -> ms_sane m' ->
  keeps ms_wf ms_sane ms_known m m' /\
  ((exists e d, a = Answered (plain 200 (Some e) []) /\ delivers r d /\ ms_objects m' = <[key := mkStored d e]> (ms_objects m)
      /\ forall c, put_condition r = Some c -> cas_matches (st_etag <$> ms_objects m !! key) c = true)
   \/ (exists st, st <> 200 /\ a = StatusError st (plain st None []) /\ ms_objects m' = ms_objects m)).
Proof.
  unfold serve_put. destruct (whole_body r) as [d|] eqn:Eb.
  2: { intros [= <- <-] ??. split; [done|]. right. by exists 400. }
  apply whole_body_delivers in Eb. destruct (put_condition r) as [c|] eqn:Ec.
  - unfold ms_put_if_match. destruct (cas_matches _ _) eqn:E; cbn; intros [= <- <-] ??.
    + split; [by apply ms_store_keeps|]. left. eexists _, d. split_and!; [done..|]. by intros c' [= <-].
    + split; [done|]. right. by exists 412.
  - intros [= <- <-] ??. split; [by apply ms_store_keeps|]. left. by eexists _, d.
Qed.

(** A mutation is executed at once or not, and then it may be in flight. *)
Lemma mutate_spec key r n done n' a : mutate key r n done = (n', a) ->
  (net_objects n' = done.1 /\ net_late n' = net_late n /\ (a = done.2 \/ exists msg, a = TransportError msg))
  \/ (net_objects n' = net_objects n /\ net_late n' = wanted key r ++ net_late n /\ exists msg, a = TransportError msg).
Proof.
  unfold mutate. destruct (net_fates n) as [|[] l]; intros [= <- <-]; cbn; [left|left|left|right];
    split_and!; eauto.
Qed.

Lemma arrive_keeps m o : ms_wf o -> ms_sane (arrive m o) ->
  keeps ms_wf ms_sane ms_known o (arrive m o) /\ (ms_objects (arrive m o) = ms_objects o \/ lands m (ms_objects o) (ms_objects (arrive m o))).
Proof.
  intros Hw Hs. destruct m as [k [c|] d|k]; cbn [arrive] in *.
  - unfold ms_put_if_match in *. destruct (cas_matches _ _) eqn:E; cbn [fst negb] in *; [|by split; [|left]].
    split; [by apply ms_store_keeps|]. right. eexists. split; [by intros c' [= <-]|done].
  - split; [by apply ms_store_keeps|]. right. by eexists.
  - split; [by apply ms_delete_keeps|by right].
Qed.

Lemma delete_subseteq {A} i (l : list A) : delete i l ⊆ l.
Proof.
  intros x Hx. rewrite delete_take_drop in Hx. apply elem_of_app in Hx as [Hx|Hx].
  - by eapply subseteq_take.
  - by eapply subseteq_drop.
Qed.

#[global] Program Instance Net_service : S3Service Net := {|
  svc_objects _ n := ms_objects (net_objects n);
  svc_known _ n := ms_known (net_objects n);
  svc_wf _ n := ms_wf (net_objects n);
  svc_sane _ n := ms_sane (net_objects n);
  svc_late _ n := net_late n;
  svc_land _ := net_land;
|}.
Next Obligation. intros. by apply ms_known_contents. Qed.
Next Obligation. intros _ n k e d o [_ Hk]. apply Hk. Qed.
Next Obligation.
  intros b cr k ttl c t [m u hs body] n0 n n' a Hs Hurl Hwf Hsane. cbn in *. subst u. unfold serve in Hs. cbn in Hs.
  destruct m; [by simplify_eq| |].
  - destruct (mutate_spec _ _ _ _ _ _ Hs) as [(Ho & _)|(Ho & _)]; [|by rewrite Ho in *].
    destruct (serve_put _ _ _) as [o a'] eqn:Ep. cbn in Ho. subst o.
    destruct (serve_put_spec _ _ _ _ _ Ep Hwf Hsane) as [(H1 & H2 & _ & H3) _]. done.
  - destruct (mutate_spec _ _ _ _ _ _ Hs) as [(Ho & _)|(Ho & _)]; [|by rewrite Ho in *]. rewrite Ho in *.
    destruct (ms_delete_keeps k (net_objects n) Hwf Hsane) as (H1 & H2 & _ & H3). done.
Qed.
Next Obligation.
  intros b i n Hwf Hs. cbn in *. unfold net_land in *. destruct (net_late n !! i) as [m|] eqn:Em; [|by split_and!; [..|left]].
  cbn in *. destruct (arrive_keeps m (net_objects n) Hwf Hs) as ((H1 & H2 & _ & H3) & Hl).
  split_and!; [done..|apply delete_subseteq|]. destruct Hl as [?|?]; [by left|right; by exists m].
Qed.
Next Obligation.
  intros b cr k ttl c t [m u hs body] n0 n n' a Hs Hm Hurl Hwf Hsane. cbn in *. subst u m. unfold serve in Hs. cbn [hr_url hr_method] in Hs.
  injection Hs as <- <-. split; [done|]. split; [done|]. intros resp Hr.
  destruct (ms_objects (net_objects n) !! k) as [o|] eqn:Eo; [|by injection Hr as <-].
  case_bool_decide as Hc; injection Hr as <-.
  - split_and!; [done| |done]. intros _ e He. exists o. split; [done|]. unfold header_of in Hc. cbn in Hc. congruence.
  - split_and!; [|done|done]. intros _. exists o. split_and!; [done| |done]. by intros e' [= <-].
Qed.
Next Obligation.
  intros b cr k ttl c t [m u hs body] n0 n n' a Hs Hm Hurl Hwf Hsane executed. cbn in Hs, Hm, Hurl, Hwf, Hsane. subst u m.
  unfold serve in Hs. cbn [hr_url hr_method] in Hs. destruct (serve_put _ _ _) as [o a'] eqn:Ep.
  destruct (mutate_spec _ _ _ _ _ _ Hs) as [(Ho & Hl & Ha)|(Ho & Hl & msg & ->)]; cbn [fst snd] in *.
  - subst o. destruct (serve_put_spec _ _ _ _ _ Ep Hwf Hsane) as [_ [(e & d & -> & Hd & Ho & Hcond)|(st & Hst & -> & Ho)]].
    + assert (executed e) as He by by exists d. split_and!; [|right; by exists e|left; by rewrite Hl].
      destruct Ha as [->|[msg ->]]; [|done]. cbn. split; [|by intros [|]]. intros _. exists e. split; [done|]. by intros e' [= <-].
    + split_and!; [|by left|left; by rewrite Hl]. destruct Ha as [->|[msg ->]]; [|done]. cbn. split; [by intros|done].
  - split_and!; [done|left; by rewrite Ho|]. rewrite Hl. cbn [wanted hr_method].
    destruct (whole_body _) as [d|] eqn:Eb; [|by left]. right. split; [by intros []|]. split; [by rewrite Ho|].
    exists d. split; [by apply whole_body_delivers|done].
Qed.
Next Obligation.
  intros b cr k ttl c t [m u hs body] n0 n n' a Hs Hm Hurl Hwf Hsane. cbn in *. subst u m. unfold serve in Hs. cbn in Hs.
  destruct (mutate_spec _ _ _ _ _ _ Hs) as [(Ho & Hl & Ha)|(Ho & Hl & msg & ->)]; cbn [fst snd] in *.
  - rewrite Ho. split_and!; [|by right|left; by rewrite Hl]. destruct Ha as [->|[msg ->]]; done.
  - split_and!; [done|left; by rewrite Ho|]. right. split_and!; [by intros []|by rewrite Ho|by rewrite Hl].
Qed.

(** ** Runs *)

Definition s3_cfg (bucket : string) : S3Config :=
  mkS3Config "https://s3.us-east-1.amazonaws.com/" "us-east-1" bucket "access" "secret" false.
(** The first PUT is delayed; the next reply is lost. *)
Definition net0 : Net := mkNet (MemoryStore_new None) [Delayed; Lost] [].
Definition opened_s3 (bucket : string) : S3Store Net :=
  mkS3Store bucket "access" tt (namespace_of "https://s3.us-east-1.amazonaws.com/" (s3_cfg bucket)) S3Options_default net0.

Lemma opened_s3_ok bucket : S3Store_new (s3_cfg bucket) net0 = Ok (opened_s3 bucket).
Proof. reflexivity. Qed.

(** A PUT that is under way when the client gives up, and its arrival. *)
Definition delayed_put : S3Store Net * Result CondPut StoreError := put_if_match "wal" None [x01; x02] (opened_s3 "logs").
Definition delayed_error : StoreError := store_error StoreOperation.Put "wal" None "timed out".
Definition arrived : S3Store Net := s3_land 0 delayed_put.1.

Lemma delayed_put_ends : put_if_match "wal" None [x01; x02] (opened_s3 "logs") = (delayed_put.1, Err delayed_error).
Proof.
  assert (delayed_put.2 = Err delayed_error) as <- by (vm_compute; reflexivity). exact (surjective_pairing delayed_put).
Qed.

(** The timeout is reported as [Unknown] with the PUT in flight; a fresh GET
    does not find the object; then it arrives. *)
Lemma s3_store_implements_contract_witness :
  s3_wf (opened_s3 "logs") /\ se_mutation_outcome delayed_error = Unknown
  /\ s3_late delayed_put.1 = [MPut "wal" (Some None) [x01; x02]]
  /\ (get "wal" delayed_put.1).2 = Ok None
  /\ s3_objects arrived !! "wal" = Some (mkStored [x01; x02] (etag_text 0))
  /\ (s3_objects delayed_put.1 = s3_objects (opened_s3 "logs") /\ s3_late delayed_put.1 ⊆ MPut "wal" (Some None) [x01; x02] :: []
      \/ (exists etag, cas_applied (s3_objects (opened_s3 "logs")) (s3_objects delayed_put.1) "wal" None [x01; x02] etag)
         /\ s3_late delayed_put.1 ⊆ []).
Proof.
  assert (svc_wf (s3_bucket (opened_s3 "logs")) net0) as Hwf by exact (MemoryStore_new_wf None).
  assert (0 <= so_max_object_bytes S3Options_default) as Hmax by (vm_compute; discriminate).
  destruct (s3_store_implements_contract (s3_cfg "logs") S3Options_default net0 (opened_s3 "logs") (opened_s3_ok "logs") Hmax Hwf)
    as (Hs & _ & Hops).
  split; [exact Hs|]. split; [reflexivity|]. split; [vm_compute; reflexivity|]. split; [vm_compute; reflexivity|].
  split; [vm_compute; reflexivity|].
  destruct (Hops (opened_s3 "logs") Hs) as (Hput & _).
  assert (s3_sane delayed_put.1) as Hsane by (vm_compute; discriminate).
  exact (proj2 (Hput "wal" None [x01; x02] delayed_put.1 (Err delayed_error) delayed_put_ends Hsane)).
Defined.

Lemma s3_namespace_separates_witness :
  cache_namespace (opened_s3 "logs") = Some "s3:35:https://s3.us-east-1.amazonaws.com/:4:logs:6:access:us-east-1:false"
  /\ "logs" = cf_bucket (s3_cfg "logs").
Proof.
  split; [vm_compute; reflexivity|].
  refine (proj1 (proj2 (s3_namespace_separates (s3_cfg "logs") S3Options_default net0 (opened_s3 "logs")
    (s3_cfg "logs") S3Options_default net0 (opened_s3 "logs") _ _ (opened_s3_ok "logs") (opened_s3_ok "logs") eq_refl eq_refl _ eq_refl))).
  repeat constructor; vm_compute; discriminate.
Defined.

Lemma upload_is_faithful_witness :
  drain [(0, 2); (1, 9000); (2, 1)] (mkUpload [x01; x02; x03] 5) = Some [x01; x02; x03]
  /\ [x01; x02; x03] `prefix_of` [x01; x02; x03].
Proof.
  split; [vm_compute; reflexivity|].
  assert (Forall (fun r : Z * Z => 0 <= r.2) [(0, 2); (1, 9000); (2, 1)]) as Hr by (repeat constructor; discriminate).
  exact (proj1 (upload_is_faithful [(0, 2); (1, 9000); (2, 1)] [x01; x02; x03] 5 Hr)).
Defined.
