(* ===== verification/Invariant.v ===== *)
(** * The invariant of the shared world

    [inv] ties the observed history to the objects of the store, the cache
    files and the compaction threads; [grows] is what any step of any handle
    may do; [rely] and [guar] are the two sides of a handle's contract. *)

From S2P Require Import Prelude Fmt Utf8 Error Image ImageCodec App Proc Atomic AtomicProps Cache CacheChecksum CacheProps CacheTheorems Store World Core Compactor Writer Protocol.

(** ** Images in the store *)

Definition emitted (i : WalImage) : bytes := emit (img_snapshot i) (img_entries i).

(** Decoding within the widths of the format only. *)
Definition parse (o : Stored) : option WalImage :=
  match decode (st_data o) (mkImageLimits (zlen (st_data o)) U32_MAX) with Ok i => Some i | Err _ => None end.

Lemma parse_Some o i : parse o = Some i <-> st_data o = emitted i /\ wf_image i.
Proof.
  unfold parse. destruct (decode _ _) as [j|e] eqn:E; split; try done.
  - intros [= ->]. by apply decode_ok in E as (? & ? & _).
  - intros [Hd Hw]. f_equal. pose proof E as (Hj & _ & _ & _)%decode_ok.
    assert (decode (st_data o) (mkImageLimits (zlen (st_data o)) U32_MAX) = Ok i) as E'; [|congruence].
    apply decode_ok. cbn. split_and!; [done|done|lia|apply Hw].
  - intros [Hd Hw]. exfalso.
    assert (decode (st_data o) (mkImageLimits (zlen (st_data o)) U32_MAX) = Ok i) as E'; [|congruence].
    apply decode_ok. cbn. split_and!; [done|done|lia|apply Hw].
Qed.

Lemma emitted_inj i j : wf_image i -> wf_image j -> emitted i = emitted j -> i = j.
Proof.
  intros Hi Hj He. assert (parse (mkStored (emitted i) "") = Some i) as H1 by by apply parse_Some.
  assert (parse (mkStored (emitted i) "") = Some j) as H2 by (apply parse_Some; split; [exact He|done]).
  congruence.
Qed.

(** The entries of an image are a window of the history. *)
Definition window (i : WalImage) (hist : list bytes) : Prop :=
  exists pre post, hist = pre ++ img_entries i ++ post /\ zlen pre = first_lsn i.

Lemma window_prefix i hist hist' : hist `prefix_of` hist' -> window i hist -> window i hist'.
Proof. intros [x ->] (pre & post & -> & Hp). exists pre, (post ++ x). by rewrite <- !app_assoc. Qed.

Lemma window_bounds i hist : wf_image i -> window i hist -> 0 <= first_lsn i <= next_lsn i /\ next_lsn i <= zlen hist.
Proof.
  intros Hw (pre & post & -> & Hp). pose proof (next_lsn_wf i Hw) as [-> _].
  rewrite !zlen_app, Hp. pose proof (zlen_nonneg (img_entries i)). pose proof (zlen_nonneg post).
  pose proof (zlen_nonneg pre). lia.
Qed.

Section invariant.
Context {S : Type} `{ObjectStoreLaws S} `{WalAppLaws}.
Variable P : string.
Variable ns : option string.
Abbreviation World := (World S).
Abbreviation cfg := (History * World)%type.
Implicit Types (w : World) (c : cfg) (g : History).

Definition cur w : option WalImage := contents (w_store w) !! wkey P ≫= parse.
Definition snap_ref w : option SnapshotRef := cur w ≫= img_snapshot.
Definition log_next w : Z := from_option next_lsn 0 (cur w).

(** The observer: when the log has grown, the new entries of the image are a
    batch of the thread whose action it was. *)
Definition record (i : nat) (g : History) (w w' : World) : History :=
  match cur w' with
  | Some im =>
      if log_next w <? next_lsn im
      then g ++ [(i, drop (Z.to_nat (log_next w - first_lsn im)) (img_entries im))]
      else g
  | None => g
  end.

(** [d] restores to the state after the first [L + 1] entries. *)
Definition good_snapshot (d : bytes) (L : Lsn) (hist : list bytes) : Prop :=
  L < zlen hist /\ exists s, restore d = Ok s /\ seqv s (replay (take (Z.to_nat (L + 1)) hist)).

(** The snapshot of a key is behind the one the log references. *)
Definition dead (k : string) w : Prop :=
  exists L sr, snap_key_at P k L /\ snap_ref w = Some sr /\ L <= sr_lsn sr /\ k <> sr_key sr.

(** Only dead snapshots may be missing. *)
Definition pinned (k : string) w : Prop := is_Some (contents (w_store w) !! k) \/ dead k w.

Definition fold_ok (f : Fold) c : Prop :=
  snap_key_at P (f_key f) (f_lsn f) /\ f_lsn f < zlen (entries c.1) /\ pinned (f_key f) c.2.

Definition cache_ok (ca : Cache) : Prop :=
  c_identity ca = None \/ exists n, ns = Some n /\ c_identity ca = Some (as_bytes (identity_of n (wkey P))).

Definition last_lsn (a : CompactArgs) : option Lsn := e_lsn <$> last (ca_entries a).

(** What a compaction thread was given. *)
Definition args_ok (a : CompactArgs) (hist : list bytes) : Prop :=
  exists pre es post,
    hist = pre ++ es ++ post /\ es <> [] /\ zlen pre + zlen es <= U64_MAX
    /\ ca_entries a = entries_at (zlen pre) es
    /\ ca_snap_prefix a = P +:+ "snap/" +:+ dec20 (zlen pre + zlen es - 1) +:+ "-"
    /\ cache_ok (ca_cache a)
    /\ match ca_base_key a with
       | None => pre = []
       | Some k => exists L, snap_key_at P k L /\ zlen pre = L + 1
       end.

Definition job_ok (j : Job) c : Prop :=
  args_ok (j_args j) (entries c.1)
  /\ forall f, j_msg j = Some (Done f) -> fold_ok f c /\ last_lsn (j_args j) = Some (f_lsn f).

(** The log object: absent before the first open, then an image whose entries
    end the history and whose snapshot exists. *)
Definition current_ok c : Prop :=
  match contents (w_store c.2) !! wkey P with
  | None => entries c.1 = []
  | Some o => exists i, parse o = Some i /\ window i (entries c.1) /\ next_lsn i = zlen (entries c.1)
      /\ forall sr, img_snapshot i = Some sr ->
           snap_key_at P (sr_key sr) (sr_lsn sr) /\ is_Some (contents (w_store c.2) !! sr_key sr)
  end.

(** Cache files under this log's identity hold true records; temporary files
    may be torn. *)
Definition not_tmp (p : path) : Prop := forall t, is_tmp t -> p <> t.
Definition cache_snaps_ok (files : gmap path bytes) (hist : list bytes) : Prop :=
  forall n p k L d, ns = Some n -> not_tmp p -> snap_key_at P k L ->
    files !! p = Some (record_file (as_bytes (identity_of n (wkey P))) (as_bytes k) d) ->
    good_snapshot d L hist.
Definition cache_wal_ok (files : gmap path bytes) (s : S) : Prop :=
  forall n p e d, ns = Some n -> not_tmp p -> str_len e <= U16_MAX ->
    files !! p = Some (record_file (as_bytes (identity_of n (wkey P))) (as_bytes "wal") (wal_data e d)) ->
    known s (wkey P) e d.

(** [im] was the log under the validator [e]. *)
Definition seen (im : WalImage) (e : string) c : Prop :=
  known (w_store c.2) (wkey P) e (emitted im) /\ wf_image im /\ window im (entries c.1)
  /\ is_Some (cur c.2)
  /\ forall sr, img_snapshot im = Some sr ->
       snap_key_at P (sr_key sr) (sr_lsn sr) /\ pinned (sr_key sr) c.2
       /\ exists sr', snap_ref c.2 = Some sr' /\ (sr' = sr \/ sr_lsn sr < sr_lsn sr').

(** [im'] is what a writer may store over [im]: new entries at the end and,
    with a fold, the entries up to the fold's replaced by its snapshot. *)
Record proposal (c : cfg) (e : string) (im im' : WalImage) (extra : list bytes) : Prop := {
  pr_seen : seen im e c;
  pr_wf : wf_image im';
  pr_ok : Forall entry_ok extra;
  pr_shape : img_snapshot im' = img_snapshot im /\ img_entries im' = img_entries im ++ extra
    \/ exists f, fold_ok f c /\ first_lsn im <= f_lsn f < next_lsn im
         /\ img_snapshot im' = Some (mkSnapshotRef (f_key f) (f_lsn f))
         /\ img_entries im' = drop (Z.to_nat (f_lsn f + 1 - first_lsn im)) (img_entries im) ++ extra;
}.

(** The mutations that may be in flight: whenever they arrive, they do what a
    step of the protocol may do. *)
Inductive harmless (c : cfg) : Mutation -> Prop :=
  | harmless_snapshot k L d : snap_key_at P k L -> good_snapshot d L (entries c.1) -> harmless c (MPut k (Some None) d)
  | harmless_create : harmless c (MPut (wkey P) (Some None) (emitted empty))
  | harmless_commit e im im' extra : proposal c e im im' extra -> harmless c (MPut (wkey P) (Some (Some e)) (emitted im'))
  | harmless_delete k : dead k c.2 -> harmless c (MDelete k).

Record inv c : Prop := {
  inv_wf : store_wf (w_store c.2);
  inv_sane : store_sane (w_store c.2);
  inv_ns : cache_namespace (w_store c.2) = ns;
  inv_entries : Forall entry_ok (entries c.1);
  inv_current : current_ok c;
  inv_snaps : forall k L o, contents (w_store c.2) !! k = Some o -> snap_key_at P k L ->
    good_snapshot (st_data o) L (entries c.1);
  inv_cache_snaps : cache_snaps_ok (fs_files (w_fs c.2)) (entries c.1);
  inv_cache_wal : cache_wal_ok (fs_files (w_fs c.2)) (w_store c.2);
  inv_ids : Forall (fun o => forall id, o = Some id -> length id = 16%nat) (w_ids c.2);
  inv_jobs : forall t j, w_jobs c.2 !! t = Some j -> job_ok j c;
  inv_late : Forall (harmless c) (late (w_store c.2));
}.

(** ** Steps *)

Record grows c c' : Prop := {
  grows_history : c.1 `prefix_of` c'.1;
  grows_known : forall k e d, known (w_store c.2) k e d -> known (w_store c'.2) k e d;
  grows_cur : is_Some (cur c.2) -> is_Some (cur c'.2);
  grows_ref : forall sr, snap_ref c.2 = Some sr ->
    exists sr', snap_ref c'.2 = Some sr' /\ (sr' = sr \/ sr_lsn sr < sr_lsn sr');
  grows_pinned : forall k L, snap_key_at P k L -> is_Some (contents (w_store c.2) !! k) -> pinned k c'.2;
  grows_jobs : forall t j, w_jobs c.2 !! t = Some j ->
    exists j', w_jobs c'.2 !! t = Some j' /\ j_args j' = j_args j;
}.

Definition rely (i : nat) c c' : Prop := inv c' /\ grows c c' /\ mine i c'.1 = mine i c.1.
Definition guar (i : nat) c c' : Prop :=
  inv c' /\ grows c c' /\ forall j, j <> i -> mine j c'.1 = mine j c.1.

Lemma inv_ref c sr : inv c -> snap_ref c.2 = Some sr ->
  snap_key_at P (sr_key sr) (sr_lsn sr) /\ is_Some (contents (w_store c.2) !! sr_key sr).
Proof.
  intros Hinv Hr. pose proof (inv_current c Hinv) as Hc. unfold current_ok in Hc.
  unfold snap_ref, cur in Hr. destruct (contents _ !! wkey P) as [o|]; cbn in Hr; [|done].
  destruct Hc as (i & Hp & _ & _ & Hs). rewrite Hp in Hr. by apply Hs.
Qed.

Lemma dead_not_live c k sr : inv c -> dead k c.2 -> snap_ref c.2 = Some sr -> k <> sr_key sr.
Proof. intros _ (L & sr' & _ & Hr & _ & Hne) Hr'. congruence. Qed.

Lemma grows_refl c : grows c c.
Proof. split; [done|done|done|intros sr ->; eauto|by left|eauto]. Qed.

Lemma dead_advance k w w' :
  (forall sr, snap_ref w = Some sr ->
     exists sr', snap_ref w' = Some sr' /\ (sr' = sr \/ sr_lsn sr < sr_lsn sr')) ->
  (forall sr, snap_ref w' = Some sr -> snap_key_at P (sr_key sr) (sr_lsn sr)) ->
  dead k w -> dead k w'.
Proof.
  intros Hg Hkey (L & sr & Hk & Hr & Hl & Hne). destruct (Hg sr Hr) as (sr' & Hr' & [->|Hlt]).
  - by exists L, sr.
  - exists L, sr'. split_and!; [done|done|lia|]. intros ->.
    pose proof (snap_key_fun _ _ _ _ Hk (Hkey sr' Hr')). lia.
Qed.

Lemma dead_mono k c c' : inv c' -> grows c c' -> dead k c.2 -> dead k c'.2.
Proof.
  intros Hinv Hg. apply dead_advance; [apply Hg|]. intros sr Hr. by apply (inv_ref c' sr Hinv Hr).
Qed.

Lemma pinned_mono k L c c' : inv c' -> grows c c' -> snap_key_at P k L -> pinned k c.2 -> pinned k c'.2.
Proof.
  intros Hinv Hg Hk [Hp|Hd]; [by eapply grows_pinned|right; by eapply dead_mono].
Qed.

Lemma grows_trans c1 c2 c3 : inv c3 -> grows c1 c2 -> grows c2 c3 -> grows c1 c3.
Proof.
  intros Hinv H12 H23. split.
  - by transitivity c2.1; apply grows_history.
  - intros. by apply (grows_known _ _ H23), (grows_known _ _ H12).
  - intros. by apply (grows_cur _ _ H23), (grows_cur _ _ H12).
  - intros sr Hr. destruct (grows_ref _ _ H12 sr Hr) as (sr2 & Hr2 & Hc2).
    destruct (grows_ref _ _ H23 sr2 Hr2) as (sr3 & Hr3 & Hc3). exists sr3. split; [done|].
    destruct Hc2 as [->|], Hc3 as [->|]; auto. right. lia.
  - intros k L Hk Hs. eapply pinned_mono; [done|done|done|]. by eapply grows_pinned.
  - intros t j Hj. destruct (grows_jobs _ _ H12 t j Hj) as (j2 & Hj2 & E2).
    destruct (grows_jobs _ _ H23 t j2 Hj2) as (j3 & Hj3 & E3). exists j3. split; [done|congruence].
Qed.

Lemma rely_refl i c : inv c -> rely i c c.
Proof. intros. split_and!; [done|apply grows_refl|done]. Qed.

Lemma rely_trans i c1 c2 c3 : rely i c1 c2 -> rely i c2 c3 -> rely i c1 c3.
Proof.
  intros (_ & G1 & M1) (I2 & G2 & M2). split_and!; [done|by eapply grows_trans|congruence].
Qed.

Lemma guar_inv i c c' : guar i c c' -> inv c'.
Proof. by intros [? _]. Qed.

Lemma rely_inv i c c' : rely i c c' -> inv c'.
Proof. by intros [? _]. Qed.

Lemma rely_grows i c c' : rely i c c' -> grows c c'.
Proof. by intros (_ & ? & _). Qed.

Lemma guar_rely i j c c' : i <> j -> guar j c c' -> rely i c c'.
Proof. intros Hne (? & ? & Hm). split_and!; [done|done|by apply Hm]. Qed.

Lemma inv_log_next c : inv c -> log_next c.2 = zlen (entries c.1).
Proof.
  intros Hinv. pose proof (inv_current c Hinv) as Hc. unfold current_ok in Hc. unfold log_next, cur.
  destruct (contents _ !! wkey P) as [o|]; cbn; [|by rewrite Hc].
  destruct Hc as (im & Hp & _ & Hn & _). by rewrite Hp.
Qed.

(** ** What a handle has seen stays true *)

Lemma entries_mono c c' : grows c c' -> entries c.1 `prefix_of` entries c'.1.
Proof. intros. by apply entries_prefix, grows_history. Qed.

Lemma zlen_mono c c' : grows c c' -> zlen (entries c.1) <= zlen (entries c'.1).
Proof. intros Hg%entries_mono%prefix_length. zlia. Qed.

Lemma take_prefix {A} n (l k : list A) : l `prefix_of` k -> n <= zlen l -> take (Z.to_nat n) k = take (Z.to_nat n) l.
Proof. intros [x ->] Hn. apply take_app_le. zlia. Qed.

Lemma good_snapshot_mono d L hist hist' :
  hist `prefix_of` hist' -> good_snapshot d L hist -> good_snapshot d L hist'.
Proof.
  intros Hp (Hl & s & Hr & Hs). split.
  - apply prefix_length in Hp. zlia.
  - exists s. split; [done|]. by rewrite (take_prefix _ hist) by (done || lia).
Qed.

Lemma fold_ok_mono f c c' : inv c' -> grows c c' -> fold_ok f c -> fold_ok f c'.
Proof.
  intros Hi Hg (Hk & Hl & Hp). split_and!; [done| |by eapply pinned_mono].
  pose proof (zlen_mono _ _ Hg). lia.
Qed.

(** What is said of snapshots and images survives any step that keeps the
    snapshots that may be needed and the dead ones dead. *)
Definition secures c c' : Prop :=
  grows c c' /\ (forall k L, snap_key_at P k L -> pinned k c.2 -> pinned k c'.2) /\ (forall k, dead k c.2 -> dead k c'.2).

Lemma grows_secures c c' : inv c' -> grows c c' -> secures c c'.
Proof. intros Hi Hg. split_and!; [done|intros; by eapply pinned_mono|intros; by eapply dead_mono]. Qed.

Lemma seen_secures im e c c' : secures c c' -> seen im e c -> seen im e c'.
Proof.
  intros (Hg & Hpin & _) (Hk & Hw & Hwin & Hc & Hs). split_and!.
  - by apply (grows_known _ _ Hg).
  - done.
  - eapply window_prefix; [|done]. by apply entries_mono.
  - by apply (grows_cur _ _ Hg).
  - intros sr Hsr. destruct (Hs sr Hsr) as (Hsk & Hp & sr1 & Hr1 & Hle). split_and!; [done|by eapply Hpin|].
    destruct (grows_ref _ _ Hg sr1 Hr1) as (sr2 & Hr2 & Hc2). exists sr2. split; [done|].
    destruct Hle as [->|], Hc2 as [->|]; auto; right; lia.
Qed.

Lemma seen_mono im e c c' : inv c' -> grows c c' -> seen im e c -> seen im e c'.
Proof. intros Hi Hg. apply seen_secures. by apply grows_secures. Qed.

Lemma proposal_secures c c' e im im' extra : secures c c' -> proposal c e im im' extra -> proposal c' e im im' extra.
Proof.
  intros Hs [Hseen Hw Hok Hsh]. pose proof Hs as (Hg & Hpin & _). split; [by eapply seen_secures|done|done|].
  destruct Hsh as [?|(f & (Hk & Hl & Hp) & Hrest)]; [by left|right]. exists f. split; [|done].
  split_and!; [done| |by eapply Hpin]. pose proof (zlen_mono _ _ Hg). lia.
Qed.

Lemma harmless_secures c c' m : secures c c' -> harmless c m -> harmless c' m.
Proof.
  intros Hs Hm. pose proof Hs as (Hg & Hpin & Hdead). destruct Hm as [k L d Hk Hd| |e im im' extra Hp|k Hd].
  - eapply harmless_snapshot; [done|]. eapply good_snapshot_mono; [|done]. by apply entries_mono.
  - constructor.
  - eapply harmless_commit. by eapply proposal_secures.
  - constructor. by apply Hdead.
Qed.

(** The object in the store has been seen. *)
Lemma seen_now c o : inv c -> contents (w_store c.2) !! wkey P = Some o ->
  exists im, parse o = Some im /\ cur c.2 = Some im /\ seen im (st_etag o) c
    /\ next_lsn im = zlen (entries c.1).
Proof.
  intros Hinv Ho. pose proof (inv_current c Hinv) as Hc. unfold current_ok in Hc. rewrite Ho in Hc.
  destruct Hc as (im & Hp & Hwin & Hn & Hs). exists im.
  assert (cur c.2 = Some im) as Hcur by (unfold cur; by rewrite Ho).
  pose proof Hp as [Hd Hw]%parse_Some. split_and!; [done|done| |done].
  split_and!; [|done|done|by rewrite Hcur|].
  - rewrite <- Hd. apply known_contents; [by apply inv_wf|done].
  - intros sr Hsr. destruct (Hs sr Hsr) as [Hk Hsome]. split_and!; [done|by left|].
    exists sr. split; [|by left]. unfold snap_ref. by rewrite Hcur.
Qed.

(** A validator that matches still means the image it was seen with. *)
Lemma seen_match im c o : inv c -> contents (w_store c.2) !! wkey P = Some o -> seen im (st_etag o) c ->
  cur c.2 = Some im /\ next_lsn im = zlen (entries c.1).
Proof.
  intros Hinv Ho (Hk & Hw & _). destruct (seen_now c o Hinv Ho) as (im' & Hp & Hcur & _ & Hn).
  pose proof (known_data _ _ _ _ o Hk Ho eq_refl) as Hd. apply parse_Some in Hp as [Hd' Hw'].
  rewrite Hd in Hd'. apply emitted_inj in Hd' as ->; done.
Qed.

Lemma args_ok_mono a hist hist' : hist `prefix_of` hist' -> args_ok a hist -> args_ok a hist'.
Proof.
  intros [x ->] (pre & es & post & -> & Hrest). exists pre, es, (post ++ x). by rewrite <- !app_assoc.
Qed.

End invariant.
