(* ===== verification/Steps.v ===== *)
(** * Atomic steps keep the invariant

    A step that leaves the log object alone ([quiet]) keeps the invariant, is
    allowed by every contract and records nothing; then the weakest
    preconditions of the actions of [World] under the protocol's contracts. *)

From S2P Require Import Prelude Fmt Utf8 Error Image ImageCodec App Proc Atomic AtomicProps Cache CacheChecksum CacheProps CacheTheorems Store World Core Compactor Writer Protocol Invariant.

Definition sane_world {S} `{ObjectStoreLaws S} (w : World S) : Prop := store_sane (w_store w).

(** The rely-guarantee precondition under the contracts of the log at [P]. *)
Abbreviation pwp P ns := (wp sane_world (record P) (rely P ns) (guar P ns) (fun _ _ => True)).

Section steps.
Context {S : Type} `{ObjectStoreLaws S} `{WalAppLaws}.
Variable P : string.
Variable ns : option string.
Abbreviation World := (World S).
Abbreviation cfg := (History * World)%type.
Abbreviation inv := (inv P ns).
Abbreviation rely := (rely P ns).
Abbreviation guar := (guar P ns).
Abbreviation wp := (pwp P ns).
Abbreviation grows := (grows P).
Implicit Types (w : World) (c : cfg).

Record quiet c w : Prop := {
  q_wal : contents (w_store w) !! wkey P = contents (w_store c.2) !! wkey P;
  q_wf : store_wf (w_store w);
  q_sane : store_sane (w_store w);
  q_ns : cache_namespace (w_store w) = ns;
  q_known : forall k e d, known (w_store c.2) k e d -> known (w_store w) k e d;
  q_pinned : forall k L, snap_key_at P k L -> is_Some (contents (w_store c.2) !! k) ->
    is_Some (contents (w_store w) !! k) \/ dead P k c.2;
  q_snaps : forall k L o, contents (w_store w) !! k = Some o -> snap_key_at P k L ->
    good_snapshot (st_data o) L (entries c.1);
  q_cache_snaps : cache_snaps_ok P ns (fs_files (w_fs w)) (entries c.1);
  q_cache_wal : cache_wal_ok P ns (fs_files (w_fs w)) (w_store w);
  q_ids : Forall (fun o => forall id, o = Some id -> length id = 16%nat) (w_ids w);
  q_jobs : forall t j, w_jobs w !! t = Some j -> job_ok P ns j c;
  q_jobs_kept : forall t j, w_jobs c.2 !! t = Some j ->
    exists j', w_jobs w !! t = Some j' /\ j_args j' = j_args j;
  q_late : Forall (harmless P c) (late (w_store w));
}.

Lemma cur_same w w' : contents (w_store w') !! wkey P = contents (w_store w) !! wkey P -> cur P w' = cur P w.
Proof. unfold cur. by intros ->. Qed.

Lemma record_same i g w w' : cur P w' = cur P w -> record P i g w w' = g.
Proof.
  intros Hc. unfold record, log_next. rewrite Hc. destruct (cur P w); cbn; [|done].
  by rewrite Z.ltb_irrefl.
Qed.

Lemma quiet_after i c w : quiet c w -> after (record P) i c w = (c.1, w).
Proof. intros Hq. unfold after. by rewrite record_same by by apply cur_same, q_wal. Qed.

Lemma quiet_inv c w : inv c -> quiet c w -> inv (c.1, w) /\ grows c (c.1, w).
Proof.
  intros Hinv Hq. pose proof (cur_same _ _ (q_wal _ _ Hq)) as Hcur.
  assert (snap_ref P w = snap_ref P c.2) as Href by (unfold snap_ref; by rewrite Hcur).
  assert (forall k, dead P k w <-> dead P k c.2) as Hdead by (intros k; unfold dead; by rewrite Href).
  assert (forall k L, snap_key_at P k L -> pinned P k c.2 -> pinned P k w) as Hpin.
  { intros k L Hk [Hs|Hd]; [|by right; apply Hdead].
    destruct (q_pinned _ _ Hq k L Hk Hs); [by left|by right; apply Hdead]. }
  assert (grows c (c.1, w)) as Hg.
  { split; cbn [fst snd]; [done|apply Hq|by rewrite Hcur| | |apply Hq].
    - intros sr Hr. exists sr. rewrite Href. auto.
    - intros k L Hk Hs. eapply Hpin; [done|by left]. }
  split; [|done].
  split; cbn [fst snd]; try apply Hq; try apply Hinv.
  - unfold current_ok. cbn [fst snd]. rewrite (q_wal _ _ Hq).
    pose proof (inv_current _ _ _ Hinv) as Hc. unfold current_ok in Hc.
    destruct (contents (w_store c.2) !! wkey P) as [o|] eqn:Eo; [|done].
    destruct Hc as (im & Hp & Hw & Hn & Hs). exists im. split_and!; [done..|].
    intros sr Hsr. destruct (Hs sr Hsr) as [Hk Hsome]. split; [done|].
    destruct (q_pinned _ _ Hq _ _ Hk Hsome) as [?|Hd]; [done|].
    exfalso. eapply (dead_not_live P ns c _ sr); [done|done| |done].
    unfold snap_ref, cur. rewrite Eo. cbn. by rewrite Hp.
  - intros t j Hj. destruct (q_jobs _ _ Hq t j Hj) as [Ha Hm]. split; [done|].
    intros f Hf. destruct (Hm f Hf) as ((Hk & Hl & Hp) & Hlast). split_and!; [|done].
    split_and!; [done..|]. by eapply Hpin.
  - eapply Forall_impl; [apply (q_late _ _ Hq)|]. intros m. apply harmless_secures.
    split_and!; [done|done|intros k; apply Hdead].
Qed.

Lemma quiet_guar i c w : inv c -> quiet c w ->
  guar i c (after (record P) i c w) /\ rely i c (c.1, w).
Proof.
  intros Hinv Hq. rewrite (quiet_after i c w Hq).
  destruct (quiet_inv c w Hinv Hq) as [Hi Hg]. by split; split_and!.
Qed.

(** A quiet action: what holds after it is what holds at a later point. *)
Lemma wp_quiet i {R} (f : World -> World * R) (Q : R -> cfg -> Prop) E c :
  (forall c1 w2 r, rely i c c1 -> f c1.2 = (w2, r) -> sane_world w2 ->
     quiet c1 w2 /\ (rely i c (c1.1, w2) -> Q r (c1.1, w2))) ->
  wp i (act f) Q E c.
Proof.
  intros HQ. apply wp_act. intros c1 w2 r Hr Hf Hs. destruct (HQ c1 w2 r Hr Hf Hs) as [Hq HQ'].
  pose proof (quiet_guar i c1 w2 (rely_inv _ _ _ _ _ Hr) Hq) as [Hg Hr2].
  split; [done|]. rewrite (quiet_after i c1 w2 Hq). apply HQ'. by eapply rely_trans.
Qed.

Lemma wp_quiet_block i {R} (f : World -> option (World * R)) (Q : R -> cfg -> Prop) E c :
  (forall c1 w2 r, rely i c c1 -> f c1.2 = Some (w2, r) -> sane_world w2 ->
     quiet c1 w2 /\ (rely i c (c1.1, w2) -> Q r (c1.1, w2))) ->
  wp i (act_block f) Q E c.
Proof.
  intros HQ. apply wp_act_block; [done|]. intros c1 w2 r Hr Hf Hs. destruct (HQ c1 w2 r Hr Hf Hs) as [Hq HQ'].
  pose proof (quiet_guar i c1 w2 (rely_inv _ _ _ _ _ Hr) Hq) as [Hg Hr2].
  split; [done|]. rewrite (quiet_after i c1 w2 Hq). apply HQ'. by eapply rely_trans.
Qed.

(** ** Kinds of quiet steps *)

Lemma quiet_refl c : inv c -> quiet c c.2.
Proof.
  intros Hinv. split; try apply Hinv; try done.
  - by left.
  - eauto.
Qed.

(** What was in flight may still be. *)
Lemma late_sub c (l : list Mutation) : inv c -> l ⊆ late (w_store c.2) -> Forall (harmless P c) l.
Proof.
  intros Hinv Hl. pose proof (inv_late _ _ _ Hinv) as Hh. rewrite Forall_forall in Hh |- *. auto.
Qed.

Lemma late_lingers c {R} m objs objs' l (r : Result R StoreError) : inv c -> harmless P c m ->
  lingers m objs objs' (late (w_store c.2)) l r -> Forall (harmless P c) l.
Proof.
  intros Hinv Hm [Hl|(e & _ & _ & _ & Hl)]; [by apply late_sub|].
  pose proof (inv_late _ _ _ Hinv) as Hh. rewrite Forall_forall in Hh |- *. intros m' Hin. apply Hl in Hin. set_solver.
Qed.

(** Only the store changes, and not its objects. *)
Lemma quiet_store c s : inv c -> store_sane s ->
  keeps store_wf store_sane known (w_store c.2) s -> contents s = contents (w_store c.2) ->
  Forall (harmless P c) (late s) -> quiet c (with_store s c.2).
Proof.
  intros Hinv Hsane (Hs & Hw & Hn & Hk) Hc Hlate. destruct (quiet_refl c Hinv).
  split; cbn [with_store w_store w_fs w_ids w_jobs]; rewrite ?Hc, ?Hn; try done.
  intros n p e d Hns Hp He Hf. apply Hk. by eapply (inv_cache_wal _ _ _ Hinv).
Qed.

(** Only the files change. *)
Lemma quiet_fs c fs : inv c ->
  cache_snaps_ok P ns (fs_files fs) (entries c.1) -> cache_wal_ok P ns (fs_files fs) (w_store c.2) ->
  quiet c (with_fs fs c.2).
Proof. intros Hinv Hs Hw. destruct (quiet_refl c Hinv). by split. Qed.

(** Only the threads change. *)
Lemma quiet_jobs c js : inv c ->
  (forall t j, js !! t = Some j -> job_ok P ns j c) ->
  (forall t j, w_jobs c.2 !! t = Some j -> exists j', js !! t = Some j' /\ j_args j' = j_args j) ->
  quiet c (with_jobs js c.2).
Proof. intros Hinv Hj Hk. destruct (quiet_refl c Hinv). by split. Qed.

(** ** Reads *)

Lemma wp_read i {R} (f : S -> R) (Q : R -> cfg -> Prop) E c :
  (forall c', rely i c c' -> Q (f (w_store c'.2)) c') ->
  wp i (request (fun s => (s, f s))) Q E c.
Proof.
  intros HQ. apply wp_quiet. intros c1 w2 r Hr Hf _. injection Hf as <- <-.
  assert (with_store (w_store c1.2) c1.2 = c1.2) as -> by by destruct c1 as [? []].
  split; [by eapply quiet_refl, rely_inv|]. intros Hr'. apply (HQ (c1.1, c1.2)). done.
Qed.

Lemma wp_get i k (Q : Result (option Stored) StoreError -> cfg -> Prop) E c :
  (forall r c', rely i c c' -> (forall o, r = Ok o -> o = contents (w_store c'.2) !! k) -> Q r c') ->
  wp i (request (get k)) Q E c.
Proof.
  intros HQ. apply wp_quiet. intros c1 w2 r Hr Hf Hs.
  pose proof (rely_inv _ _ _ _ _ Hr) as Hinv.
  destruct (get k (w_store c1.2)) as [s r'] eqn:Eg. injection Hf as <- <-.
  destruct (get_law k _ _ _ Eg (inv_wf _ _ _ Hinv) Hs) as (Hk & Hc & Hres).
  pose proof (get_late k _ _ _ Eg (inv_wf _ _ _ Hinv) Hs) as Hl.
  split; [by apply quiet_store; [..|apply late_sub]|]. intros Hr'. apply HQ; [done|]. cbn. rewrite Hc. exact Hres.
Qed.

(** What a conditional GET of the log object says about the world it ends in. *)
Definition got_ok (k : string) (e : option string) (r : Result CondGet StoreError) w : Prop :=
  match r with
  | Ok (Changed o) => contents (w_store w) !! k = Some o
  | Ok NotModified => exists v o, e = Some v /\ contents (w_store w) !! k = Some o /\ st_etag o = v
  | Ok Missing => contents (w_store w) !! k = None
  | Err _ => True
  end.

Lemma wp_get_if_changed i k e (Q : Result CondGet StoreError -> cfg -> Prop) E c :
  (forall r c', rely i c c' -> got_ok k e r c'.2 -> Q r c') ->
  wp i (request (get_if_changed k e)) Q E c.
Proof.
  intros HQ. apply wp_quiet. intros c1 w2 r Hr Hf Hs.
  pose proof (rely_inv _ _ _ _ _ Hr) as Hinv.
  destruct (get_if_changed k e (w_store c1.2)) as [s r'] eqn:Eg. injection Hf as <- <-.
  destruct (get_if_changed_law k e _ _ _ Eg (inv_wf _ _ _ Hinv) Hs) as (Hk & Hc & Hres).
  pose proof (get_if_changed_late k e _ _ _ Eg (inv_wf _ _ _ Hinv) Hs) as Hl.
  split; [by apply quiet_store; [..|apply late_sub]|]. intros Hr'. apply HQ; [done|]. unfold got_ok. cbn. by rewrite Hc.
Qed.

(** ** Threads *)

Lemma quiet_alter c t (h : Job -> Job) : inv c ->
  (forall j, w_jobs c.2 !! t = Some j -> job_ok P ns (h j) c /\ j_args (h j) = j_args j) ->
  quiet c (with_jobs (alter h t (w_jobs c.2)) c.2).
Proof.
  intros Hinv Hh. apply quiet_jobs; [done|..]; intros t' j Hj.
  - destruct (decide (t = t')) as [<-|Hne].
    + rewrite list_lookup_alter_eq in Hj. destruct (w_jobs c.2 !! t) as [j0|] eqn:E; [|done].
      cbn in Hj. injection Hj as <-. by apply Hh.
    + rewrite list_lookup_alter_ne in Hj by done. by eapply (inv_jobs _ _ _ Hinv).
  - destruct (decide (t = t')) as [<-|Hne].
    + rewrite list_lookup_alter_eq, Hj. eexists. split; [done|]. by apply Hh.
    + rewrite list_lookup_alter_ne by done. by eexists.
Qed.

(** A message that a handle takes from its channel. *)
Definition received_ok (t : CompactionTask) (o : option CompactOutcome) c : Prop :=
  forall f, o = Some (Done f) -> fold_ok P f c /\ exists j, w_jobs c.2 !! t = Some j
    /\ last_lsn (j_args j) = Some (f_lsn f).

Lemma take_msg c t j o : inv c -> w_jobs c.2 !! t = Some j -> j_msg j = Some o ->
  let w := with_jobs (alter (set_msg None) t (w_jobs c.2)) c.2 in
  quiet c w /\ received_ok t (Some o) (c.1, w).
Proof.
  intros Hinv Hj Hm w. destruct (inv_jobs _ _ _ Hinv t j Hj) as [Ha Hf].
  assert (quiet c w) as Hq.
  { apply quiet_alter; [done|]. intros j' Hj'. rewrite Hj in Hj'. injection Hj' as <-. done. }
  split; [done|]. intros f [= ->]. destruct (Hf f Hm) as [Hfold Hlast].
  destruct (quiet_inv _ _ Hinv Hq) as [Hi Hg]. split; [by eapply fold_ok_mono|].
  eexists. split; [cbn; by rewrite list_lookup_alter_eq, Hj|]. done.
Qed.

Lemma wp_try_recv i t (Q : TryRecv -> cfg -> Prop) E c :
  (forall r c', rely i c c' ->
     received_ok t (match r with TryOk o => Some o | _ => None end) c' -> Q r c') ->
  wp i (try_recv t) Q E c.
Proof.
  intros HQ. apply wp_quiet. intros c1 w2 r Hr Hf Hs.
  pose proof (rely_inv _ _ _ _ _ Hr) as Hinv.
  destruct (w_jobs c1.2 !! t) as [[a st [o|] [b|]]|] eqn:Ej; injection Hf as <- <-.
  1, 2: destruct (take_msg c1 t _ o Hinv Ej eq_refl) as [Hq Hrec]; split; [done|];
    intros Hr'; by apply HQ.
  all: split; [by apply quiet_refl|]; intros Hr'; apply HQ; [done|]; by intros f.
Qed.

Lemma wp_recv i t (Q : option CompactOutcome -> cfg -> Prop) E c :
  (forall r c', rely i c c' -> received_ok t r c' -> Q r c') -> wp i (recv t) Q E c.
Proof.
  intros HQ. apply wp_quiet_block. intros c1 w2 r Hr Hf Hs.
  pose proof (rely_inv _ _ _ _ _ Hr) as Hinv.
  destruct (w_jobs c1.2 !! t) as [[a st [o|] [b|]]|] eqn:Ej; try done; injection Hf as <- <-.
  1, 2: destruct (take_msg c1 t _ o Hinv Ej eq_refl) as [Hq Hrec]; split; [done|];
    intros Hr'; by apply HQ.
  all: split; [by apply quiet_refl|]; intros Hr'; apply HQ; [done|]; by intros f.
Qed.

Lemma wp_join i t (Q : bool -> cfg -> Prop) E c :
  (forall r c', rely i c c' -> Q r c') -> wp i (join t) Q E c.
Proof.
  intros HQ. apply wp_quiet_block. intros c1 w2 r Hr Hf Hs.
  pose proof (rely_inv _ _ _ _ _ Hr) as Hinv.
  assert (w2 = c1.2) as ->.
  { destruct (w_jobs c1.2 !! t) as [j|]; [destruct (j_ended j); [|done]|]; by injection Hf. }
  split; [by apply quiet_refl|]. intros Hr'. by apply HQ.
Qed.

Lemma wp_exit i t b (Q : unit -> cfg -> Prop) E c :
  (forall c', rely i c c' -> Q tt c') -> wp i (exit t b) Q E c.
Proof.
  intros HQ. apply wp_quiet. intros c1 w2 r Hr Hf Hs. injection Hf as <- <-.
  pose proof (rely_inv _ _ _ _ _ Hr) as Hinv. split; [|intros Hr'; by apply HQ].
  apply quiet_alter; [done|]. intros j Hj. split; [|done]. exact (inv_jobs _ _ _ Hinv t j Hj).
Qed.

(** A thread sends the fold of its own arguments. *)
Lemma wp_send i t a o (Q : unit -> cfg -> Prop) E c :
  (exists j, w_jobs c.2 !! t = Some j /\ j_args j = a) ->
  (forall f, o = Done f -> fold_ok P f c /\ last_lsn a = Some (f_lsn f)) ->
  (forall c', rely i c c' -> Q tt c') -> wp i (send t o) Q E c.
Proof.
  intros (j & Hj & Ha) Ho HQ. apply wp_quiet. intros c1 w2 r Hr Hf Hs. injection Hf as <- <-.
  pose proof Hr as (Hinv & Hg & _). split; [|intros Hr'; by apply HQ].
  destruct (grows_jobs _ _ _ Hg t j Hj) as (j1 & Hj1 & Ha1).
  apply quiet_alter; [done|]. intros j' Hj'. assert (j' = j1) as -> by congruence.
  split; [|done]. destruct (inv_jobs _ _ _ Hinv t j1 Hj1) as [Hargs _]. split; [done|].
  intros f [= ->]. destruct (Ho f eq_refl) as [Hfold Hlast].
  split; [by eapply fold_ok_mono|]. cbn. congruence.
Qed.

Lemma wp_spawn i a (Q : Result CompactionTask string -> cfg -> Prop) E c :
  args_ok P ns a (entries c.1) ->
  (forall r c', rely i c c' ->
     (forall t, r = Ok t -> exists j, w_jobs c'.2 !! t = Some j /\ j_args j = a) -> Q r c') ->
  wp i (spawn a) Q E c.
Proof.
  intros Ha HQ. apply wp_quiet. intros c1 w2 r Hr Hf Hs.
  pose proof Hr as (Hinv & Hg & _). destruct (quiet_refl c1 Hinv).
  assert (job_ok P ns (mkJob a false None None) c1) as Hnew.
  { split; [|done]. eapply args_ok_mono; [by eapply entries_mono|done]. }
  assert (forall sp, quiet c1 (mkWorld (w_store c1.2) (w_fs c1.2) (w_ids c1.2) sp
    (w_jobs c1.2 ++ [mkJob a false None None]))) as Hq.
  { intros sp. split; try done.
    - intros t j Hj. apply lookup_app_Some in Hj as [Hj|[_ Hj]]; [by eapply q_jobs0|].
      destruct (t - _)%nat as [|n]; [|by destruct n]. cbn in Hj. injection Hj as <-. done.
    - intros t j Hj. exists j. split; [|done]. cbn. by apply lookup_app_l_Some. }
  assert (forall sp, quiet c1 (mkWorld (w_store c1.2) (w_fs c1.2) (w_ids c1.2) sp (w_jobs c1.2))) as Hq'.
  { intros sp. by split. }
  assert (forall sp, exists j, (w_jobs c1.2 ++ [mkJob a false None None]) !! length (w_jobs c1.2) = Some j
    /\ j_args j = a /\ sp = sp :> list (option string)) as Hlook.
  { intros sp. eexists. rewrite lookup_app_r, Nat.sub_diag by lia. done. }
  destruct (w_spawn c1.2) as [|[e|] rest]; injection Hf as <- <-.
  - split; [apply Hq|]. intros Hr'. apply HQ; [done|]. intros t [= <-]. cbn.
    by destruct (Hlook []) as (j & ? & ? & _); exists j.
  - split; [apply Hq'|]. intros Hr'. by apply HQ.
  - split; [apply Hq|]. intros Hr'. apply HQ; [done|]. intros t [= <-]. cbn.
    by destruct (Hlook []) as (j & ? & ? & _); exists j.
Qed.

Lemma wp_next_random i (Q : option bytes -> cfg -> Prop) E c :
  (forall r c', rely i c c' -> (forall id, r = Some id -> length id = 16%nat) -> Q r c') ->
  wp i next_random Q E c.
Proof.
  intros HQ. apply wp_quiet. intros c1 w2 r Hr Hf Hs.
  pose proof (rely_inv _ _ _ _ _ Hr) as Hinv. destruct (quiet_refl c1 Hinv).
  destruct (w_ids c1.2) as [|o ids] eqn:E1; injection Hf as <- <-.
  - split; [by apply quiet_refl|]. intros Hr'. by apply HQ.
  - apply Forall_cons in q_ids0 as [Ho Hids]. split; [by split|]. intros Hr'. by apply HQ.
Qed.

End steps.
