(* ===== verification/StepsCache.v ===== *)
(** * Cache operations under the protocol

    Loads return what the protocol recorded; saves of true records, removals
    and retention keep the cache invariant, whatever I/O fails. *)

From S2P Require Import Prelude Fmt Utf8 Error Image ImageCodec App Proc Atomic AtomicProps Cache CacheChecksum CacheProps CacheTheorems Store World Core Compactor Writer Protocol Invariant Steps.

(** The strings of a log fit in memory, as Rust strings do. *)
Class LogNames (P : string) (ns : option string) : Prop := {
  prefix_utf8 : is_utf8 P;
  prefix_len : str_len P + 64 <= ISIZE_MAX;
  ns_len : forall n, ns = Some n -> sane_str n;
}.

Section steps_cache.
Context {S : Type} `{ObjectStoreLaws S} `{WalAppLaws}.
Variable P : string.
Variable ns : option string.
Context `{!LogNames P ns}.
Abbreviation World := (World S).
Abbreviation cfg := (History * World)%type.
Abbreviation inv := (inv P ns).
Abbreviation rely := (rely P ns).
Abbreviation wp := (pwp P ns).
Implicit Types (w : World) (c : cfg).

Lemma wkey_sane : sane_str (wkey P).
Proof. unfold sane_str, wkey. rewrite str_len_app. change (str_len "wal") with 3. pose proof prefix_len. lia. Qed.

Lemma snap_key_sane k L : snap_key_at P k L -> sane_str k.
Proof. intros Hk. unfold sane_str. rewrite (snap_key_len _ _ _ Hk). pose proof prefix_len. lia. Qed.

Lemma wal_sane : sane_str "wal".
Proof. by vm_compute. Qed.

Lemma wal_not_snap L : ~ snap_key_at P "wal" L.
Proof.
  intros Hk. pose proof (snap_key_len _ _ _ Hk) as Hl. change (str_len "wal") with 3 in Hl.
  unfold str_len in Hl. pose proof (zlen_nonneg (as_bytes P)). lia.
Qed.

Lemma ns_sane n : ns = Some n -> sane_str n.
Proof. apply ns_len. Qed.

#[local] Hint Resolve wkey_sane snap_key_sane wal_sane ns_sane : waltier.

(** [h] keeps true records true, in every later world. *)
Definition safe_fs (h : Fs -> Fs) c : Prop := forall c1, inv c1 -> grows P c c1 ->
  cache_snaps_ok P ns (fs_files (h (w_fs c1.2))) (entries c1.1)
  /\ cache_wal_ok P ns (fs_files (h (w_fs c1.2))) (w_store c1.2).

Lemma safe_sub h c : (forall fs, fs_files (h fs) ⊆ fs_files fs) -> safe_fs h c.
Proof.
  intros Hsub c1 Hinv _. split.
  - intros n p k L d Hn Hp Hk Hf. eapply (inv_cache_snaps _ _ _ Hinv); [done..|].
    by eapply lookup_weaken.
  - intros n p e d Hn Hp He Hf. eapply (inv_cache_wal _ _ _ Hinv); [done..|].
    by eapply lookup_weaken.
Qed.

Lemma safe_remove ca k c : safe_fs (remove_snapshot ca k) c.
Proof. apply safe_sub, remove_snapshot_sub. Qed.

Lemma safe_save_snapshot ca k L d c : cache_ok P ns ca -> snap_key_at P k L ->
  good_snapshot d L (entries c.1) -> safe_fs (save_snapshot ca k d) c.
Proof.
  intros Hca Hk Hd c1 Hinv Hg.
  assert (forall q, not_tmp q ->
    fs_files (save_snapshot ca k d (w_fs c1.2)) !! q = fs_files (w_fs c1.2) !! q
    \/ exists n, ns = Some n /\ fs_files (save_snapshot ca k d (w_fs c1.2)) !! q
      = Some (record_file (as_bytes (identity_of n (wkey P))) (as_bytes k) d)) as Hat.
  { intros q Hq. destruct (save_snapshot_at ca k d (w_fs c1.2) q Hq) as [?|(_ & id & Hid & Hf)]; [by left|].
    right. destruct Hca as [?|(n & Hn & Hid')]; [congruence|]. exists n. split; [done|].
    rewrite Hf. congruence. }
  split.
  - intros n p k' L' d' Hn Hp Hk' Hf. destruct (Hat p Hp) as [Heq|(n' & Hn' & Heq)]; rewrite Heq in Hf.
    + by eapply (inv_cache_snaps _ _ _ Hinv).
    + apply (inj Some) in Hf. assert (n' = n) as -> by congruence.
      apply record_file_inj in Hf as (_ & _ & <- & <-);
        [|by eauto with waltier..].
      rewrite (snap_key_fun _ _ _ _ Hk' Hk).
      eapply good_snapshot_mono; [|done]. by eapply entries_mono.
  - intros n p e d' Hn Hp He Hf. destruct (Hat p Hp) as [Heq|(n' & Hn' & Heq)]; rewrite Heq in Hf.
    + by eapply (inv_cache_wal _ _ _ Hinv).
    + apply (inj Some) in Hf.
      apply record_file_inj in Hf as (_ & _ & -> & _);
        [by apply wal_not_snap in Hk
        |by eauto with waltier..].
Qed.

Lemma safe_save_wal ca e d c : cache_ok P ns ca -> known (w_store c.2) (wkey P) e d ->
  safe_fs (save_wal ca e d) c.
Proof.
  intros Hca Hd c1 Hinv Hg.
  assert (forall q, not_tmp q ->
    fs_files (save_wal ca e d (w_fs c1.2)) !! q = fs_files (w_fs c1.2) !! q
    \/ exists n, ns = Some n /\ str_len e <= U16_MAX /\ fs_files (save_wal ca e d (w_fs c1.2)) !! q
      = Some (record_file (as_bytes (identity_of n (wkey P))) (as_bytes "wal") (wal_data e d))) as Hat.
  { intros q Hq. destruct (save_wal_at ca e d (w_fs c1.2) q Hq) as [?|(_ & He & id & Hid & Hf)]; [by left|].
    right. destruct Hca as [?|(n & Hn & Hid')]; [congruence|]. exists n. split_and!; [done..|].
    rewrite Hf. congruence. }
  split.
  - intros n p k' L' d' Hn Hp Hk' Hf. destruct (Hat p Hp) as [Heq|(n' & Hn' & _ & Heq)]; rewrite Heq in Hf.
    + by eapply (inv_cache_snaps _ _ _ Hinv).
    + apply (inj Some) in Hf.
      apply record_file_inj in Hf as (_ & _ & <- & _);
        [by apply wal_not_snap in Hk'
        |by eauto with waltier..].
  - intros n p e' d' Hn Hp He Hf. destruct (Hat p Hp) as [Heq|(n' & Hn' & He' & Heq)]; rewrite Heq in Hf.
    + by eapply (inv_cache_wal _ _ _ Hinv).
    + apply (inj Some) in Hf.
      apply record_file_inj in Hf as (_ & _ & _ & Hf);
        [|by eauto with waltier..].
      apply wal_data_inj in Hf as [-> ->]; [|done..]. by apply (grows_known _ _ _ Hg).
Qed.

Lemma wp_on_fs_ i h (Q : unit -> cfg -> Prop) E c :
  safe_fs h c -> (forall c', rely i c c' -> Q tt c') -> wp i (on_fs_ h) Q E c.
Proof.
  intros Hh HQ. apply wp_quiet. intros c1 w2 r Hr Hf _. injection Hf as <- <-.
  pose proof Hr as (Hinv & Hg & _). destruct (Hh c1 Hinv Hg) as [Hs Hw].
  split; [by apply quiet_fs|]. intros Hr'. by apply HQ.
Qed.

(** An operation that only removes files. *)
Lemma wp_on_fs_sub i {R} (h : Fs -> Fs * R) (Q : R -> cfg -> Prop) E c :
  (forall fs, fs_files (h fs).1 ⊆ fs_files fs) -> (forall r c', rely i c c' -> Q r c') -> wp i (on_fs h) Q E c.
Proof.
  intros Hh HQ. apply wp_quiet. intros c1 w2 r Hr Hf _. destruct (h (w_fs c1.2)) as [fs o] eqn:Eh. injection Hf as <- <-.
  pose proof Hr as (Hinv & Hg & _). destruct (safe_sub (fun fs => (h fs).1) c Hh c1 Hinv Hg) as [Hs Hw].
  rewrite Eh in Hs, Hw. split; [by apply quiet_fs|]. intros Hr'. by apply HQ.
Qed.

Lemma read_dir_files d fs : fs_files (read_dir d fs).1 = fs_files fs.
Proof. unfold read_dir. pose proof (draw_files fs). destruct (draw fs) as [[?|] ?]; done. Qed.

Lemma wp_sweep_cache i keep entries (Q : unit -> cfg -> Prop) E c :
  inv c -> (forall c', rely i c c' -> Q tt c') -> wp i (sweep_cache keep entries) Q E c.
Proof.
  revert c. induction entries as [|p entries IH]; intros c Hinv HQ; cbn [sweep_cache]; [by apply HQ, rely_refl|].
  destruct (_ && _); [|by apply IH]. apply wp_bind, wp_on_fs_sub; [intros fs; apply remove_file_sub|].
  intros _ c1 Hr. apply IH; [by apply (rely_inv _ _ _ _ _ Hr)|]. intros c2 Hr2. apply HQ. by eapply rely_trans.
Qed.

Lemma wp_retain_cache i ca keep (Q : unit -> cfg -> Prop) E c :
  inv c -> (forall c', rely i c c' -> Q tt c') -> wp i (retain_cache ca keep) Q E c.
Proof.
  intros Hinv HQ. unfold retain_cache. destruct (c_identity ca); [|by apply HQ, rely_refl].
  apply wp_bind, wp_on_fs_sub; [intros fs; by rewrite read_dir_files|].
  intros [entries|e] c1 Hr; [|by apply HQ]. apply wp_sweep_cache; [by apply (rely_inv _ _ _ _ _ Hr)|].
  intros c2 Hr2. apply HQ. by eapply rely_trans.
Qed.

(** Alone, it is the operation of the cache in one step. *)
Lemma retain_cache_alone ca keep (w : World) :
  run (retain_cache ca keep) w = Some (with_fs (retain_snapshot ca keep (w_fs w)) w, Returned tt).
Proof.
  assert (forall w : World, with_fs (w_fs w) w = w) as Hid by by intros [].
  unfold retain_cache, retain_snapshot. destruct (c_identity ca) as [id|]; [|by cbn; rewrite Hid].
  cbn. destruct (read_dir (c_dir ca) (w_fs w)) as [fs [entries|e]]; [|done]. cbn.
  revert fs. induction entries as [|p entries IH]; intros fs; [done|]. cbn [sweep_cache fold_left].
  destruct (_ && _); [|by apply IH]. cbn. destruct (remove_file p fs) as [fs' r]. cbn. apply IH.
Qed.

(** An optional cache write in front of the rest. *)
Lemma wp_fs_if i (b : bool) h {A} (k : unit -> proc World A) (Q : A -> cfg -> Prop) E c :
  inv c -> (b = true -> safe_fs h c) -> (forall c', rely i c c' -> wp i (k tt) Q E c') ->
  wp i (let! x := (if b then on_fs_ h else Ret tt) in k x) Q E c.
Proof.
  intros Hinv Hh Hk. destruct b.
  - apply wp_bind, wp_on_fs_; [by apply Hh|]. exact Hk.
  - cbn [bind]. apply Hk. by apply rely_refl.
Qed.

(** ** Loads *)

Lemma quiet_same_files c fs : inv c -> fs_files fs = fs_files (w_fs c.2) -> quiet P ns c (with_fs fs c.2).
Proof. intros Hinv Hf. apply quiet_fs; [done|..]; rewrite Hf; apply Hinv. Qed.

Lemma wp_load_snapshot i ca k L max (Q : option bytes -> cfg -> Prop) E c :
  cache_ok P ns ca -> snap_key_at P k L ->
  (forall r c', rely i c c' ->
     (forall d, r = Some d -> good_snapshot d L (entries c'.1) /\ zlen d <= max) -> Q r c') ->
  wp i (on_fs (load_snapshot ca k max)) Q E c.
Proof.
  intros Hca Hk HQ. apply wp_quiet. intros c1 w2 r Hr Hf _.
  destruct (load_snapshot ca k max (w_fs c1.2)) as [fs o] eqn:El. injection Hf as <- <-.
  pose proof (rely_inv _ _ _ _ _ Hr) as Hinv.
  apply load_snapshot_spec in El as [Hfs Hd]; [|by eapply snap_key_sane].
  split; [by apply quiet_same_files|]. intros Hr'. apply HQ; [done|].
  intros d Hsome. destruct (Hd d Hsome) as (id & Hid & Hfile & Hlen). split; [|done].
  destruct Hca as [?|(n & Hn & Hid')]; [congruence|]. rewrite Hid in Hid'. injection Hid' as ->.
  eapply (inv_cache_snaps _ _ _ Hinv); [done| |done|done].
  intros t Ht. by apply snap_path_not_tmp.
Qed.

Lemma wp_load_wal i ca max (Q : option (string * bytes) -> cfg -> Prop) E c :
  cache_ok P ns ca ->
  (forall r c', rely i c c' ->
     (forall e d, r = Some (e, d) -> known (w_store c'.2) (wkey P) e d) -> Q r c') ->
  wp i (on_fs (load_wal ca max)) Q E c.
Proof.
  intros Hca HQ. apply wp_quiet. intros c1 w2 r Hr Hf _.
  destruct (load_wal ca max (w_fs c1.2)) as [fs o] eqn:El. injection Hf as <- <-.
  pose proof (rely_inv _ _ _ _ _ Hr) as Hinv. apply load_wal_spec in El as [Hfs Hd].
  split; [by apply quiet_same_files|]. intros Hr'. apply HQ; [done|].
  intros e d Hsome. destruct (Hd e d Hsome) as (id & Hid & Hfile & _ & _ & Hlen).
  destruct Hca as [?|(n & Hn & Hid')]; [congruence|]. rewrite Hid in Hid'. injection Hid' as ->.
  eapply (inv_cache_wal _ _ _ Hinv); [done| |done|done].
  intros t Ht. by apply wal_path_not_tmp.
Qed.

Lemma wp_cache_new i dir n (Q : Cache -> cfg -> Prop) E c :
  n = ns -> (forall ca c', rely i c c' -> cache_ok P ns ca -> Q ca c') ->
  wp i (on_fs (cache_new dir n (wkey P))) Q E c.
Proof.
  intros -> HQ. apply wp_quiet. intros c1 w2 r Hr Hf _.
  destruct (cache_new dir ns (wkey P) (w_fs c1.2)) as [fs ca] eqn:En. injection Hf as <- <-.
  assert (fs_files fs = fs_files (w_fs c1.2) /\ cache_ok P ns ca) as [Hfs Hca].
  { unfold cache_new in En. destruct ns as [n|]; [|injection En as <- <-; by split; [|left]].
    unfold create_dir_all in En. pose proof (draw_files (w_fs c1.2)) as Hd.
    destruct (draw _) as [[f|] fs1]; injection En as <- <-; (split; [done|]); [by left|].
    right. by exists n. }
  split; [apply quiet_same_files; [by eapply rely_inv|done]|]. intros Hr'. by apply HQ.
Qed.

(** ** Fetching a snapshot *)

(** The errors that contention, budgets and the store explain. *)
Definition benign (e : WalError) : Prop :=
  match e with
  | LimitExceeded _ _ _ | StoreFailure _ | Contention _ _ | LsnExhausted | InvalidOptions _ => True
  | _ => False
  end.

Lemma wp_fetch_snapshot i ca k L max (Q : Result (option bytes) WalError -> cfg -> Prop) E c :
  cache_ok P ns ca -> snap_key_at P k L ->
  (forall r c', rely i c c' ->
     match r with
     | Ok (Some d) => good_snapshot d L (entries c'.1)
     | Ok None => pinned P k c.2 -> dead P k c'.2
     | Err e => benign e
     end -> Q r c') ->
  wp i (fetch_snapshot ca k max) Q E c.
Proof.
  intros Hca Hk HQ. unfold fetch_snapshot. apply wp_bind.
  eapply wp_load_snapshot; [done..|]. intros r c1 Hr1 Hload. destruct r as [d|].
  { destruct (Hload d eq_refl) as [Hgood Hlen]. cbn. rewrite check_limit_le by done. cbn.
    by apply HQ. }
  apply wp_bind, wp_get. intros r c2 Hr2 Hget.
  pose proof (rely_trans _ _ _ _ _ _ Hr1 Hr2) as Hr. pose proof Hr as (Hinv & Hg & _).
  destruct r as [[o|]|e]; [| |by apply HQ].
  - specialize (Hget _ eq_refl). destruct (check_limit_cases "snapshot bytes" (zlen (st_data o)) max)
      as [[-> Hle]|[-> _]]; [|by apply HQ].
    assert (good_snapshot (st_data o) L (entries c2.1)) as Hgood by by eapply (inv_snaps _ _ _ Hinv).
    apply wp_bind, wp_on_fs_; [by eapply safe_save_snapshot|]. intros c3 Hr3. apply HQ.
    + by eapply rely_trans.
    + eapply good_snapshot_mono; [|done]. by eapply entries_mono, rely_grows.
  - specialize (Hget _ eq_refl). apply HQ; [done|]. intros Hpin.
    pose proof (pinned_mono _ _ _ _ _ _ Hinv Hg Hk Hpin) as [[o Ho]|Hd]; [congruence|done].
Qed.

End steps_cache.
