(* ===== verification/StepsStore.v ===== *)
(** * Mutations of the store under the protocol

    Publishing a snapshot, deleting a dead one, and the two requests that
    change the log object: its creation and the compare-and-swap that commits
    a batch, installs a fold, or both. *)

From S2P Require Import Prelude Fmt Utf8 Error Image ImageCodec App Proc Atomic AtomicProps Cache CacheChecksum CacheProps CacheTheorems Store World Core Compactor Writer Protocol Invariant Steps StepsCache.

(** What a winning request adds to the history. *)
Definition batch_of (i : nat) (extra : list bytes) : History :=
  match extra with [] => [] | _ => [(i, extra)] end.
Definition batches (extra : list bytes) : list (list bytes) :=
  match extra with [] => [] | _ => [extra] end.

Lemma entries_batch_of i extra : entries (batch_of i extra) = extra.
Proof. destruct extra as [|e es]; [done|]. unfold entries. cbn. by rewrite app_nil_r. Qed.

Lemma mine_batch_of i j extra : mine j (batch_of i extra) = if decide (i = j) then batches extra else [].
Proof. destruct extra; [by destruct (decide _)|]. apply mine_one. Qed.

Section steps_store.
Context {S : Type} `{ObjectStoreLaws S} `{WalAppLaws}.
Variable P : string.
Variable ns : option string.
Context `{!LogNames P ns}.
Abbreviation World := (World S).
Abbreviation cfg := (History * World)%type.
Abbreviation inv := (inv P ns).
Abbreviation rely := (rely P ns).
Abbreviation guar := (guar P ns).
Abbreviation wp := (pwp P ns).
Implicit Types (w : World) (c : cfg).

(** ** Snapshots *)

Lemma quiet_put_snapshot c s k L d etag : inv c -> store_sane s ->
  keeps store_wf store_sane known (w_store c.2) s ->
  snap_key_at P k L -> good_snapshot d L (entries c.1) ->
  contents s = <[k := mkStored d etag]> (contents (w_store c.2)) -> Forall (harmless P c) (late s) ->
  quiet P ns c (with_store s c.2).
Proof.
  intros Hinv Hsane (Hs & Hw & Hn & Hk) Hkey Hd Hc Hlate. destruct (quiet_refl P ns c Hinv).
  pose proof (snap_key_not_wal _ _ _ Hkey) as Hne.
  split; cbn [with_store w_store w_fs w_ids w_jobs]; rewrite ?Hc, ?Hn; try done.
  - by rewrite lookup_insert_ne.
  - intros k' L' _ Ho. left. destruct (decide (k = k')) as [<-|Hne'].
    + by rewrite lookup_insert_eq.
    + by rewrite lookup_insert_ne.
  - intros k' L' o Ho Hk'. apply lookup_insert_Some in Ho as [[<- <-]|[_ Ho]]; [|by eapply q_snaps].
    cbn. by rewrite (snap_key_fun _ _ _ _ Hk' Hkey).
  - intros n p e d' Hns Hp He Hf. apply Hk. by eapply (inv_cache_wal _ _ _ Hinv).
Qed.

Lemma wp_put_snapshot i k L d (Q : Result CondPut StoreError -> cfg -> Prop) E c :
  snap_key_at P k L -> good_snapshot d L (entries c.1) ->
  (forall r c', rely i c c' -> (forall e, r = Ok (PutOk e) -> pinned P k c'.2) -> Q r c') ->
  wp i (request (put_if_match k None d)) Q E c.
Proof.
  intros Hkey Hd HQ. apply wp_quiet. intros c1 w2 r Hr Hf Hs. pose proof Hr as (Hinv & Hg & _).
  destruct (put_if_match k None d (w_store c1.2)) as [s r'] eqn:Ep. injection Hf as <- <-.
  destruct (put_if_match_law k None d _ _ _ Ep (inv_wf _ _ _ Hinv) Hs) as [Hk Hres].
  assert (good_snapshot d L (entries c1.1)) as Hd1.
  { eapply good_snapshot_mono; [|done]. by eapply entries_mono. }
  assert (Forall (harmless P c1) (late s)) as Hlate.
  { eapply late_lingers; [done| |exact (put_if_match_late k None d _ _ _ Ep (inv_wf _ _ _ Hinv) Hs)]. by eapply harmless_snapshot. }
  assert (contents s = contents (w_store c1.2) -> quiet P ns c1 (with_store s c1.2)) as Hsame
    by (intros; by apply quiet_store).
  assert (forall etag, cas_applied (contents (w_store c1.2)) (contents s) k None d etag ->
    quiet P ns c1 (with_store s c1.2)) as Happ
    by (intros etag [_ ?]; by eapply quiet_put_snapshot).
  destruct r' as [[etag|]|e].
  - split; [by eapply Happ|]. intros Hr'. apply HQ; [done|]. intros e' [= <-]. left. cbn.
    destruct Hres as [_ ->]. by rewrite lookup_insert_eq.
  - split; [by apply Hsame|]. intros Hr'. by apply HQ.
  - split; [|intros Hr'; by apply HQ]. destruct Hres as [?|(_ & etag & ?)]; [by apply Hsame|by eapply Happ].
Qed.

Lemma quiet_delete c s k : inv c -> store_sane s ->
  keeps store_wf store_sane known (w_store c.2) s -> dead P k c.2 ->
  contents s = delete k (contents (w_store c.2)) -> Forall (harmless P c) (late s) -> quiet P ns c (with_store s c.2).
Proof.
  intros Hinv Hsane (Hs & Hw & Hn & Hk) Hdead Hc Hlate. destruct (quiet_refl P ns c Hinv).
  assert (k <> wkey P) as Hne by (destruct Hdead as (L & _ & Hkey & _); by eapply snap_key_not_wal).
  split; cbn [with_store w_store w_fs w_ids w_jobs]; rewrite ?Hc, ?Hn; try done.
  - by rewrite lookup_delete_ne.
  - intros k' L' _ Ho. destruct (decide (k = k')) as [<-|Hne']; [by right|].
    left. by rewrite lookup_delete_ne.
  - intros k' L' o Ho Hk'. apply lookup_delete_Some in Ho as [_ Ho]. by eapply q_snaps.
  - intros n p e d' Hns Hp He Hf. apply Hk. by eapply (inv_cache_wal _ _ _ Hinv).
Qed.

Lemma wp_delete_dead i k (Q : Result unit StoreError -> cfg -> Prop) E c :
  dead P k c.2 -> (forall r c', rely i c c' -> Q r c') -> wp i (request (delete_object k)) Q E c.
Proof.
  intros Hdead HQ. apply wp_quiet. intros c1 w2 r Hr Hf Hs. pose proof Hr as (Hinv & Hg & _).
  destruct (delete_object k (w_store c1.2)) as [s r'] eqn:Ep. injection Hf as <- <-.
  destruct (delete_law k _ _ _ Ep (inv_wf _ _ _ Hinv) Hs) as [Hk Hres].
  pose proof (dead_mono _ _ _ _ _ Hinv Hg Hdead) as Hdead1.
  assert (Forall (harmless P c1) (late s)) as Hlate.
  { eapply late_lingers; [done| |exact (delete_late k _ _ _ Ep (inv_wf _ _ _ Hinv) Hs)]. by constructor. }
  split; [|intros Hr'; by apply HQ].
  destruct r' as [[]|e].
  - by eapply quiet_delete.
  - destruct Hres as [Hc|[_ Hc]]; [by apply quiet_store|by eapply quiet_delete].
Qed.

(** ** The log object *)

(** What a new log object must be for the step that stores it. *)
Record successor (c : cfg) (im : WalImage) (extra : list bytes) : Prop := {
  suc_wf : wf_image im;
  suc_window : window im (entries c.1 ++ extra);
  suc_first : first_lsn im <= zlen (entries c.1);
  suc_next : next_lsn im = zlen (entries c.1) + zlen extra;
  suc_ok : Forall entry_ok extra;
  suc_live : forall sr, img_snapshot im = Some sr ->
    snap_key_at P (sr_key sr) (sr_lsn sr) /\ is_Some (contents (w_store c.2) !! sr_key sr);
  suc_ref : forall sr, snap_ref P c.2 = Some sr ->
    exists sr', img_snapshot im = Some sr' /\ (sr' = sr \/ sr_lsn sr < sr_lsn sr');
}.

Lemma record_successor i c im extra w' : inv c -> successor c im extra -> cur P w' = Some im ->
  record P i c.1 c.2 w' = c.1 ++ batch_of i extra.
Proof.
  intros Hinv Hs Hcur. unfold record. rewrite Hcur, (inv_log_next _ _ _ Hinv), (suc_next _ _ _ Hs).
  destruct extra as [|e es].
  - rewrite (@zlen_nil bytes), Z.add_0_r, Z.ltb_irrefl. cbn. by rewrite app_nil_r.
  - rewrite zlen_cons. pose proof (zlen_nonneg es).
    destruct (Z.ltb_spec (zlen (entries c.1)) (zlen (entries c.1) + (1 + zlen es))); [|lia].
    cbn [batch_of]. do 3 f_equal.
    destruct (suc_window _ _ _ Hs) as (pre & post & Hw & Hp).
    pose proof (next_lsn_wf im (suc_wf _ _ _ Hs)) as [Hn _].
    pose proof (suc_next _ _ _ Hs) as Hn'. pose proof (suc_first _ _ _ Hs) as Hf.
    assert (post = []) as ->.
    { apply zlen_0_nil. apply (f_equal zlen) in Hw. rewrite !zlen_app in Hw. lia. }
    rewrite app_nil_r in Hw.
    apply (f_equal (drop (Z.to_nat (zlen (entries c.1))))) in Hw.
    rewrite drop_zlen_app in Hw. rewrite Hw, <- Hp.
    rewrite drop_app_ge by zlia. f_equal. unfold zlen. lia.
Qed.

Lemma install_inv i c s etag im extra : inv c -> store_sane s ->
  keeps store_wf store_sane known (w_store c.2) s -> successor c im extra -> Forall (harmless P c) (late s) ->
  contents s = <[wkey P := mkStored (emitted im) etag]> (contents (w_store c.2)) ->
  let c' := (c.1 ++ batch_of i extra, with_store s c.2) in
  inv c' /\ grows P c c' /\ cur P c'.2 = Some im.
Proof.
  intros Hinv Hsane (Hs & Hw & Hn & Hk) Hsuc Hlate Hc c'.
  assert (entries c'.1 = entries c.1 ++ extra) as Hent by (unfold c'; cbn [fst]; by rewrite entries_app, entries_batch_of).
  assert (entries c.1 `prefix_of` entries c'.1) as Hpre by (rewrite Hent; by eexists).
  assert (parse (mkStored (emitted im) etag) = Some im) as Hparse by (apply parse_Some; split; [done|apply Hsuc]).
  assert (cur P c'.2 = Some im) as Hcur.
  { unfold cur. cbn. rewrite Hc, lookup_insert_eq. exact Hparse. }
  assert (snap_ref P c'.2 = img_snapshot im) as Href by (unfold snap_ref; by rewrite Hcur).
  assert (forall k, dead P k c.2 -> dead P k c'.2) as Hdead.
  { intros k. apply dead_advance; rewrite Href; [apply Hsuc|]. intros sr Hsr. by apply (suc_live _ _ _ Hsuc). }
  assert (forall k L, snap_key_at P k L -> pinned P k c.2 -> pinned P k c'.2) as Hpin.
  { intros k L Hkey [Hsome|Hd]; [left|right; by apply Hdead]. cbn. rewrite Hc.
    rewrite lookup_insert_ne; [done|]. intros <-. by eapply snap_key_not_wal. }
  assert (grows P c c') as Hg.
  { split; [by eexists|done|by rewrite Hcur| | |].
    - intros sr Hsr. rewrite Href. by apply (suc_ref _ _ _ Hsuc).
    - intros k L Hkey Hsome. eapply Hpin; [done|by left].
    - intros t j Hj. by exists j. }
  split_and!; [split|done|done].
  - done.
  - done.
  - cbn. rewrite Hn. apply Hinv.
  - rewrite Hent. apply Forall_app. split; [apply Hinv|apply Hsuc].
  - unfold current_ok. cbn [c' snd with_store w_store]. rewrite Hc, lookup_insert_eq. exists im.
    rewrite Hent, zlen_app. split_and!; [done|apply Hsuc|apply Hsuc|].
    intros sr Hsr. destruct (suc_live _ _ _ Hsuc sr Hsr) as [Hkey Hsome]. split; [done|].
    rewrite lookup_insert_ne; [done|]. intros Heq. by eapply snap_key_not_wal.
  - intros k L o Ho Hkey. cbn in Ho. rewrite Hc in Ho.
    apply lookup_insert_Some in Ho as [[<- _]|[_ Ho]]; [by apply snap_key_not_wal in Hkey|].
    eapply good_snapshot_mono; [done|]. by eapply (inv_snaps _ _ _ Hinv).
  - intros n p k L d Hns Hp Hkey Hf. eapply good_snapshot_mono; [done|].
    by eapply (inv_cache_snaps _ _ _ Hinv).
  - intros n p e d Hns Hp He Hf. apply Hk. by eapply (inv_cache_wal _ _ _ Hinv).
  - apply Hinv.
  - intros t j Hj. destruct (inv_jobs _ _ _ Hinv t j Hj) as [Ha Hm]. split.
    + by eapply args_ok_mono.
    + intros f Hf. destruct (Hm f Hf) as ((Hkey & Hl & Hp) & Hlast). split; [|done].
      split_and!; [done| |by eapply Hpin]. rewrite Hent, zlen_app. pose proof (zlen_nonneg extra). lia.
  - eapply Forall_impl; [exact Hlate|]. intros m. by apply harmless_secures.
Qed.

Lemma install_guar i c s etag im extra : inv c -> store_sane s ->
  keeps store_wf store_sane known (w_store c.2) s -> successor c im extra -> Forall (harmless P c) (late s) ->
  contents s = <[wkey P := mkStored (emitted im) etag]> (contents (w_store c.2)) ->
  let c' := (c.1 ++ batch_of i extra, with_store s c.2) in
  after (record P) i c (with_store s c.2) = c' /\ guar i c c'
  /\ inv c' /\ grows P c c' /\ cur P c'.2 = Some im /\ seen P im etag c'.
Proof.
  intros Hinv Hsane Hkeep Hsuc Hlate Hc c'.
  destruct (install_inv i c s etag im extra Hinv Hsane Hkeep Hsuc Hlate Hc) as (Hi & Hg & Hcur).
  assert (after (record P) i c (with_store s c.2) = c') as Ha.
  { unfold after, c'. f_equal. by apply (record_successor i c im). }
  destruct (seen_now P ns c' (mkStored (emitted im) etag)) as (im' & _ & Hcur' & Hseen & _); [done| |].
  { cbn. by rewrite Hc, lookup_insert_eq. }
  assert (im' = im) as -> by (cbn in Hcur, Hcur'; congruence).
  split_and!; [done| |done..]. split_and!; [done..|].
  intros j Hj. unfold c'. cbn [fst]. rewrite mine_app, mine_batch_of. destruct (decide (i = j)); [congruence|].
  by rewrite app_nil_r.
Qed.

(** [extra] was the only batch that thread [i] committed between [c] and [c'],
    and it stands at the position where [im] ends. *)
Definition commits (i : nat) (c c' : cfg) (im : WalImage) (extra : list bytes) : Prop :=
  inv c' /\ grows P c c' /\ mine i c'.1 = mine i c.1 ++ batches extra
  /\ exists g later, c.1 `prefix_of` g /\ zlen (entries g) = next_lsn im
       /\ c'.1 = g ++ batch_of i extra ++ later.

(** The same, with [c'] right after the commit. *)
Definition commits_now (i : nat) (c c' : cfg) (im : WalImage) (extra : list bytes) : Prop :=
  inv c' /\ grows P c c' /\ mine i c'.1 = mine i c.1 ++ batches extra
  /\ exists g, c.1 `prefix_of` g /\ zlen (entries g) = next_lsn im
       /\ c'.1 = g ++ batch_of i extra.

Lemma commits_later i c c1 c2 im extra : commits_now i c c1 im extra -> rely i c1 c2 -> commits i c c2 im extra.
Proof.
  intros (Hi & Hg & Hm & g & Hp & Hz & Hc) (Hi2 & Hg2 & Hm2).
  split_and!; [done|by eapply grows_trans|congruence|].
  destruct (grows_history _ _ _ Hg2) as [later Hl]. exists g, later. split_and!; [done..|].
  by rewrite Hl, Hc, <- app_assoc.
Qed.

Lemma commits_of i c c' im extra : commits_now i c c' im extra -> commits i c c' im extra.
Proof. intros Hc. pose proof Hc as (Hi & _). by eapply commits_later; [|apply rely_refl]. Qed.

Lemma commits_intro i c c1 s etag im im' extra : rely i c c1 -> store_sane s ->
  keeps store_wf store_sane known (w_store c1.2) s -> successor c1 im' extra -> Forall (harmless P c1) (late s) ->
  next_lsn im = zlen (entries c1.1) ->
  contents s = <[wkey P := mkStored (emitted im') etag]> (contents (w_store c1.2)) ->
  let c' := after (record P) i c1 (with_store s c1.2) in
  guar i c1 c' /\ commits_now i c c' im extra /\ cur P c'.2 = Some im' /\ seen P im' etag c'.
Proof.
  intros (Hinv & Hg & Hm) Hsane Hk Hsuc Hlate Hn Hc.
  destruct (install_guar i c1 s etag im' extra Hinv Hsane Hk Hsuc Hlate Hc) as (-> & Hgu & Hi & Hg' & Hcur & Hseen).
  split_and!; [done| |done|done]. split_and!; [done|by eapply grows_trans| |].
  - cbn [fst]. rewrite mine_app, mine_batch_of, decide_True by done. by rewrite Hm.
  - exists c1.1. split_and!; [by apply grows_history in Hg|done|done].
Qed.

(** An absent log is created by the empty image. *)
Lemma absent_empty c : inv c -> contents (w_store c.2) !! wkey P = None -> entries c.1 = [].
Proof. intros Hinv Eo. pose proof (inv_current _ _ _ Hinv) as Hcur. unfold current_ok in Hcur. by rewrite Eo in Hcur. Qed.

Lemma create_successor c : inv c -> contents (w_store c.2) !! wkey P = None -> successor c empty [].
Proof.
  intros Hinv Eo. pose proof (absent_empty c Hinv Eo) as Hnil. split; try done.
  - exists [], []. by rewrite Hnil.
  - by rewrite Hnil.
  - by rewrite Hnil.
  - unfold snap_ref, cur. by rewrite Eo.
Qed.

(** Creating the log object; a lost race changes nothing. *)
Lemma wp_create i (Q : Result CondPut StoreError -> cfg -> Prop) E c :
  (forall r c', rely i c c' ->
     (forall e, r = Ok (PutOk e) -> seen P empty e c' /\ zlen (entries c'.1) = 0) -> Q r c') ->
  wp i (request (put_if_match (wkey P) None (emitted empty))) Q E c.
Proof.
  intros HQ. apply wp_act. intros c1 w2 r Hr Hf Hs. pose proof Hr as (Hinv & Hg & Hm).
  destruct (put_if_match _ _ _ (w_store c1.2)) as [s r'] eqn:Ep. injection Hf as <- <-.
  destruct (put_if_match_law _ _ _ _ _ _ Ep (inv_wf _ _ _ Hinv) Hs) as [Hk Hres].
  assert (Forall (harmless P c1) (late s)) as Hlate.
  { eapply late_lingers; [done| |exact (put_if_match_late _ _ _ _ _ _ Ep (inv_wf _ _ _ Hinv) Hs)]. constructor. }
  assert (contents s = contents (w_store c1.2) -> (forall e, r' <> Ok (PutOk e)) ->
    guar i c1 (after (record P) i c1 (with_store s c1.2)) /\ Q r' (after (record P) i c1 (with_store s c1.2)))
    as Hsame.
  { intros Hc Hne. assert (quiet P ns c1 (with_store s c1.2)) as Hq by by apply quiet_store.
    destruct (quiet_guar P ns i c1 _ Hinv Hq) as [Hgu Hr2]. split; [done|].
    rewrite (quiet_after _ _ _ _ _ Hq). apply HQ; [by eapply rely_trans|].
    intros e ->. by destruct (Hne e). }
  assert (forall etag, cas_applied (contents (w_store c1.2)) (contents s) (wkey P) None (emitted empty) etag ->
    guar i c1 (after (record P) i c1 (with_store s c1.2))
    /\ let c' := after (record P) i c1 (with_store s c1.2) in
       rely i c c' /\ seen P empty etag c' /\ zlen (entries c'.1) = 0) as Happ.
  { intros etag [Hcas Hc]. destruct (contents (w_store c1.2) !! wkey P) as [o|] eqn:Eo; [done|].
    assert (entries c1.1 = []) as Hnil.
    { by apply absent_empty. }
    pose proof (create_successor c1 Hinv Eo) as Hsuc.
    destruct (commits_intro i c c1 s etag empty empty [] Hr Hs Hk Hsuc Hlate) as (Hgu & Hcom & _ & Hseen);
      [by rewrite Hnil|done|]. split; [done|]. cbn zeta. split_and!; [|done|].
    - destruct Hcom as (? & ? & Hmine & _). split_and!; [done..|]. by rewrite Hmine, app_nil_r.
    - destruct Hcom as (_ & _ & _ & g & _ & Hz & ->). rewrite entries_app, zlen_app, Hz. by vm_compute. }
  destruct r' as [[etag|]|e].
  - destruct (Happ etag Hres) as (Hgu & Hr' & Hseen). split; [done|].
    apply HQ; [done|]. by intros e' [= <-].
  - by apply Hsame.
  - destruct Hres as [Hc|(_ & etag & Hc)]; [by apply Hsame|].
    destruct (Happ etag Hc) as (Hgu & Hr' & _). split; [done|]. by apply HQ.
Qed.

(** The snapshot that a proposal references exists while its base is current. *)
Lemma proposal_live c e im im' extra : inv c -> cur P c.2 = Some im -> proposal P c e im im' extra ->
  forall sr, img_snapshot im' = Some sr -> snap_key_at P (sr_key sr) (sr_lsn sr) /\ is_Some (contents (w_store c.2) !! sr_key sr).
Proof.
  intros Hi Hcur [(_ & Hwf & _) _ _ Hsh] sr Hsr. pose proof (first_lsn_wf _ Hwf) as [Hf _].
  destruct Hsh as [[Hs _]|(f & (Hkey & _ & Hp) & Hr & Hs & _)]; rewrite Hs in Hsr.
  { apply (inv_ref P ns c); [done|]. unfold snap_ref. by rewrite Hcur. }
  injection Hsr as <-. cbn [sr_key sr_lsn]. destruct Hp as [Hp|(L & sr & Hk & Href & Hle & _)]; [done|].
  exfalso. pose proof (snap_key_fun _ _ _ _ Hk Hkey) as ->. unfold snap_ref in Href. rewrite Hcur in Href. cbn in Href.
  rewrite Href in Hf. cbn in Hf. lia.
Qed.

(** What may be proposed over an image may be stored while it is current. *)
Lemma proposal_successor c e im im' extra : inv c -> cur P c.2 = Some im -> next_lsn im = zlen (entries c.1) ->
  proposal P c e im im' extra -> successor c im' extra.
Proof.
  intros Hi Hcur Hnext Hpr. pose proof (proposal_live _ _ _ _ _ Hi Hcur Hpr) as Hlive. destruct Hpr as [Hseen Hwf' Hok Hsh].
  destruct Hseen as (_ & Hwf & (pre & post & Hent & Hpre) & _).
  pose proof (next_lsn_wf _ Hwf) as [Hn _]. pose proof (first_lsn_wf _ Hwf) as [Hf _].
  pose proof (next_lsn_wf _ Hwf') as [Hn' _]. pose proof (first_lsn_wf _ Hwf') as [Hf' _].
  assert (post = []) as ->.
  { apply zlen_0_nil. apply (f_equal zlen) in Hent. rewrite !zlen_app in Hent. lia. }
  rewrite app_nil_r in Hent.
  assert (exists k, 0 <= k <= zlen (img_entries im) /\ first_lsn im' = first_lsn im + k
    /\ img_entries im' = drop (Z.to_nat k) (img_entries im) ++ extra
    /\ (img_snapshot im' = img_snapshot im \/ exists sr, img_snapshot im' = Some sr /\ first_lsn im <= sr_lsn sr)) as (k & Hk & Hfk & He & Hs).
  { destruct Hsh as [[Hs He]|(f & _ & Hr & Hs & He)].
    - exists 0. pose proof (zlen_nonneg (img_entries im)). split_and!; [lia|lia| |done|by left]. rewrite Hf', Hs, Hf. lia.
    - exists (f_lsn f + 1 - first_lsn im). split_and!; [lia|lia| |done|].
      + rewrite Hf', Hs. cbn. lia.
      + right. exists (mkSnapshotRef (f_key f) (f_lsn f)). split; [done|]. cbn. lia. }
  assert (zlen (img_entries im') = zlen (img_entries im) - k + zlen extra) as Hz.
  { rewrite He, zlen_app. unfold zlen. rewrite length_drop. zlia. }
  split; [done| |lia|lia|done|done|].
  - exists (pre ++ take (Z.to_nat k) (img_entries im)), []. split.
    + rewrite Hent, app_nil_r, He, <- !app_assoc. f_equal. by rewrite app_assoc, take_drop.
    + rewrite zlen_app, zlen_take by lia. lia.
  - intros sr Hsr. unfold snap_ref in Hsr. rewrite Hcur in Hsr. cbn in Hsr.
    destruct Hs as [Hs|(sr' & Hs & Hle)]; rewrite Hs; [by exists sr; auto|]. exists sr'. split; [done|]. right.
    rewrite Hsr in Hf. cbn in Hf. lia.
Qed.

(** The compare-and-swap of an image that has been seen. *)
Lemma wp_commit i e im im' extra (Q : Result CondPut StoreError -> cfg -> Prop) E c :
  proposal P c e im im' extra ->
  (forall r c',
     match r with
     | Ok (PutOk e') => commits_now i c c' im extra /\ cur P c'.2 = Some im' /\ seen P im' e' c'
     | Ok PreconditionFailed => rely i c c'
     | Err err => rely i c c' \/ (se_mutation_outcome err = Unknown /\ commits i c c' im extra)
     end -> Q r c') ->
  wp i (request (put_if_match (wkey P) (Some e) (emitted im'))) Q E c.
Proof.
  intros Hpr HQ. apply wp_act. intros c1 w2 r Hr Hf Hs. pose proof Hr as (Hinv & Hg & Hm).
  destruct (put_if_match _ _ _ (w_store c1.2)) as [s r'] eqn:Ep. injection Hf as <- <-.
  destruct (put_if_match_law _ _ _ _ _ _ Ep (inv_wf _ _ _ Hinv) Hs) as [Hk Hres].
  assert (proposal P c1 e im im' extra) as Hpr1 by (eapply proposal_secures; [by apply (grows_secures P ns)|done]).
  assert (Forall (harmless P c1) (late s)) as Hlate.
  { eapply late_lingers; [done| |exact (put_if_match_late _ _ _ _ _ _ Ep (inv_wf _ _ _ Hinv) Hs)]. by eapply harmless_commit. }
  set (c2 := after (record P) i c1 (with_store s c1.2)).
  assert (contents s = contents (w_store c1.2) -> guar i c1 c2 /\ rely i c c2) as Hsame.
  { intros Hc. assert (quiet P ns c1 (with_store s c1.2)) as Hq by by apply quiet_store.
    destruct (quiet_guar P ns i c1 _ Hinv Hq) as [Hgu Hr2]. split; [done|].
    unfold c2. rewrite (quiet_after _ _ _ _ _ Hq). by eapply rely_trans. }
  assert (forall etag, cas_applied (contents (w_store c1.2)) (contents s) (wkey P) (Some e) (emitted im') etag ->
    guar i c1 c2 /\ commits_now i c c2 im extra /\ cur P c2.2 = Some im' /\ seen P im' etag c2) as Happ.
  { intros etag [Hcas Hc]. destruct (contents (w_store c1.2) !! wkey P) as [o|] eqn:Eo; [|done].
    cbn in Hcas. apply bool_decide_eq_true in Hcas as <-.
    destruct (seen_match _ _ _ _ _ Hinv Eo (pr_seen _ _ _ _ _ _ Hpr1)) as [Hcur Hn].
    by apply commits_intro; [..|by eapply proposal_successor| | |]. }
  destruct r' as [[etag|]|err].
  - destruct (Happ etag Hres) as (Hgu & Hrest). split; [done|]. by apply HQ.
  - destruct (Hsame Hres). split; [done|]. by apply HQ.
  - destruct Hres as [Hc|(Hout & etag & Hc)].
    + destruct (Hsame Hc). split; [done|]. apply HQ. by left.
    + destruct (Happ etag Hc) as (Hgu & Hcom & _). split; [done|]. apply HQ. right.
      split; [done|by apply commits_of].
Qed.

End steps_store.
