(* ===== verification/CoreProps.v ===== *)
(** * Opening and refreshing: the contract of [Core]

    A handle's image is a window of the history it has seen in the store, and
    its state is the replay of the history up to the image's end. [open] and
    [refresh] establish and keep that in any environment, never report a
    corruption that contention explains, and reach at least the end of the
    history at the time of the call. *)

From S2P Require Import Prelude Fmt Utf8 Error Image ImageCodec App Proc Atomic AtomicProps Cache CacheChecksum CacheProps CacheTheorems Store World Core Compactor Writer Protocol Invariant Steps StepsCache StepsStore.

(** ** Replay *)

Section replay.
Context `{WalAppLaws}.

Lemma apply_all_number s n es : apply_all s (number n es) = replay_from s n es.
Proof.
  unfold replay_from. generalize (number n es). intros l. revert s.
  induction l as [|[m e] l IH]; intros s; [done|]. apply IH.
Qed.

Lemma entries_from_number im n : wf_image im -> first_lsn im <= n ->
  entries_from im n = number n (drop (Z.to_nat (n - first_lsn im)) (img_entries im)).
Proof.
  intros Hw Hn. pose proof (first_lsn_wf im Hw) as [_ Hf]. unfold entries_from, saturating_sub.
  rewrite drop_number, Z.max_r by lia. f_equal. lia.
Qed.

Lemma window_take im hist n : wf_image im -> window im hist -> first_lsn im <= n <= next_lsn im ->
  take (Z.to_nat n) hist ++ drop (Z.to_nat (n - first_lsn im)) (img_entries im)
  = take (Z.to_nat (next_lsn im)) hist.
Proof.
  intros Hw (pre & post & -> & Hp) Hn. pose proof (next_lsn_wf im Hw) as [Hnext _].
  pose proof (zlen_nonneg pre). rewrite Hnext in Hn |- *. rewrite <- Hp in *.
  rewrite app_assoc. do 2 rewrite (take_app_le _ post) by (rewrite length_app; zlia).
  rewrite (take_ge (pre ++ img_entries im) (Z.to_nat (zlen pre + zlen (img_entries im))))
    by (rewrite length_app; zlia).
  rewrite take_app, (take_ge pre) by zlia.
  rewrite <- app_assoc. f_equal.
  replace (Z.to_nat n - length pre)%nat with (Z.to_nat (n - zlen pre)) by zlia.
  apply take_drop.
Qed.

End replay.

(** The validated budgets. *)
Record opts_ok (P : string) (o : Options) : Prop := {
  oo_prefix : prefix o = P;
  oo_bytes : 9 <= max_image_bytes o <= ISIZE_MAX;
  oo_entries : 0 < max_live_entries o <= U32_MAX;
  oo_attempts : 0 < max_write_attempts o;
  oo_pending : 0 <= max_pending_deletes o;
}.

Lemma opts_ok_wal_key P o : opts_ok P o -> wal_key o = wkey P.
Proof. intros Ho. unfold wal_key, wkey. by rewrite (oo_prefix _ _ Ho). Qed.

Lemma opts_ok_limits P o : opts_ok P o -> lim_bytes (limits o) <= USIZE_MAX.
Proof. intros Ho. cbn. pose proof (oo_bytes _ _ Ho). zlia. Qed.

(** An image that is well formed is rejected only for a budget. *)
Lemma decode_emitted im l : wf_image im ->
  decode (emitted im) l = Ok im \/ exists e, decode (emitted im) l = Err e /\ benign e.
Proof.
  intros Hw. destruct (Z_le_gt_dec (zlen (emitted im)) (lim_bytes l)) as [Hb|Hb].
  - rewrite <- (app_nil_r (emitted im)) in Hb |- *. unfold emitted in *.
    rewrite decode_emit_app by done. destruct (_ <? _); [right; by eexists|]. left. by destruct im.
  - right. unfold decode. destruct (check_limit_cases "WAL image bytes" (zlen (emitted im)) (lim_bytes l))
      as [[_ ?]|[-> _]]; [lia|by eexists].
Qed.

Section core_props.
Context {S : Type} `{ObjectStoreLaws S} `{WalAppLaws}.
Variable P : string.
Variable ns : option string.
Context `{!LogNames P ns}.
Abbreviation World := (World S).
Abbreviation cfg := (History * World)%type.
Abbreviation inv := (inv P ns).
Abbreviation rely := (rely P ns).
Abbreviation grows := (grows P).
Abbreviation wp := (pwp P ns).
Abbreviation seen := (seen P).
Implicit Types (w : World) (c : cfg).

(** The state is the replay of the history up to the end of the image. *)
Definition at_image (s : State) (im : WalImage) c : Prop :=
  seqv s (replay (take (Z.to_nat (next_lsn im)) (entries c.1))).

Record core_ok (co : Core) c : Prop := {
  co_opts : opts_ok P (opts co);
  co_cache : cache_ok P ns (cache co);
  co_state : at_image (state co) (image co) c;
  co_seen : match etag co with Some e => seen (image co) e c | None => image co = empty end;
}.

Lemma at_image_mono s im c c' : wf_image im -> window im (entries c.1) -> grows c c' ->
  at_image s im c -> at_image s im c'.
Proof.
  intros Hw Hwin Hg. unfold at_image. rewrite (take_prefix _ (entries c.1) (entries c'.1)); [done|by eapply entries_mono|].
  by apply window_bounds.
Qed.

Lemma empty_wf : wf_image empty.
Proof. by split_and!. Qed.

Lemma empty_window hist : window empty hist.
Proof. by exists [], hist. Qed.

Lemma core_ok_wf co c : core_ok co c -> wf_image (image co) /\ window (image co) (entries c.1).
Proof.
  intros Hok. pose proof (co_seen _ _ Hok) as Hs. destruct (etag co).
  - by destruct Hs as (_ & ? & ? & _).
  - rewrite Hs. split; [apply empty_wf|apply empty_window].
Qed.

Lemma core_ok_mono co c c' : inv c' -> grows c c' -> core_ok co c -> core_ok co c'.
Proof.
  intros Hi Hg Hok. destruct (core_ok_wf _ _ Hok) as [Hw Hwin]. destruct Hok as [Ho Hc Hst Hs].
  split; [done|done|by eapply at_image_mono|]. destruct (etag co); [by eapply seen_mono|done].
Qed.

(** Catching up from an earlier point of the history. *)
Lemma catch_up s im hist n : wf_image im -> window im hist -> first_lsn im <= n <= next_lsn im ->
  seqv s (replay (take (Z.to_nat n) hist)) ->
  seqv (apply_all s (entries_from im n)) (replay (take (Z.to_nat (next_lsn im)) hist)).
Proof.
  intros Hw Hwin Hn Hs. rewrite entries_from_number by (done || lia). rewrite apply_all_number, Hs.
  rewrite <- (window_take im hist n) by done. rewrite replay_app.
  pose proof (window_bounds _ _ Hw Hwin). pose proof (first_lsn_wf im Hw) as [_ ?].
  by rewrite zlen_take by lia.
Qed.

(** ** Recording an image *)

Definition recorded (e : string) (data : bytes) (co : Core) : Core :=
  mkCore (opts co) (cache co) (state co) (image co) (Some e) (zlen data)
    (bool_decide (cache_policy (opts co) = OnFlush) && enabled (cache co)).

Lemma wp_record_image_put i e data co (Q : Core -> cfg -> Prop) E c :
  inv c -> cache_ok P ns (cache co) -> known (w_store c.2) (wkey P) e data ->
  (forall c', rely i c c' -> Q (recorded e data co) c') -> wp i (record_image_put e data co) Q E c.
Proof.
  intros Hinv Hca Hk HQ. unfold record_image_put. apply wp_fs_if; [done|by intros _; apply safe_save_wal|].
  intros c' Hr. by apply HQ.
Qed.

Lemma wp_checkpoint_cache i co (Q : Core -> cfg -> Prop) E c :
  inv c -> core_ok co c ->
  (forall co' c', rely i c c' -> core_ok co' c' -> image co' = image co -> state co' = state co ->
     opts co' = opts co -> cache co' = cache co -> etag co' = etag co -> Q co' c') ->
  wp i (checkpoint_cache co) Q E c.
Proof.
  intros Hinv Hok HQ. unfold checkpoint_cache.
  assert (Q co c) as Hsame by (by apply HQ; [apply rely_refl|..]).
  destruct (cache_dirty co); cbn [negb]; [|done].
  destruct (etag co) as [e|] eqn:Ee; [|done].
  destruct (encode (image co) (limits (opts co))) as [data|] eqn:Ed; [|done].
  pose proof (co_seen _ _ Hok) as Hs. rewrite Ee in Hs. destruct Hs as (Hk & _).
  pose proof (zlen_nonneg (img_entries (image co))).
  apply encode_view_ok in Ed as (_ & _ & ->); [|done|by eapply opts_ok_limits, co_opts].
  unfold view_entries, view_snapshot. cbn [drop Z.to_nat]. rewrite app_nil_r.
  apply wp_bind, wp_on_fs_; [apply (safe_save_wal P ns); [apply Hok|exact Hk]|]. intros c' Hr.
  apply HQ; [done| |done..]. pose proof Hr as (Hi & Hg & _).
  destruct (core_ok_mono _ _ _ Hi Hg Hok) as [Ho Hc Hst Hse].
  split; cbn [opts cache state image etag]; [done..|]. by rewrite Ee in Hse.
Qed.

(** ** Refresh *)

(** What a refresh guarantees, whatever it returns. *)
Definition refreshed_ok (co : Core) (c : cfg) (r : Core * Result Refreshed WalError) c' : Prop :=
  let co' := r.1 in
  core_ok co' c' /\ opts co' = opts co /\ cache co' = cache co
  /\ (is_Some (etag co) -> is_Some (etag co'))
  /\ next_lsn (image co) <= next_lsn (image co')
  /\ match r.2 with
     | Ok u => zlen (entries c.1) <= next_lsn (image co')
         /\ (r_changed u = false -> co' = co)
         /\ forall sr, r_superseded u = Some sr -> dead P (sr_key sr) c'.2
     | Err e => benign e /\ co' = co
     end.

Lemma refreshed_err co c0 c e : core_ok co c -> benign e -> refreshed_ok co c0 (co, Err e) c.
Proof. intros Hok Hb. by split_and!. Qed.

(** The snapshot that an adopted image leaves behind is dead. *)
Lemma superseded_dead co c remote sr : core_ok co c -> cur P c.2 = Some remote ->
  superseded_by remote (image co) = Some sr -> dead P (sr_key sr) c.2.
Proof.
  intros Hok Hcur Hsup. unfold superseded_by in Hsup.
  destruct (img_snapshot (image co)) as [o|] eqn:Eo; [|done].
  pose proof (co_seen _ _ Hok) as Hs. destruct (etag co) as [e|]; [|by rewrite Hs in Eo].
  destruct Hs as (_ & _ & _ & _ & Hs). destruct (Hs o Eo) as (Hk & _ & sr' & Hr' & Hle).
  assert (img_snapshot remote = Some sr') as En by (unfold snap_ref in Hr'; by rewrite Hcur in Hr').
  rewrite En in Hsup. case_bool_decide as Hne; [done|]. injection Hsup as <-.
  exists (sr_lsn o), sr'. split_and!; [done|done|destruct Hle as [->|]; lia|done].
Qed.

Lemma wp_adopt i stored remote s co c0 (Q : Core * Result Refreshed WalError -> cfg -> Prop) E c :
  inv c -> core_ok co c -> seen remote (st_etag stored) c -> st_data stored = emitted remote ->
  at_image s remote c -> next_lsn (image co) <= next_lsn remote ->
  zlen (entries c0.1) <= next_lsn remote ->
  (forall sr, superseded_by remote (image co) = Some sr -> dead P (sr_key sr) c.2) ->
  (forall r c', rely i c c' -> refreshed_ok co c0 r c' -> Q r c') ->
  wp i (adopt stored remote s co) Q E c.
Proof.
  intros Hinv Hok Hseen Hd Hs Hn Hn0 Hdead HQ. unfold adopt.
  set (co1 := mkCore (opts co) (cache co) s remote (etag co) (image_len co) (cache_dirty co)).
  assert (forall c1, rely i c c1 ->
    wp i (let! self := record_image_put (st_etag stored) (st_data stored) co1 in
          Ret (self, Ok (mkRefreshed true (superseded_by remote (image co))))) Q E c1) as Hrest.
  { intros c1 (Hi1 & Hg1 & Hm1). apply wp_bind.
    pose proof (seen_mono _ _ _ _ _ _ Hi1 Hg1 Hseen) as Hseen1.
    apply wp_record_image_put; [done|apply Hok|rewrite Hd; apply Hseen1|].
    intros c2 Hr2. pose proof (rely_trans _ _ _ _ _ _ (conj Hi1 (conj Hg1 Hm1)) Hr2) as Hr.
    apply HQ; [done|]. pose proof Hr as (Hi & Hg & _).
    pose proof Hseen as (_ & Hw & Hwin & _).
    split_and!; cbn [fst snd recorded co1 opts cache etag image r_changed r_superseded]; try done.
    - split; cbn [recorded co1 opts cache etag image state]; [apply Hok|apply Hok| |by eapply seen_mono].
      by eapply at_image_mono.
    - split_and!; [done..|]. intros sr Hsr. by eapply dead_mono, Hdead. }
  destruct (superseded_by remote (image co)) as [old|].
  - apply wp_bind, wp_on_fs_; [apply safe_remove|]. exact Hrest.
  - cbn [bind]. apply Hrest. by apply rely_refl.
Qed.

(** A missing snapshot was dead when it was missed, so that a second miss of
    the live snapshot cannot happen. *)
Definition missing_ok (m : option (string * string)) c : Prop :=
  forall e k, m = Some (e, k) -> dead P k c.2.

Lemma missing_ok_mono m c c' : inv c' -> grows c c' -> missing_ok m c -> missing_ok m c'.
Proof. intros Hi Hg Hm e k ->. by eapply dead_mono, Hm. Qed.

Lemma record_missing_ok m e sr c1 c2 im : inv c1 -> missing_ok m c1 -> cur P c1.2 = Some im ->
  img_snapshot im = Some sr -> dead P (sr_key sr) c2.2 ->
  exists m', record_missing_snapshot m e (sr_key sr) = Ok m' /\ missing_ok m' c2.
Proof.
  intros Hi Hm Hcur Hsr Hd. unfold record_missing_snapshot. destruct m as [[e0 k0]|].
  - destruct (bool_decide (e0 = e) && bool_decide (k0 = sr_key sr)) eqn:Eb.
    + apply andb_true_iff in Eb as [_ Hk]. apply bool_decide_eq_true in Hk as ->.
      exfalso. eapply (dead_not_live P ns c1); [done|by eapply Hm| |done].
      unfold snap_ref. by rewrite Hcur.
    + eexists. split; [done|]. by intros ?? [= <- <-].
  - eexists. split; [done|]. by intros ?? [= <- <-].
Qed.

(** Reading a new image: [c] is the configuration right after. *)
Lemma wp_refresh_changed i m co c0 retry stored (Q : Core * Result Refreshed WalError -> cfg -> Prop) E c :
  inv c -> grows c0 c -> core_ok co c -> missing_ok m c -> contents (w_store c.2) !! wkey P = Some stored ->
  (forall r c', rely i c c' -> refreshed_ok co c0 r c' -> Q r c') ->
  (forall m' c', rely i c c' -> missing_ok m' c' -> wp i (retry m') Q E c') ->
  wp i (refresh_changed m retry stored co) Q E c.
Proof.
  intros Hi1 Hg01 Hok1 Hm1 Hgot HQ Hretry. unfold refresh_changed. pose proof (zlen_mono _ _ _ Hg01) as Hlen.
  assert (forall e, benign e -> Q (co, Err e) c) as Herr.
  { intros e Hb. apply HQ; [by apply rely_refl|]. by apply refreshed_err. }
  destruct (seen_now _ _ _ _ Hi1 Hgot) as (remote & Hparse & Hcur & Hseen & Hn).
  apply parse_Some in Hparse as [Hd Hw]. pose proof Hseen as (_ & _ & Hwin & _).
  rewrite Hd. destruct (decode_emitted remote (limits (opts co)) Hw) as [-> | (e & -> & Hb)]; [|by apply Herr].
  destruct (core_ok_wf _ _ Hok1) as [Hwc Hwinc].
  pose proof (window_bounds _ _ Hwc Hwinc) as Hbc. pose proof (window_bounds _ _ Hw Hwin) as Hbr.
  assert (forall sr, superseded_by remote (image co) = Some sr -> dead P (sr_key sr) c.2) as Hsup
    by (intros; by eapply superseded_dead).
  destruct (Z.leb_spec (first_lsn remote) (next_lsn (image co))) as [Hle|Hgt].
  { apply (wp_adopt _ _ _ _ _ c0); [done..| |lia|lia|done|done].
    apply catch_up; [done|done|lia|apply Hok1]. }
  pose proof (first_lsn_wf remote Hw) as [Hf _].
  destruct (img_snapshot remote) as [sr|] eqn:Esr; cbn in Hf; [|lia].
  destruct Hseen as (Hkn & _ & _ & Hc & Hsn). destruct (Hsn sr Esr) as (Hkey & Hpin & _).
  apply wp_bind. eapply (wp_fetch_snapshot P ns); [apply Hok1|done|].
  intros r c2 Hr2 Hfetch. pose proof Hr2 as (Hi2 & Hg2 & _). destruct r as [[bs|]|e].
  - destruct Hfetch as (HL & s & -> & Hs).
    assert (seen remote (st_etag stored) c2) as Hseen2 by (eapply seen_mono; [done|done|]; by split_and!).
    pose proof Hseen2 as (_ & _ & Hwin2 & _).
    assert (wrapping_add (sr_lsn sr) 1 = first_lsn remote) as Hwrap by (unfold first_lsn; by rewrite Esr).
    apply (wp_adopt _ _ _ _ _ c0); [done|by eapply core_ok_mono|done|done| |lia|lia| |].
    + rewrite Hwrap. apply catch_up; [done|done|lia|]. by rewrite Hf.
    + intros sr' Hsr'. eapply dead_mono; [done|done|by apply Hsup].
    + intros r c3 Hr3. apply HQ. by eapply rely_trans.
  - destruct (record_missing_ok m (st_etag stored) sr c c2 remote) as (m' & -> & Hm'); [done..|by apply Hfetch|].
    by apply Hretry.
  - apply HQ; [done|]. apply refreshed_err; [|done]. by eapply core_ok_mono.
Qed.

Lemma wp_refresh_loop i n m co c0 (Q : Core * Result Refreshed WalError -> cfg -> Prop) E c :
  inv c -> grows c0 c -> core_ok co c -> missing_ok m c ->
  (forall r c', rely i c c' -> refreshed_ok co c0 r c' -> Q r c') ->
  wp i (refresh_loop n m co) Q E c.
Proof.
  revert m c. induction n as [|n IH]; intros m c Hinv Hg0 Hok Hm HQ; cbn [refresh_loop].
  { apply HQ; [by apply rely_refl|]. by apply refreshed_err. }
  rewrite (opts_ok_wal_key P) by apply Hok.
  apply wp_bind, wp_get_if_changed. intros r c1 Hr1 Hgot. pose proof Hr1 as (Hi1 & Hg1 & _).
  pose proof (core_ok_mono _ _ _ Hi1 Hg1 Hok) as Hok1.
  pose proof (missing_ok_mono _ _ _ Hi1 Hg1 Hm) as Hm1.
  assert (grows c0 c1) as Hg01 by by eapply grows_trans.
  pose proof (zlen_mono _ _ _ Hg01) as Hlen.
  assert (zlen (entries c0.1) <= next_lsn (image co) -> Q (co, Ok unchanged) c1) as Hunch.
  { intros Hle. apply HQ; [done|]. split_and!; cbn [fst snd unchanged r_changed r_superseded]; try done. }
  destruct r as [[stored| |]|e].
  - apply (wp_refresh_changed i m co c0); [done..| |].
    + intros r c2 Hr2. apply HQ. by eapply rely_trans.
    + intros m' c2 Hr2 Hm2. pose proof Hr2 as (Hi2 & Hg2 & _).
      apply IH; [done|by eapply grows_trans|by eapply core_ok_mono|done|].
      intros r c3 Hr3. apply HQ. eapply rely_trans; [exact Hr1|]. by eapply rely_trans.
  - destruct Hgot as (e & o & He & Ho & Heo). rewrite He.
    pose proof (co_seen _ _ Hok1) as Hs. rewrite He in Hs. subst e.
    destruct (seen_match _ _ _ _ _ Hi1 Ho Hs) as [Hcur Hn]. apply Hunch. lia.
  - destruct (etag co) as [e|] eqn:Ee.
    + exfalso. pose proof (co_seen _ _ Hok1) as Hs. rewrite Ee in Hs. destruct Hs as (_ & _ & _ & [im Hc] & _).
      unfold cur in Hc. cbn in Hgot. by rewrite Hgot in Hc.
    + apply Hunch. pose proof (inv_current _ _ _ Hi1) as Hc. unfold current_ok in Hc. cbn in Hgot. rewrite Hgot in Hc.
      rewrite Hc in Hlen. change (zlen []) with 0 in Hlen.
      destruct (core_ok_wf _ _ Hok1) as [Hwc Hwinc]. pose proof (window_bounds _ _ Hwc Hwinc). lia.
  - apply HQ; [done|]. by apply refreshed_err.
Qed.

Lemma wp_Core_refresh i co (Q : Core * Result Refreshed WalError -> cfg -> Prop) E c :
  inv c -> core_ok co c ->
  (forall r c', rely i c c' -> refreshed_ok co c r c' -> Q r c') ->
  wp i (Core_refresh co) Q E c.
Proof. intros Hinv Hok HQ. by apply (wp_refresh_loop _ _ _ _ c); [done|apply grows_refl|done|..]. Qed.

(** ** Open *)

(** What [open] guarantees, whatever it returns. *)
Definition opened_ok (create : bool) (c : cfg) (r : Result Core WalError) c' : Prop :=
  match r with
  | Ok co => core_ok co c' /\ zlen (entries c.1) <= next_lsn (image co)
      /\ (create = true -> is_Some (etag co))
  | Err e => benign e
  end.

Lemma encode_empty o : opts_ok P o -> encode empty (limits o) = Ok (emitted empty).
Proof.
  intros Ho. unfold encode. apply encode_view_ok; [done|by eapply opts_ok_limits|].
  pose proof (oo_bytes _ _ Ho). pose proof (oo_entries _ _ Ho).
  split; [done|]. split; [|done]. split_and!; try done.
  - change (0 <= max_live_entries o). lia.
  - change (9 <= max_image_bytes o). lia.
Qed.

Lemma wp_open_stored i o ca m retry stored im create c0 (Q : Result Core WalError -> cfg -> Prop) E c :
  inv c -> opts_ok P o -> cache_ok P ns ca -> missing_ok m c ->
  st_data stored = emitted im -> seen im (st_etag stored) c ->
  (cur P c.2 = Some im \/ img_snapshot im = None) -> zlen (entries c0.1) <= next_lsn im ->
  (forall r c', rely i c c' -> opened_ok create c0 r c' -> Q r c') ->
  (forall m' c', rely i c c' -> missing_ok m' c' -> wp i (retry m') Q E c') ->
  wp i (open_stored o ca m retry stored) Q E c.
Proof.
  intros Hinv Ho Hca Hm Hd Hseen Hcur Hfresh HQ Hretry. unfold open_stored.
  pose proof Hseen as (_ & Hw & _). rewrite Hd.
  destruct (decode_emitted im (limits o) Hw) as [-> | (e & -> & Hb)];
    [|by apply HQ; [apply rely_refl|]].
  assert (forall s c1, rely i c c1 -> seqv s (replay (take (Z.to_nat (first_lsn im)) (entries c1.1))) ->
    wp i (open_finish o ca stored im s) Q E c1) as Hfinish.
  { intros s c1 Hr1 Hs. pose proof Hr1 as (Hi1 & Hg1 & _).
    pose proof (seen_mono _ _ _ _ _ _ Hi1 Hg1 Hseen) as Hseen1.
    pose proof Hseen1 as (_ & _ & Hwin & _). pose proof (window_bounds _ _ Hw Hwin) as Hb.
    unfold open_finish. apply wp_bind, wp_retain_cache; [done|]. intros c2 Hr2.
    pose proof Hr2 as (Hi2 & Hg2 & _).
    pose proof (seen_mono _ _ _ _ _ _ Hi2 Hg2 Hseen1) as Hseen2.
    apply wp_bind, wp_record_image_put; [done|done|rewrite Hd; apply Hseen2|]. intros c3 Hr3.
    apply HQ; [eapply rely_trans; [exact Hr1|eapply rely_trans; [exact Hr2|exact Hr3]]|]. pose proof Hr3 as (Hi3 & Hg3 & _).
    split_and!; [split|done|by intros _; eexists]; cbn [recorded opts cache state image etag].
    - done.
    - done.
    - apply (at_image_mono _ _ c1); [done|exact Hwin|by eapply grows_trans|].
      apply catch_up; [done|done|lia|done].
    - by eapply seen_mono. }
  destruct (img_snapshot im) as [sr|] eqn:Esr.
  - destruct Hcur as [Hcur|?]; [|done]. pose proof Hseen as (_ & _ & _ & _ & Hsn).
    destruct (Hsn sr Esr) as (Hkey & Hpin & _).
    apply wp_bind. eapply (wp_fetch_snapshot P ns); [done..|]. intros r c1 Hr1 Hfetch.
    pose proof Hr1 as (Hi1 & Hg1 & _). destruct r as [[bs|]|e]; [| |by apply HQ].
    + destruct Hfetch as (_ & s & -> & Hs). apply Hfinish; [done|].
      pose proof (first_lsn_wf im Hw) as [Hf _]. rewrite Esr in Hf. cbn in Hf. by rewrite Hf.
    + destruct (record_missing_ok m (st_etag stored) sr c c1 im) as (m' & -> & Hm');
        [done..|by apply Hfetch|].
      by apply Hretry.
  - apply Hfinish; [by apply rely_refl|]. pose proof (first_lsn_wf im Hw) as [Hf _].
    rewrite Esr in Hf. cbn in Hf. rewrite Hf. cbn [Z.to_nat take]. reflexivity.
Qed.

Lemma wp_open_loop i n o ca cached create m c0 (Q : Result Core WalError -> cfg -> Prop) E c :
  inv c -> grows c0 c -> opts_ok P o -> cache_ok P ns ca -> missing_ok m c ->
  (forall e d, cached = Some (e, d) -> known (w_store c.2) (wkey P) e d) ->
  (forall r c', rely i c c' -> opened_ok create c0 r c' -> Q r c') ->
  wp i (open_loop n o ca cached create m) Q E c.
Proof.
  revert m c. induction n as [|n IH]; intros m c Hinv Hg0 Ho Hca Hm Hcached HQ; cbn [open_loop].
  { by apply HQ; [apply rely_refl|]. }
  rewrite (opts_ok_wal_key P) by done.
  apply wp_bind, wp_get_if_changed. intros r c1 Hr1 Hgot. pose proof Hr1 as (Hi1 & Hg1 & _).
  assert (grows c0 c1) as Hg01 by by eapply grows_trans.
  pose proof (zlen_mono _ _ _ Hg01) as Hlen.
  assert (forall m' c', rely i c c' -> missing_ok m' c' ->
    wp i (open_loop n o ca cached create m') Q E c') as Hretry.
  { intros m' c' Hr' Hm'. pose proof Hr' as (Hi' & Hg' & _).
    apply IH; [done|eapply grows_trans; [exact Hi'|exact Hg0|exact Hg']|done..| |].
    - intros e d Hed. by apply (grows_known _ _ _ Hg'), Hcached.
    - intros r' c'' Hr''. apply HQ. by eapply rely_trans. }
  assert (forall stored, contents (w_store c1.2) !! wkey P = Some stored ->
    wp i (open_stored o ca m (fun m' => open_loop n o ca cached create m') stored) Q E c1) as Hstored.
  { intros stored Hst. destruct (seen_now _ _ _ _ Hi1 Hst) as (im & Hparse & Hcur & Hseen & Hn).
    apply parse_Some in Hparse as [Hd _].
    apply (wp_open_stored _ _ _ _ _ _ im create c0); [done|done|done| |done|done|by left|lia| |].
    - exact (missing_ok_mono _ _ _ Hi1 Hg1 Hm).
    - intros r' c2 Hr2. apply HQ. by eapply rely_trans.
    - intros m' c2 Hr2. apply Hretry. by eapply rely_trans. }
  destruct r as [[stored| |]|e]; [by apply Hstored| | |by apply HQ].
  - destruct Hgot as (e & stored & He & Hst & Heo). destruct cached as [[e' data]|]; [|done].
    cbn in He. injection He as ->.
    pose proof (known_data _ _ _ _ stored (grows_known _ _ _ Hg1 _ _ _ (Hcached e data eq_refl)) Hst Heo) as Hd.
    assert (mkStored data e = stored) as ->; [|by apply Hstored].
    destruct stored; cbn in *; congruence.
  - cbn in Hgot. assert (entries c1.1 = []) as Hnil.
    { pose proof (inv_current _ _ _ Hi1) as Hc. unfold current_ok in Hc. by rewrite Hgot in Hc. }
    rewrite Hnil in Hlen. change (zlen []) with 0 in Hlen. destruct create.
    + rewrite encode_empty by done. apply wp_bind, (wp_create P ns). intros r c2 Hr2 Hput.
      pose proof (rely_trans _ _ _ _ _ _ Hr1 Hr2) as Hr12. pose proof Hr12 as (Hi2 & Hg2 & _).
      destruct r as [[e|]|err]; [| |by apply HQ].
      * destruct (Hput e eq_refl) as [Hseen Hz].
        apply (wp_open_stored _ _ _ _ _ _ empty true c0); [done|done|done| |done|done|by right|done| |].
        -- exact (missing_ok_mono _ _ _ Hi2 Hg2 Hm).
        -- intros r' c3 Hr3. apply HQ. by eapply rely_trans.
        -- intros m' c3 Hr3. apply Hretry. by eapply rely_trans.
      * apply Hretry; [done|]. exact (missing_ok_mono _ _ _ Hi2 Hg2 Hm).
    + apply wp_bind, wp_retain_cache; [done|]. intros c2 Hr2.
      apply HQ; [by eapply rely_trans|]. split_and!; [|done|done].
      split; cbn [opts cache state image etag]; [done..| |done]. unfold at_image.
      change (next_lsn empty) with 0. reflexivity.
Qed.

(** The types of the option fields. *)
Definition opts_typed (o : Options) : Prop :=
  prefix o = P /\ 0 <= max_write_attempts o /\ 0 <= max_live_entries o /\ 0 <= max_pending_deletes o.

Lemma validate_ok l o o' : opts_typed o -> validate l o = Ok o' -> opts_ok P o'.
Proof.
  intros (Hp & Ha & He & Hq) Hv. unfold validate in Hv.
  destruct l as [l|]; cbn zeta in Hv;
    (destruct (_ || _) eqn:Eb in Hv; [done|]); injection Hv as <-;
    repeat match goal with H : _ || _ = false |- _ => apply orb_false_elim in H as [? ?] end;
    zbool; cbn [max_write_attempts max_image_bytes max_live_entries max_snapshot_bytes] in *;
    split; cbn [prefix max_write_attempts max_image_bytes max_live_entries max_pending_deletes]; done || lia.
Qed.

Lemma wp_Core_open i o create (Q : Result Core WalError -> cfg -> Prop) E c :
  inv c -> opts_typed o ->
  (forall r c', rely i c c' -> opened_ok create c r c' -> Q r c') ->
  wp i (Core_open o create) Q E c.
Proof.
  intros Hinv Ht HQ. unfold Core_open. apply wp_bind, wp_read. intros c1 Hr1.
  destruct (validate _ o) as [ov|e] eqn:Ev.
  2: { apply HQ; [done|]. unfold validate in Ev. destruct (_ || _) in Ev; [|done]. by injection Ev as <-. }
  apply validate_ok in Ev; [|done]. apply wp_bind.
  apply (wp_mono _ _ _ _ _ _ _ (fun ca c' => rely i c c' /\ cache_ok P ns ca)).
  - intros ca c2 [Hr2 Hca]. apply wp_bind, (wp_load_wal P ns); [done|]. intros loaded c3 Hr3 Hl.
    pose proof (rely_trans _ _ _ _ _ _ Hr2 Hr3) as Hr. pose proof Hr as (Hi & Hg & _).
    apply (wp_open_loop _ _ _ _ _ _ _ c); [done..| | |].
    + by intros e k.
    + intros e d Hed. destruct loaded as [[e' d']|]; [|done].
      destruct (is_ok _); [|done]. injection Hed as -> ->. by apply Hl.
    + intros r c4 Hr4. apply HQ. by eapply rely_trans.
  - assert (wp i (let! ns' := request (fun s => (s, cache_namespace s)) in
      on_fs (cache_new (cache_dir ov) ns' (wal_key ov)))
      (fun ca c' => rely i c c' /\ cache_ok P ns ca) E c1) as Hnew.
    { rewrite (opts_ok_wal_key P) by done. apply wp_bind, wp_read. intros c2 Hr2.
      pose proof (rely_trans _ _ _ _ _ _ Hr1 Hr2) as Hr12.
      apply (wp_cache_new P ns); [by apply Hr12|].
      intros ca c3 Hr3 Hca. split; [by eapply rely_trans|done]. }
    destruct (cache_policy ov); [|exact Hnew..]. split; [done|by left].
Qed.

End core_props.
