(* ===== verification/CompactorProps.v ===== *)
(** * The compaction thread: contract

    A compaction thread never changes the log; if it reports a fold, the fold's
    snapshot restores to the state after the entries it was given, and is in
    the store under a key that names the last of them. *)

From S2P Require Import Prelude Fmt Utf8 Error Image ImageCodec App Proc Atomic AtomicProps Cache CacheChecksum CacheProps CacheTheorems Store World Core Compactor Writer Protocol Invariant Steps StepsCache StepsStore CoreProps.

Lemma last_entries_at n es : last (entries_at n es) =
  match last es with Some e => Some (mkEntry (n + zlen es - 1) e) | None => None end.
Proof.
  revert n. induction es as [|e es IH]; intros n; [done|].
  change (entries_at n (e :: es)) with (mkEntry n e :: entries_at (n + 1) es).
  rewrite !last_cons, IH, zlen_cons. destruct es as [|e' es].
  - cbn. do 2 f_equal. change (zlen []) with 0. lia.
  - destruct (last (e' :: es)) eqn:El; [|by apply last_None in El]. do 2 f_equal. lia.
Qed.

Section compactor_props.
Context {S : Type} `{ObjectStoreLaws S} `{WalAppLaws}.
Variable P : string.
Variable ns : option string.
Context `{!LogNames P ns}.
Abbreviation World := (World S).
Abbreviation cfg := (History * World)%type.
Abbreviation inv := (inv P ns).
Abbreviation rely := (rely P ns).
Abbreviation grows := (grows P).
Abbreviation wp := (pwp P ns).
Implicit Types (w : World) (c : cfg).

Lemma wp_next_snapshot_key i L (Q : Result string string -> cfg -> Prop) E c :
  is_u64 L ->
  (forall r c', rely i c c' -> (forall k, r = Ok k -> snap_key_at P k L) -> Q r c') ->
  wp i (next_snapshot_key (P +:+ "snap/" +:+ dec20 L +:+ "-")) Q E c.
Proof.
  intros HL HQ. unfold next_snapshot_key. apply wp_bind, (wp_next_random P ns).
  intros r c' Hr Hlen. apply HQ; [done|]. intros k Hk. destruct r as [id|]; [|done].
  cbn in Hk. injection Hk as <-. split; [done|]. exists id. split; [by apply Hlen|].
  by rewrite !string_app_assoc.
Qed.

Lemma wp_publish_loop i n L d (Q : Result string StoreError -> cfg -> Prop) E c :
  inv c -> is_u64 L -> good_snapshot d L (entries c.1) ->
  (forall r c', rely i c c' -> (forall k, r = Ok k -> snap_key_at P k L /\ pinned P k c'.2) -> Q r c') ->
  wp i (publish_loop n d (next_snapshot_key (P +:+ "snap/" +:+ dec20 L +:+ "-"))) Q E c.
Proof.
  revert c. induction n as [|n IH]; intros c Hinv HL Hd HQ; cbn [publish_loop].
  { by apply HQ; [apply rely_refl|]. }
  apply wp_bind, wp_next_snapshot_key; [done|]. intros r c1 Hr1 Hkey. pose proof Hr1 as (Hi1 & Hg1 & _).
  destruct r as [k|e]; [|by apply HQ].
  assert (good_snapshot d L (entries c1.1)) as Hd1.
  { eapply good_snapshot_mono; [|done]. by eapply entries_mono. }
  apply wp_bind, (wp_put_snapshot P ns i k L); [by apply Hkey|done|].
  intros r c2 Hr2 Hpin. pose proof (rely_trans _ _ _ _ _ _ Hr1 Hr2) as Hr.
  destruct r as [[e|]|e].
  - apply HQ; [done|]. intros k' [= <-]. split; [by apply Hkey|by eapply Hpin].
  - pose proof Hr2 as (Hi2 & Hg2 & _). apply IH; [done|done| |].
    + eapply good_snapshot_mono; [|done]. by eapply entries_mono.
    + intros r c3 Hr3. apply HQ. by eapply rely_trans.
  - by apply HQ.
Qed.

(** Only the callback may panic. *)
Definition callback_panic : string -> cfg -> Prop := fun m _ => m = "compact".

(** The snapshot that the callback makes of its arguments. *)
Lemma compact_good a c pre es post d base :
  inv c -> entries c.1 = pre ++ es ++ post -> es <> [] ->
  match base with
  | None => pre = []
  | Some b => exists s, restore b = Ok s /\ seqv s (replay pre)
  end ->
  ca_entries a = entries_at (zlen pre) es ->
  compact base (ca_entries a) = Some (Ok d) ->
  good_snapshot d (zlen pre + zlen es - 1) (entries c.1).
Proof.
  intros Hinv Hent Hne Hbase Ha Hd. rewrite Ha in Hd. pose proof (inv_entries _ _ _ Hinv) as Hok.
  rewrite Hent, app_assoc in Hok. apply Forall_app in Hok as [Hok _].
  assert (exists s, restore d = Ok s /\ seqv s (replay (pre ++ es))) as (s & Hs & Heq).
  { destruct base as [b|].
    - destruct Hbase as (s & Hb & Hs). by eapply compact_base.
    - subst pre. by apply compact_init. }
  pose proof (zlen_nonneg pre). pose proof (zlen_nonneg post).
  split.
  - rewrite Hent, !zlen_app. lia.
  - exists s. split; [done|]. rewrite Hent, app_assoc.
    replace (zlen pre + zlen es - 1 + 1) with (zlen (pre ++ es)) by (rewrite zlen_app; lia).
    by rewrite take_zlen_app.
Qed.

Lemma wp_run_compaction i a c (Q : CompactOutcome -> cfg -> Prop) :
  inv c -> args_ok P ns a (entries c.1) ->
  (forall o c', rely i c c' ->
     (forall f, o = Done f -> fold_ok P f c' /\ last_lsn a = Some (f_lsn f)) -> Q o c') ->
  wp i (run_compaction a) Q callback_panic c.
Proof.
  intros Hinv (pre & es & post & Hent & Hne & Hmax & Ha & Hpre & Hca & Hbase) HQ. unfold run_compaction.
  set (L := zlen pre + zlen es - 1) in *.
  assert (exists e, last (ca_entries a) = Some (mkEntry L e)) as [e Hlast].
  { rewrite Ha, last_entries_at. destruct (last es) as [e|] eqn:El; [by exists e|].
    by apply last_None in El. }
  assert (last_lsn a = Some L) as HlastL by (unfold last_lsn; by rewrite Hlast).
  assert (is_u64 L) as HL.
  { pose proof (zlen_nonneg pre). assert (0 < zlen es); [|unfold L; zlia].
    destruct es; [done|]. rewrite zlen_cons. pose proof (zlen_nonneg es). lia. }
  rewrite Hlast. apply wp_bind.
  apply (wp_mono _ _ _ _ _ _ _ (fun r c' => rely i c c' /\
    match r with Err _ => True | Ok None => pre = []
    | Ok (Some b) => exists s, restore b = Ok s /\ seqv s (replay pre) end)).
  2: { destruct (ca_base_key a) as [k|]; [|by split; [apply rely_refl|]].
       destruct Hbase as (Lb & Hkey & Hlb). apply wp_bind, (wp_fetch_snapshot P ns i _ k Lb); [done..|].
       intros r c1 Hr1 Hf. destruct r as [[b|]|err]; (split; [done|]); [|done..].
       destruct Hf as (_ & s & Hs & Heq). exists s. split; [done|].
       rewrite <- Hlb in Heq. pose proof (entries_mono _ _ _ (rely_grows _ _ _ _ _ Hr1)) as Hp.
       rewrite (take_prefix _ (entries c.1)), Hent, take_zlen_app in Heq; [done|done|].
       rewrite Hent, zlen_app. pose proof (zlen_nonneg (es ++ post)). lia. }
  intros base c1 [Hr1 Hb]. pose proof Hr1 as (Hi1 & Hg1 & _).
  destruct base as [base|m]; [|by apply HQ].
  destruct (compact base (ca_entries a)) as [[d|err]|] eqn:Ec; [|by apply HQ|done].
  destruct (check_limit _ _ _) as [[]|err]; [|by apply HQ].
  destruct (entries_mono _ _ _ Hg1) as [more Hmore].
  assert (good_snapshot d L (entries c1.1)) as Hd.
  { eapply (compact_good a c1 pre es (post ++ more)); [done| |done| |done|done].
    - rewrite Hmore, Hent. by rewrite <- !app_assoc.
    - by destruct base. }
  rewrite Hpre. apply wp_bind. unfold publish_snapshot. apply wp_publish_loop; [done..|].
  intros r c2 Hr2 Hpub. pose proof (rely_trans _ _ _ _ _ _ Hr1 Hr2) as Hr12.
  pose proof Hr2 as (Hi2 & Hg2 & _). destruct r as [k|err]; [|by apply HQ].
  destruct (Hpub k eq_refl) as [Hkey Hpin].
  apply wp_bind, wp_on_fs_.
  { apply (safe_save_snapshot P ns _ k L); [done..|].
    eapply good_snapshot_mono; [|done]. by eapply entries_mono. }
  intros c3 Hr3. pose proof Hr3 as (Hi3 & Hg3 & _). apply HQ; [by eapply rely_trans|].
  intros f [= <-]. split; [|done]. split_and!; cbn [f_key f_lsn]; [done| |by eapply pinned_mono].
  destruct Hd as [Hlt _]. pose proof (zlen_mono _ _ _ Hg2). pose proof (zlen_mono _ _ _ Hg3). lia.
Qed.

(** The whole thread: it ends, and by a panic only if the callback panicked. *)
Lemma wp_compaction_thread i t a c :
  inv c -> args_ok P ns a (entries c.1) -> (exists j, w_jobs c.2 !! t = Some j /\ j_args j = a) ->
  wp i (compaction_thread t a) (fun _ _ => True) no_panic c.
Proof.
  intros Hinv Ha (j & Hj & Hja). unfold compaction_thread.
  eapply wp_on_panic; [|apply wp_bind, wp_run_compaction; [done..|]].
  { intros m c' _. by apply wp_exit. }
  intros o c1 Hr1 Ho. apply wp_bind. eapply wp_send; [|exact Ho|].
  - destruct (grows_jobs _ _ _ (rely_grows _ _ _ _ _ Hr1) t j Hj) as (j1 & Hj1 & Hja1).
    exists j1. split; [done|congruence].
  - intros c2 _. by apply wp_exit.
Qed.

(** Starting a thread that has been created. *)
Lemma first_unstarted_spec t js t' j : first_unstarted t js = Some (t', j) ->
  (t <= t')%nat /\ js !! (t' - t)%nat = Some j.
Proof.
  revert t. induction js as [|j0 js IH]; intros t; cbn [first_unstarted]; [done|].
  destruct (j_started j0).
  - intros [Hle Hl]%IH. split; [lia|].
    replace (t' - t)%nat with (Datatypes.S (t' - Datatypes.S t)) by lia. done.
  - intros [= <- <-]. by rewrite Nat.sub_diag.
Qed.

Lemma spawned_ok i c w p : inv c -> spawned c.2 = Some (w, p) ->
  guar P ns i c (after (record P) i c w) /\ wp i p (fun _ _ => True) no_panic (after (record P) i c w).
Proof.
  intros Hinv Hsp. unfold spawned in Hsp.
  destruct (first_unstarted 0 (w_jobs c.2)) as [[t j]|] eqn:Ef; [|done]. injection Hsp as <- <-.
  apply first_unstarted_spec in Ef as [_ Hj]. rewrite Nat.sub_0_r in Hj.
  assert (quiet P ns c (with_jobs (alter set_started t (w_jobs c.2)) c.2)) as Hq.
  { apply quiet_alter; [done|]. intros j' Hj'. split; [|done]. exact (inv_jobs _ _ _ Hinv t j' Hj'). }
  destruct (quiet_guar P ns i c _ Hinv Hq) as [Hgu _]. split; [done|].
  rewrite (quiet_after _ _ _ _ _ Hq). apply wp_compaction_thread.
  - by apply (quiet_inv P ns c).
  - by apply (inv_jobs _ _ _ Hinv t j).
  - eexists. cbn. rewrite list_lookup_alter_eq, Hj. done.
Qed.

End compactor_props.
