(* ===== verification/WriterInv.v ===== *)
(** * The writer's invariant and the compaction state machine

    [writer_ok] is what holds of a writer's handle between calls: the contract
    of [Core], a validator, a ready fold that applies to the image and whose
    snapshot is pinned, and a queue of distinct dead snapshots within its
    bound. The steps of the compaction state machine keep it. *)

From S2P Require Import Prelude Fmt Utf8 Error Image ImageCodec App Proc Atomic AtomicProps Cache CacheChecksum CacheProps CacheTheorems Store World Core Compactor Writer Protocol Invariant Steps StepsCache StepsStore CoreProps CompactorProps.

Section writer_inv.
Context {S : Type} `{ObjectStoreLaws S} `{WalAppLaws}.
Variable P : string.
Variable ns : option string.
Context `{!LogNames P ns}.
Abbreviation World := (World S).
Abbreviation cfg := (History * World)%type.
Abbreviation inv := (inv P ns).
Abbreviation rely := (rely P ns).
Abbreviation grows := (grows P).
Abbreviation wp := (pwp P ns).
Abbreviation seen := (seen P).
Abbreviation core_ok := (core_ok P ns).
Implicit Types (w : World) (c : cfg) (self : WalTier).

Definition compaction_ok (cm : Compaction) (im : WalImage) c : Prop :=
  match cm with
  | Ready f => fold_ok P f c /\ f_lsn f < next_lsn im
  | Running t => exists j l, w_jobs c.2 !! t = Some j /\ last_lsn (j_args j) = Some l /\ l < next_lsn im
  | _ => True
  end.

Record garbage_ok self c : Prop := {
  go_dead : Forall (fun k => dead P k c.2) (garbage self);
  go_nodup : NoDup (garbage self);
  go_bound : zlen (garbage self) <= max_pending_deletes (opts (core self));
}.

(** Before a superseded fold is discarded. *)
Record writer_pre self c : Prop := {
  wo_core : core_ok (core self) c;
  wo_etag : is_Some (etag (core self));
  wo_compaction : compaction_ok (compaction self) (image (core self)) c;
  wo_garbage : garbage_ok self c;
}.

Definition fold_applies self : Prop :=
  match compaction self with Ready f => applies_to f (image (core self)) = true | _ => True end.

Definition writer_ok self c : Prop := writer_pre self c /\ fold_applies self.

Lemma compaction_ok_mono cm im c c' : inv c' -> grows c c' -> compaction_ok cm im c -> compaction_ok cm im c'.
Proof.
  intros Hi Hg. destruct cm; cbn; try done.
  - intros (j & l & Hj & Hl & Hlt). destruct (grows_jobs _ _ _ Hg task j Hj) as (j' & Hj' & Ha).
    exists j', l. by rewrite Ha.
  - intros [Hf Hl]. split; [by eapply fold_ok_mono|done].
Qed.

Lemma writer_pre_mono self c c' : inv c' -> grows c c' -> writer_pre self c -> writer_pre self c'.
Proof.
  intros Hi Hg [Hc He Hcm [Hd Hn Hb]]. split; [by eapply core_ok_mono|done|by eapply compaction_ok_mono|].
  split; [|done..]. eapply Forall_impl; [exact Hd|]. intros k Hk. by eapply dead_mono.
Qed.

Lemma writer_ok_mono self c c' : inv c' -> grows c c' -> writer_ok self c -> writer_ok self c'.
Proof. intros Hi Hg [Hp Ha]. split; [by eapply writer_pre_mono|done]. Qed.

(** ** The queue *)

Lemma queue_obsolete_core k self : core (queue_obsolete k self) = core self.
Proof. unfold queue_obsolete. by repeat case_match. Qed.
Lemma queue_obsolete_compaction k self : compaction (queue_obsolete k self) = compaction self.
Proof. unfold queue_obsolete. by repeat case_match. Qed.

Lemma queue_obsolete_pre k self c : dead P k c.2 -> writer_pre self c -> writer_pre (queue_obsolete k self) c.
Proof.
  intros Hk [Hc He Hcm [Hd Hn Hb]]. unfold queue_obsolete. case_bool_decide as Hin; [by split|].
  destruct (Z.eqb_spec (zlen (garbage self)) (max_pending_deletes (opts (core self)))) as [Heq|Hne].
  { by split. }
  split; [done..|]. split; cbn [garbage core with_garbage].
  - apply Forall_app. split; [done|]. by repeat constructor.
  - apply NoDup_app. split_and!; [done| |apply NoDup_singleton].
    by intros x Hx ->%list_elem_of_singleton.
  - rewrite zlen_app. change (zlen [k]) with 1. lia.
Qed.

Lemma queue_obsolete_ok k self c : dead P k c.2 -> writer_ok self c -> writer_ok (queue_obsolete k self) c.
Proof.
  intros Hk [Hp Ha]. split; [by apply queue_obsolete_pre|].
  unfold fold_applies. by rewrite queue_obsolete_core, queue_obsolete_compaction.
Qed.

Lemma queue_superseded_ok o self c : (forall sr, o = Some sr -> dead P (sr_key sr) c.2) ->
  writer_ok self c -> writer_ok (queue_superseded o self) c.
Proof. intros Ho Hw. destruct o as [sr|]; [|done]. apply queue_obsolete_ok; [by apply Ho|done]. Qed.

(** ** Discarding a superseded fold *)

Lemma with_compaction_pre cm self c : compaction_ok cm (image (core self)) c ->
  writer_pre self c -> writer_pre (with_compaction cm self) c.
Proof. intros Hcm [Hc He _ [Hd Hn Hb]]. by split. Qed.

(** A fold the image has passed is dead unless the image references it. *)
Lemma superseded_fold_dead f self c : inv c -> writer_pre self c -> fold_ok P f c ->
  f_lsn f < next_lsn (image (core self)) -> applies_to f (image (core self)) = false ->
  fold_installed f (image (core self)) = false -> dead P (f_key f) c.2.
Proof.
  intros Hinv Hw (Hkey & _ & _) Hlt Happ Hinst. unfold applies_to in Happ.
  apply andb_false_iff in Happ as [Happ|Happ]; zbool; [|lia].
  destruct (core_ok_wf _ _ _ _ (wo_core _ _ Hw)) as [Hwf _].
  pose proof (first_lsn_wf _ Hwf) as [Hf _]. pose proof (co_seen _ _ _ _ (wo_core _ _ Hw)) as Hs.
  unfold fold_installed in Hinst.
  destruct (img_snapshot (image (core self))) as [sr|] eqn:Esr; cbn in Hf.
  2: { destruct Hkey as [[? ?] _]. lia. }
  destruct (wo_etag _ _ Hw) as [e He]. rewrite He in Hs. destruct Hs as (_ & _ & _ & _ & Hs).
  destruct (Hs sr Esr) as (Hsk & _ & sr' & Hr' & Hle). case_bool_decide as Hne; [done|].
  exists (f_lsn f), sr'. split_and!; [done|done|destruct Hle as [->|]; lia|].
  intros Heq. destruct Hle as [->|Hlt']; [congruence|].
  destruct (inv_ref P ns c sr' Hinv Hr') as [Hsk' _]. rewrite <- Heq in Hsk'.
  pose proof (snap_key_fun _ _ _ _ Hkey Hsk'). lia.
Qed.

Lemma wp_discard_superseded_fold i self (Q : WalTier -> cfg -> Prop) E c :
  inv c -> writer_pre self c ->
  (forall self' c', rely i c c' -> writer_ok self' c' -> core self' = core self ->
     compaction_running self' = compaction_running self -> Q self' c') ->
  wp i (discard_superseded_fold self) Q E c.
Proof.
  intros Hinv Hw HQ. unfold discard_superseded_fold. pose proof (rely_refl P ns i c Hinv) as Hrefl.
  destruct (compaction self) as [|t|f| | |m] eqn:Ecm;
    try (apply HQ; [done|split; [done|unfold fold_applies; by rewrite Ecm]|done|done]).
  destruct (applies_to f (image (core self))) eqn:Eapp.
  { apply HQ; [done|split; [done|unfold fold_applies; by rewrite Ecm]|done|done]. }
  pose proof (wo_compaction _ _ Hw) as Hcm. rewrite Ecm in Hcm. destruct Hcm as [Hf Hlt].
  destruct (fold_installed f (image (core self))) eqn:Einst.
  { apply HQ; [done|split; [by apply with_compaction_pre|done]|done|].
    unfold compaction_running. by rewrite Ecm. }
  assert (dead P (f_key f) c.2) as Hdead by by eapply superseded_fold_dead.
  apply wp_bind, wp_on_fs_; [apply safe_remove|]. intros c' Hr'. pose proof Hr' as (Hi' & Hg' & _).
  apply HQ; [done| | |].
  - apply queue_obsolete_ok; [by eapply dead_mono|]. split; [|done].
    apply with_compaction_pre; [done|]. by eapply writer_pre_mono.
  - by rewrite queue_obsolete_core.
  - unfold compaction_running. by rewrite queue_obsolete_compaction, Ecm.
Qed.

(** ** Taking over the outcome of a thread *)

Definition outcome_ok (o : CompactOutcome) (im : WalImage) c : Prop :=
  forall f, o = Done f -> fold_ok P f c /\ f_lsn f < next_lsn im.

(** A message received from the handle's own thread. *)
Lemma received_outcome t o self c c' : writer_pre self c -> compaction self = Running t ->
  inv c' -> grows c c' -> received_ok P t o c' -> outcome_ok (default disconnected o) (image (core self)) c'.
Proof.
  intros Hw Ecm Hi Hg Hrec f Hf. destruct o as [o|]; cbn in Hf; [|done]. subst o.
  destruct (Hrec f eq_refl) as (Hfold & j' & Hj' & Hlast'). split; [done|].
  pose proof (wo_compaction _ _ Hw) as Hcm. rewrite Ecm in Hcm. destruct Hcm as (j & l & Hj & Hlast & Hlt).
  destruct (grows_jobs _ _ _ Hg t j Hj) as (j1 & Hj1 & Ha). assert (j1 = j') as -> by congruence.
  rewrite Ha in Hlast'. assert (l = f_lsn f) as <- by congruence. done.
Qed.

Lemma wp_finish_compaction i o t self (Q : WalTier -> cfg -> Prop) E c :
  inv c -> writer_pre self c -> compaction self = Running t -> outcome_ok o (image (core self)) c ->
  (forall self' c', rely i c c' -> writer_ok self' c' -> core self' = core self ->
     compaction_running self' = false -> Q self' c') ->
  wp i (finish_compaction o self) Q E c.
Proof.
  intros Hinv Hw Ecm Ho HQ. unfold finish_compaction. rewrite Ecm.
  apply wp_bind, (wp_join P ns). intros panicked c1 Hr1. pose proof Hr1 as (Hi1 & Hg1 & _).
  apply wp_discard_superseded_fold; [done| |].
  - apply with_compaction_pre; [|by eapply writer_pre_mono].
    destruct panicked; [done|]. destruct o as [f|m]; [|done].
    destruct (Ho f eq_refl) as [Hf Hlt]. split; [by eapply fold_ok_mono|done].
  - intros self' c2 Hr2 Hok Hcore Hrun. apply HQ; [by eapply rely_trans|done|done|].
    rewrite Hrun. destruct panicked; [done|]. by destruct o.
Qed.

Lemma wp_integrate_compaction i self (Q : WalTier -> cfg -> Prop) E c :
  inv c -> writer_ok self c ->
  (forall self' c', rely i c c' -> writer_ok self' c' -> core self' = core self -> Q self' c') ->
  wp i (integrate_compaction self) Q E c.
Proof.
  intros Hinv [Hw Ha] HQ. unfold integrate_compaction.
  destruct (compaction self) as [|t|f| | |m] eqn:Ecm;
    try (by apply HQ; [apply rely_refl|..]).
  apply wp_bind, (wp_try_recv P ns). intros r c1 Hr1 Hrec. pose proof Hr1 as (Hi1 & Hg1 & _).
  pose proof (writer_pre_mono _ _ _ Hi1 Hg1 Hw) as Hw1.
  destruct r as [o| |].
  - apply (wp_finish_compaction _ _ t); [done..| |].
    + by apply (received_outcome t (Some o) self c c1).
    + intros self' c2 Hr2 Hok Hcore _. apply HQ; [by eapply rely_trans|done|done].
  - apply HQ; [done| |done]. by eapply writer_ok_mono.
  - apply (wp_finish_compaction _ _ t); [done..| |].
    + by intros f.
    + intros self' c2 Hr2 Hok Hcore _. apply HQ; [by eapply rely_trans|done|done].
Qed.

Lemma wp_sync_compaction i self (Q : WalTier -> cfg -> Prop) E c :
  inv c -> writer_ok self c ->
  (forall self' c', rely i c c' -> writer_ok self' c' -> core self' = core self -> Q self' c') ->
  wp i (sync_compaction self) Q E c.
Proof.
  intros Hinv Hw HQ. unfold sync_compaction. apply wp_bind, wp_integrate_compaction; [done..|].
  intros s1 c1 Hr1 [Hw1 _] Hcore1. pose proof Hr1 as (Hi1 & _).
  apply wp_discard_superseded_fold; [done..|]. intros s2 c2 Hr2 Hw2 Hcore2 _.
  apply HQ; [by eapply rely_trans|done|congruence].
Qed.

Lemma wp_wait_for_compaction i self (Q : WalTier * Result CompactionStatus.t WalError -> cfg -> Prop) E c :
  inv c -> writer_ok self c ->
  (forall self' c', rely i c c' -> writer_ok self' c' -> core self' = core self ->
     compaction_running self' = false -> Q (self', current_compaction_status self') c') ->
  wp i (wait_for_compaction self) Q E c.
Proof.
  intros Hinv [Hw Ha] HQ. unfold wait_for_compaction. apply wp_bind.
  apply (wp_mono _ _ _ _ _ _ _ (fun s c' => rely i c c' /\ writer_ok s c' /\ core s = core self
    /\ compaction_running s = false)).
  - intros s1 c1 (Hr1 & [Hw1 Ha1] & Hcore1 & Hrun1). pose proof Hr1 as (Hi1 & _).
    apply wp_bind, wp_discard_superseded_fold; [done..|].
    intros s2 c2 Hr2 Hw2 Hcore2 Hrun2. apply HQ; [by eapply rely_trans|done|congruence|congruence].
  - destruct (compaction self) as [|t|f| | |m] eqn:Ecm;
      try (cbn; split_and!; [by apply rely_refl|by split|done|unfold compaction_running; by rewrite Ecm]).
    apply wp_bind, (wp_recv P ns). intros r c1 Hr1 Hrec. pose proof Hr1 as (Hi1 & Hg1 & _).
    apply (wp_finish_compaction _ _ t); [done|by eapply writer_pre_mono|done| |].
    + by apply (received_outcome t r self c c1).
    + intros s2 c2 Hr2 Hok Hcore Hrun. split_and!; [by eapply rely_trans|done..].
Qed.

(** ** Starting a thread *)

Lemma number_entries_at first k es : 0 <= first + k -> first + k + zlen es <= U64_MAX ->
  number_entries first k es = entries_at (first + k) es.
Proof.
  revert k. induction es as [|e es IH]; intros k Hk0 Hm; [done|].
  rewrite zlen_cons in Hm. pose proof (zlen_nonneg es). cbn [number_entries].
  change (entries_at (first + k) (e :: es)) with (mkEntry (first + k) e :: entries_at (first + k + 1) es).
  rewrite IH by lia. unfold wrapping_add. rewrite wrap64_small by zlia. do 2 f_equal. lia.
Qed.

Lemma wp_spawn_compaction i self (Q : WalTier * bool -> cfg -> Prop) E c :
  inv c -> writer_ok self c -> img_entries (image (core self)) <> [] ->
  (forall r c', rely i c c' -> writer_ok r.1 c' -> core r.1 = core self -> Q r c') ->
  wp i (spawn_compaction self) Q E c.
Proof.
  intros Hinv [Hw Ha] Hne HQ. unfold spawn_compaction. pose proof (wo_core _ _ Hw) as Hc.
  destruct (core_ok_wf _ _ _ _ Hc) as [Hwf Hwin].
  pose proof (first_lsn_wf _ Hwf) as [Hf Hf0]. pose proof (next_lsn_wf _ Hwf) as [Hn Hnmax].
  set (im := image (core self)) in *.
  assert (0 < zlen (img_entries im)) as Hpos.
  { destruct (img_entries im) as [|e es]; [done|]. rewrite zlen_cons. pose proof (zlen_nonneg es). lia. }
  assert (tip im = Some (next_lsn im - 1)) as Htip.
  { unfold tip, checked_sub. destruct (Z.leb_spec 1 (next_lsn im)); [done|lia]. }
  rewrite Htip. destruct Hwin as (pre & post & Hent & Hpre).
  match goal with |- context [spawn ?x] => set (a := x) end.
  assert (ca_entries a = entries_at (first_lsn im) (img_entries im)) as Hae.
  { cbn. rewrite number_entries_at; [by rewrite Z.add_0_r|lia|lia]. }
  assert (args_ok P ns a (entries c.1)) as Hargs.
  { exists pre, (img_entries im), post. rewrite Hpre. split_and!; [done|done|lia|done| | |].
    - cbn. unfold snap_prefix. rewrite (oo_prefix _ _ (co_opts _ _ _ _ Hc)), Hn. done.
    - apply Hc.
    - cbn. destruct (img_snapshot im) as [sr|] eqn:Esr; cbn in Hf |- *.
      + destruct (wo_etag _ _ Hw) as [e He]. pose proof (co_seen _ _ _ _ Hc) as Hs. rewrite He in Hs.
        destruct Hs as (_ & _ & _ & _ & Hs). destruct (Hs sr Esr) as (Hk & _). by exists (sr_lsn sr).
      + apply zlen_0_nil. lia. }
  apply wp_bind, (wp_spawn P ns); [done|]. intros r c1 Hr1 Hj. pose proof Hr1 as (Hi1 & Hg1 & _).
  pose proof (writer_pre_mono _ _ _ Hi1 Hg1 Hw) as Hw1. destruct r as [t|e].
  - apply HQ; [done| |done]. split; [|done]. apply with_compaction_pre; [|done].
    destruct (Hj t eq_refl) as (j & Hjt & Hja). exists j, (next_lsn im - 1).
    split_and!; [done| |fold im; lia]. rewrite Hja. unfold last_lsn. rewrite Hae, last_entries_at.
    destruct (last (img_entries im)) as [x|] eqn:El; [|by apply last_None in El].
    cbn. f_equal. lia.
  - apply HQ; [done| |done]. split; [|done]. by apply with_compaction_pre.
Qed.

Lemma wp_compact_now i self (Q : WalTier * bool -> cfg -> Prop) E c :
  inv c -> writer_ok self c ->
  (forall r c', rely i c c' -> writer_ok r.1 c' -> core r.1 = core self -> Q r c') ->
  wp i (compact_now self) Q E c.
Proof.
  intros Hinv Hw HQ. unfold compact_now. apply wp_bind, wp_sync_compaction; [done..|].
  intros s1 c1 Hr1 Hw1 Hcore1. pose proof Hr1 as (Hi1 & _). destruct (_ || _) eqn:Eb.
  - by apply HQ.
  - apply orb_false_elim in Eb as [_ Hne]. apply bool_decide_eq_false in Hne.
    apply wp_spawn_compaction; [done..|]. intros r c2 Hr2 Hw2 Hcore2.
    apply HQ; [by eapply rely_trans|done|congruence].
Qed.

Lemma wp_maybe_trigger_compaction i self (Q : WalTier -> cfg -> Prop) E c :
  inv c -> writer_ok self c ->
  (forall self' c', rely i c c' -> writer_ok self' c' -> core self' = core self -> Q self' c') ->
  wp i (maybe_trigger_compaction self) Q E c.
Proof.
  intros Hinv Hw HQ. unfold maybe_trigger_compaction. destruct (_ && _).
  - apply wp_bind, wp_compact_now; [done..|]. intros [s b] c' Hr Hw' Hcore. by apply HQ.
  - by apply HQ; [apply rely_refl|..].
Qed.

Lemma wp_take_compaction_error i self (Q : WalTier * option string -> cfg -> Prop) E c :
  inv c -> writer_ok self c ->
  (forall r c', rely i c c' -> writer_ok r.1 c' -> core r.1 = core self -> is_failed r.1 = false -> Q r c') ->
  wp i (take_compaction_error self) Q E c.
Proof.
  intros Hinv Hw HQ. unfold take_compaction_error. apply wp_bind, wp_integrate_compaction; [done..|].
  intros s1 c1 Hr1 Hw1 Hcore1. destruct (compaction s1) as [|t|f| | |m] eqn:Ecm;
    try (apply HQ; [done|done|done|cbn; unfold is_failed; by rewrite Ecm]).
  apply HQ; [done| |done|done]. destruct Hw1. split; [|done]. by apply with_compaction_pre.
Qed.

End writer_inv.
