(* ===== verification/InstallProps.v ===== *)
(** * One compare-and-swap attempt

    [try_install] either commits its batch (and the ready fold) on top of the
    handle's image, or changes nothing and brings the handle up to date, or
    fails; only an error of the PUT itself leaves the outcome unknown. *)

From S2P Require Import Prelude Fmt Utf8 Error Image ImageCodec App Proc Atomic AtomicProps Cache CacheChecksum CacheProps CacheTheorems Store World Core Compactor Writer Protocol Invariant Steps StepsCache StepsStore CoreProps CompactorProps WriterInv.

Section install_props.
Context {S : Type} `{ObjectStoreLaws S} `{WalAppLaws}.
Variable P : string.
Variable ns : option string.
Context `{!LogNames P ns}.
Abbreviation World := (World S).
Abbreviation cfg := (History * World)%type.
Abbreviation inv := (inv P ns).
Abbreviation rely := (rely P ns).
Abbreviation grows := (grows P).
Abbreviation wp := (pwp P ns).
Abbreviation seen := (seen P).
Abbreviation core_ok := (core_ok P ns).
Abbreviation writer_ok := (writer_ok P ns).
Abbreviation writer_pre := (writer_pre P ns).
Implicit Types (w : World) (c : cfg) (self : WalTier).

(** ** Pushing an accepted batch *)

Lemma push_applied_spec first k es co : 0 <= first + k -> first + k + zlen es <= U64_MAX ->
  push_applied first k es co =
    mkCore (opts co) (cache co) (replay_from (state co) (first + k) es)
      (mkWalImage (img_snapshot (image co)) (img_entries (image co) ++ es))
      (etag co) (image_len co) (cache_dirty co).
Proof.
  revert k co. induction es as [|e es IH]; intros k co Hk Hm; cbn [push_applied].
  { rewrite app_nil_r. by destruct co as [o ca s [sn en] et l d]. }
  rewrite zlen_cons in Hm. pose proof (zlen_nonneg es).
  rewrite IH by lia. cbn [opts cache state image etag image_len cache_dirty img_snapshot img_entries].
  unfold wrapping_add. rewrite wrap64_small by zlia. rewrite <- app_assoc. cbn [app].
  f_equal. unfold replay_from. cbn [number fold_left fst snd]. do 2 f_equal. lia.
Qed.

(** ** The pending fold and the candidate *)

(** The snapshot and the number of dropped entries of the next candidate. *)
Definition fold_ref self : option SnapshotRef :=
  match compaction self with Ready f => Some (mkSnapshotRef (f_key f) (f_lsn f)) | _ => None end.
Definition fold_skip self : Z :=
  match compaction self with Ready f => f_lsn f + 1 - first_lsn (image (core self)) | _ => 0 end.

(** The log object a win of the next attempt stores. *)
Definition next_image self (extra : list bytes) : WalImage :=
  view (image (core self)) (fold_ref self) (fold_skip self) extra.

Lemma applies_bounds f im : applies_to f im = true <-> first_lsn im <= f_lsn f < next_lsn im.
Proof. unfold applies_to. rewrite andb_true_iff, Z.leb_le, Z.ltb_lt. done. Qed.

Lemma fold_skip_range self c : writer_ok self c ->
  0 <= fold_skip self <= zlen (img_entries (image (core self))).
Proof.
  intros [Hw Ha]. destruct (core_ok_wf _ _ _ _ (wo_core _ _ _ _ Hw)) as [Hwf _].
  pose proof (next_lsn_wf _ Hwf) as [Hn _]. pose proof (zlen_nonneg (img_entries (image (core self)))).
  unfold fold_applies in Ha. unfold fold_skip. destruct (compaction self) as [| |f| | |]; try lia.
  apply applies_bounds in Ha. lia.
Qed.

Lemma candidate_spec self extra c : writer_ok self c ->
  candidate self extra = Some (encode_view (image (core self)) (fold_ref self) (fold_skip self) extra
    (limits (opts (core self)))).
Proof.
  intros Hok. pose proof (fold_skip_range self c Hok) as Hr. destruct Hok as [Hw Ha].
  destruct (core_ok_wf _ _ _ _ (wo_core _ _ _ _ Hw)) as [Hwf _].
  pose proof (next_lsn_wf _ Hwf) as [Hn Hnm]. pose proof (first_lsn_wf _ Hwf) as [_ Hf].
  unfold candidate. unfold fold_applies, fold_ref, fold_skip in *.
  destruct (compaction self) as [| |f| | |]; try done.
  rewrite Ha. do 2 f_equal. apply wrap64_small. zlia.
Qed.

Lemma candidate_error self extra e : 
  encode_view (image (core self)) (fold_ref self) (fold_skip self) extra (limits (opts (core self))) = Err e ->
  benign e.
Proof.
  unfold encode_view. intros He.
  destruct (_ ≫= _) as [n|] in He; [|by injection He as <-].
  destruct (check_limit_cases "live entries" n (Z.min (lim_entries (limits (opts (core self)))) U32_MAX))
    as [[Hc _]|[Hc _]]; rewrite Hc in He; cbn [rbind] in He; [|by injection He as <-].
  destruct (check_lsn _ n) in He; [|by injection He as <-].
  match type of He with rbind ?x _ = _ => destruct x as [sz|e'] eqn:Es end; cbn [rbind] in He.
  2: { injection He as <-. destruct (match fold_ref self with Some s => _ | None => _ end) in Es; [|done].
       match type of Es with rbind (check_limit ?a ?b ?d) _ = _ =>
         destruct (check_limit_cases a b d) as [[Hk _]|[Hk _]]; rewrite Hk in Es; cbn [rbind] in Es end;
         [|by injection Es as <-].
       destruct (_ ≫= _) in Es; [done|by injection Es as <-]. }
  match type of He with rbind ?x _ = _ => destruct x as [sz'|e'] eqn:Ea end; cbn [rbind] in He.
  2: { injection He as <-. clear -Ea. revert sz Ea. generalize (drop (Z.to_nat (fold_skip self)) (img_entries (image (core self))) ++ extra).
       intros es. induction es as [|x es IH]; intros sz Ea; cbn [add_entries_size] in Ea; [done|].
       destruct (check_limit_cases "entry bytes" (zlen x) U32_MAX) as [[Hc _]|[Hc _]]; rewrite Hc in Ea;
         cbn [rbind] in Ea; [|by injection Ea as <-].
       destruct (_ ≫= _) in Ea; [by eapply IH|by injection Ea as <-]. }
  match type of He with rbind (check_limit ?a ?b ?d) _ = _ =>
    destruct (check_limit_cases a b d) as [[Hk _]|[Hk _]]; rewrite Hk in He; cbn [rbind] in He end;
    [done|by injection He as <-].
Qed.

(** What the candidate keeps of the image, and what a fold replaces. *)
Lemma next_image_shape self extra c : writer_ok self c ->
  img_snapshot (next_image self extra) = img_snapshot (image (core self))
    /\ img_entries (next_image self extra) = img_entries (image (core self)) ++ extra
  \/ exists f, fold_ok P f c /\ first_lsn (image (core self)) <= f_lsn f < next_lsn (image (core self))
       /\ img_snapshot (next_image self extra) = Some (mkSnapshotRef (f_key f) (f_lsn f))
       /\ img_entries (next_image self extra)
          = drop (Z.to_nat (f_lsn f + 1 - first_lsn (image (core self)))) (img_entries (image (core self))) ++ extra.
Proof.
  intros [Hw Ha]. pose proof (wo_compaction _ _ _ _ Hw) as Hcm.
  unfold next_image, view, view_snapshot, view_entries, fold_ref, fold_skip, fold_applies in *. cbn [img_snapshot img_entries].
  destruct (compaction self) as [|t|f| | |m]; try by left. right. exists f.
  split_and!; [apply Hcm|by apply applies_bounds..|done|done].
Qed.

Lemma next_image_key self extra c sr : writer_ok self c -> img_snapshot (next_image self extra) = Some sr ->
  snap_key_at P (sr_key sr) (sr_lsn sr).
Proof.
  intros Hok Esr. destruct (next_image_shape self extra c Hok) as [[Hs _]|(f & (Hk & _) & _ & Hs & _)].
  - destruct Hok as [Hw _]. destruct (wo_etag _ _ _ _ Hw) as [e He].
    pose proof (co_seen _ _ _ _ (wo_core _ _ _ _ Hw)) as Hseen. rewrite He in Hseen.
    destruct Hseen as (_ & _ & _ & _ & Hsn). apply Hsn. congruence.
  - rewrite Hs in Esr. by injection Esr as <-.
Qed.

(** The candidate is a legal proposal over the image it was made from. *)
Lemma next_image_proposal self extra e c : writer_ok self c -> etag (core self) = Some e -> Forall entry_ok extra ->
  fits (img_snapshot (next_image self extra)) (img_entries (next_image self extra)) (limits (opts (core self))) ->
  proposal P c e (image (core self)) (next_image self extra) extra.
Proof.
  intros Hok He Hex (Hl1 & Hl2 & Hlsn & Hkl & Hel & _).
  pose proof (co_seen _ _ _ _ (wo_core _ _ _ _ (proj1 Hok))) as Hseen. rewrite He in Hseen.
  split; [exact Hseen| |done|by apply next_image_shape].
  split_and!; [|by split|done]. destruct (img_snapshot (next_image self extra)) as [sr|] eqn:Esr; [|done].
  pose proof (next_image_key self extra c sr Hok Esr) as Hk.
  split_and!; [by destruct Hk|done|]. eapply snap_key_utf8; [apply prefix_utf8|done].
Qed.

(** ** After a win *)

(** [install_pending_fold] without its cache removal. *)
Definition installed_self self : WalTier :=
  match compaction self with
  | Ready f =>
      let i := image (core self) in
      let pops := wrap64 (f_lsn f - first_lsn i) + 1 in
      let i' := mkWalImage (Some (mkSnapshotRef (f_key f) (f_lsn f)))
                  (drop (Z.to_nat pops) (img_entries i)) in
      let self := with_core (with_image i' (core self)) (with_compaction Installed self) in
      match img_snapshot i with
      | Some old => if bool_decide (sr_key old = f_key f) then self else queue_obsolete (sr_key old) self
      | None => self
      end
  | _ => self
  end.

Lemma wp_install_pending_fold i self (Q : WalTier -> cfg -> Prop) E c :
  inv c -> (forall c', rely i c c' -> Q (installed_self self) c') ->
  wp i (install_pending_fold self) Q E c.
Proof.
  intros Hinv HQ. unfold install_pending_fold, installed_self in *.
  pose proof (HQ c (rely_refl P ns i c Hinv)) as Hnow.
  destruct (compaction self); try exact Hnow. cbn zeta in *.
  change (core (with_compaction Installed self)) with (core self).
  destruct (img_snapshot (image (core self))) as [old|]; [|exact Hnow].
  destruct (bool_decide (sr_key old = f_key f)); cbn [negb]; [exact Hnow|].
  apply wp_bind, wp_on_fs_; [apply safe_remove|]. exact HQ.
Qed.

(** The handle after a win whose batch has been pushed. *)
Definition pushed (first : Lsn) (extra : list bytes) self : WalTier :=
  with_core (push_applied first 0 extra (core self)) self.

Lemma installed_core self extra c e data : writer_ok self c ->
  core (installed_self (with_core (recorded e data (core self)) self))
  = with_image (mkWalImage (img_snapshot (next_image self extra))
      (drop (Z.to_nat (fold_skip self)) (img_entries (image (core self)))))
      (recorded e data (core self)).
Proof.
  intros Hok. pose proof (fold_skip_range self c Hok) as Hr. destruct Hok as [Hw Ha].
  destruct (core_ok_wf _ _ _ _ (wo_core _ _ _ _ Hw)) as [Hwf _].
  pose proof (next_lsn_wf _ Hwf) as [Hn Hnm]. pose proof (first_lsn_wf _ Hwf) as [_ Hf].
  unfold installed_self, next_image, view, view_snapshot, fold_ref, fold_skip, fold_applies in *.
  cbn [compaction with_core core recorded image img_snapshot].
  destruct (compaction self) as [|t|f| | |m]; cbn [with_core core];
    try (unfold with_image, recorded; cbn; destruct (core self) as [o ca s [sn es] et l d]; reflexivity).
  rewrite (wrap64_small (f_lsn f - _)) by (apply applies_bounds in Ha; zlia).
  replace (f_lsn f - first_lsn (image (core self)) + 1)
    with (f_lsn f + 1 - first_lsn (image (core self))) by lia.
  destruct (img_snapshot (image (core self))) as [old|]; [|done].
  case_bool_decide; [done|]. by rewrite queue_obsolete_core.
Qed.

Lemma installed_rest self e data : 
  compaction (installed_self (with_core (recorded e data (core self)) self))
  = match compaction self with Ready _ => Installed | cm => cm end.
Proof.
  unfold installed_self. cbn [compaction with_core].
  destruct (compaction self) as [|t|f| | |m] eqn:Ecm; try exact Ecm.
  destruct (img_snapshot _) as [old|]; [|done]. case_bool_decide; [done|]. by rewrite queue_obsolete_compaction.
Qed.

(** The snapshot a fold replaces is dead once the fold is in the log. *)
Lemma replaced_dead self f old c c' extra : writer_ok self c -> compaction self = Ready f ->
  img_snapshot (image (core self)) = Some old -> cur P c'.2 = Some (next_image self extra) ->
  sr_key old <> f_key f -> dead P (sr_key old) c'.2.
Proof.
  intros [Hw Ha] Ecm Eold Hcur Hne. pose proof (wo_core _ _ _ _ Hw) as Hc.
  destruct (core_ok_wf _ _ _ _ Hc) as [Hwf _]. pose proof (first_lsn_wf _ Hwf) as [Hf _].
  destruct (wo_etag _ _ _ _ Hw) as [e He]. pose proof (co_seen _ _ _ _ Hc) as Hs. rewrite He in Hs.
  destruct Hs as (_ & _ & _ & _ & Hsn). destruct (Hsn old Eold) as (Hk & _).
  exists (sr_lsn old), (mkSnapshotRef (f_key f) (f_lsn f)). split_and!; [done| | |done].
  - unfold snap_ref. rewrite Hcur. cbn. unfold view_snapshot, fold_ref. by rewrite Ecm.
  - unfold fold_applies in Ha. rewrite Ecm in Ha. apply applies_bounds in Ha.
    rewrite Eold in Hf. cbn in *. lia.
Qed.

Lemma installed_garbage self e data c' : writer_pre self c' ->
  (forall f old, compaction self = Ready f -> img_snapshot (image (core self)) = Some old ->
     sr_key old <> f_key f -> dead P (sr_key old) c'.2) ->
  garbage_ok P (installed_self (with_core (recorded e data (core self)) self)) c'.
Proof.
  intros Hw Hdead. destruct (wo_garbage _ _ _ _ Hw) as [Hg1 Hg2 Hg3].
  unfold installed_self. cbn [compaction with_core core recorded image].
  destruct (compaction self) as [|t|f| | |m] eqn:Ecm; try by split. cbn zeta.
  destruct (img_snapshot (image (core self))) as [old|] eqn:Eold; [|by split].
  destruct (decide (sr_key old = f_key f)) as [Hk|Hk].
  { rewrite bool_decide_eq_true_2 by done. by split. }
  rewrite bool_decide_eq_false_2 by done. specialize (Hdead f old eq_refl eq_refl Hk).
  assert (writer_pre (mkWalTier (core self) Idle (garbage self) 0 None) c') as Hpre
    by (destruct Hw; by split).
  pose proof (queue_obsolete_pre P ns _ _ _ Hdead Hpre) as [_ _ _ [Hq1 Hq2 Hq3]].
  unfold queue_obsolete in Hq1, Hq2, Hq3 |- *. cbn [garbage core with_core with_compaction opts with_image recorded] in *.
  case_bool_decide; [by split|]. destruct (_ =? _); by split.
Qed.

Lemma pushed_ok i self extra c c' e data : writer_ok self c -> commits_now P ns i c c' (image (core self)) extra ->
  cur P c'.2 = Some (next_image self extra) -> seen (next_image self extra) e c' ->
  let self' := pushed (next_lsn (image (core self))) extra
    (installed_self (with_core (recorded e data (core self)) self)) in
  writer_ok self' c' /\ next_lsn (image (core self')) = next_lsn (image (core self)) + zlen extra.
Proof.
  intros Hok (Hi & Hg & Hm & g & _ & Hglen & Hc') Hcur Hseen.
  pose proof (writer_ok_mono _ _ _ _ _ Hi Hg Hok) as Hok'.
  pose proof (fold_skip_range self c Hok) as Hskip.
  pose proof Hok' as [Hw Ha]. pose proof (wo_core _ _ _ _ Hw) as Hc.
  destruct (core_ok_wf _ _ _ _ Hc) as [Hwf Hwin].
  pose proof (next_lsn_wf _ Hwf) as [Hn Hnm]. pose proof (first_lsn_wf _ Hwf) as [_ Hf].
  pose proof Hseen as (_ & Hwf' & Hwin' & _). pose proof (window_bounds _ _ Hwf' Hwin') as Hb'.
  pose proof (next_lsn_wf _ Hwf') as [_ Hnm'].
  set (self1 := with_core (recorded e data (core self)) self).
  assert (entries c'.1 = entries g ++ extra) as Hent by by rewrite Hc', entries_app, entries_batch_of.
  assert (next_lsn (next_image self extra) = next_lsn (image (core self)) + zlen extra) as Hnext.
  { pose proof (inv_log_next _ _ _ Hi) as Hl. unfold log_next in Hl. rewrite Hcur in Hl. cbn in Hl.
    rewrite Hl, Hent, zlen_app. lia. }
  cbn zeta. unfold pushed. rewrite push_applied_spec by lia.
  unfold self1. rewrite (installed_core self extra c) by done.
  cbn [with_image recorded opts cache state image etag image_len cache_dirty img_snapshot img_entries].
  change (mkWalImage (img_snapshot (next_image self extra))
    (drop (Z.to_nat (fold_skip self)) (img_entries (image (core self))) ++ extra)) with (next_image self extra).
  split; [split; [split|]|].
  - split; cbn [with_core core opts cache state image etag]; [apply Hc|apply Hc| |done].
    unfold at_image. rewrite Z.add_0_r, Hnext, Hent, <- Hglen, <- zlen_app.
    unfold zlen at 2. rewrite Nat2Z.id, firstn_all, replay_app.
    apply replay_from_Proper; [|done|done].
    pose proof (co_state _ _ _ _ Hc) as Hst. unfold at_image in Hst.
    by rewrite Hent, <- Hglen, take_zlen_app in Hst.
  - by eexists.
  - cbn [with_core compaction core image]. rewrite installed_rest.
    pose proof (wo_compaction _ _ _ _ Hw) as Hcm. pose proof (zlen_nonneg extra).
    destruct (compaction self) as [|t|f| | |m]; try done.
    destruct Hcm as (j & l & Hj & Hl & Hlt). exists j, l. split_and!; [done..|]. lia.
  - assert (garbage_ok P (installed_self self1) c') as Hgo.
    { apply installed_garbage; [done|]. intros. by eapply replaced_dead. }
    destruct Hgo as [Hd Hnd Hbd]. split; [done|done|]. cbn [garbage with_core core opts].
    unfold self1 in Hbd. by rewrite (installed_core self extra c) in Hbd by done.
  - unfold fold_applies. cbn [with_core compaction]. rewrite installed_rest.
    by destruct (compaction self).
  - exact Hnext.
Qed.

(** ** The attempt *)

(** What [try_install] guarantees, whatever it returns. *)
Definition install_ok (i : nat) self extra (c : cfg) (r : WalTier * Result bool InstallError) c' : Prop :=
  let im := image (core self) in
  compaction_running r.1 = compaction_running self /\
  match r.2 with
  | Ok true => commits P ns i c c' im extra /\ writer_ok (pushed (next_lsn im) extra r.1) c'
      /\ next_lsn (image (core (pushed (next_lsn im) extra r.1))) = next_lsn im + zlen extra
      /\ opts (core r.1) = opts (core self) /\ has_pending_fold r.1 = false
  | Ok false => rely i c c' /\ writer_ok r.1 c' /\ opts (core r.1) = opts (core self)
  | Err e => writer_ok r.1 c' /\ benign (ie_source e) /\ opts (core r.1) = opts (core self)
      /\ (rely i c c' \/ (ie_outcome e = Unknown /\ commits P ns i c c' im extra))
  end.


(** The handle with a [Core] that has been refreshed. *)
Lemma with_core_pre c c' co self : inv c' -> grows c c' -> writer_pre self c -> core_ok co c' ->
  opts co = opts (core self) /\ next_lsn (image (core self)) <= next_lsn (image co) ->
  is_Some (etag co) -> writer_pre (with_core co self) c'.
Proof.
  intros Hi Hg Hw Hco [Hopts Hmono] Het.
  pose proof (writer_pre_mono _ _ _ _ _ Hi Hg Hw) as [_ _ Hcm [Hd Hnd Hb]].
  split; cbn [with_core core compaction]; [done|done| |].
  - destruct (compaction self); try done.
    + destruct Hcm as (j & l & Hj & Hl & Hlt). exists j, l. split_and!; [done..|lia].
    + destruct Hcm as [Hf Hlt]. split; [done|lia].
  - split; [done|done|]. cbn [with_core core garbage]. by rewrite Hopts.
Qed.

(** A lost compare-and-swap, before [c1]: refresh and drop what is superseded. *)
Lemma wp_lost_install i self extra (Q : WalTier * Result bool InstallError -> cfg -> Prop) E c c1 :
  writer_ok self c -> rely i c c1 -> (forall r c', install_ok i self extra c r c' -> Q r c') ->
  wp i (lost_install self) Q E c1.
Proof.
  intros Hok Hres HQ. pose proof Hok as [Hw Ha]. pose proof (wo_core _ _ _ _ Hw) as Hc.
  destruct (wo_etag _ _ _ _ Hw) as [e He].
  pose proof Hres as (Hi1 & Hg1 & _). unfold lost_install. apply wp_bind, (wp_Core_refresh P ns); [done| |].
  { by eapply core_ok_mono. }
  intros [co res] c2 Hr2 (Hco & Hopts & Hca & Het & Hmono & Hrest). cbn [fst snd] in *.
  pose proof (rely_trans _ _ _ _ _ _ Hres Hr2) as Hr. pose proof Hr as (Hi2 & Hg2 & _).
  assert (writer_pre (with_core co self) c2) as Hw2.
  { apply (with_core_pre c); [done|done|done|done|done|]. rewrite He in Het. by apply Het. }
  destruct res as [u|err].
  - destruct Hrest as (_ & _ & Hdead). apply wp_bind, (wp_discard_superseded_fold P ns); [done..|].
    intros s3 c3 Hr3 Hok3 Hcore3 Hrun3. pose proof Hr3 as (Hi3 & Hg3 & _). apply HQ.
    split; [|split_and!]; cbn [fst snd].
    + destruct (r_superseded u) as [sr|]; cbn [queue_superseded]; [|done].
      unfold compaction_running. by rewrite queue_obsolete_compaction.
    + by eapply rely_trans.
    + apply queue_superseded_ok; [|done]. intros sr Hsr. by eapply dead_mono, Hdead.
    + destruct (r_superseded u) as [sr|]; cbn [queue_superseded]; rewrite ?queue_obsolete_core, Hcore3; done.
  - destruct Hrest as [Hb' ->]. apply HQ. split; [done|split_and!]; cbn [fst snd]; [|done|done|by left].
    split; [done|]. exact Ha.
Qed.

Lemma wp_try_install i self extra (Q : WalTier * Result bool InstallError -> cfg -> Prop) E c :
  inv c -> writer_ok self c -> Forall entry_ok extra ->
  (forall r c', install_ok i self extra c r c' -> Q r c') ->
  wp i (try_install extra self) Q E c.
Proof.
  intros Hinv Hok Hex HQ. unfold try_install. rewrite (candidate_spec self extra c) by done.
  pose proof (fold_skip_range self c Hok) as Hskip. pose proof Hok as [Hw Ha].
  pose proof (wo_core _ _ _ _ Hw) as Hc.
  destruct (encode_view _ _ _ _ _) as [data|e] eqn:Eenc.
  2: { apply candidate_error in Eenc. apply HQ. split; [done|]. split_and!; [done|done|done|left; by apply rely_refl]. }
  apply encode_view_ok in Eenc as (_ & Hfits & ->); [|lia|by eapply opts_ok_limits, co_opts].
  destruct (wo_etag _ _ _ _ Hw) as [e He]. rewrite He.
  pose proof (co_seen _ _ _ _ Hc) as Hseen. rewrite He in Hseen.
  rewrite (opts_ok_wal_key P) by apply Hc.
  change (emit _ _) with (emitted (next_image self extra)).
  apply wp_bind, (wp_commit P ns i e (image (core self)) (next_image self extra) extra); [by apply next_image_proposal|].
  intros r c1 Hres. destruct r as [[e'|]|err].
  - destruct Hres as (Hcom & Hcur & Hs'). pose proof Hcom as (Hi1 & Hg1 & _).
    apply wp_bind, (wp_record_image_put P ns); [done|apply Hc|apply Hs'|]. intros c2 Hr2.
    apply wp_bind, wp_install_pending_fold; [by apply Hr2|]. intros c3 Hr3.
    pose proof (rely_trans _ _ _ _ _ _ Hr2 Hr3) as Hr. apply HQ.
    pose proof (installed_core self extra c e' (emitted (next_image self extra)) Hok) as Hic.
    split; [|split_and!]; cbn [fst snd].
    + unfold compaction_running. rewrite installed_rest. by destruct (compaction self).
    + by eapply commits_later.
    + pose proof Hr as (Hi3 & Hg3 & _). eapply writer_ok_mono; [done|done|]. by eapply pushed_ok.
    + by eapply pushed_ok.
    + by rewrite Hic.
    + unfold has_pending_fold. rewrite installed_rest. by destruct (compaction self).
  - by apply (wp_lost_install i self extra _ _ c).
  - apply HQ. split; [done|split_and!]; cbn [fst snd ie_source ie_outcome]; [|done|done|].
    + destruct Hres as [(Hi1 & Hg1 & _)|(_ & Hi1 & Hg1 & _)]; by eapply writer_ok_mono.
    + destruct Hres as [Hr|[Ho Hcom]]; [by left|by right].
Qed.

End install_props.
