(* ===== verification/WriterProps.v ===== *)
(** * The writer's operations: contract

    Appends are linearizable: a successful append is exactly one commit of its
    final batch at the returned range; a failed one says truthfully whether it
    could have committed. Maintenance and refreshes commit nothing. Every
    operation leaves the handle usable. *)

From S2P Require Import Prelude Fmt Utf8 Error Image ImageCodec App Proc Atomic AtomicProps Cache CacheChecksum CacheProps CacheTheorems Store World Core Compactor Writer Protocol Invariant Steps StepsCache StepsStore CoreProps CompactorProps WriterInv InstallProps.

(** How the final batch of an append came from the batch it was called with:
    a chain of [reconcile_batch] replacements, each decided on a state that
    some committed prefix of the history explains. *)
Inductive reconciled `{WalAppLaws} (hist : list bytes) : list bytes -> list bytes -> Prop :=
  | reconciled_refl es : reconciled hist es es
  | reconciled_replace es es' es'' s n :
      reconciled hist es es' -> 0 <= n <= zlen hist ->
      seqv s (replay (take (Z.to_nat n) hist)) ->
      reconcile_batch s es' = ReplaceBatch es'' ->
      reconciled hist es es''.

(** The last decision on a batch that was committed at [first]: the batch is
    the one the handle was called with, at the position the handle had; or the
    application's answer on the very state that precedes the batch. *)
Definition decided `{WalAppLaws} (hist : list bytes) (n0 : Lsn) (es0 : list bytes) (first : Lsn) (es : list bytes) : Prop :=
  (first = n0 /\ es = es0)
  \/ exists es' s, reconciled hist es0 es' /\ 0 <= first <= zlen hist
       /\ seqv s (replay (take (Z.to_nat first) hist))
       /\ (reconcile_batch s es' = ReplaceBatch es \/ (reconcile_batch s es' = RetryBatch /\ es = es')).

Section writer_props.
Context {S : Type} `{ObjectStoreLaws S} `{WalAppLaws}.
Variable P : string.
Variable ns : option string.
Context `{!LogNames P ns}.
Abbreviation World := (World S).
Abbreviation cfg := (History * World)%type.
Abbreviation inv := (inv P ns).
Abbreviation rely := (rely P ns).
Abbreviation grows := (grows P).
Abbreviation wp := (pwp P ns).
Abbreviation writer_ok := (writer_ok P ns).
Implicit Types (w : World) (c : cfg) (self : WalTier).

Lemma reconciled_prefix hist hist' es es' : hist `prefix_of` hist' -> reconciled hist es es' -> reconciled hist' es es'.
Proof.
  intros Hp. induction 1 as [|es es' es'' s n _ IH Hn Hs Hr]; [constructor|].
  pose proof (prefix_length _ _ Hp). apply (reconciled_replace hist' es es' es'' s n); [done|zlia| |done].
  by rewrite (take_prefix _ hist hist') by (done || lia).
Qed.

(** ** Appends *)

Lemma reconciled_trans hist es0 es es' : reconciled hist es0 es -> reconciled hist es es' -> reconciled hist es0 es'.
Proof. intros Hr. induction 1 as [|x x' x'' s n _ IH Hn Hs Hrr]; [done|]. by econstructor; [apply IH|..]. Qed.

Lemma decided_trans hist hist' n0 es0 n es first fin : hist `prefix_of` hist' -> reconciled hist es0 es ->
  decided hist n0 es0 n es -> decided hist' n es first fin -> decided hist' n0 es0 first fin.
Proof.
  intros Hp Hrec Hd [[-> ->]|(es' & s & Hr & Hb & Hs & Ha)].
  - destruct Hd as [[-> ->]|(es' & s & Hr & Hb & Hs & Ha)]; [by left|right].
    exists es', s. pose proof (prefix_length _ _ Hp). split_and!; [by eapply reconciled_prefix|lia|zlia| |done].
    destruct Hp as [x ->]. by rewrite take_app_le by zlia.
  - right. exists es', s. split_and!; [|lia|lia|done|done]. eapply reconciled_trans; [|done]. by eapply reconciled_prefix.
Qed.

(** The batch [es] of thread [i] stands at [first] in the history, and was
    committed after [g0]. *)
Definition committed_at (i : nat) (g0 : History) (first : Lsn) (es : list bytes) (g : History) : Prop :=
  exists before later, g0 `prefix_of` before /\ zlen (entries before) = first
    /\ g = before ++ (i, es) :: later.

(** What an append guarantees, whatever it returns. *)
Definition append_ok (i : nat) (single : bool) (n0 : Lsn) (es0 : list bytes) (c : cfg) (r : WalTier * append_result) c' : Prop :=
  inv c' /\ grows c c' /\ writer_ok r.1 c' /\
  match r.2 with
  | Ok (first, past) =>
      exists es, reconciled (entries c'.1) es0 es /\ past = first + zlen es
        /\ (single = true -> zlen es = 1)
        /\ next_lsn (image (core r.1)) = past
        /\ mine i c'.1 = mine i c.1 ++ batches es
        /\ (es <> [] -> committed_at i c.1 first es c'.1 /\ decided (entries c'.1) n0 es0 first es)
  | Err e =>
      reconciled (entries c'.1) es0 (we_entries e)
      /\ (mine i c'.1 = mine i c.1
          \/ (we_outcome e = Unknown /\ mine i c'.1 = mine i c.1 ++ batches (we_entries e)))
      /\ (benign (we_source e) \/ we_source e = ReconcileAborted
          \/ (single = true /\ exists n, we_source e = InvalidReplacement n))
  end.

(** Steps of others before the operation. *)
Lemma append_ok_before i single n0 n es0 es c c1 r c' : grows c c1 -> mine i c1.1 = mine i c.1 -> inv c' ->
  reconciled (entries c1.1) es0 es -> decided (entries c1.1) n0 es0 n es ->
  append_ok i single n es c1 r c' -> append_ok i single n0 es0 c r c'.
Proof.
  intros Hg Hm Hi Hrec Hdec (_ & Hg' & Hok & Hr). pose proof (entries_mono _ _ _ Hg') as Hpre.
  assert (forall x, reconciled (entries c'.1) es x -> reconciled (entries c'.1) es0 x) as Hch.
  { intros x. apply reconciled_trans. by eapply reconciled_prefix. }
  split_and!; [done|by eapply grows_trans|done|]. destruct (r.2) as [[first past]|e].
  - destruct Hr as (x & Hx & Hp & Hs & Hn & Hmine & Hcom). exists x.
    split_and!; [by apply Hch|done|done|done|congruence|].
    intros Hne. destruct (Hcom Hne) as [(before & later & Hbef & Hrest) Hd].
    split; [|by eapply decided_trans]. exists before, later.
    split; [|done]. transitivity c1.1; [by apply grows_history in Hg|done].
  - destruct Hr as (Hx & Hmine & Hsrc). split_and!; [by apply Hch| |done]. rewrite <- Hm. done.
Qed.

Lemma append_ok_err i single n0 es self c c' src o : inv c' -> grows c c' -> writer_ok self c' ->
  (mine i c'.1 = mine i c.1 \/ (o = Unknown /\ mine i c'.1 = mine i c.1 ++ batches es)) ->
  (benign src \/ src = ReconcileAborted \/ (single = true /\ exists n, src = InvalidReplacement n)) ->
  append_ok i single n0 es c (self, Err (mkWriteError es src o)) c'.
Proof. intros. split_and!; [done..|]. split_and!; [constructor|done|done]. Qed.

(** A batch that has been installed. *)
Lemma wp_append_installed i single es self s1 (Q : WalTier * append_result -> cfg -> Prop) E c c1 :
  writer_ok self c -> es <> [] -> (single = true -> zlen es = 1) ->
  install_ok P ns i self es c (s1, Ok true) c1 ->
  (forall r c', append_ok i single (next_lsn (image (core self))) es c r c' -> Q r c') ->
  let first := next_lsn (image (core self)) in
  wp i (let count := zlen es in
        let self := with_core (push_applied first 0 es (core s1)) s1 in
        let! self := maybe_trigger_compaction self in
        Ret (self, Ok (first, wrapping_add first count))) Q E c1.
Proof.
  intros [Hw _] Hne Hsingle [_ Hinst] HQ first. cbn [fst snd] in Hinst. subst first.
  destruct (core_ok_wf _ _ _ _ (wo_core _ _ _ _ Hw)) as [Hwf _].
  pose proof (next_lsn_wf _ Hwf) as [Hnl _]. pose proof (first_lsn_wf _ Hwf) as [_ Hf0].
  pose proof (zlen_nonneg (img_entries (image (core self)))) as Hl0.
  destruct Hinst as (Hcom & Hpush & Hnext & Hopts & _). cbn zeta in *. pose proof Hcom as (Hi1 & Hg1 & Hm1 & _).
  destruct (core_ok_wf _ _ _ _ (wo_core _ _ _ _ (proj1 Hpush))) as [Hwfp _].
  unfold pushed in Hnext.
  apply wp_bind, (wp_maybe_trigger_compaction P ns); [done|exact Hpush|].
  intros s2 c2 Hr2 Hok2 Hcore2. pose proof Hr2 as (Hi2 & Hg2 & Hm2). apply HQ.
  rewrite <- Hcore2 in Hnext.
  destruct (core_ok_wf _ _ _ _ (wo_core _ _ _ _ (proj1 Hok2))) as [Hwf2 _].
  pose proof (next_lsn_wf _ Hwf2) as [_ Hmax]. pose proof (zlen_nonneg es).
  split_and!; [done|by eapply grows_trans|done|]. exists es. cbn [fst snd].
  unfold wrapping_add. rewrite wrap64_small by zlia.
  split_and!; [constructor|done|done|done|congruence|]. intros _.
  destruct Hcom as (_ & _ & _ & g & later & Hpre & Hz & Hc1).
  destruct (grows_history _ _ _ Hg2) as [later2 Hl2]. split.
  2: by left.
  exists g, (later ++ later2).
  split_and!; [done|done|]. rewrite Hl2, Hc1, <- !app_assoc. by destruct es.
Qed.

Lemma wp_append_loop i n attempt single es self (Q : WalTier * append_result -> cfg -> Prop) E c :
  inv c -> writer_ok self c -> Forall entry_ok es -> (single = true -> zlen es = 1) ->
  Z.of_nat n + attempt = max_write_attempts (opts (core self)) + 1 -> (0 < n)%nat ->
  (forall r c', append_ok i single (next_lsn (image (core self))) es c r c' -> Q r c') ->
  wp i (append_loop n attempt single es self) Q E c.
Proof.
  revert attempt es self c Q. induction n as [|n IH]; intros attempt es self c Q Hinv Hok Hes Hsingle Hbudget Hn HQ;
    [lia|]. cbn [append_loop]. pose proof Hok as [Hw _].
  destruct (core_ok_wf _ _ _ _ (wo_core _ _ _ _ Hw)) as [Hwf _].
  pose proof (next_lsn_wf _ Hwf) as [Hnl _]. pose proof (first_lsn_wf _ Hwf) as [_ Hf0].
  pose proof (zlen_nonneg (img_entries (image (core self)))) as Hl0.
  destruct es as [|e0 es0] eqn:Ees.
  { apply HQ. split_and!; [done|by apply grows_refl|done|]. exists [].
    split_and!; [constructor|by rewrite (@zlen_nil bytes), Z.add_0_r|by intros ?%Hsingle|done
                |by rewrite app_nil_r|done]. }
  rewrite <- Ees in *. assert (es <> []) as Hne by by rewrite Ees.
  apply wp_bind, (wp_try_install P ns); [done..|]. intros [s1 r] c1 Hinst0. pose proof Hinst0 as Hinst. unfold install_ok in Hinst.
  cbn [fst snd] in Hinst. destruct Hinst as [_ Hinst]. destruct r as [[|]|err].
  - by apply (wp_append_installed i single es self s1 Q E c).
  - destruct Hinst as (Hr1 & Hok1 & Hopts1). pose proof Hr1 as (Hi1 & Hg1 & Hm1). cbn [core] in *.
    pose proof (wo_core _ _ _ _ (proj1 Hok1)) as Hc1.
    destruct (core_ok_wf _ _ _ _ Hc1) as [Hwf1 Hwin1]. pose proof (window_bounds _ _ Hwf1 Hwin1) as Hb1.
    destruct (Z.eqb_spec attempt (max_write_attempts (opts (core s1)))) as [Hlast|Hmore].
    { apply HQ. apply append_ok_err; [done|done|done|by left|by left]. }
    assert (forall es', (reconcile_batch (state (core s1)) es = ReplaceBatch es'
        \/ (reconcile_batch (state (core s1)) es = RetryBatch /\ es' = es)) ->
      reconciled (entries c1.1) es es' -> Forall entry_ok es' -> (single = true -> zlen es' = 1) ->
      wp i (append_loop n (attempt + 1) single es' s1) Q E c1) as Hnext.
    { intros es' Hans Hrec Hok' Hs'. rewrite <- Hopts1 in Hbudget.
      destruct n as [|n'].
      { exfalso. apply Hmore. lia. }
      apply IH; [done|done|done|done|lia|lia|]. intros r c2 Hr. apply HQ.
      eapply append_ok_before; [exact Hg1|exact Hm1|by apply Hr|exact Hrec| |exact Hr].
      right. exists es, (state (core s1)). split_and!; [constructor|lia|lia|apply Hc1|done]. }
    destruct (reconcile_batch (state (core s1)) es) as [|es'|] eqn:Erec.
    + by apply Hnext; [right|constructor|..].
    + assert (reconciled (entries c1.1) es es') as Hrec.
      { eapply reconciled_replace; [constructor| |apply Hc1|exact Erec]. lia. }
      assert (Forall entry_ok es') as Hok' by by eapply reconcile_ok.
      destruct single; cbn [andb].
      * destruct (Z.eqb_spec (zlen es') 1) as [H1e|H1e]; cbn [negb]; [by apply Hnext; [left|..]|].
        apply HQ. split_and!; [done|done|done|]. cbn [snd we_entries we_source we_outcome].
        split_and!; [done|by left|]. right. right. split; [done|by eexists].
      * by apply Hnext; [left|..].
    + apply HQ. apply append_ok_err; [done|done|done|by left|]. right. by left.
  - destruct Hinst as (Hok1 & Hben & _ & Hcom). apply HQ. destruct Hcom as [(Hi1 & Hg1 & Hm1)|(Ho & Hi1 & Hg1 & Hm1 & _)].
    + apply append_ok_err; [done|done|done|by left|by left].
    + apply append_ok_err; [done|done|done|by right|by left].
Qed.

Lemma wp_append i es single self (Q : WalTier * append_result -> cfg -> Prop) E c :
  inv c -> writer_ok self c -> Forall entry_ok es -> (single = true -> zlen es = 1) ->
  (forall r c', append_ok i single (next_lsn (image (core self))) es c r c' -> Q r c') ->
  wp i (append es single self) Q E c.
Proof.
  intros Hinv Hok Hes Hs HQ. unfold append. apply wp_bind, (wp_sync_compaction P ns); [done..|].
  intros s1 c1 Hr1 Hok1 Hcore1. pose proof Hr1 as (Hi1 & Hg1 & Hm1).
  pose proof (oo_attempts _ _ (co_opts _ _ _ _ (wo_core _ _ _ _ (proj1 Hok1)))) as Hpos.
  apply wp_append_loop; [done..|lia|lia|]. intros r c2 Hr. apply HQ. rewrite Hcore1 in Hr.
  eapply append_ok_before; [exact Hg1|exact Hm1|by apply Hr|constructor|by left|exact Hr].
Qed.

(** ** Garbage *)

(** What a collection guarantees: the queue loses a prefix, all of it on success. *)
Definition collected_ok (i : nat) self (c : cfg) (r : WalTier * Result GarbageStatus StoreError) c' : Prop :=
  rely i c c' /\ writer_ok r.1 c' /\ core r.1 = core self /\ compaction r.1 = compaction self
  /\ garbage r.1 `suffix_of` garbage self
  /\ match r.2 with
     | Ok g => garbage r.1 = [] /\ garbage_error r.1 = None /\ g = garbage_status r.1
     | Err e => garbage r.1 <> [] /\ garbage_error r.1 = Some (StoreError_display e)
     end.

Lemma with_garbage_ok q self c : q `suffix_of` garbage self -> writer_ok self c -> writer_ok (with_garbage q self) c.
Proof.
  intros Hq [[Hc He Hcm [Hd Hn Hb]] Ha]. split; [|done]. destruct Hq as [x Hx].
  split; [done..|]. split; cbn [with_garbage garbage core].
  - rewrite Hx in Hd. by apply Forall_app in Hd as [_ ?].
  - rewrite Hx in Hn. by apply NoDup_app in Hn as (_ & _ & ?).
  - rewrite Hx, zlen_app in Hb. pose proof (zlen_nonneg x). lia.
Qed.

Lemma with_error_ok e self c : writer_ok self c -> writer_ok (with_error e self) c.
Proof. intros [[Hc He Hcm [Hd Hn Hb]] Ha]. split; [|done]. by split. Qed.

Lemma wp_collect_loop i q self0 self (Q : WalTier * Result GarbageStatus StoreError -> cfg -> Prop) E c0 c :
  rely i c0 c -> writer_ok self c -> garbage self = q -> q `suffix_of` garbage self0 ->
  core self = core self0 -> compaction self = compaction self0 ->
  (forall r c', collected_ok i self0 c0 r c' -> Q r c') ->
  wp i (collect_loop q self) Q E c.
Proof.
  revert self c. induction q as [|k q IH]; intros self c Hr Hok Hq Hsuf Hcore Hcm HQ; cbn [collect_loop].
  - apply HQ. split_and!; cbn; try done.
    by apply with_error_ok, with_garbage_ok; [apply suffix_nil|].
  - assert (dead P k c.2) as Hdead.
    { destruct Hok as [[_ _ _ [Hd _ _]] _]. rewrite Hq in Hd. by apply Forall_cons in Hd as [? _]. }
    apply wp_bind, (wp_delete_dead P ns); [done|]. intros r c1 Hr1.
    pose proof (rely_trans _ _ _ _ _ _ Hr Hr1) as Hr01. pose proof Hr1 as (Hi1 & Hg1 & _).
    pose proof (writer_ok_mono _ _ _ _ _ Hi1 Hg1 Hok) as Hok1. destruct r as [[]|e].
    + apply IH; [done| |done| |done|done|done].
      * apply with_garbage_ok; [|done]. rewrite Hq. by apply suffix_cons_r.
      * etransitivity; [|exact Hsuf]. by apply suffix_cons_r.
    + apply HQ. split_and!; cbn; try done.
      apply with_error_ok, with_garbage_ok; [by rewrite Hq|done].
Qed.

Lemma wp_collect_garbage i self (Q : WalTier * Result GarbageStatus StoreError -> cfg -> Prop) E c :
  inv c -> writer_ok self c -> (forall r c', collected_ok i self c r c' -> Q r c') ->
  wp i (collect_garbage self) Q E c.
Proof.
  intros Hinv Hok HQ. unfold collect_garbage.
  by apply (wp_collect_loop _ _ self _ _ _ c); [apply rely_refl|..].
Qed.

(** ** Flush *)

(** [try_install] without a batch commits nothing. *)
Lemma install_nothing i self c r c' : install_ok P ns i self [] c r c' -> inv c' ->
  rely i c c' /\ writer_ok r.1 c' /\ opts (core r.1) = opts (core self)
  /\ compaction_running r.1 = compaction_running self
  /\ match r.2 with
     | Ok b => b = true -> has_pending_fold r.1 = false
     | Err e => benign (ie_source e)
     end.
Proof.
  intros [Hrun Hr] Hi. destruct r as [s [[|]|e]]; cbn [fst snd] in *.
  - destruct Hr as ((_ & Hg & Hm & _) & Hok & _ & Ho & Hp). cbn in Hm. rewrite app_nil_r in Hm.
    split_and!; [done| |done|done|done]. unfold pushed in Hok. cbn in Hok. by destruct s.
  - destruct Hr as (? & ? & ?). by split_and!.
  - destruct Hr as (? & ? & ? & Hc). split_and!; [|done..].
    destruct Hc as [?|(_ & _ & Hg & Hm & _)]; [done|]. cbn in Hm. rewrite app_nil_r in Hm. by split_and!.
Qed.

Lemma install_inv' i self extra c r c' : install_ok P ns i self extra c r c' -> inv c'.
Proof.
  intros [_ Hr]. revert Hr. destruct (r.2) as [[|]|e]; [intros ((? & _) & _)|intros ((? & _) & _)|intros (_ & _ & _ & [(? & _)|(_ & ? & _)])]; done.
Qed.

Lemma wp_flush_loop i n attempt self (Q : WalTier * Result unit WalError -> cfg -> Prop) E c0 c :
  rely i c0 c -> writer_ok self c ->
  Z.of_nat n + attempt = max_write_attempts (opts (core self)) + 1 ->
  (n = 0%nat -> has_pending_fold self = false) -> compaction_running self = false ->
  (forall r c', rely i c0 c' -> writer_ok r.1 c' ->
     compaction_running r.1 = false ->
     match r.2 with Ok _ => has_pending_fold r.1 = false | Err e => benign e end -> Q r c') ->
  wp i (flush_loop n attempt self) Q E c.
Proof.
  revert attempt self c. induction n as [|n IH]; intros attempt self c Hr Hok Hb Hn Hrun HQ; cbn [flush_loop].
  { apply HQ; [done..|by apply Hn]. }
  pose proof Hr as (Hi & _). destruct (has_pending_fold self) eqn:Ep; cbn [negb]; [|by apply HQ].
  apply wp_bind, (wp_try_install P ns); [done|done|constructor|]. intros [s1 r] c1 Hinst.
  pose proof (install_inv' _ _ _ _ _ _ Hinst) as Hi1.
  destruct (install_nothing _ _ _ _ _ Hinst Hi1) as (Hr1 & Hok1 & Ho1 & Hrun1 & Hres). cbn [fst snd] in *.
  rewrite Hrun in Hrun1. pose proof (rely_trans _ _ _ _ _ _ Hr Hr1) as Hr01.
  destruct r as [b|e]; [|by apply HQ].
  destruct (has_pending_fold s1 && _) eqn:El; [by apply HQ|].
  apply IH; [done|done|rewrite Ho1; lia| |done|done].
  intros ->. apply andb_false_iff in El as [El|El]; [done|]. zbool. rewrite Ho1 in El. lia.
Qed.

(** What a flush guarantees, whatever it returns: no commit, and on success no
    fold and no garbage is left pending. *)
Definition flushed_ok (i : nat) (c : cfg) (r : WalTier * Result MaintenanceStatus WalError) c' : Prop :=
  rely i c c' /\ writer_ok r.1 c'
  /\ match r.2 with
     | Ok ms => has_pending_fold r.1 = false /\ compaction_running r.1 = false /\ garbage r.1 = []
         /\ gs_pending (ms_garbage ms) = 0 /\ current_compaction_status r.1 = Ok (ms_compaction ms)
     | Err e => benign e \/ exists m, e = CompactionError m
     end.

Lemma wp_WalTier_checkpoint i self (Q : WalTier -> cfg -> Prop) E c :
  inv c -> writer_ok self c ->
  (forall self' c', rely i c c' -> writer_ok self' c' -> compaction self' = compaction self ->
     opts (core self') = opts (core self) -> Q self' c') ->
  wp i (WalTier_checkpoint_cache self) Q E c.
Proof.
  intros Hinv Hok HQ. unfold WalTier_checkpoint_cache. pose proof Hok as [Hw Ha].
  apply wp_bind, (wp_checkpoint_cache P ns); [done|apply Hw|].
  intros co c1 Hr1 Hco Him Hst Ho Hca Het. pose proof Hr1 as (Hi1 & Hg1 & _).
  pose proof (writer_pre_mono _ _ _ _ _ Hi1 Hg1 Hw) as [_ He Hcm [Hd Hn Hb]].
  apply HQ; [done| |done|done]. split.
  - split; cbn [with_core core compaction]; [done|by rewrite Het|by rewrite Him|].
    split; cbn [with_core core garbage]; [done|done|by rewrite Ho].
  - unfold fold_applies in *. cbn [with_core compaction core]. by rewrite Him.
Qed.

Lemma status_error self e : current_compaction_status self = Err e -> exists m, e = CompactionError m.
Proof. unfold current_compaction_status. destruct (compaction self); try done. intros [= <-]. by eexists. Qed.

Lemma wp_flush i self (Q : WalTier * Result MaintenanceStatus WalError -> cfg -> Prop) E c :
  inv c -> writer_ok self c -> (forall r c', flushed_ok i c r c' -> Q r c') ->
  wp i (flush self) Q E c.
Proof.
  intros Hinv Hok HQ. unfold flush. apply wp_bind, (wp_wait_for_compaction P ns); [done..|].
  intros s1 c1 Hr1 Hok1 Hcore1 Hrun1. destruct (current_compaction_status s1) as [st|e] eqn:Est.
  2: { apply HQ. split_and!; [done|done|]. right. by eapply status_error. }
  pose proof (oo_attempts _ _ (co_opts _ _ _ _ (wo_core _ _ _ _ (proj1 Hok1)))) as Hpos.
  apply wp_bind, (wp_flush_loop _ _ _ _ _ _ c1); [by eapply rely_refl, rely_inv|done|lia|lia|done|].
  intros [s2 r] c2 Hr2 Hok2 Hrun2 Hres. cbn [fst snd] in *. pose proof (rely_trans _ _ _ _ _ _ Hr1 Hr2) as Hr02.
  destruct r as [[]|e]; [|by apply HQ; split_and!; [..|left]].
  apply wp_bind, wp_WalTier_checkpoint; [by apply Hr2|done|]. intros s3 c3 Hr3 Hok3 Hcm3 Ho3.
  pose proof (rely_trans _ _ _ _ _ _ Hr02 Hr3) as Hr03.
  apply wp_bind, wp_collect_garbage; [by apply Hr3|done|].
  intros [s4 r] c4 (Hr4 & Hok4 & Hcore4 & Hcm4 & _ & Hg4). cbn [fst snd] in *.
  apply HQ. split_and!; [by eapply rely_trans|done|]. cbn [fst snd].
  destruct r as [gs|e]; [|by left]. destruct Hg4 as (Hg & _ & ->).
  destruct (current_compaction_status s4) as [st'|e] eqn:Est4.
  2: { right. by eapply status_error. }
  split_and!; [| |done| |done].
  - unfold has_pending_fold in *. by rewrite Hcm4, Hcm3.
  - unfold compaction_running in *. by rewrite Hcm4, Hcm3.
  - cbn. by rewrite Hg.
Qed.

(** ** Refresh and open *)

Definition writer_refreshed_ok (i : nat) self (c : cfg) (r : WalTier * Result bool WalError) c' : Prop :=
  rely i c c' /\ writer_ok r.1 c'
  /\ match r.2 with
     | Ok changed => zlen (entries c.1) <= next_lsn (image (core r.1))
         /\ next_lsn (image (core self)) <= next_lsn (image (core r.1))
         /\ (changed = false -> core r.1 = core self)
     | Err e => benign e /\ core r.1 = core self
     end.

Lemma wp_WalTier_refresh i self (Q : WalTier * Result bool WalError -> cfg -> Prop) E c :
  inv c -> writer_ok self c -> (forall r c', writer_refreshed_ok i self c r c' -> Q r c') ->
  wp i (WalTier_refresh self) Q E c.
Proof.
  intros Hinv Hok HQ. unfold WalTier_refresh. apply wp_bind, (wp_sync_compaction P ns); [done..|].
  intros s1 c1 Hr1 [Hw1 Ha1] Hcore1. pose proof Hr1 as (Hi1 & Hg1 & _).
  pose proof (zlen_mono _ _ _ Hg1) as Hlen.
  apply wp_bind, (wp_Core_refresh P ns); [done|apply Hw1|].
  intros [co res] c2 Hr2 (Hco & Hopts & Hca & Het & Hmono & Hrest). cbn [fst snd] in *.
  pose proof (rely_trans _ _ _ _ _ _ Hr1 Hr2) as Hr. pose proof Hr2 as (Hi2 & Hg2 & _).
  destruct res as [u|err].
  - destruct Hrest as (Hfresh & Hsame & Hdead).
    apply wp_bind, (wp_discard_superseded_fold P ns); [done|by apply (with_core_pre P ns c1); [..|apply Het, Hw1]|].
    intros s3 c3 Hr3 Hok3 Hcore3 _. pose proof Hr3 as (Hi3 & Hg3 & _). apply HQ.
    split_and!; cbn [fst snd].
    + by eapply rely_trans.
    + apply queue_superseded_ok; [|done]. intros sr Hsr. by eapply dead_mono, Hdead.
    + assert (core (queue_superseded (r_superseded u) s3) = co) as ->.
      { by destruct (r_superseded u) as [sr|]; cbn [queue_superseded]; rewrite ?queue_obsolete_core, Hcore3. }
      cbn [core with_core] in Hmono. rewrite Hcore1 in Hmono. split; [lia|]. split; [lia|]. intros Hch. rewrite Hsame by done. exact Hcore1.
  - destruct Hrest as [Hb ->]. apply HQ. split_and!; cbn [fst snd]; [done| |by split].
    split; [|exact Ha1]. by apply (with_core_pre P ns c1); [..|apply Het, Hw1].
Qed.

Lemma wp_WalTier_open i o (Q : Result WalTier WalError -> cfg -> Prop) E c :
  inv c -> opts_typed P o ->
  (forall r c', rely i c c' ->
     match r with
     | Ok self => writer_ok self c' /\ zlen (entries c.1) <= next_lsn (image (core self))
     | Err e => benign e
     end -> Q r c') ->
  wp i (WalTier_open o) Q E c.
Proof.
  intros Hinv Ht HQ. unfold WalTier_open. apply wp_bind, (wp_Core_open P ns); [done..|].
  intros r c1 Hr1 Hop. apply HQ; [done|]. destruct r as [co|e]; [|done].
  destruct Hop as (Hco & Hlen & Het). split; [|done]. split; [|done].
  split; cbn [core compaction garbage]; [done|by apply Het|done|].
  split; cbn [garbage core]; [constructor|constructor|].
  exact (oo_pending _ _ (co_opts _ _ _ _ Hco)).
Qed.

End writer_props.
