(* ===== verification/Scenario.v ===== *)
(** * Initial worlds and a concrete one

    A store without objects, a directory without files and no threads satisfy
    the protocol with the empty history ([inv_initial]). The concrete runs of
    the theorems' instances start from a fresh [MemoryStore] and are evaluated by [run_rec]. *)

From S2P Require Import Prelude Fmt Utf8 Error Image App Proc Atomic Cache Store StoreProps World Core Compactor Writer Protocol Invariant Steps StepsCache StepsStore CoreProps CompactorProps WriterInv InstallProps WriterProps.

Record fresh_world {S} `{ObjectStoreLaws S} (w : World S) : Prop := {
  fw_wf : store_wf (w_store w);
  fw_sane : store_sane (w_store w);
  fw_objects : contents (w_store w) = ∅;
  fw_files : fs_files (w_fs w) = ∅;
  fw_ids : Forall (fun o => forall id, o = Some id -> length id = 16%nat) (w_ids w);
  fw_jobs : w_jobs w = [];
  fw_late : late (w_store w) = [];
}.

Lemma inv_initial {S} `{ObjectStoreLaws S} `{WalAppLaws} P (w : World S) :
  fresh_world w -> inv P (cache_namespace (w_store w)) ([], w).
Proof.
  intros [Hwf Hs Ho Hf Hi Hj Hl]. split; cbn [fst snd]; try done.
  - unfold current_ok. cbn [fst snd]. by rewrite Ho, lookup_empty.
  - intros k L o Hk. by rewrite Ho, lookup_empty in Hk.
  - intros n p k L d _ _ _ Hp. by rewrite Hf, lookup_empty in Hp.
  - intros n p e d _ _ _ Hp. by rewrite Hf, lookup_empty in Hp.
  - intros t j Ht. by rewrite Hj, lookup_nil in Ht.
  - by rewrite Hl.
Qed.

(** ** Concrete runs *)

Definition sane_b (w : World MemoryStore) : bool := ms_next_etag (w_store w) <=? 2 ^ 64.
Lemma sane_b_spec w : sane_b w = true -> sane_world w.
Proof. unfold sane_b. intros Hw. zbool. done. Qed.

Abbreviation mcfg := (History * World MemoryStore)%type.

Section runs.
Context `{WalAppLaws}.
Variable P : string.
Variable ns : option string.

(** Executions of thread [i] under the protocol, the others doing nothing. *)
Definition drive (i : nat) {A} (p : proc (World MemoryStore) A) (c : mcfg) : option (mcfg * outcome A) :=
  run_rec (record P) sane_b i p c.

(** An evaluated run is an execution, and its code's contract holds of it. *)
Lemma drive_exec i {A} (p : proc (World MemoryStore) A) Q E c c' a :
  inv P ns c -> pwp P ns i p Q E c -> drive i p c = Some (c', Returned a) ->
  exec sane_world (record P) (rely P ns) i p c (Returned a) c' /\ Q a c'.
Proof.
  intros Hi Hwp Hd.
  assert (exec sane_world (record P) (rely P ns) i p c (Returned a) c') as He.
  { eapply run_rec_exec; [exact sane_b_spec|apply rely_refl|apply guar_inv|exact Hwp|exact Hi|exact Hd]. }
  split; [done|]. exact (wp_exec _ _ _ _ _ _ _ _ _ _ _ _ Hwp He).
Qed.

(** What a run does is allowed to any other thread's environment. *)
Lemma drive_others i j {A} (p : proc (World MemoryStore) A) Q E c c' out : j <> i ->
  inv P ns c -> pwp P ns i p Q E c -> drive i p c = Some (c', out) -> rely P ns j c c'.
Proof.
  intros Hne. unfold drive. revert c. induction p as [a|R f k IH|m]; intros c Hi Hwp Hd; cbn [run_rec wp] in *.
  - injection Hd as <- _. by apply rely_refl.
  - specialize (Hwp c (rely_refl _ _ _ _ Hi)). destruct (f c.2) as [[w2 r]|]; [|done].
    destruct (sane_b w2) eqn:Es; [|done]. apply sane_b_spec in Es. destruct (Hwp Es) as [Hg Hw].
    eapply rely_trans; [by eapply guar_rely|]. apply (IH r); [by eapply guar_inv|done|done].
  - injection Hd as <- _. by apply rely_refl.
Qed.

End runs.

(** The configuration and the value at the end of a run that returned. *)
Definition final {A} (d : A) (r : option (mcfg * outcome A)) (c0 : mcfg) : mcfg * A :=
  match r with Some (c, Returned a) => (c, a) | _ => (c0, d) end.
Definition returned {A} (r : option (mcfg * outcome A)) : bool :=
  match r with Some (_, Returned _) => true | _ => false end.

Lemma final_spec {A} (d : A) r c0 : returned r = true ->
  r = Some ((final d r c0).1, Returned (final d r c0).2).
Proof. by destruct r as [[c [a|m]]|]. Qed.

Definition mem0 : MemoryStore := MemoryStore_new (Some (repeat x00 16)).
Definition ns0 : option string := ms_namespace mem0.
Definition world0 : World MemoryStore := mkWorld mem0 empty_fs (repeat (Some (repeat x01 16)) 3) [] [].
Definition start0 : mcfg := ([], world0).

#[global] Instance names0 : LogNames "" ns0.
Proof.
  split; [by apply is_utf8_ascii|done|]. intros n [= <-]. by vm_compute.
Qed.

Lemma fresh0 : fresh_world world0.
Proof.
  split; [apply MemoryStore_new_wf|done|done|done| |done|done].
  repeat constructor; by intros id [= <-].
Qed.

Section handles.
Context `{WalAppLaws}.

Lemma inv0 : inv "" ns0 start0.
Proof. exact (inv_initial "" world0 fresh0). Qed.

(** A value in place of the handle of a run that did not end well. *)
Definition no_handle : WalTier := mkWalTier (mkCore Options_default disabled init empty None 0 false) Idle [] 0 None.

(** Thread [i] opens the log. *)
Definition open_run (i : nat) (o : Options) (c : mcfg) : mcfg * WalTier :=
  match drive "" i (WalTier_open o) c with
  | Some (c', Returned (Ok self)) => (c', self)
  | _ => (c, no_handle)
  end.
Definition opens (i : nat) (o : Options) (c : mcfg) : bool :=
  match drive "" i (WalTier_open o) c with Some (_, Returned (Ok _)) => true | _ => false end.

Lemma open_run_exec i o c : inv "" ns0 c -> opts_typed "" o -> opens i o c = true ->
  let r := open_run i o c in
  exec sane_world (record "") (rely "" ns0) i (WalTier_open o) c (Returned (Ok r.2)) r.1
  /\ rely "" ns0 i c r.1 /\ writer_ok "" ns0 r.2 r.1.
Proof.
  intros Hi Ho Hop. unfold open_run, opens in *.
  destruct (drive "" i (WalTier_open o) c) as [[c' [[self|e]|m]]|] eqn:Ed; try done. cbn [fst snd].
  apply (drive_exec "" ns0 _ _ (fun r c' => rely "" ns0 i c c' /\
    match r with Ok self => writer_ok "" ns0 self c' | Err _ => True end) no_panic) in Ed.
  - destruct Ed as (? & ? & ?). by split_and!.
  - done.
  - apply wp_WalTier_open; [apply names0|done..|]. intros r c1 Hr Hres. split; [done|].
    destruct r; [apply Hres|done].
Qed.

(** A run of an operation of a handle: the handle and the value it returns. *)
Definition op_run {X} (d : X) (i : nat) (p : proc (World MemoryStore) (WalTier * X)) (c : mcfg)
  : mcfg * (WalTier * X) := final (no_handle, d) (drive "" i p c) c.

Lemma op_run_exec {X} (d : X) i p Q E c x : inv "" ns0 c -> pwp "" ns0 i p Q E c ->
  returned (drive "" i p c) = true -> (op_run d i p c).2.2 = x ->
  exec sane_world (record "") (rely "" ns0) i p c (Returned ((op_run d i p c).2.1, x)) (op_run d i p c).1
  /\ Q (op_run d i p c).2 (op_run d i p c).1.
Proof.
  intros Hi Hwp Hr <-. destruct (drive_exec "" ns0 i p Q E c _ _ Hi Hwp (final_spec (no_handle, d) _ c Hr)) as [He HQ].
  unfold op_run. by destruct (final _ _ _).2.
Qed.

End handles.
