(* ===== verification/WriterTheorems.v ===== *)
(** * Properties of the writer

    What each public operation of [WalTier] guarantees of every execution in
    which other handles of the log act between its steps as their own
    contracts allow ([rely]); [System] shows that all handles together do. *)

From S2P Require Import Prelude Fmt Utf8 Error Image ImageCodec App CountApp Proc Atomic AtomicProps Cache CacheChecksum CacheProps CacheTheorems Store StoreProps World Core Compactor Writer Protocol Invariant Steps StepsCache StepsStore CoreProps CompactorProps WriterInv InstallProps WriterProps Scenario.

(** Executions of thread [i] among other handles of the log at [P]. *)
Abbreviation runs P ns := (exec sane_world (record P) (rely P ns)).

Section writer_theorems.
Context {S : Type} `{ObjectStoreLaws S} `{WalAppLaws}.
Variable P : string.
Variable ns : option string.
Context `{!LogNames P ns}.
Abbreviation cfg := (History * World S)%type.
Abbreviation inv := (inv P ns).
Abbreviation runs := (runs P ns).
Abbreviation writer_ok := (writer_ok P ns).
Implicit Types (c : cfg) (self : WalTier).

(** A contract without panics holds of each execution. *)
Lemma runs_contract {A} i (p : proc (World S) A) Q c out c' :
  pwp P ns i p Q no_panic c -> runs i p c out c' -> exists r, out = Returned r /\ Q r c'.
Proof.
  intros Hwp Hrun. pose proof (wp_exec _ _ _ _ _ _ _ _ _ _ _ _ Hwp Hrun) as Hr.
  destruct out as [r|m]; [by exists r|done].
Qed.

Lemma append_contract i single es self c out c' :
  inv c -> writer_ok self c -> Forall entry_ok es -> (single = true -> zlen es = 1) ->
  runs i (append es single self) c out c' ->
  exists r, out = Returned r /\ append_ok P ns i single (next_lsn (image (core self))) es c r c'.
Proof. intros. eapply runs_contract; [|done]. by apply (wp_append P ns). Qed.

(** Where a handle stands in the history. *)
Lemma writer_ok_position self c : writer_ok self c ->
  0 <= next_lsn (image (core self)) <= zlen (entries c.1)
  /\ seqv (WalTier_state self) (replay (take (Z.to_nat (next_lsn (image (core self)))) (entries c.1))).
Proof.
  intros [Hw _]. pose proof (wo_core _ _ _ _ Hw) as Hco. split; [|apply Hco].
  destruct (core_ok_wf _ _ _ _ Hco) as [Hwf Hwin]. pose proof (window_bounds _ _ Hwf Hwin).
  pose proof (next_lsn_wf _ Hwf) as [Hn _]. pose proof (first_lsn_wf _ Hwf) as [_ Hf].
  pose proof (zlen_nonneg (img_entries (image (core self)))). lia.
Qed.

(** C5. A successful append is one commit. Whatever other handles do
    meanwhile, the history gains exactly one batch in the name of the calling
    thread (none for an empty batch), it stands contiguously at the returned
    range after everything committed before the call, it is the given batch as
    rewritten by the application's own [reconcile_batch] answers, and the
    handle's state is the replay of the history up to the end of the range. The
    last decision on the batch was taken on the state it was appended to:
    either it is the given batch and the handle was up to date when called, or
    it is the application's answer on the replay of everything before it. *)
Theorem append_commits_exactly_once i single es self c self' first past c' :
  inv c -> writer_ok self c -> Forall entry_ok es -> (single = true -> zlen es = 1) ->
  runs i (append es single self) c (Returned (self', Ok (first, past))) c' ->
  exists final, reconciled (entries c'.1) es final /\ past = first + zlen final
    /\ mine i c'.1 = mine i c.1 ++ batches final
    /\ (final <> [] -> committed_at i c.1 first final c'.1
          /\ decided (entries c'.1) (next_lsn (image (core self))) es first final)
    /\ WalTier_tip self' = checked_sub past 1
    /\ seqv (WalTier_state self') (replay (take (Z.to_nat past) (entries c'.1))).
Proof.
  intros Hi Hok Hes Hs Hrun. destruct (append_contract _ _ _ _ _ _ _ Hi Hok Hes Hs Hrun) as (r & [= <-] & Happ).
  destruct Happ as (_ & _ & [Hw _] & final & Hrec & -> & _ & Hn & Hm & Hc). cbn [fst snd] in *.
  exists final. pose proof (wo_core _ _ _ _ Hw) as Hco. split_and!; [done..| |].
  - unfold WalTier_tip, tip. by rewrite Hn.
  - rewrite <- Hn. apply Hco.
Qed.

(** C6. A failed append is honest. If it reports [NotApplied], no batch was
    committed in the thread's name; if it reports [Unknown], at most the batch
    it returns was. The batch it returns is what reconciliation made of the
    given one, the error is a limit, store, contention, LSN or reconciliation
    error and never [Corrupt], and the handle stays usable. *)
Theorem append_errors_are_honest i single es self c self' e c' :
  inv c -> writer_ok self c -> Forall entry_ok es -> (single = true -> zlen es = 1) ->
  runs i (append es single self) c (Returned (self', Err e)) c' ->
  writer_ok self' c' /\ reconciled (entries c'.1) es (we_entries e)
  /\ (we_outcome e = NotApplied -> mine i c'.1 = mine i c.1)
  /\ (mine i c'.1 = mine i c.1 \/ mine i c'.1 = mine i c.1 ++ batches (we_entries e))
  /\ match we_source e with
     | InvalidReplacement _ => single = true
     | Corrupt _ | IoError _ | AppError _ | CompactionError _ => False
     | _ => True
     end.
Proof.
  intros Hi Hok Hes Hs Hrun. destruct (append_contract _ _ _ _ _ _ _ Hi Hok Hes Hs Hrun) as (r & [= <-] & Happ).
  destruct Happ as (_ & _ & Hok' & Hrec & Hm & Hsrc). cbn [fst snd] in *. split_and!; [done|done| | |].
  - destruct Hm as [Hm|[-> _]]; done.
  - destruct Hm as [Hm|[_ Hm]]; [by left|by right].
  - destruct Hsrc as [Hb|[->|[-> [n ->]]]]; [by destruct (we_source e)|done..].
Qed.

(** C7. Opening recovers the log. [open] never panics; when it succeeds, the
    state is the replay of a prefix of the history that contains every batch
    committed before the call, and nothing has been committed in the opener's
    name; when it fails, it is for a limit, the store or contention, and never
    because the log looked corrupt. *)
Theorem open_recovers i o c out c' :
  inv c -> opts_typed P o -> runs i (WalTier_open o) c out c' ->
  inv c' /\ mine i c'.1 = mine i c.1 /\
  match out with
  | Returned (Ok self) => writer_ok self c' /\
      exists n, zlen (entries c.1) <= n <= zlen (entries c'.1) /\ WalTier_tip self = checked_sub n 1
        /\ seqv (WalTier_state self) (replay (take (Z.to_nat n) (entries c'.1)))
  | Returned (Err e) => benign e
  | Panicked _ => False
  end.
Proof.
  intros Hi Ho Hrun. eapply runs_contract in Hrun as (r & -> & Hr).
  2: { apply (wp_WalTier_open P ns i o (fun r c' => rely P ns i c c' /\ match r with
         | Ok self => writer_ok self c' /\ zlen (entries c.1) <= next_lsn (image (core self))
         | Err e => benign e end)); [done..|]. by intros r c1 Hr Hres. }
  destruct Hr as ((Hi' & Hg & Hm) & Hr). split_and!; [done..|]. destruct r as [self|e]; [|done].
  destruct Hr as [Hok Hn]. split; [done|]. exists (next_lsn (image (core self))).
  destruct Hok as [Hw _]. pose proof (wo_core _ _ _ _ Hw) as Hco.
  destruct (core_ok_wf _ _ _ _ Hco) as [Hwf Hwin]. pose proof (window_bounds _ _ Hwf Hwin).
  split_and!; [lia|lia|done|apply Hco].
Qed.

(** C8. Refreshing catches up. [refresh] commits nothing and never panics. On
    success the state is the replay of a prefix of the history that contains
    every batch committed before the call and what the handle already had, and
    an answer of "unchanged" is true of the state; on failure the state is
    untouched. *)
Theorem refresh_catches_up i self c out c' :
  inv c -> writer_ok self c -> runs i (WalTier_refresh self) c out c' ->
  inv c' /\ mine i c'.1 = mine i c.1 /\
  match out with
  | Returned (self', r) => writer_ok self' c' /\
      match r with
      | Ok changed => exists n, zlen (entries c.1) <= n <= zlen (entries c'.1)
          /\ WalTier_tip self' = checked_sub n 1
          /\ seqv (WalTier_state self') (replay (take (Z.to_nat n) (entries c'.1)))
          /\ (changed = false -> WalTier_state self' = WalTier_state self /\ WalTier_tip self' = WalTier_tip self)
      | Err e => benign e /\ WalTier_state self' = WalTier_state self /\ WalTier_tip self' = WalTier_tip self
      end
  | Panicked _ => False
  end.
Proof.
  intros Hi Hok Hrun. eapply runs_contract in Hrun as ([self' r] & -> & Hr).
  2: { apply (wp_WalTier_refresh P ns i self (fun r c' => writer_refreshed_ok P ns i self c r c')); done. }
  destruct Hr as ((Hi' & Hg & Hm) & Hok' & Hr). cbn [fst snd] in *. split_and!; [done..|].
  unfold WalTier_state, WalTier_tip. destruct r as [changed|e].
  - destruct Hr as (Hn & _ & Hch). exists (next_lsn (image (core self'))).
    destruct Hok' as [Hw _]. pose proof (wo_core _ _ _ _ Hw) as Hco.
    destruct (core_ok_wf _ _ _ _ Hco) as [Hwf Hwin]. pose proof (window_bounds _ _ Hwf Hwin).
    split_and!; [lia|lia|done|apply Hco|]. by intros ->%Hch.
  - destruct Hr as [Hb ->]. by split_and!.
Qed.

(** C9. Flushing completes maintenance. [flush] commits nothing, never panics
    and terminates within the attempt budget; on success no compaction is
    running or pending, no obsolete snapshot is queued, and the returned status
    says so; on failure the handle stays usable and the log is not corrupt. *)
Theorem flush_completes_maintenance i self c out c' :
  inv c -> writer_ok self c -> runs i (flush self) c out c' ->
  inv c' /\ mine i c'.1 = mine i c.1 /\
  match out with
  | Returned (self', r) => writer_ok self' c' /\
      match r with
      | Ok status => garbage self' = [] /\ gs_pending (ms_garbage status) = 0
          /\ ms_compaction status <> CompactionStatus.Running /\ ms_compaction status <> CompactionStatus.Ready
          /\ current_compaction_status self' = Ok (ms_compaction status)
      | Err e => benign e \/ exists m, e = CompactionError m
      end
  | Panicked _ => False
  end.
Proof.
  intros Hi Hok Hrun. eapply runs_contract in Hrun as ([self' r] & -> & Hr).
  2: { apply (wp_flush P ns i self (fun r c' => flushed_ok P ns i c r c')); done. }
  destruct Hr as ((Hi' & Hg & Hm) & Hok' & Hr). cbn [fst snd] in *. split_and!; [done..|].
  destruct r as [status|e]; [|done]. destruct Hr as (Hf & Hrn & Hq & Hp & Hst).
  unfold current_compaction_status, has_pending_fold, compaction_running in *.
  destruct (compaction self'); try done; injection Hst as <-; by split_and!.
Qed.

(** C10. Garbage collection deletes only garbage. It removes a prefix of the
    queue, all of it on success, and stops at the first store error, which it
    records; every deleted object was an obsolete snapshot, so the log and the
    snapshot that the log references are still stored afterwards. *)
Theorem collect_garbage_is_safe i self c out c' :
  inv c -> writer_ok self c -> runs i (collect_garbage self) c out c' ->
  mine i c'.1 = mine i c.1
  /\ (forall im, cur P c.2 = Some im -> exists im', cur P c'.2 = Some im')
  /\ (forall sr, snap_ref P c'.2 = Some sr -> is_Some (contents (w_store c'.2) !! sr_key sr)) /\
  match out with
  | Returned (self', r) => writer_ok self' c' /\ WalTier_state self' = WalTier_state self
      /\ WalTier_tip self' = WalTier_tip self /\
      match r with
      | Ok status => garbage self' = [] /\ status = mkGarbageStatus 0 (garbage_overflowed self') None
      | Err e => garbage_error self' = Some (StoreError_display e)
          /\ exists gone k rest, garbage self = gone ++ k :: rest /\ garbage self' = k :: rest
      end
  | Panicked _ => False
  end.
Proof.
  intros Hi Hok Hrun. eapply runs_contract in Hrun as ([self' r] & -> & Hr).
  2: { apply (wp_collect_garbage P ns i self (fun r c' => collected_ok P ns i self c r c')); done. }
  destruct Hr as ((Hi' & Hg & Hm) & Hok' & Hco & _ & Hsuf & Hr). cbn [fst snd] in *. split_and!; [done| | |done|..].
  - intros im Him. apply (grows_cur _ _ _ Hg). by rewrite Him.
  - intros sr Hsr. by eapply inv_ref.
  - unfold WalTier_state. by rewrite Hco.
  - unfold WalTier_tip. by rewrite Hco.
  - destruct r as [st|e].
    + destruct Hr as (Hq & He & ->). split; [done|]. unfold garbage_status. by rewrite Hq, He.
    + destruct Hr as (Hne & ->). split; [done|]. destruct Hsuf as [gone Hs].
      destruct (garbage self') as [|k rest]; [done|]. by exists gone, k, rest.
Qed.

(** C11. Compaction publishes true snapshots. Whatever happens meanwhile, a
    compaction that reports [Done] has published, under a fresh key that names
    the last folded LSN, bytes that restore to the replay of the history up to
    that LSN; the only panic is the application's callback. *)
Theorem compaction_publishes_true_snapshots i a c out c' :
  inv c -> args_ok P ns a (entries c.1) -> runs i (run_compaction a) c out c' ->
  match out with
  | Returned o => inv c' /\ mine i c'.1 = mine i c.1 /\ forall f, o = Done f ->
      snap_key_at P (f_key f) (f_lsn f) /\ last_lsn a = Some (f_lsn f)
      /\ (dead P (f_key f) c'.2 \/ exists o s,
            contents (w_store c'.2) !! f_key f = Some o /\ restore (st_data o) = Ok s
            /\ f_lsn f < zlen (entries c'.1)
            /\ seqv s (replay (take (Z.to_nat (f_lsn f + 1)) (entries c'.1))))
  | Panicked m => m = "compact"
  end.
Proof.
  intros Hi Ha Hrun.
  assert (pwp P ns i (run_compaction a) (fun o c' => rely P ns i c c' /\ forall f, o = Done f ->
    fold_ok P f c' /\ last_lsn a = Some (f_lsn f)) callback_panic c) as Hwp.
  { by apply (wp_run_compaction P ns). }
  pose proof (wp_exec _ _ _ _ _ _ _ _ _ _ _ _ Hwp Hrun) as Hr. destruct out as [o|m]; [|exact Hr].
  destruct Hr as ((Hi' & _ & Hm) & Hf). split_and!; [done..|]. intros f ->.
  destruct (Hf f eq_refl) as [(Hk & Hl & Hp) Hlast]. split_and!; [done..|].
  destruct Hp as [[o Ho]|Hd]; [right|by left].
  destruct (inv_snaps _ _ _ Hi' _ _ _ Ho Hk) as (_ & s & Hs & Heq). by exists o, s.
Qed.

End writer_theorems.

(** ** Instances

    Two handles of one log in a fresh [MemoryStore]: the second commits a
    batch behind the back of the first ([behind]), whose next append loses its
    compare-and-swap, refreshes, and lets the application abort ([raced]);
    without the second one it commits ([lone]). *)
Definition first_opened : mcfg * WalTier := open_run 0 Options_default start0.
Definition second_opened : mcfg * WalTier := open_run 1 Options_default first_opened.1.
Definition append_run (i : nat) (es : list bytes) (c : mcfg) (self : WalTier) : mcfg * (WalTier * append_result) :=
  op_run (Err (mkWriteError [] LsnExhausted NotApplied)) i (append es false self) c.
Definition behind : mcfg * (WalTier * append_result) := append_run 1 [as_bytes "x"] second_opened.1 second_opened.2.
Definition lone : mcfg * (WalTier * append_result) :=
  append_run 0 [as_bytes "a"; as_bytes "b"] first_opened.1 first_opened.2.
Definition raced : mcfg * (WalTier * append_result) :=
  append_run 0 [as_bytes "a"; as_bytes "b"] behind.1 first_opened.2.

Lemma opts0_typed : opts_typed "" Options_default.
Proof. by split_and!. Qed.

Lemma first_opened_ok : inv "" ns0 first_opened.1 /\ writer_ok "" ns0 first_opened.2 first_opened.1.
Proof.
  destruct (open_run_exec 0 Options_default start0 inv0 opts0_typed) as (_ & (? & _) & ?); [by vm_compute|by split].
Qed.

Lemma second_opened_ok : inv "" ns0 second_opened.1 /\ writer_ok "" ns0 second_opened.2 second_opened.1
  /\ writer_ok "" ns0 first_opened.2 second_opened.1.
Proof.
  destruct first_opened_ok as [Hi Hok].
  destruct (open_run_exec 1 Options_default first_opened.1 Hi opts0_typed) as (_ & (? & ? & _) & ?); [by vm_compute|].
  split_and!; [done..|]. by eapply writer_ok_mono.
Qed.

(** An evaluated append keeps the contract. *)
Lemma append_run_ok i es c self r : inv "" ns0 c -> writer_ok "" ns0 self c ->
  returned (drive "" i (append es false self) c) = true -> (append_run i es c self).2.2 = r ->
  runs "" ns0 i (append es false self) c
    (Returned ((append_run i es c self).2.1, r)) (append_run i es c self).1
  /\ append_ok "" ns0 i false (next_lsn (image (core self))) es c (append_run i es c self).2 (append_run i es c self).1.
Proof.
  intros Hi Hok Hr Hres.
  refine (op_run_exec _ i _ (fun r c' => append_ok "" ns0 i false (next_lsn (image (core self))) es c r c') no_panic c r Hi _ Hr Hres).
  apply (wp_append "" ns0); [done..|by apply Forall_true|done|done].
Qed.

Lemma behind_ok : inv "" ns0 behind.1 /\ writer_ok "" ns0 first_opened.2 behind.1.
Proof.
  destruct second_opened_ok as (Hi & Hok & Hok1).
  destruct (append_run_ok 1 [as_bytes "x"] second_opened.1 second_opened.2 (Ok (0, 1)) Hi Hok
    ltac:(vm_compute; reflexivity) ltac:(vm_compute; reflexivity)) as (_ & Hi' & Hg & _).
  split; [done|]. by eapply writer_ok_mono.
Qed.

Lemma append_commits_exactly_once_witness :
  exists c' self',
    runs "" ns0 0 (append [as_bytes "a"; as_bytes "b"] false first_opened.2) first_opened.1 (Returned (self', Ok (0, 2))) c'
    /\ mine 0 c'.1 = [[as_bytes "a"; as_bytes "b"]] /\ WalTier_state self' = 2
    /\ exists final, 2 = 0 + zlen final /\ committed_at 0 first_opened.1.1 0 final c'.1 /\ WalTier_tip self' = Some 1.
Proof.
  destruct first_opened_ok as [Hi Hok].
  destruct (append_run_ok 0 [as_bytes "a"; as_bytes "b"] first_opened.1 first_opened.2 (Ok (0, 2)) Hi Hok
    ltac:(vm_compute; reflexivity) ltac:(vm_compute; reflexivity)) as [Hrun _].
  eexists _, _. split; [exact Hrun|]. split; [vm_compute; reflexivity|]. split; [vm_compute; reflexivity|].
  destruct (append_commits_exactly_once "" ns0 0 false _ _ _ _ _ _ _ Hi Hok ltac:(by apply Forall_true) ltac:(done) Hrun)
    as (fin & _ & Hp & _ & Hc & Ht & _).
  exists fin. split; [exact Hp|]. split; [|exact Ht]. apply Hc. intros ->. discriminate Hp.
Defined.

Lemma append_errors_are_honest_witness :
  exists self' e c',
    runs "" ns0 0 (append [as_bytes "a"; as_bytes "b"] false first_opened.2) behind.1 (Returned (self', Err e)) c'
    /\ we_source e = ReconcileAborted /\ mine 0 c'.1 = mine 0 behind.1.1 /\ mine 1 c'.1 = [[as_bytes "x"]].
Proof.
  destruct behind_ok as [Hi Hok]. set (e := mkWriteError [as_bytes "a"; as_bytes "b"] ReconcileAborted NotApplied).
  destruct (append_run_ok 0 [as_bytes "a"; as_bytes "b"] behind.1 first_opened.2 (Err e) Hi Hok
    ltac:(vm_compute; reflexivity) ltac:(vm_compute; reflexivity)) as [Hrun _].
  destruct (append_errors_are_honest "" ns0 0 false _ _ _ _ _ _ Hi Hok ltac:(by apply Forall_true) ltac:(done) Hrun)
    as (_ & _ & Hm & _).
  eexists _, e, _. split; [exact Hrun|]. split; [done|]. split; [by apply Hm|vm_compute; reflexivity].
Defined.

Lemma lone_ok : inv "" ns0 lone.1 /\ writer_ok "" ns0 lone.2.1 lone.1.
Proof.
  destruct first_opened_ok as [Hi Hok].
  destruct (append_run_ok 0 [as_bytes "a"; as_bytes "b"] first_opened.1 first_opened.2 (Ok (0, 2)) Hi Hok
    ltac:(vm_compute; reflexivity) ltac:(vm_compute; reflexivity)) as (_ & ? & _ & ? & _). by split.
Qed.

Lemma open_recovers_witness :
  exists self c', runs "" ns0 1 (WalTier_open Options_default) lone.1 (Returned (Ok self)) c'
    /\ zlen (entries lone.1.1) = 2
    /\ exists n, zlen (entries lone.1.1) <= n <= zlen (entries c'.1) /\ WalTier_tip self = checked_sub n 1.
Proof.
  destruct lone_ok as [Hi _].
  destruct (open_run_exec 1 Options_default lone.1 Hi opts0_typed ltac:(vm_compute; reflexivity)) as (Hrun & _).
  eexists _, _. split; [exact Hrun|]. split; [vm_compute; reflexivity|].
  destruct (open_recovers "" ns0 1 _ _ _ _ Hi opts0_typed Hrun) as (_ & _ & _ & n & Hn & Ht & _).
  exists n. by split.
Defined.

Lemma refresh_catches_up_witness :
  exists self' c', runs "" ns0 0 (WalTier_refresh first_opened.2) behind.1 (Returned (self', Ok true)) c'
    /\ zlen (entries behind.1.1) = 1
    /\ exists n, zlen (entries behind.1.1) <= n <= zlen (entries c'.1) /\ WalTier_tip self' = checked_sub n 1.
Proof.
  destruct behind_ok as [Hi Hok].
  destruct (op_run_exec (Ok true) 0 (WalTier_refresh first_opened.2) _ no_panic behind.1 (Ok true) Hi
    ltac:(by apply (wp_WalTier_refresh "" ns0 0 _ (fun _ _ => True)))
    ltac:(vm_compute; reflexivity) ltac:(vm_compute; reflexivity)) as [Hrun _].
  eexists _, _. split; [exact Hrun|]. split; [vm_compute; reflexivity|].
  destruct (refresh_catches_up "" ns0 0 _ _ _ _ Hi Hok Hrun) as (_ & _ & _ & n & Hn & Ht & _).
  exists n. by split.
Defined.

(** Two compactions of the log, each installed by the append that follows it,
    the second of which leaves the first snapshot obsolete. *)
Definition compacting (s : mcfg * WalTier) : mcfg * (WalTier * bool) := op_run false 0 (compact_now s.2) s.1.
Definition no_args : CompactArgs := mkCompactArgs disabled None [] "" 0.
Definition newest_args (c : mcfg) : CompactArgs := from_option j_args no_args (last (w_jobs c.2)).
Definition thread_run (c : mcfg) : mcfg * unit :=
  let t := Nat.pred (length (w_jobs c.2)) in
  final tt (drive "" 2 (compaction_thread t (newest_args c)) c) c.
Definition cycle (s : mcfg * WalTier) : mcfg * WalTier :=
  let r := compacting s in ((thread_run r.1).1, r.2.1).
Definition append_more (e : string) (s : mcfg * WalTier) : mcfg * WalTier :=
  let r := append_run 0 [as_bytes e] s.1 s.2 in (r.1, r.2.1).
Definition cycled1 : mcfg * WalTier := cycle (lone.1, lone.2.1).
Definition installed1 : mcfg * WalTier := append_more "c" cycled1.
Definition cycled2 : mcfg * WalTier := cycle installed1.
Definition installed2 : mcfg * WalTier := append_more "d" cycled2.

Definition live (s : mcfg * WalTier) : Prop := inv "" ns0 s.1 /\ writer_ok "" ns0 s.2 s.1.

Lemma newest_args_ok c : inv "" ns0 c -> w_jobs c.2 <> [] ->
  args_ok "" ns0 (newest_args c) (entries c.1)
  /\ exists j, w_jobs c.2 !! Nat.pred (length (w_jobs c.2)) = Some j /\ j_args j = newest_args c.
Proof.
  intros Hi Hne. unfold newest_args. rewrite last_lookup. destruct (w_jobs c.2 !! _) as [j|] eqn:Ej.
  - split; [|by exists j]. by apply (inv_jobs _ _ _ Hi _ _ Ej).
  - apply lookup_ge_None in Ej. destruct (w_jobs c.2); [done|cbn in Ej; lia].
Qed.

Lemma compacting_ok s : live s -> returned (drive "" 0 (compact_now s.2) s.1) = true ->
  live ((compacting s).1, (compacting s).2.1).
Proof.
  intros [Hi Hok] Hr.
  destruct (op_run_exec false 0 (compact_now s.2) (fun r c => rely "" ns0 0 s.1 c /\ writer_ok "" ns0 r.1 c) no_panic
    s.1 _ Hi ltac:(by apply (wp_compact_now "" ns0)) Hr eq_refl) as (_ & (? & _) & ?). by split.
Qed.

Lemma cycle_ok s : live s ->
  returned (drive "" 0 (compact_now s.2) s.1) = true ->
  bool_decide (w_jobs (compacting s).1.2 = []) = false ->
  returned (drive "" 2 (compaction_thread (Nat.pred (length (w_jobs (compacting s).1.2))) (newest_args (compacting s).1))
    (compacting s).1) = true -> live (cycle s).
Proof.
  intros Hs Hr1 Hne%bool_decide_eq_false Hr2. destruct (compacting_ok s Hs Hr1) as [Hi Hok]. cbn [fst snd] in *.
  destruct (newest_args_ok _ Hi Hne) as [Ha Hj]. unfold cycle, thread_run.
  assert (rely "" ns0 0 (compacting s).1 (thread_run (compacting s).1).1) as (Hi' & Hg & _).
  { eapply (drive_others "" ns0 2 0); [done|done| |exact (final_spec tt _ (compacting s).1 Hr2)].
    by apply (wp_compaction_thread "" ns0). }
  split; [done|]. by eapply writer_ok_mono.
Qed.

Lemma append_more_ok e s : live s -> returned (drive "" 0 (append [as_bytes e] false s.2) s.1) = true ->
  live (append_more e s).
Proof.
  intros [Hi Hok] Hr. destruct (append_run_ok 0 [as_bytes e] s.1 s.2 _ Hi Hok Hr eq_refl) as (_ & ? & _ & ? & _).
  by split.
Qed.

Lemma cycled1_ok : live cycled1.
Proof. apply cycle_ok; [exact lone_ok|vm_compute; reflexivity..]. Qed.
Lemma installed1_ok : live installed1.
Proof. apply append_more_ok; [exact cycled1_ok|vm_compute; reflexivity]. Qed.
Lemma cycled2_ok : live cycled2.
Proof. apply cycle_ok; [exact installed1_ok|vm_compute; reflexivity..]. Qed.
Lemma installed2_ok : live installed2.
Proof. apply append_more_ok; [exact cycled2_ok|vm_compute; reflexivity]. Qed.

Lemma flush_completes_maintenance_witness :
  exists self' c' status,
    runs "" ns0 0 (flush cycled2.2) cycled2.1 (Returned (self', Ok status)) c'
    /\ status = mkMaintenanceStatus CompactionStatus.Installed (mkGarbageStatus 0 0 None)
    /\ compaction cycled2.2 = Running 1%nat /\ mine 0 c'.1 = mine 0 cycled2.1.1.
Proof.
  destruct cycled2_ok as [Hi Hok].
  destruct (op_run_exec (Err LsnExhausted) 0 (flush cycled2.2) (fun _ _ => True) no_panic cycled2.1
    (Ok (mkMaintenanceStatus CompactionStatus.Installed (mkGarbageStatus 0 0 None))) Hi
    ltac:(by apply (wp_flush "" ns0)) ltac:(vm_compute; reflexivity) ltac:(vm_compute; reflexivity)) as [Hrun _].
  eexists _, _, _. split; [exact Hrun|]. split; [done|]. split; [vm_compute; reflexivity|].
  by destruct (flush_completes_maintenance "" ns0 0 _ _ _ _ Hi Hok Hrun) as (_ & Hm & _).
Defined.

Definition collected : mcfg * (WalTier * Result GarbageStatus StoreError) :=
  op_run (Ok (mkGarbageStatus 0 0 None)) 0 (collect_garbage installed2.2) installed2.1.
Definition collected_ref : SnapshotRef := default (mkSnapshotRef "" 0) (snap_ref "" collected.1.2).

Lemma collect_garbage_is_safe_witness :
  exists self' c' sr,
    runs "" ns0 0 (collect_garbage installed2.2) installed2.1 (Returned (self', Ok (mkGarbageStatus 0 0 None))) c'
    /\ zlen (garbage installed2.2) = 1 /\ snap_ref "" c'.2 = Some sr /\ sr_lsn sr = 2
    /\ is_Some (contents (w_store c'.2) !! sr_key sr).
Proof.
  destruct installed2_ok as [Hi Hok].
  assert (runs "" ns0 0 (collect_garbage installed2.2) installed2.1
    (Returned (collected.2.1, Ok (mkGarbageStatus 0 0 None))) collected.1) as Hrun.
  { destruct (op_run_exec (Ok (mkGarbageStatus 0 0 None)) 0 (collect_garbage installed2.2) (fun _ _ => True) no_panic
      installed2.1 (Ok (mkGarbageStatus 0 0 None)) Hi ltac:(by apply (wp_collect_garbage "" ns0))
      ltac:(vm_compute; reflexivity) ltac:(vm_compute; reflexivity)) as [Hrun _]. exact Hrun. }
  assert (snap_ref "" collected.1.2 = Some collected_ref) as Hsr by (vm_compute; reflexivity).
  exists collected.2.1, collected.1, collected_ref. split; [exact Hrun|]. split; [vm_compute; reflexivity|].
  split; [exact Hsr|]. split; [vm_compute; reflexivity|].
  destruct (collect_garbage_is_safe "" ns0 0 _ _ _ _ Hi Hok Hrun) as (_ & _ & Hs & _).
  exact (Hs _ Hsr).
Defined.

Definition folding : mcfg := (compacting installed1).1.
Definition folding_args : CompactArgs := newest_args folding.
Definition folded : mcfg * CompactOutcome :=
  final (CompactFailed "") (drive "" 2 (run_compaction folding_args) folding) folding.
Definition folded_fold : Fold := match folded.2 with Done f => f | CompactFailed _ => mkFold "" 0 end.

Lemma compacting_args s : live s -> returned (drive "" 0 (compact_now s.2) s.1) = true ->
  bool_decide (w_jobs (compacting s).1.2 = []) = false ->
  inv "" ns0 (compacting s).1 /\ args_ok "" ns0 (newest_args (compacting s).1) (entries (compacting s).1.1).
Proof.
  intros Hs Hr Hne%bool_decide_eq_false. destruct (compacting_ok s Hs Hr) as [Hi _]. cbn [fst snd] in Hi.
  split; [done|]. by apply newest_args_ok.
Qed.

Lemma folding_ok : inv "" ns0 folding /\ args_ok "" ns0 folding_args (entries folding.1).
Proof.
  unfold folding_args, folding. apply compacting_args; [exact installed1_ok|vm_compute; reflexivity..].
Qed.

Lemma compaction_publishes_true_snapshots_witness :
  exists a c c' f, runs "" ns0 2 (run_compaction a) c (Returned (Done f)) c' /\ f_lsn f = 2
    /\ zlen (ca_entries a) = 1 /\ mine 2 c'.1 = mine 2 c.1.
Proof.
  destruct folding_ok as [Hi Ha].
  assert (drive "" 2 (run_compaction folding_args) folding = Some (folded.1, Returned (Done folded_fold))) as Hd.
  { vm_compute; reflexivity. }
  destruct (drive_exec "" ns0 2 _ (fun _ _ => True) callback_panic _ _ _ Hi
    ltac:(by apply (wp_run_compaction "" ns0)) Hd) as [Hrun _].
  exists folding_args, folding, folded.1, folded_fold.
  split; [exact Hrun|]. split; [vm_compute; reflexivity|]. split; [vm_compute; reflexivity|].
  by destruct (compaction_publishes_true_snapshots "" ns0 2 _ _ _ _ Hi Ha Hrun) as (_ & Hm & _).
Defined.
