(* ===== verification/Batch.v ===== *)
(** * The batch example (src/examples/batch.rs)

    An allocator of dense identifiers: each entry is the next identifier, so a
    batch that lost a race must be rebuilt as a whole on the state it is
    appended to. *)

From S2P Require Import Prelude Fmt Utf8 Error Image ImageCodec App Proc Atomic AtomicProps Cache CacheChecksum CacheProps CacheTheorems Store StoreProps World Core Compactor Writer Protocol Invariant Steps StepsCache StepsStore CoreProps CompactorProps WriterInv InstallProps WriterProps Scenario WriterTheorems.

Module Allocator.

Record AState : Type := mkState { next_id : Z; allocated : list Z }.

Definition init : AState := mkState 0 [].

(** [apply]: a malformed or out-of-order entry panics ([Err]). *)
Definition apply (state : AState) (entry : bytes) : Result AState string :=
  if negb (zlen entry =? 8) then Err "called `Result::unwrap()` on an `Err` value" else
  let id := from_le_bytes entry in
  if negb (id =? next_id state) then Err "assertion `left == right` failed" else
  Ok (mkState (wrapping_add (next_id state) 1) (allocated state ++ [id])).

(** [first..first + count as u64] *)
Definition allocations (first count : Z) : list bytes :=
  (fun id => to_le_bytes 8 id) <$> seqZ first (wrapping_add first count - first).

Definition reconcile_batch (state : AState) (pending : list bytes) : ReconcileBatch :=
  ReplaceBatch (allocations (next_id state) (zlen pending)).

End Allocator.

(** A state of the instance is [Err] from the first panic of [apply] on; no
    callback runs after it. *)
#[global] Instance AllocatorApp : WalApp := {|
  State := Result Allocator.AState string;
  init := Ok Allocator.init;
  apply s _ e := let? state := s in Allocator.apply state e;
  restore := default_restore;
  compact := default_compact;
  should_compact := default_should_compact;
  reconcile := default_reconcile;
  reconcile_batch s pending :=
    match s with Ok state => Allocator.reconcile_batch state pending | Err _ => AbortBatch end;
|}.

#[global] Program Instance AllocatorApp_laws : WalAppLaws (H := AllocatorApp) := {|
  seqv := eq;
  entry_ok _ := True;
|}.
Next Obligation. by intros ?? n e ->. Qed.
Next Obligation. done. Qed.
Next Obligation. done. Qed.
Next Obligation. intros s es es' H _. by apply Forall_true. Qed.

Import Allocator.

Abbreviation areplay := (replay (H := AllocatorApp)).
Abbreviation areplay_from := (replay_from (H := AllocatorApp)).

(** ** Dense histories *)

Lemma allocations_eq first count : 0 <= first -> 0 <= count -> first + count <= U64_MAX ->
  allocations first count = (fun id => to_le_bytes 8 id) <$> seqZ first count.
Proof.
  intros H1 H2 H3. unfold allocations, wrapping_add. rewrite wrap64_small by zlia.
  by replace (first + count - first) with count by lia.
Qed.

Lemma zlen_seqZ m n : 0 <= n -> zlen (seqZ m n) = n.
Proof. intros Hn. unfold zlen. rewrite length_seqZ. lia. Qed.

Lemma zlen_allocations first count : 0 <= first -> 0 <= count -> first + count <= U64_MAX ->
  zlen (allocations first count) = count.
Proof.
  intros. rewrite allocations_eq by done. unfold zlen. rewrite length_fmap. by apply zlen_seqZ.
Qed.

Lemma allocations_app m n k : 0 <= m -> 0 <= n -> 0 <= k -> m + n + k <= U64_MAX ->
  allocations m n ++ allocations (m + n) k = allocations m (n + k).
Proof.
  intros. rewrite (allocations_eq m n), (allocations_eq (m + n) k), (allocations_eq m (n + k)) by lia.
  by rewrite <- fmap_app, <- seqZ_app by lia.
Qed.

(** Replaying identifiers in order allocates them. *)
Lemma replay_allocations k : forall n, 0 <= n -> n + Z.of_nat k <= U64_MAX ->
  areplay_from (Ok (mkState n (seqZ 0 n))) n (allocations n (Z.of_nat k))
  = Ok (mkState (n + Z.of_nat k) (seqZ 0 (n + Z.of_nat k))).
Proof.
  induction k as [|k IH]; intros n Hn Hk.
  { rewrite allocations_eq by lia. cbn. by rewrite Z.add_0_r. }
  rewrite allocations_eq by lia. rewrite (seqZ_cons n (Z.of_nat (S k))) by lia. cbn [fmap list_fmap].
  replace (Z.pred (Z.of_nat (S k))) with (Z.of_nat k) by lia. rewrite <- Z.add_1_r.
  change (areplay_from ?s n (?e :: ?es)) with (areplay_from (let? state := s in Allocator.apply state e) (n + 1) es).
  cbn [rbind]. unfold Allocator.apply. rewrite zlen_to_le_bytes. cbn [negb Z.eqb Z.of_nat Pos.of_succ_nat Pos.eqb Pos.succ].
  rewrite from_to_le_bytes, Z.mod_small by (cbn; zlia). cbn [next_id allocated]. rewrite !Z.eqb_refl. cbn [negb].
  unfold wrapping_add. rewrite wrap64_small by zlia.
  replace (seqZ 0 n ++ [n]) with (seqZ 0 (n + 1)) by (rewrite (seqZ_app 0 n 1) by lia; by rewrite Z.add_0_l).
  pose proof (IH (n + 1)) as IH'. rewrite allocations_eq in IH' by lia. rewrite IH' by lia. do 2 f_equal; [lia|f_equal; lia].
Qed.

Lemma replay_dense n : 0 <= n <= U64_MAX -> areplay (allocations 0 n) = Ok (mkState n (seqZ 0 n)).
Proof.
  intros Hn. pose proof (replay_allocations (Z.to_nat n) 0) as Hr. rewrite Z2Nat.id in Hr by lia.
  rewrite Z.add_0_l in Hr. apply Hr; lia.
Qed.

(** ** Batches under races *)

Lemma replay_from_Err m n es : areplay_from (Err m) n es = Err m.
Proof. revert n. induction es as [|e es IH]; intros n; [done|]. apply IH. Qed.

Lemma replay_from_next s n es st : areplay_from (Ok s) n es = Ok st ->
  next_id s + zlen es <= U64_MAX -> 0 <= next_id s -> next_id st = next_id s + zlen es.
Proof.
  revert s n. induction es as [|e es IH]; intros s n Hr Hb H0.
  { injection Hr as <-. by rewrite (@zlen_nil bytes), Z.add_0_r. }
  change (areplay_from (Allocator.apply s e) (n + 1) es = Ok st) in Hr. rewrite zlen_cons in *.
  unfold Allocator.apply in Hr. destruct (negb (zlen e =? 8)); [by rewrite replay_from_Err in Hr|].
  destruct (negb _); [by rewrite replay_from_Err in Hr|]. pose proof (zlen_nonneg es).
  apply IH in Hr; cbn [next_id] in *; unfold wrapping_add in *; rewrite wrap64_small in * by zlia; lia.
Qed.

Lemma replay_next es st : areplay es = Ok st -> zlen es <= U64_MAX -> next_id st = zlen es.
Proof. intros Hr Hb. by apply (replay_from_next Allocator.init 0 es st Hr). Qed.

Lemma replay_take_next hist n st : 0 <= n <= zlen hist -> zlen hist <= U64_MAX ->
  areplay (take (Z.to_nat n) hist) = Ok st -> next_id st = n.
Proof.
  intros Hn Hh Hr. apply replay_next in Hr; rewrite zlen_take in *; lia.
Qed.

(** Rebuilding keeps the size of a batch. *)
Lemma reconciled_length hist es fin : zlen hist + zlen es <= U64_MAX ->
  reconciled (H0 := AllocatorApp_laws) hist es fin -> zlen fin = zlen es.
Proof.
  intros Hb. induction 1 as [|es es' es'' s n _ IH Hn Hs Hr]; [done|]. cbn in Hs. subst s.
  cbn in Hr. specialize (IH Hb). destruct (areplay _) as [st|] eqn:E; [|done].
  pose proof (zlen_nonneg es). apply replay_take_next in E; [|lia..]. injection Hr as <-.
  rewrite zlen_allocations by lia. done.
Qed.

(** C35. Dependent batches stay consistent. A batch of the allocator that was
    prepared on the handle's own state, appended among any other handles: when
    it succeeds, then over a dense log it has allocated exactly the next
    identifiers, whether or not it lost races and had to be rebuilt; no replay
    panics and the handle has every identifier exactly once. *)
Theorem batches_stay_dense {S} `{ObjectStoreLaws S} P ns `{!LogNames P ns} i self st count c self' first past c' :
  inv P ns c -> writer_ok P ns self c -> WalTier_state self = Ok st -> 0 < count ->
  zlen (entries c'.1) + count <= U64_MAX ->
  runs P ns i (append (allocations (next_id st) count) false self) c (Returned (self', Ok (first, past))) c' ->
  take (Z.to_nat first) (entries c'.1) = allocations 0 first ->
  past = first + count
  /\ take (Z.to_nat past) (entries c'.1) = allocations 0 past
  /\ WalTier_state self' = Ok (mkState past (seqZ 0 past)).
Proof.
  intros Hi Hok Hst Hc Hb Hrun Hdense.
  destruct (append_contract P ns _ false _ _ _ _ _ Hi Hok ltac:(by apply Forall_true) ltac:(done) Hrun)
    as (r & [= <-] & _ & Hg & Hok' & fin & Hrec & -> & _ & Hn & _ & Hcom). cbn [fst snd] in *.
  pose proof (entries_mono _ _ _ Hg) as Hpre. pose proof (prefix_length _ _ Hpre) as Hlen.
  destruct (writer_ok_position P ns self c Hok) as [Hb0 Hs0]. rewrite Hst in Hs0. cbn [seqv AllocatorApp_laws] in Hs0.
  assert (next_id st = next_lsn (image (core self))) as Hid by (eapply replay_take_next; [exact Hb0|zlia|exact (eq_sym Hs0)]).
  rewrite Hid in *. set (n0 := next_lsn (image (core self))) in *.
  assert (zlen (allocations n0 count) = count) as Hlc by (apply zlen_allocations; zlia).
  assert (zlen fin = count) as Hfin by (rewrite <- Hlc; eapply reconciled_length; [|exact Hrec]; by rewrite Hlc).
  destruct Hcom as [(before & later & _ & Hbef & Hc') Hdec]; [intros ->; rewrite (@zlen_nil bytes) in Hfin; lia|].
  assert (entries c'.1 = entries before ++ fin ++ entries later) as Hent by by rewrite Hc', entries_app.
  pose proof (zlen_nonneg (entries before)). pose proof (zlen_nonneg (entries later)).
  assert (first + count <= zlen (entries c'.1)) by (rewrite Hent, !zlen_app; lia).
  assert (areplay (take (Z.to_nat first) (entries c'.1)) = Ok (mkState first (seqZ 0 first))) as Hrep.
  { rewrite Hdense. apply replay_dense. lia. }
  assert (fin = allocations first count) as ->.
  { destruct Hdec as [[-> ->]|(es' & s & Hr' & _ & Hs & [Ha|[Ha _]])]; [done| |]; cbn in Hs; subst s; rewrite Hrep in Ha; [|done].
    cbn in Ha. injection Ha as <-. f_equal. rewrite <- Hlc. eapply reconciled_length; [|exact Hr']; by rewrite Hlc. }
  rewrite Hfin. split; [done|].
  assert (take (Z.to_nat (first + count)) (entries c'.1) = allocations 0 (first + count)) as Hd.
  { rewrite <- (allocations_app 0 first count) by lia. rewrite <- Hdense, Hent, app_assoc.
    rewrite (take_app_le (_ ++ _) _ (Z.to_nat first)) by (rewrite length_app; zlia).
    rewrite (take_app_le (entries before) _ (Z.to_nat first)), (take_ge (entries before)), Z.add_0_l by zlia.
    replace (Z.to_nat (first + count)) with (Z.to_nat (zlen (entries before ++ allocations first count)))
      by (f_equal; rewrite zlen_app; lia).
    apply take_zlen_app. }
  split; [done|]. destruct (writer_ok_position P ns self' c' Hok') as [_ Hs']. rewrite Hn, Hfin, Hd in Hs'.
  cbn in Hs'. rewrite Hs'. apply replay_dense. lia.
Qed.

(** ** The example's main

    Two allocators of one log: the second prepared two identifiers at the
    state in which the first committed one. *)
Definition opened1 : mcfg * WalTier := open_run 0 Options_default start0.
Definition opened2 : mcfg * WalTier := open_run 1 Options_default opened1.1.
Definition failed : append_result := Err (mkWriteError [] LsnExhausted NotApplied).
Definition committed1 : mcfg * (WalTier * append_result) :=
  op_run failed 0 (append (allocations 0 1) false opened1.2) opened2.1.
Definition committed2 : mcfg * (WalTier * append_result) :=
  op_run failed 1 (append (allocations 0 2) false opened2.2) committed1.1.

Lemma opened_ok : inv "" ns0 opened2.1 /\ writer_ok "" ns0 opened1.2 opened2.1 /\ writer_ok "" ns0 opened2.2 opened2.1.
Proof.
  destruct (open_run_exec 0 Options_default start0 inv0 opts0_typed) as (_ & (Hi & _) & Hok); [by vm_compute|].
  destruct (open_run_exec 1 Options_default opened1.1 Hi opts0_typed) as (_ & (Hi2 & Hg & _) & Hok2); [by vm_compute|].
  split_and!; [done| |done]. by eapply writer_ok_mono.
Qed.

Lemma committed1_ok : inv "" ns0 committed1.1 /\ writer_ok "" ns0 opened2.2 committed1.1.
Proof.
  destruct opened_ok as (Hi & Hok1 & Hok2).
  destruct (op_run_exec failed 0 (append (allocations 0 1) false opened1.2)
    (fun r c' => append_ok "" ns0 0 false (next_lsn (image (core opened1.2))) (allocations 0 1) opened2.1 r c')
    no_panic opened2.1 (Ok (0, 1)) Hi) as (_ & Hi1 & Hg1 & _).
  - by apply (wp_append "" ns0); [..|apply Forall_true| |].
  - vm_compute. reflexivity.
  - vm_compute. reflexivity.
  - split; [done|]. by eapply writer_ok_mono.
Qed.

Lemma batches_stay_dense_witness :
  exists self' c', runs "" ns0 1 (append (allocations 0 2) false opened2.2) committed1.1 (Returned (self', Ok (1, 3))) c'
    /\ WalTier_state self' = Ok (mkState 3 [0; 1; 2]).
Proof.
  destruct committed1_ok as [Hi Hok].
  assert (runs "" ns0 1 (append (allocations 0 2) false opened2.2) committed1.1 (Returned (committed2.2.1, Ok (1, 3))) committed2.1)
    as Hrun.
  { unfold committed2. refine (proj1 (op_run_exec failed 1 (append (allocations 0 2) false opened2.2)
      (fun r c' => append_ok "" ns0 1 false (next_lsn (image (core opened2.2))) (allocations 0 2) committed1.1 r c')
      no_panic committed1.1 (Ok (1, 3)) Hi _ _ _)).
    - by apply (wp_append "" ns0); [..|apply Forall_true| |].
    - vm_compute. reflexivity.
    - vm_compute. reflexivity. }
  assert (WalTier_state opened2.2 = Ok (mkState 0 [])) as Hst by (vm_compute; reflexivity).
  assert (zlen (entries committed2.1.1) + 2 <= U64_MAX) as Hb by (vm_compute; discriminate).
  assert (take (Z.to_nat 1) (entries committed2.1.1) = allocations 0 1) as Hd by (vm_compute; reflexivity).
  exists committed2.2.1, committed2.1. split; [exact Hrun|].
  destruct (batches_stay_dense "" ns0 1 opened2.2 (mkState 0 []) 2 committed1.1 committed2.2.1 1 3 committed2.1
    Hi Hok Hst ltac:(lia) Hb Hrun Hd) as (_ & _ & Hs). exact Hs.
Defined.
