(* ===== verification/System.v ===== *)
(** * The whole system

    Any number of writers and replicas of one log in one store, each calling
    any sequence of operations, and the compaction threads they start, with
    every action of every thread interleaved arbitrarily. The contracts proved
    of single handles discharge each other's assumptions, so nothing about
    the environment is assumed any more: the store starts empty. *)

From S2P Require Import Prelude Fmt Utf8 Error Image ImageCodec App CountApp Proc Atomic AtomicProps Cache CacheChecksum CacheProps CacheTheorems Store StoreProps World Core Compactor Writer Protocol Invariant Steps StepsCache StepsStore CoreProps CompactorProps WriterInv InstallProps WriterProps Scenario.

(** ** Programs of handles *)

Inductive Op : Type :=
  | OpWrite (entry : bytes) | OpWriteBatch (es : list bytes) | OpRefresh | OpFlush | OpCompactNow
  | OpWait | OpStatus | OpTakeError | OpCollect | OpCheckpoint.

Definition op_entries (op : Op) : list bytes :=
  match op with OpWrite e => [e] | OpWriteBatch es => es | _ => [] end.

(** What an append was given and what it answered. *)
Abbreviation ack := (list bytes * append_result)%type.

Section programs.
Context {S : Type} `{ObjectStore S} `{WalApp}.
Abbreviation proc := (proc (World S)).

Definition ignore {A} (p : proc (WalTier * A)) : proc (WalTier * list ack) :=
  let! (self, _) := p in Ret (self, []).

Definition run_op (op : Op) (self : WalTier) : proc (WalTier * list ack) :=
  match op with
  | OpWrite e =>
      let! (self, r) := write e self in
      Ret (self, [([e], match r with Ok lsn => Ok (lsn, lsn + 1) | Err e => Err e end)])
  | OpWriteBatch es => let! (self, r) := write_batch es self in Ret (self, [(es, r)])
  | OpRefresh => ignore (WalTier_refresh self)
  | OpFlush => ignore (flush self)
  | OpCompactNow => ignore (compact_now self)
  | OpWait => ignore (wait_for_compaction self)
  | OpStatus => ignore (compaction_status self)
  | OpTakeError => ignore (take_compaction_error self)
  | OpCollect => ignore (collect_garbage self)
  | OpCheckpoint => let! self := WalTier_checkpoint_cache self in Ret (self, [])
  end.

Fixpoint run_ops (ops : list Op) (self : WalTier) : proc (list ack) :=
  match ops with
  | [] => Ret []
  | op :: ops =>
      let! (self, acks) := run_op op self in
      let! more := run_ops ops self in
      Ret (acks ++ more)
  end.

(** A writer's thread: open, then its operations; the acknowledgements. *)
Definition writer_thread (o : Options) (ops : list Op) : proc (list ack) :=
  let! r := WalTier_open o in
  match r with Ok self => run_ops ops self | Err _ => Ret [] end.

Fixpoint polls (n : nat) (self : Replica) : proc (list ack) :=
  match n with
  | O => let! _ := Replica_checkpoint_cache self in Ret []
  | Datatypes.S n => let! (self, _) := Replica_refresh self in polls n self
  end.

(** A replica's thread: open, then [n] refreshes. *)
Definition replica_thread (o : Options) (n : nat) : proc (list ack) :=
  let! r := Replica_open o in
  match r with Ok self => polls n self | Err _ => Ret [] end.

Inductive Client : Type := Writes (o : Options) (ops : list Op) | Follows (o : Options) (n : nat).
Definition client_options (cl : Client) : Options := match cl with Writes o _ => o | Follows o _ => o end.
Definition client_entries (cl : Client) : list bytes :=
  match cl with Writes _ ops => concat (op_entries <$> ops) | Follows _ _ => [] end.
Definition client_thread (cl : Client) : proc (list ack) :=
  match cl with Writes o ops => writer_thread o ops | Follows o n => replica_thread o n end.

(** A compaction thread in a pool of threads that return values of [X]. *)
Definition spawned_as {X} (x : X) (w : World S) : option (World S * proc X) :=
  match spawned w with
  | Some (w, p) => Some (w, let! _ := p in Ret x)
  | None => None
  end.

(** A compaction thread acknowledges nothing. *)
Definition spawned_thread : World S -> option (World S * proc (list ack)) := spawned_as [].

End programs.

(** ** Accounting *)

(** [es] stands at [first] in [hist]. *)
Definition stands_at (first : Lsn) (es hist : list bytes) : Prop :=
  exists pre post, hist = pre ++ es ++ post /\ zlen pre = first.

(** The batches that a thread's acknowledgements entitle it to: one for each
    success, where it says; none for [NotApplied]; at most the returned one
    for [Unknown]. *)
Inductive accounted `{WalAppLaws} (hist : list bytes) : list ack -> list (list bytes) -> Prop :=
  | accounted_nil : accounted hist [] []
  | accounted_ok es first fin acks bs :
      reconciled hist es fin -> (fin <> [] -> stands_at first fin hist) ->
      accounted hist acks bs ->
      accounted hist ((es, Ok (first, first + zlen fin)) :: acks) (batches fin ++ bs)
  | accounted_failed es e acks bs :
      reconciled hist es (we_entries e) -> accounted hist acks bs ->
      accounted hist ((es, Err e) :: acks) bs
  | accounted_unknown es e acks bs :
      we_outcome e = Unknown -> reconciled hist es (we_entries e) -> accounted hist acks bs ->
      accounted hist ((es, Err e) :: acks) (batches (we_entries e) ++ bs).

Lemma stands_at_prefix first es hist hist' : hist `prefix_of` hist' -> stands_at first es hist -> stands_at first es hist'.
Proof. intros [x ->] (pre & post & -> & Hp). exists pre, (post ++ x). by rewrite <- !app_assoc. Qed.

Lemma accounted_prefix `{WalAppLaws} hist hist' acks bs :
  hist `prefix_of` hist' -> accounted hist acks bs -> accounted hist' acks bs.
Proof.
  intros Hp Hacc. induction Hacc as [|es first fin acks bs Hr Hs _ IH|es e acks bs Hr _ IH|es e acks bs Ho Hr _ IH].
  - constructor.
  - constructor; [by eapply reconciled_prefix| |done]. intros Hne. by eapply stands_at_prefix, Hs.
  - apply accounted_failed; [by eapply reconciled_prefix|done].
  - apply accounted_unknown; [done|by eapply reconciled_prefix|done].
Qed.

Lemma accounted_app `{WalAppLaws} hist acks acks' bs bs' :
  accounted hist acks bs -> accounted hist acks' bs' -> accounted hist (acks ++ acks') (bs ++ bs').
Proof. intros Ha Hb. induction Ha; [done|rewrite <- app_assoc; by constructor|by constructor|rewrite <- app_assoc; by constructor]. Qed.

Lemma committed_stands i g0 first es g : committed_at i g0 first es g -> stands_at first es (entries g).
Proof.
  intros (before & later & _ & Hz & ->). exists (entries before), (entries later). split; [|done].
  by rewrite entries_app.
Qed.

Section system.
Context {S : Type} `{ObjectStoreLaws S} `{WalAppLaws}.
Variable P : string.
Variable ns : option string.
Context `{!LogNames P ns}.
Abbreviation World := (World S).
Abbreviation cfg := (History * World)%type.
Abbreviation inv := (inv P ns).
Abbreviation rely := (rely P ns).
Abbreviation grows := (grows P).
Abbreviation wp := (pwp P ns).
Abbreviation writer_ok := (writer_ok P ns).
Implicit Types (c : cfg) (self : WalTier).

(** Since [c], the thread has committed what its acknowledgements account for. *)
Definition acks_ok (i : nat) c (acks : list ack) c' : Prop :=
  inv c' /\ grows c c' /\ exists bs, accounted (entries c'.1) acks bs /\ mine i c'.1 = mine i c.1 ++ bs.

Lemma acks_ok_rely i c c' : rely i c c' -> acks_ok i c [] c'.
Proof. intros (Hi & Hg & Hm). split_and!; [done..|]. exists []. split; [constructor|by rewrite app_nil_r]. Qed.

Lemma acks_ok_trans i c1 c2 c3 a b : acks_ok i c1 a c2 -> acks_ok i c2 b c3 -> acks_ok i c1 (a ++ b) c3.
Proof.
  intros (_ & Hg & bs & Ha & Hm) (Hi & Hg' & bs' & Hb & Hm'). split_and!; [done|by eapply grows_trans|].
  exists (bs ++ bs'). split; [|by rewrite Hm', Hm, app_assoc].
  apply accounted_app; [|done]. eapply accounted_prefix; [|done]. by eapply entries_mono.
Qed.

(** The acknowledgement of one append. *)
Lemma append_ok_acks i single n es c r c' : append_ok P ns i single n es c r c' ->
  acks_ok i c [(es, r.2)] c' /\ writer_ok r.1 c'
  /\ (single = true -> forall first past, r.2 = Ok (first, past) -> past = first + 1).
Proof.
  intros (Hi & Hg & Hok & Hr). destruct r as [s [[first past]|e]]; cbn [fst snd] in *.
  - destruct Hr as (fin & Hrec & -> & Hs & _ & Hm & Hc). split_and!; [split_and!; [done..|]|done|].
    + exists (batches fin ++ []). split; [|by rewrite app_nil_r].
      constructor; [done| |constructor]. intros Hne. destruct (Hc Hne). by eapply committed_stands.
    + intros Hsin f p [= -> <-]. rewrite Hs by done. lia.
  - destruct Hr as (Hrec & Hm & _). split_and!; [split_and!; [done..|]|done|done].
    destruct Hm as [Hm|[Ho Hm]]; eexists.
    + split; [apply accounted_failed; [done|constructor]|by rewrite app_nil_r].
    + split; [apply accounted_unknown; [done..|constructor]|by rewrite app_nil_r].
Qed.

Lemma wp_ignore {A} i (p : proc World (WalTier * A)) Q E c :
  wp i p (fun r c' => Q (r.1, []) c') E c -> wp i (ignore p) Q E c.
Proof. intros Hp. apply wp_bind. eapply wp_mono; [|exact Hp]. by intros [s r]. Qed.

Lemma wp_run_op i op self c (Q : WalTier * list ack -> cfg -> Prop) E :
  inv c -> writer_ok self c -> Forall entry_ok (op_entries op) ->
  (forall r c', acks_ok i c r.2 c' -> writer_ok r.1 c' -> Q r c') ->
  wp i (run_op op self) Q E c.
Proof.
  intros Hi Hok Hes HQ.
  assert (forall self' c', rely i c c' -> writer_ok self' c' -> Q (self', []) c') as HQ0.
  { intros self' c' Hr Hok'. apply HQ; [by apply acks_ok_rely|done]. }
  destruct op; cbn [run_op op_entries] in *; try apply wp_ignore.
  - apply wp_bind. unfold write. apply wp_bind, (wp_append P ns); [done..|].
    intros [s r] c1 Hr. apply append_ok_acks in Hr as (Ha & Hok1 & Hs). cbn [wp fst snd] in *.
    apply HQ; [|done]. cbn [snd]. destruct r as [[first past]|e]; [|done].
    by rewrite (Hs eq_refl first past eq_refl) in Ha.
  - apply wp_bind, (wp_append P ns); [done..|]. intros [s r] c1 Hr.
    apply append_ok_acks in Hr as (Ha & Hok1 & _). by apply HQ.
  - apply (wp_WalTier_refresh P ns); [done..|]. intros [s r] c1 (Hr & Hok1 & _). by apply HQ0.
  - apply (wp_flush P ns); [done..|]. intros [s r] c1 (Hr & Hok1 & _). by apply HQ0.
  - apply (wp_compact_now P ns); [done..|]. intros [s r] c1 Hr Hok1 _. by apply HQ0.
  - apply (wp_wait_for_compaction P ns); [done..|]. intros s c1 Hr Hok1 _ _. by apply HQ0.
  - unfold compaction_status. apply wp_bind, (wp_sync_compaction P ns); [done..|].
    intros s c1 Hr Hok1 _. by apply HQ0.
  - apply (wp_take_compaction_error P ns); [done..|]. intros [s r] c1 Hr Hok1 _ _. by apply HQ0.
  - apply (wp_collect_garbage P ns); [done..|]. intros [s r] c1 (Hr & Hok1 & _). by apply HQ0.
  - apply wp_bind, (wp_WalTier_checkpoint P ns); [done..|]. intros s c1 Hr Hok1 _ _. by apply HQ0.
Qed.

Lemma wp_run_ops i ops self c0 c acks0 (Q : list ack -> cfg -> Prop) E :
  acks_ok i c0 acks0 c -> writer_ok self c -> Forall entry_ok (concat (op_entries <$> ops)) ->
  (forall acks c', acks_ok i c0 (acks0 ++ acks) c' -> Q acks c') ->
  wp i (run_ops ops self) Q E c.
Proof.
  revert self c acks0 Q. induction ops as [|op ops IH]; intros self c acks0 Q Ha Hok Hes HQ; cbn [run_ops].
  { apply HQ. by rewrite app_nil_r. }
  cbn in Hes. apply Forall_app in Hes as [He Hes].
  apply wp_bind, wp_run_op; [apply Ha|done..|]. intros [s a] c1 Ha1 Hok1. cbn [fst snd] in *.
  pose proof (acks_ok_trans _ _ _ _ _ _ Ha Ha1) as Ha01.
  apply wp_bind, (IH s c1 (acks0 ++ a)); [done..|]. intros more c2 Hm. apply HQ.
  by rewrite app_assoc.
Qed.

Lemma wp_polls i n core c0 c (Q : list ack -> cfg -> Prop) E :
  rely i c0 c -> core_ok P ns core c -> (forall c', rely i c0 c' -> Q [] c') ->
  wp i (polls n (mkReplica core)) Q E c.
Proof.
  revert core c. induction n as [|n IH]; intros core c Hr Hco HQ; cbn [polls].
  - unfold Replica_checkpoint_cache. apply wp_bind, wp_bind, (wp_checkpoint_cache P ns); [apply Hr|done|].
    intros co c1 Hr1 _ _ _ _ _ _. apply HQ. by eapply rely_trans.
  - unfold Replica_refresh. apply wp_bind, wp_bind, (wp_Core_refresh P ns); [apply Hr|done|].
    intros [co r] c1 Hr1 (Hco1 & _). by apply IH; [eapply rely_trans| |].
Qed.

(** What is asked of a client: options for this log, and entries the
    application understands. *)
Definition client_ok (cl : Client) : Prop :=
  opts_typed P (client_options cl) /\ Forall entry_ok (client_entries cl).

Lemma wp_client i cl c (Q : list ack -> cfg -> Prop) E :
  inv c -> client_ok cl -> (forall acks c', acks_ok i c acks c' -> Q acks c') ->
  wp i (client_thread cl) Q E c.
Proof.
  intros Hi [Ho Hes] HQ. destruct cl as [o ops|o n]; cbn [client_thread client_options client_entries] in *.
  - unfold writer_thread. apply wp_bind, (wp_WalTier_open P ns); [done..|]. intros r c1 Hr Hres.
    destruct r as [self|e]; [|by apply HQ, acks_ok_rely]. destruct Hres as [Hok _].
    by apply (wp_run_ops _ _ _ c _ []); [apply acks_ok_rely|..].
  - unfold replica_thread, Replica_open. apply wp_bind, wp_bind, (wp_Core_open P ns); [done..|].
    intros r c1 Hr Hres. destruct r as [co|e]; [|by apply HQ, acks_ok_rely]. destruct Hres as [Hco _].
    apply (wp_polls _ _ _ c); [done..|]. intros c2 Hr2. by apply HQ, acks_ok_rely.
Qed.

(** ** What the invariant means to a reader *)

(** The state that an image's snapshot restores. *)
Definition base_state (im : WalImage) (w : World) (s : State) : Prop :=
  match img_snapshot im with
  | None => s = init
  | Some sr => exists o, contents (w_store w) !! sr_key sr = Some o /\ restore (st_data o) = Ok s
  end.

(** The objects of the store alone determine the state of the whole history. *)
Definition recoverable c : Prop :=
  match contents (w_store c.2) !! wkey P with
  | None => entries c.1 = []
  | Some o => exists im s, parse o = Some im /\ next_lsn im = zlen (entries c.1) /\ base_state im c.2 s
      /\ seqv (replay_from s (first_lsn im) (img_entries im)) (replay (entries c.1))
  end.

Lemma inv_recoverable c : inv c -> recoverable c.
Proof.
  intros Hi. pose proof (inv_current _ _ _ Hi) as Hc. unfold current_ok, recoverable in *.
  destruct (contents (w_store c.2) !! wkey P) as [o|] eqn:Eo; [|done].
  destruct Hc as (im & Hp & (pre & post & Hent & Hpre) & Hn & Hs).
  apply parse_Some in Hp as Hw. destruct Hw as [_ Hwf].
  pose proof (next_lsn_wf _ Hwf) as [Hnext _]. pose proof (first_lsn_wf _ Hwf) as [Hf _].
  assert (post = []) as ->.
  { destruct post as [|x post]; [done|]. rewrite Hent, !zlen_app, zlen_cons in Hn.
    pose proof (zlen_nonneg post). lia. }
  rewrite app_nil_r in Hent.
  assert (exists s, base_state im c.2 s /\ seqv s (replay pre)) as (s & Hb & Hs0).
  { unfold base_state. destruct (img_snapshot im) as [sr|].
    - destruct (Hs sr eq_refl) as [Hk [d Hd]].
      destruct (inv_snaps _ _ _ Hi _ _ _ Hd Hk) as (_ & s & Hr & Heq). exists s. split; [by exists d|].
      cbn in Hf. rewrite <- Hf, <- Hpre, Hent, take_zlen_app in Heq. done.
    - exists init. split; [done|]. cbn in Hf. rewrite Hf in Hpre.
      destruct pre; [reflexivity|]. rewrite zlen_cons in Hpre. pose proof (zlen_nonneg pre). lia. }
  exists im, s. split_and!; [done..|]. rewrite Hent, replay_app, Hpre.
  by apply replay_from_Proper.
Qed.

(** What a client's thread ends with, in a pool of [n] clients. *)
Definition client_done (n i : nat) (acks : list ack) c : Prop :=
  (i < n)%nat -> accounted (entries c.1) acks (mine i c.1).

(** Every reachable state is covered by the proofs of its threads. *)
Lemma system_ok clients w c ps :
  fresh_world w -> cache_namespace (w_store w) = ns -> Forall client_ok clients ->
  rtc (pstep sane_world (record P) spawned_thread) (([], w), client_thread <$> clients) (c, ps) ->
  pool_ok sane_world (record P) inv rely (guar P ns) (fun _ _ => True)
    (client_done (length clients)) (length clients) (c, ps).
Proof.
  intros Hw Hns Hcl Hrun. pose proof (inv_initial P w Hw) as Hinit. rewrite Hns in Hinit.
  eapply (pool_sound sane_world (record P) inv rely (guar P ns) (fun _ _ => True) spawned_thread); [..|exact Hrun|].
  - intros. by apply rely_refl.
  - intros. by eapply rely_trans.
  - intros. by eapply guar_inv.
  - intros. by eapply guar_rely.
  - intros j c0 w2 p Hj Hi Hsp _. unfold spawned_thread, spawned_as in Hsp.
    destruct (spawned c0.2) as [[w' q]|] eqn:Eq; [|done]. injection Hsp as <- <-.
    destruct (spawned_ok P ns j c0 w' q Hi Eq) as [Hg Hwp]. split; [done|].
    apply wp_bind. eapply wp_mono; [|exact Hwp]. unfold client_done. cbn. lia.
  - split; [done|]. split; [cbn [snd]; by rewrite length_fmap|]. cbn [fst snd]. intros i p Hp.
    apply list_lookup_fmap_Some in Hp as (cl & -> & Hl). exists ([], w). split; [|by apply rely_refl].
    apply wp_client; [done|by eapply Forall_lookup_1|]. intros acks c' (_ & _ & bs & Ha & Hm) _.
    cbn in Hm. by rewrite Hm.
Qed.

(** C1. The whole system is safe. Start any number of writers and replicas of
    one log on an empty store and interleave every action of theirs, and of
    the compaction threads they start, in any order, with any errors the store
    and the disk may report. In every reachable state no thread has panicked,
    the objects in the store determine the state of the whole history of
    commits, and a writer that has finished has committed exactly the batches
    that its acknowledgements account for, in order and where they say. *)
Theorem system_is_safe clients w c ps :
  fresh_world w -> cache_namespace (w_store w) = ns -> Forall client_ok clients ->
  rtc (pstep sane_world (record P) spawned_thread) (([], w), client_thread <$> clients) (c, ps) ->
  recoverable c
  /\ (forall i p m, ps !! i = Some p -> p <> Panic m)
  /\ (forall i acks, (i < length clients)%nat -> ps !! i = Some (Ret acks) -> accounted (entries c.1) acks (mine i c.1)).
Proof.
  intros Hw Hns Hcl Hrun. destruct (system_ok clients w c ps Hw Hns Hcl Hrun) as (Hi & _ & Hall).
  cbn [fst snd] in *. split_and!; [by apply inv_recoverable| |].
  - intros i p m Hp ->. by destruct (Hall i _ Hp) as (c0 & Hwp & _).
  - intros i acks Hlt Hp. destruct (Hall i _ Hp) as (c0 & Hwp & _ & Hg & Hm). cbn [wp] in Hwp.
    rewrite Hm. eapply accounted_prefix; [|by apply Hwp]. by eapply entries_mono.
Qed.

End system.

(** ** A concrete interleaving

    [tick i] lets thread [i] take one action if it can; an index out of range
    starts a compaction thread. *)
Abbreviation mpool := (mcfg * list (proc (World MemoryStore) (list ack)))%type.

Section ticks.
Context {S : Type} `{ObjectStoreLaws S}.
Variable sane : World S -> bool.
Hypothesis sane_spec : forall w, sane w = true -> sane_world w.
Context {X : Type} (x : X).
Abbreviation xpool := ((History * World S) * list (proc (World S) X))%type.

Definition tick_as (s : xpool) (i : nat) : xpool :=
  match s.2 !! i with
  | Some (Act f k) =>
      match f s.1.2 with
      | Some (w2, r) => if sane w2 then (after (record "") i s.1 w2, <[i := k r]> s.2) else s
      | None => s
      end
  | Some _ => s
  | None =>
      match spawned_as x s.1.2 with
      | Some (w2, p) => if sane w2 then (after (record "") (length s.2) s.1 w2, s.2 ++ [p]) else s
      | None => s
      end
  end.

Abbreviation xsteps := (rtc (pstep sane_world (record "") (spawned_as x))).

Lemma tick_steps s i : xsteps s (tick_as s i).
Proof.
  destruct s as [c ps]. unfold tick_as. cbn [fst snd]. destruct (ps !! i) as [[a|R f k|m]|] eqn:Ei; try reflexivity.
  - destruct (f c.2) as [[w2 r]|] eqn:Ef; [|reflexivity]. destruct (sane w2) eqn:Es; [|reflexivity].
    apply rtc_once. eapply pstep_act; [done|done|by apply sane_spec].
  - destruct (spawned_as x c.2) as [[w2 p]|] eqn:Ef; [|reflexivity]. destruct (sane w2) eqn:Es; [|reflexivity].
    apply rtc_once. by eapply pstep_start; [|apply sane_spec].
Qed.

Lemma ticks_steps l s : xsteps s (foldl tick_as s l).
Proof. revert s. induction l as [|i l IH]; intros s; cbn; [reflexivity|]. etransitivity; [apply tick_steps|apply IH]. Qed.

Lemma ticks_pair_as l s : xsteps s ((foldl tick_as s l).1, (foldl tick_as s l).2).
Proof. pose proof (ticks_steps l s) as Hs. by destruct (foldl tick_as s l). Qed.

End ticks.

Definition tick : mpool -> nat -> mpool := tick_as sane_b [].
Abbreviation psteps := (rtc (pstep sane_world (record "") spawned_thread)).

Lemma ticks_pair l s : psteps s ((foldl tick s l).1, (foldl tick s l).2).
Proof. apply (ticks_pair_as sane_b sane_b_spec []). Qed.

(** Two writers and a replica; the first writer compacts. *)
Definition clients0 : list Client :=
  [Writes Options_default [OpWriteBatch [as_bytes "a"; as_bytes "b"]; OpCompactNow; OpFlush; OpWrite (as_bytes "c")];
   Writes Options_default [OpWrite (as_bytes "x"); OpWrite (as_bytes "y"); OpRefresh];
   Follows Options_default 3].
Definition pool0 : mpool := (start0, client_thread <$> clients0).
Definition schedule0 : list nat := concat (repeat [0; 1; 0; 2; 0; 9; 3]%nat 20).
Definition end0 : mpool := foldl tick pool0 schedule0.
Definition ended (p : option (proc (World MemoryStore) (list ack))) : option (list ack) :=
  match p with Some (Ret acks) => Some acks | _ => None end.

Lemma ended_Some p acks : ended p = Some acks -> p = Some (Ret acks).
Proof. destruct p as [[a|R f k|m]|]; cbn; congruence. Qed.

Lemma clients0_ok : Forall (client_ok "") clients0.
Proof. repeat constructor; cbn; try done. Qed.

Lemma end0_steps : psteps pool0 (end0.1, end0.2).
Proof. unfold end0. apply ticks_pair. Qed.

Lemma system_is_safe_witness :
  let acks0 := [([as_bytes "a"; as_bytes "b"], Ok (0, 2)); ([as_bytes "c"], Ok (4, 5))] in
  ended (end0.2 !! 0%nat) = Some acks0 /\ length end0.2 = 4%nat
  /\ entries end0.1.1 = [as_bytes "a"; as_bytes "b"; as_bytes "x"; as_bytes "y"; as_bytes "c"]
  /\ recoverable "" end0.1
  /\ accounted (entries end0.1.1) acks0 (mine 0 end0.1.1).
Proof.
  intros acks0. assert (ended (end0.2 !! 0%nat) = Some acks0) as He by (vm_compute; reflexivity).
  split; [exact He|]. split; [vm_compute; reflexivity|]. split; [vm_compute; reflexivity|].
  destruct (system_is_safe "" ns0 clients0 world0 end0.1 end0.2 fresh0 eq_refl clients0_ok end0_steps)
    as (Hrec & _ & Hacc).
  split; [exact Hrec|]. apply Hacc; [cbn; lia|]. by apply ended_Some.
Defined.
