(* ===== verification/Refinement.v ===== *)
(** * The system implements an append-only log

    The abstract specification is a log whose state is the number of entries
    and the application's state, with one operation: appending a batch. What a
    reader computes from the objects in the store ([observe]) is that state,
    and every action of every thread of the system is one append or invisible. *)

From S2P Require Import Prelude Fmt Utf8 Error Image ImageCodec App CountApp Proc Store StoreProps World Core Compactor Writer Protocol Invariant Steps StepsCache StepsStore CoreProps WriterInv InstallProps WriterProps Scenario System.

(** ** The abstract log *)

Section log.
Context `{WalAppLaws}.

Abbreviation Log := (Lsn * State)%type.

Inductive log_step : Log -> Log -> Prop :=
  | log_append n s es s' : es <> [] -> seqv s' (replay_from s n es) -> log_step (n, s) (n + zlen es, s').

Definition log_same (l l' : Log) : Prop := l'.1 = l.1 /\ seqv l'.2 l.2.

(** What opening the log computes from the objects of a store: the state of
    the referenced snapshot, and the live entries applied to it. *)
Definition observe (P : string) (m : gmap string Stored) : option Log :=
  match m !! wkey P with
  | None => Some (0, init)
  | Some o =>
      match parse o with
      | None => None
      | Some im =>
          let base := match img_snapshot im with
            | None => Some init
            | Some sr => match m !! sr_key sr with
                | Some o => match restore (st_data o) with Ok s => Some s | Err _ => None end
                | None => None
                end
            end in
          match base with
          | Some s => Some (next_lsn im, replay_from s (first_lsn im) (img_entries im))
          | None => None
          end
      end
  end.

End log.

Section refinement.
Context {S : Type} `{ObjectStoreLaws S} `{WalAppLaws}.
Variable P : string.
Variable ns : option string.
Context `{!LogNames P ns}.
Abbreviation World := (World S).
Abbreviation cfg := (History * World)%type.
Implicit Types (c : cfg).

Lemma inv_observe c : inv P ns c -> exists s,
  observe P (contents (w_store c.2)) = Some (zlen (entries c.1), s) /\ seqv s (replay (entries c.1)).
Proof.
  intros Hi. apply inv_recoverable in Hi. unfold recoverable, base_state, observe in *.
  destruct (contents (w_store c.2) !! wkey P) as [o|]; [|by exists init; rewrite Hi].
  destruct Hi as (im & s & -> & Hn & Hb & Hs).
  exists (replay_from s (first_lsn im) (img_entries im)). split; [|done]. rewrite <- Hn.
  destruct (img_snapshot im) as [sr|]; [|by rewrite Hb].
  destruct Hb as (o' & -> & ->). done.
Qed.

(** One action adds at most one batch to the history. *)
Lemma record_cases i c w : exists es, entries (after (record P) i c w).1 = entries c.1 ++ es.
Proof.
  unfold after, record. cbn [fst]. destruct (cur P w) as [im|]; [|by exists []; rewrite app_nil_r].
  destruct (_ <? _); [|by exists []; rewrite app_nil_r]. rewrite entries_app.
  eexists. unfold entries at 2. cbn. by rewrite app_nil_r.
Qed.

Lemma step_record s s' : pstep (X := list ack) sane_world (record P) spawned_thread s s' ->
  exists es, entries s'.1.1 = entries s.1.1 ++ es.
Proof. intros [i R f k c ps w2 r _ _ _|c ps w2 p _ _]; apply record_cases. Qed.

(** C3. The system implements an append-only log. What opening the log
    computes from the objects in the store refines the abstract log: it is the
    empty log at the start, and whatever the clients do and whatever errors
    the store and the disk report, every single action of any thread (a
    writer's append or flush, a compaction, a collection of garbage, a
    replica's poll) either appends one batch to it, atomically, or leaves it
    as it is. *)
Theorem system_refines_log clients w c ps c' ps' :
  fresh_world w -> cache_namespace (w_store w) = ns -> Forall (client_ok P) clients ->
  rtc (pstep sane_world (record P) spawned_thread) (([], w), client_thread <$> clients) (c, ps) ->
  pstep sane_world (record P) spawned_thread (c, ps) (c', ps') ->
  observe P (contents (w_store w)) = Some (0, init)
  /\ exists l l', observe P (contents (w_store c.2)) = Some l /\ observe P (contents (w_store c'.2)) = Some l'
     /\ (log_same l l' \/ log_step l l').
Proof.
  intros Hw Hns Hcl Hrun Hstep.
  destruct (system_ok P ns clients w c ps Hw Hns Hcl Hrun) as (Hi & _).
  destruct (system_ok P ns clients w c' ps' Hw Hns Hcl (rtc_r _ _ _ Hrun Hstep)) as (Hi' & _).
  split. { unfold observe. rewrite (fw_objects _ Hw). by rewrite lookup_empty. }
  destruct (inv_observe _ Hi) as (s & Ho & Hs). destruct (inv_observe _ Hi') as (s' & Ho' & Hs'). cbn [fst snd] in *.
  destruct (step_record _ _ Hstep) as [es He]. cbn [fst snd] in He. rewrite He in Ho', Hs'.
  rewrite replay_app, <- Hs in Hs'. eexists _, _. split; [exact Ho|]. split; [exact Ho'|].
  destruct es as [|e es]; [left; by rewrite app_nil_r|right]. rewrite zlen_app. by apply log_append.
Qed.

End refinement.

(** ** A concrete step: an append after a compaction *)

Definition ticks (s : mpool) (i : nat) : bool :=
  match s.2 !! i with
  | Some (Act f k) => match f s.1.2 with Some (w2, r) => sane_b w2 | None => false end
  | _ => false
  end.

Lemma tick_pstep s i : ticks s i = true ->
  pstep sane_world (record "") spawned_thread (s.1, s.2) ((tick s i).1, (tick s i).2).
Proof.
  destruct s as [c ps]. unfold ticks, tick, tick_as. cbn [fst snd]. destruct (ps !! i) as [[a|R f k|m]|] eqn:Ei; try done.
  destruct (f c.2) as [[w2 r]|] eqn:Ef; [|done]. intros Es. rewrite Es. eapply pstep_act; [done|done|by apply sane_b_spec].
Qed.

Definition mid0 : mpool := foldl tick pool0 (take 51 schedule0).
Definition next0 : mpool := tick mid0 0.

Lemma system_refines_log_witness :
  observe "" (contents (w_store next0.1.2)) = Some (5, 5)
  /\ exists l l', observe "" (contents (w_store mid0.1.2)) = Some l /\ observe "" (contents (w_store next0.1.2)) = Some l'
     /\ (log_same l l' \/ log_step l l').
Proof.
  split; [vm_compute; reflexivity|].
  assert (ticks mid0 0 = true) as Ht by (vm_compute; reflexivity).
  exact (proj2 (system_refines_log "" ns0 clients0 world0 mid0.1 mid0.2 next0.1 next0.2 fresh0 eq_refl clients0_ok
    (ticks_pair (take 51 schedule0) pool0) (tick_pstep mid0 0 Ht))).
Defined.
