(* ===== verification/Backends.v ===== *)
(** * The log on its backends

    The theorems of the log are proved against [ObjectStoreLaws]; here they
    meet the stores of the crate. A concrete run shows the log on S3 when the
    reply to an append is lost. *)

From S2P Require Import Prelude Fmt Utf8 Error Image ImageCodec App CountApp Proc Atomic AtomicProps Cache CacheChecksum CacheProps CacheTheorems Store StoreProps FsStore FsStoreProps Sim SimProps S3 S3Props S3Scenario World Core Compactor Writer Protocol Invariant Steps StepsCache StepsStore CoreProps WriterInv InstallProps WriterProps Scenario System.

(** Every reachable state of every system of handles can be recovered from the
    objects alone, on any store that keeps the promises. *)
Lemma log_recoverable {S} `{ObjectStoreLaws S} `{WalAppLaws} P (w : World S) `{!LogNames P (cache_namespace (w_store w))} clients c ps :
  fresh_world w -> Forall (client_ok P) clients ->
  rtc (pstep sane_world (record P) spawned_thread) (([], w), client_thread <$> clients) (c, ps) -> recoverable P c.
Proof.
  intros Hw Hcl Hrun. destruct (system_ok P _ clients w c ps Hw eq_refl Hcl Hrun) as (Hi & _).
  by eapply inv_recoverable.
Qed.

(** A service that loses the reply to the second PUT. *)
Definition s3_world : World (S3Store Net) :=
  mkWorld (with_net (mkNet (MemoryStore_new None) [Replied; Lost] []) (opened_s3 "logs")) empty_fs [] [] [].

Definition s3_run : option (World (S3Store Net) * outcome (list ack)) :=
  run (writer_thread Options_default [OpWrite (as_bytes "a"); OpRefresh; OpWrite (as_bytes "b")]) s3_world.

(** The first append reports [Unknown], and it did commit: the second one gets LSN 1. *)
Example s3_append_with_lost_reply :
  match s3_run with
  | Some (_, Returned acks) => Some ((fun a => match a.2 with Ok r => Ok r | Err e => Err (we_outcome e) end) <$> acks)
  | _ => None
  end = Some [Err Unknown; Ok (1, 2)].
Proof. vm_compute. reflexivity. Qed.
