(* ===== verification/Late.v ===== *)
(** * Mutations that arrive late

    After an [Unknown] outcome a request may still be on its way: a backend may
    apply a compare-and-swap, an upload or a deletion long after the caller has
    given up, and after anybody's fresh reads ([late], [land] of
    [ObjectStoreLaws]). Here the network is one more kind of thread, whose
    actions are these arrivals, beside the writers, replicas and compaction
    threads of [System]: the invariant says of every mutation in flight that it
    is [harmless], whenever it arrives. *)

From S2P Require Import Prelude Fmt Utf8 Error Image ImageCodec App CountApp Proc Atomic AtomicProps Cache CacheChecksum CacheProps CacheTheorems Store StoreProps S3 S3Props S3Scenario World Core Compactor Writer Protocol Invariant Steps StepsCache StepsStore CoreProps CompactorProps WriterInv InstallProps WriterProps Scenario System.

Section late.
Context {S : Type} `{ObjectStoreLaws S} `{WalAppLaws}.
Variable P : string.
Variable ns : option string.
Context `{!LogNames P ns}.
Abbreviation World := (World S).
Abbreviation cfg := (History * World)%type.
Abbreviation inv := (inv P ns).
Abbreviation rely := (rely P ns).
Abbreviation guar := (guar P ns).
Abbreviation wp := (pwp P ns).
Implicit Types (w : World) (c : cfg).

(** The world after the [n]-th mutation in flight has arrived. *)
Definition landed (n : nat) w : World := with_store (land n (w_store w)) w.
Definition arrival (n : nat) : proc World unit := act (fun w => (landed n w, tt)).

(** The network: at each of its actions some mutation arrives. *)
Fixpoint network (arrivals : list nat) : proc World (list ack) :=
  match arrivals with
  | [] => Ret []
  | n :: arrivals => let! _ := arrival n in network arrivals
  end.

(** What an arrival may do to the history: add the entries of one
    compare-and-swap in flight, over the image it was made for. *)
Definition arrives c (extra : list bytes) : Prop :=
  extra = [] \/ exists o im im', contents (w_store c.2) !! wkey P = Some o
    /\ MPut (wkey P) (Some (Some (st_etag o))) (emitted im') ∈ late (w_store c.2)
    /\ proposal P c (st_etag o) im im' extra.

Lemma quiet_landed i c w : inv c -> quiet P ns c w ->
  guar i c (after (record P) i c w) /\ exists extra, record P i c.1 c.2 w = c.1 ++ batch_of i extra /\ arrives c extra.
Proof.
  intros Hi Hq. split; [by apply quiet_guar|]. exists []. split; [|by left].
  cbn [batch_of]. rewrite app_nil_r. apply record_same, cur_same, Hq.
Qed.

(** The arrival of a harmless mutation is a step that the protocol allows. *)
Lemma lands_guar i n c m : inv c -> sane_world (landed n c.2) -> m ∈ late (w_store c.2) ->
  lands m (contents (w_store c.2)) (contents (land n (w_store c.2))) ->
  guar i c (after (record P) i c (landed n c.2))
  /\ exists extra, record P i c.1 c.2 (landed n c.2) = c.1 ++ batch_of i extra /\ arrives c extra.
Proof.
  intros Hi Hs Hm Hl. destruct (land_law n _ (inv_wf _ _ _ Hi) Hs) as (Hk & Hsub & _).
  pose proof (late_sub P ns c _ Hi Hsub) as Hlate. pose proof (inv_late _ _ _ Hi) as Hh.
  rewrite Forall_forall in Hh. pose proof (Hh m Hm) as Hharm.
  destruct Hharm as [k L d Hkey Hd| |e im im' extra Hp|k Hd]; cbn [lands] in Hl.
  - destruct Hl as (etag & _ & Hc). apply quiet_landed; [done|]. by eapply quiet_put_snapshot.
  - destruct Hl as (etag & Hcas & Hc). specialize (Hcas _ eq_refl).
    assert (contents (w_store c.2) !! wkey P = None) as Eo by by destruct (_ !! wkey P).
    destruct (install_guar P ns i c (land n (w_store c.2)) etag empty [] Hi Hs Hk (create_successor P ns c Hi Eo) Hlate Hc) as (Ha & Hg & _).
    change (with_store (land n (w_store c.2)) c.2) with (landed n c.2) in Ha.
    split; [by rewrite Ha|]. exists []. split; [|by left]. exact (f_equal fst Ha).
  - destruct Hl as (etag & Hcas & Hc). specialize (Hcas _ eq_refl).
    destruct (contents (w_store c.2) !! wkey P) as [o|] eqn:Eo; [|done].
    cbn in Hcas. apply bool_decide_eq_true in Hcas as <-.
    destruct (seen_match _ _ _ _ _ Hi Eo (pr_seen _ _ _ _ _ _ Hp)) as [Hcur Hn].
    pose proof (proposal_successor P ns c _ im im' extra Hi Hcur Hn Hp) as Hsuc.
    destruct (install_guar P ns i c (land n (w_store c.2)) etag im' extra Hi Hs Hk Hsuc Hlate Hc) as (Ha & Hg & _).
    change (with_store (land n (w_store c.2)) c.2) with (landed n c.2) in Ha.
    split; [by rewrite Ha|]. exists extra. split; [exact (f_equal fst Ha)|]. right. exists o, im, im'. by split_and!.
  - apply quiet_landed; [done|]. by eapply quiet_delete.
Qed.

Lemma landed_guar i n c : inv c -> sane_world (landed n c.2) ->
  guar i c (after (record P) i c (landed n c.2))
  /\ exists extra, record P i c.1 c.2 (landed n c.2) = c.1 ++ batch_of i extra /\ arrives c extra.
Proof.
  intros Hi Hs. destruct (land_law n _ (inv_wf _ _ _ Hi) Hs) as (Hk & Hsub & [Hc|(m & Hm & Hl)]).
  - apply quiet_landed; [done|]. apply quiet_store; [done..|]. by eapply late_sub.
  - eapply lands_guar; [done|done| |exact Hl]. by eapply list_elem_of_lookup_2.
Qed.

Lemma wp_network i arrivals (Q : list ack -> cfg -> Prop) E c :
  inv c -> (forall acks c', Q acks c') -> wp i (network arrivals) Q E c.
Proof.
  revert c. induction arrivals as [|n arrivals IH]; intros c Hi HQ; cbn [network]; [apply HQ|].
  apply wp_bind, wp_act. intros c1 w2 r Hr Hf Hs. injection Hf as <- <-.
  destruct (landed_guar i n c1 (rely_inv _ _ _ _ _ Hr) Hs) as [Hg _]. split; [done|]. apply IH; [|done]. by eapply guar_inv.
Qed.

(** The threads of the system: its clients and the network. *)
Definition late_threads (clients : list Client) (arrivals : list (list nat)) : list (proc World (list ack)) :=
  (client_thread <$> clients) ++ (network <$> arrivals).

Lemma late_system_ok clients arrivals w c ps :
  fresh_world w -> cache_namespace (w_store w) = ns -> Forall (client_ok P) clients ->
  rtc (pstep sane_world (record P) spawned_thread) (([], w), late_threads clients arrivals) (c, ps) ->
  pool_ok sane_world (record P) inv rely guar (fun _ _ => True)
    (client_done (length clients)) (length clients + length arrivals) (c, ps).
Proof.
  intros Hw Hns Hcl Hrun. pose proof (inv_initial P w Hw) as Hinit. rewrite Hns in Hinit.
  eapply (pool_sound sane_world (record P) inv rely guar (fun _ _ => True) spawned_thread); [..|exact Hrun|].
  - intros. by apply rely_refl.
  - intros. by eapply rely_trans.
  - intros. by eapply guar_inv.
  - intros. by eapply guar_rely.
  - intros j c0 w2 p Hj Hi Hsp _. unfold spawned_thread, spawned_as in Hsp.
    destruct (spawned c0.2) as [[w' q]|] eqn:Eq; [|done]. injection Hsp as <- <-.
    destruct (spawned_ok P ns j c0 w' q Hi Eq) as [Hg Hwp]. split; [done|].
    apply wp_bind. eapply wp_mono; [|exact Hwp]. unfold client_done. cbn. lia.
  - split; [done|]. unfold late_threads. split; [cbn [snd]; by rewrite length_app, !length_fmap|]. cbn [fst snd].
    intros i p Hp. exists ([], w). split; [|by apply rely_refl].
    apply lookup_app_Some in Hp as [Hp|[Hle Hp]]; apply list_lookup_fmap_Some in Hp as (x & -> & Hl).
    + apply (wp_client P ns); [done|by eapply Forall_lookup_1|]. intros acks c' (_ & _ & bs & Ha & Hm) _.
      cbn in Hm. by rewrite Hm.
    + rewrite length_fmap in Hle. apply wp_network; [done|]. intros acks c' Hlt. lia.
Qed.

(** C19. The log survives mutations that arrive late. Besides the clients and
    compaction threads of the system, the network makes any requests whose
    outcome was reported as [Unknown] take effect, in any order and at any time
    later: delayed appends and fold installations, the creation of the log,
    uploads and deletions. In every reachable state no thread has panicked, the
    objects of the store determine the state of the whole history, and a
    writer that has finished has committed exactly what its acknowledgements
    account for; and whatever arrives next adds nothing to the history but the
    entries of one compare-and-swap in flight, whole and only over the very
    image they were reconciled with, or nothing. *)
Theorem late_mutations_are_safe clients arrivals w c ps :
  fresh_world w -> cache_namespace (w_store w) = ns -> Forall (client_ok P) clients ->
  rtc (pstep sane_world (record P) spawned_thread) (([], w), late_threads clients arrivals) (c, ps) ->
  recoverable P c
  /\ (forall i p m, ps !! i = Some p -> p <> Panic m)
  /\ (forall i acks, (i < length clients)%nat -> ps !! i = Some (Ret acks) -> accounted (entries c.1) acks (mine i c.1))
  /\ (forall i n, sane_world (landed n c.2) ->
        exists extra, record P i c.1 c.2 (landed n c.2) = c.1 ++ batch_of i extra /\ arrives c extra).
Proof.
  intros Hw Hns Hcl Hrun. destruct (late_system_ok clients arrivals w c ps Hw Hns Hcl Hrun) as (Hi & _ & Hall).
  cbn [fst snd] in *. split_and!; [by eapply inv_recoverable| | |].
  - intros i p m Hp ->. by destruct (Hall i _ Hp) as (c0 & Hwp & _).
  - intros i acks Hlt Hp. destruct (Hall i _ Hp) as (c0 & Hwp & _ & Hg & Hm). cbn [wp] in Hwp.
    rewrite Hm. eapply accounted_prefix; [|by apply Hwp]. by eapply entries_mono.
  - intros i n Hs. by destruct (landed_guar i n c Hi Hs) as [_ Hland].
Qed.

End late.

(** ** A delayed append

    Two writers on S3: the first one's compare-and-swap is still under way when
    it gives up. The second one opens the log and reads it, empty, with a fresh
    GET; then the delayed append takes effect, the second one's own append
    loses its race and gives up (the counter's policy), and its next one
    commits at LSN 1. *)
Definition delayed_net : Net := mkNet (MemoryStore_new None) [Replied; Delayed] [].
Definition delayed_world : World (S3Store Net) :=
  mkWorld (with_net delayed_net (opened_s3 "logs")) empty_fs [] [] [].
Definition delayed_clients : list Client :=
  [Writes Options_default [OpWrite (as_bytes "a")]; Writes Options_default [OpWrite (as_bytes "b"); OpWrite (as_bytes "b")]].
Definition net_sane (w : World (S3Store Net)) : bool := ms_next_etag (net_objects (s3_net (w_store w))) <=? 2 ^ 64.
Definition delayed_pool := ((([], delayed_world) : History * World (S3Store Net)), late_threads delayed_clients [[0%nat]]).
Definition waiting := foldl (tick_as net_sane []) delayed_pool (repeat 0%nat 30 ++ repeat 1%nat 3).
Definition delayed_end := foldl (tick_as net_sane []) waiting (2%nat :: repeat 1%nat 30).

(** The acknowledgements of a thread that has finished, errors by their outcome. *)
Definition answers (p : option (proc (World (S3Store Net)) (list ack))) : option (list (Result (Lsn * Lsn) MutationOutcome)) :=
  match p with
  | Some (Ret acks) => Some ((fun a => match a.2 with Ok r => Ok r | Err e => Err (we_outcome e) end) <$> acks)
  | _ => None
  end.

#[global] Instance s3_names : LogNames "" (cache_namespace (w_store delayed_world)).
Proof.
  split; [by apply is_utf8_ascii|done|]. intros n [= <-]. by vm_compute.
Qed.

Lemma delayed_fresh : fresh_world delayed_world.
Proof.
  split; [|done|done|done|constructor|done|done]. split; [by exists 10, 30|]. split; [exact (MemoryStore_new_wf None)|done].
Qed.

Lemma net_sane_spec w : net_sane w = true -> sane_world w.
Proof. unfold net_sane. intros Hw. zbool. exact Hw. Qed.

Lemma late_mutations_are_safe_witness :
  answers (waiting.2 !! 0%nat) = Some [Err Unknown] /\ answers (waiting.2 !! 1%nat) = None
  /\ waiting.1.1 = [] /\ length (late (w_store waiting.1.2)) = 1%nat
  /\ answers (delayed_end.2 !! 1%nat) = Some [Err NotApplied; Ok (1, 2)]
  /\ entries delayed_end.1.1 = [as_bytes "a"; as_bytes "b"]
  /\ recoverable "" delayed_end.1
  /\ record "" 2 waiting.1.1 waiting.1.2 (landed 0 waiting.1.2) = [(2%nat, [as_bytes "a"])]
  /\ arrives "" waiting.1 [as_bytes "a"].
Proof.
  do 4 (split; [vm_compute; reflexivity|]). do 2 (split; [vm_compute; reflexivity|]).
  assert (Forall (client_ok "") delayed_clients) as Hcl by (repeat constructor; cbn; done).
  split.
  - unfold delayed_end, waiting. rewrite <- foldl_app.
    exact (proj1 (late_mutations_are_safe "" _ delayed_clients [[0%nat]] delayed_world _ _ delayed_fresh eq_refl Hcl
      (ticks_pair_as net_sane net_sane_spec [] _ delayed_pool))).
  - assert (record "" 2 waiting.1.1 waiting.1.2 (landed 0 waiting.1.2) = [(2%nat, [as_bytes "a"])]) as Hr by (vm_compute; reflexivity).
    split; [exact Hr|].
    destruct (late_mutations_are_safe "" _ delayed_clients [[0%nat]] delayed_world waiting.1 waiting.2 delayed_fresh eq_refl Hcl
      (ticks_pair_as net_sane net_sane_spec [] _ delayed_pool)) as (_ & _ & _ & Hland).
    assert (net_sane (landed 0 waiting.1.2) = true) as Hs by (vm_compute; reflexivity).
    assert (waiting.1.1 = []) as Hn by (vm_compute; reflexivity).
    destruct (Hland 2%nat 0%nat (net_sane_spec (landed 0 waiting.1.2) Hs)) as (extra & Heq & Ha).
    rewrite Hr, Hn in Heq. destruct extra; [done|]. injection Heq as <- <-. exact Ha.
Defined.
