(* ===== verification/Progress.v ===== *)
(** * Progress and termination

    The only blocking actions of the crate wait for a compaction thread
    ([recv], [join]). A thread is [tame] when it blocks only while some
    compaction thread is unfinished; a compaction thread is [brisk] (it never
    blocks) and [ends] by marking its job ended; only a writer's operations
    create threads. With these, no reachable state of the whole system is
    deadlocked and every schedule is finite. *)

From S2P Require Import Prelude Fmt Utf8 Error Image ImageCodec App CountApp Proc Atomic AtomicProps Cache CacheChecksum CacheProps CacheTheorems Store StoreProps World Core Compactor Writer Protocol Invariant Steps StepsCache StepsStore CoreProps CompactorProps WriterInv InstallProps WriterProps Scenario System.

Section tame.
Context {S : Type} `{ObjectStore S} `{WalApp}.
Abbreviation World := (World S).
Abbreviation proc := (proc World).
Implicit Types w : World.

(** Thread [t] has ended, if it exists. *)
Definition job_ended (t : nat) w : Prop := forall j, w_jobs w !! t = Some j -> j_ended j <> None.

(** Some compaction thread has not ended. *)
Definition unfinished w : Prop := exists t j, w_jobs w !! t = Some j /\ j_ended j = None.

(** An unended job of [w'] is new, or was there in the same stage. *)
Definition jobs_kept w w' : Prop := forall t j', w_jobs w' !! t = Some j' -> j_ended j' = None ->
  j_started j' = false \/ exists j, w_jobs w !! t = Some j /\ j_ended j = None /\ j_started j = j_started j'.

(** The number of threads created and not started. *)
Definition waiting w : nat :=
  foldr (fun j n => if j_started j then n else Datatypes.S n) O (w_jobs w).

Fixpoint tame {A} (p : proc A) : Prop :=
  match p with
  | Act f k => forall w, match f w with
      | None => unfinished w
      | Some (w', r) => jobs_kept w w' /\ tame (k r)
      end
  | _ => True
  end.

(** Never blocks, creates no thread. *)
Fixpoint brisk {A} (p : proc A) : Prop :=
  match p with
  | Act f k => forall w, match f w with
      | None => False
      | Some (w', r) => jobs_kept w w' /\ waiting w' = waiting w /\ brisk (k r)
      end
  | _ => True
  end.

(** Blocks only while some compaction thread is unfinished, creates no thread. *)
Fixpoint calm {A} (p : proc A) : Prop :=
  match p with
  | Act f k => forall w, match f w with
      | None => unfinished w
      | Some (w', r) => jobs_kept w w' /\ waiting w' = waiting w /\ calm (k r)
      end
  | _ => True
  end.

Fixpoint ends (t : nat) {A} (p : proc A) : Prop :=
  match p with
  | Act f k => forall w, match f w with
      | None => False
      | Some (w', r) => job_ended t w' \/ ends t (k r)
      end
  | _ => False
  end.

Lemma brisk_tame {A} (p : proc A) : brisk p -> tame p.
Proof.
  induction p as [a|R f k IH|m]; cbn; [done| |done]. intros Hb w. specialize (Hb w).
  destruct (f w) as [[w' r]|]; [|done]. destruct Hb as (? & _ & ?). auto.
Qed.

Lemma brisk_calm {A} (p : proc A) : brisk p -> calm p.
Proof.
  induction p as [a|R f k IH|m]; cbn; [done| |done]. intros Hb w. specialize (Hb w).
  destruct (f w) as [[w' r]|]; [|done]. destruct Hb as (? & ? & ?). auto.
Qed.

Lemma calm_tame {A} (p : proc A) : calm p -> tame p.
Proof.
  induction p as [a|R f k IH|m]; cbn; [done| |done]. intros Hb w. specialize (Hb w).
  destruct (f w) as [[w' r]|]; [|done]. destruct Hb as (? & _ & ?). auto.
Qed.

Lemma calm_bind {A B} (p : proc A) (k : A -> proc B) : calm p -> (forall a, calm (k a)) -> calm (bind p k).
Proof.
  intros Hp Hk. induction p as [a|R f k' IH|m]; cbn in *; [done| |done]. intros w. specialize (Hp w).
  destruct (f w) as [[w' r]|]; [|done]. destruct Hp as (? & ? & ?). auto.
Qed.

Lemma tame_bind {A B} (p : proc A) (k : A -> proc B) : tame p -> (forall a, tame (k a)) -> tame (bind p k).
Proof.
  intros Hp Hk. induction p as [a|R f k' IH|m]; cbn in *; [done| |done]. intros w. specialize (Hp w).
  destruct (f w) as [[w' r]|]; [|done]. destruct Hp. auto.
Qed.

Lemma brisk_bind {A B} (p : proc A) (k : A -> proc B) : brisk p -> (forall a, brisk (k a)) -> brisk (bind p k).
Proof.
  intros Hp Hk. induction p as [a|R f k' IH|m]; cbn in *; [done| |done]. intros w. specialize (Hp w).
  destruct (f w) as [[w' r]|]; [|done]. destruct Hp as (? & ? & ?). auto.
Qed.

Lemma brisk_on_panic {A} (p : proc A) h : brisk p -> (forall m, brisk (h m)) -> brisk (on_panic p h).
Proof.
  intros Hp Hh. induction p as [a|R f k' IH|m]; cbn in *; [done| |done]. intros w. specialize (Hp w).
  destruct (f w) as [[w' r]|]; [|done]. destruct Hp as (? & ? & ?). auto.
Qed.

Lemma tame_on_panic {A} (p : proc A) h : tame p -> (forall m, tame (h m)) -> tame (on_panic p h).
Proof.
  intros Hp Hh. induction p as [a|R f k' IH|m]; cbn in *; [done| |done]. intros w. specialize (Hp w).
  destruct (f w) as [[w' r]|]; [|done]. destruct Hp. auto.
Qed.

Lemma ends_bind t {A B} (p : proc A) (k : A -> proc B) : ends t p -> ends t (bind p k).
Proof.
  induction p as [a|R f k' IH|m]; cbn; [done| |done]. intros Hp w. specialize (Hp w).
  destruct (f w) as [[w' r]|]; [|done]. destruct Hp; auto.
Qed.

(** The body of a thread: whether it reports or panics, the thread ends. *)
Lemma ends_on_panic t {A B} (p : proc A) (k : A -> proc B) h : brisk p ->
  (forall a, ends t (on_panic (k a) h)) -> (forall m, ends t (h m)) -> ends t (on_panic (bind p k) h).
Proof.
  intros Hp Hk Hh. induction p as [a|R f k' IH|m]; cbn in *; [done| |done]. intros w. specialize (Hp w).
  destruct (f w) as [[w' r]|]; [|done]. destruct Hp as (_ & _ & ?). auto.
Qed.

(** ** The actions *)

Lemma jobs_kept_same w w' : w_jobs w' = w_jobs w -> jobs_kept w w'.
Proof. intros Hj t j' Ht He. rewrite Hj in Ht. right. by exists j'. Qed.

Lemma brisk_request {R} (f : S -> S * R) : brisk (request f).
Proof. intros w. cbn. destruct (f (w_store w)) as [s r]. split_and!; [by apply jobs_kept_same|done|done]. Qed.
Lemma brisk_on_fs {R} (f : Fs -> Fs * R) : brisk (on_fs (S := S) f).
Proof. intros w. cbn. destruct (f (w_fs w)) as [s r]. split_and!; [by apply jobs_kept_same|done|done]. Qed.
Lemma brisk_on_fs_ f : brisk (on_fs_ (S := S) f).
Proof. intros w. cbn. split_and!; [by apply jobs_kept_same|done|done]. Qed.
Lemma brisk_next_random : brisk (next_random (S := S)).
Proof. intros w. cbn. destruct (w_ids w); (split_and!; [by apply jobs_kept_same|done|done]). Qed.

(** A change of one job that keeps its stage, or ends it. *)
Lemma jobs_kept_alter g t w : (forall j, j_started (g j) = j_started j) ->
  (forall j, j_ended (g j) = None -> j_ended j = None) ->
  jobs_kept w (with_jobs (alter g t (w_jobs w)) w).
Proof.
  intros Hs He t' j' Ht Hj'. cbn in Ht. destruct (decide (t = t')) as [->|Hne].
  - rewrite list_lookup_alter_eq in Ht. apply fmap_Some in Ht as (j & Hj & ->). right. exists j. auto.
  - rewrite list_lookup_alter_ne in Ht by done. right. by exists j'.
Qed.

Lemma waiting_alter g t w : (forall j, j_started (g j) = j_started j) ->
  waiting (with_jobs (alter g t (w_jobs w)) w) = waiting w.
Proof.
  intros Hs. unfold waiting. cbn. generalize (w_jobs w). intros js. revert t.
  induction js as [|j js IH]; intros [|t]; cbn [alter list_alter foldr]; [done..| |].
  - by rewrite Hs.
  - by rewrite (IH t).
Qed.

Lemma brisk_send t o : brisk (send (S := S) t o).
Proof. intros w. cbn. split_and!; [by apply jobs_kept_alter|by apply waiting_alter|done]. Qed.
Lemma brisk_exit t b : brisk (exit (S := S) t b).
Proof. intros w. cbn. split_and!; [by apply jobs_kept_alter|by apply waiting_alter|done]. Qed.

Lemma ends_exit t b : ends t (exit (S := S) t b).
Proof.
  intros w. left. intros j Hj. cbn in Hj. rewrite list_lookup_alter_eq in Hj.
  by apply fmap_Some in Hj as (j' & _ & ->).
Qed.

Lemma calm_try_recv t : calm (try_recv (S := S) t).
Proof.
  intros w. cbn. destruct (w_jobs w !! t) as [[a st [o|] [b|]]|]; cbn;
    (split_and!; [first [by apply jobs_kept_alter|by apply jobs_kept_same]|first [by apply waiting_alter|done]|done]).
Qed.

Lemma calm_recv t : calm (recv (S := S) t).
Proof.
  intros w. cbn. destruct (w_jobs w !! t) as [[a st [o|] [b|]]|] eqn:Ej; cbn;
    try (split_and!; [first [by apply jobs_kept_alter|by apply jobs_kept_same]|first [by apply waiting_alter|done]|done]).
  by eexists _, _.
Qed.

Lemma calm_join t : calm (join (S := S) t).
Proof.
  intros w. cbn. destruct (w_jobs w !! t) as [j|] eqn:Ej; cbn; [|by split_and!; [apply jobs_kept_same|..]].
  destruct (j_ended j) eqn:Ee; [by split_and!; [apply jobs_kept_same|..]|]. by eexists _, _.
Qed.

Lemma jobs_kept_new a w ids sp :
  jobs_kept w (mkWorld (w_store w) (w_fs w) ids sp (w_jobs w ++ [mkJob a false None None])).
Proof.
  intros t j' Ht He. cbn in Ht. apply lookup_app_Some in Ht as [Ht|[_ Ht]]; [right; by exists j'|].
  left. by apply list_lookup_singleton_Some in Ht as [_ <-].
Qed.

Lemma tame_spawn a : tame (spawn (S := S) a).
Proof.
  intros w. cbn. destruct (w_spawn w) as [|[e|] rest];
    (split; [first [apply jobs_kept_new|by apply jobs_kept_same]|done]).
Qed.

End tame.

Create HintDb tame discriminated.
#[export] Hint Resolve brisk_request brisk_on_fs brisk_on_fs_ brisk_next_random brisk_send brisk_exit
  calm_try_recv calm_recv calm_join tame_spawn : tame.
#[export] Hint Resolve brisk_tame brisk_calm calm_tame | 10 : tame.

(** Walks through binds and cases down to actions and known operations. *)
Ltac walk := repeat (intros; cbn zeta;
  first
    [ exact I
    | solve [auto with tame nocore]
    | apply tame_bind
    | apply brisk_bind
    | apply calm_bind
    | match goal with |- context [match ?x with _ => _ end] => destruct x end ]).

(** ** The code *)

Section code.
Context {S : Type} `{ObjectStore S} `{WalApp}.
Abbreviation proc := (proc (World S)).

Lemma brisk_fetch_snapshot c k max : brisk (fetch_snapshot c k max : proc _).
Proof. unfold fetch_snapshot. walk. Qed.
Lemma brisk_record_image_put e d co : brisk (record_image_put e d co : proc _).
Proof. unfold record_image_put. walk. Qed.
Lemma brisk_checkpoint_cache co : brisk (checkpoint_cache co : proc _).
Proof. unfold checkpoint_cache. walk. Qed.
Lemma brisk_sweep_cache keep entries : brisk (sweep_cache keep entries : proc _).
Proof. induction entries; cbn [sweep_cache]; walk. Qed.
#[local] Hint Resolve brisk_sweep_cache : tame.
Lemma brisk_retain_cache c keep : brisk (retain_cache c keep : proc _).
Proof. unfold retain_cache. walk. Qed.
#[local] Hint Resolve brisk_fetch_snapshot brisk_record_image_put brisk_checkpoint_cache brisk_retain_cache : tame.

Lemma brisk_open_stored o c m (retry : option (string * string) -> proc (Result Core WalError)) st :
  (forall m, brisk (retry m)) -> brisk (open_stored o c m retry st).
Proof. unfold open_stored, open_finish. walk. Qed.

Lemma brisk_open_loop n o c cached create m : brisk (open_loop n o c cached create m : proc _).
Proof.
  revert m. induction n as [|n IH]; intros m; cbn [open_loop]; [done|].
  pose proof brisk_open_stored as Hst. walk.
Qed.
#[local] Hint Resolve brisk_open_loop : tame.

Lemma brisk_Core_open o create : brisk (Core_open o create : proc _).
Proof. unfold Core_open. walk. Qed.

Lemma brisk_refresh_loop n m co : brisk (refresh_loop n m co : proc _).
Proof.
  revert m. induction n as [|n IH]; intros m; cbn [refresh_loop]; [done|].
  pose proof (fun m => IH m) as IH'. unfold refresh_changed, adopt. walk.
Qed.
Lemma brisk_Core_refresh co : brisk (Core_refresh co : proc _).
Proof. apply brisk_refresh_loop. Qed.
#[local] Hint Resolve brisk_Core_open brisk_Core_refresh : tame.

Lemma brisk_discard self : brisk (discard_superseded_fold self : proc _).
Proof. unfold discard_superseded_fold. walk. Qed.
#[local] Hint Resolve brisk_discard : tame.

Lemma calm_finish o self : calm (finish_compaction o self : proc _).
Proof. unfold finish_compaction. walk. Qed.
#[local] Hint Resolve calm_finish : tame.
Lemma calm_integrate self : calm (integrate_compaction self : proc _).
Proof. unfold integrate_compaction. walk. Qed.
#[local] Hint Resolve calm_integrate : tame.
Lemma calm_sync self : calm (sync_compaction self : proc _).
Proof. unfold sync_compaction. walk. Qed.
#[local] Hint Resolve calm_sync : tame.
Lemma calm_wait self : calm (wait_for_compaction self : proc _).
Proof. unfold wait_for_compaction. walk. Qed.
Lemma tame_compact_now self : tame (compact_now self : proc _).
Proof. unfold compact_now, spawn_compaction. walk. Qed.
#[local] Hint Resolve calm_wait tame_compact_now : tame.
Lemma tame_trigger self : tame (maybe_trigger_compaction self : proc _).
Proof. unfold maybe_trigger_compaction. walk. Qed.
Lemma brisk_install_pending self : brisk (install_pending_fold self : proc _).
Proof. unfold install_pending_fold. walk. Qed.
#[local] Hint Resolve tame_trigger brisk_install_pending : tame.
Lemma brisk_try_install es self : brisk (try_install es self : proc _).
Proof. unfold try_install, lost_install. walk. Qed.
#[local] Hint Resolve brisk_try_install : tame.

Lemma tame_append_loop n attempt single es self : tame (append_loop n attempt single es self : proc _).
Proof.
  revert attempt es self. induction n as [|n IH]; intros attempt es self; cbn [append_loop]; [done|].
  pose proof (fun a es s => IH a es s) as IH'. walk.
Qed.
#[local] Hint Resolve tame_append_loop : tame.
Lemma tame_append es single self : tame (append es single self : proc _).
Proof. unfold append. walk. Qed.

Lemma brisk_collect_loop q self : brisk (collect_loop q self : proc _).
Proof. revert self. induction q as [|k q IH]; intros self; cbn [collect_loop]; walk. Qed.
#[local] Hint Resolve tame_append brisk_collect_loop : tame.

Lemma brisk_flush_loop n attempt self : brisk (flush_loop n attempt self : proc _).
Proof. revert attempt self. induction n as [|n IH]; intros attempt self; cbn [flush_loop]; walk. Qed.
#[local] Hint Resolve brisk_flush_loop : tame.
Lemma tame_flush self : tame (flush self : proc _).
Proof. unfold flush, WalTier_checkpoint_cache, collect_garbage. walk. Qed.
#[local] Hint Resolve tame_flush : tame.

Lemma tame_run_op op self : tame (run_op op self : proc _).
Proof.
  destruct op; cbn [run_op]; unfold ignore, write, write_batch, WalTier_refresh, compaction_status,
    take_compaction_error, collect_garbage, WalTier_checkpoint_cache; walk.
Qed.
#[local] Hint Resolve tame_run_op : tame.

Lemma tame_run_ops ops self : tame (run_ops ops self : proc _).
Proof. revert self. induction ops as [|op ops IH]; intros self; cbn [run_ops]; walk. Qed.

Lemma tame_polls n self : tame (polls n self : proc _).
Proof.
  revert self. induction n as [|n IH]; intros self; cbn [polls]; unfold Replica_refresh, Replica_checkpoint_cache; walk.
Qed.
#[local] Hint Resolve tame_run_ops tame_polls : tame.

Lemma tame_client cl : tame (client_thread cl : proc _).
Proof. destruct cl; cbn [client_thread]; unfold writer_thread, replica_thread, WalTier_open, Replica_open; walk. Qed.

(** ** Without compactions *)

Definition compacts_never (cl : Client) : Prop :=
  match cl with
  | Writes _ ops => Forall (fun op => match op with OpCompactNow => False | _ => True end) ops
  | Follows _ _ => True
  end.

Section never.
Hypothesis never : forall st, should_compact st = false.

Lemma calm_trigger self : calm (maybe_trigger_compaction self : proc _).
Proof. unfold maybe_trigger_compaction. rewrite never, !andb_false_r. walk. Qed.
#[local] Hint Resolve calm_trigger : tame.

Lemma calm_append_loop n attempt single es self : calm (append_loop n attempt single es self : proc _).
Proof.
  revert attempt es self. induction n as [|n IH]; intros attempt es self; cbn [append_loop]; [done|].
  pose proof (fun a es s => IH a es s) as IH'. walk.
Qed.
#[local] Hint Resolve calm_append_loop : tame.
Lemma calm_append es single self : calm (append es single self : proc _).
Proof. unfold append. walk. Qed.
Lemma calm_flush self : calm (flush self : proc _).
Proof. unfold flush, WalTier_checkpoint_cache, collect_garbage. walk. Qed.
#[local] Hint Resolve calm_append calm_flush : tame.
Lemma calm_close self : calm (close self : proc _).
Proof. unfold close. walk. Qed.

Lemma calm_run_op op self : op <> OpCompactNow -> calm (run_op op self : proc _).
Proof.
  intros Hne. destruct op; cbn [run_op]; unfold ignore, write, write_batch, WalTier_refresh, compaction_status,
    take_compaction_error, collect_garbage, WalTier_checkpoint_cache; try done; walk.
Qed.

Lemma calm_run_ops ops self : Forall (fun op => match op with OpCompactNow => False | _ => True end) ops ->
  calm (run_ops ops self : proc _).
Proof.
  intros Hops. revert self. induction Hops as [|op ops Hop _ IH]; intros self; cbn [run_ops]; [done|].
  apply calm_bind; [by apply calm_run_op; intros ->|]. intros [s a]. apply calm_bind; [apply IH|done].
Qed.

Lemma calm_polls n self : calm (polls n self : proc _).
Proof.
  revert self. induction n as [|n IH]; intros self; cbn [polls]; unfold Replica_refresh, Replica_checkpoint_cache; walk.
Qed.
#[local] Hint Resolve calm_polls : tame.

Lemma calm_client cl : compacts_never cl -> calm (client_thread cl : proc _).
Proof.
  pose proof calm_run_ops. destruct cl; cbn [client_thread compacts_never];
    unfold writer_thread, replica_thread, WalTier_open, Replica_open; walk.
Qed.

End never.

(** ** Compaction threads *)

Lemma brisk_publish_loop n d next : brisk (next : proc _) -> brisk (publish_loop n d next : proc _).
Proof. intros Hn. induction n as [|n IH]; cbn [publish_loop]; walk. Qed.

Lemma brisk_run_compaction a : brisk (run_compaction a : proc _).
Proof.
  unfold run_compaction, publish_snapshot. pose proof brisk_publish_loop as Hp.
  assert (brisk (next_snapshot_key (ca_snap_prefix a) : proc _)) as Hn by (unfold next_snapshot_key; walk).
  walk.
Qed.

Lemma brisk_thread t a : brisk (compaction_thread t a : proc _).
Proof.
  unfold compaction_thread. pose proof (brisk_run_compaction a) as Hr.
  apply brisk_on_panic; walk.
Qed.

Lemma ends_thread t a : ends t (compaction_thread t a : proc _).
Proof.
  unfold compaction_thread. apply ends_on_panic; [apply brisk_run_compaction| |intros; apply ends_exit].
  intros o w. cbn. right. apply ends_exit.
Qed.

End code.

(** ** Pools *)

Section pools.
Context {S : Type} `{ObjectStoreLaws S} `{WalAppLaws}.
Context {X : Type} (x : X).
Variable P : string.
Abbreviation World := (World S).
Abbreviation proc := (proc World X).
Abbreviation cfg := (History * World)%type.
Abbreviation step := (pstep sane_world (record P) (spawned_as x)).
Implicit Types (w : World) (c : cfg) (ps cs qs : list proc).

Lemma first_unstarted_None t js : first_unstarted t js = None ->
  forall t' j, js !! t' = Some j -> j_started j = true.
Proof.
  revert t. induction js as [|j0 js IH]; intros t; cbn [first_unstarted]; [done|].
  destruct (j_started j0) eqn:E; [|done]. intros Hf [|t'] j Hj; cbn in Hj; [congruence|by eapply IH].
Qed.

Lemma spawned_spec w w' (p : proc) : spawned_as x w = Some (w', p) ->
  exists t j, w_jobs w !! t = Some j /\ j_started j = false
    /\ w' = with_jobs (alter set_started t (w_jobs w)) w
    /\ brisk p /\ ends t p.
Proof.
  unfold spawned_as, spawned. destruct (first_unstarted 0 (w_jobs w)) as [[t j]|] eqn:Ef; [|done].
  intros [= <- <-]. exists t, j.
  assert (j_started j = false) as Hs.
  { revert Ef. generalize 0%nat. induction (w_jobs w) as [|j0 js IH]; intros n; cbn; [done|].
    destruct (j_started j0) eqn:E; [apply IH|]. by intros [= <- <-]. }
  apply first_unstarted_spec in Ef as [_ Hj]. rewrite Nat.sub_0_r in Hj. split_and!; [done..| |].
  - apply brisk_bind; [apply brisk_thread|done].
  - apply ends_bind, ends_thread.
Qed.

(** Every unended job is waiting to start, or its thread is in the pool. *)
Definition progress_ok (s : cfg * list proc) : Prop :=
  Forall tame s.2 /\ forall t j, w_jobs s.1.2 !! t = Some j -> j_ended j = None ->
    j_started j = false \/ exists i p, s.2 !! i = Some p /\ ends t p.

Lemma progress_step s s' : step s s' -> progress_ok s -> progress_ok s'.
Proof.
  intros Hstep [Ht Hj]. destruct Hstep as [i R f k c ps w2 r Hi Hf _|c ps w2 p Hsp _]; unfold progress_ok in *;
    cbn [fst snd after] in *.
  - pose proof (Forall_lookup_1 _ _ _ _ Ht Hi c.2) as Hti. rewrite Hf in Hti. destruct Hti as [Hk Htk].
    split; [by apply Forall_insert|]. intros t j' Ht' He. destruct (Hk t j' Ht' He) as [Hs|(j & Hlk & Hej & Hst)]; [by left|].
    destruct (Hj t j Hlk Hej) as [Hs|(i' & p & Hi' & Hp)]; [left; congruence|]. right.
    destruct (decide (i = i')) as [<-|Hne].
    + rewrite Hi in Hi'. injection Hi' as <-. specialize (Hp c.2). rewrite Hf in Hp.
      destruct Hp as [Hend|Hp]; [by destruct (Hend j' Ht')|].
      exists i, (k r). rewrite list_lookup_insert_eq by by eapply lookup_lt_Some. done.
    + exists i', p. by rewrite list_lookup_insert_ne.
  - apply spawned_spec in Hsp as (t0 & j0 & Hj0 & Hs0 & -> & Hb & Hends). split.
    { apply Forall_app. split; [done|]. constructor; [by apply brisk_tame|done]. }
    intros t j' Ht' He. cbn in Ht'. destruct (decide (t0 = t)) as [->|Hne].
    + right. exists (length ps), p. split; [|done]. by rewrite lookup_app_r, Nat.sub_diag.
    + rewrite list_lookup_alter_ne in Ht' by done. destruct (Hj t j' Ht' He) as [?|(i & q & Hi & Hq)]; [by left|].
      right. exists i, q. split; [|done]. by apply lookup_app_l_Some.
Qed.

(** Some thread can act, or a created thread can start. *)
Definition can_step (s : cfg * list proc) : Prop :=
  (exists i R (f : World -> option (World * R)) k, s.2 !! i = Some (Act f k) /\ is_Some (f s.1.2))
  \/ is_Some (spawned_as (S := S) x s.1.2).

Lemma progress_can_step s i R (f : World -> option (World * R)) k :
  progress_ok s -> s.2 !! i = Some (Act f k) -> can_step s.
Proof.
  intros [Ht Hj] Hi. destruct (f s.1.2) as [[w' r]|] eqn:Ef.
  { left. exists i, R, f, k. split; [done|]. by rewrite Ef. }
  pose proof (Forall_lookup_1 _ _ _ _ Ht Hi s.1.2) as Hti. rewrite Ef in Hti.
  destruct Hti as (t & j & Htj & He). destruct (Hj t j Htj He) as [Hs|(i' & p & Hi' & Hp)].
  - right. unfold spawned_as, spawned. destruct (first_unstarted 0 (w_jobs s.1.2)) as [[t' j']|] eqn:Eu; [by eexists|].
    pose proof (first_unstarted_None _ _ Eu t j Htj). congruence.
  - left. destruct p as [a|R' f' k'|m]; [done| |done]. exists i', R', f', k'. split; [done|].
    specialize (Hp s.1.2). by destruct (f' s.1.2).
Qed.

(** ** Every schedule is finite *)

Lemma waiting_start t j js : js !! t = Some j -> j_started j = false ->
  foldr (fun j n => if j_started j then n else Datatypes.S n) O js
  = Datatypes.S (foldr (fun j n => if j_started j then n else Datatypes.S n) O (alter set_started t js)).
Proof.
  intros Hj Hs. revert t Hj. induction js as [|j0 js IH]; intros [|t] Hj; cbn [lookup list_lookup] in Hj; [done..| |];
    cbn [alter list_alter foldr].
  - injection Hj as ->. by rewrite Hs.
  - rewrite (IH t Hj). by destruct (j_started j0).
Qed.

(** Clients make progress, or a created thread starts, or a thread that
    creates no threads makes progress. *)
Lemma pools_terminate cs : forall m qs c, waiting c.2 = m -> Forall brisk qs ->
  Acc (flip step) (c, cs ++ qs).
Proof.
  induction (shrinks_wf cs) as [cs _ IHcs]. intros m. induction (lt_wf m) as [m _ IHm].
  intros qs. induction (shrinks_wf qs) as [qs _ IHqs]. intros c Hm Hqs. constructor. intros s' Hstep. unfold flip in Hstep.
  remember (c, cs ++ qs) as s0 eqn:Es. destruct Hstep as [i R f k c0 ps w2 r Hi Hf _|c0 ps w2 p Hsp _];
    injection Es as -> ->.
  - assert (child (k r) (Act f k)) as Hchild by by exists r.
    apply lookup_app_Some in Hi as [Hi|[Hle Hi]].
    + rewrite insert_app_l by by eapply lookup_lt_Some.
      by eapply IHcs; [exists i, (Act f k), (k r)|..].
    + rewrite insert_app_r_alt by done.
      pose proof (Forall_lookup_1 _ _ _ _ Hqs Hi c.2) as Hb. rewrite Hf in Hb. destruct Hb as (_ & Hw & Hb).
      apply IHqs; [by exists (i - length cs)%nat, (Act f k), (k r)|cbn; congruence|by apply Forall_insert].
  - apply spawned_spec in Hsp as (t & j & Hj & Hs & -> & Hb & _). rewrite <- app_assoc.
    eapply IHm; [|reflexivity|apply Forall_app; split; [done|by constructor]].
    rewrite <- Hm. unfold waiting. cbn [after snd w_jobs with_jobs]. rewrite (waiting_start t j (w_jobs c.2)) by done. lia.
Qed.

Lemma progress_reachable ps0 c0 c ps :
  w_jobs c0.2 = [] -> Forall tame ps0 -> rtc step (c0, ps0) (c, ps) -> progress_ok (c, ps).
Proof.
  intros Hw Ht Hrun. assert (progress_ok (c0, ps0)) as H0ok by (split; [done|by intros t j; cbn; rewrite Hw]).
  induction Hrun as [|s1 s2 s3 Hs _ IH]; [done|]. by eapply IH, progress_step.
Qed.

(** Some thread can act, unless all have ended. *)
Lemma progress_thread ps0 c0 c ps i p :
  w_jobs c0.2 = [] -> Forall tame ps0 -> rtc step (c0, ps0) (c, ps) -> ps !! i = Some p ->
  can_step (c, ps) \/ (exists a, p = Ret a) \/ (exists m, p = Panic m).
Proof.
  intros Hw Ht Hrun Hp. destruct p as [a|R f k|m]; [by right; left; eexists| |by right; right; eexists].
  left. eapply progress_can_step; [by eapply progress_reachable|exact Hp].
Qed.

Lemma schedules_finite ps0 c0 : Acc (flip step) (c0, ps0).
Proof. rewrite <- (app_nil_r ps0). by eapply pools_terminate. Qed.

End pools.

(** ** The system *)

Section progress.
Context {S : Type} `{ObjectStoreLaws S} `{WalAppLaws}.
Variable P : string.
Abbreviation step := (pstep sane_world (record P) spawned_thread).
Abbreviation can_step := (can_step (S := S) (X := list ack) []).

Lemma tame_clients clients : Forall tame (client_thread (S := S) <$> clients).
Proof. apply Forall_fmap, Forall_true. intros cl. apply tame_client. Qed.

(** C2. No deadlock and no divergence. Whatever the clients do and the store
    answers, every schedule of their actions is finite, and as long as some
    thread has not returned, some thread can act: the waits for a compaction
    thread are always answered, even when the thread's callback panics or the
    thread could not be created. *)
Theorem system_terminates clients w c ps :
  w_jobs w = [] -> rtc step (([], w), client_thread <$> clients) (c, ps) ->
  Acc (flip step) (([], w), client_thread <$> clients)
  /\ forall i p, ps !! i = Some p -> can_step (c, ps) \/ (exists acks, p = Ret acks) \/ (exists m, p = Panic m).
Proof.
  intros Hw Hrun. split; [apply (schedules_finite [])|]. intros i p.
  apply (progress_thread [] P (client_thread <$> clients) ([], w)); [done|apply tame_clients|done].
Qed.

End progress.

Lemma system_terminates_witness :
  exists w cls c ps, w_jobs w = [] /\ length cls = 3%nat
    /\ rtc (pstep sane_world (record "") spawned_thread) (([], w), client_thread <$> cls) (c, ps)
    /\ zlen (entries c.1) = 5
    /\ Acc (flip (pstep (X := list ack) sane_world (record "") spawned_thread)) (([], w), client_thread <$> cls).
Proof.
  exists world0, clients0, end0.1, end0.2. split; [done|]. split; [done|]. split; [exact end0_steps|].
  split; [vm_compute; reflexivity|].
  by destruct (system_terminates "" clients0 world0 end0.1 end0.2 eq_refl end0_steps) as [Hacc _].
Defined.
