(* ===== verification/GroupCommit.v ===== *)
(** * The group-commit example (src/examples/group_commit.rs)

    Producers hand entries to one writer thread over a bounded channel; the
    writer commits them in batches and answers each on a receipt channel of
    its own, after the durable result. The world of its threads is that of the
    log together with what they share: the channel, the stop flag and the
    receipts. *)

From S2P Require Import Prelude Fmt Error Image App Proc Store World Core Compactor Writer System.

(** ** The application *)

Module GroupCount.

Definition init : Z := 0.
Definition apply (state : Z) (_ : Lsn) (_ : bytes) : Z := wrapping_add state 1.
Definition reconcile (_ : Z) (_ : bytes) : Reconcile := Retry.

End GroupCount.

#[global] Instance GroupCountApp : WalApp := {|
  State := Z;
  init := GroupCount.init;
  apply := GroupCount.apply;
  restore := default_restore;
  compact := default_compact;
  should_compact := default_should_compact;
  reconcile := GroupCount.reconcile;
  reconcile_batch := default_reconcile_batch GroupCount.reconcile;
|}.

#[global] Program Instance GroupCountApp_laws : WalAppLaws (H := GroupCountApp) := {|
  seqv := eq;
  entry_ok _ := True;
|}.
Next Obligation. by intros ?? n e ->. Qed.
Next Obligation. done. Qed.
Next Obligation. done. Qed.
Next Obligation. intros s es es' _ _. by apply Forall_true. Qed.

(** ** What the threads share *)

(** The receiving and the sending half of a receipt channel name it. *)
Abbreviation Receipt := nat (only parsing).
Abbreviation reply := (Result Lsn WriteError).

Record Request : Type := mkRequest { rq_entry : bytes; rq_result : Receipt }.

Record SubmissionError : Type := mkSubmissionError { sub_entry : bytes; sub_reason : string }.
Definition SubmissionError_display (e : SubmissionError) : string :=
  sub_reason e +:+ " (" +:+ dec (zlen (sub_entry e)) +:+ " byte entry returned)".

(** A [Submitter]: [tx] is its sending handle on the channel. *)
Record Submitter : Type := mkSubmitter { sb_tx : nat; sb_max_entry_bytes : Z }.

(** The [sync_channel] of requests (its capacity, the queued requests, the live
    sending handles and whether the receiver lives), [stopped], and for each
    receipt channel the messages sent on it. *)
Record Shared : Type := mkShared {
  capacity : Z;
  queued : list Request;
  senders : gset nat;
  receiver : bool;
  stopped : bool;
  receipts : list (list reply);
}.

Definition with_queued (q : list Request) (s : Shared) : Shared :=
  mkShared (capacity s) q (senders s) (receiver s) (stopped s) (receipts s).
Definition with_senders (l : gset nat) (s : Shared) : Shared :=
  mkShared (capacity s) (queued s) l (receiver s) (stopped s) (receipts s).
Definition with_receiver (b : bool) (s : Shared) : Shared :=
  mkShared (capacity s) (queued s) (senders s) b (stopped s) (receipts s).
Definition with_stopped (b : bool) (s : Shared) : Shared :=
  mkShared (capacity s) (queued s) (senders s) (receiver s) b (receipts s).
Definition with_receipts (r : list (list reply)) (s : Shared) : Shared :=
  mkShared (capacity s) (queued s) (senders s) (receiver s) (stopped s) r.

(** ** Channel operations *)

(** [mpsc::channel] *)
Definition channel (s : Shared) : Shared * Receipt :=
  (with_receipts (receipts s ++ [[]]) s, length (receipts s)).

(** [SyncSender::send] blocks while the channel is full. *)
Definition tx_send (rq : Request) (s : Shared) : option (Shared * Result unit Request) :=
  if negb (receiver s) then Some (s, Err rq)
  else if zlen (queued s) <? capacity s then Some (with_queued (queued s ++ [rq]) s, Ok tt)
  else None.

Inductive TrySendError : Type := Full (rq : Request) | Disconnected (rq : Request).

Definition tx_try_send (rq : Request) (s : Shared) : Shared * Result unit TrySendError :=
  if negb (receiver s) then (s, Err (Disconnected rq))
  else if zlen (queued s) <? capacity s then (with_queued (queued s ++ [rq]) s, Ok tt)
  else (s, Err (Full rq)).

(** [Receiver::recv] blocks while the channel is empty and some sender lives. *)
Definition recv_request (s : Shared) : option (Shared * option Request) :=
  match queued s with
  | rq :: q => Some (with_queued q s, Some rq)
  | [] => if bool_decide (senders s = ∅) then Some (s, None) else None
  end.
Definition try_recv_request (s : Shared) : Shared * option Request :=
  match queued s with rq :: q => (with_queued q s, Some rq) | [] => (s, None) end.

(** [Sender::send] on a receipt channel; that the producer may have dropped
    the other half is ignored. *)
Definition send_reply (id : Receipt) (m : reply) (s : Shared) : Shared * unit :=
  (with_receipts (alter (fun l => l ++ [m]) id (receipts s)) s, tt).

(** [Receiver::recv] of a receipt, called once: the first message; an error if
    its sending half is gone, which it is once the writer's end of the channel
    of requests is. *)
Definition recv_receipt (id : Receipt) (s : Shared) : option (Shared * option reply) :=
  match receipts s !! id with
  | Some (m :: _) => Some (s, Some m)
  | _ => if receiver s then None else Some (s, None)
  end.

(** ** Threads *)

Section threads.
Context {S : Type} `{ObjectStore S}.
Abbreviation GWorld := (World S * Shared)%type.
Abbreviation proc := (proc GWorld).

(** Code of the log in the larger world. *)
Definition lift_action {R} (f : World S -> option (World S * R)) (w : GWorld) : option (GWorld * R) :=
  match f w.1 with Some (w', r) => Some ((w', w.2), r) | None => None end.
Fixpoint lift {A} (p : Proc.proc (World S) A) : proc A :=
  match p with
  | Ret a => Ret a
  | Act f k => Act (lift_action f) (fun r => lift (k r))
  | Panic m => Panic m
  end.

Definition shared {R} (f : Shared -> Shared * R) : proc R :=
  act (fun w => let (s, r) := f w.2 in ((w.1, s), r)).
Definition shared_block {R} (f : Shared -> option (Shared * R)) : proc R :=
  act_block (fun w => match f w.2 with Some (s, r) => Some ((w.1, s), r) | None => None end).

Definition load_stopped : proc bool := shared (fun s => (s, stopped s)).
Definition store_stopped (b : bool) : proc unit := shared (fun s => (with_stopped b s, tt)).
Definition drop_sender (tx : nat) : proc unit := shared (fun s => (with_senders (senders s ∖ {[tx]}) s, tt)).
Definition drop_receiver : proc unit := shared (fun s => (with_receiver false s, tt)).

(** ** Submitting *)

Definition prepare (self : Submitter) (entry : bytes) : proc (Result (Request * Receipt) SubmissionError) :=
  if sb_max_entry_bytes self <? zlen entry then Ret (Err (mkSubmissionError entry "entry too large")) else
  let! stop := load_stopped in
  if stop : bool then Ret (Err (mkSubmissionError entry "writer stopped")) else
  let! receipt := shared channel in
  Ret (Ok (mkRequest entry receipt, receipt)).

Definition submit (self : Submitter) (entry : bytes) : proc (Result Receipt SubmissionError) :=
  let! prepared := prepare self entry in
  match prepared with
  | Err e => Ret (Err e)
  | Ok (request, receipt) =>
      let! sent := shared_block (tx_send request) in
      Ret (match sent with
           | Ok _ => Ok receipt
           | Err error => Err (mkSubmissionError (rq_entry error) "writer stopped")
           end)
  end.

Definition try_submit (self : Submitter) (entry : bytes) : proc (Result Receipt SubmissionError) :=
  let! prepared := prepare self entry in
  match prepared with
  | Err e => Ret (Err e)
  | Ok (request, receipt) =>
      let! sent := shared (tx_try_send request) in
      Ret (match sent with
           | Ok _ => Ok receipt
           | Err (Full request) => Err (mkSubmissionError (rq_entry request) "queue full")
           | Err (Disconnected request) => Err (mkSubmissionError (rq_entry request) "writer stopped")
           end)
  end.

(** [queue]: a submitter with handle 0 and the shared state; [None] is its
    failed assertion. *)
Definition queue (cap max_entry_bytes : Z) : option (Submitter * Shared) :=
  if (0 <? cap) && (0 <? max_entry_bytes)
  then Some (mkSubmitter 0 max_entry_bytes, mkShared cap [] {[0%nat]} true false [])
  else None.

(** ** The writer *)

Record Report : Type := mkReport { r_acknowledged : Z; r_commits : Z; r_failed : Z }.

(** [while entries.len() < max_batch], [n] entries short of it. *)
Fixpoint gather (n : nat) (entries : list bytes) (results : list Receipt)
  : proc (list bytes * list Receipt) :=
  match n with
  | O => Ret (entries, results)
  | Datatypes.S n =>
      let! request := shared try_recv_request in
      match request with
      | None => Ret (entries, results)
      | Some rq => gather n (entries ++ [rq_entry rq]) (results ++ [rq_result rq])
      end
  end.

(** [for (lsn, receipt) in range.zip(receipts)] *)
Fixpoint acknowledge (lsns : list Lsn) (results : list Receipt) : proc unit :=
  match lsns, results with
  | lsn :: lsns, r :: results =>
      let! _ := shared (send_reply r (Ok lsn)) in acknowledge lsns results
  | _, _ => Ret tt
  end.

Fixpoint refuse (error : WriteError) (results : list Receipt) : proc unit :=
  match results with
  | r :: results => let! _ := shared (send_reply r (Err error)) in refuse error results
  | [] => Ret tt
  end.

Definition stopped_error (entries : list bytes) : WriteError :=
  mkWriteError entries (AppError "group writer stopped after an earlier append failure") NotApplied.

(** One group: the append, unless an earlier one has failed. *)
Definition commit_group (entries : list bytes) (wal : WalTier) (report : Report)
  : proc (WalTier * Report * append_result) :=
  let! stop := load_stopped in
  if stop : bool then Ret (wal, report, Err (stopped_error entries)) else
  let report := mkReport (r_acknowledged report) (wrapping_add (r_commits report) 1) (r_failed report) in
  let! (wal, result) := lift (write_batch entries wal) in
  Ret (wal, report, result).

Definition answer_group (result : append_result) (results : list Receipt) (report : Report) : proc Report :=
  match result with
  | Ok (first, past) =>
      if negb (wrap64 (past - first) =? zlen results) then Panic "assertion `left == right` failed" else
      let! _ := acknowledge (seqZ first (past - first)) results in
      Ret (mkReport (wrapping_add (r_acknowledged report) (zlen results)) (r_commits report) (r_failed report))
  | Err error =>
      let! _ := store_stopped true in
      let! _ := refuse error results in
      Ret (mkReport (r_acknowledged report) (r_commits report) (wrapping_add (r_failed report) (zlen results)))
  end.

(** The loop over [rx.recv()], at most [fuel] times. *)
Fixpoint group_loop (fuel : nat) (max_batch : Z) (wal : WalTier) (report : Report) : proc (WalTier * Report) :=
  match fuel with
  | O => Panic "out of fuel"
  | Datatypes.S fuel =>
      let! first := shared_block recv_request in
      match first with
      | None => Ret (wal, report)
      | Some rq =>
          let! (entries, results) := gather (Z.to_nat (max_batch - 1)) [rq_entry rq] [rq_result rq] in
          let! (wal, report, result) := commit_group entries wal report in
          let! report := answer_group result results report in
          group_loop fuel max_batch wal report
      end
  end.

Definition run_writer (fuel : nat) (wal : WalTier) (max_batch : Z) : proc (Result Report WalError) :=
  if negb (0 <? max_batch) then Panic "assertion failed: max_batch > 0" else
  let! (wal, report) := group_loop fuel max_batch wal (mkReport 0 0 0) in
  let! closed := lift (close wal) in
  let! _ := drop_receiver in
  Ret (match closed with Ok _ => Ok report | Err e => Err e end).

(** ** Producers *)

(** Waiting for a receipt and unwrapping it twice. *)
Definition await (id : Receipt) : proc unit :=
  let! r := shared_block (recv_receipt id) in
  match r with
  | Some (Ok _) => Ret tt
  | _ => Panic "called `Result::unwrap()` on an `Err` value"
  end.
Fixpoint await_all (ids : list Receipt) : proc unit :=
  match ids with [] => Ret tt | id :: ids => let! _ := await id in await_all ids end.

(** The loop of a producer of [main] over its entries, with a window of
    unanswered receipts. *)
Fixpoint produce (self : Submitter) (window : Z) (entries : list bytes) (pending : list Receipt) : proc unit :=
  match entries with
  | [] => await_all pending
  | entry :: entries =>
      let! tried := try_submit self entry in
      let! receipt :=
        match tried with
        | Ok receipt => Ret receipt
        | Err error =>
            if bool_decide (sub_reason error = "queue full") then
              let! waited := submit self (sub_entry error) in
              match waited with
              | Ok receipt => Ret receipt
              | Err _ => Panic "called `Result::unwrap()` on an `Err` value"
              end
            else Panic (SubmissionError_display error)
        end in
      let pending := pending ++ [receipt] in
      if zlen pending =? window then
        match pending with
        | oldest :: rest => let! _ := await oldest in produce self window entries rest
        | [] => Panic "called `Option::unwrap()` on a `None` value"
        end
      else produce self window entries pending
  end.

(** What a thread ends with: the writer's report, a producer's normal end or
    panic, or the acknowledgements of another client of the log. *)
Inductive gresult : Type :=
  | Wrote (r : Result Report WalError) | Produced | Crashed (message : string) | Other (acks : list ack).

(** A producer drops its submitter when it returns and when it unwinds. *)
Definition producer_thread (self : Submitter) (window : Z) (entries : list bytes) : proc gresult :=
  on_panic
    (let! _ := produce self window entries [] in
     let! _ := drop_sender (sb_tx self) in
     Ret Produced)
    (fun m => let! _ := drop_sender (sb_tx self) in Ret (Crashed m)).

Definition group_writer (fuel : nat) (wal : WalTier) (max_batch : Z) : proc gresult :=
  let! r := run_writer fuel wal max_batch in Ret (Wrote r).

(** ** The program

    The threads that [main] starts, here for any number of producers with any
    entries: the writer over an open handle, the producers, and other clients
    of the same log. [main] itself, which keeps a submitter until all threads
    are started and then drops it, is a producer without entries. *)

(** [submitter.clone()], once for each producer. *)
Definition submitters (n : nat) (s : Submitter) : list Submitter :=
  (fun j => mkSubmitter j (sb_max_entry_bytes s)) <$> seq 1 n.
Definition cloned (n : nat) (s : Shared) : Shared := with_senders (list_to_set (seq 1 n)) s.

Definition other_client (cl : Client) : proc gresult := let! acks := lift (client_thread cl) in Ret (Other acks).

Definition group_pool (fuel : nat) (wal : WalTier) (max_batch : Z) (submitter : Submitter) (window : Z)
    (programs : list (list bytes)) (clients : list Client) : list (proc gresult) :=
  group_writer fuel wal max_batch
  :: zip_with (fun s entries => producer_thread s window entries) (submitters (length programs) submitter) programs
  ++ (other_client <$> clients).

End threads.
