(* ===== verification/GroupInv.v ===== *)
(** * What the threads of group commit share, and how it may change

    The observer of the threads records, besides the history of the log, the
    requests accepted into the channel and the thread that created each
    receipt. [sinv] is the invariant of the shared state, [srel j] what the
    other threads may do to it from the point of view of thread [j]; thread 0
    is the writer, the threads 1 to [n] are the producers. *)

From S2P Require Import Prelude Error Image App Proc Store World Core Compactor Writer GroupCommit.

Record Ledger : Type := mkLedger { accepted : list Request; owners : list nat }.

(** One observed change of the shared state by thread [i]. *)
Definition ledger_step (i : nat) (l : Ledger) (s s' : Shared) : Ledger :=
  mkLedger (accepted l ++ drop (length (queued s)) (queued s'))
    (owners l ++ repeat i (length (receipts s') - length (receipts s))).

Lemma ledger_same i l s s' : (length (queued s') <= length (queued s))%nat -> length (receipts s') = length (receipts s) ->
  ledger_step i l s s' = l.
Proof.
  intros Hq Hr. unfold ledger_step. rewrite Hr, Nat.sub_diag, drop_ge by done. cbn. rewrite !app_nil_r. by destruct l.
Qed.

(** What a reply promises about the request it answers. *)
Definition truthful (hist : list bytes) (rq : Request) (m : reply) : Prop :=
  match m with
  | Ok lsn => 0 <= lsn /\ hist !! Z.to_nat lsn = Some (rq_entry rq)
  | Err e => rq_entry rq ∈ we_entries e
  end.

Lemma truthful_mono hist hist' rq m : hist `prefix_of` hist' -> truthful hist rq m -> truthful hist' rq m.
Proof. intros Hp. destruct m as [lsn|e]; [|done]. intros [H0 Hl]. split; [done|]. by eapply prefix_lookup_Some. Qed.

(** The accepted requests of thread [j], and their number. *)
Definition requests_in (own : list nat) (acc : list Request) (j : nat) : list Request :=
  filter (fun rq => own !! rq_result rq = Some j) acc.
Definition requests_of (l : Ledger) (j : nat) : list Request := requests_in (owners l) (accepted l) j.
Definition count_in (own : list nat) (acc : list Request) (j : nat) : nat := length (requests_in own acc j).
Definition count (l : Ledger) (j : nat) : nat := length (requests_of l j).

Lemma requests_in_app own a b j : requests_in own (a ++ b) j = requests_in own a j ++ requests_in own b j.
Proof. apply filter_app. Qed.

Lemma requests_in_owners own own' a j : Forall (fun rq => rq_result rq < length own)%nat a ->
  requests_in (own ++ own') a j = requests_in own a j.
Proof.
  unfold requests_in. induction 1 as [|rq a Hr _ IH]; [done|]. rewrite !filter_cons, lookup_app_l by done.
  case_decide; by rewrite IH.
Qed.

Lemma requests_in_none own a j : Forall (fun rq => own !! rq_result rq <> Some j) a -> requests_in own a j = [].
Proof. unfold requests_in. induction 1 as [|rq a Hr _ IH]; [done|]. by rewrite filter_cons_False. Qed.

(** Every request is somebody's. *)
Lemma length_count own a js : Forall (fun rq => exists j, j ∈ js /\ own !! rq_result rq = Some j) a ->
  (length a <= sum_list (count_in own a <$> js))%nat.
Proof.
  induction 1 as [|rq a (j & Hj & Ho) _ IH]; [cbn; lia|]. cbn [length].
  assert (forall l, (sum_list (count_in own a <$> l) <= sum_list (count_in own (rq :: a) <$> l))%nat
    /\ (j ∈ l -> sum_list (count_in own a <$> l) < sum_list (count_in own (rq :: a) <$> l))%nat) as Hl.
  { intros l. induction l as [|i l [IH1 IH2]]; [split; [done|by intros ?%elem_of_nil]|]. cbn [fmap list_fmap sum_list sum_list_with]. unfold id in *.
    assert (count_in own a i <= count_in own (rq :: a) i)%nat.
    { unfold count_in, requests_in. rewrite filter_cons. case_decide; cbn [length]; lia. }
    split; [lia|]. intros [->|Hi]%elem_of_cons; [|specialize (IH2 Hi); lia].
    assert (count_in own a i < count_in own (rq :: a) i)%nat; [|lia].
    unfold count_in, requests_in. rewrite filter_cons_True by done. cbn [length]. lia. }
  destruct (Hl js) as [_ Hlt]. specialize (Hlt Hj). lia.
Qed.

Lemma alter_Some {A} (f : A -> A) i (l : list A) x : l !! i = Some x -> alter f i l = <[i := f x]> l.
Proof.
  revert i. induction l as [|y l IH]; intros [|i] Hx; cbn in *; [done..| |].
  - by injection Hx as ->.
  - f_equal. by apply IH.
Qed.

(** What the threads other than [j] may do. *)
Record srel (j : nat) (l : Ledger) (s : Shared) (l' : Ledger) (s' : Shared) : Prop := {
  sr_acc : exists new, accepted l' = accepted l ++ new
    /\ Forall (fun rq => owners l' !! rq_result rq <> Some j) new
    /\ (new <> [] -> senders s <> ∅ /\ receiver s = true)
    /\ (j = 0%nat -> queued s' = queued s ++ new);
  sr_own : exists newo, owners l' = owners l ++ newo /\ (j ∉ newo);
  sr_senders : senders s' ⊆ senders s /\ (j ∈ senders s -> j ∈ senders s');
  sr_receipts : forall r x, receipts s !! r = Some x ->
    exists y, receipts s' !! r = Some (x ++ y) /\ (j = 0%nat -> y = []);
  sr_cap : capacity s' = capacity s;
  sr_flags : j = 0%nat -> stopped s' = stopped s /\ receiver s' = receiver s;
  sr_receiver : receiver s = false -> receiver s' = false;
  sr_stopped : stopped s = true -> stopped s' = true;
}.

Lemma srel_refl j l s : srel j l s l s.
Proof.
  split; try done.
  - exists []. by rewrite !app_nil_r.
  - exists []. split; [by rewrite app_nil_r|apply not_elem_of_nil].
  - intros r x Hr. exists []. by rewrite app_nil_r.
Qed.

Lemma srel_trans j l1 s1 l2 s2 l3 s3 : srel j l1 s1 l2 s2 -> srel j l2 s2 l3 s3 -> srel j l1 s1 l3 s3.
Proof.
  intros [(a1 & Ha1 & Hf1 & Hs1 & Hq1) (o1 & Ho1 & Hj1) [Hsub1 Hin1] Hr1 Hc1 Hfl1 Hrc1 Hst1].
  intros [(a2 & Ha2 & Hf2 & Hs2 & Hq2) (o2 & Ho2 & Hj2) [Hsub2 Hin2] Hr2 Hc2 Hfl2 Hrc2 Hst2]. split.
  - exists (a1 ++ a2). split_and!; [by rewrite Ha2, Ha1, app_assoc| | |].
    + apply Forall_app. split; [|done]. eapply Forall_impl; [exact Hf1|]. intros rq Hrq Hl. apply Hrq.
      rewrite Ho2 in Hl. apply lookup_app_Some in Hl as [?|[_ Hl]]; [done|].
      destruct Hj2. by eapply list_elem_of_lookup_2.
    + intros Hne. destruct a1 as [|x a1]; [|by apply Hs1]. destruct (Hs2 ltac:(done)) as [Hs Hrv]. split.
      * intros He. apply Hs. rewrite He in Hsub1. set_solver.
      * destruct (receiver s1) eqn:E; [done|]. by rewrite Hrc1 in Hrv.
    + intros Hj. by rewrite Hq2, Hq1, app_assoc.
  - exists (o1 ++ o2). split; [by rewrite Ho2, Ho1, app_assoc|]. rewrite elem_of_app. tauto.
  - split; [by etransitivity|auto].
  - intros r x Hx. destruct (Hr1 r x Hx) as (y & Hy & Hy0). destruct (Hr2 r _ Hy) as (z & Hz & Hz0).
    exists (y ++ z). rewrite app_assoc. split; [done|]. intros Hj. by rewrite Hy0, Hz0.
  - congruence.
  - intros Hj. destruct (Hfl1 Hj), (Hfl2 Hj). split; congruence.
  - auto.
  - auto.
Qed.

Section shared.
Variable n : nat.
Variable max : Z.
Variable quota : nat -> nat.

Record sinv (hist : list bytes) (l : Ledger) (s : Shared) : Prop := {
  si_pos : 0 < capacity s;
  si_cap : zlen (queued s) <= capacity s;
  si_queue : queued s `suffix_of` accepted l;
  si_sizes : Forall (fun rq => zlen (rq_entry rq) <= max) (accepted l);
  si_ids : NoDup (rq_result <$> accepted l);
  si_owned : Forall (fun rq => exists j, owners l !! rq_result rq = Some j /\ (1 <= j <= n)%nat) (accepted l);
  si_len : length (owners l) = length (receipts s);
  si_quota : forall j, (count l j <= quota j)%nat;
  si_senders : forall j, j ∈ senders s -> (1 <= j <= n)%nat;
  si_once : forall r x, receipts s !! r = Some x -> x = [] \/
    exists rq m, rq ∈ accepted l /\ rq_result rq = r /\ x = [m] /\ truthful hist rq m;
  si_queued : forall rq, rq ∈ queued s -> receipts s !! rq_result rq = Some [];
  si_closed : receiver s = false -> forall rq, rq ∈ accepted l -> exists m, receipts s !! rq_result rq = Some [m];
  si_gone : receiver s = false -> senders s = ∅;
  si_stopped : forall r e, receipts s !! r = Some [Err e] -> stopped s = true;
}.

Lemma sinv_mono hist hist' l s : hist `prefix_of` hist' -> sinv hist l s -> sinv hist' l s.
Proof.
  intros Hp []. split; try done. intros r x Hx. destruct (si_once0 r x Hx) as [->|(rq & m & Hin & Hr & -> & Ht)]; [by left|].
  right. exists rq, m. split_and!; [done..|]. by eapply truthful_mono.
Qed.

Lemma id_lt hist l s rq : sinv hist l s -> rq ∈ accepted l -> (rq_result rq < length (owners l))%nat.
Proof.
  intros Hs Hin. pose proof (si_owned _ _ _ Hs) as Ho. rewrite Forall_forall in Ho.
  destruct (Ho rq Hin) as (j & Hj & _). by apply lookup_lt_Some in Hj.
Qed.

(** The part of the state that names a request determines it. *)
Lemma request_inj hist l s rq rq' : sinv hist l s -> rq ∈ accepted l -> rq' ∈ accepted l ->
  rq_result rq = rq_result rq' -> rq = rq'.
Proof.
  intros Hs H1 H2 He. apply list_elem_of_lookup in H1 as [i1 H1]. apply list_elem_of_lookup in H2 as [i2 H2].
  assert (i1 = i2) as ->; [|congruence]. eapply (NoDup_lookup _ i1 i2 _ (si_ids _ _ _ Hs));
    rewrite list_lookup_fmap; [by rewrite H1|by rewrite H2, He].
Qed.

(** New requests of others do not count for a thread. *)
Lemma ids_lt hist l s : sinv hist l s -> Forall (fun rq => rq_result rq < length (owners l))%nat (accepted l).
Proof. intros Hs. apply Forall_forall. intros rq Hrq. by eapply id_lt. Qed.

Lemma requests_srel hist j l s l' s' : sinv hist l s -> srel j l s l' s' -> requests_of l' j = requests_of l j.
Proof.
  intros Hs [(new & Ha & Hf & _) (newo & Ho & _) _ _ _ _ _ _]. unfold requests_of.
  rewrite Ha, requests_in_app, (requests_in_none _ new), app_nil_r by done.
  rewrite Ho. by eapply requests_in_owners, ids_lt.
Qed.

(** No more requests than the producers have entries. *)
Lemma length_accepted hist l s : sinv hist l s -> (length (accepted l) <= sum_list (quota <$> seq 1 n))%nat.
Proof.
  intros Hs. etransitivity.
  - apply (length_count (owners l) (accepted l) (seq 1 n)). eapply Forall_impl; [apply (si_owned _ _ _ Hs)|].
    intros rq (j & Hj & Hn). exists j. split; [apply elem_of_seq; lia|done].
  - assert (forall j, (count_in (owners l) (accepted l) j <= quota j)%nat) as Hq by exact (si_quota _ _ _ Hs).
    generalize (seq 1 n). intros js.
    induction js as [|j js IH]; [done|]. cbn [fmap list_fmap sum_list sum_list_with]. unfold id in *. specialize (Hq j). lia.
Qed.

(** ** The actions *)

Section actions.
Variable hist : list bytes.
Variable i : nat.
Variable l : Ledger.
Variable s : Shared.
Hypothesis Hs : sinv hist l s.

(** What an action must do. *)
Definition sgood (s' : Shared) : Prop :=
  let l' := ledger_step i l s s' in
  sinv hist l' s' /\ forall j, j <> i -> srel j l s l' s'.

Lemma good_skip : sgood s.
Proof. unfold sgood. rewrite ledger_same by done. split; [done|]. intros j _. apply srel_refl. Qed.

(** A new receipt is empty, not yet anybody's request, and its thread's own. *)
Lemma good_channel :
  let s' := with_receipts (receipts s ++ [[]]) s in
  sgood s' /\ ledger_step i l s s' = mkLedger (accepted l) (owners l ++ [i]).
Proof.
  intros s'.
  assert (ledger_step i l s s' = mkLedger (accepted l) (owners l ++ [i])) as Hl.
  { unfold ledger_step, s'. cbn [queued receipts with_receipts]. rewrite drop_ge, app_nil_r, length_app by done.
    by rewrite Nat.add_comm, Nat.add_sub. }
  split; [|done]. unfold sgood. rewrite Hl. subst s'. pose proof (ids_lt _ _ _ Hs) as Hlt. destruct Hs. split.
  - split; cbn [accepted owners queued capacity receiver senders receipts with_receipts]; try done.
    + eapply Forall_impl; [apply Forall_and; split; [exact si_owned0|exact Hlt]|].
      intros rq [(j & Hj & Hn) Hr]. exists j. by rewrite lookup_app_l.
    + rewrite !length_app, si_len0. done.
    + intros j. unfold count, requests_of. cbn [owners accepted]. rewrite requests_in_owners by done. apply si_quota0.
    + intros r x Hx. apply lookup_app_Some in Hx as [Hx|[_ Hx]]; [by apply si_once0|].
      left. by apply list_lookup_singleton_Some in Hx as [_ <-].
    + intros rq Hrq. apply lookup_app_l_Some. auto.
    + intros Hc rq Hrq. destruct (si_closed0 Hc rq Hrq) as [m Hm]. exists m. by apply lookup_app_l_Some.
    + intros r e Hx. apply lookup_app_Some in Hx as [Hx|[_ Hx]]; [by eapply si_stopped0|].
      by apply list_lookup_singleton_Some in Hx as [_ ?].
  - intros j Hj. split; cbn; try done.
    + exists []. by rewrite !app_nil_r.
    + exists [i]. split; [done|]. by intros ->%list_elem_of_singleton.
    + intros r x Hx. exists []. rewrite app_nil_r. split; [by apply lookup_app_l_Some|done].
Qed.

(** A producer's request goes to the end of the channel. *)
Lemma good_push rq : i <> 0%nat -> receiver s = true -> zlen (queued s) < capacity s -> i ∈ senders s ->
  owners l !! rq_result rq = Some i -> (rq_result rq ∉ rq_result <$> accepted l) ->
  zlen (rq_entry rq) <= max -> (count l i < quota i)%nat ->
  let s' := with_queued (queued s ++ [rq]) s in
  sgood s' /\ ledger_step i l s s' = mkLedger (accepted l ++ [rq]) (owners l).
Proof.
  intros Hi0 Hrv Hcap Hi Ho Hnew Hsz Hq s'.
  assert (ledger_step i l s s' = mkLedger (accepted l ++ [rq]) (owners l)) as Hl.
  { unfold ledger_step, s'. cbn [queued receipts with_queued].
    rewrite drop_app_length, Nat.sub_diag. cbn. by rewrite app_nil_r. }
  split; [|done]. unfold sgood. rewrite Hl. subst s'.
  assert (receipts s !! rq_result rq = Some []) as Hempty.
  { destruct (lookup_lt_is_Some_2 (receipts s) (rq_result rq)) as [x Hx].
    { rewrite <- (si_len _ _ _ Hs). by eapply lookup_lt_Some. }
    destruct (si_once _ _ _ Hs _ _ Hx) as [->|(rq' & m & Hin & Hr & _)]; [done|].
    destruct Hnew. apply list_elem_of_fmap. by exists rq'. }
  destruct Hs. split.
  - split; cbn [accepted owners queued capacity receiver senders receipts with_queued]; try done.
    + rewrite zlen_app, zlen_cons, (@zlen_nil Request). lia.
    + destruct si_queue0 as [x ->]. exists x. by rewrite app_assoc.
    + apply Forall_app. split; [done|by constructor].
    + rewrite fmap_app. apply NoDup_app. split_and!; [done| |apply NoDup_singleton].
      intros x Hx ->%list_elem_of_singleton. done.
    + apply Forall_app. split; [done|]. constructor; [|done]. exists i. auto.
    + intros j. unfold count, requests_of in *. cbn [owners accepted]. rewrite requests_in_app, length_app.
      destruct (decide (j = i)) as [->|Hne].
      * assert (length (requests_in (owners l) [rq] i) <= 1)%nat; [|lia].
        unfold requests_in. rewrite filter_cons. case_decide; cbn; lia.
      * rewrite (requests_in_none _ [rq]); [cbn; rewrite Nat.add_0_r; apply si_quota0|]. constructor; [congruence|done].
    + intros r x Hx. destruct (si_once0 r x Hx) as [?|(rq' & m & Hin & ?)]; [by left|right].
      exists rq', m. split; [apply elem_of_app; by left|done].
    + intros rq' [Hin| ->%list_elem_of_singleton]%elem_of_app; [auto|done].
    + congruence.
  - intros j Hj. split; cbn; try done.
    + exists [rq]. split_and!; [done|by constructor; [rewrite Ho; congruence|]| |done].
      intros _. split; [|done]. intros He. rewrite He in Hi. set_solver.
    + exists []. split; [by rewrite app_nil_r|apply not_elem_of_nil].
    + intros r x Hx. exists []. by rewrite app_nil_r.
Qed.

(** The writer takes the oldest request. *)
Lemma good_pop rq q : i = 0%nat -> queued s = rq :: q ->
  let s' := with_queued q s in sgood s' /\ ledger_step i l s s' = l.
Proof.
  intros Hi0 Hq s'. assert (ledger_step i l s s' = l) as Hl.
  { apply ledger_same; [unfold s'; cbn; rewrite Hq; cbn; lia|done]. }
  split; [|done]. unfold sgood. rewrite Hl. subst s'. destruct Hs. rewrite Hq in *. split.
  - split; cbn [accepted owners queued capacity receiver senders receipts with_queued]; try done.
    + rewrite zlen_cons in si_cap0. lia.
    + by eapply suffix_cons_l.
    + intros rq' Hin. apply si_queued0. by right.
  - intros j Hj. split; cbn; try done; try (intros; congruence).
    + exists []. rewrite app_nil_r. split_and!; [done|done|done|intros; congruence].
    + exists []. split; [by rewrite app_nil_r|apply not_elem_of_nil].
    + intros r x Hx. exists []. by rewrite app_nil_r.
Qed.

(** The writer answers a request it holds, once. *)
Lemma good_reply rq m : i = 0%nat -> rq ∈ accepted l -> (rq ∉ queued s) ->
  receipts s !! rq_result rq = Some [] -> truthful hist rq m -> (forall e, m = Err e -> stopped s = true) ->
  let s' := (send_reply (rq_result rq) m s).1 in
  sgood s' /\ ledger_step i l s s' = l /\ receipts s' = <[rq_result rq := [m]]> (receipts s).
Proof.
  intros Hi0 Hin Hnq Hr Ht Hm s'. assert (ledger_step i l s s' = l) as Hl.
  { apply ledger_same; [done|]. unfold s'. cbn. apply length_alter. }
  assert (receipts s' = <[rq_result rq := [m]]> (receipts s)) as Hrs.
  { unfold s'. cbn. by rewrite (alter_Some _ _ _ _ Hr). }
  split; [|done]. unfold sgood. rewrite Hl.
  assert (s' = with_receipts (<[rq_result rq := [m]]> (receipts s)) s) as -> by (unfold s' in *; cbn in *; by rewrite Hrs).
  assert (rq_result rq < length (receipts s))%nat as Hlt by by eapply lookup_lt_Some.
  pose proof Hs as [H1 H2 H3 H4 Hid H5 H6 H7 H8 H9 H10 H11 H12 H13]. split.
  - split; cbn [accepted owners queued capacity receiver senders receipts with_receipts]; try done.
    + by rewrite length_insert.
    + intros r x Hx. destruct (decide (r = rq_result rq)) as [->|Hne].
      * rewrite list_lookup_insert_eq in Hx by done. injection Hx as <-. right. by exists rq, m.
      * rewrite list_lookup_insert_ne in Hx by done. auto.
    + intros rq' Hq. rewrite list_lookup_insert_ne; [auto|]. intros He. apply Hnq.
      rewrite (request_inj hist l s rq rq'); [done|exact Hs|done| |done].
      destruct H3 as [y ->]. apply elem_of_app. by right.
    + intros Hc rq' Hin'. destruct (decide (rq_result rq' = rq_result rq)) as [->|Hne].
      * exists m. by rewrite list_lookup_insert_eq.
      * rewrite list_lookup_insert_ne by done. auto.
    + intros r e Hx. destruct (decide (r = rq_result rq)) as [->|Hne].
      * rewrite list_lookup_insert_eq in Hx by done. injection Hx as Hx. by eapply Hm.
      * rewrite list_lookup_insert_ne in Hx by done. by eapply H13.
  - intros j Hj. split; cbn; try done; try (intros; congruence).
    + exists []. by rewrite !app_nil_r.
    + exists []. split; [by rewrite app_nil_r|apply not_elem_of_nil].
    + intros r x Hx. destruct (decide (r = rq_result rq)) as [->|Hne].
      * rewrite Hr in Hx. injection Hx as <-. exists [m]. rewrite list_lookup_insert_eq by done. split; [done|intros; congruence].
      * exists []. rewrite list_lookup_insert_ne, app_nil_r by done. done.
Qed.

Lemma good_stop : i = 0%nat -> let s' := with_stopped true s in sgood s' /\ ledger_step i l s s' = l.
Proof.
  intros Hi0 s'. assert (ledger_step i l s s' = l) as Hl by by apply ledger_same.
  split; [|done]. unfold sgood. rewrite Hl. subst s'. destruct Hs. split; [by split|].
  intros j Hj. split; cbn; try done; try (intros; congruence).
  - exists []. by rewrite !app_nil_r.
  - exists []. split; [by rewrite app_nil_r|apply not_elem_of_nil].
  - intros r x Hx. exists []. by rewrite app_nil_r.
Qed.

Lemma good_drop_sender : i <> 0%nat -> let s' := with_senders (senders s ∖ {[i]}) s in sgood s' /\ ledger_step i l s s' = l.
Proof.
  intros Hi s'. assert (ledger_step i l s s' = l) as Hl by by apply ledger_same.
  split; [|done]. unfold sgood. rewrite Hl. subst s'. destruct Hs. split.
  - split; cbn; try done.
    + intros j Hj. apply si_senders0. set_solver.
    + intros Hc. rewrite (si_gone0 Hc). set_solver.
  - intros j Hj. split; cbn; try done; try (intros; congruence).
    + exists []. by rewrite !app_nil_r.
    + exists []. split; [by rewrite app_nil_r|apply not_elem_of_nil].
    + set_solver.
    + intros r x Hx. exists []. by rewrite app_nil_r.
Qed.

(** The writer leaves when every submitter is gone and every accepted request
    is answered. *)
Lemma good_drop_receiver : i = 0%nat -> senders s = ∅ -> (forall rq, rq ∈ accepted l -> exists m, receipts s !! rq_result rq = Some [m]) ->
  let s' := with_receiver false s in sgood s' /\ ledger_step i l s s' = l.
Proof.
  intros Hi0 Hse Ha s'. assert (ledger_step i l s s' = l) as Hl by by apply ledger_same.
  split; [|done]. unfold sgood. rewrite Hl. subst s'. destruct Hs. split; [by split|].
  intros j Hj. split; cbn; try done; try (intros; congruence).
  - exists []. by rewrite !app_nil_r.
  - exists []. split; [by rewrite app_nil_r|apply not_elem_of_nil].
  - intros r x Hx. exists []. by rewrite app_nil_r.
Qed.

End actions.
End shared.
