(* ===== verification/GroupProps.v ===== *)
(** * Group commit: the threads keep the invariant

    The contracts of the threads of group commit over the log's own contracts:
    code of the log is lifted unchanged ([wp_lift]), every action on the shared
    state keeps [sinv]; [gwaits] is where a thread may be blocked. *)

From S2P Require Import Prelude Fmt Utf8 Error Image ImageCodec App Proc Store StoreProps World Core Compactor Writer Protocol Invariant Steps StepsCache StepsStore CoreProps CompactorProps WriterInv InstallProps WriterProps WriterTheorems System Progress GroupCommit GroupInv.

(** The message of a failed [unwrap] of a [Result]. *)
Definition UNWRAP : string := "called `Result::unwrap()` on an `Err` value".

(** Why a producer of the entries [es] panics with the message [m]: an entry
    above the limit was refused, or the writer had stopped, which refuses
    entries and answers requests with errors. *)
Definition crash_cause (max : Z) (es : list bytes) (m : string) (s : Shared) : Prop :=
  (exists e, e ∈ es /\ max < zlen e /\ m = SubmissionError_display (mkSubmissionError e "entry too large"))
  \/ stopped s = true /\ (m = UNWRAP \/ exists e, e ∈ es /\ m = SubmissionError_display (mkSubmissionError e "writer stopped")).

Lemma crash_cause_mono max es m s s' : (stopped s = true -> stopped s' = true) -> crash_cause max es m s -> crash_cause max es m s'.
Proof. intros Hs [Hc|[Hst Hm]]; [by left|right; auto]. Qed.

Section group.
Context {S : Type} `{ObjectStoreLaws S}.
Variable P : string.
Variable ns : option string.
Context `{!LogNames P ns}.
Variable n : nat.
Variable max : Z.
Variable quota : nat -> nat.

Abbreviation GWorld := (World S * Shared)%type.
Abbreviation gcfg := ((History * Ledger) * GWorld)%type.
Abbreviation sinv := (sinv n max quota).
Implicit Types (c : gcfg) (s : Shared).

Definition gsane (w : GWorld) : Prop := sane_world w.1.
Definition grecord (i : nat) (g : History * Ledger) (w w' : GWorld) : History * Ledger :=
  (record P i g.1 w.1 w'.1, ledger_step i g.2 w.2 w'.2).

(** The log's part of a configuration, the ledger and the shared state. *)
Definition wcfg c : History * World S := (c.1.1, c.2.1).
Definition hist c : list bytes := entries c.1.1.
Definition led c : Ledger := c.1.2.
Definition sh c : Shared := c.2.2.

(** No compaction thread is running or about to start. *)
Definition no_jobs (w : World S) : Prop := waiting w = O /\ ~ unfinished w.

Record ginv c : Prop := {
  gi_log : inv P ns (wcfg c);
  gi_jobs : no_jobs c.2.1;
  gi_shared : sinv (hist c) (led c) (sh c);
}.

Definition grely (j : nat) c c' : Prop :=
  ginv c' /\ rely P ns j (wcfg c) (wcfg c') /\ srel j (led c) (sh c) (led c') (sh c').
Definition gguar (i : nat) c c' : Prop :=
  ginv c' /\ guar P ns i (wcfg c) (wcfg c')
  /\ forall j, j <> i -> srel j (led c) (sh c) (led c') (sh c').

Definition answered s (rq : Request) : Prop := exists m, receipts s !! rq_result rq = Some [m].

(** The writer waits for requests with nothing left to answer, a producer for
    room in the channel or for a receipt that the writer still owes. *)
Definition gwaits (i : nat) c : Prop :=
  match i with
  | O => queued (sh c) = [] /\ senders (sh c) <> ∅ /\ forall rq, rq ∈ accepted (led c) -> answered (sh c) rq
  | _ => receiver (sh c) = true /\ (queued (sh c) <> []
           \/ exists rq, rq ∈ accepted (led c) /\ receipts (sh c) !! rq_result rq = Some [])
  end.

Abbreviation gwp := (wp gsane grecord grely gguar gwaits).

Lemma grely_refl j c : ginv c -> grely j c c.
Proof. intros Hi. split; [done|]. split; [apply rely_refl, Hi|apply srel_refl]. Qed.

Lemma grely_trans j c1 c2 c3 : grely j c1 c2 -> grely j c2 c3 -> grely j c1 c3.
Proof.
  intros (_ & Hr1 & Hs1) (Hi & Hr2 & Hs2). split; [done|].
  split; [by eapply rely_trans|by eapply srel_trans].
Qed.

Lemma gguar_inv i c c' : gguar i c c' -> ginv c'.
Proof. by intros [? _]. Qed.

Lemma gguar_rely i j c c' : i <> j -> gguar j c c' -> grely i c c'.
Proof. intros Hne (Hi & Hg & Hs). split; [done|]. split; [by eapply guar_rely|by apply Hs]. Qed.

Lemma grely_inv j c c' : grely j c c' -> ginv c'.
Proof. by intros [? _]. Qed.

Lemma grely_hist j c c' : grely j c c' -> hist c `prefix_of` hist c'.
Proof. intros (_ & Hr & _). apply (entries_mono P (wcfg c) (wcfg c')). by eapply rely_grows. Qed.

(** What no thread ever undoes: requests stay accepted, replies stay. *)
Record later c c' : Prop := {
  lt_inv : ginv c';
  lt_acc : accepted (led c) `prefix_of` accepted (led c');
  lt_hist : hist c `prefix_of` hist c';
  lt_receipts : forall r m, receipts (sh c) !! r = Some [m] -> receipts (sh c') !! r = Some [m];
  lt_stopped : stopped (sh c) = true -> stopped (sh c') = true;
}.

Lemma srel_later k c c' : ginv c' -> hist c `prefix_of` hist c' -> srel k (led c) (sh c) (led c') (sh c') -> later c c'.
Proof.
  intros Hi Hh Hs. split; [done| |done| |exact (sr_stopped _ _ _ _ _ Hs)].
  - destruct (sr_acc _ _ _ _ _ Hs) as (new & -> & _). by eexists.
  - intros r m Hm. destruct (sr_receipts _ _ _ _ _ Hs _ _ Hm) as (y & Hy & _). rewrite Hy.
    destruct (si_once _ _ _ _ _ _ (gi_shared _ Hi) _ _ Hy) as [|(rq & m' & _ & _ & [= <- ->] & _)]; done.
Qed.

Lemma grely_later j c c' : grely j c c' -> later c c'.
Proof. intros Hr. pose proof Hr as (Hi & _ & Hs). by apply (srel_later j); [|eapply grely_hist|]. Qed.

Lemma gguar_later i c c' : gguar i c c' -> later c c'.
Proof.
  intros (Hi & (_ & Hg & _) & Hs). apply (srel_later (Datatypes.S i)); [done| |by apply Hs; lia].
  by apply (entries_mono P (wcfg c) (wcfg c')).
Qed.

Lemma later_refl c : ginv c -> later c c.
Proof. by split. Qed.

Lemma later_trans c1 c2 c3 : later c1 c2 -> later c2 c3 -> later c1 c3.
Proof. intros [I1 A1 H1 R1 T1] [I2 A2 H2 R2 T2]. split; [done|by etransitivity|by etransitivity|auto..]. Qed.

(** The request is acknowledged. *)
Definition acked c (rq : Request) : Prop := exists lsn, receipts (sh c) !! rq_result rq = Some [Ok lsn].

Lemma accepted_later c c' rq : later c c' -> rq ∈ accepted (led c) -> rq ∈ accepted (led c').
Proof. intros Hl Hin. destruct (lt_acc _ _ Hl) as [x ->]. apply elem_of_app. by left. Qed.

Lemma acked_later c c' rq : later c c' -> acked c rq -> acked c' rq.
Proof. intros Hl [lsn Ha]. exists lsn. by apply (lt_receipts _ _ Hl). Qed.

(** ** Actions on the shared state *)

Definition upd (i : nat) c s' : gcfg := ((c.1.1, ledger_step i (led c) (sh c) s'), (c.2.1, s')).

Lemma upd_guar i c s' : ginv c -> sgood n max quota (hist c) i (led c) (sh c) s' -> gguar i c (upd i c s').
Proof.
  intros [Hl Hj Hs] [Hs' Hr]. split; [by split|]. split; [|done].
  split; [done|]. split; [apply grows_refl|done].
Qed.

Lemma after_upd i c s' : after grecord i c (c.2.1, s') = upd i c s'.
Proof. unfold after, upd, grecord. cbn. by rewrite record_same. Qed.

Lemma wp_shared_block i {R} (f : Shared -> option (Shared * R)) (Q : R -> gcfg -> Prop) E c :
  (forall c1, grely i c c1 -> f (sh c1) = None -> gwaits i c1) ->
  (forall c1 s' r, grely i c c1 -> f (sh c1) = Some (s', r) ->
     sgood n max quota (hist c1) i (led c1) (sh c1) s' /\ (gguar i c1 (upd i c1 s') -> Q r (upd i c1 s'))) ->
  gwp i (shared_block f) Q E c.
Proof.
  intros Hb HQ. apply wp_act_block; intros c1.
  - intros Hr Hf. apply Hb; [done|]. unfold sh. by destruct (f c1.2.2) as [[]|].
  - intros w2 r Hr Hf _. destruct (f c1.2.2) as [[s' r']|] eqn:Ef; [|done]. injection Hf as <- <-.
    destruct (HQ c1 s' r' Hr Ef) as [Hg HQ']. rewrite after_upd.
    pose proof (upd_guar i c1 s' (grely_inv _ _ _ Hr) Hg) as Hgu. split; [done|]. by apply HQ'.
Qed.

Lemma wp_shared i {R} (f : Shared -> Shared * R) (Q : R -> gcfg -> Prop) E c :
  (forall c1 s' r, grely i c c1 -> f (sh c1) = (s', r) ->
     sgood n max quota (hist c1) i (led c1) (sh c1) s' /\ (gguar i c1 (upd i c1 s') -> Q r (upd i c1 s'))) ->
  gwp i (shared f) Q E c.
Proof.
  intros HQ. apply wp_act. intros c1 w2 r Hr Hf _. destruct (f c1.2.2) as [s' r'] eqn:Ef. injection Hf as <- <-.
  destruct (HQ c1 s' r' Hr Ef) as [Hg HQ']. rewrite after_upd.
  pose proof (upd_guar i c1 s' (grely_inv _ _ _ Hr) Hg) as Hgu. split; [done|]. by apply HQ'.
Qed.

(** An action that changes nothing. *)
Lemma upd_skip i c : upd i c (sh c) = c.
Proof. unfold upd. rewrite ledger_same by done. by destruct c as [[h l] [w s]]. Qed.

Lemma wp_skip i {R} (g : Shared -> R) (Q : R -> gcfg -> Prop) E c :
  (forall c1, grely i c c1 -> Q (g (sh c1)) c1) -> gwp i (shared (fun s => (s, g s))) Q E c.
Proof.
  intros HQ. apply wp_shared. intros c1 s' r Hr [= <- <-]. split; [by apply good_skip, Hr|].
  intros _. rewrite upd_skip. by apply HQ.
Qed.

(** ** Code of the log *)

Lemma calm_step w w' : jobs_kept w w' -> waiting w' = waiting w -> no_jobs w -> no_jobs w'.
Proof.
  intros Hk Hw [Hz Hu]. split; [congruence|]. intros (t & j & Hj & He).
  destruct (Hk t j Hj He) as [Hst|(j0 & Hj0 & He0 & _)]; [|by destruct Hu; exists t, j0].
  rewrite Hz in Hw. clear - Hj Hst Hw. unfold waiting in Hw. revert t Hj.
  induction (w_jobs w') as [|j1 js IH]; intros [|t] Hj; cbn in Hj; [done..| |].
  - injection Hj as ->. cbn in Hw. by rewrite Hst in Hw.
  - eapply IH; [|exact Hj]. cbn in Hw. by destruct (j_started j1).
Qed.

Lemma wp_lift i {A} (p : proc (World S) A) (Q : A -> History * World S -> Prop) (R : A -> gcfg -> Prop) E c0 c :
  pwp P ns i p Q no_panic (wcfg c) -> calm p -> grely i c0 c ->
  (forall a c', ginv c' -> srel i (led c0) (sh c0) (led c') (sh c') -> Q a (wcfg c') -> R a c') ->
  gwp i (lift p) R E c.
Proof.
  intros Hp Hc [Hi [_ Hsr]] HR.
  revert c Hp Hi Hsr. induction p as [a|T f k IH|m]; intros c Hp Hi Hsr; [by apply HR| |done].
  intros c1 Hr1. pose proof Hr1 as (Hi1 & Hw1 & Hs1). specialize (Hp (wcfg c1) Hw1). specialize (Hc c1.2.1).
  unfold lift_action. cbn [wcfg snd fst] in Hp. destruct (f c1.2.1) as [[w2 r]|] eqn:Ef.
  - destruct Hc as (Hk & Hwt & Hc). intros Hsn. destruct (Hp Hsn) as [Hg Hwp].
    set (c2 := after grecord i c1 (w2, c1.2.2)).
    assert (wcfg c2 = after (record P) i (wcfg c1) w2) as Hwc by done.
    assert (led c2 = led c1) as Hl2 by (apply ledger_same; done).
    assert (ginv c2) as Hi2.
    { split; [rewrite Hwc; by eapply guar_inv|by eapply calm_step; [..|apply Hi1]|].
      rewrite Hl2. apply (sinv_mono _ _ _ (hist c1)); [|apply Hi1].
      apply (entries_mono P (wcfg c1) (wcfg c2)). rewrite Hwc. apply Hg. }
    split.
    + split; [done|]. split; [by rewrite Hwc|]. intros j Hj. rewrite Hl2. apply srel_refl.
    + apply IH; [done|done|done|]. eapply srel_trans; [exact Hsr|]. eapply srel_trans; [exact Hs1|].
      rewrite Hl2. apply srel_refl.
  - by destruct (gi_jobs _ Hi1).
Qed.

(** ** Producers *)

Section producer.
Variable j : nat.
Hypothesis Hj : (1 <= j <= n)%nat.

(** Thread [j] holds its submitter and has submitted [rqs]. *)
Definition prod (rqs : list Request) c : Prop :=
  ginv c /\ j ∈ senders (sh c) /\ requests_of (led c) j = rqs.
(** A receipt that the thread has created and not used yet. *)
Definition own (r : Receipt) c : Prop :=
  owners (led c) !! r = Some j /\ (r ∉ rq_result <$> accepted (led c)).

Lemma prod_mono rqs c c' : grely j c c' -> prod rqs c -> prod rqs c'.
Proof.
  intros (Hi & _ & Hs) (Hi0 & Hin & Hr). split; [done|]. split; [by apply (sr_senders _ _ _ _ _ Hs)|].
  rewrite <- Hr. eapply requests_srel; [apply Hi0|exact Hs].
Qed.

Lemma own_mono r c c' : grely j c c' -> own r c -> own r c'.
Proof.
  intros (Hi & _ & [(new & Ha & Hf & _) (newo & Ho & _) _ _ _ _ _ _]) [Hown Hn]. split.
  - rewrite Ho. by apply lookup_app_l_Some.
  - rewrite Ha, fmap_app, elem_of_app. intros [?|(rq & -> & Hin)%list_elem_of_fmap]; [done|].
    rewrite Forall_forall in Hf. apply (Hf rq Hin). rewrite Ho. by apply lookup_app_l_Some.
Qed.

(** Why a submission is refused for good: the entry exceeds the limit, or the
    writer has stopped after a failed append. *)
Definition refused (entry : bytes) (e : SubmissionError) (s : Shared) : Prop := sub_entry e = entry
  /\ (sub_reason e = "entry too large" /\ max < zlen entry \/ sub_reason e = "writer stopped" /\ stopped s = true).

(** Thread [j] still holds its submitter, so the writer's end is there. *)
Lemma prod_receiver rqs c : prod rqs c -> receiver (sh c) = true.
Proof.
  intros (Hi & Hin & _). destruct (receiver (sh c)) eqn:E; [done|].
  rewrite (si_gone _ _ _ _ _ _ (gi_shared _ Hi) E) in Hin. set_solver.
Qed.

Lemma wp_prepare self entry rqs c (Q : Result (Request * Receipt) SubmissionError -> gcfg -> Prop) E :
  prod rqs c -> sb_max_entry_bytes self = max ->
  (forall r c', later c c' -> prod rqs c' -> match r with
     | Ok (rq, rid) => rq = mkRequest entry rid /\ own rid c' /\ zlen entry <= max
     | Err e => refused entry e (sh c') end -> Q r c') ->
  gwp j (prepare self entry) Q E c.
Proof.
  intros Hp Hmax HQ. unfold prepare. rewrite Hmax. destruct (max <? zlen entry) eqn:Em; zbool.
  { apply HQ; [apply later_refl, Hp|done|split; [done|by left]]. }
  apply wp_bind, wp_skip. intros c1 Hr1. pose proof (prod_mono _ _ _ Hr1 Hp) as Hp1.
  destruct (stopped (sh c1)) eqn:Est; [apply HQ; [by eapply grely_later|done|split; [done|by right]]|]. apply wp_bind, wp_shared. intros c2 s' r Hr2 Hf.
  pose proof (prod_mono _ _ _ Hr2 Hp1) as (Hi2 & Hin2 & Hq2).
  destruct (good_channel n max quota (hist c2) j (led c2) (sh c2) (gi_shared _ Hi2)) as (Hg & Hl).
  injection Hf as <- <-. split; [done|]. intros Hgu.
  set (c3 := upd j c2 (with_receipts (receipts (sh c2) ++ [[]]) (sh c2))) in *.
  assert (led c3 = mkLedger (accepted (led c2)) (owners (led c2) ++ [j])) as Hl3 by exact Hl.
  pose proof (ids_lt _ _ _ _ _ _ (gi_shared _ Hi2)) as Hids. pose proof (si_len _ _ _ _ _ _ (gi_shared _ Hi2)) as Hlen.
  apply HQ.
  - eapply later_trans; [by eapply grely_later|]. eapply later_trans; [by eapply grely_later|]. by eapply gguar_later.
  - split; [by eapply gguar_inv|]. split; [exact Hin2|]. rewrite Hl3. unfold requests_of. cbn [owners accepted].
    by rewrite requests_in_owners.
  - split; [done|]. split; [|done]. unfold own. rewrite Hl3. cbn [owners accepted]. split.
    + by rewrite lookup_app_r, Hlen, Nat.sub_diag by lia.
    + intros (rq & Hrq & Hin)%list_elem_of_fmap. rewrite Forall_forall in Hids. specialize (Hids rq Hin). lia.
Qed.

(** What a submission has done when it succeeds and when it does not; one that
    does not wait may also find the channel [full]. *)
Definition submitted (full : bool) (entry : bytes) (rqs : list Request) (r : Result Receipt SubmissionError) c : Prop :=
  match r with
  | Ok rid => prod (rqs ++ [mkRequest entry rid]) c
  | Err e => prod rqs c /\ (refused entry e (sh c)
      \/ full = true /\ sub_entry e = entry /\ sub_reason e = "queue full" /\ zlen entry <= max)
  end.

Lemma push_good entry rid rqs c :
  prod rqs c -> own rid c -> zlen entry <= max -> (length rqs < quota j)%nat ->
  receiver (sh c) = true -> zlen (queued (sh c)) < capacity (sh c) ->
  let s' := with_queued (queued (sh c) ++ [mkRequest entry rid]) (sh c) in
  sgood n max quota (hist c) j (led c) (sh c) s' /\ (gguar j c (upd j c s') -> prod (rqs ++ [mkRequest entry rid]) (upd j c s')).
Proof.
  intros (Hi & Hin & Hq) [Ho Hn] Hsz Hlt Hrv Hcap s'.
  destruct (good_push n max quota (hist c) j (led c) (sh c) (gi_shared _ Hi) (mkRequest entry rid)) as [Hg Hl];
    [lia|done..|unfold count; by rewrite Hq|].
  split; [exact Hg|]. intros Hgu. split; [by eapply gguar_inv|]. split; [exact Hin|].
  change (led (upd j c s')) with (ledger_step j (led c) (sh c) s'). unfold s'. rewrite Hl.
  unfold requests_of. cbn [owners accepted]. rewrite requests_in_app. f_equal; [exact Hq|].
  unfold requests_in. by rewrite filter_cons_True, filter_nil.
Qed.

Lemma wp_submit self entry rqs c (Q : Result Receipt SubmissionError -> gcfg -> Prop) E :
  prod rqs c -> sb_max_entry_bytes self = max -> (length rqs < quota j)%nat ->
  (forall r c', later c c' -> submitted false entry rqs r c' -> Q r c') ->
  gwp j (submit self entry) Q E c.
Proof.
  intros Hp Hmax Hlt HQ. unfold submit. apply wp_bind, (wp_prepare self entry rqs c); [done..|].
  intros r c1 Hl1 Hp1 Hr. destruct r as [[rq rid]|e]; [|by apply HQ; [|split; [|left]]]. destruct Hr as (-> & Hown & Hsz).
  apply wp_bind, wp_shared_block.
  - intros c2 Hr2 Hf. unfold tx_send in Hf. destruct (receiver (sh c2)) eqn:Erv; [|done]. cbn [negb] in Hf.
    destruct (_ <? _) eqn:Ecap; [done|]. zbool. destruct j as [|j']; [lia|]. split; [done|]. left. intros He.
    rewrite He, (@zlen_nil Request) in Ecap. pose proof (si_pos _ _ _ _ _ _ (gi_shared _ (grely_inv _ _ _ Hr2))). lia.
  - intros c2 s' r Hr2 Hf. pose proof (prod_mono _ _ _ Hr2 Hp1) as Hp2. pose proof (own_mono _ _ _ Hr2 Hown) as Hown2.
    pose proof (later_trans _ _ _ Hl1 (grely_later _ _ _ Hr2)) as Hl2. unfold tx_send in Hf.
    destruct (receiver (sh c2)) eqn:Erv; cbn [negb] in Hf; [destruct (_ <? _) eqn:Ecap; [|done]; zbool|];
      injection Hf as <- <-.
    + destruct (push_good entry rid rqs c2) as [Hg Hpost]; [done..|]. split; [done|]. intros Hgu.
      apply HQ; [by eapply later_trans, gguar_later|by apply Hpost].
    + by rewrite (prod_receiver _ _ Hp2) in Erv.
Qed.

Lemma wp_try_submit self entry rqs c (Q : Result Receipt SubmissionError -> gcfg -> Prop) E :
  prod rqs c -> sb_max_entry_bytes self = max -> (length rqs < quota j)%nat ->
  (forall r c', later c c' -> submitted true entry rqs r c' -> Q r c') ->
  gwp j (try_submit self entry) Q E c.
Proof.
  intros Hp Hmax Hlt HQ. unfold try_submit. apply wp_bind, (wp_prepare self entry rqs c); [done..|].
  intros r c1 Hl1 Hp1 Hr. destruct r as [[rq rid]|e]; [|by apply HQ; [|split; [|left]]]. destruct Hr as (-> & Hown & Hsz).
  apply wp_bind, wp_shared.
  intros c2 s' r Hr2 Hf. pose proof (prod_mono _ _ _ Hr2 Hp1) as Hp2. pose proof (own_mono _ _ _ Hr2 Hown) as Hown2.
  pose proof (later_trans _ _ _ Hl1 (grely_later _ _ _ Hr2)) as Hl2. unfold tx_try_send in Hf.
  destruct (receiver (sh c2)) eqn:Erv; cbn [negb] in Hf; [destruct (_ <? _) eqn:Ecap; zbool|]; injection Hf as <- <-.
  - destruct (push_good entry rid rqs c2) as [Hg Hpost]; [done..|]. split; [done|]. intros Hgu.
    apply HQ; [by eapply later_trans, gguar_later|by apply Hpost].
  - split; [by apply good_skip, Hp2|]. intros _. rewrite upd_skip. apply HQ; [done|]. split; [done|by right].
  - by rewrite (prod_receiver _ _ Hp2) in Erv.
Qed.

(** Where a producer of the entries [es] may panic: it still holds its
    submitter, and there is a cause. *)
Variable es : list bytes.
Definition panics : string -> gcfg -> Prop := fun m c => (exists rqs, prod rqs c) /\ crash_cause max es m (sh c).

Lemma panic_stopped rqs c : prod rqs c -> stopped (sh c) = true -> panics UNWRAP c.
Proof. intros Hp Hs. split; [by exists rqs|]. right. auto. Qed.

Lemma panic_refused entry e rqs c : prod rqs c -> entry ∈ es -> refused entry e (sh c) -> panics (SubmissionError_display e) c.
Proof.
  intros Hp Hin [<- Hr]. split; [by exists rqs|]. destruct e as [entry reason]. cbn [sub_reason sub_entry] in *.
  destruct Hr as [[-> Hz]|[-> Hs]]; [left; by exists entry|right]. split; [done|]. right. by exists entry.
Qed.

Lemma requests_accepted rqs rq c : prod rqs c -> rq ∈ rqs -> rq ∈ accepted (led c).
Proof. intros (_ & _ & <-) Hin. by apply list_elem_of_filter in Hin as [_ ?]. Qed.

Lemma wp_await rqs rq c (Q : unit -> gcfg -> Prop) :
  prod rqs c -> rq ∈ rqs ->
  (forall c', later c c' -> prod rqs c' -> acked c' rq -> Q tt c') ->
  gwp j (await (rq_result rq)) Q panics c.
Proof.
  intros Hp Hin HQ. unfold await. apply wp_bind, wp_shared_block.
  - intros c1 Hr Hf. pose proof (prod_mono _ _ _ Hr Hp) as Hp1. unfold recv_receipt in Hf.
    assert (receiver (sh c1) = true /\ receipts (sh c1) !! rq_result rq = Some []) as [Hrv Hre].
    { pose proof (requests_accepted _ _ _ Hp1 Hin) as Ha.
      pose proof (id_lt _ _ _ _ _ _ rq (gi_shared _ (grely_inv _ _ _ Hr)) Ha) as Hlt.
      rewrite (si_len _ _ _ _ _ _ (gi_shared _ (grely_inv _ _ _ Hr))) in Hlt.
      destruct (lookup_lt_is_Some_2 _ _ Hlt) as [x Hx]. rewrite Hx in *.
      destruct x, (receiver (sh c1)); try done. }
    destruct j as [|j']; [lia|]. split; [done|]. right. exists rq. split; [|done]. by eapply requests_accepted.
  - intros c1 s' r Hr Hf. pose proof (prod_mono _ _ _ Hr Hp) as Hp1.
    assert (s' = sh c1) as ->.
    { unfold recv_receipt in Hf. repeat case_match; by inversion Hf. }
    split; [by apply good_skip, Hp1|]. intros _. rewrite upd_skip.
    pose proof (prod_receiver _ _ Hp1) as Hrv. unfold recv_receipt in Hf. rewrite Hrv in Hf. destruct (receipts (sh c1) !! rq_result rq) as [[|m x]|] eqn:Ex; [done| |done].
    injection Hf as <-.
    destruct (si_once _ _ _ _ _ _ (gi_shared _ (grely_inv _ _ _ Hr)) _ _ Ex) as [|(? & ? & _ & _ & [= <- ->] & _)]; [done|].
    destruct m as [lsn|e]; cbn [wp].
    + apply HQ; [by eapply grely_later|done|by exists lsn].
    + eapply panic_stopped; [done|]. by eapply (si_stopped _ _ _ _ _ _ (gi_shared _ (grely_inv _ _ _ Hr))).
Qed.

(** The answered requests of a producer and the receipts it still holds. *)
Definition window_ok (rqs : list Request) (pending : list Receipt) c : Prop :=
  Forall (fun rq => acked c rq \/ rq_result rq ∈ pending) rqs
  /\ Forall (fun id => exists rq, rq ∈ rqs /\ rq_result rq = id) pending.

Lemma window_acked rqs pending rq c c' : later c c' -> acked c' rq ->
  window_ok rqs (rq_result rq :: pending) c -> window_ok rqs pending c'.
Proof.
  intros Hl Ha [Hw Hp]. apply Forall_cons in Hp as [_ Hp]. split; [|done].
  eapply Forall_impl; [exact Hw|]. intros rq' [Hd|[He|Hin]%elem_of_cons]; [left; by eapply acked_later| |by right].
  left. destruct Ha as [lsn Ha]. exists lsn. by rewrite He.
Qed.

Lemma wp_await_all pending rqs c (Q : unit -> gcfg -> Prop) :
  prod rqs c -> window_ok rqs pending c ->
  (forall c', prod rqs c' -> Forall (acked c') rqs -> Q tt c') ->
  gwp j (await_all pending) Q panics c.
Proof.
  revert c. induction pending as [|id pending IH]; intros c Hp Hw HQ; cbn [await_all].
  { apply HQ; [done|]. eapply Forall_impl; [apply Hw|]. by intros rq [?|?%elem_of_nil]. }
  destruct (proj1 (proj1 (Forall_cons _ _ _) (proj2 Hw))) as (rq & Hin & <-).
  apply wp_bind, (wp_await rqs); [done..|]. intros c1 Hl1 Hp1 Ha. apply IH; [done| |done]. by eapply window_acked.
Qed.

Lemma window_later rqs pending c c' : later c c' -> window_ok rqs pending c -> window_ok rqs pending c'.
Proof.
  intros Hl [Hw Hp]. split; [|done]. eapply Forall_impl; [exact Hw|].
  intros rq [?|?]; [left; by eapply acked_later|by right].
Qed.

Lemma window_new rqs pending rid e c : window_ok rqs pending c ->
  window_ok (rqs ++ [mkRequest e rid]) (pending ++ [rid]) c.
Proof.
  intros [Hw Hp]. split; apply Forall_app; split.
  - eapply Forall_impl; [exact Hw|]. intros rq [?|?]; [by left|right]. apply elem_of_app. by left.
  - constructor; [|done]. right. apply elem_of_app. right. by left.
  - eapply Forall_impl; [exact Hp|]. intros id (rq & Hin & He). exists rq. split; [|done]. apply elem_of_app. by left.
  - constructor; [|done]. eexists. split; [apply elem_of_app; right; by left|done].
Qed.

Lemma wp_produce self w entries pending rqs c (Q : unit -> gcfg -> Prop) :
  prod rqs c -> window_ok rqs pending c -> sb_max_entry_bytes self = max ->
  (length rqs + length entries <= quota j)%nat -> entries ⊆ es ->
  (forall c' more, prod (rqs ++ more) c' -> rq_entry <$> more = entries -> Forall (acked c') (rqs ++ more) -> Q tt c') ->
  gwp j (produce self w entries pending) Q panics c.
Proof.
  revert pending rqs c. induction entries as [|e entries IH]; intros pending rqs c Hp Hw Hmax Hq Hes HQ; cbn [produce].
  { apply (wp_await_all pending rqs); [done..|]. intros c' Hp' Ha. apply (HQ c' []); by rewrite ?app_nil_r. }
  cbn [length] in Hq. apply wp_bind, (wp_try_submit self e rqs c); [done|done|lia|]. intros r c1 Hl1 Hs1.
  assert (forall rid c2, later c c2 -> prod (rqs ++ [mkRequest e rid]) c2 ->
    gwp j (let pending := pending ++ [rid] in
      if zlen pending =? w then
        match pending with
        | oldest :: rest => let! _ := await oldest in produce self w entries rest
        | [] => Panic "called `Option::unwrap()` on a `None` value"
        end
      else produce self w entries pending) Q panics c2) as Hnext.
  { intros rid c2 Hl2 Hp2. pose proof (window_new rqs pending rid e c2 (window_later _ _ _ _ Hl2 Hw)) as Hw2.
    assert (forall pending' c3, window_ok (rqs ++ [mkRequest e rid]) pending' c3 ->
      prod (rqs ++ [mkRequest e rid]) c3 -> gwp j (produce self w entries pending') Q panics c3) as Hrec.
    { intros pending' c3 Hw3 Hp3. apply (IH pending' (rqs ++ [mkRequest e rid])); [done..| | |].
      - rewrite length_app. cbn [length]. lia.
      - set_solver.
      - intros c4 more Hp4 Hm Ha. apply (HQ c4 (mkRequest e rid :: more)).
        + by rewrite <- app_assoc in Hp4.
        + cbn. by rewrite Hm.
        + by rewrite <- app_assoc in Ha. }
    cbn zeta. destruct (_ =? w); [|by apply Hrec].
    destruct (pending ++ [rid]) as [|oldest rest] eqn:Epend; [by destruct pending|].
    destruct (proj1 (proj1 (Forall_cons _ _ _) (proj2 Hw2))) as (rq & Hin & <-).
    apply wp_bind, (wp_await (rqs ++ [mkRequest e rid])); [done..|]. intros c3 Hl3 Hp3 Ha.
    apply Hrec; [|done]. by eapply window_acked. }
  destruct r as [rid|err]; [by apply wp_bind, Hnext|]. destruct Hs1 as [Hp1 He].
  apply wp_bind. case_bool_decide as Hfull.
  - destruct He as [[_ [[E _]|[E _]]]|(_ & He & _ & Hz)]; [congruence..|]. apply wp_bind. rewrite He.
    apply (wp_submit self e rqs c1); [done|done|lia|]. intros r c2 Hl2 Hs2.
    destruct r as [rid|err2]; [apply Hnext; [by eapply later_trans|done]|].
    destruct Hs2 as [Hp2 [[_ [[_ Hz']|[_ Hst]]]|[? _]]]; [lia|by eapply panic_stopped|done].
  - destruct He as [He|(_ & _ & He & _)]; [|done]. cbn [wp]. eapply panic_refused; [done| |done]. set_solver.
Qed.

End producer.

End group.
