(* ===== verification/GroupWriter.v ===== *)
(** * Group commit: the writer

    The conversation of the writer as the list of its groups, each with the
    result all its requests were answered from; the loop keeps it equal to the
    accepted requests taken so far, the replies sent and the commits made. *)

From S2P Require Import Prelude Fmt Utf8 Error Image ImageCodec App Proc Store StoreProps World Core Compactor Writer Protocol Invariant Steps StepsCache StepsStore CoreProps CompactorProps WriterInv InstallProps WriterProps WriterTheorems System Progress GroupCommit GroupInv GroupProps.

(** A group of requests and the result of their batch. *)
Abbreviation group := (list Request * append_result)%type.

Definition entries_of (rqs : list Request) : list bytes := rq_entry <$> rqs.
Definition reply_of (res : append_result) (k : nat) : reply :=
  match res with Ok (first, _) => Ok (first + Z.of_nat k) | Err e => Err e end.

Definition failed_in (gs : list group) : bool := existsb (fun g => negb (is_ok g.2)) gs.

(** The groups that were written to the log: all up to the first failure. *)
Fixpoint written (gs : list group) : list group :=
  match gs with
  | [] => []
  | g :: gs => g :: (if is_ok g.2 then written gs else [])
  end.
Definition rejected (gs : list group) : list group := drop (length (written gs)) gs.
Definition acks_of (gs : list group) : list ack := (fun g => (entries_of g.1, g.2)) <$> written gs.

(** Where the acknowledged ranges of the groups end, and that they ascend. *)
Fixpoint last_past (n : Z) (gs : list group) : Z :=
  match gs with
  | [] => n
  | (_, Ok (_, past)) :: gs => last_past past gs
  | (_, Err _) :: gs => last_past n gs
  end.
Fixpoint ascending (n : Z) (gs : list group) : Prop :=
  match gs with
  | [] => True
  | (rqs, Ok (first, past)) :: gs => n <= first /\ past = first + zlen rqs /\ ascending past gs
  | (_, Err _) :: gs => ascending n gs
  end.

Definition sum_sizes (ok : bool) (gs : list group) : Z :=
  foldr (fun g n => (if Bool.eqb (is_ok g.2) ok then zlen g.1 else 0) + n) 0 gs.

Definition report_of (gs : list group) : Report :=
  mkReport (wrap64 (sum_sizes true gs)) (wrap64 (zlen (written gs))) (wrap64 (sum_sizes false gs)).

(** ** One more group *)

Lemma failed_in_app gs g : failed_in (gs ++ [g]) = failed_in gs || negb (is_ok g.2).
Proof. unfold failed_in. rewrite existsb_app. cbn. by rewrite orb_false_r. Qed.

Lemma written_app gs g : written (gs ++ [g]) = if failed_in gs then written gs else gs ++ [g].
Proof.
  induction gs as [|g' gs IH]; cbn [app written failed_in existsb]; [by destruct (is_ok _)|].
  change (existsb _ gs) with (failed_in gs). rewrite IH. destruct g' as [rqs [fp|e]]; cbn; [|done]. by destruct (failed_in gs).
Qed.

Lemma written_all gs : failed_in gs = false -> written gs = gs.
Proof.
  induction gs as [|g gs IH]; [done|]. cbn [written failed_in existsb].
  change (existsb _ gs) with (failed_in gs). destruct g as [rqs [fp|e]]; cbn; [|done]. intros Hf. by rewrite IH.
Qed.

Lemma length_written gs : (length (written gs) <= length gs)%nat.
Proof. induction gs as [|g gs IH]; [done|]. cbn. destruct (is_ok g.2); cbn; lia. Qed.

Lemma rejected_app gs g : rejected (gs ++ [g]) = if failed_in gs then rejected gs ++ [g] else [].
Proof.
  unfold rejected. rewrite written_app. pose proof (length_written gs).
  destruct (failed_in gs); [|by rewrite drop_ge]. by rewrite drop_app_le.
Qed.

Lemma last_past_app n gs g : last_past n (gs ++ [g]) =
  match g.2 with Ok (_, past) => past | Err _ => last_past n gs end.
Proof.
  revert n. induction gs as [|[rqs [[f p]|e]] gs IH]; intros n; cbn [app last_past]; [|by rewrite IH..].
  destruct g as [rqs [[f p]|e]]; done.
Qed.

Lemma ascending_app n gs g : ascending n (gs ++ [g]) <-> ascending n gs /\
  match g.2 with Ok (first, past) => last_past n gs <= first /\ past = first + zlen g.1 | Err _ => True end.
Proof.
  revert n. induction gs as [|[rqs [[f p]|e]] gs IH]; intros n; cbn [app last_past ascending].
  - destruct g as [rqs [[f p]|e]]; cbn; tauto.
  - rewrite IH. tauto.
  - apply IH.
Qed.

Lemma sum_sizes_app ok gs g : sum_sizes ok (gs ++ [g]) =
  sum_sizes ok gs + (if Bool.eqb (is_ok g.2) ok then zlen g.1 else 0).
Proof.
  induction gs as [|g' gs IH]; [apply Z.add_0_r|].
  change (sum_sizes ok ((g' :: gs) ++ [g])) with ((if Bool.eqb (is_ok g'.2) ok then zlen g'.1 else 0) + sum_sizes ok (gs ++ [g])).
  change (sum_sizes ok (g' :: gs)) with ((if Bool.eqb (is_ok g'.2) ok then zlen g'.1 else 0) + sum_sizes ok gs).
  rewrite IH. lia.
Qed.

Lemma wrap64_add a b : wrapping_add (wrap64 a) b = wrap64 (a + b).
Proof. unfold wrapping_add, wrap64. by rewrite Zplus_mod_idemp_l. Qed.

(** The batches of this application are never rewritten. *)
Lemma group_reconciled hist es fin : reconciled (H0 := GroupCountApp_laws) hist es fin -> fin = es.
Proof.
  induction 1 as [|es es' es'' s m _ -> _ _ Hr]; [done|].
  change (default_reconcile_batch GroupCount.reconcile s es = ReplaceBatch es'') in Hr.
  unfold default_reconcile_batch in Hr. by rewrite reconcile_loop_retries in Hr.
Qed.

Section writer.
Context {S : Type} `{ObjectStoreLaws S}.
Variable P : string.
Variable ns : option string.
Context `{!LogNames P ns}.
Variable n : nat.
Variable max : Z.
Variable quota : nat -> nat.
Variable max_batch : Z.
Hypothesis Hbatch : 0 < max_batch <= USIZE_MAX.

Abbreviation gcfg := ((History * Ledger) * (World S * Shared))%type.
Abbreviation ginv := (ginv P ns n max quota).
Abbreviation grely := (grely P ns n max quota 0).
Abbreviation gwp := (wp gsane (grecord P) (GroupProps.grely P ns n max quota) (gguar P ns n max quota) gwaits 0).
Implicit Types (c : gcfg) (gs : list group) (held : list Request).

(** The configuration the log was handed over in. *)
Variable c0 : gcfg.

(** The requests are answered with the [k]-th and following replies of [res]. *)
Definition answers (res : append_result) (k : nat) (rqs : list Request) (s : Shared) : Prop :=
  forall m rq, rqs !! m = Some rq -> receipts s !! rq_result rq = Some [reply_of res (k + m)].

(** The groups and the log: what was written is what the log accounts for. *)
Record wlog gs c : Prop := {
  wl_acks : acks_ok P ns 0 (wcfg c0) (acks_of gs) (wcfg c);
  wl_rejected : Forall (fun g => g.2 = Err (stopped_error (entries_of g.1))) (rejected gs);
  wl_ascending : ascending 0 gs;
  wl_bound : last_past 0 gs <= zlen (hist c);
  wl_sizes : Forall (fun g : group => 1 <= zlen g.1 <= max_batch) gs;
}.

(** The groups and the channel: the answered groups, the requests in the
    writer's hands and the queued ones are the accepted ones. *)
Record wmem gs held c : Prop := {
  wm_split : accepted (led c) = concat gs.*1 ++ held ++ queued (sh c);
  wm_answers : Forall (fun g : group => answers g.2 0 g.1 (sh c)) gs;
  wm_held : Forall (fun rq => receipts (sh c) !! rq_result rq = Some []) held;
  wm_receiver : receiver (sh c) = true;
}.

Lemma srel_receipts c c' r x : srel 0 (led c) (sh c) (led c') (sh c') ->
  receipts (sh c) !! r = Some x -> receipts (sh c') !! r = Some x.
Proof. intros Hs Hx. destruct (sr_receipts _ _ _ _ _ Hs r x Hx) as (y & Hy & Hy0). by rewrite (Hy0 eq_refl), app_nil_r in Hy. Qed.

Lemma answers_mono res k rqs c c' : srel 0 (led c) (sh c) (led c') (sh c') -> answers res k rqs (sh c) -> answers res k rqs (sh c').
Proof. intros Hs Ha m rq Hm. by eapply srel_receipts, Ha. Qed.

Lemma wmem_mono gs held c c' : srel 0 (led c) (sh c) (led c') (sh c') -> wmem gs held c -> wmem gs held c'.
Proof.
  intros Hs [Hsp Ha Hh Hr]. split.
  - destruct (sr_acc _ _ _ _ _ Hs) as (new & -> & _ & _ & Hq). by rewrite Hq, Hsp, <- !app_assoc.
  - eapply Forall_impl; [exact Ha|]. intros g. by apply answers_mono.
  - eapply Forall_impl; [exact Hh|]. intros rq. by apply srel_receipts.
  - by rewrite (proj2 (sr_flags _ _ _ _ _ Hs eq_refl)).
Qed.

Lemma stopped_mono c c' : srel 0 (led c) (sh c) (led c') (sh c') -> stopped (sh c') = stopped (sh c).
Proof. intros Hs. by apply (sr_flags _ _ _ _ _ Hs). Qed.

Lemma acks_mono acks c c' : rely P ns 0 (wcfg c) (wcfg c') ->
  acks_ok P ns 0 (wcfg c0) acks (wcfg c) -> acks_ok P ns 0 (wcfg c0) acks (wcfg c').
Proof.
  intros Hr Ha. rewrite <- (app_nil_r acks). eapply acks_ok_trans; [exact Ha|by apply acks_ok_rely].
Qed.

Lemma wlog_mono gs c c' : rely P ns 0 (wcfg c) (wcfg c') -> wlog gs c -> wlog gs c'.
Proof.
  intros Hr [Ha Hrej Hasc Hb Hz]. split; [by eapply acks_mono|done|done| |done].
  pose proof (zlen_mono P (wcfg c) (wcfg c') (rely_grows _ _ _ _ _ Hr)) as Hle.
  change (zlen (hist c) <= zlen (hist c')) in Hle. lia.
Qed.

Lemma writer_mono self c c' : rely P ns 0 (wcfg c) (wcfg c') ->
  writer_ok P ns self (wcfg c) -> writer_ok P ns self (wcfg c').
Proof. intros Hr. eapply writer_ok_mono; [by eapply rely_inv|by eapply rely_grows]. Qed.

(** Everything the writer knows between two actions. *)
Record wstate gs held self c : Prop := {
  ws_inv : ginv c;
  ws_log : wlog gs c;
  ws_mem : wmem gs held c;
  ws_self : writer_ok P ns self (wcfg c);
  ws_stopped : stopped (sh c) = failed_in gs;
}.

Lemma wstate_mono gs held self c c' : grely c c' -> wstate gs held self c -> wstate gs held self c'.
Proof.
  intros (Hi & Hr & Hs) [_ Hl Hm Hw Hst]. split; [done|by eapply wlog_mono|by eapply wmem_mono|by eapply writer_mono|].
  by rewrite (stopped_mono _ _ Hs).
Qed.

Lemma acks_of_nil_rejected gs : failed_in gs = false -> rejected gs = [].
Proof. intros Hf. unfold rejected. by rewrite written_all, drop_all. Qed.

(** ** Taking requests *)

Lemma take_request gs held self c rq q :
  wstate gs held self c -> queued (sh c) = rq :: q ->
  let s' := with_queued q (sh c) in
  sgood n max quota (hist c) 0 (led c) (sh c) s'
  /\ (gguar P ns n max quota 0 c (upd 0 c s') -> wstate gs (held ++ [rq]) self (upd 0 c s')).
Proof.
  intros [Hi Hl [Hsp Ha Hh Hr] Hw Hst] Hq s'.
  destruct (good_pop n max quota (hist c) 0 (led c) (sh c) (gi_shared _ _ _ _ _ _ Hi) rq q eq_refl Hq) as [Hg Hled].
  split; [done|]. intros Hgu. assert (led (upd 0 c s') = led c) as Hled' by exact Hled.
  split; [by eapply gguar_inv|by destruct Hl| |done|done]. split; try done.
  - rewrite Hled', Hsp, Hq. cbn. by rewrite <- app_assoc.
  - apply Forall_app. split; [exact Hh|]. constructor; [|done].
    apply (si_queued _ _ _ _ _ _ (gi_shared _ _ _ _ _ _ Hi)). rewrite Hq. by left.
Qed.

Lemma wp_gather k gs held self c (Q : list bytes * list Receipt -> gcfg -> Prop) E :
  wstate gs held self c ->
  (forall held' c', wstate gs held' self c' -> (length held <= length held' <= length held + k)%nat ->
     Q (entries_of held', rq_result <$> held') c') ->
  gwp (gather k (entries_of held) (rq_result <$> held)) Q E c.
Proof.
  revert held c. induction k as [|k IH]; intros held c Hw HQ; cbn [gather].
  { apply HQ; [done|lia]. }
  apply wp_bind, wp_shared. intros c1 s' r Hr Hf. pose proof (wstate_mono _ _ _ _ _ Hr Hw) as Hw1.
  unfold try_recv_request in Hf. destruct (queued (sh c1)) as [|rq q] eqn:Eq; injection Hf as <- <-.
  - split; [by apply good_skip, Hr|]. intros _. rewrite upd_skip. apply HQ; [done|lia].
  - destruct (take_request _ _ _ _ _ _ Hw1 Eq) as [Hg Hpost]. split; [done|]. intros Hgu. specialize (Hpost Hgu).
    change (entries_of held ++ [rq_entry rq]) with (entries_of held ++ entries_of [rq]).
    change ((rq_result <$> held) ++ [rq_result rq]) with ((rq_result <$> held) ++ (rq_result <$> [rq])).
    unfold entries_of. rewrite <- !fmap_app. apply IH; [done|]. intros held' c' Hw' Hlen. rewrite length_app in Hlen.
    cbn [length] in Hlen. apply HQ; [done|lia].
Qed.

(** ** Answering *)

(** The requests [done ++ todo] have the result [res]; [done] are answered. *)
Record wsending gs res (done todo : list Request) self (b : bool) c : Prop := {
  sd_inv : ginv c;
  sd_log : wlog (gs ++ [(done ++ todo, res)]) c;
  sd_mem : wmem (gs ++ [(done, res)]) todo c;
  sd_self : writer_ok P ns self (wcfg c);
  sd_truth : forall k rq, (done ++ todo) !! k = Some rq -> truthful (hist c) rq (reply_of res k);
  sd_stopped : stopped (sh c) = b;
}.

Lemma wsending_mono gs res done todo self b c c' : grely c c' -> wsending gs res done todo self b c -> wsending gs res done todo self b c'.
Proof.
  intros Hg [_ Hl Hm Hw Ht Hst]. pose proof Hg as (Hi & Hr & Hs).
  split; [done|by eapply wlog_mono|by eapply wmem_mono|by eapply writer_mono| |].
  - intros k rq Hk. eapply truthful_mono; [|by apply Ht]. by eapply grely_hist.
  - by rewrite (stopped_mono _ _ Hs).
Qed.

Lemma wsending_done gs res rqs self b c : wsending gs res rqs [] self b c -> b = failed_in (gs ++ [(rqs, res)]) ->
  wstate (gs ++ [(rqs, res)]) [] self c.
Proof. intros [Hi Hl Hm Hw _ Hst] ->. rewrite app_nil_r in Hl. by split. Qed.

Lemma wp_send_reply gs res done rq todo self b c (Q : unit -> gcfg -> Prop) E :
  wsending gs res done (rq :: todo) self b c -> is_ok res || b = true ->
  (forall c', wsending gs res (done ++ [rq]) todo self b c' -> Q tt c') ->
  gwp (shared (send_reply (rq_result rq) (reply_of res (length done)))) Q E c.
Proof.
  intros Hw Hb HQ. apply wp_shared. intros c1 s' r Hr Hf. apply (wsending_mono _ _ _ _ _ _ _ _ Hr) in Hw as Hw1.
  destruct Hw1 as [Hi Hl [Hsp Ha Hh Hrv] Hself Ht Hst]. apply Forall_cons in Hh as [Hrq Hh].
  pose proof (si_ids _ _ _ _ _ _ (gi_shared _ _ _ _ _ _ Hi)) as Hids. pose proof Hids as Hnd.
  rewrite Hsp, fmap_app, (fmap_app _ (rq :: todo)) in Hnd. apply NoDup_app in Hnd as (_ & _ & Hnd).
  cbn [fmap list_fmap app] in Hnd. apply NoDup_cons in Hnd as [Hnew _]. rewrite elem_of_app in Hnew.
  assert (rq ∈ accepted (led c1)) as Hin.
  { rewrite Hsp, elem_of_app. right. by left. }
  destruct (good_reply n max quota (hist c1) 0 (led c1) (sh c1) (gi_shared _ _ _ _ _ _ Hi) rq (reply_of res (length done))) as (Hg & Hled & Hrs);
    [done|done| |done| | |].
  { intros Hq. apply Hnew. right. by apply list_elem_of_fmap_2. }
  { apply Ht. by rewrite lookup_app_r, Nat.sub_diag by done. }
  { intros e He. rewrite Hst. by destruct res as [[first past]|e']. }
  assert (s' = (send_reply (rq_result rq) (reply_of res (length done)) (sh c1)).1) as -> by by rewrite Hf.
  assert (r = tt) as -> by by destruct r. split; [done|]. intros Hgu. apply HQ.
  set (c2 := upd 0 c1 _) in *.
  assert (receipts (sh c2) = <[rq_result rq:=[reply_of res (length done)]]> (receipts (sh c1))) as Hrs2 by exact Hrs.
  assert (forall id x, receipts (sh c1) !! id = Some x -> id <> rq_result rq -> receipts (sh c2) !! id = Some x) as Hother.
  { intros id x Hx Hne. by rewrite Hrs2, list_lookup_insert_ne. }
  assert (forall res' k rqs, answers res' k rqs (sh c1) -> answers res' k rqs (sh c2)) as Hans.
  { intros res' k rqs Hx m rq' Hm. specialize (Hx m rq' Hm). apply Hother; [done|]. intros He. congruence. }
  apply Forall_app in Ha as [Ha Had]. apply Forall_cons in Had as [Had _]. cbn [fst snd] in Had.
  split; rewrite <- ?app_assoc; try done; [by eapply gguar_inv|by destruct Hl|].
  split.
  - assert (led c2 = led c1) as -> by exact Hled. rewrite Hsp.
    rewrite !fmap_app, !concat_app. cbn. by rewrite !app_nil_r, <- !app_assoc.
  - apply Forall_app. split; [eapply Forall_impl; [exact Ha|]; intros g; apply Hans|]. constructor; [|done].
    intros m rq' Hm. cbn [fst snd] in *. apply lookup_app_Some in Hm as [Hm|[Hlen Hm]]; [by apply (Hans _ _ _ Had)|].
    apply list_lookup_singleton_Some in Hm as [Hm <-]. rewrite Hrs2.
    rewrite list_lookup_insert_eq by by eapply lookup_lt_Some. do 2 f_equal. f_equal. lia.
  - apply Forall_forall. intros rq' Hin'. rewrite Forall_forall in Hh. apply Hother; [by apply Hh|].
    intros He. apply Hnew. left. rewrite <- He. by apply list_elem_of_fmap_2.
  - exact Hrv.
Qed.

Lemma wp_acknowledge gs first past todo done self b c (Q : unit -> gcfg -> Prop) E :
  wsending gs (Ok (first, past)) done todo self b c ->
  (forall c', wsending gs (Ok (first, past)) (done ++ todo) [] self b c' -> Q tt c') ->
  gwp (acknowledge (seqZ (first + zlen done) (zlen todo)) (rq_result <$> todo)) Q E c.
Proof.
  revert done c. induction todo as [|rq todo IH]; intros done c Hw HQ.
  { cbn. apply HQ. by rewrite app_nil_r. }
  rewrite zlen_cons, seqZ_cons by (pose proof (zlen_nonneg todo); lia). cbn [fmap list_fmap acknowledge].
  apply wp_bind, (wp_send_reply gs (Ok (first, past)) done rq todo self b); [done..|]. intros c1 Hw1.
  replace (Z.succ (first + zlen done)) with (first + zlen (done ++ [rq])) by (rewrite zlen_app, zlen_cons, (@zlen_nil Request); lia).
  replace (Z.pred (1 + zlen todo)) with (zlen todo) by lia.
  apply IH; [done|]. intros c2 Hw2. apply HQ. by rewrite <- app_assoc in Hw2.
Qed.

Lemma wp_refuse gs e todo done self c (Q : unit -> gcfg -> Prop) E :
  wsending gs (Err e) done todo self true c ->
  (forall c', wsending gs (Err e) (done ++ todo) [] self true c' -> Q tt c') ->
  gwp (refuse e (rq_result <$> todo)) Q E c.
Proof.
  revert done c. induction todo as [|rq todo IH]; intros done c Hw HQ; cbn [fmap list_fmap refuse].
  { apply HQ. by rewrite app_nil_r. }
  apply wp_bind, (wp_send_reply gs (Err e) done rq todo self true); [done..|]. intros c1 Hw1.
  apply (IH (done ++ [rq])); [done|]. intros c2 Hw2. apply HQ. by rewrite <- app_assoc in Hw2.
Qed.

(** ** One group *)

(** What an append of a group's entries shows of the log. *)
Lemma group_appended n0 held c1 self res c2 : held <> [] ->
  append_ok P ns 0 false n0 (entries_of held) (wcfg c1) (self, res) (wcfg c2) ->
  match res with
  | Ok (first, past) => zlen (hist c1) <= first /\ past = first + zlen held /\ past <= zlen (hist c2)
  | Err _ => True
  end /\ forall k rq, held !! k = Some rq -> truthful (hist c2) rq (reply_of res k).
Proof.
  intros Hne (Hi & Hg & Hok & Hr). cbn [fst snd] in Hr.
  assert (forall k rq, held !! k = Some rq -> entries_of held !! k = Some (rq_entry rq)) as Hent.
  { intros k rq Hk. unfold entries_of. by rewrite list_lookup_fmap, Hk. }
  destruct res as [[first past]|e]; cbn [reply_of truthful].
  - destruct Hr as (fin & Hrec%group_reconciled & -> & _ & _ & _ & Hc). subst fin.
    destruct Hc as [(before & later & Hp & Hz & He) _]; [by destruct held|].
    assert (hist c2 = entries before ++ entries_of held ++ entries later) as Hh.
    { unfold hist. change c2.1.1 with (wcfg c2).1. by rewrite He, entries_app. }
    assert (zlen (hist c1) <= zlen (entries before)) as Hle.
    { destruct Hp as [x ->]. rewrite entries_app, zlen_app. pose proof (zlen_nonneg (entries x)). change (entries (wcfg c1).1) with (hist c1). lia. }
    assert (zlen (entries_of held) = zlen held) as Hzl by (unfold entries_of, zlen; by rewrite length_fmap).
    rewrite <- Hzl, Hh, !zlen_app. pose proof (zlen_nonneg (entries later)). split; [split_and!; lia|].
    intros k rq Hk. pose proof (zlen_nonneg (hist c1)). split; [lia|]. rewrite lookup_app_r by zlia.
    replace (Z.to_nat (first + Z.of_nat k) - length (entries before))%nat with k by zlia. by apply lookup_app_l_Some, Hent.
  - destruct Hr as (Hrec%group_reconciled & _). split; [done|]. intros k rq Hk. rewrite Hrec.
    by eapply list_elem_of_lookup_2, Hent.
Qed.

Lemma wlog_committed gs n0 held c1 self res c2 : wlog gs c1 -> failed_in gs = false -> 1 <= zlen held <= max_batch ->
  append_ok P ns 0 false n0 (entries_of held) (wcfg c1) (self, res) (wcfg c2) -> wlog (gs ++ [(held, res)]) c2.
Proof.
  intros [Ha Hrej Hasc Hb Hz] Hf Hsz Hap.
  assert (held <> []) as Hne by (intros ->; rewrite (@zlen_nil Request) in Hsz; lia).
  destruct (group_appended _ _ _ _ _ _ Hne Hap) as [Hres _]. apply append_ok_acks in Hap as (Hak & _). cbn [snd] in Hak.
  assert (zlen (hist c1) <= zlen (hist c2)) as Hle.
  { destruct Hak as (_ & Hg & _). exact (zlen_mono P (wcfg c1) (wcfg c2) Hg). }
  split.
  - unfold acks_of in *. rewrite written_app, Hf, fmap_app. rewrite written_all in Ha by done. cbn [fmap list_fmap fst snd].
    by eapply acks_ok_trans.
  - rewrite rejected_app, Hf. constructor.
  - apply ascending_app. split; [done|]. cbn [fst snd]. destruct res as [[first past]|e]; [|done]. lia.
  - rewrite last_past_app. cbn [snd]. destruct res as [[first past]|e]; lia.
  - apply Forall_app. split; [done|]. by constructor.
Qed.

Lemma wlog_stopped gs held c : wlog gs c -> failed_in gs = true -> 1 <= zlen held <= max_batch ->
  wlog (gs ++ [(held, Err (stopped_error (entries_of held)))]) c.
Proof.
  intros [Ha Hrej Hasc Hb Hz] Hf Hsz. split.
  - unfold acks_of in *. by rewrite written_app, Hf.
  - rewrite rejected_app, Hf. apply Forall_app. split; [done|]. by constructor.
  - by apply ascending_app.
  - by rewrite last_past_app.
  - apply Forall_app. split; [done|]. by constructor.
Qed.

Lemma wmem_group gs held res c : wmem gs held c -> wmem (gs ++ [([], res)]) held c.
Proof.
  intros [Hsp Ha Hh Hr]. split; [|apply Forall_app; split; [done|constructor; [by intros m rq|done]]|done|done].
  rewrite Hsp, fmap_app, concat_app. cbn. by rewrite app_nil_r.
Qed.

Lemma wp_commit_group gs held self c (Q : WalTier * Report * append_result -> gcfg -> Prop) E :
  wstate gs held self c -> 1 <= zlen held <= max_batch ->
  (forall self' res c', wsending gs res [] held self' (failed_in gs) c' ->
     Q (self', mkReport (wrap64 (sum_sizes true gs)) (wrap64 (zlen (written (gs ++ [(held, res)])))) (wrap64 (sum_sizes false gs)), res) c') ->
  gwp (commit_group (entries_of held) self (report_of gs)) Q E c.
Proof.
  intros Hw Hsz HQ. unfold commit_group, report_of. cbn [r_acknowledged r_commits r_failed].
  assert (held <> []) as Hne by (intros ->; rewrite (@zlen_nil Request) in Hsz; lia).
  apply wp_bind, wp_skip. intros c1 Hr. apply (wstate_mono _ _ _ _ _ Hr) in Hw as [Hi Hl Hm Hself Hst].
  rewrite Hst. destruct (failed_in gs) eqn:Ef.
  - specialize (HQ self (Err (stopped_error (entries_of held))) c1). rewrite written_app, Ef in HQ. apply HQ.
    split; [done|by apply wlog_stopped|by apply wmem_group|done| |done].
    intros k rq Hk. cbn. apply list_elem_of_fmap. exists rq. split; [done|]. by eapply list_elem_of_lookup_2.
  - apply wp_bind. eapply (wp_lift P ns n max quota 0 _
      (append_ok P ns 0 false (next_lsn (image (core self))) (entries_of held) (wcfg c1)) _ _ c1 c1).
    + unfold write_batch. apply (wp_append P ns); [apply Hi|done|by apply Forall_true|done|done].
    + by apply calm_append.
    + by apply grely_refl.
    + intros [self' res] c2 Hi2 Hs Hap. cbn [wp].
      pose proof (wlog_committed _ _ _ _ _ _ _ Hl Ef Hsz Hap) as Hl2.
      specialize (HQ self' res c2). rewrite written_app, Ef, zlen_app in HQ. rewrite written_all, wrap64_add by done.
      apply HQ. split; [done|exact Hl2| |by apply Hap| |].
      * by apply wmem_group, (wmem_mono _ _ c1).
      * intros k rq Hk. by apply (group_appended _ _ _ _ _ _ Hne Hap).
      * by rewrite (stopped_mono _ _ Hs).
Qed.

Lemma wp_answer_group gs held self res c (Q : Report -> gcfg -> Prop) E :
  wsending gs res [] held self (failed_in gs) c -> 1 <= zlen held <= max_batch ->
  (forall c', wstate (gs ++ [(held, res)]) [] self c' -> Q (report_of (gs ++ [(held, res)])) c') ->
  gwp (answer_group res (rq_result <$> held)
    (mkReport (wrap64 (sum_sizes true gs)) (wrap64 (zlen (written (gs ++ [(held, res)])))) (wrap64 (sum_sizes false gs)))) Q E c.
Proof.
  intros Hw Hsz HQ. unfold report_of in HQ. rewrite !sum_sizes_app in HQ. cbn [fst snd] in HQ.
  assert (zlen (rq_result <$> held) = zlen held) as Hzl by (unfold zlen; by rewrite length_fmap).
  destruct res as [[first past]|e]; cbn [answer_group r_acknowledged r_commits r_failed]; rewrite ?Hzl.
  - pose proof (proj2 (proj1 (ascending_app _ _ _) (wl_ascending _ _ (sd_log _ _ _ _ _ _ _ Hw)))) as [Hle Hpast].
    cbn [fst snd app] in Hpast. subst past. replace (first + zlen held - first) with (zlen held) by lia.
    rewrite wrap64_small by (unfold is_u64, USIZE_MAX in *; zlia). rewrite Z.eqb_refl. cbn [negb].
    apply wp_bind. pose proof (wp_acknowledge gs first (first + zlen held) held [] self (failed_in gs) c) as Hack.
    rewrite (@zlen_nil Request), Z.add_0_r in Hack. apply Hack; [exact Hw|]. intros c1 Hw1. cbn [wp]. rewrite wrap64_add. cbn in HQ. rewrite Z.add_0_r in HQ.
    apply HQ, (wsending_done _ _ _ _ _ _ Hw1). rewrite failed_in_app. cbn. by rewrite orb_false_r.
  - apply wp_bind, wp_shared. intros c1 s' r Hr Hf. injection Hf as <- <-.
    apply (wsending_mono _ _ _ _ _ _ _ _ Hr) in Hw as [Hi Hl Hm Hself Ht Hst].
    destruct (good_stop n max quota (hist c1) 0 (led c1) (sh c1) (gi_shared _ _ _ _ _ _ Hi) eq_refl) as [Hg Hled].
    split; [done|]. intros Hgu. apply wp_bind. eapply (wp_refuse gs e held [] self).
    + set (c2 := upd 0 c1 _) in *. assert (led c2 = led c1) as Hl2 by exact Hled.
      split; [by eapply gguar_inv|by destruct Hl| |done|exact Ht|done].
      destruct Hm as [Hsp Ha Hh Hrv]. split; [by rewrite Hl2|done..].
    + intros c3 Hw3. cbn [wp]. rewrite wrap64_add. cbn in HQ. rewrite Z.add_0_r in HQ.
      apply HQ, (wsending_done _ _ _ _ _ _ Hw3). rewrite failed_in_app. cbn. by rewrite orb_true_r.
Qed.

(** ** The loop *)

Lemma wstate_answered gs self c rq : wstate gs [] self c -> queued (sh c) = [] -> rq ∈ accepted (led c) -> answered (sh c) rq.
Proof.
  intros [_ _ [Hsp Ha _ _] _ _] Hq Hin. rewrite Hsp, Hq, app_nil_r in Hin.
  apply list_elem_of_In, in_concat in Hin as (x & Hx%list_elem_of_In & Hin%list_elem_of_In).
  apply list_elem_of_fmap in Hx as (g & -> & Hg). rewrite Forall_forall in Ha.
  apply list_elem_of_lookup in Hin as [k Hk]. eexists. by apply (Ha g Hg k).
Qed.

Lemma length_groups gs held c : wlog gs c -> wmem gs held c -> (length gs <= length (accepted (led c)))%nat.
Proof.
  intros Hl Hm. rewrite (wm_split _ _ _ Hm), length_app. pose proof (wl_sizes _ _ Hl) as Hz. clear - Hz.
  assert (length gs <= length (concat gs.*1))%nat; [|lia].
  induction Hz as [|g gs Hg _ IH]; [done|]. cbn [fmap list_fmap concat length]. rewrite length_app. zlia.
Qed.

Definition total : nat := sum_list (quota <$> seq 1 n).

Lemma wp_group_loop fuel gs self c (Q : WalTier * Report -> gcfg -> Prop) E :
  wstate gs [] self c -> (total < fuel + length gs)%nat ->
  (forall gs' self' c', wstate gs' [] self' c' -> queued (sh c') = [] -> senders (sh c') = ∅ ->
     Q (self', report_of gs') c') ->
  gwp (group_loop fuel max_batch self (report_of gs)) Q E c.
Proof.
  revert gs self c. induction fuel as [|fuel IH]; intros gs self c Hw Hfuel HQ; cbn [group_loop].
  { pose proof (length_groups _ _ _ (ws_log _ _ _ _ Hw) (ws_mem _ _ _ _ Hw)).
    pose proof (length_accepted _ _ _ _ _ _ (gi_shared _ _ _ _ _ _ (ws_inv _ _ _ _ Hw))). unfold total in *. lia. }
  apply wp_bind, wp_shared_block.
  - intros c1 Hr Hf. apply (wstate_mono _ _ _ _ _ Hr) in Hw. unfold recv_request in Hf.
    destruct (queued (sh c1)) eqn:Eq; [|done]. case_bool_decide as Hse; [done|].
    split_and!; [done|done|]. intros rq. by eapply wstate_answered.
  - intros c1 s' r Hr Hf. apply (wstate_mono _ _ _ _ _ Hr) in Hw. unfold recv_request in Hf.
    destruct (queued (sh c1)) as [|rq q] eqn:Eq.
    + case_bool_decide as Hse; [|done]. injection Hf as <- <-. split; [apply good_skip, Hw|].
      intros _. rewrite upd_skip. by apply HQ.
    + injection Hf as <- <-. destruct (take_request _ _ _ _ _ _ Hw Eq) as [Hg Hpost]. split; [done|].
      intros Hgu. specialize (Hpost Hgu). cbn [app] in Hpost. apply wp_bind.
      change [rq_entry rq] with (entries_of [rq]). change [rq_result rq] with (rq_result <$> [rq]).
      eapply wp_gather; [exact Hpost|]. intros held c2 Hw2 Hlen. cbn [length] in Hlen.
      assert (1 <= zlen held <= max_batch) as Hsz by zlia.
      apply wp_bind, wp_commit_group; [done|done|]. intros self' res c3 Hw3. cbn iota beta.
      apply wp_bind, (wp_answer_group gs held self' res); [done|done|]. intros c4 Hw4.
      apply IH; [done|rewrite length_app; cbn; lia|done].
Qed.

(** What a finished writer leaves behind. *)
Record finished gs c : Prop := {
  fn_split : accepted (led c) = concat gs.*1;
  fn_answers : Forall (fun g : group => answers g.2 0 g.1 (sh c)) gs;
  fn_log : wlog gs c;
  fn_receiver : receiver (sh c) = false;
  fn_stopped : stopped (sh c) = failed_in gs;
}.

Lemma finished_mono gs c c' : grely c c' -> finished gs c -> finished gs c'.
Proof.
  intros (Hi & Hr & Hs) [Hsp Ha Hl Hrv Hst]. split.
  - destruct (sr_acc _ _ _ _ _ Hs) as (new & -> & _ & Hne & _). destruct new; [by rewrite app_nil_r|].
    destruct Hne as [_ Hne]; [done|congruence].
  - eapply Forall_impl; [exact Ha|]. intros g. by apply answers_mono.
  - by eapply wlog_mono.
  - by apply (sr_receiver _ _ _ _ _ Hs).
  - by rewrite (stopped_mono _ _ Hs).
Qed.

Lemma wp_run_writer fuel self c (Q : Result Report WalError -> gcfg -> Prop) E :
  wstate [] [] self c -> (total < fuel)%nat ->
  (forall gs r c', ginv c' -> finished gs c' -> (forall report, r = Ok report -> report = report_of gs) -> Q r c') ->
  gwp (run_writer fuel self max_batch) Q E c.
Proof.
  intros Hw Hfuel HQ. unfold run_writer. destruct (Z.ltb_spec 0 max_batch); [|lia]. cbn [negb].
  apply wp_bind. change (mkReport 0 0 0) with (report_of []). eapply wp_group_loop; [exact Hw|cbn; lia|].
  intros gs self' c1 Hw1 Hq Hse. apply wp_bind. pose proof Hw1 as [Hi1 Hl1 Hm1 Hself1 Hst1].
  eapply (wp_lift P ns n max quota 0 _ (fun _ d => rely P ns 0 (wcfg c1) d) _ _ c1 c1).
  - unfold close. apply wp_bind, (wp_flush P ns); [apply Hi1|done|]. intros [s r] c2 Hf. apply Hf.
  - by apply calm_close.
  - by apply grely_refl.
  - intros closed c2 Hi2 Hs2 Hr2. apply wp_bind, wp_shared. intros c3 s' r Hr3 Hf. injection Hf as <- <-.
    pose proof (wstate_mono _ _ _ _ _ (conj Hi2 (conj Hr2 Hs2)) Hw1) as Hw2.
    pose proof (wstate_mono _ _ _ _ _ Hr3 Hw2) as Hw3.
    assert (queued (sh c3) = []) as Hq3.
    { pose proof (srel_trans _ _ _ _ _ _ _ Hs2 (proj2 (proj2 Hr3))) as Hs.
      destruct (sr_acc _ _ _ _ _ Hs) as (new & _ & _ & Hne & Hqn). rewrite Hqn, Hq by done.
      destruct new; [done|]. by destruct Hne as [Hne _]. }
    pose proof Hw3 as [Hi3 Hl3 [Hsp Ha Hh Hrv] _ Hst3]. rewrite Hq3, app_nil_r in Hsp.
    destruct (good_drop_receiver n max quota (hist c3) 0 (led c3) (sh c3) (gi_shared _ _ _ _ _ _ Hi3) eq_refl) as [Hg Hled].
    { pose proof (srel_trans _ _ _ _ _ _ _ Hs2 (proj2 (proj2 Hr3))) as Hs. pose proof (proj1 (sr_senders _ _ _ _ _ Hs)). set_solver. }
    { intros rq Hrq. by apply (wstate_answered _ _ _ _ Hw3). }
    split; [done|]. intros Hgu. cbn [wp]. apply (HQ gs).
    + by eapply gguar_inv.
    + split; [exact (eq_trans (f_equal accepted Hled) Hsp)|done|by destruct Hl3|done|exact Hst3].
    + intros report. destruct closed; congruence.
Qed.

Lemma wp_group_writer fuel self c E :
  wstate [] [] self c -> (total < fuel)%nat ->
  gwp (group_writer fuel self max_batch) (fun r c' => ginv c' /\ exists gs w, r = Wrote w /\ finished gs c' /\
    forall report, w = Ok report -> report = report_of gs) E c.
Proof.
  intros Hw Hfuel. unfold group_writer. apply wp_bind, wp_run_writer; [done|done|].
  intros gs r c' Hi Hf Hr. split; [done|]. by exists gs, r.
Qed.

End writer.
