(* ===== verification/GroupTheorems.v ===== *)
(** * Group commit: the program

    The writer, the producers and other clients of the log as one pool of
    threads: it is safe, it accounts for what it acknowledges, and it ends with
    every accepted request answered. *)

From S2P Require Import Prelude Fmt Utf8 Error Image ImageCodec App Proc Store StoreProps World Core Compactor Writer Protocol Invariant Steps StepsCache StepsStore CoreProps CompactorProps WriterInv InstallProps WriterProps WriterTheorems Scenario System Progress GroupCommit GroupInv GroupProps GroupWriter.

Section program.
Context {S : Type} `{ObjectStoreLaws S}.
Variable P : string.
Variable ns : option string.
Context `{!LogNames P ns}.
Abbreviation gcfg := ((History * Ledger) * (World S * Shared))%type.
Implicit Types (c : gcfg).

(** The handle [wal], opened in [g0] and [w0], and the program around it. *)
Variable g0 : History.
Variable w0 : World S.
Variable wal : WalTier.
Variable cap max : Z.
Variable programs : list (list bytes).
Variable window : Z.
Variable clients : list Client.
Variable max_batch : Z.
Variable fuel : nat.
Variable submitter : Submitter.
Variable shared0 : Shared.

Record ready : Prop := {
  rd_log : inv P ns (g0, w0);
  rd_jobs : w_jobs w0 = [];
  rd_wal : writer_ok P ns wal (g0, w0);
  rd_queue : queue cap max = Some (submitter, shared0);
  rd_batch : 0 < max_batch <= USIZE_MAX;
  rd_fuel : (sum_list (length <$> programs) < fuel)%nat;
  rd_clients : Forall (client_ok P) clients;
  rd_compacts : Forall compacts_never clients;
}.
Hypothesis Hready : ready.

Definition producers : nat := length programs.
Definition allowance (j : nat) : nat := length (nth (j - 1) programs []).
Definition gstart : gcfg := ((g0, mkLedger [] []), (w0, cloned producers shared0)).
Definition gthreads := group_pool (S := S) fuel wal max_batch submitter window programs clients.
Definition gstep := pstep (X := gresult) gsane (grecord P) (fun _ : World S * Shared => None).

Abbreviation ginv := (ginv P ns producers max allowance).
Abbreviation grely := (grely P ns producers max allowance).
Abbreviation gguar := (gguar P ns producers max allowance).
Abbreviation gwp := (wp gsane (grecord P) grely gguar gwaits).

(** What each thread ends with. *)
Definition writer_done (r : gresult) c : Prop := exists gs res, r = Wrote res
  /\ finished P ns max_batch gstart gs c /\ forall report, res = Ok report -> report = report_of gs.
Definition producer_done (j : nat) (r : gresult) c : Prop := (j ∉ senders (sh c)) /\
  ((exists m, r = Crashed m /\ crash_cause max (nth (j - 1) programs []) m (sh c))
   \/ r = Produced /\ rq_entry <$> requests_of (led c) j = nth (j - 1) programs []
      /\ Forall (acked c) (requests_of (led c) j)).
Definition client_done (i : nat) (r : gresult) c : Prop := exists acks, r = Other acks /\ acks_ok P ns i (wcfg gstart) acks (wcfg c).
Definition thread_done (i : nat) (r : gresult) c : Prop := ginv c /\
  if (i =? 0)%nat then writer_done r c else if (i <=? producers)%nat then producer_done i r c else client_done i r c.

Lemma thread_done_mono i r c c' : grely i c c' -> thread_done i r c -> thread_done i r c'.
Proof.
  intros Hr [Hi Hd]. pose proof Hr as (Hi' & Hw & Hs). split; [done|]. revert Hd.
  destruct (Nat.eqb_spec i 0) as [->|Hi0]; [|destruct (i <=? producers)%nat].
  - intros (gs & res & -> & Hf & Hrep). exists gs, res. split_and!; [done| |done]. by eapply finished_mono.
  - intros [Hse Hd]. split; [intros Hin; by apply Hse, (sr_senders _ _ _ _ _ Hs)|].
    rewrite (requests_srel _ _ _ _ _ _ _ _ _ (gi_shared _ _ _ _ _ _ Hi) Hs).
    destruct Hd as [(m & -> & Hm)|(-> & He & Ha)]; [left; exists m; split; [done|]|right].
    { eapply crash_cause_mono; [apply (sr_stopped _ _ _ _ _ Hs)|exact Hm]. }
    split_and!; [done|done|].
    eapply Forall_impl; [exact Ha|]. intros rq. eapply acked_later, grely_later, Hr.
  - intros (acks & -> & Ha). exists acks. split; [done|]. rewrite <- (app_nil_r acks).
    eapply acks_ok_trans; [exact Ha|by apply acks_ok_rely].
Qed.

(** ** The start *)

Lemma total_programs : total producers allowance = sum_list (length <$> programs).
Proof.
  unfold total, allowance, producers. f_equal. apply list_eq. intros i. rewrite !list_lookup_fmap.
  destruct (programs !! i) as [es|] eqn:Ei.
  - rewrite lookup_seq_lt by by eapply lookup_lt_Some. cbn. rewrite Nat.sub_0_r. do 2 f_equal. by apply nth_lookup_Some.
  - by rewrite lookup_seq_ge by by apply lookup_ge_None.
Qed.

Lemma queue_start : 0 < cap /\ sb_max_entry_bytes submitter = max
  /\ sh gstart = mkShared cap [] (list_to_set (seq 1 producers)) true false [].
Proof.
  pose proof (rd_queue Hready) as Hq. unfold queue in Hq. destruct (_ && _) eqn:E; [|done]. apply andb_true_iff in E as [E _]. zbool.
  injection Hq as Hsb Hsh. split; [done|]. split; [by rewrite <- Hsb|]. unfold sh, gstart, cloned. cbn. by rewrite <- Hsh.
Qed.

Lemma ginv_start : ginv gstart.
Proof.
  destruct queue_start as (Hcap & _ & Hsh). split; [apply Hready| |rewrite Hsh].
  - unfold no_jobs, unfinished, waiting. cbn [gstart snd fst]. rewrite (rd_jobs Hready). split; [done|].
    by intros (t & j & Ht & _).
  - split; cbn; [done|by rewrite (@zlen_nil Request); lia|done|constructor|constructor|constructor|done| | | | |done|done|].
    + intros j. cbn. lia.
    + intros j Hj%elem_of_list_to_set%elem_of_seq. lia.
    + intros r x Hx. by rewrite lookup_nil in Hx.
    + by intros rq Hrq%elem_of_nil.
    + intros r e Hx. by rewrite lookup_nil in Hx.
Qed.

Lemma wp_writer_thread : gwp 0 (group_writer fuel wal max_batch) (thread_done 0) no_panic gstart.
Proof.
  pose proof ginv_start as Hi. eapply wp_mono; [|eapply (wp_group_writer P ns producers max allowance max_batch (rd_batch Hready) gstart)].
  - intros r c (Hic & gs & res & Hd). split; [done|]. by exists gs, res.
  - split; [done| | |apply Hready|].
    + split; cbn; [|constructor|done|apply zlen_nonneg|constructor]. apply acks_ok_rely, rely_refl, Hi.
    + split; rewrite ?(proj2 (proj2 queue_start)); [done|constructor|constructor|done].
    + by rewrite (proj2 (proj2 queue_start)).
  - rewrite total_programs. apply Hready.
Qed.

Lemma wp_drop_sender j rqs c (Q : unit -> gcfg -> Prop) E : (1 <= j <= producers)%nat ->
  prod P ns producers max allowance j rqs c ->
  (forall c', later P ns producers max allowance c c' -> (j ∉ senders (sh c')) -> requests_of (led c') j = rqs -> Q tt c') ->
  gwp j (drop_sender j) Q E c.
Proof.
  intros Hj Hp HQ. apply wp_shared. intros c1 s' r Hr Hf. injection Hf as <- <-.
  apply (prod_mono _ _ _ _ _ _ _ _ _ Hr) in Hp as (Hi1 & Hin & Hreq).
  destruct (good_drop_sender producers max allowance (hist c1) j (led c1) (sh c1) (gi_shared _ _ _ _ _ _ Hi1)) as [Hg Hl]; [lia|].
  split; [done|]. intros Hgu. set (c2 := upd j c1 _) in *. assert (led c2 = led c1) as Hl2 by exact Hl.
  apply HQ; [eapply later_trans; [by eapply grely_later|by eapply gguar_later]| |by rewrite Hl2].
  intros Hin2. change (senders (sh c2)) with (senders (sh c1) ∖ {[j]}) in Hin2. set_solver.
Qed.

Lemma wp_producer_thread j es : (1 <= j <= producers)%nat -> nth (j - 1) programs [] = es ->
  gwp j (producer_thread (mkSubmitter j max) window es) (thread_done j) no_panic gstart.
Proof.
  intros Hj He. assert (prod P ns producers max allowance j [] gstart) as Hp.
  { split; [apply ginv_start|]. split; [|done]. rewrite (proj2 (proj2 queue_start)). apply elem_of_list_to_set, elem_of_seq. lia. }
  assert (forall r c, ginv c -> producer_done j r c -> thread_done j r c) as Hdone.
  { intros r c Hi Hd. split; [done|]. destruct (Nat.eqb_spec j 0) as [|_]; [lia|].
    by destruct (Nat.leb_spec j producers); [|lia]. }
  unfold producer_thread. apply (wp_on_panic _ _ _ _ _ _ _ _ _ (panics P ns producers max allowance j es)).
  - intros m c [[rqs Hc] Hm]. apply wp_bind, (wp_drop_sender j rqs); [done..|]. intros c' Hl Hse _.
    apply Hdone; [apply Hl|]. split; [done|]. left. exists m. split; [done|]. rewrite He.
    eapply crash_cause_mono; [apply Hl|exact Hm].
  - apply wp_bind, (wp_produce P ns producers max allowance j Hj es _ window es [] [] gstart); [done|by split|done| |done|].
    + unfold allowance. by rewrite He.
    + intros c more Hc Hes Ha. cbn [app] in *. apply wp_bind, (wp_drop_sender j more); [done..|]. intros c' Hl Hse Hreq.
      apply Hdone; [apply Hl|]. split; [done|]. right. rewrite Hreq, He. split_and!; [done..|].
      eapply Forall_impl; [exact Ha|]. intros rq. by eapply acked_later.
Qed.

Lemma wp_client_thread i cl : (producers < i)%nat -> client_ok P cl -> compacts_never cl ->
  gwp i (other_client cl) (thread_done i) no_panic gstart.
Proof.
  intros Hlt Hok Hc. pose proof ginv_start as Hi. unfold other_client. apply wp_bind.
  eapply (wp_lift P ns producers max allowance i _ (acks_ok P ns i (wcfg gstart)) _ _ gstart gstart).
  - apply (wp_client P ns); [apply Hi|done|done].
  - by apply calm_client.
  - by apply grely_refl.
  - intros acks c Hic _ Ha. split; [done|]. destruct (Nat.eqb_spec i 0) as [|_]; [lia|].
    destruct (Nat.leb_spec i producers); [lia|]. by exists acks.
Qed.

Abbreviation gpool_ok := (pool_ok gsane (grecord P) ginv grely gguar gwaits thread_done 0).

Lemma start_ok : gpool_ok (gstart, gthreads).
Proof.
  split; [apply ginv_start|]. split; [cbn; lia|]. cbn [fst snd]. intros i p Hp. exists gstart.
  split; [|apply grely_refl, ginv_start]. unfold gthreads, group_pool in Hp. destruct i as [|i]; cbn [lookup list_lookup] in Hp.
  { injection Hp as <-. apply wp_writer_thread. }
  destruct queue_start as (_ & Hmax & _).
  apply lookup_app_Some in Hp as [Hp|[Hle Hp]].
  - apply lookup_zip_with_Some in Hp as (sb & es & -> & Hsb & Hes). unfold submitters in Hsb.
    apply list_lookup_fmap_Some in Hsb as (j & -> & Hj). apply lookup_seq in Hj as [-> Hlt]. rewrite Hmax.
    apply wp_producer_thread; [unfold producers; lia|]. cbn. rewrite Nat.sub_0_r. by apply nth_lookup_Some.
  - apply list_lookup_fmap_Some in Hp as (cl & -> & Hcl). rewrite length_zip_with in Hle.
    unfold submitters in Hle. rewrite length_fmap, length_seq in Hle.
    apply wp_client_thread; [unfold producers; lia|by eapply Forall_lookup_1; [apply Hready|]..].
Qed.

Lemma reached_ok c ps : rtc gstep (gstart, gthreads) (c, ps) -> gpool_ok (c, ps).
Proof.
  intros Hrun. eapply (pool_sound gsane (grecord P) ginv grely gguar gwaits (fun _ => None)); [..|exact Hrun|apply start_ok].
  - intros. by apply grely_refl.
  - intros. by eapply grely_trans.
  - intros. by eapply gguar_inv.
  - intros. by eapply gguar_rely.
  - done.
Qed.

Lemma reached_done c ps i r : rtc gstep (gstart, gthreads) (c, ps) -> ps !! i = Some (Ret r) -> thread_done i r c.
Proof.
  intros Hrun Hi. destruct (reached_ok _ _ Hrun) as (_ & _ & Hall). destruct (Hall i _ Hi) as (c1 & Hd & Hr).
  by eapply thread_done_mono.
Qed.

(** ** What the program guarantees *)

Lemma gstep_guar s s' : gstep s s' -> gpool_ok s -> length s'.2 = length s.2 /\ capacity (sh s'.1) = capacity (sh s.1).
Proof.
  intros Hstep Hok. pose proof Hok as (_ & _ & Hall). destruct Hstep as [i R f k c ps w2 r Hi Hf Hs|c ps w2 p Hsp _]; [|done].
  cbn [fst snd] in *. split; [apply length_insert|]. destruct (Hall i _ Hi) as (c1 & Hwp & Hr).
  specialize (Hwp c Hr). rewrite Hf in Hwp. destruct (Hwp Hs) as [(_ & _ & Hg) _].
  apply (sr_cap _ _ _ _ _ (Hg (Datatypes.S i) ltac:(lia))).
Qed.

Lemma reached_length c ps : rtc gstep (gstart, gthreads) (c, ps) ->
  length ps = Datatypes.S (producers + length clients) /\ capacity (sh c) = cap.
Proof.
  intros Hrun. assert (forall s s', rtc gstep s s' -> gpool_ok s ->
    length s'.2 = length s.2 /\ capacity (sh s'.1) = capacity (sh s.1)) as Hinv.
  { induction 1 as [s|s1 s2 s3 Hstep _ IH]; [done|]. intros Hok.
    destruct (gstep_guar _ _ Hstep Hok) as [<- <-]. apply IH.
    eapply (pstep_ok gsane (grecord P) ginv grely gguar gwaits (fun _ => None)); [..|exact Hstep|exact Hok].
    - intros. by apply grely_refl.
    - intros. by eapply grely_trans.
    - intros. by eapply gguar_inv.
    - intros. by eapply gguar_rely.
    - done. }
  destruct (Hinv _ _ Hrun start_ok) as [Hl Hc]. cbn [fst snd] in *. rewrite Hl, Hc.
  split; [|by rewrite (proj2 (proj2 queue_start))]. unfold gthreads, group_pool, producers, submitters. cbn [length].
  rewrite length_app, length_zip_with, !length_fmap, length_seq. lia.
Qed.

(** A thread that can act. *)
Definition acts c (p : proc (World S * Shared) gresult) : Prop :=
  match p with Act f k => is_Some (f c.2) | _ => False end.
#[local] Instance acts_dec c p : Decision (acts c p).
Proof. destruct p; cbn; apply _. Defined.

(** Some thread can act. *)
Definition active (ps : list (proc (World S * Shared) gresult)) c : Prop :=
  exists i R (f : World S * Shared -> option ((World S * Shared) * R)) k, ps !! i = Some (Act f k) /\ is_Some (f c.2).

(** A thread that cannot act has returned or waits. *)
Lemma idle_waits ps c i p : gpool_ok (c, ps) -> ~ Exists (acts c) ps -> ps !! i = Some p ->
  (exists r, p = Ret r) \/ gwaits i c.
Proof.
  intros Hok Hidle Hp. destruct p as [r|R f k|m]; [by left; eexists| |].
  - right. eapply (pool_ok_waits gsane (grecord P) ginv grely gguar gwaits thread_done 0 (c, ps)); [exact Hok|exact Hp|].
    destruct (f c.2) as [x|] eqn:Ef; [|done]. destruct Hidle. apply Exists_exists. exists (Act f k). split; [by eapply list_elem_of_lookup_2|]. cbn. by rewrite Ef.
  - destruct Hok as (_ & _ & Hall). by destruct (Hall i _ Hp) as (c1 & Hwp & _).
Qed.

(** The writer does not wait for ever: a producer it waits for can act. *)
Lemma idle_writer_returned c ps : rtc gstep (gstart, gthreads) (c, ps) -> ~ Exists (acts c) ps ->
  exists r, ps !! 0%nat = Some (Ret r).
Proof.
  intros Hrun Hidle. pose proof (reached_ok _ _ Hrun) as Hok. destruct (reached_length _ _ Hrun) as [Hlen _].
  destruct (lookup_lt_is_Some_2 ps 0) as [p Hp]; [lia|].
  destruct (idle_waits _ _ _ _ Hok Hidle Hp) as [[r ->]|(Hq & Hse & Hans)]; [by exists r|]. exfalso.
  apply set_choose_L in Hse as [j Hj]. destruct Hok as (Hi & _). pose proof (reached_ok _ _ Hrun) as Hok.
  pose proof (si_senders _ _ _ _ _ _ (gi_shared _ _ _ _ _ _ Hi) j Hj) as Hn.
  destruct (lookup_lt_is_Some_2 ps j) as [q Hqj]; [lia|].
  destruct (idle_waits _ _ _ _ Hok Hidle Hqj) as [[r ->]|Hwait].
  - destruct (reached_done _ _ _ _ Hrun Hqj) as [_ Hd]. destruct (Nat.eqb_spec j 0) as [|_]; [lia|].
    destruct (Nat.leb_spec j producers); [|lia]. by destruct Hd as [Hd _].
  - destruct j as [|j]; [lia|]. destruct Hwait as [_ [Hne|(rq & Hrq & He)]]; [done|].
    destruct (Hans rq Hrq) as [m Hm]. congruence.
Qed.

Lemma sum_payload (q : list Request) m : Forall (fun rq => zlen (rq_entry rq) <= m) q ->
  foldr (fun rq s => zlen (rq_entry rq) + s) 0 q <= zlen q * m.
Proof. induction 1 as [|rq q Hrq _ IH]; [done|]. cbn [foldr]. rewrite zlen_cons. lia. Qed.

(** A finished writer that has stopped has answered some request with an error. *)
Lemma finished_failed gs c : finished P ns max_batch gstart gs c -> stopped (sh c) = true ->
  exists rq e, rq ∈ accepted (led c) /\ receipts (sh c) !! rq_result rq = Some [Err e].
Proof.
  intros [Hsp Ha Hl _ Hst] Hs. rewrite Hst in Hs. unfold failed_in in Hs. apply existsb_exists in Hs as (g & Hg%list_elem_of_In & Hf).
  destruct g as [rqs [fp|e]]; [done|]. pose proof (wl_sizes _ _ _ _ _ _ Hl) as Hz. rewrite Forall_forall in Hz, Ha.
  specialize (Hz _ Hg). specialize (Ha _ Hg). cbn [fst snd] in *. destruct rqs as [|rq rqs]; [rewrite (@zlen_nil Request) in Hz; lia|].
  exists rq, e. split; [|exact (Ha 0%nat rq eq_refl)]. rewrite Hsp. apply list_elem_of_In, in_concat. exists (rq :: rqs).
  split; [|by left]. apply list_elem_of_In, list_elem_of_fmap. by exists (rq :: rqs, Err e).
Qed.

(** C12. Group commit is safe. Whatever the interleaving of the writer, any
    number of producers and other clients of the log, and whatever errors the
    store reports: no thread panics but a producer, and a producer only for a
    cause: one of its own entries exceeds the limit, with the message that says
    so, or the writer has set [stopped], which refuses entries and answers
    requests with errors; and once the writer has returned, [stopped] means that
    some accepted request was answered with an error. The channel holds at most
    [cap] requests, whose payload is at most [cap] times [max] bytes; every
    accepted request has received no reply or exactly one, and a reply with an
    LSN means that the history of the log holds the entry there. A producer
    that ended normally has had all its entries accepted, in order and once,
    and acknowledged. *)
Theorem group_commit_is_safe c ps : rtc gstep (gstart, gthreads) (c, ps) ->
  zlen (queued (sh c)) <= cap
  /\ foldr (fun rq s => zlen (rq_entry rq) + s) 0 (queued (sh c)) <= cap * max
  /\ (forall i p m, ps !! i = Some p -> p <> Panic m)
  /\ (forall i m, ps !! i = Some (Ret (Crashed m)) -> exists j es, i = Datatypes.S j /\ programs !! j = Some es
        /\ ((exists e, e ∈ es /\ max < zlen e /\ m = SubmissionError_display (mkSubmissionError e "entry too large"))
            \/ stopped (sh c) = true
               /\ (m = UNWRAP \/ exists e, e ∈ es /\ m = SubmissionError_display (mkSubmissionError e "writer stopped"))))
  /\ (forall r, ps !! 0%nat = Some (Ret r) -> stopped (sh c) = true ->
        exists rq e, rq ∈ accepted (led c) /\ receipts (sh c) !! rq_result rq = Some [Err e])
  /\ (forall rq, rq ∈ accepted (led c) -> receipts (sh c) !! rq_result rq = Some []
        \/ exists m, receipts (sh c) !! rq_result rq = Some [m] /\ truthful (hist c) rq m)
  /\ (forall j es, programs !! j = Some es -> ps !! Datatypes.S j = Some (Ret Produced) ->
        rq_entry <$> requests_of (led c) (Datatypes.S j) = es /\ Forall (acked c) (requests_of (led c) (Datatypes.S j))).
Proof.
  intros Hrun. destruct (reached_ok _ _ Hrun) as (Hi & _ & Hall). cbn [fst snd] in *.
  destruct queue_start as (Hcap & _ & Hsh0).
  pose proof (gi_shared _ _ _ _ _ _ Hi) as Hs. pose proof (proj2 (reached_length _ _ Hrun)) as Hc.
  pose proof (si_cap _ _ _ _ _ _ Hs) as Hq. rewrite Hc in Hq. split_and!.
  - done.
  - pose proof (zlen_nonneg (queued (sh c))).
    assert (Forall (fun rq => zlen (rq_entry rq) <= max) (queued (sh c))) as Hsz.
    { destruct (si_queue _ _ _ _ _ _ Hs) as [x Hx]. pose proof (si_sizes _ _ _ _ _ _ Hs) as Hsz.
      rewrite Hx in Hsz. by apply Forall_app in Hsz as [_ ?]. }
    pose proof (sum_payload _ _ Hsz). pose proof (rd_queue Hready) as Hqu. unfold queue in Hqu.
    destruct (_ && _) eqn:E; [|done]. apply andb_true_iff in E as [_ E]. zbool. nia.
  - intros i p m Hp ->. by destruct (Hall i _ Hp) as (c1 & Hwp & _).
  - intros i m Hp. destruct (reached_done _ _ _ _ Hrun Hp) as [_ Hd].
    destruct (Nat.eqb_spec i 0) as [->|Hi0]; [by destruct Hd as (gs & res & ? & _)|].
    destruct (Nat.leb_spec i producers); [|by destruct Hd as (acks & ? & _)].
    destruct Hd as [_ [(m' & [= <-] & Hm)|(? & _)]]; [|done]. destruct i as [|j]; [done|]. cbn [Nat.sub] in Hm. rewrite Nat.sub_0_r in Hm.
    destruct (lookup_lt_is_Some_2 programs j) as [es Hes]; [unfold producers in *; lia|].
    exists j, es. split_and!; [done|done|]. by rewrite (nth_lookup_Some _ _ _ _ Hes) in Hm.
  - intros r Hp Hst. destruct (reached_done _ _ _ _ Hrun Hp) as [_ (gs & res & _ & Hf & _)]. by eapply finished_failed.
  - intros rq Hin. destruct (lookup_lt_is_Some_2 (receipts (sh c)) (rq_result rq)) as [x Hx].
    { rewrite <- (si_len _ _ _ _ _ _ Hs). by eapply id_lt. }
    destruct (si_once _ _ _ _ _ _ Hs _ _ Hx) as [->|(rq' & m & Hin' & He & -> & Ht)]; [by left|]. right.
    exists m. split; [done|]. by rewrite <- (request_inj _ _ _ _ _ _ _ _ Hs Hin' Hin He).
  - intros j es Hj Hp. destruct (reached_done _ _ _ _ Hrun Hp) as [_ Hd]. cbn [Nat.eqb] in Hd.
    assert (j < producers)%nat as Hlt by by eapply lookup_lt_Some.
    destruct (Nat.leb_spec (Datatypes.S j) producers); [|lia]. destruct Hd as [_ [(m & Hm & _)|(_ & He & Ha)]]; [done|].
    cbn [Nat.sub] in He. rewrite Nat.sub_0_r in He. split; [|done]. rewrite He. by apply nth_lookup_Some.
Qed.

(** C13. Group commit accounts for every request. When the writer has returned,
    the requests the channel ever accepted are exactly the requests of its
    groups, in order; a group has one batch result, from which the replies of
    all its requests are computed: consecutive LSNs in submission order, or
    the same error. The groups up to and including the first failure are the
    batches that the writer appended, and they account for all it committed;
    all later ones were answered [NotApplied] without being appended, so an
    uncertain batch is never retried. The LSNs of successive groups ascend,
    no group exceeds [max_batch], and the report counts the acknowledged
    entries, the commits and the failed entries. *)
Theorem group_commit_accounts c ps r : rtc gstep (gstart, gthreads) (c, ps) -> ps !! 0%nat = Some (Ret r) ->
  exists gs res, r = Wrote res
    /\ accepted (led c) = concat gs.*1
    /\ Forall (fun g : group => forall k rq, g.1 !! k = Some rq ->
          receipts (sh c) !! rq_result rq = Some [reply_of g.2 k]) gs
    /\ (exists bs, accounted (hist c) (acks_of gs) bs /\ mine 0 c.1.1 = mine 0 g0 ++ bs)
    /\ Forall (fun g : group => g.2 = Err (stopped_error (entries_of g.1))) (rejected gs)
    /\ ascending 0 gs
    /\ Forall (fun g : group => 1 <= zlen g.1 <= max_batch) gs
    /\ (forall report, res = Ok report -> report = report_of gs).
Proof.
  intros Hrun Hp. destruct (reached_done _ _ _ _ Hrun Hp) as [_ (gs & res & -> & [Hsp Ha Hl _ _] & Hrep)].
  exists gs, res. destruct Hl as [(_ & _ & Hb) Hrej Hasc _ Hsz]. by split_and!.
Qed.

(** C14. Group commit ends. Every schedule of the program is finite, and it
    ends only when every thread has returned and every request the channel
    accepted has its reply: the writer, blocked for requests, and the
    producers, blocked for room and for receipts, never wait for each other,
    also when an append fails or a producer panics. *)
Theorem group_commit_terminates :
  Acc (flip gstep) (gstart, gthreads)
  /\ forall c ps, rtc gstep (gstart, gthreads) (c, ps) -> Exists (acts c) ps
     \/ ((forall i p, ps !! i = Some p -> exists r, p = Ret r)
         /\ forall rq, rq ∈ accepted (led c) -> answered (sh c) rq).
Proof.
  split; [by apply pool_terminates|]. intros c ps Hrun. pose proof (reached_ok _ _ Hrun) as Hok.
  destruct (decide (Exists (acts c) ps)) as [Hact|Hidle]; [by left|right].
  pose proof (idle_writer_returned _ _ Hrun Hidle) as [r Hw].
  destruct (reached_done _ _ _ _ Hrun Hw) as [Hi (gs & res & _ & [_ _ _ Hrv _] & _)]. split.
  - intros i p Hp. destruct (idle_waits _ _ _ _ Hok Hidle Hp) as [?|Hwait]; [done|].
    destruct i as [|i]; [by eexists; rewrite Hw in Hp; injection Hp|]. destruct Hwait. congruence.
  - by apply (si_closed _ _ _ _ _ _ (gi_shared _ _ _ _ _ _ Hi)).
Qed.

End program.

(** ** A concrete program

    Two producers and [main], a replica, and a channel of capacity 2 with
    groups of up to two requests. [gtick i] lets thread [i] act if it can. *)
Abbreviation gmpool := (((History * Ledger) * (World MemoryStore * Shared)) * list (proc (World MemoryStore * Shared) gresult))%type.

Definition gtick (s : gmpool) (i : nat) : gmpool :=
  match s.2 !! i with
  | Some (Act f k) =>
      match f s.1.2 with
      | Some (w2, r) => if sane_b w2.1 then (after (grecord "") i s.1 w2, <[i := k r]> s.2) else s
      | None => s
      end
  | _ => s
  end.

Lemma gtick_steps s i : rtc (gstep "") s (gtick s i).
Proof.
  destruct s as [c ps]. unfold gtick. cbn [fst snd]. destruct (ps !! i) as [[a|R f k|m]|] eqn:Ei; try reflexivity.
  destruct (f c.2) as [[w2 r]|] eqn:Ef; [|reflexivity]. destruct (sane_b w2.1) eqn:Es; [|reflexivity].
  apply rtc_once. eapply pstep_act; [done|done|by apply sane_b_spec].
Qed.

Lemma gticks_steps l s : rtc (gstep "") s (foldl gtick s l).
Proof. revert s. induction l as [|i l IH]; intros s; cbn; [reflexivity|]. etransitivity; [apply gtick_steps|apply IH]. Qed.

Definition gopened : mcfg * WalTier := open_run 0 Options_default start0.
Definition gprograms : list (list bytes) := [[]; [as_bytes "a"; as_bytes "bb"]; [as_bytes "c"]].
Definition gclients : list Client := [Follows Options_default 2].
Definition gsubmitter : Submitter := mkSubmitter 0 4.
Definition gshared : Shared := mkShared 2 [] {[0%nat]} true false [].
Definition gpool0 : gmpool :=
  (gstart gopened.1.1 gopened.1.2 gprograms gshared, gthreads gopened.2 gprograms 1 gclients 2 4 gsubmitter).
Definition gend : gmpool := foldl gtick gpool0 (concat (repeat [1; 2; 3; 4; 0]%nat 40)).

Lemma gready : ready "" ns0 gopened.1.1 gopened.1.2 gopened.2 2 4 gprograms gclients 2 4 gsubmitter gshared.
Proof.
  destruct (open_run_exec 0 Options_default start0 inv0 opts0_typed) as (_ & (Hi & _) & Hok); [by vm_compute|].
  assert (forall c : mcfg, (c.1, c.2) = c) as Hpair by by intros [].
  split; [by rewrite Hpair|by vm_compute|by rewrite Hpair|reflexivity|by vm_compute|vm_compute; lia| |].
  - constructor; [|done]. split; [exact opts0_typed|constructor].
  - by constructor.
Qed.

Definition gended (p : option (proc (World MemoryStore * Shared) gresult)) : option gresult :=
  match p with Some (Ret r) => Some r | _ => None end.

Lemma gended_Some p r : gended p = Some r -> p = Some (Ret r).
Proof. destruct p as [[a|R f k|m]|]; cbn; congruence. Qed.

Lemma gend_steps : rtc (gstep "") gpool0 (gend.1, gend.2).
Proof. unfold gend. generalize (concat (repeat [1; 2; 3; 4; 0]%nat 40)). intros l. pose proof (gticks_steps l gpool0). by destruct (foldl _ _ _). Qed.

Lemma group_commit_is_safe_witness :
  gended (gend.2 !! 2%nat) = Some Produced
  /\ (rq_entry <$> accepted (led gend.1)) = [as_bytes "a"; as_bytes "c"; as_bytes "bb"]
  /\ rq_entry <$> requests_of (led gend.1) 2 = [as_bytes "a"; as_bytes "bb"]
  /\ Forall (acked gend.1) (requests_of (led gend.1) 2).
Proof.
  assert (gended (gend.2 !! 2%nat) = Some Produced) as He by (vm_compute; reflexivity).
  split; [exact He|]. split; [vm_compute; reflexivity|].
  destruct (group_commit_is_safe "" ns0 gopened.1.1 gopened.1.2 gopened.2 2 4 gprograms 1 gclients 2 4 gsubmitter gshared
    gready gend.1 gend.2 gend_steps) as (_ & _ & _ & _ & _ & _ & Hp).
  exact (Hp 1%nat [as_bytes "a"; as_bytes "bb"] eq_refl (gended_Some _ _ He)).
Defined.

Lemma group_commit_accounts_witness :
  gended (gend.2 !! 0%nat) = Some (Wrote (Ok (mkReport 3 2 0)))
  /\ exists gs : list group, accepted (led gend.1) = concat gs.*1 /\ report_of gs = mkReport 3 2 0.
Proof.
  assert (gended (gend.2 !! 0%nat) = Some (Wrote (Ok (mkReport 3 2 0)))) as He by (vm_compute; reflexivity).
  split; [exact He|].
  destruct (group_commit_accounts "" ns0 gopened.1.1 gopened.1.2 gopened.2 2 4 gprograms 1 gclients 2 4 gsubmitter gshared
    gready gend.1 gend.2 _ gend_steps (gended_Some _ _ He)) as (gs & res & Hr & Hsp & _ & _ & _ & _ & _ & Hrep).
  exists gs. split; [exact Hsp|]. injection Hr as <-. symmetry. exact (Hrep _ eq_refl).
Defined.

(** No thread of the concrete program can act any more. *)
Definition acts_b (w : World MemoryStore * Shared) (p : proc (World MemoryStore * Shared) gresult) : bool :=
  match p with Act f k => match f w with Some _ => true | None => false end | _ => false end.

Lemma idle_spec c ps : forallb (fun p => negb (acts_b c.2 p)) ps = true -> ~ Exists (acts c) ps.
Proof.
  intros Hb (p & Hp & Ha)%Exists_exists. rewrite forallb_forall in Hb. specialize (Hb p (proj1 (list_elem_of_In _ _) Hp)).
  destruct p as [a|R f k|m]; cbn in *; try done. by destruct (f c.2); [|destruct Ha].
Qed.

Lemma gend_idle : ~ Exists (acts gend.1) gend.2.
Proof. apply idle_spec. vm_compute. reflexivity. Qed.

Lemma group_commit_terminates_witness :
  ~ Exists (acts gend.1) gend.2 /\ Acc (flip (gstep "")) gpool0
  /\ forall rq, rq ∈ accepted (led gend.1) -> answered (sh gend.1) rq.
Proof.
  split; [exact gend_idle|].
  destruct (group_commit_terminates "" ns0 gopened.1.1 gopened.1.2 gopened.2 2 4 gprograms 1 gclients 2 4 gsubmitter gshared
    gready) as [Hacc Hend].
  split; [exact Hacc|].
  destruct (Hend gend.1 gend.2 gend_steps) as [Ha|Hans]; [destruct (gend_idle Ha)|exact (proj2 Hans)].
Defined.
