(* ===== verification/ReplicaProps.v ===== *)
(** * The replica only reads

    [reads p] says that no action of [p] changes the objects of the store or
    creates a compaction thread, in any world; the operations of [Replica]
    are such code. *)

From S2P Require Import Prelude Fmt Utf8 Error Image App Proc Atomic Cache Store World Core Compactor Writer Protocol Invariant Steps System.

Section reads.
Context {S : Type} `{ObjectStoreLaws S} `{WalApp}.
Abbreviation World := (World S).
Abbreviation proc := (proc World).
Implicit Types w : World.

(** From [w] to [w'] the objects and the threads are the same. *)
Definition untouched w w' : Prop :=
  contents (w_store w') = contents (w_store w) /\ store_wf (w_store w') /\ w_jobs w' = w_jobs w.

Fixpoint reads {A} (p : proc A) : Prop :=
  match p with
  | Act f k => forall w, store_wf (w_store w) ->
      match f w with
      | None => False
      | Some (w', r) => store_sane (w_store w') -> untouched w w' /\ reads (k r)
      end
  | _ => True
  end.

Lemma reads_bind {A B} (p : proc A) (k : A -> proc B) : reads p -> (forall a, reads (k a)) -> reads (bind p k).
Proof.
  intros Hp Hk. induction p as [a|R f k' IH|m]; cbn in *; [done| |done]. intros w Hw. specialize (Hp w Hw).
  destruct (f w) as [[w' r]|]; [|done]. intros Hs. destruct (Hp Hs). auto.
Qed.

Lemma reads_get k : reads (request (get k)).
Proof.
  intros w Hw. cbn. destruct (get k (w_store w)) as [s r] eqn:Eg. cbn. intros Hs.
  destruct (get_law k _ _ _ Eg Hw Hs) as ((_ & Hwf & _) & Hc & _). by split.
Qed.

Lemma reads_get_if_changed k e : reads (request (get_if_changed k e)).
Proof.
  intros w Hw. cbn. destruct (get_if_changed k e (w_store w)) as [s r] eqn:Eg. cbn. intros Hs.
  destruct (get_if_changed_law k e _ _ _ Eg Hw Hs) as ((_ & Hwf & _) & Hc & _). by split.
Qed.

Lemma reads_read {R} (f : S -> R) : reads (request (fun s => (s, f s))).
Proof. intros w Hw. cbn. intros _. by split. Qed.
Lemma reads_on_fs {R} (f : Fs -> Fs * R) : reads (on_fs f).
Proof. intros w Hw. cbn. destruct (f (w_fs w)) as [s r]. cbn. intros _. by split. Qed.
Lemma reads_on_fs_ f : reads (on_fs_ f).
Proof. intros w Hw. cbn. intros _. by split. Qed.

(** Whatever others do to a well-formed store, each action of such code leaves
    it alone. *)
Lemma reads_wp record i {A} (p : proc A) Q E (c : History * World) :
  reads p -> (forall a c, Q a c : Prop) -> (forall m c, E m c : Prop) ->
  wp sane_world record (fun _ _ c' => store_wf (w_store c'.2)) (fun _ c c' => untouched c.2 c'.2) (fun _ _ => False) i p Q E c.
Proof.
  intros Hp HQ HE. revert c. induction p as [a|R f k IH|m]; intros c; cbn in *; [done| |done].
  intros c1 Hw. specialize (Hp c1.2 Hw). destruct (f c1.2) as [[w' r]|]; [|done].
  intros Hs. destruct (Hp Hs). split; [done|]. by apply IH.
Qed.

End reads.

Create HintDb reads discriminated.
#[export] Hint Resolve reads_get reads_get_if_changed reads_read reads_on_fs reads_on_fs_ : reads.

Ltac read_walk := repeat (intros; cbn zeta;
  first
    [ exact I
    | solve [auto with reads nocore]
    | apply reads_bind
    | match goal with |- context [match ?x with _ => _ end] => destruct x end ]).

Section replica.
Context {S : Type} `{ObjectStoreLaws S} `{WalApp}.
Abbreviation proc := (proc (World S)).

Lemma reads_fetch_snapshot c k max : reads (fetch_snapshot c k max : proc _).
Proof. unfold fetch_snapshot. read_walk. Qed.
Lemma reads_record_image_put e d co : reads (record_image_put e d co : proc _).
Proof. unfold record_image_put. read_walk. Qed.
Lemma reads_checkpoint_cache co : reads (checkpoint_cache co : proc _).
Proof. unfold checkpoint_cache. read_walk. Qed.
Lemma reads_sweep_cache keep entries : reads (sweep_cache keep entries : proc _).
Proof. induction entries; cbn [sweep_cache]; read_walk. Qed.
#[local] Hint Resolve reads_sweep_cache : reads.
Lemma reads_retain_cache c keep : reads (retain_cache c keep : proc _).
Proof. unfold retain_cache. read_walk. Qed.
#[local] Hint Resolve reads_fetch_snapshot reads_record_image_put reads_checkpoint_cache reads_retain_cache : reads.

Lemma reads_open_loop n o c cached m : reads (open_loop n o c cached false m : proc _).
Proof.
  revert m. induction n as [|n IH]; intros m; cbn [open_loop]; [done|].
  unfold open_stored, open_finish. read_walk.
Qed.
#[local] Hint Resolve reads_open_loop : reads.
Lemma reads_open o : reads (Replica_open o : proc _).
Proof. unfold Replica_open, Core_open. read_walk. Qed.

Lemma reads_refresh_loop n m co : reads (refresh_loop n m co : proc _).
Proof. revert m. induction n as [|n IH]; intros m; cbn [refresh_loop]; [done|]. unfold refresh_changed, adopt. read_walk. Qed.
#[local] Hint Resolve reads_refresh_loop : reads.
Lemma reads_refresh self : reads (Replica_refresh self : proc _).
Proof. unfold Replica_refresh, Core_refresh. read_walk. Qed.
#[local] Hint Resolve reads_open reads_refresh : reads.

Lemma reads_polls n self : reads (polls n self : proc _).
Proof. revert self. induction n as [|n IH]; intros self; cbn [polls]; unfold Replica_checkpoint_cache; read_walk. Qed.
#[local] Hint Resolve reads_polls : reads.

(** C20. A replica never writes. Opened on any options, whether or not the log
    exists, and refreshed any number of times, among any other users of the
    store, a replica performs no action that changes an object, creates a
    compaction thread or blocks; it touches nothing but its cache. *)
Theorem replica_never_writes record i o n (c : History * World S) :
  reads (Replica_open o : proc _)
  /\ (forall self, reads (Replica_refresh self : proc _) /\ reads (Replica_checkpoint_cache self : proc _))
  /\ wp sane_world record (fun _ _ c' => store_wf (w_store c'.2)) (fun _ c c' => untouched c.2 c'.2) (fun _ _ => False)
       i (replica_thread o n) (fun _ _ => True) (fun _ _ => True) c.
Proof.
  split; [apply reads_open|]. split.
  - intros self. split; [apply reads_refresh|]. unfold Replica_checkpoint_cache. read_walk.
  - apply reads_wp; [|done..]. unfold replica_thread. read_walk.
Qed.

End replica.
