(* ===== verification/MaintenanceProps.v ===== *)
(** * Maintenance: the compaction state machine and the write budget

    [rets p Q] says that [p] returns only values in [Q], whatever the actions
    answer. [op_moves] is the contract of each operation of a writer with the
    compaction: where it may leave it, when it may start a thread, and that no
    snapshot object the handle knows is forgotten; a failure stays until the
    caller acknowledges it or starts new work. *)

From S2P Require Import Prelude Fmt Utf8 Error Image App CountApp Proc Atomic Cache Store StoreProps World Core Compactor Writer Protocol Invariant Steps WriterInv Scenario System.

Section rets.
Context {W : Type}.

Fixpoint rets {A} (p : proc W A) (Q : A -> Prop) : Prop :=
  match p with
  | Ret a => Q a
  | Act f k => forall r, rets (k r) Q
  | Panic _ => True
  end.

Lemma rets_bind {A B} (p : proc W A) (k : A -> proc W B) Q : rets p (fun a => rets (k a) Q) -> rets (bind p k) Q.
Proof. induction p as [a|R f k' IH|m]; cbn; auto. Qed.

Lemma rets_mono {A} (p : proc W A) (Q Q' : A -> Prop) : rets p Q -> (forall a, Q a -> Q' a) -> rets p Q'.
Proof. intros Hp HQ. induction p as [a|R f k IH|m]; cbn in *; auto. Qed.

Lemma rets_any {A} (p : proc W A) : rets p (fun _ => True).
Proof. induction p; cbn; auto. Qed.

(** A step that is only asked to return something. *)
Lemma rets_seq {A B} (p : proc W A) (k : A -> proc W B) (R : A -> Prop) Q :
  rets p R -> (forall a, R a -> rets (k a) Q) -> rets (bind p k) Q.
Proof. intros Hp Hk. apply rets_bind. by eapply rets_mono. Qed.

Lemma rets_skip {A B} (p : proc W A) (k : A -> proc W B) Q : (forall a, rets (k a) Q) -> rets (bind p k) Q.
Proof. intros Hk. apply (rets_seq _ _ (fun _ => True)); [apply rets_any|auto]. Qed.

(** An execution returns such a value. *)
Lemma rets_exec {A} (p : proc W A) Q {G} sane (record : nat -> G -> W -> W -> G) rely i c a c' :
  rets p Q -> exec sane record rely i p c (Returned a) c' -> Q a.
Proof.
  intros Hp He. remember (Returned a) as out eqn:Eo. induction He as [a' c|m c|R f k c c1 w2 r out c' _ _ _ _ IH]; [|done|].
  - by injection Eo as ->.
  - by apply IH.
Qed.

End rets.

(** ** The state machine *)

Definition at_rest (cm : Compaction) : Prop := match cm with Running _ | Ready _ => False | _ => True end.

(** What can become of a compaction that nobody starts or acknowledges. A rest
    and a failure stay, a ready fold waits or ends installed or superseded, and
    a running thread goes on or has one of those outcomes. *)
Inductive settles : Compaction -> Compaction -> Prop :=
  | settles_same cm : settles cm cm
  | settles_installed f : settles (Ready f) Installed
  | settles_superseded f : settles (Ready f) Superseded
  | settles_ready t f : settles (Running t) (Ready f)
  | settles_failed t m : settles (Running t) (Failed m)
  | settles_run_installed t : settles (Running t) Installed
  | settles_run_superseded t : settles (Running t) Superseded.

#[local] Hint Constructors settles : core.

Lemma settles_trans a b c : settles a b -> settles b c -> settles a c.
Proof. intros Hab Hbc. inversion Hab; subst; inversion Hbc; subst; auto. Qed.

Lemma settles_rest a b : settles a b -> at_rest a -> b = a.
Proof. by intros Hab; inversion Hab; subst. Qed.

(** Starting work: only from rest; a thread, or the reason why there is none. *)
Definition starts (cm cm' : Compaction) : Prop :=
  at_rest cm /\ ((exists t, cm' = Running t) \/ exists m, cm' = Failed ("start compactor: " +:+ m)).

Section machine.
Context {S : Type} `{ObjectStore S} `{WalApp}.
Abbreviation proc := (proc (World S)).
Implicit Types self : WalTier.

(** ** Accounts of the snapshots *)

(** The handle knows the snapshot object [k]: a fold waiting to be installed,
    the snapshot its image refers to, or a queued deletion. *)
Definition tracked (k : string) self : Prop :=
  (exists f, compaction self = Ready f /\ f_key f = k)
  \/ (exists sr, img_snapshot (image (core self)) = Some sr /\ sr_key sr = k)
  \/ k ∈ garbage self.

(** A key was counted as dropped from a full queue (the count saturates). *)
Definition overflows self self' : Prop :=
  garbage_overflowed self < garbage_overflowed self' \/ U64_MAX <= garbage_overflowed self'.

(** No snapshot the handle knows is forgotten. *)
Definition accounts self self' : Prop :=
  (garbage_overflowed self <= garbage_overflowed self' \/ U64_MAX <= garbage_overflowed self')
  /\ forall k, tracked k self -> tracked k self' \/ overflows self self'.

Lemma accounts_refl self self' :
  (forall k, tracked k self -> tracked k self') -> garbage_overflowed self' = garbage_overflowed self -> accounts self self'.
Proof. intros Hk Ho. split; [lia|auto]. Qed.

Lemma accounts_trans a b c : accounts a b -> accounts b c -> accounts a c.
Proof.
  unfold accounts, overflows. intros [Oab Kab] [Obc Kbc]. split; [lia|]. intros k Hk.
  destruct (Kab k Hk) as [Hb|Hb]; [|right; lia]. destruct (Kbc k Hb) as [Hc|Hc]; [by left|right; lia].
Qed.

Definition settled self self' : Prop := settles (compaction self) (compaction self') /\ accounts self self'.

Lemma settled_trans a b c : settled a b -> settled b c -> settled a c.
Proof. intros [Hab Kab] [Hbc Kbc]. split; [by eapply settles_trans|by eapply accounts_trans]. Qed.

Lemma settled_refl self : settled self self.
Proof. split; [constructor|]. by apply accounts_refl. Qed.

(** Queueing [k] accounts for it and for everything known before. *)
Lemma queue_obsolete_accounts k self self0 :
  (garbage_overflowed self0 <= garbage_overflowed self \/ U64_MAX <= garbage_overflowed self) ->
  (forall k', tracked k' self0 -> k' = k \/ tracked k' self \/ overflows self0 self) ->
  accounts self0 (queue_obsolete k self).
Proof.
  intros Ho Hk. unfold queue_obsolete. destruct (bool_decide_reflect (k ∈ garbage self)) as [Hin|Hin].
  { split; [done|]. intros k' [->|?]%Hk; [|done]. left. by right; right. }
  destruct (zlen (garbage self) =? _) eqn:El; unfold accounts, overflows, saturating_add in *; cbn [garbage_overflowed with_garbage].
  - split; [lia|]. intros k' [->|[Ht|Ht]]%Hk; [right; lia|left; exact Ht|right; lia].
  - split; [done|]. intros k' [->|[Ht|Ht]]%Hk; [left| |by right].
    + right; right. cbn. set_solver.
    + left. destruct Ht as [Ht|[Ht|Ht]]; [by left|by right; left|right; right; cbn; set_solver].
Qed.

Lemma rets_discard self :
  rets (discard_superseded_fold self : proc _) (fun s => settled self s /\ core s = core self).
Proof.
  unfold discard_superseded_fold. destruct (compaction self) as [|t|f| | |m] eqn:E; try by (split; [apply settled_refl|]).
  destruct (applies_to f _); [by split; [apply settled_refl|]|].
  destruct (fold_installed f _) eqn:Ef.
  - split; [|done]. split; [rewrite E; constructor|]. apply accounts_refl; [|done]. intros k [(f' & Hf & <-)|Ht]; [|by right].
    rewrite E in Hf. injection Hf as <-. right; left. unfold fold_installed in Ef. cbn.
    destruct (img_snapshot _) as [sr|] eqn:Es; [|done]. exists sr. split; [done|by apply bool_decide_eq_true_1 in Ef].
  - apply rets_skip. intros _. split; [|by rewrite queue_obsolete_core]. split.
    + rewrite queue_obsolete_compaction, E. constructor.
    + apply queue_obsolete_accounts; [by left|]. intros k [(f' & Hf & <-)|Ht]; [|by right; left; right].
      rewrite E in Hf. injection Hf as <-. by left.
Qed.

(** The thread's outcome is recorded. *)
Lemma finished_settled t cm self : compaction self = Running t -> settles (Running t) cm -> settled self (with_compaction cm self).
Proof.
  intros E Hc. split; [by rewrite E|]. apply accounts_refl; [|done]. intros k [(f' & Hf & _)|Ht]; [congruence|by right].
Qed.

Lemma rets_finish o t self : compaction self = Running t ->
  rets (finish_compaction o self : proc _)
    (fun s => settled self s /\ core s = core self /\ (forall t', compaction s <> Running t')
     /\ forall f, o = Done f -> (exists m, compaction s = Failed m) \/ tracked (f_key f) s \/ overflows self s).
Proof.
  intros E. unfold finish_compaction. rewrite E. apply rets_skip. intros panicked.
  set (cm := if panicked : bool then _ else _).
  assert (settles (Running t) cm) as Hc by (unfold cm; destruct panicked, o; constructor).
  eapply rets_mono; [apply rets_discard|]. intros s [Hs Hco]. split_and!.
  - eapply settled_trans; [by eapply finished_settled|exact Hs].
  - exact Hco.
  - intros t' Et. destruct Hs as [Hs _]. rewrite Et in Hs. cbn [with_compaction compaction] in Hs.
    unfold cm in Hs. destruct panicked, o; by inversion Hs.
  - intros f ->. unfold cm in *. destruct panicked.
    + left. destruct Hs as [Hs _]. cbn [with_compaction compaction] in Hs. inversion Hs as [cm' Ha Hb| | | | | |]. eauto.
    + right. destruct Hs as [_ [_ Hk]]. apply (Hk (f_key f)). left. by exists f.
Qed.

Lemma rets_integrate self : rets (integrate_compaction self : proc _) (fun s => settled self s /\ core s = core self).
Proof.
  unfold integrate_compaction. destruct (compaction self) as [|t|f| | |m] eqn:E; try by (split; [apply settled_refl|]).
  apply rets_skip. intros [o| |]; [|by split; [apply settled_refl|]|];
    (eapply rets_mono; [by eapply rets_finish|]; by intros s (? & ? & _)).
Qed.

Lemma rets_sync self : rets (sync_compaction self : proc _) (fun s => settled self s /\ core s = core self).
Proof.
  eapply rets_seq; [apply rets_integrate|]. intros s [Hs Hc].
  eapply rets_mono; [apply rets_discard|]. intros s' [Hs' Hc']. split; [by eapply settled_trans|congruence].
Qed.

Lemma rets_wait self : rets (wait_for_compaction self : proc _)
  (fun r => settled self r.1 /\ (forall t, compaction r.1 <> Running t) /\ r.2 = current_compaction_status r.1).
Proof.
  unfold wait_for_compaction. eapply (rets_seq _ _ (fun s => settled self s /\ forall t, compaction s <> Running t)).
  - destruct (compaction self) as [|t|f| | |m] eqn:E; try (by split; [apply settled_refl|intros t'; rewrite E]).
    apply rets_skip. intros r. eapply rets_mono; [by eapply rets_finish|]. by intros s (? & _ & ? & _).
  - intros s [Hs Hn]. eapply rets_seq; [apply rets_discard|]. intros s' [Hs' _]. cbn. split_and!; [by eapply settled_trans| |done].
    intros t Et. destruct Hs' as [Hc _]. rewrite Et in Hc. inversion Hc. by eapply Hn.
Qed.

(** The old snapshot is queued unless it is the fold's own. *)
Lemma rets_install_pending self : rets (install_pending_fold self : proc _) (settled self).
Proof.
  unfold install_pending_fold. destruct (compaction self) as [|t|f| | |m] eqn:E; try by apply settled_refl.
  set (s1 := with_core _ _).
  assert (compaction s1 = Installed) as E1 by done.
  assert (tracked (f_key f) s1) as Hf by (right; left; by eexists).
  assert (forall k, tracked k self -> (exists old, img_snapshot (image (core self)) = Some old /\ sr_key old = k) \/ tracked k s1) as Hk.
  { intros k [(f' & Hf' & <-)|[Ht|Ht]]; [|by left|by right; right; right]. rewrite E in Hf'. injection Hf' as <-. by right. }
  change (img_snapshot (image (core (with_compaction Installed self)))) with (img_snapshot (image (core self))).
  destruct (img_snapshot (image (core self))) as [old|] eqn:Eo.
  - case_match eqn:Eb.
    + apply rets_skip. intros _. split; [rewrite queue_obsolete_compaction, E, E1; constructor|].
      apply queue_obsolete_accounts; [by left|]. intros k [(o & Ho & <-)|Ht]%Hk; [|by right; left]. left. congruence.
    + apply negb_false_iff, bool_decide_eq_true_1 in Eb. split; [rewrite E, E1; constructor|]. apply accounts_refl; [|done].
      intros k [(o & Ho & <-)|Ht]%Hk; [|done]. injection Ho as <-. by rewrite Eb.
  - split; [rewrite E, E1; constructor|]. apply accounts_refl; [|done]. by intros k [(o & Ho & _)|Ht]%Hk.
Qed.

(** ** Refreshes *)

(** A refresh returns the snapshot reference that it replaces, if any. *)
Definition hands_over (co : Core) (r : Core * Result Refreshed WalError) : Prop :=
  (forall e, r.2 = Err e -> image r.1 = image co)
  /\ forall old, img_snapshot (image co) = Some old ->
    (exists sr, img_snapshot (image r.1) = Some sr /\ sr_key sr = sr_key old)
    \/ exists rf, r.2 = Ok rf /\ r_superseded rf = Some old.

Lemma rets_record_image e d co : rets (record_image_put e d co : proc _) (fun c => image c = image co).
Proof. unfold record_image_put. by apply rets_skip. Qed.

Lemma rets_checkpoint_image co : rets (checkpoint_cache co : proc _) (fun c => image c = image co).
Proof.
  unfold checkpoint_cache. destruct (negb _); [done|]. destruct (etag co); [|done]. destruct (encode _ _); [|done].
  by apply rets_skip.
Qed.

Lemma hands_over_same co r : image r.1 = image co -> hands_over co r.
Proof. intros Hi. split; [done|]. intros old Ho. left. exists old. by rewrite Hi. Qed.

Lemma rets_adopt stored remote s co : rets (adopt stored remote s co : proc _) (hands_over co).
Proof.
  unfold adopt. apply rets_skip. intros _. eapply rets_seq; [apply rets_record_image|]. intros c Hc. split; [done|]. intros old Ho. cbn in Hc |- *.
  unfold superseded_by. rewrite Ho, Hc. destruct (img_snapshot remote) as [sr|] eqn:Er; [|right; by eexists].
  destruct (bool_decide_reflect (sr_key sr = sr_key old)) as [Hk|Hk]; [left; by exists sr|right; by eexists].
Qed.

Lemma rets_refresh_core n m co : rets (refresh_loop n m co : proc _) (hands_over co).
Proof.
  revert m. induction n as [|n IH]; intros m; cbn [refresh_loop]; [by apply hands_over_same|].
  apply rets_skip. intros [[stored| |]|e]; [|by case_match; apply hands_over_same..|by apply hands_over_same].
  unfold refresh_changed. destruct (decode _ _) as [remote|e]; [|by apply hands_over_same]. destruct (_ <=? _); [apply rets_adopt|].
  destruct (img_snapshot remote) as [sr|]; [|by apply hands_over_same]. apply rets_skip. intros [[bs|]|e]; [| |by apply hands_over_same].
  - destruct (restore bs); [apply rets_adopt|by apply hands_over_same].
  - destruct (record_missing_snapshot _ _ _); [apply IH|by apply hands_over_same].
Qed.

(** The handle after a refresh of its core: discard, then queue what was replaced. *)
Lemma rets_refreshed co rf self : hands_over (core self) (co, Ok rf) ->
  rets (discard_superseded_fold (with_core co self) : proc _) (fun s => settled self (queue_superseded (r_superseded rf) s)).
Proof.
  intros [_ Hh]. eapply rets_mono; [apply rets_discard|]. intros s [[Hs [Ho Hk]] _].
  split; [destruct (r_superseded rf); cbn; by rewrite ?queue_obsolete_compaction|].
  assert (forall k, tracked k self -> (exists old, r_superseded rf = Some old /\ sr_key old = k) \/ tracked k s \/ overflows self s) as Hself.
  { intros k Hkn. assert ((exists old, r_superseded rf = Some old /\ sr_key old = k) \/ tracked k (with_core co self)) as [Hold|Ht].
    { destruct Hkn as [Ht|[(old & Eo & <-)|Ht]]; [by right; left| |by right; right; right].
      destruct (Hh old Eo) as [Hsr|(rf' & E & Er)]; [by right; right; left|]. injection E as <-. left. by exists old. }
    - by left.
    - right. exact (Hk k Ht). }
  destruct (r_superseded rf) as [old|]; cbn [queue_superseded].
  - apply queue_obsolete_accounts; [exact Ho|]. intros k [(o & E & <-)|Ht]%Hself; [left; congruence|by right].
  - split; [exact Ho|]. by intros k [(o & E & _)|Ht]%Hself.
Qed.

Lemma with_image_settled co self : image co = image (core self) -> settled self (with_core co self).
Proof.
  intros Hi. split; [constructor|]. apply accounts_refl; [|done]. intros k [Ht|[Ht|Ht]]; [by left| |by right; right].
  right; left. cbn. by rewrite Hi.
Qed.

(** ** Operations *)

Lemma rets_try_install es self : rets (try_install es self : proc _) (fun r => settled self r.1).
Proof.
  unfold try_install, lost_install, Core_refresh. destruct (candidate self es) as [[d|e]|]; [|by apply settled_refl|done].
  destruct (etag (core self)) as [e|]; [|done]. apply rets_skip. intros [[e'|]|err]; [| |by apply settled_refl].
  - eapply rets_seq; [apply rets_record_image|]. intros co Hco. eapply rets_seq; [apply rets_install_pending|].
    intros s Hs. eapply settled_trans; [by apply (with_image_settled co)|exact Hs].
  - eapply rets_seq; [apply rets_refresh_core|]. intros [co [rf|err]] Hh.
    + eapply rets_seq; [by apply rets_refreshed|]. intros s Hs. exact Hs.
    + apply with_image_settled. by eapply Hh.
Qed.

Lemma rets_refresh self : rets (WalTier_refresh self : proc _) (fun r => settled self r.1).
Proof.
  unfold WalTier_refresh, Core_refresh. eapply rets_seq; [apply rets_sync|]. intros s [Hs _].
  eapply rets_seq; [apply rets_refresh_core|]. intros [co [rf|err]] Hh.
  - eapply rets_seq; [by apply rets_refreshed|]. intros s' Hs'. by eapply settled_trans.
  - eapply settled_trans; [exact Hs|]. apply with_image_settled. by eapply Hh.
Qed.

(** [cm'] is reached without a start, or by one start after which nothing is
    waited for. *)
Definition may_start (self self' : WalTier) (P : Compaction -> Prop) : Prop :=
  accounts self self' /\ exists cm, settles (compaction self) cm
    /\ (compaction self' = cm \/ P cm /\ starts cm (compaction self')).

Lemma settled_may_start P self self' : settled self self' -> may_start self self' P.
Proof. intros [Hs Hk]. split; [done|]. exists (compaction self'). auto. Qed.

Lemma may_start_after P a b c : settled a b -> may_start b c P -> may_start a c P.
Proof.
  intros [Hab Kab] [Kbc (cm & Hbc & Hc)]. split; [by eapply accounts_trans|]. exists cm. split; [by eapply settles_trans|done].
Qed.

Lemma with_rest_accounts cm self : at_rest (compaction self) -> accounts self (with_compaction cm self).
Proof. intros Hr. apply accounts_refl; [|done]. intros k [(f & E & _)|Ht]; [by rewrite E in Hr|by right]. Qed.

(** [compact_now] starts work exactly when the compaction has come to rest and
    there is something to fold, and says whether a thread runs. *)
Lemma rets_compact_now self : rets (compact_now self : proc _) (fun r =>
  may_start self r.1 (fun _ => True)
  /\ (img_entries (image (core self)) <> [] -> at_rest (compaction self) -> starts (compaction self) (compaction r.1))
  /\ (r.2 = true -> exists t, compaction r.1 = Running t)).
Proof.
  unfold compact_now. eapply rets_seq; [apply rets_sync|]. intros s [Hs Hco].
  destruct (_ || _) eqn:Eb.
  { split_and!; [by apply settled_may_start| |done]. intros Hne Hr. exfalso. destruct Hs as [Hs _]. apply settles_rest in Hs; [|done].
    unfold compaction_running, has_pending_fold in Eb. rewrite Hs, Hco, bool_decide_eq_false_2 in Eb by done.
    by destruct (compaction self). }
  apply orb_false_elim in Eb as [Eb _]. apply orb_false_elim in Eb as [Er Ep].
  assert (at_rest (compaction s)) as Hrest.
  { unfold compaction_running, has_pending_fold in *. by destruct (compaction s). }
  assert (forall cm, starts (compaction s) cm -> may_start self (with_compaction cm s) (fun _ => True)
    /\ (img_entries (image (core self)) <> [] -> at_rest (compaction self) -> starts (compaction self) cm)) as Hstart.
  { intros cm Hc. split.
    - eapply may_start_after; [exact Hs|]. split; [by apply with_rest_accounts|]. exists (compaction s). split; [constructor|auto].
    - intros _ Hr. destruct Hs as [Hs _]. apply settles_rest in Hs; [|done]. by rewrite <-Hs. }
  unfold spawn_compaction. destruct (tip _); [|done]. apply rets_skip. intros [t|e]; cbn [rets fst snd].
  - destruct (Hstart (Running t)) as [Hm Hst]; [by split; [|left; eexists]|]. by split_and!; [..|eexists].
  - destruct (Hstart (Failed ("start compactor: " +:+ e))) as [Hm Hst]; [by split; [|right; eexists]|]. by split_and!.
Qed.

(** What an append may start from: anything at rest but a failure. *)
Definition unfailed (cm : Compaction) : Prop := forall m, cm <> Failed m.

Lemma rets_trigger self : rets (maybe_trigger_compaction self : proc _) (fun s => may_start self s unfailed).
Proof.
  unfold maybe_trigger_compaction. destruct (_ && _) eqn:Eb; [|by apply settled_may_start, settled_refl].
  repeat (apply andb_prop in Eb as [Eb ?]).
  assert (at_rest (compaction self) /\ unfailed (compaction self)) as [Hr Hu].
  { unfold compaction_running, has_pending_fold, is_failed, unfailed in *. by destruct (compaction self). }
  eapply rets_seq; [apply rets_compact_now|]. intros [s b] ([Hk (cm & Hc & Hcm)] & _). split; [exact Hk|]. exists cm.
  apply settles_rest in Hc as ->; [|done]. split; [constructor|]. destruct Hcm as [|[_ ?]]; auto.
Qed.

Lemma applied_settled first i es self : settled self (with_core (push_applied first i es (core self)) self).
Proof.
  assert (forall co, img_snapshot (image (push_applied first i es co)) = img_snapshot (image co)) as Hi.
  { revert i. induction es as [|e es IH]; intros i co; cbn [push_applied]; [done|]. by rewrite IH. }
  split; [constructor|]. apply accounts_refl; [|done]. intros k [Ht|[Ht|Ht]]; [by left| |by right; right].
  right; left. cbn [with_core core]. by rewrite Hi.
Qed.

Lemma rets_append_loop n attempt single es self :
  rets (append_loop n attempt single es self : proc _) (fun r => may_start self r.1 unfailed).
Proof.
  revert attempt es self. induction n as [|n IH]; intros attempt es self; cbn [append_loop]; [done|].
  destruct es as [|e es]; [by apply settled_may_start, settled_refl|].
  eapply rets_seq; [apply rets_try_install|]. intros [s r] Hs. cbn [fst] in Hs. destruct r as [[|]|err];
    [| |by apply settled_may_start].
  - eapply rets_seq; [apply rets_trigger|]. intros s' Hs'. cbn [rets fst].
    do 2 (eapply may_start_after; [eassumption || apply applied_settled|]). exact Hs'.
  - assert (forall a es', rets (append_loop n a single es' s : proc _) (fun r => may_start self r.1 unfailed)) as Hnext.
    { intros a es'. eapply rets_mono; [apply IH|]. intros r Hr. by eapply may_start_after. }
    repeat case_match; try (by apply settled_may_start); apply Hnext.
Qed.

Lemma rets_append es single self : rets (append es single self : proc _) (fun r => may_start self r.1 unfailed).
Proof.
  eapply rets_seq; [apply rets_sync|]. intros s [Hs _].
  eapply rets_mono; [apply rets_append_loop|]. intros r Hr. by eapply may_start_after.
Qed.

(** Collection takes keys from the front of the queue and touches nothing else. *)
Definition collected self self' : Prop :=
  core self' = core self /\ compaction self' = compaction self /\ garbage_overflowed self' = garbage_overflowed self
  /\ exists gone, garbage self = gone ++ garbage self'.

Lemma rets_collect self : rets (collect_garbage self : proc _) (fun r => collected self r.1).
Proof.
  unfold collect_garbage. cut (forall q s gone, garbage self = gone ++ q -> garbage s = q -> core s = core self ->
    compaction s = compaction self -> garbage_overflowed s = garbage_overflowed self ->
    rets (collect_loop q s : proc _) (fun r => collected self r.1)).
  { intros Hq. by apply (Hq _ self []). }
  induction q as [|k q IH]; intros s gone Eg Es Hc Hm Ho; cbn [collect_loop].
  { split_and!; [done..|by exists gone]. }
  apply rets_skip. intros [u|e]; [|by split_and!; [..|exists gone]].
  eapply (IH _ (gone ++ [k])); cbn; [by rewrite <-app_assoc|done..].
Qed.

Lemma rets_flush_loop n attempt self : rets (flush_loop n attempt self : proc _) (fun r => settled self r.1).
Proof.
  revert attempt self. induction n as [|n IH]; intros attempt self; cbn [flush_loop]; [by apply settled_refl|].
  destruct (negb _); [by apply settled_refl|]. eapply rets_seq; [apply rets_try_install|]. intros [s r] Hs. cbn [fst] in Hs.
  destruct r as [b|e]; [|done]. destruct (_ && _); [done|].
  eapply rets_mono; [apply IH|]. intros r Hr. by eapply settled_trans.
Qed.

Lemma rets_checkpoint self :
  rets (WalTier_checkpoint_cache self : proc _) (fun s => compaction s = compaction self /\ settled self s).
Proof.
  unfold WalTier_checkpoint_cache. eapply rets_seq; [apply rets_checkpoint_image|]. intros co Hi.
  split; [done|by apply with_image_settled].
Qed.

Lemma rets_flush self : rets (flush self : proc _)
  (fun r => (exists mid, settled self mid /\ collected mid r.1)
    /\ forall m, compaction self = Failed m -> r.2 = Err (CompactionError m)).
Proof.
  unfold flush. eapply rets_seq; [apply rets_wait|]. intros [s r] (Hs & _ & Hr). cbn [fst snd] in *. subst r.
  assert (forall s', settled self s' -> exists mid, settled self mid /\ collected mid s') as Hnone.
  { intros s' Hs'. exists s'. split; [done|]. split_and!; [done..|by exists []]. }
  assert (forall m, compaction self = Failed m -> current_compaction_status s = Err (CompactionError m)) as Hfail.
  { intros m E. unfold current_compaction_status. destruct Hs as [Hc _]. rewrite E in Hc.
    by apply settles_rest in Hc as ->. }
  destruct (current_compaction_status s) as [st|e]; [|split; [by apply Hnone|intros m E; specialize (Hfail m E); cbn; congruence]].
  assert (forall m, compaction self <> Failed m) as Hno by (intros m E; by specialize (Hfail m E)).
  eapply rets_seq; [apply rets_flush_loop|]. intros [s2 r2] Hs2. cbn [fst] in Hs2.
  pose proof (settled_trans _ _ _ Hs Hs2) as Hs02. destruct r2 as [u|e]; [|by split; [apply Hnone|intros m E; destruct (Hno m)]].
  eapply rets_seq; [apply rets_checkpoint|]. intros s3 [_ Hs3].
  eapply rets_seq; [apply rets_collect|]. intros [s4 r4] Hs4. cbn [fst] in Hs4.
  split; [|intros m E; by destruct (Hno m)]. exists s3. split; [by eapply settled_trans|done].
Qed.

Lemma rets_take self : rets (take_compaction_error self : proc _) (fun r =>
  exists s, settled self s /\ match compaction s with
                              | Failed m => r = (with_compaction Idle s, Some m)
                              | _ => r = (s, None)
                              end).
Proof.
  unfold take_compaction_error. eapply rets_seq; [apply rets_integrate|]. intros s [Hs _].
  destruct (compaction s) eqn:Es; exists s; split; by rewrite ?Es.
Qed.

(** ** The contract of every operation *)



(** C24. Compaction failures are sticky. A recorded failure survives appends,
    refreshes, waits and flushes, a flush reports it, and
    [take_compaction_error] hands exactly it over once and clears it. *)
Theorem compaction_failures_are_sticky self m : compaction self = Failed m ->
  (forall es single, rets (append es single self : proc _) (fun r => compaction r.1 = Failed m))
  /\ rets (WalTier_refresh self : proc _) (fun r => compaction r.1 = Failed m)
  /\ rets (wait_for_compaction self : proc _) (fun r => compaction r.1 = Failed m /\ r.2 = Err (CompactionError m))
  /\ rets (flush self : proc _) (fun r => compaction r.1 = Failed m /\ r.2 = Err (CompactionError m))
  /\ rets (take_compaction_error self : proc _) (fun r => compaction r.1 = Idle /\ r.2 = Some m).
Proof.
  intros E. assert (forall s, settled self s -> compaction s = Failed m) as Hstay.
  { intros s [Hs _]. rewrite E in Hs. by apply settles_rest in Hs. }
  split_and!.
  - intros es single. eapply rets_mono; [apply rets_append|]. intros r [_ (cm & Hc & Hr)]. rewrite E in Hc.
    apply settles_rest in Hc as ->; [|done]. destruct Hr as [Hr|[Hu _]]; [done|by destruct (Hu m)].
  - eapply rets_mono; [apply rets_refresh|]. auto.
  - eapply rets_mono; [apply rets_wait|]. intros r (Hr & _ & ->). unfold current_compaction_status. by rewrite Hstay.
  - eapply rets_mono; [apply rets_flush|]. intros r [(mid & Hm & (_ & -> & _)) He]. auto.
  - eapply rets_mono; [apply rets_take|]. intros r (s & Hs & Hr). rewrite (Hstay _ Hs) in Hr. by subst r.
Qed.

End machine.

Definition failed_handle : WalTier := with_compaction (Failed "boom") no_handle.

Lemma compaction_failures_are_sticky_witness :
  compaction failed_handle = Failed "boom"
  /\ rets (flush failed_handle : proc (World MemoryStore) _)
       (fun r => compaction r.1 = Failed "boom" /\ r.2 = Err (CompactionError "boom")).
Proof.
  split; [reflexivity|].
  by destruct (compaction_failures_are_sticky (S := MemoryStore) failed_handle "boom" eq_refl) as (_ & _ & _ & Hf & _).
Defined.


