(* ===== verification/FootprintProps.v ===== *)
(** * What each operation may change in the store

    [changes ch n p] says that of the actions of [p] at most [n] change the
    objects of the store, each as [ch] allows, in any world. An append changes
    the log object only, at most once; a compaction adds one object under its
    own fresh key; a collection deletes queued keys only. *)

From S2P Require Import Prelude Fmt Utf8 Error Image App Proc Atomic Cache Store World Core Compactor Writer Protocol Invariant Steps System ReplicaProps MaintenanceProps.

Section changes.
Context {S : Type} `{ObjectStoreLaws S} `{WalApp}.
Abbreviation World := (World S).
Abbreviation proc := (proc World).
Abbreviation objects := (gmap string Stored).
Implicit Types (w : World) (ch : objects -> objects -> Prop).

Fixpoint changes ch (n : nat) {A} (p : proc A) : Prop :=
  match p with
  | Act f k => forall w, store_wf (w_store w) ->
      match f w with
      | None => True
      | Some (w', r) => store_sane (w_store w') ->
          store_wf (w_store w') /\
          ((contents (w_store w') = contents (w_store w) /\ changes ch n (k r))
           \/ exists n', n = Datatypes.S n' /\ ch (contents (w_store w)) (contents (w_store w')) /\ changes ch n' (k r))
      end
  | _ => True
  end.

Lemma changes_mono ch n n' {A} (p : proc A) : changes ch n p -> (n <= n')%nat -> changes ch n' p.
Proof.
  revert n n'. induction p as [a|R f k IH|m]; intros n n' Hp Hle; cbn in *; [done| |done]. intros w Hw. specialize (Hp w Hw).
  destruct (f w) as [[w' r]|]; [|done]. intros Hs. destruct (Hp Hs) as [Hw' [[Hc Hk]|(m & -> & Hc & Hk)]]; (split; [done|]).
  - left. split; [done|by eapply IH].
  - right. exists (Nat.pred n'). split; [lia|]. split; [done|]. eapply IH; [done|lia].
Qed.

(** The budget of a sequence; [R] is what the first part returns. *)
Lemma changes_seq ch n n' {A B} (p : proc A) (k : A -> proc B) (R : A -> Prop) :
  changes ch n p -> rets p R -> (forall a, R a -> changes ch n' (k a)) -> changes ch (n + n') (bind p k).
Proof.
  intros Hp Hr Hk. revert n Hp. induction p as [a|X f k' IH|m]; intros n Hp; cbn in *; [|intros w Hw|done].
  - eapply changes_mono; [by apply Hk|lia].
  - specialize (Hp w Hw). destruct (f w) as [[w' r]|]; [|done]. intros Hs.
    destruct (Hp Hs) as [Hw' [[Hc Hp']|(m & -> & Hc & Hp')]]; (split; [done|]).
    + left. split; [done|]. by apply IH.
    + right. exists (m + n')%nat. split; [done|]. split; [done|by apply IH].
Qed.

Lemma changes_bind ch n {A B} (p : proc A) (k : A -> proc B) :
  changes ch 0 p -> (forall a, changes ch n (k a)) -> changes ch n (bind p k).
Proof. intros Hp Hk. apply (changes_seq ch 0 n p k (fun _ => True)); [done|apply rets_any|auto]. Qed.

(** The handler of a panic that changes nothing. *)
Lemma changes_on_panic ch n {A} (p : proc A) h : changes ch n p -> (forall n m, changes ch n (h m)) ->
  changes ch n (on_panic p h).
Proof.
  intros Hp Hh. revert n Hp. induction p as [a|R f k IH|m]; intros n Hp; cbn in *; [done| |done]. intros w Hw. specialize (Hp w Hw).
  destruct (f w) as [[w' r]|]; [|done]. intros Hs. destruct (Hp Hs) as [Hw' [[Hc Hk]|(n' & -> & Hc & Hk)]]; (split; [done|]).
  - left. split; [done|by apply IH].
  - right. exists n'. split; [done|]. split; [done|by apply IH].
Qed.

(** A change, and then only what its answer still allows. *)
Lemma changes_request ch n {R A} (f : S -> S * R) (k : R -> proc A) :
  (forall s s' r, f s = (s', r) -> store_wf s -> store_sane s' -> store_wf s' /\
     ((contents s' = contents s /\ changes ch n (k r))
      \/ exists n', n = Datatypes.S n' /\ ch (contents s) (contents s') /\ changes ch n' (k r))) ->
  changes ch n (bind (request f) k).
Proof.
  intros Hf w Hw. cbn. destruct (f (w_store w)) as [s r] eqn:E. cbn [w_store with_store]. intros Hs.
  exact (Hf (w_store w) s r E Hw Hs).
Qed.

Lemma reads_changes ch n {A} (p : proc A) : reads p -> changes ch n p.
Proof.
  intros Hp. induction p as [a|R f k IH|m]; cbn in *; [done| |done]. intros w Hw. specialize (Hp w Hw).
  destruct (f w) as [[w' r]|]; [|done]. intros Hs. destruct (Hp Hs) as [(Hc & Hw' & _) Hk]. split; [done|left; auto].
Qed.

Lemma changes_request2 ch n {R A B} (f : S -> S * R) (k1 : R -> proc A) (k2 : A -> proc B) :
  (forall s s' r, f s = (s', r) -> store_wf s -> store_sane s' -> store_wf s' /\
     ((contents s' = contents s /\ changes ch n (bind (k1 r) k2))
      \/ exists n', n = Datatypes.S n' /\ ch (contents s) (contents s') /\ changes ch n' (bind (k1 r) k2))) ->
  changes ch n (bind (bind (request f) k1) k2).
Proof. exact (changes_request ch n f (fun r => bind (k1 r) k2)). Qed.

(** Actions that do not touch the store. *)
Lemma changes_quiet ch n {R A} (f : World -> option (World * R)) (k : R -> proc A) :
  (forall w w' r, f w = Some (w', r) -> w_store w' = w_store w) -> (forall r, changes ch n (k r)) -> changes ch n (Act f k).
Proof.
  intros Hf Hk w Hw. destruct (f w) as [[w' r]|] eqn:E; [|done]. intros _. rewrite (Hf _ _ _ E). split; [done|left; auto].
Qed.

Lemma changes_join ch n t : changes ch n (join (S := S) t).
Proof.
  apply changes_quiet; [|done]. intros w w' r. destruct (w_jobs w !! t) as [j|]; [destruct (j_ended j)|]; congruence.
Qed.
Lemma changes_try_recv ch n t : changes ch n (try_recv (S := S) t).
Proof.
  apply changes_quiet; [|done]. intros w w' r. destruct (w_jobs w !! t) as [[a st [o|] [b|]]|]; by intros [= <- _].
Qed.
Lemma changes_recv ch n t : changes ch n (recv (S := S) t).
Proof.
  apply changes_quiet; [|done]. intros w w' r. destruct (w_jobs w !! t) as [[a st [o|] [b|]]|]; by intros [= <- _].
Qed.
Lemma changes_spawn ch n a : changes ch n (spawn (S := S) a).
Proof. apply changes_quiet; [|done]. intros w w' r. cbn. destruct (w_spawn w) as [|[e|] rest]; by intros [= <- _]. Qed.
Lemma changes_next_random ch n : changes ch n (next_random (S := S)).
Proof. apply changes_quiet; [|done]. intros w w' r. cbn. destruct (w_ids w); by intros [= <- _]. Qed.

End changes.

Create HintDb changes discriminated.
#[export] Hint Resolve changes_join changes_try_recv changes_recv changes_spawn changes_next_random : changes.
#[export] Hint Resolve reads_changes | 10 : changes.
#[export] Hint Resolve reads_fetch_snapshot reads_record_image_put reads_checkpoint_cache reads_refresh_loop
  reads_on_fs reads_on_fs_ : changes reads.

Ltac change_walk := repeat (intros; cbn zeta;
  first
    [ exact I
    | solve [auto with changes nocore]
    | apply changes_bind
    | match goal with |- context [match ?x with _ => _ end] => destruct x end ]).

(** The log object gets a new version. *)
Definition log_put (key : string) (m m' : gmap string Stored) : Prop :=
  is_Some (m !! key) /\ exists o, m' = <[key := o]> m.
(** An object appears under a key that [keys] allows. *)
Definition adds (keys : string -> Prop) (m m' : gmap string Stored) : Prop :=
  exists k o, keys k /\ m !! k = None /\ m' = <[k := o]> m.
(** An object of the list goes. *)
Definition removes (ks : list string) (m m' : gmap string Stored) : Prop :=
  exists k, k ∈ ks /\ m' = delete k m.

Section code.
Context {S : Type} `{ObjectStoreLaws S} `{WalApp}.
Abbreviation proc := (proc (World S)).
Variable ch : gmap string Stored -> gmap string Stored -> Prop.

Lemma changes_discard n self : changes ch n (discard_superseded_fold self : proc _).
Proof. unfold discard_superseded_fold. change_walk. Qed.
#[local] Hint Resolve changes_discard : changes.
Lemma changes_finish n o self : changes ch n (finish_compaction o self : proc _).
Proof. unfold finish_compaction. change_walk. Qed.
#[local] Hint Resolve changes_finish : changes.
Lemma changes_integrate n self : changes ch n (integrate_compaction self : proc _).
Proof. unfold integrate_compaction. change_walk. Qed.
#[local] Hint Resolve changes_integrate : changes.
Lemma changes_sync n self : changes ch n (sync_compaction self : proc _).
Proof. unfold sync_compaction. change_walk. Qed.
#[local] Hint Resolve changes_sync : changes.
Lemma changes_trigger n self : changes ch n (maybe_trigger_compaction self : proc _).
Proof. unfold maybe_trigger_compaction, compact_now, spawn_compaction. change_walk. Qed.
Lemma changes_install_pending n self : changes ch n (install_pending_fold self : proc _).
Proof. unfold install_pending_fold. change_walk. Qed.
Lemma changes_Core_refresh n co : changes ch n (Core_refresh co : proc _).
Proof. unfold Core_refresh. change_walk. Qed.
#[local] Hint Resolve changes_trigger changes_install_pending changes_Core_refresh : changes.

End code.
#[export] Hint Resolve changes_sync changes_trigger changes_install_pending changes_Core_refresh changes_discard : changes.

Section writer.
Context {S : Type} `{ObjectStoreLaws S} `{WalApp}.
Abbreviation proc := (proc (World S)).

(** ** The options of a handle do not change *)

Lemma rets_record_image_put e d co : rets (record_image_put e d co : proc _) (fun c => opts c = opts co).
Proof. unfold record_image_put. by apply rets_skip. Qed.

Lemma rets_refresh_loop n m co : rets (refresh_loop n m co : proc _) (fun r => opts r.1 = opts co).
Proof.
  revert m. induction n as [|n IH]; intros m; cbn [refresh_loop]; [done|]. unfold refresh_changed, adopt.
  assert (forall stored remote st old, rets (let! self := record_image_put (st_etag stored) (st_data stored)
      {| opts := opts co; cache := cache co; state := st; image := remote; etag := etag co;
         image_len := image_len co; cache_dirty := cache_dirty co |} in
      Ret (self, Ok {| r_changed := true; r_superseded := old |}) : proc (Core * Result Refreshed WalError))
    (fun r => opts r.1 = opts co)) as Hput.
  { intros. eapply rets_seq; [apply rets_record_image_put|]. intros c Hc. exact Hc. }
  apply rets_skip. intros [[stored| |]|err]; [|by case_match..|done].
  destruct (decode _ _) as [remote|err]; [|done]. destruct (_ <=? _).
  { apply rets_skip. intros _. apply Hput. }
  destruct (img_snapshot remote) as [sr|]; [|done]. apply rets_skip. intros [[bs|]|err]; [| |done].
  - destruct (restore bs); [|done]. apply rets_skip. intros _. apply Hput.
  - by case_match.
Qed.

Lemma queue_obsolete_opts k self : core (queue_obsolete k self) = core self.
Proof. unfold queue_obsolete. by repeat case_match. Qed.

Lemma rets_discard_core self : rets (discard_superseded_fold self : proc _) (fun s => core s = core self).
Proof.
  unfold discard_superseded_fold. repeat case_match; try done. apply rets_skip. intros _. exact (queue_obsolete_opts _ _).
Qed.

Lemma rets_sync_core self : rets (sync_compaction self : proc _) (fun s => core s = core self).
Proof.
  eapply (rets_seq _ _ (fun s => core s = core self)).
  - unfold integrate_compaction, finish_compaction. destruct (compaction self); try done.
    apply rets_skip. intros [o| |]; [|done|]; apply rets_skip; intros p;
      (eapply rets_mono; [apply rets_discard_core|]); done.
  - intros s Hs. eapply rets_mono; [apply rets_discard_core|]. cbn. congruence.
Qed.

(** A lost race has changed nothing; any other answer, at most the log. *)
Lemma changes_try_install es self {A} (k : WalTier * Result bool InstallError -> proc A) key :
  key = wal_key (opts (core self)) ->
  (forall s, opts (core s) = opts (core self) -> changes (log_put key) 1 (k (s, Ok false))) ->
  (forall s r, r <> Ok false -> changes (log_put key) 0 (k (s, r))) ->
  changes (log_put key) 1 (bind (try_install es self) k).
Proof.
  intros -> Hlost Hdone. unfold try_install, lost_install.
  destruct (candidate self es) as [[d|e]|]; [|cbn [bind]; eapply changes_mono; [by apply Hdone|lia]|done].
  destruct (etag (core self)) as [e|]; [|done].
  apply changes_request2. intros s s' put Hput Hwf Hs.
  destruct (put_if_match_law _ _ _ _ _ _ Hput Hwf Hs) as ((_ & Hwf' & _) & Hlaw). split; [done|].
  assert (forall etag, cas_applied (contents s) (contents s') (wal_key (opts (core self))) (Some e) d etag ->
    log_put (wal_key (opts (core self))) (contents s) (contents s')) as Hch.
  { intros etag' [Hm ->]. split; [|by eexists]. by destruct (contents s !! _). }
  destruct put as [[etag'|]|err].
  - right. exists 0%nat. split; [done|]. split; [by eapply Hch|].
    apply (changes_seq _ 0 0 _ k (fun r => r.2 = Ok true)); [change_walk| |].
    + apply rets_skip. intros co. by apply rets_skip.
    + intros [s1 r] Hr. apply Hdone. cbn in Hr. by rewrite Hr.
  - left. split; [done|].
    apply (changes_seq _ 0 1 _ k (fun r => r.2 = Ok false -> opts (core r.1) = opts (core self))); [change_walk| |].
    + eapply rets_seq; [apply rets_refresh_loop|]. intros [co [u|err]] Hco; [|done]. cbn [fst] in Hco.
      eapply rets_seq; [apply rets_discard_core|]. intros s2 Hs2 _. cbn [fst].
      destruct (r_superseded u); cbn [queue_superseded]; by rewrite ?queue_obsolete_opts, Hs2.
    + intros [s1 [[|]|err]] Ho; [|by apply Hlost, Ho|]; (eapply changes_mono; [by apply Hdone|lia]).
  - cbn [bind]. destruct Hlaw as [Hc|(_ & etag' & Hc)].
    + left. split; [done|]. eapply changes_mono; [by apply Hdone|lia].
    + right. exists 0%nat. split; [done|]. split; [by eapply Hch|by apply Hdone].
Qed.

Lemma changes_append_loop n attempt single es self key : key = wal_key (opts (core self)) ->
  changes (log_put key) 1 (append_loop n attempt single es self : proc _).
Proof.
  revert attempt es self. induction n as [|n IH]; intros attempt es self Hk; cbn [append_loop]; [done|].
  destruct es as [|e es]; [done|]. apply changes_try_install; [done| |].
  - intros s Ho. repeat case_match; try done; apply IH; by rewrite Ho.
  - intros s r Hr. destruct r as [[|]|err]; [|done..]. change_walk.
Qed.

(** C21. An append touches only the log. Of all the requests an append makes,
    retries and reconciliations included, at most one changes the store, and
    it gives the existing log object a new version: no append writes a second
    time after an ambiguous error, creates the log or touches a snapshot. *)
Theorem append_changes_only_the_log es single self :
  changes (log_put (wal_key (opts (core self)))) 1 (append es single self : proc _).
Proof.
  unfold append. apply (changes_seq _ 0 1 _ _ (fun s => core s = core self)); [auto with changes|apply rets_sync_core|].
  intros s Hs. apply changes_append_loop. by rewrite Hs.
Qed.

(** ** Publication *)

Lemma changes_publish_loop n d next keys : changes (adds keys) 0 (next : proc _) ->
  rets (next : proc _) (fun r => forall k, r = Ok k -> keys k) ->
  changes (adds keys) 1 (publish_loop n d next).
Proof.
  intros Hnext Hkeys. induction n as [|n IH]; cbn [publish_loop]; [done|].
  apply (changes_seq _ 0 1 _ _ _ Hnext Hkeys). intros [k|e] Hk; [|done].
  apply changes_request. intros s s' put Hput Hwf Hs.
  destruct (put_if_match_law _ _ _ _ _ _ Hput Hwf Hs) as ((_ & Hwf' & _) & Hlaw). split; [done|].
  assert (forall etag, cas_applied (contents s) (contents s') k None d etag -> adds keys (contents s) (contents s')) as Hch.
  { intros etag' [Hm ->]. eexists k, _. split; [by apply Hk|]. split; [|done]. by destruct (contents s !! k). }
  destruct put as [[etag'|]|err].
  - right. exists 0%nat. split; [done|]. split; [by eapply Hch|done].
  - left. by split.
  - destruct Hlaw as [Hc|(_ & etag' & Hc)]; [by left|]. right. exists 0%nat. split; [done|]. by split; [eapply Hch|].
Qed.

(** A compaction only adds. A compaction changes the store at most once,
    by adding an object under one of its own keys where there was none: it
    never overwrites or deletes anything, whatever its attempts answer. *)
Theorem compaction_only_adds a :
  changes (adds (fun k => exists id, k = ca_snap_prefix a +:+ id)) 1 (run_compaction a : proc _).
Proof.
  unfold run_compaction, publish_snapshot. destruct (last (ca_entries a)) as [e|]; [|done].
  apply changes_bind; [change_walk|]. intros [base|m]; [|done]. destruct (compact _ _) as [[d|err]|]; [|done..].
  destruct (check_limit _ _ _); [|done]. apply (changes_seq _ 1 0 _ _ (fun _ => True)); [|apply rets_any|].
  - apply changes_publish_loop; [unfold next_snapshot_key; change_walk|].
    unfold next_snapshot_key. apply rets_skip. intros o k Hk. destruct (unique_id o) as [id|]; [|done].
    injection Hk as <-. by exists id.
  - change_walk.
Qed.

Lemma changes_collect_loop ks q self : q ⊆ ks ->
  changes (removes ks) (length q) (collect_loop q self : proc _).
Proof.
  revert self. induction q as [|k q IH]; intros self Hsub; [done|]. cbn [collect_loop length].
  apply changes_request. intros s s' r Hr Hwf Hs.
  destruct (delete_law _ _ _ _ Hr Hwf Hs) as ((_ & Hwf' & _) & Hlaw). split; [done|].
  assert (removes ks (contents s) (delete k (contents s))) as Hch.
  { exists k. split; [|done]. apply Hsub. by left. }
  assert (q ⊆ ks) as Hq by (intros x Hx; apply Hsub; by right).
  destruct r as [u|e].
  - right. exists (length q). split; [done|]. rewrite Hlaw. split; [done|by apply IH].
  - destruct Hlaw as [Hc|[_ ->]]; [by left|]. right. by exists (length q).
Qed.

(** Collection only deletes what was queued. A collection changes the
    store at most once per queued key, and each change deletes such a key. *)
Theorem collection_only_deletes_queued self :
  changes (removes (garbage self)) (length (garbage self)) (collect_garbage self : proc _).
Proof. by apply changes_collect_loop. Qed.

End writer.
