(* ===== verification/Availability.v ===== *)
(** * A log with one writer accepts every append

    The other theorems say what an answer means; this file says that the
    answer comes. On a store that answers its requests ([Responsive]), while
    nobody else writes the log, each compare-and-swap of the writer wins at
    its first attempt, whatever its compaction threads and any number of
    replicas do: every append is acknowledged, with consecutive LSNs.

    It starts from whatever a crash of any system of handles has left, so a
    log that is within the limits can always be opened again.

    [lrely] and [lguar] are the contracts of a pool whose thread 0 is the only
    one that changes the log object; the others only add objects beside it.
    [lwp_self], [lwp_spares], [lwp_reads] and [lwp_and] carry the contracts of
    the operations over to it, [lwp_other] those of the other threads. *)

From S2P Require Import Prelude Fmt Utf8 Error Image ImageCodec App CountApp Proc Atomic AtomicProps Cache CacheChecksum CacheProps CacheTheorems Store StoreProps World Core Compactor Writer Protocol Invariant Steps StepsCache StepsStore CoreProps CompactorProps WriterInv InstallProps WriterProps Scenario System Progress ReplicaProps MaintenanceProps FootprintProps.

(** A store that answers reads and compare-and-swaps: a read that carries the
    current validator says that nothing has changed, and a compare-and-swap
    loses only against another version. Deletions may still fail. *)
Class Responsive (S : Type) `{ObjectStoreLaws S} : Type := {
  answer_limit : option Z;
  max_object_bytes_answers : forall s, max_object_bytes s = answer_limit;
  get_answers : forall k s s' r,
    get k s = (s', r) -> store_wf s -> store_sane s' -> is_ok r = true;
  get_if_changed_answers : forall k c s s' r,
    get_if_changed k c s = (s', r) -> store_wf s -> store_sane s' ->
    match contents s !! k with
    | None => r = Ok Missing
    | Some o => if bool_decide (c = Some (st_etag o)) then r = Ok NotModified else r = Ok (Changed o)
    end;
  put_if_match_answers : forall k c d s s' r,
    put_if_match k c d s = (s', r) -> store_wf s -> store_sane s' ->
    cas_matches (st_etag <$> contents s !! k) c = true -> exists e, r = Ok (PutOk e);
}.

#[global] Program Instance MemoryStore_responsive : Responsive MemoryStore := {| answer_limit := None |}.
Next Obligation. done. Qed.
Next Obligation. cbn. by intros k s s' r [= <- <-]. Qed.
Next Obligation.
  cbn. unfold default_get_if_changed, ms_get. intros k c s s' r Hg _ _.
  destruct (ms_objects s !! k) as [o|], c as [e|]; try (by injection Hg as <- <-).
  all: repeat case_bool_decide; injection Hg as <- <-; congruence.
Qed.
Next Obligation.
  cbn. unfold ms_put_if_match. intros k c d s s' r Hp _ _ Hm. rewrite Hm in Hp. cbn in Hp. injection Hp as <- <-. by eexists.
Qed.

Section lone.
Context {S : Type} `{ObjectStoreLaws S} `{WalAppLaws}.
Variable P : string.
Variable ns : option string.
Abbreviation World := (World S).
Abbreviation proc := (proc World).
Abbreviation cfg := (History * World)%type.
Abbreviation inv := (inv P ns).
Abbreviation rely := (rely P ns).
Abbreviation guar := (guar P ns).
Abbreviation grows := (grows P).
Abbreviation wp := (pwp P ns).
Implicit Types (w : World) (c : cfg).

(** ** One thread owns the log object *)

Definition log_of w : option Stored := contents (w_store w) !! wkey P.

(** The others may only add objects beside it. *)
Definition beside c c' : Prop := log_of c'.2 = log_of c.2 /\ contents (w_store c.2) ⊆ contents (w_store c'.2).

Definition lrely (i : nat) c c' : Prop := rely i c c' /\ (i = 0%nat -> beside c c').
Definition lguar (i : nat) c c' : Prop := guar i c c' /\ (i <> 0%nat -> beside c c').
Abbreviation lwp := (Proc.wp sane_world (record P) lrely lguar (fun _ _ => True)).

Lemma lrely_refl i c : inv c -> lrely i c c.
Proof. intros Hi. split; [by apply rely_refl|done]. Qed.

Lemma lrely_trans i c1 c2 c3 : lrely i c1 c2 -> lrely i c2 c3 -> lrely i c1 c3.
Proof. intros [Hr L1] [Hr' L2]. split; [by eapply rely_trans|]. intros Hi. destruct (L1 Hi) as [Hl Hm], (L2 Hi) as [Hl' Hm'].
  split; [congruence|by etransitivity]. Qed.

Lemma lguar_inv i c c' : lguar i c c' -> inv c'.
Proof. intros [Hg _]. by eapply guar_inv. Qed.

Lemma lguar_lrely i j c c' : i <> j -> lguar j c c' -> lrely i c c'.
Proof. intros Hne [Hg Hl]. split; [by eapply guar_rely|]. intros ->. by apply Hl. Qed.

(** While the log object stays, so do the entries of the history. *)
Lemma entries_still c c' : inv c -> inv c' -> grows c c' -> log_of c'.2 = log_of c.2 -> entries c'.1 = entries c.1.
Proof.
  intros Hi Hi' Hg Hl. destruct (entries_mono _ _ _ Hg) as [x Hx].
  pose proof (inv_log_next _ _ _ Hi) as Hn. pose proof (inv_log_next _ _ _ Hi') as Hn'.
  unfold log_next in Hn, Hn'. rewrite (cur_same P c.2 c'.2 Hl), Hx, zlen_app in Hn'.
  rewrite Hx, (zlen_0_nil x) by lia. by rewrite app_nil_r.
Qed.

(** ** Carrying contracts over *)

(** What the owner's contract proves still holds. *)
Lemma lwp_self {A} (p : proc A) Q E c : wp 0 p Q E c -> lwp 0 p Q E c.
Proof.
  revert c. induction p as [a|R f k IH|m]; intros c; cbn [Proc.wp]; [done| |done].
  intros Hp c1 [Hr _]. specialize (Hp c1 Hr). destruct (f c1.2) as [[w2 r]|]; [|done].
  intros Hs. destruct (Hp Hs) as [Hg Hk]. split; [by split|by apply IH].
Qed.

Lemma lwp_and i {A} (p : proc A) Q1 Q2 E E2 c : wp i p Q1 E c -> lwp i p Q2 E2 c ->
  lwp i p (fun a c' => Q1 a c' /\ Q2 a c') E c.
Proof.
  revert c. induction p as [a|R f k IH|m]; intros c; cbn [Proc.wp]; [done| |done].
  intros Ha Hb c1 Hr. specialize (Ha c1 (proj1 Hr)). specialize (Hb c1 Hr).
  destruct (f c1.2) as [[w2 r]|]; [|done]. intros Hs. destruct (Ha Hs), (Hb Hs). split; [done|by apply IH].
Qed.

Lemma lwp_rets i {A} (p : proc A) Q E (R : A -> Prop) c : rets p R -> lwp i p Q E c ->
  lwp i p (fun a c' => Q a c' /\ R a) E c.
Proof.
  revert c. induction p as [a|X f k IH|m]; intros c Hp; cbn [Proc.wp] in *; [by split| |done].
  intros Hw c1 Hr. specialize (Hw c1 Hr). destruct (f c1.2) as [[w2 r]|]; [|done].
  intros Hs. destruct (Hw Hs). split; [done|]. apply IH; [apply Hp|done].
Qed.

(** Code of the owner that leaves the log object alone. *)
Definition spares (m m' : gmap string Stored) : Prop := m' !! wkey P = m !! wkey P.

Lemma lwp_leaves0 ch n {A} (p : proc A) Q E c0 c :
  (forall m m', ch m m' -> spares m m') -> changes ch n p -> wp 0 p Q E c -> log_of c.2 = log_of c0.2 ->
  lwp 0 p (fun a c' => Q a c' /\ log_of c'.2 = log_of c0.2) E c.
Proof.
  intros Hch. revert n c. induction p as [a|R f k IH|m]; intros n c Hp Hw Hl0; cbn [Proc.wp] in *; [done| |done].
  intros c1 [Hr Hl]. destruct (Hl eq_refl) as [Hl1 _]. specialize (Hw c1 Hr). cbn [changes] in Hp.
  specialize (Hp c1.2 (inv_wf _ _ _ (rely_inv _ _ _ _ _ Hr))).
  destruct (f c1.2) as [[w2 r]|]; [|done]. intros Hs. destruct (Hw Hs) as [Hg Hk].
  split; [by split|]. destruct (Hp Hs) as [_ [[Hc Hn]|(n' & _ & Hc & Hn)]]; cbn [after snd] in *.
  - apply (IH r n); [done|done|]. unfold log_of in *. cbn [after snd]. by rewrite Hc, Hl1.
  - apply (IH r n'); [done|done|]. apply Hch in Hc. unfold spares, log_of in *. cbn [after snd]. by rewrite Hc, Hl1.
Qed.

Lemma lwp_leaves ch n {A} (p : proc A) Q E c :
  (forall m m', ch m m' -> spares m m') -> changes ch n p -> wp 0 p Q E c ->
  lwp 0 p (fun a c' => Q a c' /\ log_of c'.2 = log_of c.2) E c.
Proof. intros. by eapply lwp_leaves0. Qed.

(** Code of the other threads, which may only add objects. *)
Lemma lwp_other i ch n {A} (p : proc A) Q E c : i <> 0%nat ->
  (forall m m', ch m m' -> spares m m' /\ m ⊆ m') -> changes ch n p -> wp i p Q E c -> lwp i p Q E c.
Proof.
  intros Hi Hch. revert n c. induction p as [a|R f k IH|m]; intros n c Hp Hw; cbn [Proc.wp] in *; [done| |done].
  intros c1 [Hr _]. specialize (Hw c1 Hr). cbn [changes] in Hp.
  specialize (Hp c1.2 (inv_wf _ _ _ (rely_inv _ _ _ _ _ Hr))).
  destruct (f c1.2) as [[w2 r]|]; [|done]. intros Hs. destruct (Hw Hs) as [Hg Hk].
  assert (exists n', changes ch n' (k r) /\ beside c1 (after (record P) i c1 w2)) as (n' & Hn & Hb).
  { destruct (Hp Hs) as [_ [[Hc Hn]|(n' & _ & Hc & Hn)]]; eexists; (split; [exact Hn|]); unfold beside, log_of; cbn [after snd].
    - by rewrite Hc.
    - by apply Hch in Hc. }
  split; [by split|]. by apply (IH r n').
Qed.

(** The usual case, in the form in which the owner's proofs use it. *)
Lemma lwp_spares {A} (p : proc A) Q (Q' : A -> cfg -> Prop) E c :
  changes spares 0 p -> wp 0 p Q E c ->
  (forall a c', Q a c' -> log_of c'.2 = log_of c.2 -> Q' a c') -> lwp 0 p Q' E c.
Proof.
  intros Hp Hw HQ. eapply wp_mono; [|by eapply lwp_leaves].
  intros a c' [Ha Hl]. by apply HQ.
Qed.

(** Code of the owner that changes no object. *)
Lemma lwp_reads0 {A} (p : proc A) Q E c0 c : reads p -> wp 0 p Q E c -> beside c0 c ->
  lwp 0 p (fun a c' => Q a c' /\ beside c0 c') E c.
Proof.
  revert c. induction p as [a|R f k IH|m]; intros c Hp Hw Hb; cbn [Proc.wp] in *; [done| |done].
  intros c1 [Hr Hl]. specialize (Hw c1 Hr). cbn [reads] in Hp. specialize (Hp c1.2 (inv_wf _ _ _ (rely_inv _ _ _ _ _ Hr))).
  destruct (f c1.2) as [[w2 r]|]; [|done]. intros Hs. destruct (Hw Hs) as [Hg Hk]. destruct (Hp Hs) as [(Hc & _) Hpk].
  split; [by split|]. apply IH; [done|done|]. destruct Hb as [Hbl Hbm], (Hl eq_refl) as [Hl1 Hm1].
  unfold beside, log_of in *. cbn [after snd]. rewrite Hc. split; [congruence|by etransitivity].
Qed.

Lemma lwp_reads {A} (p : proc A) Q (Q' : A -> cfg -> Prop) E c : reads p -> wp 0 p Q E c ->
  (forall a c', Q a c' -> beside c c' -> Q' a c') -> lwp 0 p Q' E c.
Proof. intros Hp Hw HQ. eapply wp_mono; [|by eapply lwp_reads0]. intros a c' [Ha Hb]. by apply HQ. Qed.

(** A request of the owner, with what its answer says of the log object. *)
Lemma lwp_request {R} (f : S -> S * R) (F : R -> World -> Prop) Q E c :
  wp 0 (request f) Q E c ->
  (forall c1 s r, lrely 0 c c1 -> f (w_store c1.2) = (s, r) -> store_sane s -> F r (with_store s c1.2)) ->
  lwp 0 (request f) (fun r c' => Q r c' /\ F r c'.2) E c.
Proof.
  intros Hw HF c1 Hr. cbn [Proc.wp request act] in *. specialize (Hw c1 (proj1 Hr)).
  destruct (f (w_store c1.2)) as [s r] eqn:Ef. intros Hs. destruct (Hw Hs) as [Hg HQ].
  split; [by split|]. split; [done|]. by eapply HF.
Qed.

(** ** The owner's handle *)

Context `{!LogNames P ns} `{!Responsive S}.
Abbreviation writer_ok := (writer_ok P ns).
Abbreviation core_ok := (core_ok P ns).
Implicit Types (self : WalTier).

(** The LSN at which the live entries of the log start. *)
Definition base w : Z := from_option (fun sr => sr_lsn sr + 1) 0 (snap_ref P w).

(** A bound on it from below. *)
Variable b : Z.
Definition based c : Prop := b <= base c.2.

Lemma based_still c c' : log_of c'.2 = log_of c.2 -> based c -> based c'.
Proof. unfold based, base, snap_ref, cur, log_of. by intros ->. Qed.

Lemma based_mono c c' : inv c' -> grows c c' -> based c -> based c'.
Proof.
  intros Hi Hg. unfold based, base. destruct (snap_ref P c.2) as [sr|] eqn:E; cbn.
  - destruct (grows_ref _ _ _ Hg sr E) as (sr' & -> & [->|Hlt]); cbn; lia.
  - destruct (snap_ref P c'.2) as [sr'|] eqn:E'; cbn; [|done].
    destruct (inv_ref P ns c' sr' Hi E') as [[[? _] _] _]. lia.
Qed.

(** The handle holds the validator of the log object. *)
Definition synced self c : Prop :=
  (exists o, log_of c.2 = Some o /\ etag (core self) = Some (st_etag o)) /\ based c.

Lemma synced_still self self' c c' : etag (core self') = etag (core self) -> log_of c'.2 = log_of c.2 ->
  synced self c -> synced self' c'.
Proof. intros He Hl [(o & Ho & Hs) Hb]. split; [exists o; by rewrite He, Hl|by eapply based_still]. Qed.

(** Its image is the log's. *)
Lemma synced_cur self c : inv c -> writer_ok self c -> synced self c ->
  cur P c.2 = Some (image (core self)) /\ next_lsn (image (core self)) = zlen (entries c.1).
Proof.
  intros Hi [Hw _] [(o & Ho & He) _]. pose proof (co_seen _ _ _ _ (wo_core _ _ _ _ Hw)) as Hs. rewrite He in Hs.
  by apply (seen_match P ns _ c o).
Qed.

(** ** Room for what the writer means to append *)

(** [hist] is the history that is meant to be; its entries from LSN [b] on may
    all be live at once. *)
Record roomy (o : Options) (hist : list bytes) : Prop := {
  ro_lsns : zlen hist <= U64_MAX;
  ro_count : zlen (drop (Z.to_nat b) hist) <= max_live_entries o;
  ro_widths : Forall (fun e => zlen e <= U32_MAX) (drop (Z.to_nat b) hist);
  ro_key : str_len P + 58 <= U32_MAX;
  ro_bytes : 79 + str_len P + entries_size (drop (Z.to_nat b) hist) <= max_image_bytes o;
}.

Lemma roomy_prefix o hist hist' : hist `prefix_of` hist' -> roomy o hist' -> roomy o hist.
Proof.
  intros [x ->] [Hl Hc Hw Hk Hb]. rewrite drop_app in Hc, Hw, Hb. rewrite zlen_app in Hl, Hc. rewrite entries_size_app in Hb.
  apply Forall_app in Hw as [Hw _]. match type of Hc with context [zlen (drop ?k x)] => set (y := drop k x) in * end.
  pose proof (zlen_nonneg x). pose proof (zlen_nonneg y). pose proof (entries_size_nonneg y). split; [lia|lia|done|done|lia].
Qed.

(** A suffix of the live entries is small enough to be an image. *)
Lemma roomy_fits o hist pre es sn : opts_ok P o -> roomy o hist -> hist = pre ++ es -> b <= zlen pre ->
  from_option (fun s => sr_lsn s + 1) 0 sn = zlen pre ->
  (forall sr, sn = Some sr -> str_len (sr_key sr) = str_len P + 58) -> fits sn es (limits o).
Proof.
  intros Ho [Hlsns Hcount Hwidths Hkey Hbytes] -> Hb Hbase Hlen.
  pose proof (oo_entries _ _ Ho) as Hmax. pose proof (zlen_nonneg pre). pose proof (zlen_nonneg es).
  rewrite drop_app_le in Hcount, Hwidths, Hbytes by zlia. rewrite zlen_app in Hcount, Hlsns. rewrite entries_size_app in Hbytes.
  apply Forall_app in Hwidths as [_ Hwidths]. set (x := drop (Z.to_nat b) pre) in *.
  pose proof (zlen_nonneg x). pose proof (entries_size_nonneg x).
  split_and!; cbn [limits lim_entries lim_bytes]; [lia|lia| | |done|].
  - assert (check_lsn sn (zlen es) = Some (zlen pre + zlen es)) as ->; [|done].
    apply check_lsn_Some. rewrite Hbase. split_and!; [done| |zlia].
    destruct sn; cbn [from_option] in *; [zlia|done].
  - destruct sn as [sr|]; [|done]. cbn [from_option]. by rewrite (Hlen sr eq_refl).
  - unfold image_size. destruct sn as [sr|]; cbn [snapshot_size from_option].
    + rewrite (Hlen sr eq_refl). lia.
    + assert (0 <= str_len P) by apply zlen_nonneg. lia.
Qed.

(** The entries of the next image are a suffix of the history with the batch. *)
Lemma next_image_suffix self extra c : writer_ok self c -> next_lsn (image (core self)) = zlen (entries c.1) ->
  exists pre, entries c.1 ++ extra = pre ++ img_entries (next_image self extra)
    /\ zlen pre = first_lsn (image (core self)) + fold_skip self.
Proof.
  intros Hok Hnext. pose proof (fold_skip_range P ns self c Hok) as Hskip. destruct Hok as [Hw _].
  destruct (core_ok_wf _ _ _ _ (wo_core _ _ _ _ Hw)) as [Hwf (pre & post & Hent & Hpre)].
  pose proof (next_lsn_wf _ Hwf) as [Hn _].
  assert (post = []) as ->. { apply zlen_0_nil. apply (f_equal zlen) in Hent. rewrite !zlen_app in Hent. lia. }
  rewrite app_nil_r in Hent. exists (pre ++ take (Z.to_nat (fold_skip self)) (img_entries (image (core self)))). split.
  - unfold next_image, view, view_entries. cbn [img_entries]. rewrite Hent, <- !app_assoc. f_equal.
    by rewrite app_assoc, take_drop.
  - rewrite zlen_app, zlen_take by lia. lia.
Qed.

Lemma synced_first self c : inv c -> writer_ok self c -> synced self c -> b <= first_lsn (image (core self)).
Proof.
  intros Hi Hok Hsy. destruct (synced_cur self c Hi Hok Hsy) as [Hcur _]. destruct Hsy as [_ Hb].
  destruct (core_ok_wf _ _ _ _ (wo_core _ _ _ _ (proj1 Hok))) as [Hwf _]. pose proof (first_lsn_wf _ Hwf) as [-> _].
  unfold based, base, snap_ref in Hb. by rewrite Hcur in Hb.
Qed.

Lemma next_image_fits self extra c : inv c -> writer_ok self c -> synced self c ->
  roomy (opts (core self)) (entries c.1 ++ extra) ->
  fits (img_snapshot (next_image self extra)) (img_entries (next_image self extra)) (limits (opts (core self))).
Proof.
  intros Hi Hok Hsy Hroom. destruct (synced_cur self c Hi Hok Hsy) as [Hcur Hnext].
  pose proof (synced_first self c Hi Hok Hsy) as Hb.
  destruct (next_image_suffix self extra c Hok Hnext) as (pre & Hall & Hpre).
  pose proof Hok as [Hw Ha]. pose proof (wo_core _ _ _ _ Hw) as Hc. destruct (core_ok_wf _ _ _ _ Hc) as [Hwf _].
  pose proof (first_lsn_wf _ Hwf) as [Hf _]. pose proof (fold_skip_range P ns self c Hok) as Hskip.
  eapply roomy_fits; [apply Hc|exact Hroom|exact Hall|lia| |].
  - rewrite Hpre. unfold next_image, view, view_snapshot, fold_ref, fold_skip. cbn [img_snapshot].
    destruct (compaction self); try (rewrite Hf; lia). cbn. lia.
  - intros sr Hsr. eapply snap_key_len. by apply (next_image_key P ns self extra c).
Qed.

(** ** The compare-and-swap wins *)

Lemma lwp_commit e o im im' extra E c : proposal P c e im im' extra -> log_of c.2 = Some o -> st_etag o = e ->
  lwp 0 (request (put_if_match (wkey P) (Some e) (emitted im')))
    (fun r c' => exists e', r = Ok (PutOk e') /\ commits_now P ns 0 c c' im extra /\ cur P c'.2 = Some im'
       /\ seen P im' e' c' /\ log_of c'.2 = Some (mkStored (emitted im') e')) E c.
Proof.
  intros Hpr Ho He.
  pose (F := fun (r : Result CondPut StoreError) w => exists e', r = Ok (PutOk e') /\ log_of w = Some (mkStored (emitted im') e')).
  pose (Q := fun (r : Result CondPut StoreError) c' => forall e', r = Ok (PutOk e') ->
    commits_now P ns 0 c c' im extra /\ cur P c'.2 = Some im' /\ seen P im' e' c').
  eapply wp_mono; [|eapply (lwp_request _ F Q)].
  - intros r c' [Hq (e' & -> & Hl)]. destruct (Hq e' eq_refl) as (? & ? & ?). by exists e'.
  - apply (wp_commit P ns 0 e im im' extra _ E c Hpr). intros r c' Hr e' ->. exact Hr.
  - intros c1 s r [Hr Hlog] Hp Hs. destruct (Hlog eq_refl) as [Hlog' _]. unfold log_of in *. pose proof (rely_inv _ _ _ _ _ Hr) as Hi1.
    destruct (put_if_match_answers _ _ _ _ _ _ Hp (inv_wf _ _ _ Hi1) Hs) as [e' ->].
    { rewrite Hlog', Ho. cbn. by rewrite bool_decide_eq_true. }
    destruct (put_if_match_law _ _ _ _ _ _ Hp (inv_wf _ _ _ Hi1) Hs) as (_ & _ & Hc). exists e'.
    split; [done|]. cbn. by rewrite Hc, lookup_insert_eq.
Qed.

Lemma commits_now_entries c c' im extra : inv c -> next_lsn im = zlen (entries c.1) ->
  commits_now P ns 0 c c' im extra -> entries c'.1 = entries c.1 ++ extra.
Proof.
  intros Hi Hn (_ & _ & _ & g & Hpre & Hz & Hc). rewrite Hc, entries_app, entries_batch_of. f_equal.
  apply entries_prefix in Hpre as [x Hx]. rewrite Hx, zlen_app in Hz. rewrite Hx, (zlen_0_nil x) by lia. by rewrite app_nil_r.
Qed.

(** What a won attempt leaves. *)
Definition won self extra c (r : WalTier * Result bool InstallError) c' : Prop :=
  install_ok P ns 0 self extra c r c' /\ r.2 = Ok true /\ inv c' /\ grows c c'
  /\ entries c'.1 = entries c.1 ++ extra /\ synced r.1 c' /\ opts (core r.1) = opts (core self).

Lemma lwp_try_install self extra (Q : WalTier * Result bool InstallError -> cfg -> Prop) E c :
  inv c -> writer_ok self c -> synced self c -> Forall entry_ok extra ->
  roomy (opts (core self)) (entries c.1 ++ extra) ->
  (forall r c', won self extra c r c' -> Q r c') -> lwp 0 (try_install extra self) Q E c.
Proof.
  intros Hi Hok Hsy Hex Hroom HQ. pose proof (next_image_fits self extra c Hi Hok Hsy Hroom) as Hfits.
  destruct (synced_cur self c Hi Hok Hsy) as [_ Hnext].
  eapply wp_mono.
  2: { eapply (lwp_and 0 _ (fun r c' => install_ok P ns 0 self extra c r c')
         (fun r c' => r.2 = Ok true /\ inv c' /\ grows c c' /\ entries c'.1 = entries c.1 ++ extra /\ synced r.1 c'
            /\ opts (core r.1) = opts (core self)) E E).
       - by apply (wp_try_install P ns).
       - unfold try_install. rewrite (candidate_spec P ns self extra c) by done.
         pose proof (fold_skip_range P ns self c Hok) as Hskip. pose proof Hok as [Hw _].
         pose proof (wo_core _ _ _ _ Hw) as Hc. destruct Hsy as [(o & Ho & He) Hbd]. rewrite He.
         pose proof (co_seen _ _ _ _ Hc) as Hseen. rewrite He in Hseen.
         assert (encode_view (image (core self)) (fold_ref self) (fold_skip self) extra (limits (opts (core self)))
           = Ok (emitted (next_image self extra))) as ->.
         { apply encode_view_ok; [lia|by eapply opts_ok_limits, co_opts|].
           split; [lia|]. by split. }
         rewrite (opts_ok_wal_key P) by apply Hc.
         apply wp_bind. eapply wp_mono; [|eapply (lwp_commit (st_etag o) o _ (next_image self extra) extra); [by apply (next_image_proposal P ns)|done..]].
         intros r c1 (e' & -> & Hcom & Hcur & Hs' & Hlog). pose proof Hcom as (Hi1 & Hg1 & _).
         pose proof (commits_now_entries c c1 _ _ Hi Hnext Hcom) as Hent.
         apply (lwp_spares _ (fun r c' => rely 0 c1 c'
           /\ r = (installed_self (with_core (recorded e' (emitted (next_image self extra)) (core self)) self), Ok true))).
         + apply changes_bind; [change_walk|]. intros co. apply changes_bind; [auto with changes|done].
         + apply wp_bind, (wp_record_image_put P ns); [done|apply Hc|apply Hs'|]. intros c2 Hr2.
           apply wp_bind, (wp_install_pending_fold P ns); [by apply Hr2|]. intros c3 Hr3.
           split; [by eapply rely_trans|done].
         + intros r c2 [Hr ->] Hl. pose proof Hr as (Hi2 & Hg2 & _). cbn [fst snd].
           rewrite (installed_core P ns self extra c) by done.
           split_and!; [done|done|by eapply grows_trans| | |done].
           * by rewrite <- Hent; apply entries_still.
           * split; [|by eapply based_still, based_mono].
             exists (mkStored (emitted (next_image self extra)) e'). rewrite Hl. split; [done|].
             by rewrite (installed_core P ns self extra c). }
  intros r c' (Hins & Hok' & Hi' & Hg' & Hent & Hsy' & Hopts). apply HQ. by split_and!.
Qed.

(** What an append of the owner answers and leaves. *)
Definition acked self es c (r : WalTier * append_result) c' : Prop :=
  inv c' /\ grows c c' /\ writer_ok r.1 c' /\ synced r.1 c' /\ opts (core r.1) = opts (core self)
  /\ r.2 = Ok (zlen (entries c.1), zlen (entries c.1) + zlen es) /\ entries c'.1 = entries c.1 ++ es.

Lemma pushed_opts first es self : opts (core (pushed first es self)) = opts (core self)
  /\ etag (core (pushed first es self)) = etag (core self).
Proof.
  unfold pushed. cbn [core with_core]. generalize (core self). intros co. generalize 0. revert co.
  induction es as [|e es IH]; intros co k; cbn [push_applied]; [done|]. destruct (IH (mkCore (opts co) (cache co) (apply (state co) (wrapping_add first k) e)
     (mkWalImage (img_snapshot (image co)) (img_entries (image co) ++ [e])) (etag co) (image_len co) (cache_dirty co)) (k + 1)) as [-> ->]. done.
Qed.

Lemma lwp_append_loop n attempt single es self (Q : WalTier * append_result -> cfg -> Prop) E c :
  inv c -> writer_ok self c -> synced self c -> Forall entry_ok es -> (0 < n)%nat ->
  roomy (opts (core self)) (entries c.1 ++ es) ->
  (forall r c', acked self es c r c' -> Q r c') -> lwp 0 (append_loop n attempt single es self) Q E c.
Proof.
  intros Hi Hok Hsy Hes Hn Hroom HQ. destruct n as [|n]; [lia|]. cbn [append_loop].
  destruct (synced_cur self c Hi Hok Hsy) as [_ Hnext].
  destruct es as [|e0 es0] eqn:Ees.
  { apply HQ. unfold acked. cbn [fst snd]. rewrite Hnext, (@zlen_nil bytes), Z.add_0_r, app_nil_r.
    split_and!; try done. apply grows_refl. }
  rewrite <- Ees in *. apply wp_bind, lwp_try_install; [done..|].
  intros [s1 r] c1 (Hins & Hr & Hi1 & Hg1 & Hent1 & Hsy1 & Ho1). cbn [fst snd] in *. subst r.
  unfold install_ok in Hins. cbn [fst snd] in Hins. destruct Hins as (_ & _ & Hpush & Hnl & _).
  destruct (pushed_opts (next_lsn (image (core self))) es s1) as [Hpo Hpe].
  set (first := next_lsn (image (core self))) in *.
  apply (lwp_spares _ (fun r c' => exists s2, r = (s2, Ok (first, wrapping_add first (zlen es))) /\ rely 0 c1 c'
    /\ writer_ok s2 c' /\ core s2 = core (pushed first es s1))).
  - apply changes_bind; [auto with changes|done].
  - apply wp_bind, (wp_maybe_trigger_compaction P ns); [done|exact Hpush|].
    intros s2 c2 Hr2 Hok2 Hcore2. by exists s2.
  - intros r c2 (s2 & -> & Hr2 & Hok2 & Hcore2) Hl. pose proof Hr2 as (Hi2 & Hg2 & _). apply HQ.
    destruct (core_ok_wf _ _ _ _ (wo_core _ _ _ _ (proj1 Hpush))) as [Hwfp _].
    pose proof (next_lsn_wf _ Hwfp) as [_ Hmax]. rewrite Hnl in Hmax. pose proof (zlen_nonneg es). pose proof (zlen_nonneg (entries c.1)).
    unfold acked. cbn [fst snd]. rewrite Hcore2. split_and!; [done|by eapply grows_trans|done| |congruence| |].
    + eapply synced_still; [by rewrite Hcore2|done|done].
    + unfold wrapping_add. rewrite wrap64_small by zlia. by rewrite <- Hnext.
    + rewrite <- Hent1. by apply entries_still.
Qed.

Lemma lwp_append es single self (Q : WalTier * append_result -> cfg -> Prop) E c :
  inv c -> writer_ok self c -> synced self c -> Forall entry_ok es ->
  roomy (opts (core self)) (entries c.1 ++ es) ->
  (forall r c', acked self es c r c' -> Q r c') -> lwp 0 (append es single self) Q E c.
Proof.
  intros Hi Hok Hsy Hes Hroom HQ. unfold append. apply wp_bind.
  apply (lwp_spares _ (fun s c' => rely 0 c c' /\ writer_ok s c' /\ core s = core self)).
  - auto with changes.
  - by apply (wp_sync_compaction P ns).
  - intros s1 c1 (Hr1 & Hok1 & Hcore1) Hl. pose proof Hr1 as (Hi1 & Hg1 & _).
    pose proof (entries_still c c1 Hi Hi1 Hg1 Hl) as Hent.
    pose proof (oo_attempts _ _ (co_opts _ _ _ _ (wo_core _ _ _ _ (proj1 Hok1)))) as Hpos.
    apply lwp_append_loop; [done|done| |done|lia|by rewrite Hcore1, Hent|].
    { eapply synced_still; [by rewrite Hcore1|done|done]. }
    intros r c2 (Hi2 & Hg2 & Hok2 & Hsy2 & Ho2 & Hr & Hent2). apply HQ. rewrite Hent in Hr, Hent2.
    unfold acked. split_and!; [done|by eapply grows_trans|done|done|by rewrite Ho2, Hcore1|done|done].
Qed.

(** ** The other operations keep the handle in step *)

(** After an operation that appends nothing. *)
Definition idle self c self' c' : Prop :=
  inv c' /\ grows c c' /\ writer_ok self' c' /\ synced self' c' /\ opts (core self') = opts (core self)
  /\ entries c'.1 = entries c.1.

Lemma idle_trans self c self1 c1 self2 c2 : idle self c self1 c1 -> idle self1 c1 self2 c2 -> idle self c self2 c2.
Proof.
  intros (_ & Hg1 & _ & _ & Ho1 & He1) (Hi2 & Hg2 & Hok2 & Hs2 & Ho2 & He2).
  split_and!; [done|by eapply grows_trans|done|done|congruence|congruence].
Qed.

Lemma idle_refl self c : inv c -> writer_ok self c -> synced self c -> idle self c self c.
Proof. intros. split_and!; [done|apply grows_refl|done..]. Qed.

Lemma idle_intro self self' c c' : inv c -> synced self c -> rely 0 c c' -> writer_ok self' c' ->
  etag (core self') = etag (core self) -> opts (core self') = opts (core self) -> log_of c'.2 = log_of c.2 ->
  idle self c self' c'.
Proof.
  intros Hi Hs Hr Hok He Ho Hl. pose proof Hr as (Hi' & Hg & _).
  split_and!; [done|done|done|by eapply synced_still|done|by apply entries_still].
Qed.

(** Code that leaves the log and the [Core] alone. *)
Lemma lwp_core_same {A} (p : proc (WalTier * A)) self (Q : WalTier * A -> cfg -> Prop) E c :
  inv c -> synced self c -> changes spares 0 p ->
  wp 0 p (fun r c' => rely 0 c c' /\ writer_ok r.1 c' /\ core r.1 = core self) E c ->
  (forall r c', idle self c r.1 c' -> Q r c') -> lwp 0 p Q E c.
Proof.
  intros Hi Hs Hp Hw HQ. eapply lwp_spares; [done|exact Hw|]. intros r c' (Hr & Hok & Hcore) Hl.
  apply HQ. by apply idle_intro; rewrite ?Hcore.
Qed.

Lemma changes_compact_now self : changes spares 0 (compact_now self : proc _).
Proof. unfold compact_now, spawn_compaction. change_walk. Qed.
Lemma changes_wait self : changes spares 0 (wait_for_compaction self : proc _).
Proof. unfold wait_for_compaction, finish_compaction. change_walk. Qed.
Lemma changes_take_error self : changes spares 0 (take_compaction_error self : proc _).
Proof. unfold take_compaction_error, integrate_compaction, finish_compaction. change_walk. Qed.
Lemma changes_WalTier_checkpoint self : changes spares 0 (WalTier_checkpoint_cache self : proc _).
Proof. unfold WalTier_checkpoint_cache. change_walk. Qed.

Lemma rets_WalTier_checkpoint self : rets (WalTier_checkpoint_cache self : proc _) (fun s => etag (core s) = etag (core self)).
Proof.
  unfold WalTier_checkpoint_cache. eapply (rets_seq _ _ (fun co => etag co = etag (core self))); [|by intros co].
  unfold checkpoint_cache. destruct (negb _); [done|]. destruct (etag (core self)) as [e|] eqn:Ee; [|done].
  destruct (encode _ _); [|done]. by apply rets_skip.
Qed.

Lemma lwp_checkpoint self (Q : WalTier -> cfg -> Prop) E c : inv c -> writer_ok self c -> synced self c ->
  (forall self' c', idle self c self' c' -> compaction self' = compaction self -> Q self' c') ->
  lwp 0 (WalTier_checkpoint_cache self) Q E c.
Proof.
  intros Hi Hok Hs HQ. eapply wp_mono; [|eapply lwp_rets; [apply rets_WalTier_checkpoint|]].
  2: { eapply (lwp_leaves spares 0 _ (fun s c' => rely 0 c c' /\ writer_ok s c' /\ compaction s = compaction self
         /\ opts (core s) = opts (core self))); [done|apply changes_WalTier_checkpoint|].
       by apply (wp_WalTier_checkpoint P ns). }
  intros s c' [[(Hr & Hok' & Hcm & Ho) Hl] He]. cbn beta in He. apply HQ; [|done]. apply idle_intro; auto.
Qed.

Lemma lwp_collect self (Q : WalTier * Result GarbageStatus StoreError -> cfg -> Prop) E c :
  inv c -> writer_ok self c -> synced self c ->
  (forall r c', idle self c r.1 c' -> compaction r.1 = compaction self -> Q r c') -> lwp 0 (collect_garbage self) Q E c.
Proof.
  intros Hi Hok Hs HQ.
  eapply wp_mono; [|eapply (lwp_leaves (removes (garbage self)) _ _ (collected_ok P ns 0 self c))].
  - intros r c' [(Hr & Hok' & Hcore & Hcm & _) Hl]. apply HQ; [|done]. apply idle_intro; rewrite ?Hcore; auto.
  - intros m m' (k & Hk & ->). unfold spares. apply lookup_delete_ne.
    pose proof (go_dead _ _ _ (wo_garbage _ _ _ _ (proj1 Hok))) as Hd. rewrite Forall_forall in Hd.
    destruct (Hd k Hk) as (L & _ & Hkey & _). by eapply snap_key_not_wal.
  - by apply changes_collect_loop.
  - by apply (wp_collect_garbage P ns).
Qed.

Lemma lwp_refresh self (Q : WalTier * Result bool WalError -> cfg -> Prop) E c :
  inv c -> writer_ok self c -> synced self c ->
  (forall r c', idle self c r.1 c' -> r.2 = Ok false -> Q r c') -> lwp 0 (WalTier_refresh self) Q E c.
Proof.
  intros Hi Hok Hs HQ. unfold WalTier_refresh. apply wp_bind.
  apply (lwp_spares _ (fun s c' => rely 0 c c' /\ writer_ok s c' /\ core s = core self)).
  { auto with changes. }
  { by apply (wp_sync_compaction P ns). }
  intros s1 c1 (Hr1 & Hok1 & Hcore1) Hl1. pose proof Hr1 as (Hi1 & _).
  assert (synced s1 c1) as Hs1 by by eapply synced_still; [rewrite Hcore1|..].
  destruct Hs1 as [(o & Hlo & He) _]. unfold Core_refresh, MAX_RACES. cbn [refresh_loop].
  rewrite (opts_ok_wal_key P) by apply (wo_core _ _ _ _ (proj1 Hok1)). rewrite He.
  apply wp_bind, wp_bind. eapply wp_mono;
    [|apply (lwp_request _ (fun r w => r = Ok NotModified /\ log_of w = log_of c1.2) (fun _ c' => rely 0 c1 c'))].
  - intros r c2 [Hr2 [-> Hl2]]. cbn [Proc.wp]. pose proof (rely_trans _ _ _ _ _ _ Hr1 Hr2) as Hr. pose proof Hr2 as (Hi2 & Hg2 & _).
    assert (with_core (core s1) s1 = s1) as -> by by destruct s1.
    apply wp_bind. apply (lwp_spares _ (fun s c' => rely 0 c2 c' /\ writer_ok s c' /\ core s = core s1)).
    + auto with changes.
    + apply (wp_discard_superseded_fold P ns); [done|eapply writer_pre_mono; [done|done|apply Hok1]|]. by intros.
    + intros s3 c3 (Hr3 & Hok3 & Hcore3) Hl3. apply HQ; [|done]. cbn [fst r_superseded unchanged queue_superseded].
      apply idle_intro; [done|done|by eapply rely_trans|done|congruence|congruence|congruence].
  - by apply (wp_get_if_changed P ns).
  - intros c2 s r [Hr2 Hl2'] Hg Hsane. destruct (Hl2' eq_refl) as [Hl2 _]. pose proof (inv_wf _ _ _ (rely_inv _ _ _ _ _ Hr2)) as Hwf.
    pose proof (get_if_changed_answers _ _ _ _ _ Hg Hwf Hsane) as Ha.
    destruct (get_if_changed_law _ _ _ _ _ Hg Hwf Hsane) as (_ & Hc & _).
    unfold log_of in *. cbn. rewrite Hc, Hl2. split; [|done]. rewrite Hl2, Hlo in Ha.
    by rewrite bool_decide_eq_true_2 in Ha.
Qed.

Lemma lwp_flush_loop n attempt self (Q : WalTier * Result unit WalError -> cfg -> Prop) E c :
  inv c -> writer_ok self c -> synced self c -> roomy (opts (core self)) (entries c.1) ->
  (forall r c', idle self c r.1 c' -> r.2 = Ok tt -> Q r c') -> lwp 0 (flush_loop n attempt self) Q E c.
Proof.
  intros Hi Hok Hs Hroom HQ. destruct n as [|n]; cbn [flush_loop]; [by apply HQ; [apply idle_refl|]|].
  destruct (negb (has_pending_fold self)); [by apply HQ; [apply idle_refl|]|].
  apply wp_bind, lwp_try_install; [done|done|done|constructor|by rewrite app_nil_r|].
  intros [s1 r] c1 (Hins & Hr & Hi1 & Hg1 & Hent1 & Hs1 & Ho1). cbn [fst snd] in *. subst r.
  unfold install_ok in Hins. cbn [fst snd] in Hins. destruct Hins as (_ & _ & Hpush & _ & _ & Hfold).
  assert (pushed (next_lsn (image (core self))) [] s1 = s1) as Hp by by destruct s1. rewrite Hp in Hpush.
  rewrite Hfold. cbn [andb]. rewrite app_nil_r in Hent1.
  destruct n as [|n]; cbn [flush_loop]; rewrite ?Hfold; cbn [negb]; apply HQ; by try split_and!.
Qed.

(** A flush fails only with the failure of a compaction, or of a deletion. *)
Definition maintenance_error (e : WalError) : Prop :=
  match e with CompactionError _ | StoreFailure _ => True | _ => False end.
Definition maintained {A} (r : Result A WalError) : Prop := match r with Ok _ => True | Err e => maintenance_error e end.

Lemma maintained_status self : maintained (current_compaction_status self).
Proof. unfold current_compaction_status. by destruct (compaction self). Qed.

Lemma rets_wait_status self : rets (wait_for_compaction self : proc _) (fun r => maintained r.2).
Proof. unfold wait_for_compaction. apply rets_skip. intros s1. apply rets_skip. intros s2. apply maintained_status. Qed.

Lemma lwp_flush self (Q : WalTier * Result MaintenanceStatus WalError -> cfg -> Prop) E c :
  inv c -> writer_ok self c -> synced self c -> roomy (opts (core self)) (entries c.1) ->
  (forall r c', idle self c r.1 c' -> maintained r.2 -> Q r c') -> lwp 0 (flush self) Q E c.
Proof.
  intros Hi Hok Hs Hroom HQ. unfold flush. apply wp_bind.
  eapply wp_mono; [|apply lwp_rets; [apply rets_wait_status|]].
  2: { apply (lwp_core_same _ self (fun r c' => idle self c r.1 c'));
         [done|done|apply changes_wait|by apply (wp_wait_for_compaction P ns)|done]. }
  intros [s1 r] c1 [Hid1 Hm]. cbn [fst snd] in Hid1, Hm. destruct r as [st|e]; [|by apply HQ].
  pose proof Hid1 as (Hi1 & _ & Hok1 & Hs1 & Ho1 & He1).
  apply wp_bind, lwp_flush_loop; [done|done|done|by rewrite Ho1, He1|].
  intros [s2 r] c2 Hid2 Hr. cbn [snd] in Hr. subst r. pose proof (idle_trans _ _ _ _ _ _ Hid1 Hid2) as Hid02.
  pose proof Hid02 as (Hi2 & _ & Hok2 & Hs2 & _).
  apply wp_bind, lwp_checkpoint; [done..|]. intros s3 c3 Hid3 _.
  pose proof (idle_trans _ _ _ _ _ _ Hid02 Hid3) as Hid03. pose proof Hid03 as (Hi3 & _ & Hok3 & Hs3 & _).
  apply wp_bind, lwp_collect; [done..|]. intros [s4 r] c4 Hid4 _. apply HQ; [by eapply idle_trans|].
  cbn [snd]. destruct r as [g|e]; [|done]. pose proof (maintained_status s4) as Hm4. by destruct (current_compaction_status s4).
Qed.

(** ** Opening the log *)

Lemma decode_empty o : opts_ok P o -> decode (emitted empty) (limits o) = Ok empty.
Proof.
  intros Ho. pose proof (oo_bytes _ _ Ho). pose proof (oo_entries _ _ Ho). apply decode_ok.
  split; [done|]. split; [by split_and!|]. split; [change (9 <= max_image_bytes o); lia|]. change (0 <= max_live_entries o). lia.
Qed.

(** The handle's [Core] after an open: it holds the log's validator, and
    nothing has been appended. *)
Definition owned o' c (r : Result Core WalError) c' : Prop :=
  inv c' /\ grows c c' /\ entries c'.1 = entries c.1
  /\ exists co st, r = Ok co /\ log_of c'.2 = Some st /\ etag co = Some (st_etag st) /\ opts co = o'.

(** The snapshot that an image references is there and within the limit. *)
Definition snapshot_fits o im w : Prop :=
  forall sr, img_snapshot im = Some sr ->
    exists ob, contents (w_store w) !! sr_key sr = Some ob /\ zlen (st_data ob) <= max_snapshot_bytes o.

Lemma changes_open_finish o ca stored im st : changes spares 0 (open_finish o ca stored im st : proc _).
Proof. unfold open_finish. pose proof reads_retain_cache as Hr. change_walk. Qed.

Lemma lwp_open_finish o ca stored im st (Q : Result Core WalError -> cfg -> Prop) E c :
  inv c -> cache_ok P ns ca -> st_data stored = emitted im -> seen P im (st_etag stored) c -> log_of c.2 = Some stored ->
  (forall r c', owned o c r c' -> Q r c') -> lwp 0 (open_finish o ca stored im st) Q E c.
Proof.
  intros Hi Hca Hd Hseen Hlog HQ.
  apply (lwp_spares _ (fun r c' => rely 0 c c' /\ exists co, r = Ok co /\ etag co = Some (st_etag stored) /\ opts co = o)).
  - apply changes_open_finish.
  - unfold open_finish. apply wp_bind, (wp_retain_cache P ns); [done|]. intros c1 Hr1. pose proof Hr1 as (Hi1 & Hg1 & _).
    apply wp_bind, (wp_record_image_put P ns); [done|done| |].
    { rewrite Hd. apply (seen_mono _ _ _ _ _ _ Hi1 Hg1 Hseen). }
    intros c2 Hr2. split; [by eapply rely_trans|]. by eexists.
  - intros r c1 [Hr (co & -> & He & Hop)] Hl. pose proof Hr as (Hi1 & Hg1 & _). apply HQ.
    split; [done|]. split; [done|]. split; [by apply entries_still|]. exists co, stored. by rewrite Hl.
Qed.

(** The referenced snapshot is fetched, from the cache or from the store. *)
Lemma lwp_fetch_snapshot ca k L max ob (Q : Result (option bytes) WalError -> cfg -> Prop) E c :
  inv c -> cache_ok P ns ca -> snap_key_at P k L -> contents (w_store c.2) !! k = Some ob -> zlen (st_data ob) <= max ->
  (forall bs c', rely 0 c c' -> log_of c'.2 = log_of c.2 -> good_snapshot bs L (entries c'.1) -> Q (Ok (Some bs)) c') ->
  lwp 0 (fetch_snapshot ca k max) Q E c.
Proof.
  intros Hi Hca Hk Hob Hmax HQ.
  eapply wp_mono; [|apply (lwp_and 0 _ (fun r c' => rely 0 c c' /\ forall bs, r = Ok (Some bs) -> good_snapshot bs L (entries c'.1))
    (fun r c' => (exists bs, r = Ok (Some bs)) /\ log_of c'.2 = log_of c.2) E E)].
  - intros r c' [[Hr Hgood] [(bs & ->) Hl]]. apply HQ; [done|done|by apply Hgood].
  - apply (wp_fetch_snapshot P ns _ _ _ L); [done..|]. intros r c' Hr Hres. split; [done|]. by intros bs ->.
  - unfold fetch_snapshot. apply wp_bind, (lwp_reads _ (fun r c' => rely 0 c c' /\ forall d, r = Some d -> zlen d <= max)).
    { apply reads_on_fs. }
    { eapply (wp_load_snapshot P ns); [done..|]. intros r c1 Hr1 Hload. split; [done|]. intros d Hd. by apply Hload. }
    intros r c1 [Hr1 Hlen] [Hl1 Hm1]. destruct r as [d|].
    { cbn [Proc.wp]. rewrite check_limit_le by by apply Hlen. cbn. split; [by eexists|done]. }
    apply wp_bind. eapply wp_mono;
      [|apply (lwp_request _ (fun r w => r = Ok (Some ob) /\ log_of w = log_of c.2 /\ contents (w_store w) !! k = Some ob)
          (fun _ c' => rely 0 c c'))].
    + intros r c2 [Hr2 (-> & Hl2 & Hob2)]. pose proof Hr2 as (Hi2 & _). rewrite check_limit_le by done.
      apply wp_bind, (lwp_spares _ (fun _ _ => True)); [auto with changes reads| |].
      2: { intros u c3 _ Hl3. split; [by eexists|congruence]. }
      apply (wp_on_fs_ P ns); [|done]. eapply safe_save_snapshot; [done..|]. by eapply (inv_snaps _ _ _ Hi2).
    + apply (wp_get P ns). intros r c2 Hr2 _. by eapply rely_trans.
    + intros c2 s r [Hr2 Hl2'] Hg Hs. destruct (Hl2' eq_refl) as [Hl2 Hm2]. pose proof (inv_wf _ _ _ (rely_inv _ _ _ _ _ Hr2)) as Hwf.
      pose proof (get_answers _ _ _ _ Hg Hwf Hs) as Ha. destruct (get_law _ _ _ _ Hg Hwf Hs) as (_ & Hc & Hval).
      destruct r as [v|]; [|done]. rewrite (Hval v eq_refl). unfold log_of in *. cbn. rewrite Hc, Hl2, Hl1.
      assert (contents (w_store c2.2) !! k = Some ob) as ->; [|done]. eapply lookup_weaken; [|exact Hm2]. by eapply lookup_weaken.
Qed.

Lemma lwp_open_stored o ca retry im m stored (Q : Result Core WalError -> cfg -> Prop) E c :
  inv c -> opts_ok P o -> cache_ok P ns ca -> st_data stored = emitted im -> seen P im (st_etag stored) c ->
  log_of c.2 = Some stored -> decode (st_data stored) (limits o) = Ok im -> snapshot_fits o im c.2 ->
  (forall r c', owned o c r c' -> Q r c') -> lwp 0 (open_stored o ca m retry stored) Q E c.
Proof.
  intros Hi Ho Hca Hd Hseen Hlog Hdec Hfit HQ. unfold open_stored. rewrite Hdec.
  destruct (img_snapshot im) as [sr|] eqn:Esr; [|by eapply lwp_open_finish].
  destruct (Hfit sr Esr) as (ob & Hob & Hmax). pose proof Hseen as (_ & _ & _ & _ & Hsn).
  destruct (Hsn sr Esr) as (Hk & _).
  apply wp_bind. eapply lwp_fetch_snapshot; [done|done|exact Hk|exact Hob|done|].
  intros bs c1 Hr1 Hl1 (_ & s & -> & _). pose proof Hr1 as (Hi1 & Hg1 & _).
  eapply lwp_open_finish; [done|done|done|by eapply seen_mono|congruence|].
  intros r c2 (Hi2 & Hg2 & He2 & Hco). apply HQ.
  split_and!; [done|by eapply grows_trans| |done]. rewrite He2. by apply entries_still.
Qed.

(** The image in the log, if there is one, is within the limits. *)
Definition log_fits o c : Prop :=
  match log_of c.2 with
  | None => True
  | Some st => exists im, parse st = Some im /\ decode (st_data st) (limits o) = Ok im /\ snapshot_fits o im c.2
  end.

Lemma log_fits_beside o c c' : beside c c' -> log_fits o c -> log_fits o c'.
Proof.
  intros [Hl Hm] Hf. unfold log_fits in *. rewrite Hl. destruct (log_of c.2) as [st|]; [|done].
  destruct Hf as (im & Hp & Hd & Hs). exists im. split_and!; [done..|]. intros sr Hsr.
  destruct (Hs sr Hsr) as (ob & Hob & Hz). exists ob. split; [by eapply lookup_weaken|done].
Qed.

(** The answer to the first request of an open. *)
Definition first_answer (cached : option (string * bytes)) c (r : Result CondGet StoreError) : Prop :=
  match log_of c.2 with
  | None => r = Ok Missing
  | Some st => r = Ok (Changed st) \/ (r = Ok NotModified /\ cached = Some (st_etag st, st_data st))
  end.

Lemma lwp_open_loop n o ca cached (Q : Result Core WalError -> cfg -> Prop) E c :
  inv c -> opts_ok P o -> cache_ok P ns ca -> log_fits o c ->
  (forall e d, cached = Some (e, d) -> known (w_store c.2) (wkey P) e d) ->
  (forall r c', owned o c r c' -> Q r c') -> lwp 0 (open_loop (Datatypes.S n) o ca cached true None) Q E c.
Proof.
  intros Hi Ho Hca Hfit Hcached HQ. cbn [open_loop]. rewrite (opts_ok_wal_key P) by done. apply wp_bind.
  eapply wp_mono;
    [|apply (lwp_request _ (fun r w => first_answer cached c r /\ beside c ([], w)) (fun _ c' => rely 0 c c'))].
  - intros r c1 [Hr1 [Ha Hb1]]. pose proof Hr1 as (Hi1 & Hg1 & _). change (beside c c1) in Hb1.
    pose proof (log_fits_beside o c c1 Hb1 Hfit) as Hfit1. destruct Hb1 as [Hl1 Hm1].
    pose proof (entries_still c c1 Hi Hi1 Hg1 Hl1) as Hent1.
    assert (forall r c', owned o c1 r c' -> Q r c') as HQ1.
    { intros r' c' (Hi' & Hg' & He' & Hco). apply HQ. split_and!; [done|by eapply grows_trans|congruence|done]. }
    unfold first_answer in Ha. unfold log_fits in Hfit1. rewrite Hl1 in Hfit1. destruct (log_of c.2) as [st|] eqn:Elog.
    + destruct Hfit1 as (im & Hp & Hd & Hs). apply parse_Some in Hp as Hp'. destruct Hp' as [Hem _].
      destruct (seen_now P ns c1 st Hi1 Hl1) as (im' & Hp' & _ & Hseen & _). assert (im' = im) as -> by congruence.
      destruct Ha as [->|[-> ->]]; [by eapply lwp_open_stored|]. assert (mkStored (st_data st) (st_etag st) = st) as -> by by destruct st.
      by eapply lwp_open_stored.
    + subst r. rewrite (encode_empty P) by done. apply wp_bind. eapply wp_mono;
        [|apply (lwp_request _ (fun r w => exists e, r = Ok (PutOk e) /\ log_of w = Some (mkStored (emitted empty) e))
            (fun r c' => rely 0 c1 c' /\ forall e, r = Ok (PutOk e) -> seen P empty e c' /\ zlen (entries c'.1) = 0))].
      * intros r c2 [[Hr2 Hput] (e & -> & Hl2)]. destruct (Hput e eq_refl) as [Hseen Hz]. pose proof Hr2 as (Hi2 & Hg2 & _).
        assert (entries c1.1 = []) as Hnil.
        { pose proof (inv_current _ _ _ Hi1) as Hc. unfold current_ok, log_of in *. by rewrite Hl1 in Hc. }
        eapply lwp_open_stored; [done|done|done|done|exact Hseen|done|by apply decode_empty|by intros sr|].
        intros r c3 (Hi3 & Hg3 & He3 & Hco). apply HQ1. split_and!; [done|by eapply grows_trans| |done].
        rewrite He3, Hnil. by apply zlen_0_nil.
      * by apply (wp_create P ns).
      * intros c2 s r [Hr2 Hl2'] Hput Hs. destruct (Hl2' eq_refl) as [Hl2 _]. pose proof (inv_wf _ _ _ (rely_inv _ _ _ _ _ Hr2)) as Hwf.
        unfold log_of in *.
        destruct (put_if_match_answers _ _ _ _ _ _ Hput Hwf Hs) as [e ->]; [by rewrite Hl2, Hl1|]. exists e. split; [done|].
        destruct (put_if_match_law _ _ _ _ _ _ Hput Hwf Hs) as (_ & _ & Hc). cbn. by rewrite Hc, lookup_insert_eq.
  - by apply (wp_get_if_changed P ns).
  - intros c1 s r [Hr1 Hl1'] Hg Hs. destruct (Hl1' eq_refl) as [Hl1 Hm1]. pose proof Hr1 as (Hi1 & Hg1 & _).
    pose proof (inv_wf _ _ _ Hi1) as Hwf.
    pose proof (get_if_changed_answers _ _ _ _ _ Hg Hwf Hs) as Ha.
    destruct (get_if_changed_law _ _ _ _ _ Hg Hwf Hs) as (_ & Hc & _).
    unfold first_answer, beside, log_of in *. cbn. rewrite Hc. split; [|done]. rewrite Hl1 in Ha.
    destruct (contents (w_store c.2) !! wkey P) as [st|] eqn:Est; [|done].
    case_bool_decide as He; [|by left]. right. split; [done|]. destruct cached as [[e d]|]; [|done]. cbn in He. injection He as ->.
    do 2 f_equal. symmetry. eapply known_data; [by apply Hcached|exact Est|done].
Qed.

Lemma lwp_Core_open o o' (Q : Result Core WalError -> cfg -> Prop) E c :
  inv c -> opts_typed P o -> validate answer_limit o = Ok o' -> log_fits o' c ->
  (forall r c', owned o' c r c' -> Q r c') -> lwp 0 (Core_open o true) Q E c.
Proof.
  intros Hi Ht Hv Hfit HQ. unfold Core_open. apply wp_bind.
  apply (lwp_reads _ (fun r c' => rely 0 c c' /\ r = answer_limit)); [apply reads_read| |].
  { apply (wp_read P ns). intros c1 Hr1. by rewrite max_object_bytes_answers. }
  intros r c1 [Hr1 ->] Hb1. rewrite Hv. apply validate_ok with (P := P) in Hv as Ho; [|done].
  apply wp_bind, (lwp_reads _ (fun ca c' => rely 0 c1 c' /\ cache_ok P ns ca)).
  { read_walk. }
  { assert (wp 0 (let! ns' := request (fun s => (s, cache_namespace s)) in
      on_fs (cache_new (cache_dir o') ns' (wal_key o')))
      (fun ca c' => rely 0 c1 c' /\ cache_ok P ns ca) E c1) as Hnew.
    { rewrite (opts_ok_wal_key P) by done. apply wp_bind, (wp_read P ns). intros c2 Hr2.
      apply (wp_cache_new P ns); [by apply Hr2|]. intros ca c3 Hr3 Hca. split; [by eapply rely_trans|done]. }
    destruct (cache_policy o'); [|exact Hnew..]. split; [by eapply rely_refl, rely_inv|by left]. }
  intros ca c2 [Hr2 Hca] Hb2.
  apply wp_bind, (lwp_reads _ (fun r c' => rely 0 c2 c' /\ forall e d, r = Some (e, d) -> known (w_store c'.2) (wkey P) e d)).
  { apply reads_on_fs. }
  { by apply (wp_load_wal P ns). }
  intros loaded c3 [Hr3 Hload] Hb3. pose proof (rely_trans _ _ _ _ _ _ Hr1 (rely_trans _ _ _ _ _ _ Hr2 Hr3)) as (Hi3 & Hg3 & _).
  assert (log_of c3.2 = log_of c.2) as Hl3 by (destruct Hb1 as [? _], Hb2 as [? _], Hb3 as [? _]; congruence).
  apply lwp_open_loop; [done|done|done| | |].
  - by do 3 (eapply log_fits_beside; [eassumption|]).
  - intros e d Hed. destruct loaded as [[e' d']|]; [|done]. destruct (is_ok _); [|done]. injection Hed as -> ->. by apply Hload.
  - intros r c4 (Hi4 & Hg4 & He4 & Hco). apply HQ. split_and!; [done|by eapply grows_trans| |done].
    rewrite He4. by apply entries_still.
Qed.

(** The handle with which its program starts. *)
Lemma lwp_WalTier_open o o' (Q : Result WalTier WalError -> cfg -> Prop) E c :
  inv c -> opts_typed P o -> validate answer_limit o = Ok o' -> log_fits o' c -> based c ->
  (forall self c', inv c' -> writer_ok self c' -> synced self c' -> opts (core self) = o' -> entries c'.1 = entries c.1 ->
     Q (Ok self) c') ->
  lwp 0 (WalTier_open o) Q E c.
Proof.
  intros Hi Ht Hv Hfit Hb HQ.
  eapply wp_mono; [|apply (lwp_and 0 _ (fun r c' => forall self, r = Ok self -> writer_ok self c')
    (fun r c' => exists self, r = Ok self /\ inv c' /\ synced self c' /\ opts (core self) = o' /\ entries c'.1 = entries c.1) E E)].
  - intros r c' [Hok (self & -> & Hi' & Hs & Ho & He)]. by apply HQ; [|apply Hok|..].
  - apply (wp_WalTier_open P ns); [done..|]. intros r c' _ Hr self ->. apply Hr.
  - unfold WalTier_open. apply wp_bind, (lwp_Core_open _ o'); [done..|].
    intros r c' (Hi' & Hg' & He & co & st & -> & Hl & Het & Ho). eexists. split_and!; [done|done| |done|done].
    split; [by exists st|by eapply based_mono].
Qed.

(** ** Programs *)

(** The acknowledgements of a program whose appends all succeed, the first of
    them at [n]. *)
Fixpoint lone_acks (n : Lsn) (ops : list Op) : list ack :=
  match ops with
  | [] => []
  | OpWrite e :: ops => ([e], Ok (n, n + 1)) :: lone_acks (n + 1) ops
  | OpWriteBatch es :: ops => (es, Ok (n, n + zlen es)) :: lone_acks (n + zlen es) ops
  | _ :: ops => lone_acks n ops
  end.

Lemma lone_acks_cons n op ops : lone_acks n (op :: ops) = lone_acks n [op] ++ lone_acks (n + zlen (op_entries op)) ops.
Proof. destruct op; cbn [lone_acks op_entries app]; rewrite ?(@zlen_nil bytes), ?Z.add_0_r; done. Qed.

(** After an operation of the program. *)
Definition ran self op c (r : WalTier * list ack) c' : Prop :=
  inv c' /\ writer_ok r.1 c' /\ synced r.1 c' /\ opts (core r.1) = opts (core self)
  /\ entries c'.1 = entries c.1 ++ op_entries op /\ r.2 = lone_acks (zlen (entries c.1)) [op].

Lemma lwp_ignore {A} (p : proc (WalTier * A)) Q E c :
  lwp 0 p (fun r c' => Q (r.1, []) c') E c -> lwp 0 (ignore p) Q E c.
Proof. intros Hp. apply wp_bind. eapply wp_mono; [|exact Hp]. by intros [s r]. Qed.

Lemma lwp_run_op op self (Q : WalTier * list ack -> cfg -> Prop) E c :
  inv c -> writer_ok self c -> synced self c -> Forall entry_ok (op_entries op) ->
  roomy (opts (core self)) (entries c.1 ++ op_entries op) ->
  (forall r c', ran self op c r c' -> Q r c') -> lwp 0 (run_op op self) Q E c.
Proof.
  intros Hi Hok Hs Hes Hroom HQ.
  assert (forall self' c', op_entries op = [] -> lone_acks (zlen (entries c.1)) [op] = [] ->
    idle self c self' c' -> Q (self', []) c') as HQ0.
  { intros self' c' He Ha (Hi' & _ & Hok' & Hs' & Ho' & Hent'). apply HQ. unfold ran. rewrite He, Ha, app_nil_r. by split_and!. }
  destruct op; cbn [run_op op_entries] in *; rewrite ?app_nil_r in Hroom; try apply lwp_ignore.
  - apply wp_bind. unfold write. apply wp_bind, lwp_append; [done..|].
    intros [s r] c1 (Hi1 & _ & Hok1 & Hs1 & Ho1 & Hr & Hent). cbn [fst snd Proc.wp] in *. subst r. apply HQ. by split_and!.
  - apply wp_bind, lwp_append; [done..|].
    intros [s r] c1 (Hi1 & _ & Hok1 & Hs1 & Ho1 & Hr & Hent). cbn [fst snd Proc.wp] in *. subst r. apply HQ. by split_and!.
  - apply lwp_refresh; [done..|]. intros r c1 Hid _. by apply HQ0.
  - apply lwp_flush; [done..|]. intros r c1 Hid _. by apply HQ0.
  - apply (lwp_core_same _ self); [done|done|apply changes_compact_now|by apply (wp_compact_now P ns)|]. intros r c1 Hid. by apply HQ0.
  - apply (lwp_core_same _ self); [done|done|apply changes_wait|by apply (wp_wait_for_compaction P ns)|]. intros r c1 Hid. by apply HQ0.
  - apply (lwp_core_same _ self); [done|done| | |].
    + unfold compaction_status. change_walk.
    + unfold compaction_status. apply wp_bind, (wp_sync_compaction P ns); [done..|]. by intros.
    + intros r c1 Hid. by apply HQ0.
  - apply (lwp_core_same _ self); [done|done|apply changes_take_error| |].
    + apply (wp_take_compaction_error P ns); [done..|]. by intros.
    + intros r c1 Hid. by apply HQ0.
  - apply lwp_collect; [done..|]. intros r c1 Hid _. by apply HQ0.
  - apply wp_bind, lwp_checkpoint; [done..|]. intros s c1 Hid _. by apply HQ0.
Qed.

Lemma lwp_run_ops ops self (Q : list ack -> cfg -> Prop) E c :
  inv c -> writer_ok self c -> synced self c -> Forall entry_ok (concat (op_entries <$> ops)) ->
  roomy (opts (core self)) (entries c.1 ++ concat (op_entries <$> ops)) ->
  (forall c', inv c' -> entries c'.1 = entries c.1 ++ concat (op_entries <$> ops) ->
     Q (lone_acks (zlen (entries c.1)) ops) c') ->
  lwp 0 (run_ops ops self) Q E c.
Proof.
  revert self c Q. induction ops as [|op ops IH]; intros self c Q Hi Hok Hs Hes Hroom HQ; cbn [run_ops].
  { apply HQ; [done|]. cbn. by rewrite app_nil_r. }
  cbn [fmap list_fmap concat] in Hes, Hroom. apply Forall_app in Hes as [He Hes].
  apply wp_bind, lwp_run_op; [done..| |].
  { eapply roomy_prefix; [|exact Hroom]. rewrite app_assoc. by eexists. }
  intros [s a] c1 (Hi1 & Hok1 & Hs1 & Ho1 & Hent1 & Ha). cbn [fst snd] in *. subst a.
  apply wp_bind, IH; [done..|by rewrite Ho1, Hent1, <- app_assoc|].
  intros c2 Hi2 Hent2. cbn [Proc.wp]. rewrite Hent1, zlen_app, <- lone_acks_cons. apply HQ; [done|].
  by rewrite Hent2, Hent1, <- app_assoc.
Qed.

(** ** The pool *)

Lemma changes_thread t a :
  changes (adds (fun k => exists id, k = ca_snap_prefix a +:+ id)) 1 (compaction_thread t a : proc _).
Proof.
  unfold compaction_thread. apply changes_on_panic; [|intros n m; unfold exit; by apply changes_quiet; [intros w w' r [= <- _]|]].
  apply (changes_seq _ 1 0 _ _ (fun _ => True)); [apply compaction_only_adds|apply rets_any|].
  intros o _. apply changes_bind; [|intros _]; apply changes_quiet; try done; by intros w w' r [= <- _].
Qed.

Lemma snap_prefix_spares a hist m m' : args_ok P ns a hist ->
  adds (fun k => exists id, k = ca_snap_prefix a +:+ id) m m' -> spares m m' /\ m ⊆ m'.
Proof.
  intros (pre & es & post & _ & _ & _ & _ & Hp & _) (k & o & (id & ->) & Hnone & ->). unfold spares.
  split; [|by apply insert_subseteq]. apply lookup_insert_ne. rewrite Hp. unfold wkey. intros Heq. apply (f_equal as_bytes) in Heq. rewrite !as_bytes_app, <- !app_assoc in Heq.
  apply app_inv_head in Heq. discriminate Heq.
Qed.

Lemma lspawned_ok {X} (x : X) j c w2 (p : proc X) : (0 < j)%nat -> inv c -> spawned_as x c.2 = Some (w2, p) ->
  lguar j c (after (record P) j c w2) /\ lwp j p (fun _ _ => True) no_panic (after (record P) j c w2).
Proof.
  intros Hj Hi Hsp. unfold spawned_as in Hsp. destruct (spawned c.2) as [[w' q]|] eqn:Eq; [|done]. injection Hsp as <- <-.
  destruct (spawned_ok P ns j c w' q Hi Eq) as [Hg Hwp].
  unfold spawned in Eq. destruct (first_unstarted 0 (w_jobs c.2)) as [[t jb]|] eqn:Ef; [|done]. injection Eq as <- <-.
  apply first_unstarted_spec in Ef as [_ Hjb]. rewrite Nat.sub_0_r in Hjb.
  destruct (inv_jobs _ _ _ Hi t jb Hjb) as [Hargs _].
  split; [by split|]. apply wp_bind. eapply wp_mono; [|eapply lwp_other; [lia| |apply changes_thread|exact Hwp]]; [done|].
  intros m m'. by apply (snap_prefix_spares _ (entries c.1)).
Qed.

Lemma lwp_follower i o n Q E c : i <> 0%nat -> wp i (replica_thread o n) Q E c -> lwp i (replica_thread o n) Q E c.
Proof.
  intros Hi Hw. eapply (lwp_other i (fun _ _ => False) 0); [done|done| |done]. apply reads_changes. unfold replica_thread.
  pose proof reads_open. pose proof reads_polls. read_walk.
Qed.

(** What the first thread of the pool ends with, started at the history [hist]. *)
Definition lone_done (hist : list bytes) (ops : list Op) (acks : list ack) c : Prop :=
  inv c /\ acks = lone_acks (zlen hist) ops /\ entries c.1 = hist ++ concat (op_entries <$> ops).

Definition lone_clients (o : Options) (ops : list Op) (replicas : list (Options * nat)) : list Client :=
  Writes o ops :: ((fun r => Follows r.1 r.2) <$> replicas).

Lemma lwp_writer_thread o o' ops c : inv c -> opts_typed P o -> validate answer_limit o = Ok o' ->
  Forall entry_ok (concat (op_entries <$> ops)) -> roomy o' (entries c.1 ++ concat (op_entries <$> ops)) ->
  log_fits o' c -> based c -> lwp 0 (writer_thread o ops) (lone_done (entries c.1) ops) no_panic c.
Proof.
  intros Hi Ho Hv Hes Hroom Hfit Hb. unfold writer_thread. apply wp_bind, (lwp_WalTier_open o o'); [done..|].
  intros self c1 Hi1 Hok1 Hs1 Ho1 He1. apply lwp_run_ops; [done..|by rewrite Ho1, He1|].
  intros c2 Hi2 He2. rewrite He1 in He2 |- *. by split_and!.
Qed.

(** An image whose entries have room can be read. *)
Lemma roomy_log_fits o c : inv c -> opts_ok P o -> b = base c.2 -> roomy o (entries c.1) ->
  (forall sr ob, snap_ref P c.2 = Some sr -> contents (w_store c.2) !! sr_key sr = Some ob ->
     zlen (st_data ob) <= max_snapshot_bytes o) -> log_fits o c.
Proof.
  intros Hi Ho Hb Hroom Hsnap. pose proof (inv_current _ _ _ Hi) as Hc. unfold log_fits, current_ok, log_of in *.
  unfold base, snap_ref, cur in *. destruct (contents (w_store c.2) !! wkey P) as [st|]; [|done]. cbn in Hb, Hsnap.
  destruct Hc as (im & Hp & (pre & post & Hent & Hpre) & Hn & Hs). exists im. rewrite Hp in Hb, Hsnap. cbn in Hb, Hsnap.
  apply parse_Some in Hp as Hp'. destruct Hp' as [Hd Hwf]. pose proof (first_lsn_wf _ Hwf) as [Hf _].
  pose proof (next_lsn_wf _ Hwf) as [Hnl _].
  assert (post = []) as ->. { apply zlen_0_nil. apply (f_equal zlen) in Hent. rewrite !zlen_app in Hent. lia. }
  rewrite app_nil_r in Hent. split; [done|].
  destruct (roomy_fits o _ pre (img_entries im) (img_snapshot im) Ho Hroom Hent) as (Hcnt & _ & _ & _ & _ & Hsize); [lia|congruence| |].
  { intros sr Hsr. destruct (Hs sr Hsr) as [Hk _]. by eapply snap_key_len. }
  split.
  - apply decode_ok. rewrite Hd. unfold emitted. by rewrite zlen_emit.
  - intros sr Hsr. destruct (Hs sr Hsr) as [_ [ob Hob]]. exists ob. split; [done|by apply (Hsnap sr)].
Qed.

(** Any first thread, beside threads that leave the log alone. *)
Lemma lone_pool_ok {X} (x : X) Done c0 (ps0 : list (proc X)) c ps :
  inv c0 -> (0 < length ps0)%nat ->
  (forall i p, ps0 !! i = Some p -> lwp i p (fun a c' => i = 0%nat -> Done a c') no_panic c0) ->
  rtc (pstep sane_world (record P) (spawned_as x)) (c0, ps0) (c, ps) ->
  pool_ok sane_world (record P) inv lrely lguar (fun _ _ => True) (fun i a c' => i = 0%nat -> Done a c') 1 (c, ps).
Proof.
  intros Hinit Hlen Hps Hrun. eapply (pool_sound sane_world (record P) inv lrely lguar (fun _ _ => True) (spawned_as x)); [..|exact Hrun|].
  - intros. by apply lrely_refl.
  - intros. by eapply lrely_trans.
  - intros. by eapply lguar_inv.
  - intros. by eapply lguar_lrely.
  - intros j c1 w2 p Hj Hi Hsp _. destruct (lspawned_ok x j c1 w2 p) as [Hg Hwp]; [lia|done..|]. split; [done|].
    eapply wp_mono; [|exact Hwp]. lia.
  - split; [done|]. split; [cbn; lia|]. cbn [fst snd]. intros i p Hp. exists c0. split; [by apply Hps|by apply lrely_refl].
Qed.

(** A writer beside replicas. *)
Lemma lone_threads_ok o o' ops replicas c0 c ps :
  inv c0 -> opts_typed P o -> Forall (fun r => opts_typed P r.1) replicas -> validate answer_limit o = Ok o' ->
  Forall entry_ok (concat (op_entries <$> ops)) -> roomy o' (entries c0.1 ++ concat (op_entries <$> ops)) ->
  log_fits o' c0 -> based c0 ->
  rtc (pstep sane_world (record P) spawned_thread) (c0, client_thread <$> lone_clients o ops replicas) (c, ps) ->
  pool_ok sane_world (record P) inv lrely lguar (fun _ _ => True)
    (fun i acks c' => i = 0%nat -> lone_done (entries c0.1) ops acks c') 1 (c, ps).
Proof.
  intros Hinit Ho Hreps Hv Hes Hroom Hfit Hb Hrun. eapply (lone_pool_ok []); [done| | |exact Hrun].
  { rewrite length_fmap. cbn. lia. }
  intros i p Hp. apply list_lookup_fmap_Some in Hp as (cl & -> & Hcl).
  destruct i as [|i]; cbn [lone_clients lookup list_lookup] in Hcl.
  - injection Hcl as <-. cbn [client_thread]. eapply wp_mono; [|by apply (lwp_writer_thread o o')]. auto.
  - apply list_lookup_fmap_Some in Hcl as ([ro n] & -> & Er).
    cbn [client_thread]. apply lwp_follower; [done|]. apply (wp_client P ns (Datatypes.S i) (Follows ro n)); [done| |done].
    split; [by apply (Forall_lookup_1 _ _ _ _ Hreps Er)|constructor].
Qed.

End lone.

(** ** After a crash *)

Section restart.
Context {S : Type} `{ObjectStoreLaws S} `{WalAppLaws}.
Variable P : string.
Variable ns : option string.
Context `{!LogNames P ns} `{!Responsive S}.
Abbreviation cfg := (History * World S)%type.
Abbreviation step := (pstep sane_world (record P) spawned_thread).
Implicit Types (c : cfg).

(** Every thread is gone; the objects and the files stay. *)
Definition crashed c : cfg := (c.1, with_jobs [] c.2).

Lemma harmless_crashed c m : harmless P c m -> harmless P (crashed c) m.
Proof. intros [k L d Hk Hd| |e im im' extra [Hs Hw Hok Hsh]|k Hd]; econstructor; (done || by split). Qed.

Lemma inv_crashed c : inv P ns c -> inv P ns (crashed c).
Proof. intros [Hwf Hs Hn He Hc Hsn Hcs Hcw Hids Hj Hl]. split; cbn [crashed fst snd with_jobs w_store w_fs w_ids w_jobs]; try done.
  eapply Forall_impl; [exact Hl|]. by apply harmless_crashed.
Qed.

(** C4. After a crash, a log with one writer accepts every append. Stop any
    reachable system of writers and replicas at any point, and start one
    writer, with any replicas, on what is left. If the store answers its
    requests, nothing sent before the crash still arrives, the image and its
    snapshot are within the writer's limits and so are its appends, without a
    fold ([roomy]), then, however the new threads interleave and whatever
    happens to deletions, cache files and compactions, every schedule is
    finite and can only stop with the writer's program at its end: the log was
    opened, every append was acknowledged at the next LSNs, and the history
    grew by exactly its entries. *)
Theorem lone_writer_never_fails clients w c0 ps0 o o' ops replicas c ps :
  fresh_world w -> cache_namespace (w_store w) = ns -> Forall (client_ok P) clients ->
  rtc step (([], w), client_thread <$> clients) (c0, ps0) ->
  opts_typed P o -> Forall (fun r => opts_typed P r.1) replicas ->
  validate answer_limit o = Ok o' -> Forall entry_ok (concat (op_entries <$> ops)) ->
  roomy P (base P c0.2) o' (entries c0.1 ++ concat (op_entries <$> ops)) ->
  (forall sr ob, snap_ref P c0.2 = Some sr -> contents (w_store c0.2) !! sr_key sr = Some ob ->
     zlen (st_data ob) <= max_snapshot_bytes o') ->
  rtc step (crashed c0, client_thread <$> lone_clients o ops replicas) (c, ps) ->
  Acc (flip step) (crashed c0, client_thread <$> lone_clients o ops replicas)
  /\ (can_step [] (c, ps) \/ ps !! 0%nat = Some (Ret (lone_acks (zlen (entries c0.1)) ops)))
  /\ (forall acks, ps !! 0%nat = Some (Ret acks) ->
        acks = lone_acks (zlen (entries c0.1)) ops /\ entries c.1 = entries c0.1 ++ concat (op_entries <$> ops)).
Proof.
  intros Hw Hns Hcl Hrun0 Ho Hreps Hv Hes Hroom Hsnap Hrun.
  destruct (system_ok P ns clients w c0 ps0 Hw Hns Hcl Hrun0) as (Hi0%inv_crashed & _).
  assert (log_fits P o' (crashed c0)) as Hfit.
  { apply (roomy_log_fits P ns (base P c0.2)); [done|by eapply validate_ok|done| |exact Hsnap].
    eapply roomy_prefix; [|exact Hroom]. by eexists. }
  destruct (lone_threads_ok P ns (base P c0.2) o o' ops replicas (crashed c0) c ps Hi0 Ho Hreps Hv Hes Hroom Hfit (Z.le_refl _) Hrun)
    as (Hi & Hlen & Hall). cbn [fst snd] in *.
  assert (forall acks, ps !! 0%nat = Some (Ret acks) ->
    acks = lone_acks (zlen (entries c0.1)) ops /\ entries c.1 = entries c0.1 ++ concat (op_entries <$> ops)) as Hret.
  { intros acks Hp. destruct (Hall 0%nat _ Hp) as (c1 & Hq & [Hr Hl]). destruct (Hq eq_refl) as (Hi1 & Ha & He).
    destruct Hr as (_ & Hg & _). split; [done|]. cbn [crashed fst] in He. rewrite <- He.
    by eapply entries_still; [..|apply Hl]. }
  split; [apply (schedules_finite [])|]. split; [|done].
  destruct (lookup_lt_is_Some_2 ps 0%nat) as [p Hp]; [lia|].
  destruct (progress_thread [] P (client_thread <$> lone_clients o ops replicas) (crashed c0) c ps 0 p eq_refl (tame_clients _) Hrun Hp) as [Hs|[(acks & ->)|(m & ->)]]; [by left| |].
  - right. by destruct (Hret acks Hp) as [<- _].
  - by destruct (Hall 0%nat _ Hp) as (c1 & Hwp & _).
Qed.

End restart.

(** ** A concrete crash

    Two writers and a replica stop after the log has got its first snapshot and
    before the first writer has ended. A compacting writer and a replica go on from there. *)

Definition crash0 : mpool := foldl tick pool0 (take 50 schedule0).
Definition lone_ops : list Op :=
  [OpWriteBatch [as_bytes "p"; as_bytes "q"]; OpCompactNow; OpFlush; OpWrite (as_bytes "r"); OpRefresh; OpWriteBatch []].
Definition lone_pool : mpool :=
  (crashed crash0.1, client_thread <$> lone_clients Options_default lone_ops [(Options_default, 2%nat)]).
Definition lone_end : mpool := foldl tick lone_pool (concat (repeat [0; 0; 1; 9; 2]%nat 14)).

Definition snapshot_within (o : Options) (w : World MemoryStore) : bool :=
  match snap_ref "" w with
  | Some sr => match contents (w_store w) !! sr_key sr with Some ob => zlen (st_data ob) <=? max_snapshot_bytes o | None => true end
  | None => true
  end.

Lemma snapshot_within_spec o w : snapshot_within o w = true ->
  forall sr ob, snap_ref "" w = Some sr -> contents (w_store w) !! sr_key sr = Some ob -> zlen (st_data ob) <= max_snapshot_bytes o.
Proof. unfold snapshot_within. intros Hs sr ob Hsr Hob. rewrite Hsr, Hob in Hs. by apply Z.leb_le. Qed.

Lemma crash0_room : roomy "" (base "" crash0.1.2) Options_default (entries crash0.1.1 ++ concat (op_entries <$> lone_ops)).
Proof.
  assert (base "" crash0.1.2 = 2) as -> by (vm_compute; reflexivity).
  assert (entries crash0.1.1 = [as_bytes "a"; as_bytes "b"; as_bytes "x"; as_bytes "y"]) as -> by (vm_compute; reflexivity).
  split; [vm_compute; discriminate..| |vm_compute; discriminate|vm_compute; discriminate].
  cbn. repeat constructor; vm_compute; discriminate.
Qed.

Lemma lone_writer_never_fails_witness :
  let acks := [([as_bytes "p"; as_bytes "q"], Ok (4, 6)); ([as_bytes "r"], Ok (6, 7)); ([], Ok (7, 7))] in
  length crash0.2 = 4%nat /\ ended (crash0.2 !! 0%nat) = None /\ is_Some (snap_ref "" crash0.1.2)
  /\ lone_acks (zlen (entries crash0.1.1)) lone_ops = acks
  /\ ended (lone_end.2 !! 0%nat) = Some acks /\ length lone_end.2 = 3%nat
  /\ entries lone_end.1.1 = (as_bytes <$> ["a"; "b"; "x"; "y"; "p"; "q"; "r"]).
Proof.
  intros acks. split; [vm_compute; reflexivity|]. split; [vm_compute; reflexivity|]. split; [vm_compute; by eexists|].
  assert (lone_acks (zlen (entries crash0.1.1)) lone_ops = acks) as Hacks by (vm_compute; reflexivity).
  assert (ended (lone_end.2 !! 0%nat) = Some acks) as He by (vm_compute; reflexivity).
  split; [exact Hacks|]. split; [exact He|]. split; [vm_compute; reflexivity|].
  assert (rtc (pstep sane_world (record "") spawned_thread) (([], world0), client_thread <$> clients0) (crash0.1, crash0.2)) as Hrun0
    by (unfold crash0; exact (ticks_pair _ pool0)).
  assert (rtc (pstep sane_world (record "") spawned_thread)
      (crashed crash0.1, client_thread <$> lone_clients Options_default lone_ops [(Options_default, 2%nat)]) (lone_end.1, lone_end.2)) as Hrun
    by (unfold lone_end; exact (ticks_pair _ lone_pool)).
  assert (snapshot_within Options_default crash0.1.2 = true) as Hsnap by (vm_compute; reflexivity).
  destruct (lone_writer_never_fails "" ns0 clients0 world0 crash0.1 crash0.2 Options_default Options_default lone_ops
    [(Options_default, 2%nat)] lone_end.1 lone_end.2 fresh0 eq_refl clients0_ok Hrun0) as (_ & _ & Hret);
    [by split_and!|by repeat constructor|vm_compute; reflexivity|by repeat constructor|exact crash0_room
    |exact (snapshot_within_spec _ _ Hsnap)|exact Hrun|].
  destruct (Hret _ (ended_Some _ _ He)) as [_ Hent]. rewrite Hent. vm_compute. reflexivity.
Defined.
