(* ===== verification/OptionsProps.v ===== *)
(** * Options and the garbage queue *)

From S2P Require Import Prelude Fmt Utf8 Error Image ImageCodec App CountApp Proc Atomic Cache Store World Core Compactor Writer Protocol Invariant Steps StepsCache StepsStore CoreProps Scenario.

(** What [validate] makes of the options before checking them. *)
Definition capped (limit : option Z) (n : Z) : Z := match limit with Some l => Z.min n l | None => n end.

Definition usable (o : Options) : Prop :=
  max_write_attempts o <> 0 /\ 9 <= max_image_bytes o <= ISIZE_MAX
  /\ max_live_entries o <> 0 /\ max_live_entries o <= U32_MAX
  /\ max_snapshot_bytes o <> 0 /\ max_snapshot_bytes o <= ISIZE_MAX.

(** C33. Validated options are usable. [validate] caps the byte budgets to the
    store's object limit, changes nothing else, and accepts exactly the
    options whose budgets are positive, representable and large enough for an
    empty log; every other one is [InvalidOptions]. With accepted options the
    image of an empty log always encodes, so a log can be created. *)
Theorem validate_spec limit o : opts_typed (prefix o) o ->
  let o' := mkOptions (cache_dir o) (cache_policy o) (max_pending_deletes o) (prefix o) (max_write_attempts o)
              (capped limit (max_image_bytes o)) (max_live_entries o) (capped limit (max_snapshot_bytes o)) in
  (usable o' -> validate limit o = Ok o' /\ encode empty (limits o') = Ok (emit None []))
  /\ (~ usable o' -> validate limit o = Err invalid_options).
Proof.
  intros (_ & Hatt & Hlive & Hpend) o'.
  assert (validate limit o = (if
    (max_write_attempts o' =? 0) || (max_image_bytes o' <? 9) || (max_live_entries o' =? 0)
     || (U32_MAX <? max_live_entries o') || (max_snapshot_bytes o' =? 0)
     || (ISIZE_MAX <? max_image_bytes o') || (ISIZE_MAX <? max_snapshot_bytes o') then Err invalid_options else Ok o')) as ->.
  { unfold validate, o', capped. by destruct limit, o. }
  split.
  - intros (Ha & [Hi1 Hi2] & Hl1 & Hl2 & Hs1 & Hs2). destruct (_ || _) eqn:E; [exfalso|split; [done|]].
    + repeat (apply orb_prop in E as [E|E]); zbool; lia.
    + apply (encode_empty (prefix o)). unfold o' in *.
      cbn [max_write_attempts max_image_bytes max_live_entries max_snapshot_bytes] in *.
      split; cbn [prefix max_write_attempts max_image_bytes max_live_entries max_pending_deletes]; done || lia.
  - intros Hno. destruct (_ || _) eqn:E; [done|]. exfalso. apply Hno.
    repeat match goal with H : _ || _ = false |- _ => apply orb_false_elim in H as [? ?] end. zbool.
    unfold usable. lia.
Qed.

Lemma validate_spec_witness :
  exists o, validate (Some 4096) (Options_new ["c"]) = Ok o /\ max_image_bytes o = 4096 /\ max_snapshot_bytes o = 4096.
Proof.
  destruct (validate_spec (Some 4096) (Options_new ["c"]) ltac:(by split_and!)) as [Hok _].
  eexists. split; [apply Hok; by split_and!|]. split; reflexivity.
Defined.

(** The garbage queue is bounded and honest. Queuing an obsolete snapshot
    does exactly one of three things: nothing if it is queued already, count an
    overflow if the queue is full (saturating, and an orphan is left behind),
    or append it; so the queue never holds a key twice, never exceeds
    [max_pending_deletes], never loses or reorders an entry, and an overflow is
    never forgotten. *)
Theorem queue_obsolete_spec `{WalApp} k (self : WalTier) :
  0 <= garbage_overflowed self <= U64_MAX ->
  zlen (garbage self) <= max_pending_deletes (opts (core self)) -> NoDup (garbage self) ->
  let self' := queue_obsolete k self in
  core self' = core self /\ compaction self' = compaction self
  /\ NoDup (garbage self') /\ zlen (garbage self') <= max_pending_deletes (opts (core self))
  /\ garbage self `prefix_of` garbage self'
  /\ garbage_overflowed self <= garbage_overflowed self' <= U64_MAX
  /\ (k ∈ garbage self' \/ (zlen (garbage self) = max_pending_deletes (opts (core self))
        /\ (garbage_overflowed self' = garbage_overflowed self + 1 \/ garbage_overflowed self' = U64_MAX))).
Proof.
  intros Ho Hb Hnd self'. unfold self', queue_obsolete. clear self'. case_bool_decide as Hin.
  { split_and!; try done; try lia. by left. }
  destruct (Z.eqb_spec (zlen (garbage self)) (max_pending_deletes (opts (core self)))) as [Heq|Hne]; cbn.
  - unfold saturating_add. split_and!; [done..|lia|lia|]. right. split; [done|lia].
  - split_and!; [done|done| | | |lia|lia|].
    + apply NoDup_app. split_and!; [done| |apply NoDup_singleton]. intros x Hx Hk.
      apply list_elem_of_singleton in Hk. congruence.
    + rewrite zlen_app. change (zlen [k]) with 1. lia.
    + by eexists.
    + left. set_solver.
Qed.

Lemma queue_obsolete_spec_witness :
  let self := with_garbage ["a"] no_handle in
  garbage (queue_obsolete "b" self) = ["a"; "b"] /\ ["a"] `prefix_of` garbage (queue_obsolete "b" self).
Proof.
  intros self. split; [vm_compute; reflexivity|].
  destruct (queue_obsolete_spec "b" self) as (_ & _ & _ & _ & Hp & _);
    [by split; vm_compute|by vm_compute|apply NoDup_singleton|exact Hp].
Defined.
