(* ===== verification/Testing.v ===== *)
(** * The crate's unit tests as programs

    A test threads a state (a store, a file system) through calls and stops at
    the first assertion that fails, as [assert!] and [unwrap] panic. The files
    that translate the tests of a module evaluate each of them. *)

From S2P Require Import Prelude Proc.

Definition T (W A : Type) : Type := W -> option (W * A).

Declare Scope test_scope.
Delimit Scope test_scope with test.

Definition tret {W A} (a : A) : T W A := fun w => Some (w, a).
Definition tbind {W A B} (m : T W A) (k : A -> T W B) : T W B :=
  fun w => match m w with Some (w, a) => k a w | None => None end.

Notation "'let$' x ':=' m 'in' k" := (tbind m (fun x => k))
  (at level 10, x pattern, m at level 100, k at level 200) : test_scope.
Notation "m ;; k" := (tbind m (fun _ => k)) (at level 100, right associativity) : test_scope.
#[global] Open Scope test_scope.

(** A call on the state, one without a result, and a look at it. *)
Definition call {W A} (f : W -> W * A) : T W A := fun w => Some (f w).
Definition effect_ {W} (f : W -> W) : T W unit := fun w => Some (f w, tt).
Definition look {W A} (f : W -> A) : T W A := fun w => Some (w, f w).

(** [assert!], [unwrap], [unwrap_err], and [unwrap] on an [Option]. *)
Definition check {W} (b : bool) : T W unit := fun w => if b then Some (w, tt) else None.
Definition unwrap {W A E} (r : Result A E) : T W A :=
  match r with Ok a => tret a | Err _ => fun _ => None end.
Definition unwrap_err {W A E} (r : Result A E) : T W E :=
  match r with Ok _ => fun _ => None | Err e => tret e end.
Definition unwrap_some {W A} (o : option A) : T W A :=
  match o with Some a => tret a | None => fun _ => None end.

(** Code that runs alone; a panic or a block of it fails the test. *)
Definition exec_ {W A} (p : proc W A) : T W A :=
  fun w => match run p w with Some (w, Returned a) => Some (w, a) | _ => None end.

Definition is_err {A E} (r : Result A E) : bool := negb (is_ok r).
Definition is_none {A} (o : option A) : bool := match o with None => true | Some _ => false end.
Definition is_some {A} (o : option A) : bool := negb (is_none o).

Fixpoint for_each {W X} (l : list X) (f : X -> T W unit) : T W unit :=
  match l with [] => tret tt | x :: l => f x;; for_each l f end.

Lemma for_each_passes {W X} (l : list X) (f : X -> T W unit) w :
  (forall x, x ∈ l -> f x w = Some (w, tt)) -> for_each l f w = Some (w, tt).
Proof.
  induction l as [|x l IH]; intros H; [done|]. cbn [for_each]. unfold tbind. rewrite H by left.
  apply IH. intros y Hy. apply H. by right.
Qed.

Lemma tbind_ok {W A B} (m : T W A) (k : A -> T W B) w w' a : m w = Some (w', a) -> tbind m k w = k a w'.
Proof. unfold tbind. by intros ->. Qed.

Lemma check_true {W} b (w : W) : b = true -> check b w = Some (w, tt).
Proof. by intros ->. Qed.

Definition passes {W A} (t : T W A) (w : W) : bool := is_some (t w).

Notation "x == y" := (bool_decide (x = y)) (at level 70, no associativity) : test_scope.

(** ** Threads

    One schedule of a pool: the first thread that can act does, threads that
    were created start when no thread can act. *)
Section schedule.
Context {W X : Type}.
Variable spawned : W -> option (W * proc W X).

(** The next action of a thread. *)
Definition action {A} (w : W) (p : proc W A) : option (W * proc W A) :=
  match p with
  | Act f k => match f w with Some (w, r) => Some (w, k r) | None => None end
  | _ => None
  end.

Fixpoint act_first (w : W) (ps : list (proc W X)) : option (W * list (proc W X)) :=
  match ps with
  | [] => None
  | p :: ps =>
      match action w p with
      | Some (w, p) => Some (w, p :: ps)
      | None => match act_first w ps with Some (w, ps) => Some (w, p :: ps) | None => None end
      end
  end.

Fixpoint schedule (fuel : nat) (w : W) (ps : list (proc W X)) : W * list (proc W X) :=
  match fuel with
  | O => (w, ps)
  | S fuel =>
      match act_first w ps with
      | Some (w, ps) => schedule fuel w ps
      | None => match spawned w with Some (w, p) => schedule fuel w (ps ++ [p]) | None => (w, ps) end
      end
  end.

End schedule.

(** A thread acts until it has ended or blocks. *)
Fixpoint act_all {W A} (fuel : nat) (w : W) (p : proc W A) : W * proc W A :=
  match fuel with
  | O => (w, p)
  | S fuel => match action w p with Some (w, p) => act_all fuel w p | None => (w, p) end
  end.

(** What every thread has returned, if all have. *)
Definition all_ended {W X} (ps : list (proc W X)) : option (list X) :=
  mapM (fun p => match p with Ret x => Some x | _ => None end) ps.
