(* ===== verification/ImageTests.v ===== *)
(** * The unit tests of src/src/image.rs (lines 235-381)

    The assertion on the capacity of the returned vector is not translated:
    allocation is not modelled. *)

From S2P Require Import Prelude Utf8 Error Image Testing.

Definition LIMITS : ImageLimits := {| lim_bytes := 4096; lim_entries := 100 |}.

Abbreviation test := (T unit unit).

Definition set_snapshot (s : SnapshotRef) (i : WalImage) : WalImage := mkWalImage (Some s) (img_entries i).
Definition push_back (e : bytes) (i : WalImage) : WalImage := mkWalImage (img_snapshot i) (img_entries i ++ [e]).

Definition is_corrupt {A} (r : Result A WalError) : bool := match r with Err (Corrupt _) => true | _ => false end.
Definition is_limit {A} (r : Result A WalError) : bool := match r with Err (LimitExceeded _ _ _) => true | _ => false end.
Definition is_exhausted {A} (r : Result A WalError) : bool := match r with Err LsnExhausted => true | _ => false end.

Definition roundtrip_empty : test :=
  let$ data := unwrap (encode empty LIMITS) in
  let$ decoded := unwrap (decode data LIMITS) in
  check (img_snapshot decoded == None);;
  check (img_entries decoded == []);;
  check (first_lsn decoded =? 0);;
  check (tip decoded == None).

Definition roundtrip_full : test :=
  let img := set_snapshot (mkSnapshotRef "snap/x" 41) empty in
  let img := push_back (as_bytes "three") (push_back [] (push_back (as_bytes "one") img)) in
  let$ data := unwrap (encode img LIMITS) in
  let$ decoded := unwrap (decode data LIMITS) in
  check (img_snapshot decoded == img_snapshot img);;
  check (img_entries decoded == img_entries img);;
  check (first_lsn decoded =? 42);;
  check (tip decoded == Some 44);;
  check (entries_from decoded 43 == [(43, []); (44, as_bytes "three")]).

Definition encode_view_applies_fold_and_extra : test :=
  let img := push_back (as_bytes "c") (push_back (as_bytes "b") (push_back (as_bytes "a") empty)) in
  let sr := mkSnapshotRef "snap/k" 1 in
  let$ data := unwrap (encode_view img (Some sr) 2 [as_bytes "dd"; as_bytes "e"] LIMITS) in
  let$ decoded := unwrap (decode data LIMITS) in
  check (img_snapshot decoded == Some sr);;
  check (first_lsn decoded =? 2);;
  check (img_entries decoded == [as_bytes "c"; as_bytes "dd"; as_bytes "e"]).

Definition decode_rejects_garbage : test :=
  check (is_err (decode (as_bytes "nope") LIMITS));;
  check (is_err (decode [] LIMITS));;
  let$ ok := unwrap (encode empty LIMITS) in
  check (is_err (decode (ok ++ [x00]) LIMITS)).

(** [invalid[at..at + bs.len()].copy_from_slice(bs)] *)
Definition overwrite (at_ : nat) (bs data : bytes) : bytes :=
  take at_ data ++ bs ++ drop (at_ + length bs) data.

Definition malformed_corpus_and_every_truncation_are_rejected : test :=
  let image := push_back (as_bytes "abc") (set_snapshot (mkSnapshotRef "s" 5) empty) in
  let$ valid := unwrap (encode image LIMITS) in
  for_each (seq 0 (length valid)) (fun end_ => check (is_err (decode (take end_ valid) LIMITS)));;
  let invalid := overwrite 5 (to_le_bytes 8 U64_MAX) valid in
  check (is_corrupt (decode invalid LIMITS));;
  let invalid := overwrite 5 (to_le_bytes 8 (U64_MAX - 1)) invalid in
  check (is_corrupt (decode invalid LIMITS));;
  let impossible_count := as_bytes "WTL1" ++ [x00] ++ to_le_bytes 4 U32_MAX in
  check (is_corrupt (decode impossible_count LIMITS));;
  for_each (seq 0 (length valid)) (fun index =>
    for_each [x00; x01; x7f; xff] (fun b =>
      let mutation := <[index := b]> valid in
      match decode mutation LIMITS with
      | Ok decoded => let$ data := unwrap (encode decoded LIMITS) in check (data == mutation)
      | Err _ => tret tt
      end)).

Definition final_representable_lsn_and_exact_limits_roundtrip : test :=
  let image := push_back [] (set_snapshot (mkSnapshotRef "s" (U64_MAX - 2)) empty) in
  let exact := {| lim_bytes := 26; lim_entries := 1 |} in
  let$ data := unwrap (encode image exact) in
  let$ decoded := unwrap (decode data exact) in
  check (tip decoded == Some (U64_MAX - 1));;
  check (next_lsn decoded =? U64_MAX);;
  check (is_exhausted (encode_view image None 0 [[]] LIMITS));;
  check (is_limit (encode image {| lim_bytes := 25; lim_entries := 1 |}));;
  check (is_limit (decode data {| lim_bytes := 26; lim_entries := 0 |})).

Lemma image_tests_pass : forallb (fun t => passes t tt)
  [roundtrip_empty; roundtrip_full; encode_view_applies_fold_and_extra; decode_rejects_garbage;
   malformed_corpus_and_every_truncation_are_rejected; final_representable_lsn_and_exact_limits_roundtrip] = true.
Proof. vm_compute. reflexivity. Qed.
