(* ===== verification/SimTests.v ===== *)
(** * The unit tests of src/src/sim.rs (lines 298-364) *)

From Stdlib Require Import QArith.
From S2P Require Import Prelude Fmt Atomic Error Store Sim Testing.
#[local] Open Scope Z_scope.

(** [(0..n).map(|_| r.next_u64()).collect()] *)
Fixpoint draws (n : nat) (r : Rng) : list Z :=
  match n with O => [] | S n => let (r, x) := next_u64 r in x :: draws n r end.
(** [(0..n).filter(|_| r.chance(p)).count()] *)
Fixpoint hits (n : nat) (p : Q) (r : Rng) : Z :=
  match n with O => 0 | S n => let (r, hit) := chance p r in (if hit then 1 else 0) + hits n p r end.

Definition rng_is_deterministic_and_spread : T unit unit :=
  let a := draws 5 (Rng_new 7) in
  let b := draws 5 (Rng_new 7) in
  check (a == b);;
  let hits := hits 1000 (3 # 10) (Rng_new 1) in
  check ((200 <=? hits) && (hits <? 400)).

Abbreviation sim := (SimStore MemoryStore).

(** The closure [run]: whether each of the fifty puts succeeded. *)
Fixpoint puts (l : list nat) (s : sim) : list bool :=
  match l with
  | [] => []
  | i :: l => let (s, r) := put ("k" +:+ dec (Z.of_nat i)) (as_bytes "v") s in is_ok r :: puts l s
  end.

Definition fault_injection_is_deterministic : T unit unit :=
  let run := puts (seq 0 50)
    (with_faults 42 (mkFaults (3 # 10) (2 # 10)) (SimStore_new (MemoryStore_new None))) in
  let a := run in
  check (a == run);;
  check (existsb id a && existsb negb a).

Definition ambiguous_fault_executes_the_op : T sim unit :=
  effect_ (fail_next_mutation_ambiguously "wal");;
  let$ r := call (put "other" (as_bytes "x")) in
  let$ _ := unwrap r in
  let$ r := call (put "wal" (as_bytes "y")) in
  let$ _ := unwrap_err r in
  let$ found := look (fun s => (get "wal" (inner s)).2) in
  let$ o := unwrap found in
  let$ o := unwrap_some o in
  check (st_data o == as_bytes "y");;
  let$ r := call (put "wal" (as_bytes "z")) in
  let$ _ := unwrap r in
  tret tt.

Definition passthrough_counts_ops : T sim unit :=
  let$ r := call (put "k" (as_bytes "12345")) in
  let$ etag := unwrap r in
  let$ r := call (get "k") in
  let$ o := unwrap r in
  let$ _ := unwrap_some o in
  let$ r := call (get_if_changed "k" (Some etag)) in
  let$ got := unwrap r in
  check (match got with NotModified => true | _ => false end);;
  let$ r := call (delete_object "k") in
  let$ _ := unwrap r in
  let$ s := look counters in
  check ((n_puts s, n_gets s, n_not_modified s, n_deletes s) == (1, 1, 1, 1));;
  check ((n_bytes_uploaded s, n_bytes_downloaded s) == (5, 5));;
  check (n_faults_injected s =? 0).

Lemma sim_tests_pass :
  forallb (fun t => passes t tt) [rng_is_deterministic_and_spread; fault_injection_is_deterministic]
  && forallb (fun t => passes t (SimStore_new (MemoryStore_new None)))
       [ambiguous_fault_executes_the_op; passthrough_counts_ops] = true.
Proof. vm_compute. reflexivity. Qed.
