(* ===== verification/StoreTests.v ===== *)
(** * The unit tests of src/src/store.rs (lines 352-521) *)

From S2P Require Import Prelude Fmt Utf8 Error Atomic Store FsStore Testing.

(** [let CondPut::Ok { etag } = r else { panic! }] *)
Definition put_ok {W} (r : CondPut) : T W string :=
  match r with PutOk etag => tret etag | PreconditionFailed => fun _ => None end.
Definition is_precondition_failed (r : CondPut) : bool := match r with PreconditionFailed => true | PutOk _ => false end.

Section exercise.
Context {S : Type} `{ObjectStore S}.

Definition exercise : T S unit :=
  let$ r := call (get "k") in
  let$ o := unwrap r in
  check (is_none o);;

  let$ r := call (put_if_match "k" None (as_bytes "v1")) in
  let$ p := unwrap r in
  let$ etag := put_ok p in
  let$ r := call (put_if_match "k" None (as_bytes "v2")) in
  let$ p := unwrap r in
  check (is_precondition_failed p);;
  let$ r := call (put_if_match "k" (Some (quote +:+ "wrong" +:+ quote)) (as_bytes "v2")) in
  let$ p := unwrap r in
  check (is_precondition_failed p);;

  let$ r := call (get "k") in
  let$ o := unwrap r in
  let$ got := unwrap_some o in
  check (st_data got == as_bytes "v1");;
  check (st_etag got == etag);;
  let$ r := call (get_if_changed "k" (Some etag)) in
  let$ g := unwrap r in
  check (match g with NotModified => true | _ => false end);;

  let$ r := call (put_if_match "k" (Some etag) (as_bytes "v2")) in
  let$ p := unwrap r in
  let$ etag2 := put_ok p in
  check (negb (etag == etag2));;
  let$ r := call (get_if_changed "k" (Some etag)) in
  let$ g := unwrap r in
  check (match g with Changed s => st_data s == as_bytes "v2" | _ => false end);;

  let$ r := call (delete_object "k") in
  let$ _ := unwrap r in
  let$ r := call (get "k") in
  let$ o := unwrap r in
  check (is_none o);;
  let$ r := call (get_if_changed "k" (Some etag2)) in
  let$ g := unwrap r in
  check (match g with Missing => true | _ => false end);;
  let$ r := call (delete_object "k") in
  let$ _ := unwrap r in
  tret tt.

End exercise.

(** What [getrandom] produces in the runs: distinct identifiers. *)
Definition random_ids (n : nat) : list (option bytes) :=
  (fun i => Some (to_le_bytes 16 (Z.of_nat i))) <$> seq 0 n.

(** The files and the randomness of a test; [FsStore::new(root)], where [held]
    says that another handle holds the root's lock, and with [unwrap]. *)
Record FsTest : Type := mkFsTest { ft_fs : Fs; ft_ids : list (option bytes) }.

Definition fs_try_open (root : path) (held : bool) : T FsTest (option FsStore) := fun w =>
  match FsStore_new root held (ft_fs w) (ft_ids w) with
  | (fs, Ok s) => Some (mkFsTest fs (fss_ids s), Some s)
  | (fs, Err _) => Some (mkFsTest fs (ft_ids w), None)
  end.
Definition fs_open (root : path) (held : bool) : T FsTest FsStore :=
  let$ s := fs_try_open root held in unwrap_some s.

(** Requests on an open store; [drop(store)] leaves its files. *)
Definition on_store {A} (s : FsStore) (t : T FsStore A) : T FsTest (FsStore * A) := fun w =>
  match t s with Some (s, a) => Some (mkFsTest (fss_fs s) (fss_ids s), (s, a)) | None => None end.

Definition root : path := ["tmp"; "root"].

Definition x1024 : string := String.concat "" (repeat "x" 1024).
(** "é" is two bytes. *)
Definition e_acute : string := string_of_list_byte [xc3; xa9].
Definition alias_keys : list string :=
  [""; "a/b"; "a__b"; "k"; "k.etag"; "k.tmp"; ".waltier-store"; "../outside"; "/absolute"; "objects"; e_acute; x1024].

(** [keys.iter().map(..put..).collect()] *)
Fixpoint put_all (keys : list string) : T FsStore (list (string * string)) :=
  match keys with
  | [] => tret []
  | key :: keys =>
      let$ r := call (put key (as_bytes key)) in
      let$ etag := unwrap r in
      let$ versions := put_all keys in
      tret ((key, etag) :: versions)
  end.

Definition fs_object_keys_and_metadata_do_not_alias : T FsTest unit :=
  let$ store := fs_open root false in
  let$ _ := on_store store (
    let$ versions := put_all alias_keys in
    for_each versions (fun '(key, etag) =>
      let$ r := call (get key) in
      let$ o := unwrap r in
      let$ got := unwrap_some o in
      check (st_data got == as_bytes key);;
      check (st_etag got == etag));;
    let$ r := call (delete_object "k.etag") in
    let$ _ := unwrap r in
    let$ r := call (get "k") in
    let$ o := unwrap r in
    let$ got := unwrap_some o in
    check (st_data got == as_bytes "k")) in
  tret tt.

(** The child process of the lock test: it opens the root by its own handle. *)
Definition fs_root_child_lock (held expect_open : bool) : T FsTest unit :=
  let$ opened := fs_try_open root held in
  check (is_some opened == expect_open);;
  match opened with
  | Some store =>
      let$ _ := on_store store (
        let$ r := call (get "wal") in
        let$ o := unwrap r in
        let$ got := unwrap_some o in
        check (st_data got == as_bytes "history")) in
      tret tt
  | None => tret tt
  end.

(** [root.join(".")] is canonicalised to [root]. *)
Definition fs_root_rejects_independent_handles_and_releases_after_drop : T FsTest unit :=
  let$ store := fs_open root false in
  let$ (store, etag) := on_store store (let$ r := call (put "wal" (as_bytes "history")) in unwrap r) in
  let namespace := cache_namespace store in
  let$ second := fs_try_open root true in
  check (is_none second);;
  fs_root_child_lock true false;;
  (* the store is dropped here, and its lock released *)
  fs_root_child_lock false true;;
  let$ reopened := fs_open root false in
  check (cache_namespace reopened == namespace);;
  let$ _ := on_store reopened (
    let$ r := call (get "wal") in
    let$ o := unwrap r in
    let$ got := unwrap_some o in
    check (st_data got == as_bytes "history");;
    check (st_etag got == etag)) in
  tret tt.

(** [fs::write] and [fs::read] of the test itself. *)
Definition fs_write (p : path) (bs : bytes) : T FsTest unit := fun w =>
  Some (mkFsTest (set_files (ft_fs w) (<[p := bs]> (fs_files (ft_fs w)))) (ft_ids w), tt).
Definition fs_read (p : path) : T FsTest bytes := fun w =>
  match fs_files (ft_fs w) !! p with Some bs => Some (w, bs) | None => None end.

Definition fs_legacy_roots_are_rejected_without_hiding_history : T FsTest unit :=
  fs_write (root ++ ["wal"]) (as_bytes "old-image");;
  fs_write (root ++ ["wal.etag"]) (as_bytes "old-etag");;
  let$ opened := fs_try_open root false in
  check (is_none opened);;
  let$ content := fs_read (root ++ ["wal"]) in
  check (content == as_bytes "old-image");;
  let$ opened := fs_try_open root false in
  check (is_none opened).

(** The obstacle at publication is a directory at the object's path: the calls
    of the put up to [fs::rename] succeed and that one fails. *)
Definition rename_fails (fs : Fs) : Fs :=
  mkFs (fs_files fs) (repeat None 6 ++ [Some 0%nat]) (fs_pid fs) (fs_next fs).
Definition healthy (fs : Fs) : Fs := mkFs (fs_files fs) [] (fs_pid fs) (fs_next fs).

Definition fs_failed_publication_keeps_existing_objects_coherent : T FsTest unit :=
  let$ store := fs_open root false in
  let$ _ := on_store store (
    let$ r := call (put "good" (as_bytes "history")) in
    let$ etag := unwrap r in
    effect_ (fun s => with_files (rename_fails (fss_fs s)) s);;
    let$ r := call (put "blocked" (as_bytes "candidate")) in
    check (is_err r);;
    let$ r := call (get "good") in
    let$ o := unwrap r in
    let$ got := unwrap_some o in
    check ((st_etag got, st_data got) == (etag, as_bytes "history"));;
    effect_ (fun s => with_files (healthy (fss_fs s)) s);;
    let$ r := call (get "blocked") in
    let$ o := unwrap r in
    check (is_none o);;
    let$ r := call (put_if_match "blocked" None (as_bytes "retry")) in
    let$ p := unwrap r in
    let$ _ := put_ok p in
    tret tt) in
  tret tt.

Definition memory_store_semantics : bool := passes exercise (MemoryStore_new None).
Definition fs_store_semantics : T FsTest unit :=
  let$ store := fs_open root false in let$ _ := on_store store exercise in tret tt.

Definition fs_test : FsTest := mkFsTest empty_fs (random_ids 20).

Lemma store_tests_pass :
  memory_store_semantics
  && forallb (fun t => passes t fs_test)
       [fs_object_keys_and_metadata_do_not_alias; fs_root_rejects_independent_handles_and_releases_after_drop;
        fs_legacy_roots_are_rejected_without_hiding_history; fs_failed_publication_keeps_existing_objects_coherent;
        fs_store_semantics] = true.
Proof. vm_compute. reflexivity. Qed.
