(* ===== verification/CacheTests.v ===== *)
(** * The unit tests of src/src/cache.rs (lines 302-630)

    Two of them run threads: the one that overlaps two writers at a fixed
    point is evaluated, the one that leaves the interleaving to the scheduler
    is proved for every interleaving. *)

From S2P Require Import Prelude Fmt Utf8 Atomic Store Cache CacheChecksum CacheProps CacheTheorems Proc Disk SharedCache SharedInv SharedSteps SharedProps SharedTheorems Testing.

Definition quoted (s : string) : string := quote +:+ s +:+ quote.

(** [Cache::new(dir.path(), Some("test"), "wal")] in a fresh directory. *)
Definition dir : path := ["dir"].
Definition cache : T Fs Cache := call (cache_new dir (Some "test") "wal").

Definition saving (f : Fs -> Fs) : T Fs unit := effect_ f.

(** [fs::read(p).unwrap()] and [fs::write(p, bs).unwrap()] of the test itself. *)
Definition t_read (p : path) : T Fs bytes := let$ r := call (read_file p) in unwrap r.
Definition t_write (p : path) (bs : bytes) : T Fs unit := effect_ (fun fs => set_files fs (<[p := bs]> (fs_files fs))).

Definition wal_and_snapshot_roundtrip : T Fs unit :=
  let$ c := cache in
  let$ r := call (load_wal c 4096) in
  check (r == None);;
  saving (save_wal c (quoted "etag-1") (as_bytes "image bytes"));;
  let$ r := call (load_wal c 4096) in
  check (r == Some (quoted "etag-1", as_bytes "image bytes"));;
  let$ r := call (load_snapshot c "snap/k" 4096) in
  check (r == None);;
  saving (save_snapshot c "snap/k" (as_bytes "snapshot bytes"));;
  let$ r := call (load_snapshot c "snap/k" 4096) in
  check (r == Some (as_bytes "snapshot bytes"));;
  saving (remove_snapshot c "snap/k");;
  let$ r := call (load_snapshot c "snap/k" 4096) in
  check (r == None).

(** The array [damaged] of the test. *)
Definition flip (b : byte) : byte := byte_of (Z.lxor (byte_val b) 1).
Definition damaged_versions (good : bytes) : list bytes :=
  let n := length good in
  [take (n - 1)%nat good; take (Z.to_nat HEADER) good; take (Z.to_nat HEADER - 1)%nat good; [];
   good ++ as_bytes "extra"; alter flip (n - 1)%nat good; alter flip 4%nat good; <[0%nat := x58]> good].

Definition damaged_files_read_as_misses : T Fs unit :=
  let$ c := cache in
  saving (save_wal c (quoted "etag-1") (as_bytes "image bytes"));;
  saving (save_snapshot c "snap/k" (as_bytes "snapshot bytes"));;
  let load_image : T Fs (option bytes) := let$ r := call (load_wal c 4096) in tret (snd <$> r) in
  let load_snap : T Fs (option bytes) := call (load_snapshot c "snap/k" 4096) in
  for_each [(wal_path c, load_image); (snap_path c "snap/k", load_snap)] (fun '(p, load) =>
    let$ good := t_read p in
    for_each (damaged_versions good) (fun bs =>
      t_write p bs;;
      let$ r := load in
      check (r == None));;
    t_write p good;;
    let$ r := load in
    check (is_some r));;
  let$ r := call (load_wal c 4096) in
  check (is_some r);;
  let$ r := call (load_snapshot c "snap/k" 4096) in
  check (is_some r).

Definition retain_snapshot_sweeps_the_rest : T Fs unit :=
  let$ c := cache in
  saving (save_wal c (quoted "etag") (as_bytes "image"));;
  for_each ["snap/a"; "snap/b"; "snap/c"] (fun key => saving (save_snapshot c key (as_bytes key)));;
  saving (retain_snapshot c (Some "snap/b"));;
  let$ r := call (load_snapshot c "snap/a" 4096) in
  check (r == None);;
  let$ r := call (load_snapshot c "snap/b" 4096) in
  check (r == Some (as_bytes "snap/b"));;
  let$ r := call (load_snapshot c "snap/c" 4096) in
  check (r == None);;
  let$ r := call (load_wal c 4096) in
  check (is_some r);;
  saving (retain_snapshot c None);;
  let$ r := call (load_snapshot c "snap/b" 4096) in
  check (r == None);;
  let$ r := call (load_wal c 4096) in
  check (is_some r).

Definition cache_identity_covers_backend_wal_key_and_snapshot_key : T Fs unit :=
  let$ a := call (cache_new dir (Some "backend-a") "a/wal") in
  saving (save_wal a "same-etag" (as_bytes "history-a"));;
  saving (save_snapshot a "snap/same" (as_bytes "snapshot-a"));;
  for_each [(Some "backend-b", "a/wal"); (Some "backend-a", "b/wal"); (None, "a/wal")] (fun '(ns, wal_key) =>
    let$ b := call (cache_new dir ns wal_key) in
    let$ r := call (load_wal b 4096) in
    check (r == None);;
    let$ r := call (load_snapshot b "snap/same" 4096) in
    check (r == None));;
  let$ content := t_read (snap_path a "snap/same") in
  t_write (snap_path a "snap/different") content;;
  let$ r := call (load_snapshot a "snap/different" 4096) in
  check (r == None);;
  let$ unknown := call (cache_new dir None "a/wal") in
  saving (save_wal unknown "same-etag" (as_bytes "wrong"));;
  let$ r := call (load_wal a 4096) in
  let$ got := unwrap_some r in
  check (got.2 == as_bytes "history-a").

(** [fs::read_dir(dir).unwrap().count()] *)
Definition t_count (d : path) : T Fs Z := look (fun fs => zlen (filter (fun p => is_child d p = true) (map_to_list (fs_files fs)).*1)).

Definition failed_atomic_preparation_preserves_the_published_version : T Fs unit :=
  let p := dir ++ ["object"] in
  let$ r := call (write_atomic p [as_bytes "old-etag"; as_bytes "old-data"]) in
  let$ _ := unwrap r in
  let$ error := call (write_atomic_with p (fun file fs =>
    match write_all file (as_bytes "new-etag-partial-data") fs with
    | (fs, Ok _) => (fs, Err (mkIoErr OtherKind "injected disk-full during preparation"))
    | (fs, Err e) => (fs, Err e)
    end)) in
  check (is_err error);;
  let$ content := t_read p in
  check (content == as_bytes "old-etagold-data");;
  let$ n := t_count dir in
  check (n =? 1).

Definition atomic_writers_preserve_an_existing_preferred_temporary_file : T Fs unit :=
  let$ pid := look fs_pid in
  let preferred := tmp_first dir pid in
  t_write preferred (as_bytes "another writer's temporary bytes");;
  let p := dir ++ ["object"] in
  let$ r := call (write_atomic p [as_bytes "new version"]) in
  let$ _ := unwrap r in
  let$ content := t_read p in
  check (content == as_bytes "new version");;
  let$ content := t_read preferred in
  check (content == as_bytes "another writer's temporary bytes");;
  let$ n := t_count dir in
  check (n =? 2).

Definition checksum_separates_content_and_length : T Fs unit :=
  check (negb (checksum [] =? checksum [x00]));;
  check (negb (checksum (as_bytes "abcdefgh") =? checksum (as_bytes "abcdefgi")));;
  check (negb (checksum (as_bytes "abcdefghi") =? checksum (as_bytes "abcdefgh")));;
  check (checksum (as_bytes "abcdefghij") =? checksum (as_bytes "abcdefghij")).

(** [slice::chunks(3)] *)
Fixpoint chunks3 (fuel : nat) (bs : bytes) : list bytes :=
  match fuel, bs with
  | S fuel, _ :: _ => take 3 bs :: chunks3 fuel (drop 3 bs)
  | _, _ => []
  end.

(** The first loop of the test, over [bytes = (0..97).collect()]. *)
Definition checksum_alignments {W} (bs : bytes) : T W unit :=
  for_each (seq 0 (S (length bs))) (fun end_ =>
    for_each (seq 0 (S end_)) (fun split =>
      check (checksum_parts (Z.of_nat end_) [take split bs; []; drop split (take end_ bs)] =? legacy (take end_ bs)));;
    check (checksum_parts (Z.of_nat end_) (chunks3 (length bs) (take end_ bs)) =? legacy (take end_ bs))).

(** The second: records whose parts fall on every alignment. *)
Definition unaligned_records (bs : bytes) : T Fs unit :=
  for_each (seq 0 16) (fun n =>
    let$ c := call (cache_new dir (Some (String.concat "" (repeat "n" n))) "unaligned/wal") in
    saving (save_wal c (String.concat "" (repeat "e" n)) bs);;
    let$ r := call (load_wal c (zlen bs)) in
    let$ got := unwrap_some r in
    check (got.2 == bs);;
    let$ file := t_read (wal_path c) in
    t_write (wal_path c) (alter flip (length file - 1)%nat file);;
    let$ r := call (load_wal c (zlen bs)) in
    check (is_none r)).

Definition streaming_checksum_matches_wtc2_across_every_part_alignment : T Fs unit :=
  let bs := byte_of <$> seqZ 0 97 in
  checksum_alignments bs;; unaligned_records bs.

Definition frame_of (payload : bytes) : bytes :=
  concat [CACHE_MAGIC; to_le_bytes 8 (checksum payload); to_le_bytes 8 (zlen payload); payload].

(** ["x".repeat(n)] *)
Definition letters (b : byte) (n : Z) : string := string_of_list_byte (repeat b (Z.to_nat n)).

(** One round of the test's loop; every round has a directory of its own. *)
Definition cache_frame_round (namespace key etag : string) (body : bytes) (lengths : Z * Z * Z * Z) : T Fs unit :=
  let '(namespace_len, key_len, etag_len, body_len) := lengths in
  let$ c := call (cache_new dir (Some namespace) "wal") in
  let identity := dec namespace_len +:+ ":" +:+ namespace +:+ "3:wal" in
  let wal_payload := concat [as_bytes identity; to_le_bytes 8 3; as_bytes "wal";
    to_le_bytes 2 etag_len; as_bytes etag; body] in
  saving (save_wal c etag body);;
  let$ file := t_read (wal_path c) in
  check (file == frame_of wal_payload);;
  let$ r := call (load_wal c body_len) in
  check (r == Some (etag, body));;
  let snap_payload := concat [as_bytes identity; to_le_bytes 8 key_len; as_bytes key; body] in
  saving (save_snapshot c key body);;
  let$ file := t_read (snap_path c key) in
  check (file == frame_of snap_payload);;
  let$ r := call (load_snapshot c key body_len) in
  check (r == Some body).

Definition cache_frame_case (lengths : Z * Z * Z * Z) : T Fs unit :=
  let '(namespace_len, key_len, etag_len, body_len) := lengths in
  cache_frame_round (letters x6e namespace_len) (letters x6b key_len) (letters x65 etag_len)
    (repeat x5a (Z.to_nat body_len)) lengths.

Definition cache_frames_preserve_wtc2_with_empty_and_large_metadata : bool :=
  forallb (fun lengths => passes (cache_frame_case lengths) empty_fs)
    [(0, 0, 0, 0); (1, 7, 9, 31); (8192, 16384, 65535, 65536)].

(** The part of the test before the sparse files. *)
Definition byte_budgets_exact : T Fs Cache :=
  let$ c := cache in
  saving (save_wal c "etag" (as_bytes "four"));;
  let$ r := call (load_wal c 4) in
  let$ got := unwrap_some r in
  check (got.2 == as_bytes "four");;
  let$ r := call (load_wal c 3) in
  check (is_none r);;
  saving (save_snapshot c "s" (as_bytes "four"));;
  let$ r := call (load_snapshot c "s" 4) in
  let$ got := unwrap_some r in
  check (got == as_bytes "four");;
  let$ r := call (load_snapshot c "s" 3) in
  check (is_none r);;
  tret c.

(** [File::create(p).unwrap().set_len(n).unwrap()]; [sparse] are the zeros. *)
Definition byte_budgets_reject_oversized_cache_files_and_allow_exact_bodies (sparse : bytes) : T Fs unit :=
  let$ c := byte_budgets_exact in
  t_write (snap_path c "s") sparse;;
  let$ r := call (load_snapshot c "s" 4) in
  check (is_none r);;
  t_write (wal_path c) sparse;;
  let$ r := call (load_wal c 4) in
  check (is_none r).

Lemma cache_tests_pass : forallb (fun t => passes t empty_fs)
  [wal_and_snapshot_roundtrip; damaged_files_read_as_misses; retain_snapshot_sweeps_the_rest;
   cache_identity_covers_backend_wal_key_and_snapshot_key; failed_atomic_preparation_preserves_the_published_version;
   atomic_writers_preserve_an_existing_preferred_temporary_file; checksum_separates_content_and_length] = true.
Proof. vm_compute. reflexivity. Qed.

(** ** The checksum across every alignment, for bytes of any length *)

Lemma chunks3_concat fuel bs : (length bs <= fuel)%nat -> concat (chunks3 fuel bs) = bs.
Proof.
  revert bs. induction fuel as [|fuel IH]; intros [|b bs] Hl; cbn [chunks3 concat]; [done|cbn in Hl; lia|done|].
  rewrite IH, take_drop; [done|]. rewrite length_drop. cbn in Hl |- *. lia.
Qed.

Lemma legacy_parts n parts bs : concat parts = bs -> zlen bs = Z.of_nat n ->
  (checksum_parts (Z.of_nat n) parts =? legacy bs) = true.
Proof. intros <- <-. rewrite checksum_parts_spec, legacy_spec. apply Z.eqb_refl. Qed.

Lemma checksum_alignments_pass {W} bs (w : W) : checksum_alignments bs w = Some (w, tt).
Proof.
  apply for_each_passes. intros n [_ Hn]%elem_of_seq.
  assert (zlen (take n bs) = Z.of_nat n) as Hz by (unfold zlen; rewrite length_take; lia).
  unfold tbind. rewrite for_each_passes; [apply check_true, legacy_parts; [|done]|].
  - apply chunks3_concat. rewrite length_take. lia.
  - intros k [_ Hk]%elem_of_seq. apply check_true, legacy_parts; [|done]. cbn [concat app]. rewrite app_nil_r.
    rewrite <- (take_drop k (take n bs)) at 2. f_equal. rewrite take_take. f_equal. lia.
Qed.

Lemma unaligned_records_pass : passes (unaligned_records (byte_of <$> seqZ 0 97)) empty_fs = true.
Proof. vm_compute. reflexivity. Qed.

Lemma streaming_test_passes : passes streaming_checksum_matches_wtc2_across_every_part_alignment empty_fs = true.
Proof.
  unfold streaming_checksum_matches_wtc2_across_every_part_alignment. cbv zeta. unfold passes, tbind at 1.
  rewrite checksum_alignments_pass. exact unaligned_records_pass.
Qed.

(** ** Frames, for metadata of any length a record can have *)

Section frame_case.
Variables namespace_len key_len etag_len body_len : Z.
Hypothesis lengths_ok : 0 <= namespace_len /\ 0 <= key_len /\ 0 <= etag_len <= U16_MAX /\ 0 <= body_len.
Hypothesis total_ok : namespace_len + key_len + body_len + 2 ^ 20 < U64_MAX.

Lemma letters_bytes b n : as_bytes (letters b n) = repeat b (Z.to_nat n).
Proof. unfold letters, as_bytes. by rewrite list_byte_of_string_of_list_byte. Qed.

Lemma letters_len b n : 0 <= n -> str_len (letters b n) = n.
Proof. intros H. unfold str_len. rewrite letters_bytes. unfold zlen. rewrite repeat_length. lia. Qed.

Lemma letters_utf8 n : is_utf8 (letters x65 n).
Proof. unfold is_utf8. rewrite letters_bytes. by induction (Z.to_nat n). Qed.

Lemma identity_letters n : 0 <= n ->
  as_bytes (dec n +:+ ":" +:+ letters x6e n +:+ "3:wal") = as_bytes (identity_of (letters x6e n) "wal").
Proof. intros H. unfold identity_of. by rewrite letters_len. Qed.

(** [fs::read(p).unwrap()] of a file that is there. *)
Lemma t_read_ok p c fs : fs_io fs = [] -> fs_files fs !! p = Some c -> t_read p fs = Some (fs, c).
Proof. intros Hio Hf. unfold t_read, tbind, call, read_file, draw. by rewrite Hio, Hf. Qed.

Hypothesis digits_ok : str_len (dec namespace_len) <= 20.

(** What the test does not see, it does not change. *)
Lemma wal_payload_frame (id etag body : bytes) :
  frame_of (concat [id; to_le_bytes 8 3; as_bytes "wal"; to_le_bytes 2 (zlen etag); etag; body])
  = frame (payload_of id (as_bytes "wal") (to_le_bytes 2 (zlen etag) ++ etag ++ body)).
Proof. unfold frame_of, frame, payload_of. cbn [concat]. by rewrite !app_nil_r. Qed.

Lemma snap_payload_frame (id key body : bytes) :
  frame_of (concat [id; to_le_bytes 8 (zlen key); key; body]) = frame (payload_of id key body).
Proof. unfold frame_of, frame, payload_of. cbn [concat]. by rewrite !app_nil_r. Qed.

Lemma cache_frame_case_passes : passes (cache_frame_case (namespace_len, key_len, etag_len, body_len)) empty_fs = true.
Proof.
  destruct lengths_ok as (Hn & Hk & [He He'] & Hb).
  pose proof (letters_len x6b key_len Hk) as Hkl. pose proof (letters_len x65 etag_len He) as Hel.
  unfold passes, cache_frame_case. revert Hkl Hel. generalize (letters_utf8 etag_len).
  generalize (letters x6b key_len), (letters x65 etag_len). intros key etag Hutf Hkl Hel.
  assert (zlen (repeat x5a (Z.to_nat body_len)) = body_len) as Hbl by (unfold zlen; rewrite repeat_length; lia).
  revert Hbl. generalize (repeat x5a (Z.to_nat body_len)). intros body Hbl.
  unfold cache_frame_round. rewrite (identity_letters namespace_len Hn), <- Hkl, <- Hel.
  set (c := cache_at dir (letters x6e namespace_len) "wal").
  set (id := as_bytes (identity_of (letters x6e namespace_len) "wal")).
  assert (zlen id <= 26 + namespace_len) as Hid.
  { unfold id. unfold identity_of. change (zlen (as_bytes ?s)) with (str_len s).
    rewrite !str_len_app, letters_len by done. change (dec (str_len "wal")) with "3".
    change (str_len ":") with 1. change (str_len "3") with 1. change (str_len "wal") with 3. lia. }
  destruct (save_wal_complete c id etag body empty_fs eq_refl eq_refl) as (Hf1 & Hio1 & Hu1).
  { by split; vm_compute. } { by vm_compute. } { lia. } { unfold HEADER. zlia. }
  set (fs1 := save_wal c etag body empty_fs) in *.
  destruct (save_snapshot_complete c id key body fs1 eq_refl Hio1 Hu1) as (Hf2 & Hio2 & _).
  { rewrite Hf1. change (fs_files empty_fs) with (∅ : gmap path bytes). by rewrite insert_empty, map_size_singleton. } { unfold HEADER. zlia. }
  set (fs2 := save_snapshot c key body fs1) in *.
  apply (f_equal (.!! wal_path c)) in Hf1. rewrite lookup_insert_eq in Hf1.
  apply (f_equal (.!! snap_path c key)) in Hf2. rewrite lookup_insert_eq in Hf2.
  assert (load_wal c body_len fs1 = (fs1, Some (etag, body))) as Hlw.
  { apply (load_wal_complete c id); [done..|lia|lia|unfold HEADER; unfold_consts; zlia]. }
  assert (load_snapshot c key body_len fs2 = (fs2, Some body)) as Hls.
  { apply (load_complete c id); [done..|lia|].
    change (zlen (as_bytes key)) with (str_len key). unfold HEADER. zlia. }
  rewrite (tbind_ok (call _) _ empty_fs empty_fs c) by reflexivity. cbv zeta.
  erewrite tbind_ok by reflexivity. fold fs1.
  erewrite tbind_ok by (exact (t_read_ok _ _ fs1 Hio1 Hf1)).
  erewrite tbind_ok by (apply check_true, bool_decide_eq_true, eq_sym, wal_payload_frame).
  erewrite tbind_ok by (unfold call; by rewrite Hlw).
  erewrite tbind_ok by (by apply check_true, bool_decide_eq_true).
  erewrite tbind_ok by reflexivity. fold fs2.
  erewrite tbind_ok by (exact (t_read_ok _ _ fs2 Hio2 Hf2)).
  erewrite tbind_ok by (apply check_true, bool_decide_eq_true, eq_sym, snap_payload_frame).
  erewrite tbind_ok by (unfold call; by rewrite Hls).
  by rewrite check_true by (by apply bool_decide_eq_true).
Qed.

End frame_case.

Lemma frame_tests_pass : cache_frames_preserve_wtc2_with_empty_and_large_metadata = true.
Proof.
  apply forallb_forall. intros [[[n k] e] b] H%list_elem_of_In.
  rewrite !elem_of_cons, elem_of_nil in H.
  destruct_or! H; try done; injection H as -> -> -> ->; apply cache_frame_case_passes; by vm_compute.
Qed.

(** ** Byte budgets: a sparse file of any size above a few dozen bytes *)

Lemma oversized_snapshot_misses dir ns wk key max fs c : sane_str key ->
  fs_files fs !! snap_path (cache_at dir ns wk) key = Some c ->
  HEADER + str_len (identity_of ns wk) + 8 + str_len key + max < zlen c ->
  (load_snapshot (cache_at dir ns wk) key max fs).2 = None.
Proof.
  intros Hk Hf Hz. destruct (load_snapshot _ _ _ fs) as [fs' [d|]] eqn:E; [exfalso|done].
  apply load_snapshot_spec in E as [_ H]; [|done]. destruct (H d eq_refl) as (id & [= <-] & Hf' & Hd).
  rewrite Hf in Hf'. injection Hf' as ->. unfold record_file in Hz.
  rewrite zlen_frame, zlen_payload_of in Hz. unfold str_len in Hz. lia.
Qed.

Lemma oversized_wal_misses dir ns wk max fs c :
  fs_files fs !! wal_path (cache_at dir ns wk) = Some c ->
  HEADER + str_len (identity_of ns wk) + 13 + U16_MAX + max < zlen c ->
  (load_wal (cache_at dir ns wk) max fs).2 = None.
Proof.
  intros Hf Hz. destruct (load_wal _ _ fs) as [fs' [[e d]|]] eqn:E; [exfalso|done].
  apply load_wal_spec in E as [_ H]. destruct (H e d eq_refl) as (id & [= <-] & Hf' & Hd & _ & He).
  rewrite Hf in Hf'. injection Hf' as ->. unfold record_file, wal_data in Hz.
  rewrite zlen_frame, zlen_payload_of in Hz. autorewrite with waltier in Hz.
  change (zlen (as_bytes "wal")) with 3 in Hz. unfold str_len in *. lia.
Qed.

Lemma byte_budgets_pass sparse : 2 ^ 30 <= zlen sparse ->
  passes (byte_budgets_reject_oversized_cache_files_and_allow_exact_bodies sparse) empty_fs = true.
Proof.
  intros Hz. unfold passes, byte_budgets_reject_oversized_cache_files_and_allow_exact_bodies.
  set (c := cache_at dir "test" "wal").
  assert (exists fs, byte_budgets_exact empty_fs = Some (fs, c)) as [fs E].
  { eexists. vm_compute. reflexivity. }
  rewrite (tbind_ok _ _ _ _ _ E). clear E.
  set (fs1 := set_files fs (<[snap_path c "s" := sparse]> (fs_files fs))).
  rewrite (tbind_ok _ _ _ fs1 tt) by done. unfold call, tbind.
  pose proof (oversized_snapshot_misses dir "test" "wal" "s" 4 fs1 sparse ltac:(by vm_compute)
    ltac:(apply lookup_insert_eq) ltac:(change (str_len "s") with 1; change (str_len (identity_of "test" "wal")) with 11; unfold HEADER; lia)) as H1.
  fold c in H1. destruct (load_snapshot c "s" 4 fs1) as [fs2 r]. cbn in H1. subst r. cbn [is_none check].
  set (fs3 := set_files fs2 (<[wal_path c := sparse]> (fs_files fs2))).
  change (t_write (wal_path c) sparse fs2) with (Some (fs3, tt)). cbv beta iota.
  pose proof (oversized_wal_misses dir "test" "wal" 4 fs3 sparse
    ltac:(apply lookup_insert_eq) ltac:(change (str_len (identity_of "test" "wal")) with 11; unfold HEADER; unfold_consts; lia)) as H2.
  fold c in H2. destruct (load_wal c 4 fs3) as [fs4 r]. cbn in H2. by subst r.
Qed.

(** ** Threads *)

(** Two writers of one file overlap: the first has written half of its content
    when the second publishes, and completes after that. [fs::read] is the
    content between the two. *)
Definition overlapping_writers : (Trace * Disk) * list (proc Disk (Result unit IoErr)) :=
  let p := dir ++ ["object"] in
  (([], empty_disk),
   [write_atomic_with_p 2 42 p (fun file =>
      let! r := act (d_write_all file (as_bytes "first-")) in
      match r with Ok _ => act (d_write_all file (as_bytes "complete")) | Err e => Ret (Err e) end);
    write_atomic_p 2 42 p [as_bytes "second-complete"]]).

Definition overlapping_atomic_writers_publish_only_their_own_complete_frames : bool :=
  let p := dir ++ ["object"] in
  let prepared := foldl disk_tick overlapping_writers [0; 0]%nat in
  let published := foldl disk_tick prepared (repeat 1%nat 6) in
  let ended := foldl disk_tick published [0; 0]%nat in
  (content published.1.2 p == Some (as_bytes "second-complete"))
  && forallb (fun t => match returned t with Some (Ok _) => true | _ => false end) ended.2
  && (content ended.1.2 p == Some (as_bytes "first-complete"))
  && (size (d_names ended.1.2) =? 1)%nat.

Lemma overlapping_test_passes : overlapping_atomic_writers_publish_only_their_own_complete_frames = true.
Proof. vm_compute. reflexivity. Qed.

(** [shared_cache_writers_never_publish_a_partial_or_foreign_record]: thread
    [n], with the cache of the log [n/wal]. The directory has nothing else in
    it. *)
Definition shared_payload (n : nat) : bytes := repeat (byte_of (Z.of_nat n)) (Z.to_nat 8192).
Definition shared_ops (payload : bytes) : list CacheOp :=
  concat (repeat [SaveWal "same-etag" payload; SaveSnapshot "same-snapshot-key" payload;
                  LoadWal (zlen payload); LoadSnapshot "same-snapshot-key" (zlen payload)] 32).
Definition shared_log (n : nat) : string := dec (Z.of_nat n) +:+ "/wal".
Definition shared_client (q : process) (n : nat) : process * path * (string * string) * list CacheOp :=
  (q, dir, ("backend", shared_log n), shared_ops (shared_payload n)).
Definition shared_clients (q : process) : list (process * path * (string * string) * list CacheOp) :=
  shared_client q <$> seq 0 8.

Definition hit_bytes (h : Hit) : bytes := match h with HitWal _ image => image | HitSnapshot _ d => d end.

Lemma shared_ops_elem payload o : o ∈ shared_ops payload ->
  o ∈ [SaveWal "same-etag" payload; SaveSnapshot "same-snapshot-key" payload;
       LoadWal (zlen payload); LoadSnapshot "same-snapshot-key" (zlen payload)].
Proof.
  unfold shared_ops. rewrite list_elem_of_In, in_concat. intros (l & Hl%repeat_spec & H). subst l.
  by apply list_elem_of_In.
Qed.

Lemma shared_saves payload h : save_of h ∈ shared_ops payload -> hit_bytes h = payload.
Proof.
  intros H%shared_ops_elem. rewrite !elem_of_cons, elem_of_nil in H.
  destruct h; destruct_or! H; try done; by injection H.
Qed.

Lemma shared_log_inj n m : (n < 8)%nat -> (m < 8)%nat -> shared_log n = shared_log m -> n = m.
Proof.
  intros Hn Hm H%(f_equal as_bytes). unfold shared_log in H. rewrite !as_bytes_app in H.
  apply app_inv_tail, as_bytes_inj in H. apply dec_inj in H; zlia.
Qed.

Lemma shared_clients_sane q : is_u64 q ->
  Forall (fun '(q, _, (ns, wk), os) => is_u64 q /\ sane_str ns /\ sane_str wk /\ Forall op_sane os) (shared_clients q).
Proof.
  intros Hq. apply Forall_fmap, Forall_forall. intros n [_ Hn]%elem_of_seq. cbn. split_and!; [done|by vm_compute| |].
  - do 8 (destruct n as [|n]; [by vm_compute|]). lia.
  - apply Forall_forall. intros o Ho%shared_ops_elem. rewrite !elem_of_cons, elem_of_nil in Ho.
    destruct_or! Ho; subst; by try vm_compute.
Qed.

(** The test, for every interleaving of the eight threads: whatever a load
    hits is the thread's own payload, and no temporary file remains. *)
Lemma shared_cache_writers_never_publish_a_partial_or_foreign_record q c ps : is_u64 q ->
  rtc disk_step (([], empty_disk), cache_threads 2 (clients_of (shared_clients q))) (c, ps) ->
  (forall n hits, ps !! n = Some (Ret hits) -> Forall (fun h => hit_bytes h = shared_payload n) hits)
  /\ ((forall n p, ps !! n = Some p -> exists hits, p = Ret hits) ->
      forall t, tmp_file t = true -> content c.2 t = None).
Proof.
  intros Hq Hrun. pose proof (shared_clients_sane q Hq) as Hs.
  assert (machine_ok empty_disk) as Hm by apply disk_of_ok.
  assert (2 + size (d_names empty_disk) <= 2)%nat as Hf by (vm_compute; lia).
  split; [|intros Hret t Ht; by rewrite (clients_leave_none _ Hm 2 Hf _ Hs c ps t Hrun)].
  intros n hits Hn. apply Forall_forall. intros h Hh.
  assert (n < 8)%nat as Hlt.
  { apply run_threads in Hrun as [Hlen _]; [|by constructor]. cbn [fst snd] in Hlen. apply lookup_lt_Some in Hn.
    unfold cache_threads, clients_of, shared_clients in *. rewrite !length_fmap, length_seq in Hlen. lia. }
  assert (shared_clients q !! n = Some (shared_client q n)) as Hl.
  { unfold shared_clients. by rewrite list_lookup_fmap, lookup_seq_lt by done. }
  destruct (client_hits_saved _ Hm 2 Hf _ Hs c ps n q _ _ _ _ hits h Hrun Hl Hn Hh) as [_ [H|(j & q' & dir' & os' & Hj & Ho)]].
  - done.
  - unfold shared_clients in Hj. apply list_lookup_fmap_Some in Hj as (m & Heq & Hm').
    unfold shared_client in Heq. injection Heq as _ _ Hlog ->. apply lookup_seq in Hm' as [-> Hlt'].
    apply shared_log_inj in Hlog as ->; [|done..].
    by apply shared_saves.
Qed.
