(* ===== verification/WalTests.v ===== *)
(** * The unit test of src/src/wal.rs (lines 1090-1116) *)

From S2P Require Import Prelude Fmt Error Atomic Store Proc World Compactor Testing.

Abbreviation MemWorld := (World MemoryStore).

Definition on_store {R} (f : MemoryStore -> MemoryStore * R) : T MemWorld R := exec_ (request f).

(** The closure [|| Ok(keys.next().unwrap().into())]: [keys] are the world's
    random draws. *)
Definition next_of_keys : proc MemWorld (Result string string) :=
  let! key := next_random in
  match key with
  | Some bs => Ret (Ok (string_of_list_byte bs))
  | None => Panic "called `Option::unwrap()` on a `None` value"
  end.

Definition data_at (key : string) : T MemWorld bytes :=
  let$ r := on_store (get key) in
  let$ o := unwrap r in
  let$ stored := unwrap_some o in
  tret (st_data stored).

Definition snapshot_collision_retries_without_overwriting_the_existing_object : T MemWorld unit :=
  let$ r := on_store (put "snap/collision" (as_bytes "acknowledged-history")) in
  let$ _ := unwrap r in
  let$ r := exec_ (publish_snapshot (as_bytes "candidate") next_of_keys) in
  let$ key := unwrap r in
  check (key == "snap/new");;
  let$ data := data_at "snap/collision" in
  check (data == as_bytes "acknowledged-history");;
  let$ data := data_at key in
  check (data == as_bytes "candidate");;
  let$ r := exec_ (publish_snapshot (as_bytes "replacement") (Ret (Ok "snap/collision"))) in
  check (is_err r);;
  let$ data := data_at "snap/collision" in
  check (data == as_bytes "acknowledged-history").

Lemma wal_test_passes :
  passes snapshot_collision_retries_without_overwriting_the_existing_object
    (mkWorld (MemoryStore_new None) empty_fs [Some (as_bytes "snap/collision"); Some (as_bytes "snap/new")] [] []) = true.
Proof. vm_compute. reflexivity. Qed.
