(* ===== verification/Benches.v ===== *)
(** * The benchmarks (src/benches/cache.rs, review.rs, resources.rs and wal.rs)

    Their applications and workloads: what each program does to the log and
    what it asserts, with its constants, as a thread over the world of its
    store; a failed [unwrap] or assertion is its result. The percentiles are
    functions of the samples. The clock, the printing and the meter of the
    heap are left out, and so are the barriers that hold a compaction back:
    they only restrict the schedules. *)

From stdpp Require Import sorting.
From S2P Require Import Prelude Fmt Error Image App CountApp BlobKv Proc Atomic Store Sim World Core Compactor Writer Testing.

(** ** Percentiles of the samples *)

(** [timings.sort()] *)
Definition sorted_samples (times : list Z) : list Z := merge_sort Z.le times.

(** wal.rs: [sorted[(sorted.len() - 1) * p / 100]]; [None] is the panic. *)
Definition percentile (sorted : list Z) (p : Z) : option Z :=
  sorted !! Z.to_nat (wrap64 (wrap64 (zlen sorted - 1) * p) / 100).

(** [div_ceil] *)
Definition div_ceil (a b : Z) : Z := if a mod b =? 0 then a / b else a / b + 1.

(** cache.rs *)
Definition cache_percentile (times : list Z) (percent : Z) : option Z :=
  times !! Z.to_nat (wrap64 (div_ceil (wrap64 (zlen times * percent)) 100 - 1)).

(** review.rs *)
Definition review_percentile (times : list Z) (p : Z) : option Z :=
  times !! Z.to_nat (Z.max 0 (div_ceil (wrap64 (zlen times * p)) 100 - 1)).

(** ** Applications *)

(** review.rs: as [Count], with a message of its own. *)
Module ReviewCount.
Definition restore (bs : bytes) : Result Z WalError :=
  if zlen bs =? 8 then Ok (from_le_bytes bs) else Err (AppError "bad counter snapshot").
Definition compact (base : option bytes) (entries : list Entry) : option (Result bytes WalError) :=
  Some (let? count := match base with Some b => restore b | None => Ok 0 end in
        Ok (to_le_bytes 8 (wrapping_add count (zlen entries)))).
End ReviewCount.

(** [Count] and [HeldCount] of review.rs. *)
Definition ReviewCountApp : WalApp := {|
  State := Z;
  init := Count.init;
  apply := Count.apply;
  restore := ReviewCount.restore;
  compact := ReviewCount.compact;
  should_compact := default_should_compact;
  reconcile := default_reconcile;
  reconcile_batch := default_reconcile_batch default_reconcile;
|}.

(** resources.rs: a counter whose snapshots have a size of their own. *)
Module SizedCount.
Definition restore (snapshot : bytes) : Result Z WalError :=
  if zlen snapshot <? 8 then Err (AppError "short snapshot") else Ok (from_le_bytes (take 8 snapshot)).
(** [None] is the panic of [bytes[..8]]. *)
Definition compact (snapshot_bytes : Z) (base : option bytes) (entries : list Entry) : option (Result bytes WalError) :=
  match (let? count := match base with Some b => restore b | None => Ok 0 end in
         Ok (wrapping_add count (zlen entries))) with
  | Err e => Some (Err e)
  | Ok count =>
      if snapshot_bytes <? 8 then None
      else Some (Ok (to_le_bytes 8 count ++ repeat x00 (Z.to_nat (snapshot_bytes - 8))))
  end.
End SizedCount.

Definition SizedCountApp (snapshot_bytes : Z) : WalApp := {|
  State := Z;
  init := Count.init;
  apply := Count.apply;
  restore := SizedCount.restore;
  compact := SizedCount.compact snapshot_bytes;
  should_compact := default_should_compact;
  reconcile := default_reconcile;
  reconcile_batch := default_reconcile_batch default_reconcile;
|}.

(** ** The statements of the workloads *)

(** What ends a benchmark: an [unwrap] on an error, or an assertion. *)
Inductive BenchPanic : Type :=
  | UnwrapWal (e : WalError)
  | UnwrapWrite (e : WriteError)
  | AssertionFailed (what : string)
  | DivideByZero | IndexOutOfRange.

Notation "'let!?' x ':=' p 'in' k" := (bind p (fun r => match r with Ok x => k | Err e => Ret (Err e) end))
  (at level 10, x pattern, p at level 100, k at level 200) : waltier_scope.

Definition unwrap_wal {A} (r : Result A WalError) : Result A BenchPanic :=
  match r with Ok a => Ok a | Err e => Err (UnwrapWal e) end.
Definition unwrap_write {A} (r : Result A WriteError) : Result A BenchPanic :=
  match r with Ok a => Ok a | Err e => Err (UnwrapWrite e) end.
Definition assert_that {A} (what : string) (b : bool) (a : A) : Result A BenchPanic :=
  if b then Ok a else Err (AssertionFailed what).

Section statements.
Context {S : Type} `{ObjectStore S} `{WalApp}.
Abbreviation proc := (proc (World S)).
Abbreviation step := (WalTier -> proc (Result WalTier BenchPanic)).

(** [WalTier::open(..).unwrap()] *)
Definition opened (opts : Options) : proc (Result WalTier BenchPanic) :=
  let! r := WalTier_open opts in Ret (unwrap_wal r).
(** [wal.write(entry).unwrap()] *)
Definition entry_written (entry : bytes) : step := fun wal =>
  let! (wal, r) := write entry wal in Ret (let? _ := unwrap_write r in Ok wal).
(** [wal.write_batch(entries).unwrap()] *)
Definition batch_written (entries : list bytes) : step := fun wal =>
  let! (wal, r) := write_batch entries wal in Ret (let? _ := unwrap_write r in Ok wal).
(** [assert!(wal.compact_now())] *)
Definition compaction_started : step := fun wal =>
  let! (wal, started) := compact_now wal in Ret (assert_that "wal.compact_now()" started wal).
(** [let _ = wal.wait_for_compaction(); assert!(wal.has_pending_fold())] *)
Definition fold_awaited : step := fun wal =>
  let! (wal, _) := wait_for_compaction wal in
  Ret (assert_that "wal.has_pending_fold()" (has_pending_fold wal) wal).
(** [wal.flush().unwrap()] *)
Definition flushed : step := fun wal =>
  let! (wal, r) := flush wal in Ret (let? _ := unwrap_wal r in Ok wal).
(** [wal.close().unwrap()] *)
Definition closed {A} (a : A) (wal : WalTier) : proc (Result A BenchPanic) :=
  let! r := close wal in Ret (let? _ := unwrap_wal r in Ok a).

(** [for i in first..first + n] *)
Fixpoint for_range (n : nat) (first : Z) (body : Z -> step) : step := fun wal =>
  match n with
  | O => Ret (Ok wal)
  | Datatypes.S n => let!? wal := body first wal in for_range n (first + 1) body wal
  end.

(** [vec![vec![0; entry_bytes]; batch]] *)
Definition zero_entries (entry_bytes batch : Z) : list bytes := repeat (repeat x00 (Z.to_nat entry_bytes)) (Z.to_nat batch).

(** Percentiles of no samples are out of range. *)
Definition sampled {A} (n : Z) (a : A) : Result A BenchPanic := if n <=? 0 then Err IndexOutOfRange else Ok a.

End statements.

(** [store.stats()] *)
Definition sim_stats {S : Type} `{ObjectStore S} : proc (World (SimStore S)) SimStats := request (fun s => (s, counters s)).

(** ** cache.rs *)

Section cache.
Context {S : Type} `{ObjectStore S}.
#[local] Existing Instance CountApp.

Definition cache_options (dir : path) (policy : CachePolicy) : Options :=
  let o := Options_new dir in
  {| cache_dir := cache_dir o; cache_policy := policy; max_pending_deletes := max_pending_deletes o; prefix := prefix o;
     max_write_attempts := max_write_attempts o; max_image_bytes := max_image_bytes o;
     max_live_entries := max_live_entries o; max_snapshot_bytes := max_snapshot_bytes o |}.

(** One of the rounds: the commits, then a compaction that [flush] installs. *)
Definition cache_round (commits batch entry_bytes : Z) (_ : Z) (wal : WalTier (H := CountApp)) :=
  let!? wal := for_range (S := S) (Z.to_nat commits) 0 (fun _ => batch_written (zero_entries entry_bytes batch)) wal in
  let!? wal := compaction_started wal in
  flushed wal.

Definition cache_rounds (rounds commits batch : Z) (dir : path) (policy : CachePolicy) (entry_bytes : Z)
  : proc (World S) (Result Z BenchPanic) :=
  let!? wal := opened (cache_options dir policy) in
  let!? wal := for_range (Z.to_nat rounds) 0 (cache_round commits batch entry_bytes) wal in
  let!? wal := Ret (assert_that "*wal.state()" (WalTier_state wal =? rounds * commits * batch) wal) in
  closed (WalTier_state wal) wal.

(** [run]: 12 rounds of 16 commits of 64 entries. *)
Definition cache_run : path -> CachePolicy -> Z -> proc (World S) (Result Z BenchPanic) := cache_rounds 12 16 64.

End cache.

(** The cases of [main], the policy in the inner loop. *)
Definition cache_cases : list (Z * CachePolicy) :=
  concat ((fun bytes => (fun policy => (bytes, policy)) <$> [Disabled; EveryCommit; OnFlush]) <$> [64; 4096]).

(** ** review.rs *)

(** [store(rtt_ms)] *)
Definition review_store (rtt_ms : Z) : SimStore MemoryStore :=
  with_latency {| l_rtt := rtt_ms * 1000000; l_bytes_per_sec := if rtt_ms =? 0 then 0 else 100000000; l_jitter := QArith_base.Qmake 0 1 |}
    (SimStore_new (MemoryStore_new None)).

(** What [report] is given besides the times. *)
Record Measured : Type := mkMeasured { m_entries : Z; m_before : SimStats; m_after : SimStats }.

Section review.
Context {S : Type} `{ObjectStore S}.
#[local] Existing Instance ReviewCountApp.
Abbreviation Handle := (WalTier (H := ReviewCountApp)).
Abbreviation world := (World (SimStore S)).

(** A commit, a compaction and the wait for its fold. *)
Definition fold_prepared (wal : Handle) : proc world (Result Handle BenchPanic) :=
  let!? wal := entry_written (repeat x00 64) wal in
  let!? wal := compaction_started wal in
  fold_awaited wal.

(** [install_latency]: of 20 times, the commit that installs a fold. *)
Definition install_rounds (rounds : Z) (dir : path) : proc world (Result Measured BenchPanic) :=
  let!? wal := opened (Options_new dir) in
  let!? wal := fold_prepared wal in
  let!? wal := flushed wal in
  let! before := sim_stats in
  let!? wal := for_range (Z.to_nat rounds) 0 (fun _ wal =>
    let!? wal := fold_prepared wal in entry_written (repeat x00 64) wal) wal in
  let!? wal := Ret (assert_that "*wal.state()" (WalTier_state wal =? 2 * rounds + 1) wal) in
  let!? _ := closed tt wal in
  let! after := sim_stats in
  Ret (sampled rounds (mkMeasured (2 * rounds) before after)).
Definition install_latency : path -> proc world (Result Measured BenchPanic) := install_rounds 20.

(** Sixteen commits per fold. *)
Definition sustained_round (batch entry_bytes : Z) (_ : Z) (wal : Handle) : proc world (Result Handle BenchPanic) :=
  let!? wal := for_range 16 0 (fun _ => batch_written (zero_entries entry_bytes batch)) wal in
  let!? wal := compaction_started wal in
  let!? wal := fold_awaited wal in
  flushed wal.

Definition sustained_folds (batch entry_bytes folds : Z) (dir : path) : proc world (Result Measured BenchPanic) :=
  let!? wal := opened (Options_new dir) in
  let! before := sim_stats in
  let!? wal := for_range (Z.to_nat folds) 0 (sustained_round batch entry_bytes) wal in
  let entries := wrap64 (wrap64 (folds * 16) * batch) in
  let!? wal := Ret (assert_that "*wal.state()" (WalTier_state wal =? entries) wal) in
  let!? _ := closed tt wal in
  let! after := sim_stats in
  Ret (sampled (folds * 16) (mkMeasured entries before after)).

(** [compaction_lag]: 12 cohorts of 16 commits are accepted while the prefix
    before them is being folded. *)
Definition lag_round (commits batch : Z) (_ : Z) (wal : Handle) : proc world (Result Handle BenchPanic) :=
  let!? wal := compaction_started wal in
  let!? wal := for_range (Z.to_nat commits) 0 (fun _ => batch_written (zero_entries 64 batch)) wal in
  let!? wal := fold_awaited wal in
  flushed wal.

Definition lag_rounds (rounds commits batch : Z) (dir : path) : proc world (Result Measured BenchPanic) :=
  let!? wal := opened (Options_new dir) in
  let!? wal := batch_written (zero_entries 64 batch) wal in
  let! before := sim_stats in
  let!? wal := for_range (Z.to_nat rounds) 0 (lag_round commits batch) wal in
  let!? wal := Ret (assert_that "*wal.state()" (WalTier_state wal =? rounds * commits * batch + batch) wal) in
  let!? _ := closed tt wal in
  let! after := sim_stats in
  Ret (sampled (rounds * commits) (mkMeasured (rounds * commits * batch) before after)).
Definition compaction_lag : path -> proc world (Result Measured BenchPanic) := lag_rounds 12 16 64.

End review.

Definition sustained_label (batch rtt_ms entry_bytes folds : Z) : string :=
  if negb (folds =? 12) then "extended_batch" +:+ dec batch +:+ "_rtt" +:+ dec rtt_ms
  else if entry_bytes =? 64 then "steady_batch" +:+ dec batch +:+ "_rtt" +:+ dec rtt_ms
  else "steady_batch" +:+ dec batch +:+ "_rtt" +:+ dec rtt_ms +:+ "_entry" +:+ dec entry_bytes.

(** The cases of [main]. *)
Inductive ReviewCase : Type :=
  | InstallLatency
  | Sustained (batch rtt_ms entry_bytes folds : Z)
  | CompactionLag.

Definition review_cases (arg : option string) : list ReviewCase :=
  if bool_decide (arg = Some "--small") then [Sustained 64 0 64 120; Sustained 64 1 64 12]
  else [InstallLatency] ++ ((fun batch => Sustained batch 1 64 12) <$> [1; 8; 64; 256])
    ++ [Sustained 64 0 64 12; Sustained 64 1 4096 12; CompactionLag; Sustained 64 0 64 120].

(** ** resources.rs *)

Section resources.
Context {S : Type} `{ObjectStore S}.
Variable snapshot_bytes : Z.
#[local] Existing Instance SizedCountApp.
Abbreviation Handle := (WalTier (H := SizedCountApp snapshot_bytes)).
Abbreviation proc := (proc (World S)).

Definition retained_batch (batch : Z) (dir cold_dir : path) : proc (Result Z BenchPanic) :=
  let!? wal := opened (H0 := SizedCountApp snapshot_bytes) (Options_new dir) in
  let!? wal := batch_written (zero_entries 64 batch) wal in
  let!? wal := compaction_started wal in
  let!? wal := fold_awaited wal in
  let!? wal := flushed wal in
  let! r := Replica_open (H0 := SizedCountApp snapshot_bytes) (Options_new cold_dir) in
  let!? replica := Ret (unwrap_wal r) in
  let!? _ := Ret (assert_that "*replica.state()" (Replica_state replica =? batch) tt) in
  closed (Replica_state replica) wal.

(** The prefix that a compaction starts with; the barriers hold its thread
    back until the main thread has seen it started. *)
Definition startup_batch (batch entry_bytes : Z) (dir : path) : proc (Result unit BenchPanic) :=
  let!? wal := opened (H0 := SizedCountApp snapshot_bytes) (Options_new dir) in
  let!? wal := batch_written (zero_entries entry_bytes batch) wal in
  let!? wal := compaction_started wal in
  let!? wal := fold_awaited wal in
  closed tt wal.

End resources.

Definition retained_snapshot {S} `{ObjectStore S} : path -> path -> proc (World S) (Result Z BenchPanic) :=
  retained_batch (Z.shiftl 16 20) 1024.
Definition compaction_start {S} `{ObjectStore S} : path -> proc (World S) (Result unit BenchPanic) :=
  startup_batch 8 4096 4096.

(** The cases of [main]; [None] is its panic. *)
Inductive ResourceCase : Type := RetainedSnapshot | CompactionStart.
Definition resource_cases (arg : option string) : option (list ResourceCase) :=
  match arg with
  | None => Some [RetainedSnapshot; CompactionStart]
  | Some a =>
      if bool_decide (a = "snapshot") then Some [RetainedSnapshot]
      else if bool_decide (a = "startup") then Some [CompactionStart]
      else None
  end.

(** ** wal.rs *)

#[local] Instance CompactionStatus_eq_dec : EqDecision CompactionStatus.t.
Proof. solve_decision. Defined.

(** [sim_store(latency)] *)
Definition sim_store (l : Latency) : SimStore MemoryStore := with_latency l (SimStore_new (MemoryStore_new None)).

Section wal.
Context {S : Type} `{ObjectStore S} `{HashOrder}.
Abbreviation world := (World (SimStore S)).
Abbreviation Handle := (WalTier (H := BlobKvApp _)).

(** [key as u32 % 1024] *)
Definition small_key (i : Z) : Z := (i mod 2 ^ 32) mod 1024.

Definition bench_writes (writes payload compact_at : Z) (dir : path) : proc world (Result (WalStats * SimStats) BenchPanic) :=
  let!? wal := opened (H0 := BlobKvApp compact_at) (Options_new dir) in
  let!? wal := for_range (Z.to_nat writes) 0 (fun i => entry_written (BlobKv.entry_for (small_key i) payload)) wal in
  let!? _ := Ret (sampled writes tt) in
  let stats := WalTier_stats wal in
  let! counts := sim_stats in
  closed (stats, counts) wal.

(** [commits = (cfg.writes / 4).max(10)] *)
Definition batch_commits (writes : Z) : Z := Z.max (writes / 4) 10.
Definition batch_sizes : list Z := [1; 8; 64].

(** The case of one of the sizes; the result is its [total]. *)
Definition bench_batched_writes (writes batch : Z) (dir : path) : proc world (Result Z BenchPanic) :=
  let!? wal := opened (H0 := BlobKvApp 256) (Options_new dir) in
  let commits := batch_commits writes in
  let!? _ := for_range (Z.to_nat commits) 0 (fun c =>
    batch_written ((fun i => BlobKv.entry_for (small_key (wrap64 (wrap64 (c * batch) + i))) 64) <$> seqZ 0 batch)) wal in
  Ret (Ok (wrap64 (commits * batch))).

(** The means of the first and last tenths: with fewer than ten writes they
    are divided by zero. *)
Definition bench_image_growth (writes payload : Z) (dir : path) : proc world (Result Z BenchPanic) :=
  let!? wal := opened (H0 := BlobKvApp U64_MAX) (Options_new dir) in
  let!? wal := for_range (Z.to_nat writes) 0 (fun i => entry_written (BlobKv.entry_for (i mod 2 ^ 32) payload)) wal in
  Ret (if writes / 10 =? 0 then Err DivideByZero else Ok (s_image_bytes (WalTier_stats wal))).

(** [assert!(wal.wait_for_compaction().unwrap() == CompactionStatus::Ready)] *)
Definition compaction_ready (wal : WalTier (H := BlobKvApp U64_MAX)) : proc world (Result (WalTier (H := BlobKvApp U64_MAX)) BenchPanic) :=
  let! (wal, r) := wait_for_compaction wal in
  Ret (let? status := unwrap_wal r in
       assert_that "wal.wait_for_compaction().unwrap() == CompactionStatus::Ready" (bool_decide (status = CompactionStatus.Ready)) wal).

Definition OPEN_BLOB : Z := Z.shiftl 1 20.

(** Eight blobs folded into a snapshot, then two opens with a cache of their
    own, the first of them empty. The result is the size that is printed and
    the two states. *)
Definition bench_open (blob : Z) (dir cold_dir : path) : proc world (Result (Z * option BlobMap * option BlobMap) BenchPanic) :=
  let!? wal := opened (H0 := BlobKvApp U64_MAX) (Options_new dir) in
  let!? wal := for_range 8 0 (fun key => entry_written (BlobKv.entry_for key blob)) wal in
  let!? wal := compaction_started wal in
  let!? wal := compaction_ready wal in
  let!? _ := flushed wal in
  let snapshot_bytes := wrap64 (8 * (blob + 8)) in
  let!? cold := opened (H0 := BlobKvApp U64_MAX) (Options_new cold_dir) in
  let!? warm := opened (H0 := BlobKvApp U64_MAX) (Options_new cold_dir) in
  Ret (Ok (snapshot_bytes, WalTier_state cold, WalTier_state warm)).

(** [assert_eq!(replica.refresh().unwrap(), changed)], [n] times *)
Fixpoint replica_polls (n : nat) (changed : bool) (replica : Replica (H0 := BlobKvApp U64_MAX))
  : proc world (Result (Replica (H0 := BlobKvApp U64_MAX)) BenchPanic) :=
  match n with
  | O => Ret (Ok replica)
  | Datatypes.S n =>
      let! (replica, r) := Replica_refresh replica in
      let!? replica := Ret (let? b := unwrap_wal r in assert_that "replica.refresh().unwrap()" (Bool.eqb b changed) replica) in
      replica_polls n changed replica
  end.

Definition bench_replica (dir replica_dir : path) : proc world (Result (option BlobMap) BenchPanic) :=
  let!? wal := opened (H0 := BlobKvApp U64_MAX) (Options_new dir) in
  let!? wal := entry_written (BlobKv.entry_for 0 64) wal in
  let! r := Replica_open (H0 := BlobKvApp U64_MAX) (Options_new replica_dir) in
  let!? replica := Ret (unwrap_wal r) in
  let!? replica := replica_polls 20 false replica in
  let!? _ := for_range 10 0 (fun i => entry_written (BlobKv.entry_for i 1024)) wal in
  let!? replica := replica_polls 1 true replica in
  Ret (Ok (Replica_state replica)).

End wal.

(** *** The arguments *)

Record BenchArgs : Type := mkBenchArgs { rtt_ms : Z; mbps : Z; writes : Z }.
Definition default_args : BenchArgs := mkBenchArgs 15 100 200.

(** [None] is the panic of a missing or malformed number. *)
Fixpoint parse_args (args : list string) (cfg : BenchArgs) : option BenchArgs :=
  match args with
  | [] => Some cfg
  | arg :: args =>
      if bool_decide (arg = "--rtt-ms") then
        match args with v :: args => n ← parse_u64 v; parse_args args (mkBenchArgs n (mbps cfg) (writes cfg)) | [] => None end
      else if bool_decide (arg = "--mbps") then
        match args with v :: args => n ← parse_u64 v; parse_args args (mkBenchArgs (rtt_ms cfg) n (writes cfg)) | [] => None end
      else if bool_decide (arg = "--writes") then
        match args with v :: args => n ← parse_u64 v; parse_args args (mkBenchArgs (rtt_ms cfg) (mbps cfg) n) | [] => None end
      else if bool_decide (arg = "--quick") then parse_args args (mkBenchArgs 5 (mbps cfg) 60)
      else parse_args args cfg
  end.

(** [cfg] of [main] *)
Definition bench_cfg (args : BenchArgs) : Latency * Z := (s3_like (rtt_ms args) (mbps args), writes args).
Definition local_cfg : Latency * Z := (Latency_default, 2000).

(** The cases of [main], each with its latency and number of writes. *)
Inductive WalCase : Type :=
  | Writes (payload compact_at : Z) | BatchedWrites | ImageGrowth (payload : Z) | OpenCase | ReplicaCase.
Definition wal_cases (args : list string) : option (list (Latency * Z * WalCase)) :=
  args ← parse_args args default_args;
  Some ((local_cfg, Writes 64 64) :: ((fun case => (bench_cfg args, case)) <$>
    [Writes 64 64; Writes 4096 64; BatchedWrites; ImageGrowth 256; OpenCase; ReplicaCase])).

(** ** Runs

    Every workload with smaller parameters, in the schedule in which a thread
    acts as long as it can: compactions run while the main thread waits. *)

Definition bench_thread {W A} (p : proc W (Result A BenchPanic)) : proc W (option (Result A BenchPanic + string)) :=
  on_panic (let! r := p in Ret (Some (inl r))) (fun m => Ret (Some (inr m))).

Definition bench_run {S A} `{ObjectStore S} (app : WalApp) (store : S) (p : proc (World S) (Result A BenchPanic))
  : option (Result A BenchPanic + string) :=
  let ids := (fun n => Some (repeat (byte_of n) 16)) <$> seqZ 0 40 in
  let started w := match spawned w with Some (w, p) => Some (w, let! _ := p in Ret None) | None => None end in
  let (_, ps) := schedule started 5000 (mkWorld store empty_fs ids [] []) [bench_thread p] in
  match all_ended ps with Some (r :: _) => r | _ => None end.

Lemma cache_runs : (fun policy => bench_run CountApp (MemoryStore_new None) (cache_rounds 2 2 2 ["tmp"] policy 4))
    <$> [Disabled; EveryCommit; OnFlush] = repeat (Some (inl (Ok 8))) 3.
Proof. vm_compute. reflexivity. Qed.

(** Four PUTs lead to the first installed fold, three follow in each round: the
    commit, the snapshot and the commit that installs it. *)
Lemma install_runs :
  match bench_run ReviewCountApp (review_store 15) (install_rounds 2 ["tmp"]) with
  | Some (inl (Ok m)) => Some (m_entries m, n_puts (m_before m), n_puts (m_after m))
  | _ => None
  end = Some (4, 4, 10).
Proof. vm_compute. reflexivity. Qed.

Lemma sustained_runs :
  match bench_run ReviewCountApp (review_store 0) (sustained_folds 2 4 2 ["tmp"]) with
  | Some (inl (Ok m)) => Some (m_entries m, n_puts (m_after m) - n_puts (m_before m))
  | _ => None
  end = Some (64, 2 * (16 + 2)).
Proof. vm_compute. reflexivity. Qed.

Lemma lag_runs :
  match bench_run ReviewCountApp (review_store 1) (lag_rounds 2 3 2 ["tmp"]) with
  | Some (inl (Ok m)) => Some (m_entries m, n_puts (m_after m) - n_puts (m_before m))
  | _ => None
  end = Some (12, 2 * (3 + 2)).
Proof. vm_compute. reflexivity. Qed.

Lemma resources_run :
  bench_run (SizedCountApp 16) (MemoryStore_new None) (retained_batch 16 3 ["tmp"] ["cold"]) = Some (inl (Ok 3))
  /\ bench_run (SizedCountApp 8) (MemoryStore_new None) (startup_batch 8 3 4 ["tmp"]) = Some (inl (Ok tt)).
Proof. split; vm_compute; reflexivity. Qed.

Lemma bench_writes_runs :
  match bench_run (BlobKvApp 3) (sim_store (s3_like 15 100)) (bench_writes 5 4 3 ["tmp"]) with
  | Some (inl (Ok (stats, counts))) => Some (s_live_entries stats, n_puts counts)
  | _ => None
  end = Some (5, 6).
Proof. vm_compute. reflexivity. Qed.

Lemma bench_image_growth_runs :
  bench_run (BlobKvApp U64_MAX) (sim_store (s3_like 15 100)) (bench_image_growth 10 2 ["tmp"]) = Some (inl (Ok 109))
  /\ bench_run (BlobKvApp U64_MAX) (sim_store (s3_like 15 100)) (bench_image_growth 9 2 ["tmp"]) = Some (inl (Err DivideByZero)).
Proof. split; vm_compute; reflexivity. Qed.

(** Both opens read the eight blobs; the second finds them in its cache. *)
Lemma bench_open_runs :
  match bench_run (BlobKvApp U64_MAX) (sim_store (s3_like 15 100)) (bench_open 2 ["tmp"] ["cold"]) with
  | Some (inl (Ok (size, Some cold, Some warm))) => Some (size, bool_decide (cold = warm), zlen (map_to_list cold))
  | _ => None
  end = Some (80, true, 8).
Proof. vm_compute. reflexivity. Qed.

Lemma bench_replica_runs :
  match bench_run (BlobKvApp U64_MAX) (sim_store (s3_like 15 100)) (bench_replica ["tmp"] ["cold"]) with
  | Some (inl (Ok (Some m))) => Some (bool_decide (zlen <$> m = list_to_map ((fun k => (k, 1024)) <$> seqZ 0 10)))
  | _ => None
  end = Some true.
Proof. vm_compute. reflexivity. Qed.

Lemma quick_args : parse_args ["--bench"; "--rtt-ms"; "+7"; "--writes"; "0100"; "--mbps"; "5"] default_args = Some (mkBenchArgs 7 5 100)
  /\ parse_args ["--rtt-ms"; "9"; "--quick"] default_args = Some (mkBenchArgs 5 100 60)
  /\ parse_args ["--writes"; "18446744073709551616"] default_args = None
  /\ parse_args ["--mbps"] default_args = None.
Proof. by vm_compute. Qed.
