(* ===== verification/BenchProps.v ===== *)
(** * What the benchmarks rely on

    The workload of src/benches/cache.rs under every schedule: the statements
    of [Benches] keep the handle of a lone writer in step with its log, so
    that only a failure of a compaction or of the clean-up can end a
    benchmark early. Also the percentiles, and the contract of
    the counting applications. *)

From stdpp Require Import sorting.
From S2P Require Import Prelude Fmt Utf8 Error Image ImageCodec App CountApp BlobKv Proc Atomic AtomicProps Cache CacheChecksum CacheProps CacheTheorems Store StoreProps Sim World Core Compactor Writer Protocol Invariant Steps StepsCache StepsStore CoreProps CompactorProps WriterInv InstallProps WriterProps Scenario System Progress ReplicaProps MaintenanceProps FootprintProps Availability Testing Benches.

(** ** The statements keep the handle in step *)

Section statements.
Context {S : Type} `{ObjectStoreLaws S} `{WalAppLaws}.
Variable P : string.
Variable ns : option string.
Context `{!LogNames P ns} `{!Responsive S}.
Abbreviation World := (World S).
Abbreviation proc := (proc World).
Abbreviation cfg := (History * World)%type.
Abbreviation lwp := (Proc.wp sane_world (record P) (lrely P ns) (lguar P ns) (fun _ _ => True)).
Implicit Types (c : cfg) (self : WalTier).

(** What may end a benchmark that is alone on its log: a compaction or a
    deletion that failed, or a thread that could not be created. *)
Definition environment (e : BenchPanic) : Prop :=
  match e with
  | UnwrapWal e => maintenance_error e
  | AssertionFailed what => what = "wal.compact_now()"
  | _ => False
  end.

(** The validated options, and where the live entries started. *)
Variable o : Options.
Variable b : Z.

Definition in_step (hist : list bytes) self c : Prop :=
  inv P ns c /\ writer_ok P ns self c /\ synced P b self c /\ opts (core self) = o /\ entries c.1 = hist.

(** A statement that appends [es], while there is room. *)
Definition appends (p : WalTier -> proc (Result WalTier BenchPanic)) (es : list bytes) : Prop :=
  forall hist self c, in_step hist self c -> Forall entry_ok es -> roomy P b o (hist ++ es) ->
    lwp 0 (p self) (fun r c' => match r with Ok self' => in_step (hist ++ es) self' c' | Err e => environment e end) no_panic c.

Lemma idle_in_step hist self c self' c' : in_step hist self c -> idle P ns b self c self' c' -> in_step (hist ++ []) self' c'.
Proof. intros (_ & _ & _ & Ho & He) (Hi & _ & Hok & Hs & Ho' & He'). rewrite app_nil_r. split_and!; done || congruence. Qed.

Lemma appends_written e : appends (entry_written e) [e].
Proof.
  intros hist self c (Hi & Hok & Hs & Ho & He) Hes Hroom. rewrite <- Ho, <- He in *. unfold entry_written, write.
  apply wp_bind, wp_bind, (lwp_append P ns b); [done..|].
  intros [s r] c1 (Hi1 & _ & Hok1 & Hs1 & Ho1 & Hr & Hent). cbn in *. subst r. split_and!; done || congruence.
Qed.

Lemma appends_batch es : appends (batch_written es) es.
Proof.
  intros hist self c (Hi & Hok & Hs & Ho & He) Hes Hroom. rewrite <- Ho, <- He in *. unfold batch_written.
  apply wp_bind, (lwp_append P ns b); [done..|].
  intros [s r] c1 (Hi1 & _ & Hok1 & Hs1 & Ho1 & Hr & Hent). cbn in *. subst r. split_and!; done || congruence.
Qed.

Lemma appends_compaction_started : appends compaction_started [].
Proof.
  intros hist self c Hh _ _. pose proof Hh as (Hi & Hok & Hs & _). unfold compaction_started. apply wp_bind.
  apply (lwp_core_same P ns b _ self); [done|done|apply changes_compact_now|by apply (wp_compact_now P ns)|].
  intros [s started] c1 Hid. cbn [Proc.wp fst]. destruct started; [|done]. by eapply idle_in_step.
Qed.

Lemma appends_flushed : appends flushed [].
Proof.
  intros hist self c Hh _ Hroom. pose proof Hh as (Hi & Hok & Hs & Ho & He). unfold flushed. apply wp_bind.
  rewrite app_nil_r in Hroom. apply (lwp_flush P ns b); [done..|by rewrite Ho, He|].
  intros [s r] c1 Hid Hm. cbn [Proc.wp]. destruct r as [st|e]; [|exact Hm]. by eapply idle_in_step.
Qed.

Lemma appends_seq p q es es' : appends p es -> appends q es' ->
  appends (fun s => let!? s := p s in q s) (es ++ es').
Proof.
  intros Hp Hq hist self c Hh [Hes Hes']%Forall_app Hroom. rewrite app_assoc in Hroom |- *. apply wp_bind.
  eapply wp_mono; [|apply Hp; [exact Hh|done|eapply roomy_prefix; [|exact Hroom]; by eexists]].
  intros [self'|e] c' Hr; [by apply Hq|done].
Qed.

Lemma appends_range n first body es : (forall i, appends (body i) es) ->
  appends (for_range n first body) (concat (repeat es n)).
Proof.
  intros Hb. revert first. induction n as [|n IH]; intros first; cbn [for_range repeat concat].
  { intros hist self c Hh _ _. cbn [Proc.wp]. by rewrite app_nil_r. }
  exact (appends_seq _ _ _ _ (Hb first) (IH (first + 1))).
Qed.

Lemma lwp_closed {A} (a : A) hist self c : in_step hist self c -> roomy P b o hist ->
  lwp 0 (closed a self) (fun r c' => match r with Ok a' => a' = a /\ inv P ns c' /\ entries c'.1 = hist | Err e => environment e end)
    no_panic c.
Proof.
  intros (Hi & Hok & Hs & Ho & He) Hroom. unfold closed, close. apply wp_bind, wp_bind, (lwp_flush P ns b); [done..|by rewrite Ho, He|].
  intros [s r] c1 (Hi1 & _ & _ & _ & _ & He1) Hm. cbn [Proc.wp snd] in *. destruct r as [st|e]; [|exact Hm].
  cbn [rbind unwrap_wal]. split_and!; [done|done|congruence].
Qed.

(** The handle's state is that of the whole history. *)
Lemma in_step_state hist self c : in_step hist self c -> seqv (WalTier_state self) (replay hist).
Proof.
  intros (Hi & Hok & Hs & _ & He). destruct (synced_cur P ns b self c Hi Hok Hs) as [_ Hn].
  pose proof (co_state _ _ _ _ (wo_core _ _ _ _ (proj1 Hok))) as Ha. unfold at_image in Ha. rewrite Hn, He in Ha.
  by rewrite take_ge in Ha by (unfold zlen; lia).
Qed.

End statements.

(** ** Every schedule of a benchmark is finite *)

Section tame.
Context {S : Type} `{ObjectStore S} `{WalApp}.
#[local] Hint Resolve brisk_Core_open tame_append tame_compact_now calm_wait tame_flush : tame.

Lemma tame_opened opts : tame (opened (S := S) opts).
Proof. unfold opened, WalTier_open. walk. Qed.
Lemma tame_written e self : tame (entry_written (S := S) e self).
Proof. unfold entry_written, write. walk. Qed.
Lemma tame_batch es self : tame (batch_written (S := S) es self).
Proof. unfold batch_written, write_batch. walk. Qed.
Lemma tame_compaction_started self : tame (compaction_started (S := S) self).
Proof. unfold compaction_started. walk. Qed.
Lemma tame_flushed self : tame (flushed (S := S) self).
Proof. unfold flushed. walk. Qed.
Lemma tame_closed {A} (a : A) self : tame (closed (S := S) a self).
Proof. unfold closed, close. walk. Qed.

Lemma tame_range n first (body : Z -> WalTier -> proc (World S) (Result WalTier BenchPanic)) self :
  (forall i self, tame (body i self)) -> tame (for_range n first body self).
Proof.
  intros Hb. revert first self. induction n as [|n IH]; intros first self; cbn [for_range]; [done|].
  apply tame_bind; [apply Hb|]. by intros [s|e].
Qed.

Lemma tame_bench_thread {A} (p : proc (World S) (Result A BenchPanic)) : tame p -> tame (bench_thread p).
Proof. intros Hp. apply tame_on_panic; [|done]. by apply tame_bind. Qed.

End tame.
#[export] Hint Resolve tame_opened tame_written tame_batch tame_compaction_started tame_flushed tame_closed : tame.

(** ** cache.rs *)

Lemma concat_repeat {A} (x : A) m n : concat (repeat (repeat x m) n) = repeat x (n * m).
Proof. induction n as [|n IH]; [done|]. cbn [repeat concat Nat.mul]. by rewrite IH, repeat_app. Qed.

Lemma entries_size_repeat e n : entries_size (repeat e n) = Z.of_nat n * (4 + zlen e).
Proof. induction n as [|n IH]; [done|]. cbn [repeat entries_size foldr]. fold (entries_size (repeat e n)). rewrite IH. lia. Qed.

Lemma all_repeat {A} (Q : A -> Prop) x n : Q x -> Forall Q (repeat x n).
Proof. intros Hx. induction n; by constructor. Qed.

Lemma zlen_repeat {A} (x : A) n : zlen (repeat x n) = Z.of_nat n.
Proof. unfold zlen. by rewrite repeat_length. Qed.

Section cache.
Context {S : Type} `{ObjectStoreLaws S}.
Variable ns : option string.
Context `{!LogNames "" ns} `{!Responsive S}.
Abbreviation cfg := (History * World S)%type.
Abbreviation lwp := (Proc.wp sane_world (record "") (lrely "" ns) (lguar "" ns) (fun _ _ => True)).
Abbreviation in_step := (in_step (H1 := CountApp) "" ns).
Abbreviation appends := (appends (H1 := CountApp) "" ns).
Implicit Types (c : cfg).

Lemma tame_cache_rounds rounds commits batch dir policy entry_bytes :
  tame (cache_rounds (S := S) rounds commits batch dir policy entry_bytes).
Proof.
  assert (forall i self, tame (cache_round (S := S) commits batch entry_bytes i self)) as Hround.
  { intros i self. unfold cache_round. apply tame_bind; [apply tame_range; intros; auto with tame|]. walk. }
  unfold cache_rounds. apply tame_bind; [auto with tame|]. intros [s|e]; [|done].
  apply tame_bind; [by apply tame_range|]. walk.
Qed.

Variable o : Options.
Variables rounds commits batch entry_bytes : Z.
Hypothesis Hrounds : 0 <= rounds.
Hypothesis Hcommits : 0 <= commits.
Hypothesis Hbatch : 0 <= batch.
Hypothesis Hbytes : 0 <= entry_bytes <= U32_MAX.
Abbreviation total := (rounds * commits * batch).

Lemma appends_round b i : appends o b (cache_round commits batch entry_bytes i) (zero_entries entry_bytes (commits * batch)).
Proof.
  assert (zero_entries entry_bytes (commits * batch)
    = concat (repeat (zero_entries entry_bytes batch) (Z.to_nat commits)) ++ [] ++ []) as ->.
  { unfold zero_entries. rewrite concat_repeat, !app_nil_r. f_equal. lia. }
  apply (appends_seq "" ns o b (for_range (Z.to_nat commits) 0 (fun _ => batch_written (zero_entries entry_bytes batch)))
    (fun s => let!? s := compaction_started s in flushed s)).
  - apply (appends_range "" ns). intros _. apply (appends_batch "" ns).
  - apply (appends_seq "" ns o b compaction_started flushed); [by apply appends_compaction_started|by apply appends_flushed].
Qed.

Lemma appends_rounds b : appends o b (for_range (Z.to_nat rounds) 0 (cache_round commits batch entry_bytes)) (zero_entries entry_bytes total).
Proof.
  assert (zero_entries entry_bytes total
    = concat (repeat (zero_entries entry_bytes (commits * batch)) (Z.to_nat rounds))) as ->.
  { unfold zero_entries. rewrite concat_repeat. f_equal. lia. }
  apply appends_range, appends_round.
Qed.

(** Its entries are the history, and its state counts them. *)
Lemma lwp_cache_rounds dir policy c : inv "" ns c -> entries c.1 = [] -> base "" c.2 = 0 -> log_of "" c.2 = None ->
  validate answer_limit (cache_options dir policy) = Ok o -> total <= max_live_entries o ->
  79 + total * (4 + entry_bytes) <= max_image_bytes o ->
  lwp 0 (cache_rounds rounds commits batch dir policy entry_bytes)
    (fun r c' => match r with
       | Ok n => n = total /\ inv "" ns c' /\ entries c'.1 = zero_entries entry_bytes total
       | Err e => environment e
       end) no_panic c.
Proof.
  intros Hi He Hbase Hlog Hv Hcount Hsize. assert (opts_typed "" (cache_options dir policy)) as Hty by by split_and!.
  pose proof (validate_ok "" _ _ _ Hty Hv) as Hok. pose proof (oo_entries _ _ Hok) as Hmax.
  assert (0 <= total) as Htotal by nia.
  assert (roomy "" 0 o (zero_entries entry_bytes total)) as Hroom.
  { unfold zero_entries. split; change (Z.to_nat 0) with 0%nat; rewrite ?drop_0.
    - rewrite zlen_repeat. zlia.
    - rewrite zlen_repeat. lia.
    - apply all_repeat. rewrite zlen_repeat. lia.
    - done.
    - rewrite entries_size_repeat, zlen_repeat. cbn [str_len]. rewrite !Z2Nat.id by lia. exact Hsize. }
  unfold cache_rounds, opened. apply wp_bind, wp_bind.
  apply (lwp_WalTier_open "" ns 0 _ o); [done|done|done| |by unfold based; rewrite Hbase|].
  { unfold log_fits. by rewrite Hlog. }
  intros self c1 Hi1 Hok1 Hs1 Ho1 He1. cbn [Proc.wp unwrap_wal]. apply wp_bind.
  eapply wp_mono; [|apply (appends_rounds 0 []); [split_and!; done || congruence|by apply Forall_true|done]].
  intros [self'|e] c2 Hh; [|exact Hh]. cbn [app] in Hh.
  assert (WalTier_state self' = total) as Hst.
  { rewrite (in_step_state _ _ _ _ _ _ _ Hh). unfold replay. rewrite count_replay_from by done. unfold zero_entries. rewrite zlen_repeat.
    change (@init CountApp) with 0. rewrite wrap64_small by zlia. lia. }
  unfold assert_that. rewrite Hst, Z.eqb_refl. apply wp_bind. cbn [Proc.wp].
  eapply wp_mono; [|eapply (lwp_closed (H1 := CountApp) "" ns o 0); [exact Hh|exact Hroom]].
  intros [n|e] c3 Hr; [|exact Hr]. destruct Hr as (-> & Hr). by rewrite Hst.
Qed.

Abbreviation step := (pstep sane_world (record "") (spawned_as None)).

Definition cache_done (r : option (Result Z BenchPanic + string)) c : Prop :=
  exists res, r = Some (inl res) /\
    match res with
    | Ok n => n = total /\ inv "" ns c /\ entries c.1 = zero_entries entry_bytes total
    | Err e => environment e
    end.

(** C22. The benchmark of src/benches/cache.rs on a new log. If its entries are
    within the limits (12,288 of 64 or 4,096 bytes are), then under every
    cache policy and every schedule of its thread and its compactions it comes
    to an end: no write fails, the asserted state is the number of entries, and
    the history is exactly the entries that were written. Only a compaction
    that failed, a thread that could not be created or a deletion that failed
    can end it early. *)
Theorem cache_bench_counts dir policy w c ps :
  fresh_world w -> cache_namespace (w_store w) = ns ->
  validate answer_limit (cache_options dir policy) = Ok o -> total <= max_live_entries o ->
  79 + total * (4 + entry_bytes) <= max_image_bytes o ->
  rtc step (([], w), [bench_thread (cache_rounds rounds commits batch dir policy entry_bytes)]) (c, ps) ->
  Acc (flip step) (([], w), [bench_thread (cache_rounds rounds commits batch dir policy entry_bytes)])
  /\ (can_step None (c, ps) \/ exists r, ps !! 0%nat = Some (Ret (Some (inl r))))
  /\ (forall r, ps !! 0%nat = Some (Ret r) -> exists res, r = Some (inl res) /\
        match res with
        | Ok n => n = total /\ entries c.1 = zero_entries entry_bytes total
        | Err e => environment e
        end).
Proof.
  intros Hw Hns Hv Hcount Hsize Hrun. set (p := bench_thread _) in *.
  pose proof (inv_initial (H1 := CountApp) "" w Hw) as Hi. rewrite Hns in Hi.
  assert (log_of "" w = None) as Hlog by (unfold log_of; by rewrite (fw_objects _ Hw), lookup_empty).
  assert (base "" w = 0) as Hbase by (unfold base, snap_ref, cur; unfold log_of in Hlog; by rewrite Hlog).
  pose proof (lwp_cache_rounds dir policy ([], w) Hi eq_refl Hbase Hlog Hv Hcount Hsize) as Hwp.
  destruct (lone_pool_ok "" ns None cache_done ([], w) [p] c ps Hi) as (Hic & Hlen & Hall); [cbn; lia| |exact Hrun|].
  { intros i q Hq. apply list_lookup_singleton_Some in Hq as [-> <-]. unfold p, bench_thread.
    eapply (wp_on_panic _ _ _ _ _ _ _ _ _ no_panic); [by intros m c1 Hm|]. apply wp_bind. eapply wp_mono; [|exact Hwp].
    intros r c1 Hr. cbn [Proc.wp]. intros _. by exists r. }
  cbn [fst snd] in *. assert (forall r, ps !! 0%nat = Some (Ret r) -> cache_done r c) as Hret.
  { intros r Hp. destruct (Hall 0%nat _ Hp) as (c1 & Hq & [(_ & Hg & _) Hl]). destruct (Hq eq_refl) as (res & -> & Hres).
    exists res. split; [done|]. destruct res as [n|e]; [|done]. destruct Hres as (-> & Hi1 & He1). split_and!; [done|done|].
    rewrite <- He1. by eapply entries_still; [..|apply Hl]. }
  split; [apply (schedules_finite None)|]. split.
  - destruct (lookup_lt_is_Some_2 ps 0%nat) as [q Hq]; [lia|].
    destruct (progress_thread None "" [p] ([], w) c ps 0 q (fw_jobs _ Hw)) as [Hs|[(r & ->)|(m & ->)]]; [|exact Hrun|exact Hq|by left| |].
    + constructor; [|done]. apply tame_bench_thread, tame_cache_rounds.
    + right. destruct (Hret r Hq) as (res & -> & _). by exists res.
    + by destruct (Hall 0%nat _ Hq) as (c1 & Hm & _).
  - intros r Hp. destruct (Hret r Hp) as (res & -> & Hres). exists res. split; [done|]. destruct res; [|done].
    by destruct Hres as (-> & _ & He).
Qed.

End cache.

(** The cases of [main] are within the limits. *)
Lemma cache_cases_fit dir : Forall (fun case =>
    exists o, validate None (cache_options dir case.2) = Ok o /\ 12 * 16 * 64 <= max_live_entries o
      /\ 79 + 12 * 16 * 64 * (4 + case.1) <= max_image_bytes o) cache_cases.
Proof. repeat constructor; (eexists; split; [reflexivity|by split; vm_compute]). Qed.

(** *** A concrete schedule: the compactions run beside the commits *)

Definition bench_world : World MemoryStore :=
  mkWorld mem0 empty_fs ((fun n => Some (repeat (byte_of n) 16)) <$> seqZ 0 40) [] [].
Definition bench_pool := (([], bench_world) : mcfg, [bench_thread (cache_rounds 2 2 2 ["tmp"] Disabled 4)]).
Definition bench_end := foldl (tick_as sane_b None) bench_pool (concat (repeat [0; 0; 1; 9; 2]%nat 24)).

Lemma fresh_bench_world : fresh_world bench_world.
Proof.
  split; [apply MemoryStore_new_wf|done|done|done| |done|done].
  apply Forall_fmap, Forall_true. by intros n id [= <-].
Qed.

Definition bench_result (p : option (proc (World MemoryStore) (option (Result Z BenchPanic + string)))) : option (Result Z BenchPanic) :=
  match p with Some (Ret (Some (inl res))) => Some res | _ => None end.

Lemma bench_result_Some p res : bench_result p = Some res -> p = Some (Ret (Some (inl res))).
Proof. destruct p as [[[[r|m]|]|R f k|m]|]; cbn; congruence. Qed.

Lemma cache_bench_counts_witness :
  bench_result (bench_end.2 !! 0%nat) = Some (Ok 8) /\ length bench_end.2 = 3%nat
  /\ snap_ref "" bench_end.1.2 <> None /\ entries bench_end.1.1 = repeat (repeat x00 4) 8.
Proof.
  assert (bench_result (bench_end.2 !! 0%nat) = Some (Ok 8)) as He by (vm_compute; reflexivity).
  split; [exact He|]. split; [vm_compute; reflexivity|]. split; [vm_compute; discriminate|].
  assert (rtc (pstep sane_world (record "") (spawned_as None)) (([], bench_world),
    [bench_thread (cache_rounds 2 2 2 ["tmp"] Disabled 4)]) (bench_end.1, bench_end.2)) as Hrun
    by (unfold bench_end; exact (ticks_pair_as sane_b sane_b_spec None _ bench_pool)).
  destruct (cache_bench_counts ns0 (cache_options ["tmp"] Disabled) 2 2 2 4 ltac:(lia) ltac:(lia) ltac:(lia) ltac:(by split; vm_compute)
    ["tmp"] Disabled bench_world bench_end.1 bench_end.2 fresh_bench_world eq_refl) as (_ & _ & Hret);
    [vm_compute; reflexivity|by vm_compute|by vm_compute|exact Hrun|].
  destruct (Hret _ (bench_result_Some _ _ He)) as (res & Heq & Hres). injection Heq as <-.
  destruct Hres as [_ Hent]. rewrite Hent. reflexivity.
Defined.

(** ** Percentiles *)

(** The samples that are at most [t]. *)
Definition not_above (t : Z) (times : list Z) : list Z := filter (fun x => x <= t) times.

Lemma sorted_below (l : list Z) i (t : Z) : StronglySorted Z.le l -> l !! i = Some t -> (i < length (not_above t l))%nat.
Proof.
  intros Hs. unfold not_above. revert i. induction Hs as [|x l Hs IH Hx]; intros i Hi; [done|].
  assert (x <= t) as Hxt.
  { destruct i as [|i]; cbn in Hi; [by injection Hi as ->|]. by eapply (Forall_lookup_1 _ _ _ _ Hx). }
  rewrite filter_cons_True by done. cbn [length]. destruct i as [|i]; [lia|]. cbn in Hi. apply IH in Hi. lia.
Qed.

(** The sample at index [i] of the sorted ones: at least [i + 1] are not above it. *)
Lemma sample_rank times i : 0 <= i < zlen times ->
  exists t, sorted_samples times !! Z.to_nat i = Some t /\ t ∈ times /\ i + 1 <= zlen (not_above t times).
Proof.
  intros Hi. pose proof (merge_sort_Permutation Z.le times) as Hp. fold (sorted_samples times) in Hp.
  destruct (lookup_lt_is_Some_2 (sorted_samples times) (Z.to_nat i)) as [t Ht]; [rewrite Hp; zlia|].
  exists t. split; [done|]. split; [rewrite <- Hp; by eapply list_elem_of_lookup_2|].
  assert (zlen (not_above t times) = zlen (not_above t (sorted_samples times))) as ->.
  { unfold zlen, not_above. by rewrite Hp. }
  apply sorted_below in Ht; [unfold zlen; lia|]. apply StronglySorted_merge_sort; apply _.
Qed.

Lemma div_ceil_spec a d : 0 <= a -> 0 < d -> a <= d * div_ceil a d < a + d.
Proof. intros Ha Hd. unfold div_ceil. pose proof (Z.div_mod a d). pose proof (Z.mod_pos_bound a d). destruct (Z.eqb_spec (a mod d) 0); lia. Qed.

(** At least [p] percent of the samples are not above the nearest rank that
    cache.rs and review.rs report. *)
Lemma nearest_rank times p : 0 < zlen times -> 1 <= p <= 100 -> zlen times * p <= U64_MAX ->
  exists t, cache_percentile (sorted_samples times) p = Some t /\ review_percentile (sorted_samples times) p = Some t
    /\ t ∈ times /\ p * zlen times <= 100 * zlen (not_above t times).
Proof.
  intros Hn Hp Hmax. pose proof (div_ceil_spec (zlen times * p) 100) as Hc. set (k := div_ceil (zlen times * p) 100) in *.
  assert (1 <= k <= zlen times) as Hk by nia. unfold cache_percentile, review_percentile.
  assert (zlen (sorted_samples times) = zlen times) as ->.
  { unfold zlen. f_equal. apply Permutation_length, merge_sort_Permutation. }
  rewrite (wrap64_small (zlen times * p)) by (unfold is_u64; lia). fold k.
  rewrite (wrap64_small (k - 1)) by zlia. rewrite Z.max_r by lia.
  destruct (sample_rank times (k - 1)) as (t & Ht & Hin & Hcount); [lia|]. exists t. split_and!; [done..|]. lia.
Qed.

(** What wal.rs reports is not above the nearest rank by more than one sample. *)
Lemma percentile_rank times p : 0 < zlen times -> 1 <= p <= 100 -> zlen times * p <= U64_MAX ->
  exists t, percentile (sorted_samples times) p = Some t /\ t ∈ times
    /\ p * (zlen times - 1) < 100 * zlen (not_above t times).
Proof.
  intros Hn Hp Hmax. unfold percentile.
  assert (zlen (sorted_samples times) = zlen times) as ->.
  { unfold zlen. f_equal. apply Permutation_length, merge_sort_Permutation. }
  rewrite (wrap64_small (zlen times - 1)) by (unfold is_u64; nia). rewrite wrap64_small by (unfold is_u64; nia).
  set (i := (zlen times - 1) * p / 100). assert (0 <= i < zlen times /\ (zlen times - 1) * p < 100 * (i + 1)) as [Hi Hlt].
  { unfold i. pose proof (Z.div_mod ((zlen times - 1) * p) 100). pose proof (Z.mod_pos_bound ((zlen times - 1) * p) 100). nia. }
  destruct (sample_rank times i) as (t & Ht & Hin & Hcount); [lia|]. exists t. split_and!; [done..|]. lia.
Qed.

(** Without samples there is none. *)
Lemma percentile_none p : 0 <= p -> percentile [] p = None /\ cache_percentile [] p = None /\ review_percentile [] p = None.
Proof. intros Hp. by unfold percentile, cache_percentile, review_percentile; rewrite ?lookup_nil. Qed.

(** ** The counting applications satisfy the contract *)

Lemma review_restore n : is_u64 n -> ReviewCount.restore (to_le_bytes 8 n) = Ok n.
Proof. intros Hn. unfold ReviewCount.restore. rewrite zlen_to_le_bytes. cbn [Z.of_nat]. rewrite from_to_le_bytes, Z.mod_small by (cbn; zlia). done. Qed.

Lemma sized_restore n pad : is_u64 n -> SizedCount.restore (to_le_bytes 8 n ++ pad) = Ok n.
Proof.
  intros Hn. unfold SizedCount.restore. rewrite zlen_app, zlen_to_le_bytes. pose proof (zlen_nonneg pad).
  destruct (Z.ltb_spec (Z.of_nat 8 + zlen pad) 8); [lia|]. pose proof (zlen_to_le_bytes 8 n) as Hl. unfold zlen in Hl.
  rewrite take_app_length' by lia. by rewrite from_to_le_bytes, Z.mod_small by (cbn; zlia).
Qed.

(** The count after the replay of more entries. *)
Lemma count_replay_app (hist es : list bytes) : wrap64 (wrap64 (0 + zlen hist) + zlen es) = wrap64 (0 + zlen (hist ++ es)).
Proof. unfold wrap64. by rewrite Zplus_mod_idemp_l, zlen_app, Z.add_assoc. Qed.

#[global] Program Instance ReviewCountApp_laws : WalAppLaws (H := ReviewCountApp) := {|
  seqv := eq;
  entry_ok _ := True;
|}.
Next Obligation. by intros ?? n e ->. Qed.
Next Obligation.
  intros es d _ _ Hc. cbn in Hc. injection Hc as <-. rewrite zlen_entries_at. eexists. split; [by apply review_restore, wrap64_range|].
  change (wrap64 (0 + zlen es) = replay (H := CountApp) es).
  unfold replay. by rewrite count_replay_from.
Qed.
Next Obligation.
  intros hist es b s d _ _ Hb Hs Hc. change (ReviewCount.restore b = Ok s) in Hb.
  change (ReviewCount.compact (Some b) (entries_at (zlen hist) es) = Some (Ok d)) in Hc.
  unfold ReviewCount.compact in Hc. rewrite Hb in Hc. cbn [rbind] in Hc. injection Hc as <-. subst s.
  rewrite zlen_entries_at. eexists. split; [by apply review_restore, wrap64_range|].
  change (wrap64 (replay (H := CountApp) hist + zlen es) = replay (H := CountApp) (hist ++ es)).
  unfold replay. rewrite !count_replay_from by done. apply count_replay_app.
Qed.
Next Obligation. intros s es es' H _. by apply Forall_true. Qed.

#[global] Program Instance SizedCountApp_laws snapshot_bytes : WalAppLaws (H := SizedCountApp snapshot_bytes) := {|
  seqv := eq;
  entry_ok _ := True;
|}.
Next Obligation. by intros ??? n e ->. Qed.
Next Obligation.
  intros size es d _ _ Hc. cbn in Hc. destruct (size <? 8); [done|]. injection Hc as <-. rewrite zlen_entries_at.
  eexists. split; [by apply sized_restore, wrap64_range|]. change (wrap64 (0 + zlen es) = replay (H := CountApp) es).
  unfold replay. by rewrite count_replay_from.
Qed.
Next Obligation.
  intros size hist es b s d _ _ Hb Hs Hc. change (SizedCount.restore b = Ok s) in Hb.
  change (SizedCount.compact size (Some b) (entries_at (zlen hist) es) = Some (Ok d)) in Hc.
  unfold SizedCount.compact in Hc. rewrite Hb in Hc. cbn [rbind] in Hc. destruct (size <? 8); [done|]. injection Hc as <-. subst s.
  rewrite zlen_entries_at. eexists. split; [by apply sized_restore, wrap64_range|].
  change (wrap64 (replay (H := CountApp) hist + zlen es) = replay (H := CountApp) (hist ++ es)).
  unfold replay. rewrite !count_replay_from by done. apply count_replay_app.
Qed.
Next Obligation. intros size s es es' H _. by apply Forall_true. Qed.
