(* ===== verification/GroupTests.v ===== *)
(** * The unit tests of src/examples/group_commit.rs (lines 245-389)

    The test's thread and the writer's run on one world. The store of the tests
    holds the first conditional PUT back until the test releases it; here the
    writer rests just before that request ([until_started]) while the test
    goes on. *)

From S2P Require Import Prelude Fmt Error Image App Proc Atomic Store World Core Compactor Writer GroupCommit Testing.

Record HeldStore : Type := mkHeldStore { inner : MemoryStore; hs_calls : Z; unknown : bool }.
Definition with_inner (m : MemoryStore) (s : HeldStore) : HeldStore := mkHeldStore m (hs_calls s) (unknown s).

(** A request of the inner store. *)
Definition forward {R} (f : MemoryStore -> MemoryStore * R) (s : HeldStore) : HeldStore * R :=
  let (m, r) := f (inner s) in (with_inner m s, r).

Definition held_put_if_match (key : string) (etag : option string) (data : bytes) (s : HeldStore)
  : HeldStore * Result CondPut StoreError :=
  if bool_decide (key = "wal") && is_some etag then
    let calls := hs_calls s in
    let s := mkHeldStore (inner s) (wrapping_add calls 1) (unknown s) in
    if calls =? 0 then
      (* [started.send] and [release.recv_timeout] *)
      match forward (put_if_match key etag data) s with
      | (s, Err e) => (s, Err e)
      | (s, Ok result) => (s, if unknown s then Err (StoreError_new "accepted PUT reply lost") else Ok result)
      end
    else forward (put_if_match key etag data) s
  else forward (put_if_match key etag data) s.

#[global] Instance HeldStore_ObjectStore : ObjectStore HeldStore := {|
  cache_namespace := default_cache_namespace;
  max_object_bytes := default_max_object_bytes;
  get key := forward (get key);
  get_if_changed := default_get_if_changed (fun key => forward (get key));
  put_if_match := held_put_if_match;
  put key data := forward (put key data);
  delete_object key := forward (delete_object key);
|}.

Definition held (unknown : bool) : HeldStore := mkHeldStore (MemoryStore_new None) 0 unknown.

(** ** The test's thread beside the writer *)

Abbreviation GW := (World HeldStore * Shared)%type.
Record Bench : Type := mkBench { b_world : GW; b_worker : proc GW (Result Report WalError) }.

Definition main_ {A} (p : proc GW A) : T Bench A := fun b =>
  match run p (b_world b) with
  | Some (w, Returned a) => Some (mkBench w (b_worker b), a)
  | _ => None
  end.

Definition calls_of (w : GW) : Z := hs_calls (w_store w.1).

(** The writer acts until its next action is the first conditional PUT. *)
Fixpoint run_to_put (fuel : nat) (w : GW) (p : proc GW (Result Report WalError)) : option (GW * proc GW (Result Report WalError)) :=
  match fuel with
  | O => None
  | Datatypes.S fuel =>
      match action w p with
      | Some (w', p') => if calls_of w' =? calls_of w then run_to_put fuel w' p' else Some (w, p)
      | None => None
      end
  end.
Definition until_started : T Bench unit := fun b =>
  match run_to_put 1000 (b_world b) (b_worker b) with Some (w, p) => Some (mkBench w p, tt) | None => None end.

(** [release.send(())]: the writer goes on until it has ended or waits. *)
Definition release : T Bench unit := fun b =>
  let (w, p) := act_all 4000 (b_world b) (b_worker b) in Some (mkBench w p, tt).

(** [worker.join().unwrap()] *)
Definition join_worker : T Bench (Result Report WalError) := fun b =>
  match b_worker b with Ret r => Some (b, r) | _ => None end.

Definition receipt_empty (id : Receipt) : T Bench bool :=
  look (fun b => match receipts (b_world b).2 !! id with Some [] => true | _ => false end).
Definition receive (id : Receipt) : T Bench reply :=
  let$ o := main_ (shared_block (recv_receipt id)) in unwrap_some o.

(** [WalTier::open], [queue(2, 4)] and the first submission, before the writer
    is started. *)
Definition start (unknown : bool) (entry : bytes) : option (Bench * (Submitter * Receipt)) :=
  match queue 2 4 with
  | None => None
  | Some (submitter, shared) =>
      match run (WalTier_open Options_default) (mkWorld (held unknown) empty_fs [] [] []) with
      | Some (w, Returned (Ok wal)) =>
          match run (submit submitter entry) (w, shared) with
          | Some (w, Returned (Ok first)) => Some (mkBench w (run_writer 10 wal 2), (submitter, first))
          | _ => None
          end
      | _ => None
      end
  end.

(** [*Replica::open(store, Count, Options::default()).unwrap().state()] *)
Definition replica_state : T Bench Z :=
  let$ r := main_ (lift (Replica_open Options_default)) in
  let$ reader := unwrap r in
  tret (Replica_state reader).

Definition blocked_cas_withholds_receipts_bounds_queue_and_drains_after_producer_shutdown
    (submitter : Submitter) (first : Receipt) : T Bench unit :=
  until_started;;
  let$ r := main_ (try_submit submitter (as_bytes "bb")) in
  let$ second := unwrap r in
  let$ r := main_ (try_submit submitter (as_bytes "cc")) in
  let$ third := unwrap r in
  let$ r := main_ (try_submit submitter (as_bytes "d")) in
  let$ full := unwrap_err r in
  check (sub_reason full == "queue full");;
  check (sub_entry full == as_bytes "d");;
  let$ r := main_ (submit submitter (as_bytes "12345")) in
  let$ oversized := unwrap_err r in
  check (sub_reason oversized == "entry too large");;
  for_each [first; second; third] (fun receipt => let$ e := receipt_empty receipt in check e);;
  main_ (drop_sender (sb_tx submitter));;
  release;;
  for_each [(0, first); (1, second); (2, third)] (fun '(lsn, receipt) =>
    let$ r := receive receipt in
    let$ got := unwrap r in
    check (got =? lsn));;
  let$ r := join_worker in
  let$ report := unwrap r in
  check (r_acknowledged report =? 3);;
  check (r_commits report =? 2);;
  let$ s := replica_state in
  check (s =? 3).

Definition uncertain_batch_is_reported_once_and_queued_entries_are_not_applied
    (submitter : Submitter) (first : Receipt) : T Bench unit :=
  until_started;;
  let$ r := main_ (submit submitter (as_bytes "b")) in
  let$ second := unwrap r in
  release;;
  let$ r := receive first in
  let$ uncertain := unwrap_err r in
  check (we_outcome uncertain == Unknown);;
  check (we_entries uncertain == [as_bytes "a"]);;
  let$ r := receive second in
  let$ queued := unwrap_err r in
  check (we_outcome queued == NotApplied);;
  check (we_entries queued == [as_bytes "b"]);;
  let$ r := main_ (submit submitter (as_bytes "c")) in
  let$ rejected := unwrap_err r in
  check (sub_reason rejected == "writer stopped");;
  check (sub_entry rejected == as_bytes "c");;
  main_ (drop_sender (sb_tx submitter));;
  release;;
  let$ r := join_worker in
  let$ report := unwrap r in
  check (r_failed report =? 2);;
  let$ calls := look (fun b => calls_of (b_world b)) in
  check (calls =? 1);;
  let$ s := replica_state in
  check (s =? 1).

Definition closed_receiver_returns_unaccepted_entry_to_producer (submitter : Submitter) : T GW unit :=
  exec_ drop_receiver;;
  let$ r := exec_ (submit submitter (as_bytes "a")) in
  let$ error := unwrap_err r in
  check (sub_entry error == as_bytes "a");;
  check (sub_reason error == "writer stopped").

Definition passes_from (o : option (Bench * (Submitter * Receipt))) (t : Submitter -> Receipt -> T Bench unit) : bool :=
  match o with Some (b, (submitter, first)) => passes (t submitter first) b | None => false end.

Lemma blocked_cas_test_passes :
  passes_from (start false (as_bytes "aaaa"))
    blocked_cas_withholds_receipts_bounds_queue_and_drains_after_producer_shutdown = true.
Proof. vm_compute. reflexivity. Qed.

Lemma uncertain_batch_test_passes :
  passes_from (start true (as_bytes "a"))
    uncertain_batch_is_reported_once_and_queued_entries_are_not_applied = true.
Proof. vm_compute. reflexivity. Qed.

Lemma closed_receiver_test_passes :
  match queue 1 4 with
  | Some (submitter, shared) =>
      passes (closed_receiver_returns_unaccepted_entry_to_producer submitter)
        (mkWorld (held false) empty_fs [] [] [], shared)
  | None => false
  end = true.
Proof. vm_compute. reflexivity. Qed.
