(* ===== verification/Mains.v ===== *)
(** * The programs of the examples (src/examples/kv.rs, batch.rs and group_commit.rs)

    Each [main] as a thread over the world of its store, started on an empty
    one, with a run of it. What a program prints is part of its result; the
    clock is left out. *)

From S2P Require Import Prelude Fmt Error Image App Proc Atomic Store FsStore Sim World Core Compactor Writer System Kv GroupCommit Testing.
From S2P Require Import Batch.

(** [Box<dyn Error>] *)
Inductive MainError : Type := MainIo (e : IoErr) | MainWal (e : WalError) | MainWrite (e : WriteError) | MainPanic (m : string).

(** [?] in a [main] *)
Definition or_fail {W A B E} (f : E -> MainError) (r : Result A E) (k : A -> proc W (Result B MainError))
  : proc W (Result B MainError) :=
  match r with Ok a => k a | Err e => Ret (Err (f e)) end.

(** A thread of a pool that runs a [main] or a compaction. *)
Definition main_thread {W A} (p : proc W (Result A MainError)) : proc W (option (Result A MainError)) :=
  on_panic (let! r := p in Ret (Some r)) (fun m => Ret (Some (Err (MainPanic m)))).
Definition started {S A} `{ObjectStore S} (app : WalApp) (w : World S) : option (World S * proc (World S) (option A)) :=
  match spawned w with Some (w, p) => Some (w, let! _ := p in Ret None) | None => None end.

(** ** kv.rs *)

Section kv.
Context {S : Type} `{ObjectStore S}.
#[local] Existing Instance KvApp.

Record KvOutput : Type := mkKvOutput {
  kv_opened : Kv.Map;
  kv_lsns : list Lsn;
  kv_compaction : CompactionStatus.t;
  kv_flush : MaintenanceStatus;
  kv_state : Kv.Map;
  kv_stats : WalStats;
}.

Definition kv_sets : list (string * string) :=
  [("alpha", "1"); ("beta", "2"); ("alpha", "3"); ("gamma", "4"); ("delta", "5")].
Definition set_entry (p : string * string) : bytes := as_bytes ("set " +:+ p.1 +:+ " " +:+ p.2).

Fixpoint write_sets (sets : list (string * string)) (wal : WalTier (H := KvApp)) (lsns : list Lsn)
  : proc (World S) (WalTier (H := KvApp) * Result (list Lsn) WriteError) :=
  match sets with
  | [] => Ret (wal, Ok lsns)
  | p :: sets =>
      let! (wal, r) := write (set_entry p) wal in
      match r with Ok lsn => write_sets sets wal (lsns ++ [lsn]) | Err e => Ret (wal, Err e) end
  end.

(** [main] from [WalTier::open] on. *)
Definition kv_main (dir : path) : proc (World S) (Result KvOutput MainError) :=
  let! opened := WalTier_open (H0 := KvApp) (Options_new (dir ++ ["cache"])) in
  or_fail MainWal opened (fun wal =>
  let opened := WalTier_state wal in
  let! (wal, r) := write_sets kv_sets wal [] in
  or_fail MainWrite r (fun lsns =>
  let! (wal, r) := wait_for_compaction wal in
  or_fail MainWal r (fun compaction =>
  let! (wal, r) := flush wal in
  or_fail MainWal r (fun flushed =>
  Ret (Ok (mkKvOutput opened lsns compaction flushed (WalTier_state wal) (WalTier_stats wal))))))).
End kv.

(** The whole program: the store's directory and the cache are apart, so each
    has a file system of its own. *)
Definition kv_program (dir : path) (ids : list (option bytes)) : option (Result KvOutput MainError) :=
  match FsStore_new (dir ++ ["objects"]) false empty_fs ids with
  | (_, Err e) => Some (Err (MainIo e))
  | (_, Ok store) =>
      let (_, ps) := schedule (started KvApp) 3000 (mkWorld store empty_fs ids [] []) [main_thread (kv_main dir)] in
      match all_ended ps with Some (r :: _) => r | _ => None end
  end.

Definition some_ids : list (option bytes) := (fun n => Some (repeat (byte_of n) 16)) <$> seqZ 0 20.

(** In a new directory: the fourth live entry starts a compaction on a thread of
    its own, the wait finds its snapshot ready, the flush installs it. *)
Lemma kv_program_runs :
  match kv_program ["kv-demo-data"] some_ids with
  | Some (Ok out) => Some (map_to_list (kv_opened out), kv_lsns out, (kv_compaction out, ms_compaction (kv_flush out)), Kv.in_order (kv_state out))
  | _ => None
  end = Some ([], [0; 1; 2; 3; 4], (CompactionStatus.Ready, CompactionStatus.Installed),
              [("alpha", "3"); ("beta", "2"); ("delta", "5"); ("gamma", "4")]).
Proof. vm_compute. reflexivity. Qed.

(** ** batch.rs *)

Section batch.
Context {S : Type} `{ObjectStore S}.
#[local] Existing Instance AllocatorApp.
Abbreviation Handle := (WalTier (H := AllocatorApp)).

(** [handle.state()]; the state of a handle is never the [Err] of a panic. *)
Definition allocator_state {W A} (wal : Handle) (k : Allocator.AState -> proc W A) : proc W A :=
  match WalTier_state wal with Ok state => k state | Err m => Panic m end.

(** The result is what the last [println!] shows. *)
Definition batch_main (first_cache second_cache : path)
  : proc (World S) (Result ((Lsn * Lsn) * list Z) MainError) :=
  let! r := WalTier_open (H0 := AllocatorApp) (Options_new first_cache) in
  or_fail MainWal r (fun first =>
  let! r := WalTier_open (H0 := AllocatorApp) (Options_new second_cache) in
  or_fail MainWal r (fun second =>
  allocator_state second (fun state2 =>
  let pending := Allocator.allocations (Allocator.next_id state2) 2 in
  allocator_state first (fun state1 =>
  let! (first, r) := write_batch (Allocator.allocations (Allocator.next_id state1) 1) first in
  or_fail MainWrite r (fun _ =>
  let! (second, r) := write_batch pending second in
  or_fail MainWrite r (fun accepted =>
  if negb (bool_decide (accepted = (1, 3))) then Panic "assertion `left == right` failed" else
  allocator_state second (fun state2 =>
  if negb (bool_decide (Allocator.allocated state2 = [0; 1; 2])) then Panic "assertion `left == right` failed" else
  let! r := close second in
  or_fail MainWal r (fun _ =>
  let! r := close first in
  or_fail MainWal r (fun _ => Ret (Ok (accepted, Allocator.allocated state2))))))))))).
End batch.

Lemma batch_program_runs :
  match run (batch_main ["tmp1"] ["tmp2"]) (mkWorld (MemoryStore_new (Some (repeat x01 16))) empty_fs [] [] []) with
  | Some (_, Returned (Ok out)) => Some out
  | _ => None
  end = Some ((1, 3), [0; 1; 2]).
Proof. vm_compute. reflexivity. Qed.

(** ** group_commit.rs *)

Definition PRODUCERS : Z := 4.
Definition PER_PRODUCER : Z := 500.
Definition MAX_BATCH : Z := 256.
Definition MAX_ENTRY_BYTES : Z := 1024.
Definition QUEUE_CAPACITY : Z := 512.
Definition RECEIPT_WINDOW : Z := 128.

(** [format!("p{producer}-{index}").into_bytes()] *)
Definition group_entry (producer index : Z) : bytes := as_bytes ("p" +:+ dec producer +:+ "-" +:+ dec index).
Definition group_programs (producers per_producer : Z) : list (list bytes) :=
  (fun producer => group_entry producer <$> seqZ 0 per_producer) <$> seqZ 0 producers.

(** The threads of [main] over a store, after the handle was opened. [main]
    itself only waits for them. *)
Definition group_main {S} `{ObjectStore S} (producers per_producer : Z) (w : World S)
  : option ((World S * Shared) * list (proc (World S * Shared) gresult)) :=
  match run (WalTier_open (H0 := GroupCountApp) Options_default) w, queue QUEUE_CAPACITY MAX_ENTRY_BYTES with
  | Some (w, Returned (Ok wal)), Some (submitter, shared) =>
      let programs := group_programs producers per_producer in
      Some ((w, cloned (length programs) shared),
        group_pool (Datatypes.S (Z.to_nat (producers * per_producer))) wal MAX_BATCH submitter RECEIPT_WINDOW programs [])
  | _, _ => None
  end.

(** The joins: every producer has ended normally, the writer with a report
    that has no failures. *)
Definition group_main_report (results : list gresult) : option Report :=
  match results with
  | Wrote (Ok report) :: producers =>
      if forallb (fun r => match r with Produced => true | _ => false end) producers && (r_failed report =? 0)
      then Some report else None
  | _ => None
  end.

(** The run in which the writer acts only when no producer can: it finds the
    channel as full as the receipt windows let it get, and commits full
    batches. *)
Definition group_run (producers per_producer : Z) : option Report :=
  match group_main producers per_producer (mkWorld (with_latency (s3_like 15 100) (SimStore_new (MemoryStore_new None))) empty_fs [] [] []) with
  | None => None
  | Some (w, ps) =>
      let (_, ps) := schedule (fun _ => None) (Z.to_nat 100000) w (reverse ps) in
      match all_ended ps with Some results => group_main_report (reverse results) | None => None end
  end.

Lemma group_program_runs : group_run PRODUCERS PER_PRODUCER = Some (mkReport 2000 8 0).
Proof. vm_compute. reflexivity. Qed.
